(* ===== verification/_CoqProject ===== *)
-Q . S2P
Prelude.v
Values.v
Substrate.v
Model.v
Validate.v
Registry.v
RegistryConc.v
Lifecycle.v
Metrics.v
Runtime.v
Request.v
Dispatch.v
GoTime.v
Errors.v
Consumer.v
Channels.v
Callbacks.v
Imp.v
System.v
Closing.v
Ledger.v
Messages.v
Rest.v
Echo.v
Schedule.v
Soulstream.v
StateMonad.v
Mutex.v
Slots.v
Shared.v
Instants.v
Envelope.v
Backend.v
Store.v
Durable.v
Beacon.v
StoreConc.v
Natstest.v
