(* ===== verification/Prelude.v ===== *)
(** * imps: a verification development

    imps is a Go library for "imps": small event-driven programs on NATS. A program
    declares its channels, its state shapes and two callbacks — a cheap awareness
    function that judges every message, and a thinking function that runs in a
    goroutine of its own — and the harness does the rest: validation, startup,
    dispatch, acknowledgement, request/reply, per-entity state, metrics, shutdown.

    ** Parts and files

    - [Prelude]: machine integers with their wrap-around, call outcomes, shared
      lemmas, tactics and hint databases.
    - [Values]: errors with [errors.Is] (errors.go, state.go), Go's [any], and the
      payload types of the sub-packages.
    - [Substrate]: nats.go, its jetstream package and the soulstream owner library
      are not in the repository. The class [NatsTypes] names their types and pure
      functions, [NatsLaws] their documented behaviour, and [NatsEnv] is the running
      server: for every call of the source, its answer as a function of the whole
      history of calls before it. A theorem over a [NatsEnv] holds for every server.
      [Demo] is a concrete instance, for the witnesses.
    - [Model]: the declarative surface (spec.go, channel.go, verdict.go, context.go,
      options.go). A callback that works through a context interface is a tree of
      calls of that interface's methods, so an awareness function has no node for a
      method that [AwarenessContext] does not have.
    - [Validate]: validate.go. [validateSpec] against the predicate [spec_ok].
    - [Registry], [RegistryConc]: registry.go. The operations run alone, on a heap of
      slots so that references alias; and [ref] as the atomic steps of any number of
      interleaved calls.
    - [Lifecycle]: internal/lifecycle/state.go, with the documented transitions.
    - [Metrics]: metrics_internal.go. Counters as [uint64], the gauge as [int64].
    - [Runtime]: the runtime record of imp.go and the monad the rest runs in: a state
      transformer whose result returns, panics or blocks. Three ghost fields hold
      the log, the calls made on the substrate and the goroutines launched. The class
      [preserves] finds the frame of a computation from the frames of its parts.
    - [Request]: request.go, context_awareness.go, context_thinking.go.
    - [Dispatch]: dispatch.go, note.go, thinking.go and the per-message part of
      stream.go: both pipelines, the note hook, the thinking goroutine, each as a
      function on the runtime, run from beginning to end.
    - [Callbacks]: the same code as the goroutines run it: programs over their accesses
      (one count, one log record, one acknowledgement, one method call of user code),
      between which the rest of the program moves. Uninterrupted they are [Dispatch].
    - [GoTime], [Consumer]: the printing of durations; consumer configuration and the
      compatibility check of stream.go.
    - [Channels]: start.go and the binding and teardown of stream.go. The resources
      held on the server are read off the trace of calls.
    - [Imp]: imp.go: [NewImp], the phases of [Run] and [Shutdown], and both calls as
      they go when nobody else runs.
    - [System]: the same phases taken by any number of goroutines in any order:
      callers of [Run] and [Shutdown], message callbacks, thinking functions. One
      step is one access of a callback or of thinking, one iteration of a loop of
      [unwind], or takes a caller to its next program point; [sys_run] runs a
      schedule.
    - [Closing]: what follows for the lifecycle and for [Shutdown].
    - [Ledger]: quantities that schedules conserve. The class [Ledger] asks, one access
      at a time, what a message owes and what has been recorded of it; its theorem is
      that the two make up what has arrived, in every reachable state.
    - [Messages]: two ledgers, of the classifying counters and of acknowledgements, and
      the link between [System] and [Dispatch]. [Echo] has a third.
    - [Rest]: that every schedule ends, and where.
    - [Errors]: the texts of the [Error] methods of errors.go and state.go, with
      [strconv.Quote] and the UTF-8 it rests on.
    - [Echo]: examples/echo/main.go: its spec, its [main], and the whole system run
      on it.
    - [Schedule], [Soulstream]: the packages of those names.
    - [StateMonad]: the state monad of the objects below, whose computations return,
      panic or block.
    - [Mutex]: an object whose methods are critical sections of a [sync.Mutex], as the
      class [Guarded], and goroutines interleaved at every access inside them. The
      theorem that they serialise is proved once, against the class.
    - [Slots]: the slots of registry.go as such an object.
    - [Shared]: [RegistryConc] and [Slots] together: goroutines that ask for references
      and call through them, interleaved at every atomic operation of both.
    - [Instants], [Envelope]: what the persist package uses of package time and of
      encoding/json: instants with their zone, RFC 3339 printed and parsed, base64,
      the envelope document and the codec interface (codec.go).
    - [Backend]: backend.go: the interface with its laws as a class, and the adapter of
      a JetStream bucket, whose instance discharges the laws from the bucket's.
    - [Store]: store.go as it is, a map, a [container/list] and a heap of elements, and
      the same operations on a list of entries, the abstract cache.
    - [Durable]: the contract of the store over any lawful backend and codec.
    - [StoreConc]: the operations of the store cut into their accesses, the other
      object that implements [Guarded].
    - [Beacon]: beacon.go.
    - [Natstest]: testutil/natstest/server.go with the cleanup stacks of the tests.

    ** What the theorems show

    - System, Closing: a graceful shutdown is final and leaves nothing behind; the
      lifecycle makes documented transitions only when nobody calls [Shutdown] from
      outside, and nine more, each of which happens, when somebody does; callers of
      [Shutdown] agree and can always return; the wait group and the gauge count the
      goroutines exactly between their increment and their decrement. The method is a
      refinement: each step of the code is a step of the small [protocol], whose
      invariants are proved by cases on its rules. Two schedules show what is not
      guaranteed: a shutdown during startup is undone, and thinking can start after
      the drain.
    - Rest: without new calls and messages every schedule is finite, whatever user
      code does; where nothing moves, only user code and a [Run] nobody stops keep
      anything waiting, and all that arrived has been counted and answered. The order
      is that of multisets of goroutines, each of which is further on its way.
    - Messages: over every schedule, every message is classified once, and every stream
      message is acknowledged or refused once, never twice, whatever user code and the
      server do; a callback that nobody interrupts does what its pipeline does.
    - Channels: startup binds a prefix of the declarations in order, on the declared
      subjects, and the channel records account for exactly what is open on the
      server; unwinding releases it and is idempotent, one iteration at a time as in
      one go.
    - Dispatch: a stream message is acknowledged once, before the effects of its
      verdict; what each branch leaves behind; thinking gives back exactly what its
      launch took.
    - Registry: every branch of [ref]; references are cells; under every interleaving
      the cap holds and an entity has one slot, which is no other's; no update of a slot is
      lost, and none of an entity, even when its slot is allocated in a race; what
      panicking factories and contended reservations cost.
    - Request: the classification of failures, the collecting loop, the cleanup of
      the temporary inbox, and the energy gradient: awareness causes nothing outside
      but single requests.
    - The whole, on the example: over every schedule the echo imp never crashes,
      publishes no message twice, and however it goes on it comes to rest having
      published exactly the messages it was handed.
    - Persist: the code of the store refines the abstract cache, call by call; a miss
      wakes once and never writes; an update is durable before it is visible; what was
      written last survives evictions, restarts and calls on other entities; the bound
      holds; the beacon measures the time since its last stamp whatever a store on the
      same backend does; the envelope's document reads back. Concurrent callers get
      the replies of some sequence of uninterrupted calls that respects time.
    - Errors: an error of the package can be told from its text, whatever bytes the
      names in it are made of.
    - The remaining files: validation accepts exactly the well-formed specs; the
      compatibility check is the documented table; the two packages build valid
      channels that accept every message; registration sends exactly what it was
      asked for; the note bridge publishes exactly the well-formed notes.

    ** Bounds and choices

    Loops over data are structural. [receive_loop] consumes the choices of the select
    it models and is stuck when there are none. [evict] has the length of the list
    and one more as fuel, which [evict_spec] shows to be enough, and [itoa_loop] counts
    down the 20 bytes of its buffer, which [itoa_pretty] shows to be enough.
    [unwind_from] has three steps for each channel record and four more, which
    [unwind_uninterrupted] shows to be enough. Time is a
    choice: at each select the model takes either arm that can be there. In [System] the
    binding of one channel is one step; so is one method call of user code on its
    context, a request included, and so are the decoder and the extractor of a message, which see nothing shared; what goes
    on inside the methods of the registry is interleaved in [Shared].

    ** Not modelled

    Elapsed times in log records, the contexts passed to user code and to the
    libraries, and the package comments. The files of integration/compiletest must
    not compile: what they assert, that [AwarenessContext] has no [Publish], [Conn] or
    [RequestMany], is how its signature is defined in [Model]. Parameters stand for
    what the source only calls: the NATS client and server, the soulstream owner
    library, the bucket behind a store, the JSON of the state type, JSON documents a
    store did not write itself, the clock, which runes beyond ASCII are printable, and
    the texts of errors of other packages. A [WakeFn] or an update function that calls
    its own store is a call that does not return. *)

From stdpp Require Export base gmap strings list fin_maps.
From Stdlib Require Export ZArith Lia.
From Stdlib Require Import Ascii.

#[export] Set Default Goal Selector "!".

(** ** Machine integers

    Go's [int], [int64] and [uint64] are kept as [Z], with the wrap-around of
    every operation written out. *)

Definition int64_min : Z := - 2 ^ 63.
Definition int64_max : Z := 2 ^ 63 - 1.
Definition int64 (z : Z) : Z := (z + 2 ^ 63) mod 2 ^ 64 - 2 ^ 63.
Definition uint64 (z : Z) : Z := z mod 2 ^ 64.
Definition is_int64 (z : Z) : Prop := (int64_min <= z <= int64_max)%Z.
Definition is_uint64 (z : Z) : Prop := (0 <= z < 2 ^ 64)%Z.

(** ** Go's control outcomes

    A Go call returns, panics with a recovered-able value, or blocks for ever
    (a lock taken twice, a channel nobody closes). *)

Inductive outcome (V A : Type) : Type :=
| Done (a : A)
| Panicked (v : V)
| Blocked.
Arguments Done {V A} a.
Arguments Panicked {V A} v.
Arguments Blocked {V A}.

(** ** Shared lemmas: integers *)

Lemma int64_id z : is_int64 z -> int64 z = z.
Proof.
  unfold is_int64, int64, int64_min, int64_max. intros H.
  rewrite Z.mod_small by lia. lia.
Qed.

Lemma int64_range z : is_int64 (int64 z).
Proof.
  unfold is_int64, int64, int64_min, int64_max.
  pose proof (Z.mod_pos_bound (z + 2 ^ 63) (2 ^ 64) ltac:(lia)). lia.
Qed.

Lemma int64_add_l a b : int64 (int64 a + b) = int64 (a + b).
Proof.
  unfold int64. replace ((a + 2 ^ 63) mod 2 ^ 64 - 2 ^ 63 + b + 2 ^ 63)%Z
    with ((a + 2 ^ 63) mod 2 ^ 64 + b)%Z by lia.
  rewrite Zplus_mod_idemp_l. f_equal. f_equal. lia.
Qed.

Lemma uint64_id z : is_uint64 z -> uint64 z = z.
Proof. intros H. apply Z.mod_small, H. Qed.

Lemma uint64_range z : is_uint64 (uint64 z).
Proof. apply Z.mod_pos_bound. lia. Qed.

Lemma uint64_add_l a b : uint64 (uint64 a + b) = uint64 (a + b).
Proof. apply Zplus_mod_idemp_l. Qed.

(** ** Shared lemmas: pairs and lists *)

(** A computation is known once its result is: the state is what it computes. *)
Lemma fst_eq_pair {A B} (p : A * B) a : fst p = a -> p = (a, snd p).
Proof. intros <-. apply surjective_pairing. Qed.

(** A value is there once it is known that some value is. *)
Lemma Some_default {A} (o : option A) d :
  (if o then true else false) = true -> o = Some (default d o).
Proof. by destruct o. Qed.

Lemma Forall_snoc {A} (P : A -> Prop) l x :
  Forall P l -> P x -> Forall P (l ++ [x]).
Proof. intros Hl Hx. apply Forall_app; split; [done | by constructor]. Qed.

(** ** Shared lemmas: the bytes of a string *)

Definition byte_val (c : ascii) : Z := Z.of_N (N_of_ascii c).
Definition byte_of (z : Z) : ascii := ascii_of_N (Z.to_N z).
Definition dquote : ascii := ascii_of_nat 34.

Lemma byte_of_val c : byte_of (byte_val c) = c.
Proof. unfold byte_of, byte_val. rewrite N2Z.id. apply ascii_N_embedding. Qed.

Lemma byte_val_range c : (0 <= byte_val c < 256)%Z.
Proof. unfold byte_val. pose proof (N_ascii_bounded c). lia. Qed.

Lemma byte_of_eq z c : z = byte_val c -> byte_of z = c.
Proof. intros ->. apply byte_of_val. Qed.

Lemma app_assoc_string (s t u : string) : (s +:+ t) +:+ u = s +:+ (t +:+ u).
Proof. induction s as [|c s IH]; [done|]. by apply (f_equal (String c)). Qed.

Lemma substring_none s : String.substring 0 0 s = "".
Proof. by destruct s. Qed.

Lemma append_nil_string (s : string) : s +:+ EmptyString = s.
Proof. induction s as [|c s IH]; [done|]. by apply (f_equal (String c)). Qed.

(** ** Automation

    [crunch] opens conjunctions and existentials, splits the matches the
    definitions leave in the goal or the context, and closes what remains by
    computation, [lia] or the map solver. *)

Ltac split_match :=
  match goal with
  | |- context [match ?x with _ => _ end] => destruct x eqn:?
  | H : context [match ?x with _ => _ end] |- _ => destruct x eqn:?
  end.

Ltac crunch :=
  intros; simplify_eq/=; destruct_and?;
  repeat (split_match; simplify_eq/=; try done);
  try done; try lia.

Create HintDb imps.
Create Rewrite HintDb imps.
#[export] Hint Resolve int64_range uint64_range Forall_snoc : imps.
#[export] Hint Rewrite uint64_add_l : imps.
