(* ===== verification/Values.v ===== *)
(** * Values: errors, dynamic values and the data of the public surface

    Go's error values with [errors.Is], the dynamic type [any], and the plain
    data types the packages of the repository hand to each other (messages,
    ticks, topic operations, notes, consumer configuration, sources). *)

From S2P Require Import Prelude.

(** A Go string, and a [[]byte] payload, is a sequence of bytes. *)
Abbreviation bytes := string.

(** [time.Duration]: an [int64] count of nanoseconds. *)
Abbreviation Duration := Z.
Definition Millisecond : Duration := 1000000.
Definition Second : Duration := 1000000000.

(** [spec.go]: [type Entity string]. *)
Definition Entity : Type := string.
#[export] Instance Entity_eq_dec : EqDecision Entity := String.eq_dec.
#[export] Instance Entity_countable : Countable Entity := _ : Countable string.

(** ** Errors *)

(** The error variables the source compares against with [errors.Is]. *)
Inductive sentinel :=
| ContextCanceled
| ContextDeadlineExceeded
| NatsErrNoResponders
| JsErrStreamNotFound
| JsErrConsumerNotFound
| JsErrKeyNotFound
| PersistErrNotFound.

#[export] Instance sentinel_eq_dec : EqDecision sentinel.
Proof. solve_decision. Defined.

(** An error value: a sentinel, the result of [errors.New], [fmt.Errorf] with
    [%w], [errors.Join], or one of the typed errors of [errors.go] and
    [state.go]. *)
Inductive goerror :=
| Sentinel (s : sentinel)
| ErrorsNew (msg : string)
| Errorf (prefix : string) (wrapped : goerror)
| ErrorsJoin (e1 e2 : goerror)
| ErrSpecInvalid (Field Reason : string)
| ErrDuplicateStateShape (Shape : string)
| ErrConfigInvalid (Field Reason : string)
| ErrStreamNotFound (Stream : string)
| ErrConsumerIncompatible (Consumer Diff : string)
| ErrSubscriptionFailed (Subject : string) (Cause : goerror)
| ErrNoResponders (Subject : string)
| ErrRequestTimeout (Subject : string) (Timeout : Duration)
| ErrUnknownStateShape (Shape : string)
| ErrCapExceeded (Shape : string) (Count : Z).

(** Go's [error]: [nil] is [None]. *)
Abbreviation error := (option goerror).

(** [Unwrap] of the two typed errors that have one (errors.go). *)
Definition ErrSubscriptionFailed_Unwrap (Cause : goerror) : goerror := Cause.
Definition ErrRequestTimeout_Unwrap : goerror := Sentinel ContextDeadlineExceeded.

(** [errors.Is err target]: walk the [Unwrap] tree. *)
Fixpoint errors_Is (e : goerror) (target : sentinel) : bool :=
  match e with
  | Sentinel s => bool_decide (s = target)
  | Errorf _ w => errors_Is w target
  | ErrorsJoin e1 e2 => errors_Is e1 target || errors_Is e2 target
  | ErrSubscriptionFailed _ c => errors_Is (ErrSubscriptionFailed_Unwrap c) target
  | ErrRequestTimeout _ _ =>
      match ErrRequestTimeout_Unwrap with
      | Sentinel s => bool_decide (s = target)
      | _ => false
      end
  | _ => false
  end.

(** [errors.Is] on a possibly nil error. *)
Definition error_Is (e : error) (target : sentinel) : bool :=
  match e with Some e => errors_Is e target | None => false end.

(** ** Payload types carried through [any] *)

(** [schedule.Tick]. *)
Record Tick := mkTick {
  Tick_Subject : string;
  Tick_Scheduler : string;
  Tick_Next : string }.

(** [soulstream.Op]. *)
Record Op := mkOp {
  Op_Type : string;
  Op_Author : string;
  Op_ID : string }.

(** [soulstream.Noted]. *)
Record Noted := mkNoted {
  Noted_AnchorOp : string;
  Noted_Body : string }.

(** Go's [any]: [nil], the dynamic types the repository itself puts into an
    [any], and an opaque user type told apart by a tag. *)
Inductive any :=
| ANil
| AString (s : string)
| AInt (z : Z)
| AError (e : goerror)
| ATick (t : Tick)
| AOp (o : Op)
| ANoted (n : Noted)
| AOpaque (tag : nat) (contents : string).

(** A call whose panic value is an [any]. *)
Abbreviation result A := (outcome any A).

Lemma errors_Is_timeout subject d :
  errors_Is (ErrRequestTimeout subject d) ContextDeadlineExceeded = true.
Proof. reflexivity. Qed.

#[export] Hint Resolve errors_Is_timeout : imps.
