(* ===== verification/Substrate.v ===== *)
(** * The substrate: third-party code as parameters

    nats.go, its jetstream package and the soulstream owner library are not in
    the repository. The first class, [NatsTypes], names the types and pure
    functions the source uses of them; [NatsLaws] states the documented
    behaviour the proofs rely on. The second, [NatsEnv], is the running
    substrate: for every call the source makes, its answer as a function of the
    whole history of calls made before. A theorem that quantifies over a
    [NatsEnv] holds for every behaviour of the server. *)

From S2P Require Import Prelude Values.

(** ** Types and pure functions of nats.go *)

Class NatsTypes := {
  (** [nats.Header] with [Get] and [Set]; [header_nil] is a header map with no
      entry (Go's nil map reads the same). *)
  Header : Type;
  header_nil : Header;
  header_Get : Header -> string -> string;
  header_Set : Header -> string -> string -> Header;
  (** the enumerations of the jetstream package are integers *)
  AckExplicitPolicy : Z;
  DeliverAllPolicy : Z;
  DeliverByStartSequencePolicy : Z;
  DeliverByStartTimePolicy : Z;
  AckPolicy_String : Z -> string;
  DeliverPolicy_String : Z -> string;
  ReplayPolicy_String : Z -> string;
  (** [realm.StreamName], [topic.OpsSubject] and the header names of the
      soulstream owner library *)
  realm_StreamName : string;
  topic_OpsSubject : string -> string;
  record_HeaderType : string;
  record_HeaderAuthor : string;
  record_HeaderMsgID : string }.

(** Documented behaviour: header access is a map, and the zero value of the two
    policies is the documented default. *)
Class NatsLaws `{NatsTypes} : Prop := {
  header_Get_nil k : header_Get header_nil k = "";
  header_Get_Set h k v : header_Get (header_Set h k v) k = v;
  header_Get_Set_ne h k k' v :
    k <> k' -> header_Get (header_Set h k v) k' = header_Get h k';
  AckExplicitPolicy_zero : AckExplicitPolicy = 0%Z;
  DeliverAllPolicy_zero : DeliverAllPolicy = 0%Z }.

Section Types.
Context `{NatsTypes}.

(** [jetstream.ConsumerConfig], the fields the source reads or writes. A
    [time.Time] option is its wall-clock instant. *)
Record JsConsumerConfig := mkJsConsumerConfig {
  js_Durable : string;
  js_Name : string;
  js_FilterSubject : string;
  js_AckPolicy : Z;
  js_AckWait : Duration;
  js_MaxDeliver : Z;
  js_DeliverPolicy : Z;
  js_ReplayPolicy : Z;
  js_OptStartSeq : Z;
  js_OptStartTime : option Z;
  js_MaxAckPending : Z;
  js_Description : string }.

(** [nats.Msg] as [requestMany] reads it from its reply channel. *)
Record NatsMsg := mkNatsMsg {
  nm_Header : option Header;
  nm_Data : bytes }.

(** What one [select] of [requestMany] picks: a message, a closed channel, the
    window timer, or the caller's context with its error. *)
Inductive select_event :=
| SelMsg (m : NatsMsg)
| SelClosed
| SelDeadline
| SelCtxDone (e : goerror).

(** Everything the harness does to the outside, in order: calls on the NATS
    connection and on JetStream, acknowledgements, invocations of the user's
    hook, and goroutine launches. *)
Inductive event :=
| CSubscribe (subject : string)
| CUnsubscribe (subject : string)
| CRequest (subject : string) (payload : bytes) (timeout : Duration)
| CNewRespInbox
| CChanSubscribe (inbox : string)
| CPublishMsg (subject reply : string) (payload : bytes)
| CInboxUnsubscribe (inbox : string)
| CPublish (subject : string) (payload : bytes)
| CAck (msg : nat)
| CNak (msg : nat)
| CJetStreamNew
| CJsStream (stream : string)
| CCreateConsumer (stream : string) (cfg : JsConsumerConfig)
| CConsumer (stream name : string)
| CConsume (stream consumer : string)
| CConsumeStop (stream consumer : string)
| CDeleteConsumer (stream consumer : string)
| CAddComment (topic body anchor : string)
| ENote (hook : nat) (entity : Entity) (payload : any)
| ELaunch (reason : any) (entity : Entity).

End Types.

(** ** The running substrate *)

Class NatsEnv `{NatsTypes} := {
  (** [nc.Subscribe], [sub.Unsubscribe] *)
  env_Subscribe : list event -> string -> error;
  env_Unsubscribe : list event -> string -> error;
  (** [nc.RequestWithContext]: reply or error, and what the caller's own
      [ctx.Err()] reads at the two places the source looks at it afterwards *)
  env_Request : list event -> string -> bytes -> Duration ->
    (bytes + goerror) * (error * error);
  (** [nc.NewRespInbox], [nc.ChanSubscribe], [nc.PublishMsg], the choices of the
      receive loop's [select], [sub.Unsubscribe] *)
  env_NewRespInbox : list event -> string;
  env_ChanSubscribe : list event -> string -> error;
  env_PublishMsg : list event -> string -> error;
  env_select : list event -> list select_event;
  env_InboxUnsubscribe : list event -> error;
  (** [nc.Publish] *)
  env_Publish : list event -> string -> bytes -> error;
  (** [msg.Ack], [msg.Nak] *)
  env_Ack : list event -> nat -> error;
  env_Nak : list event -> nat -> error;
  (** [jetstream.New], [js.Stream], [stream.CreateConsumer] (the created
      consumer's server-side name on success), [stream.Consumer] (the cached
      info, which may be absent), [consumer.Consume], [stream.DeleteConsumer] *)
  env_JetStreamNew : list event -> error;
  env_Stream : list event -> string -> error;
  env_CreateConsumer : list event -> string -> JsConsumerConfig -> string + goerror;
  env_Consumer : list event -> string -> string -> option JsConsumerConfig + goerror;
  env_Consume : list event -> string -> string -> error;
  env_DeleteConsumer : list event -> string -> string -> error;
  (** [topic.Handle.AddComment] *)
  env_AddComment : list event -> string -> string -> string -> error }.

(** ** A concrete instance, for witnesses

    Headers are finite maps; the quiet server accepts everything and answers a
    request with its own payload. *)

Module Demo.

#[export] Instance demo_types : NatsTypes := {|
  Header := gmap string string;
  header_nil := ∅;
  header_Get h k := default "" (h !! k);
  header_Set h k v := <[k := v]> h;
  AckExplicitPolicy := 0;
  DeliverAllPolicy := 0;
  DeliverByStartSequencePolicy := 3;
  DeliverByStartTimePolicy := 4;
  AckPolicy_String z := if decide (z = 0)%Z then "explicit" else "all";
  DeliverPolicy_String z := if decide (z = 0)%Z then "all" else "new";
  ReplayPolicy_String z := if decide (z = 0)%Z then "instant" else "original";
  realm_StreamName := "SOULSTREAM";
  topic_OpsSubject path := "SOULSTREAM.TOPICS.OPS." +:+ path;
  record_HeaderType := "Ss-Type";
  record_HeaderAuthor := "Ss-Author";
  record_HeaderMsgID := "Nats-Msg-Id" |}.

#[export] Instance demo_laws : NatsLaws.
Proof.
  split; simpl; intros; simplify_map_eq; try done.
Qed.

#[export] Instance quiet_env : NatsEnv := {|
  env_Subscribe _ _ := None;
  env_Unsubscribe _ _ := None;
  env_Request _ _ payload _ := (inl payload, (None, None));
  env_NewRespInbox _ := "_INBOX.1";
  env_ChanSubscribe _ _ := None;
  env_PublishMsg _ _ := None;
  env_select _ := [SelDeadline];
  env_InboxUnsubscribe _ := None;
  env_Publish _ _ _ := None;
  env_Ack _ _ := None;
  env_Nak _ _ := None;
  env_JetStreamNew _ := None;
  env_Stream _ _ := None;
  env_CreateConsumer _ _ cfg :=
    inl (if decide (js_Durable cfg = "") then "eph1" else js_Durable cfg);
  env_Consumer _ _ _ := inr (Sentinel JsErrConsumerNotFound);
  env_Consume _ _ _ := None;
  env_DeleteConsumer _ _ _ := None;
  env_AddComment _ _ _ _ := None |}.

(** The same server, which refuses subscriptions. *)
Definition refusing_env : NatsEnv := {|
  env_Subscribe _ _ := Some (ErrorsNew "refused");
  env_Unsubscribe := env_Unsubscribe;
  env_Request := env_Request;
  env_NewRespInbox := env_NewRespInbox;
  env_ChanSubscribe := env_ChanSubscribe;
  env_PublishMsg := env_PublishMsg;
  env_select := env_select;
  env_InboxUnsubscribe := env_InboxUnsubscribe;
  env_Publish := env_Publish;
  env_Ack := env_Ack;
  env_Nak := env_Nak;
  env_JetStreamNew := env_JetStreamNew;
  env_Stream := env_Stream;
  env_CreateConsumer := env_CreateConsumer;
  env_Consumer := env_Consumer;
  env_Consume := env_Consume;
  env_DeleteConsumer := env_DeleteConsumer;
  env_AddComment := env_AddComment |}.

End Demo.
