(* ===== verification/Model.v ===== *)
(** * The declarative surface

    The data types of [spec.go], [channel.go], [verdict.go], [context.go],
    [options.go] and the option types of [request.go].

    User code is what the harness calls back into.  A callback that works
    through one of the context interfaces is a program over that interface's
    signature: a tree of method calls, so that an awareness function has no
    node for a method [AwarenessContext] does not have.  Decoders and entity
    extractors are functions that may panic. *)

From S2P Require Import Prelude Values Substrate.

(** ** Programs over an interface *)

Inductive prog (E : Type -> Type) (A : Type) : Type :=
| Ret (a : A)
| Panic (v : any)
| Diverge
| Vis {X : Type} (e : E X) (k : X -> prog E A).
Arguments Ret {E A} a.
Arguments Panic {E A} v.
Arguments Diverge {E A}.
Arguments Vis {E A X} e k.

Definition call {E : Type -> Type} {X : Type} (e : E X) : prog E X := Vis e Ret.

(** The methods of two interfaces together. *)
Inductive both (E F : Type -> Type) (X : Type) : Type :=
| InL (e : E X)
| InR (f : F X).
Arguments InL {E F X} e.
Arguments InR {E F X} f.

(** ** Options (options.go, request.go) *)

Record requestOptions := mkRequestOptions { ro_timeout : Duration }.
Record requestManyOptions := mkRequestManyOptions {
  rmo_window : Duration;
  rmo_max : Z }.

Definition RequestOption : Type := requestOptions -> requestOptions.
Definition RequestManyOption : Type := requestManyOptions -> requestManyOptions.

Definition WithRequestTimeout (d : Duration) : RequestOption := fun o =>
  if (0 <? d)%Z then mkRequestOptions d else o.
Definition WithRequestManyWindow (d : Duration) : RequestManyOption := fun o =>
  if (0 <? d)%Z then mkRequestManyOptions d (rmo_max o) else o.
Definition WithRequestManyMax (n : Z) : RequestManyOption := fun o =>
  if (0 <? n)%Z then mkRequestManyOptions (rmo_window o) n else o.

(** A [slog.Handler] is the discard handler or one of the user's. *)
Inductive slogHandler :=
| DiscardHandler
| UserHandler (tag : nat).

Record runtimeOptions := mkRuntimeOptions {
  drainWindow : Duration;
  logHandler : slogHandler;
  defaultRequestTimeout : Duration;
  defaultRequestManyWindow : Duration }.

Definition defaultRuntimeOptions : runtimeOptions :=
  mkRuntimeOptions (30 * Second) DiscardHandler (5 * Second) (1 * Second).

Definition Option : Type := runtimeOptions -> runtimeOptions.

Definition WithDrainWindow (d : Duration) : Option := fun o =>
  mkRuntimeOptions d (logHandler o) (defaultRequestTimeout o)
    (defaultRequestManyWindow o).
Definition WithLogger (h : option slogHandler) : Option := fun o =>
  match h with
  | Some h => mkRuntimeOptions (drainWindow o) h (defaultRequestTimeout o)
                (defaultRequestManyWindow o)
  | None => o
  end.
Definition WithDefaultRequestTimeout (d : Duration) : Option := fun o =>
  mkRuntimeOptions (drainWindow o) (logHandler o) d (defaultRequestManyWindow o).
Definition WithDefaultRequestManyWindow (d : Duration) : Option := fun o =>
  mkRuntimeOptions (drainWindow o) (logHandler o) (defaultRequestTimeout o) d.

(** [for _, opt := range opts { opt(&cfg) }]. *)
Definition apply_options {C : Type} (opts : list (C -> C)) (cfg : C) : C :=
  foldl (fun c opt => opt c) cfg opts.

(** ** Verdicts (verdict.go)

    [verdictKind] is a [uint8] whose named values start at 1; the zero
    [Verdict] a user can still write has kind 0. *)

Definition verdictIgnore : Z := 1.
Definition verdictNote : Z := 2.
Definition verdictThink : Z := 3.

Record Verdict := mkVerdict {
  vd_kind : Z;
  vd_payload : any;
  vd_reason : any;
  vd_entity : Entity }.

Definition Verdict_zero : Verdict := mkVerdict 0 ANil ANil "".
Definition Ignore : Verdict := mkVerdict verdictIgnore ANil ANil "".
Definition Note (payload : any) : Verdict := mkVerdict verdictNote payload ANil "".
Definition Think (reason : any) (entity : Entity) : Verdict :=
  mkVerdict verdictThink ANil reason entity.

(** ** The context interfaces (context.go, state.go) *)

(** A [StateRef] is a pointer to a slot. *)
Record StateRef := mkStateRef { sr_slot : nat }.
#[export] Instance StateRef_eq_dec : EqDecision StateRef.
Proof. solve_decision. Defined.

Inductive StateRef_methods : Type -> Type :=
| StateRef_Get (r : StateRef) : StateRef_methods any
| StateRef_Set (r : StateRef) (v : any) : StateRef_methods error
| StateRef_Update (r : StateRef) (fn : any -> result any) : StateRef_methods error.

Inductive AwarenessContext : Type -> Type :=
| AC_State (name : string) (entity : Entity) :
    AwarenessContext (option StateRef * error)
| AC_Request (subject : string) (payload : bytes) (opts : list RequestOption) :
    AwarenessContext (option bytes * error).

(** [Conn] hands out the raw connection: an opaque token here, since what is
    done through it is not the harness's code. *)
Inductive ThinkingContext : Type -> Type :=
| TC_State (name : string) (entity : Entity) :
    ThinkingContext (option StateRef * error)
| TC_Publish (subject : string) (payload : bytes) : ThinkingContext error
| TC_InFlight : ThinkingContext Z
| TC_Conn : ThinkingContext unit
| TC_Request (subject : string) (payload : bytes) (opts : list RequestOption) :
    ThinkingContext (option bytes * error)
| TC_RequestMany (subject : string) (payload : bytes) (opts : list RequestManyOption) :
    ThinkingContext (option (list bytes) * error).

(** What a note hook does: contributions through the soulstream owner library
    and calls into user code, told apart by a tag. *)
Inductive HookEffects : Type -> Type :=
| HookAddComment (topic body anchor : string) : HookEffects error
| HookUser (tag : nat) (entity : Entity) (payload : any) : HookEffects unit.

(** ** Callbacks and specifications (spec.go, channel.go) *)

Definition AwarenessFn : Type :=
  any -> Entity -> prog (both AwarenessContext StateRef_methods) Verdict.
Definition ThinkingFn : Type :=
  any -> Entity -> prog (both ThinkingContext StateRef_methods) error.
Definition NoteHook : Type := Entity -> any -> prog HookEffects unit.

(** The argument of a factory numbers its call: a Go factory may return a fresh
    value each time. *)
Record StateShape := mkStateShape {
  ss_Name : string;
  ss_Factory : option (nat -> result any);
  ss_Cap : Z }.

Record ConsumerConfig := mkConsumerConfig {
  cc_AckPolicy : Z;
  cc_AckWait : Duration;
  cc_MaxDeliver : Z;
  cc_DeliverPolicy : Z;
  cc_ReplayPolicy : Z;
  cc_OptStartSeq : Z;
  cc_OptStartTime : option Z;
  cc_MaxAckPending : Z;
  cc_Description : string }.

Definition ConsumerConfig_zero : ConsumerConfig :=
  mkConsumerConfig 0 0 0 0 0 0 None 0 "".

Record SubjectSource := mkSubjectSource { sub_Subject : string }.

Record StreamSource := mkStreamSource {
  st_Stream : string;
  st_FilterSubject : string;
  st_Durable : string;
  st_ConsumerConfig : ConsumerConfig }.

(** The dynamic type of a [Source].  Go admits more than the two declared
    types: a pointer to one, or a struct that embeds one, has the unexported
    method too. *)
Inductive Source :=
| ASubjectSource (s : SubjectSource)
| AStreamSource (s : StreamSource)
| AnotherSource (s : Source).

Section Spec.
Context `{NatsTypes}.

Record Message := mkMessage {
  m_Subject : string;
  m_Reply : string;
  m_Headers : Header;
  m_Data : bytes }.

Definition Decoder : Type := Message -> result (any * error).
Definition EntityExtractor : Type := any -> result (Entity * error).

Record ChannelSpec := mkChannelSpec {
  cs_Name : string;
  cs_Source : option Source;
  cs_Decode : option Decoder;
  cs_ExtractEntity : option EntityExtractor }.

Record ImpSpec := mkImpSpec {
  is_Name : string;
  is_Version : string;
  is_Channels : list ChannelSpec;
  is_Awareness : option AwarenessFn;
  is_Thinking : option ThinkingFn;
  is_States : list StateShape;
  is_OnNote : option NoteHook }.

End Spec.

Record ImpIdentity := mkImpIdentity { id_Name : string; id_Version : string }.

(** ** Lemmas on options *)

Lemma apply_options_app {C} (o1 o2 : list (C -> C)) c :
  apply_options (o1 ++ o2) c = apply_options o2 (apply_options o1 c).
Proof. apply foldl_app. Qed.

(** The timeouts a list of positive options leaves: the last one wins, and the
    non-positive ones leave no trace. *)
Lemma apply_request_timeouts ds o :
  apply_options (WithRequestTimeout <$> ds) o =
  match last (filter (fun d => 0 < d)%Z ds) with
  | Some d => mkRequestOptions d
  | None => o
  end.
Proof.
  induction ds as [|d ds IH] using rev_ind; [done|].
  rewrite fmap_app, (apply_options_app (C := requestOptions)), IH, filter_app.
  unfold WithRequestTimeout; simpl.
  destruct (Z.ltb_spec 0 d).
  - rewrite filter_cons_True by done. by rewrite filter_nil, last_snoc.
  - rewrite filter_cons_False by lia. by rewrite filter_nil, app_nil_r.
Qed.
