(* ===== verification/Validate.v ===== *)
(** * Construction-time validation (validate.go)

    [validateSpec] and its helpers return the first violation as a typed error.
    The specification is a predicate on specs ([spec_ok]) and, for the error
    branches, a relation that says which entry of a list is at fault and why. *)

From S2P Require Import Prelude Values Substrate Model.

Section Validate.
Context `{NatsTypes}.

(** ** The code *)

Fixpoint validateStates_loop (seen : gset string) (states : list StateShape) : error :=
  match states with
  | [] => None
  | s :: rest =>
      if decide (ss_Name s = "") then
        Some (ErrSpecInvalid "StateShape.Name" "empty")
      else if decide (ss_Name s ∈ seen) then
        Some (ErrDuplicateStateShape (ss_Name s))
      else
        match ss_Factory s with
        | None =>
            Some (ErrSpecInvalid "StateShape.Factory" ("nil for shape " +:+ ss_Name s))
        | Some _ =>
            if (ss_Cap s <=? 0)%Z then
              Some (ErrSpecInvalid "StateShape.Cap" ("must be > 0 for shape " +:+ ss_Name s))
            else validateStates_loop ({[ ss_Name s ]} ∪ seen) rest
        end
  end.

Definition validateStates (states : list StateShape) : error :=
  validateStates_loop ∅ states.

Definition validateSource (channelName : string) (src : Source) : error :=
  match src with
  | ASubjectSource s =>
      if decide (sub_Subject s = "") then
        Some (ErrSpecInvalid "SubjectSource.Subject" ("empty for channel " +:+ channelName))
      else None
  | AStreamSource s =>
      if decide (st_Stream s = "") then
        Some (ErrSpecInvalid "StreamSource.Stream" ("empty for channel " +:+ channelName))
      else if decide (st_FilterSubject s = "") then
        Some (ErrSpecInvalid "StreamSource.FilterSubject" ("empty for channel " +:+ channelName))
      else None
  | AnotherSource _ =>
      Some (ErrSpecInvalid "ChannelSpec.Source" ("unknown source kind for channel " +:+ channelName))
  end.

Fixpoint validateChannels_loop (seen : gset string) (channels : list ChannelSpec) : error :=
  match channels with
  | [] => None
  | c :: rest =>
      if decide (cs_Name c = "") then
        Some (ErrSpecInvalid "ChannelSpec.Name" "empty")
      else if decide (cs_Name c ∈ seen) then
        Some (ErrSpecInvalid "ChannelSpec.Name" ("duplicate channel name " +:+ cs_Name c))
      else
        match cs_Decode c, cs_ExtractEntity c, cs_Source c with
        | None, _, _ =>
            Some (ErrSpecInvalid "ChannelSpec.Decode" ("nil for channel " +:+ cs_Name c))
        | _, None, _ =>
            Some (ErrSpecInvalid "ChannelSpec.ExtractEntity" ("nil for channel " +:+ cs_Name c))
        | _, _, None =>
            Some (ErrSpecInvalid "ChannelSpec.Source" ("nil for channel " +:+ cs_Name c))
        | Some _, Some _, Some src =>
            match validateSource (cs_Name c) src with
            | Some err => Some err
            | None => validateChannels_loop ({[ cs_Name c ]} ∪ seen) rest
            end
        end
  end.

Definition validateChannels (channels : list ChannelSpec) : error :=
  validateChannels_loop ∅ channels.

Definition validateSpec (spec : ImpSpec) : error :=
  if decide (is_Name spec = "") then Some (ErrSpecInvalid "Name" "empty")
  else if decide (is_Version spec = "") then Some (ErrSpecInvalid "Version" "empty")
  else match is_Awareness spec with
  | None => Some (ErrSpecInvalid "Awareness" "nil")
  | Some _ =>
  match is_Thinking spec with
  | None => Some (ErrSpecInvalid "Thinking" "nil")
  | Some _ =>
  match validateStates (is_States spec) with
  | Some err => Some err
  | None =>
  match validateChannels (is_Channels spec) with
  | Some err => Some err
  | None => None
  end end end end.

(** ** What the code promises *)

Definition state_ok (s : StateShape) : Prop :=
  ss_Name s <> "" /\ is_Some (ss_Factory s) /\ (0 < ss_Cap s)%Z.

Definition states_ok (states : list StateShape) : Prop :=
  NoDup (ss_Name <$> states) /\ Forall state_ok states.

Definition source_ok (src : Source) : Prop :=
  match src with
  | ASubjectSource s => sub_Subject s <> ""
  | AStreamSource s => st_Stream s <> "" /\ st_FilterSubject s <> ""
  | AnotherSource _ => False
  end.

Definition channel_ok (c : ChannelSpec) : Prop :=
  cs_Name c <> "" /\ is_Some (cs_Decode c) /\ is_Some (cs_ExtractEntity c) /\
  exists src, cs_Source c = Some src /\ source_ok src.

Definition channels_ok (channels : list ChannelSpec) : Prop :=
  NoDup (cs_Name <$> channels) /\ Forall channel_ok channels.

Definition spec_ok (spec : ImpSpec) : Prop :=
  is_Name spec <> "" /\ is_Version spec <> "" /\
  is_Some (is_Awareness spec) /\ is_Some (is_Thinking spec) /\
  states_ok (is_States spec) /\ channels_ok (is_Channels spec).

(** Why one entry of [States] is rejected, given the names before it.  The
    premises are the order of the checks. *)
Inductive state_fault (before : list string) (s : StateShape) : goerror -> Prop :=
| fault_name :
    ss_Name s = "" ->
    state_fault before s (ErrSpecInvalid "StateShape.Name" "empty")
| fault_duplicate :
    ss_Name s <> "" -> ss_Name s ∈ before ->
    state_fault before s (ErrDuplicateStateShape (ss_Name s))
| fault_factory :
    ss_Name s <> "" -> ss_Name s ∉ before -> ss_Factory s = None ->
    state_fault before s
      (ErrSpecInvalid "StateShape.Factory" ("nil for shape " +:+ ss_Name s))
| fault_cap :
    ss_Name s <> "" -> ss_Name s ∉ before -> is_Some (ss_Factory s) ->
    (ss_Cap s <= 0)%Z ->
    state_fault before s
      (ErrSpecInvalid "StateShape.Cap" ("must be > 0 for shape " +:+ ss_Name s)).

(** ** Helper lemmas *)

Lemma validateSource_ok name src : validateSource name src = None <-> source_ok src.
Proof.
  destruct src as [s|s|s]; simpl; [case_decide; naive_solver| |naive_solver].
  repeat case_decide; naive_solver.
Qed.

(** The loops scan a good prefix and leave its names in [seen]. *)
Lemma validateStates_loop_app seen pre rest :
  Forall state_ok pre -> NoDup (ss_Name <$> pre) ->
  (forall s, s ∈ pre -> ss_Name s ∉ seen) ->
  validateStates_loop seen (pre ++ rest) =
  validateStates_loop (list_to_set (ss_Name <$> pre) ∪ seen) rest.
Proof.
  revert seen. induction pre as [|s pre IH]; intros seen Hok Hnd Hseen; simpl.
  { f_equal. set_solver. }
  apply Forall_cons in Hok as [(Hn & [f Hf] & Hc) Hok].
  rewrite fmap_cons in Hnd. apply NoDup_cons in Hnd as [Hni Hnd].
  rewrite decide_False by done. rewrite decide_False by set_solver.
  rewrite Hf. destruct (Z.leb_spec (ss_Cap s) 0); [lia|].
  rewrite IH; [f_equal; set_solver|done|done|].
  intros s' Hs'. pose proof (list_elem_of_fmap_2 ss_Name pre s' Hs').
  rewrite not_elem_of_union, not_elem_of_singleton.
  split; [congruence|set_solver].
Qed.

Lemma validateStates_loop_None seen states :
  validateStates_loop seen states = None <->
  Forall state_ok states /\ NoDup (ss_Name <$> states) /\
  (forall s, s ∈ states -> ss_Name s ∉ seen).
Proof.
  split.
  - revert seen. induction states as [|s rest IH]; intros seen; simpl.
    { intros _. split_and!; [constructor|constructor|set_solver]. }
    repeat case_decide; try done.
    destruct (ss_Factory s) as [f|] eqn:Hf; [|done].
    destruct (Z.leb_spec (ss_Cap s) 0); [done|].
    intros (Hok & Hnd & Hns)%IH. split_and!.
    + constructor; [|done]. by split_and!; [|rewrite Hf; eexists|].
    + apply NoDup_cons. split; [|done].
      intros (s' & Heq & Hs')%list_elem_of_fmap. specialize (Hns s' Hs'). set_solver.
    + intros s' [->|Hs']%elem_of_cons; [done|]. specialize (Hns s' Hs'). set_solver.
  - intros (Hok & Hnd & Hns).
    rewrite <- (app_nil_r states). by rewrite validateStates_loop_app.
Qed.

Lemma validateStates_ok states : validateStates states = None <-> states_ok states.
Proof.
  unfold validateStates, states_ok. rewrite validateStates_loop_None. set_solver.
Qed.

Lemma validateChannels_loop_None seen channels :
  validateChannels_loop seen channels = None <->
  Forall channel_ok channels /\ NoDup (cs_Name <$> channels) /\
  (forall c, c ∈ channels -> cs_Name c ∉ seen).
Proof.
  revert seen. induction channels as [|c rest IH]; intros seen; simpl.
  { split; [intros _; split_and!; [constructor|constructor|set_solver]|done]. }
  rewrite Forall_cons, NoDup_cons. unfold channel_ok at 1.
  destruct (decide (cs_Name c = "")) as [|Hne]; [split; [done|naive_solver]|].
  destruct (decide (cs_Name c ∈ seen)) as [|Hns]; [split; [done|set_solver]|].
  destruct (cs_Decode c) as [d|]; [|split; [done|intros (((_&[? [=]]&_)&_)&_)]].
  destruct (cs_ExtractEntity c) as [x|];
    [|split; [done|intros (((_&_&[? [=]]&_)&_)&_)]].
  destruct (cs_Source c) as [src|];
    [|split; [done|intros (((_&_&_&(?&[=]&_))&_)&_)]].
  pose proof (validateSource_ok (cs_Name c) src) as Hsrc.
  destruct (validateSource (cs_Name c) src) as [err|].
  { split; [done|]. intros (((_&_&_&(src'&[= <-]&Hs))&_)&_). by apply Hsrc in Hs. }
  rewrite IH. split.
  - intros (Hok & Hnd & Hseen). split_and!; [done|by eexists|by eexists| |done| |done|].
    + exists src. naive_solver.
    + intros (c' & Heq & Hc')%list_elem_of_fmap. specialize (Hseen c' Hc'). set_solver.
    + intros c' [->|Hc']%elem_of_cons; [done|]. specialize (Hseen c' Hc'). set_solver.
  - intros ((_ & Hok) & (Hni & Hnd) & Hseen). split_and!; [done|done|].
    intros c' Hc'. pose proof (list_elem_of_fmap_2 cs_Name rest c' Hc').
    pose proof (Hseen c' ltac:(set_solver)). set_solver.
Qed.

Lemma validateChannels_ok channels :
  validateChannels channels = None <-> channels_ok channels.
Proof.
  unfold validateChannels, channels_ok. rewrite validateChannels_loop_None. set_solver.
Qed.

Lemma validateSpec_channels spec :
  validateSpec spec = None -> validateChannels (is_Channels spec) = None.
Proof.
  unfold validateSpec. repeat case_decide; try done.
  destruct (is_Awareness spec), (is_Thinking spec), (validateStates (is_States spec)); try done.
  by destruct (validateChannels (is_Channels spec)).
Qed.

Lemma validateSpec_ok spec : validateSpec spec = None <-> spec_ok spec.
Proof.
  unfold validateSpec, spec_ok.
  rewrite <- validateStates_ok, <- validateChannels_ok.
  repeat case_decide; try naive_solver.
  destruct (is_Awareness spec), (is_Thinking spec); simpl;
    try (split; [done|]; intros (_&_&[? ?]&[? ?]&_); done).
  destruct (validateStates _), (validateChannels _); naive_solver.
Qed.

(** ** Properties *)

(** C31: [validateSpec] accepts exactly the well-formed specs: a name, a
    version, both callbacks, state shapes with distinct non-empty names, a
    factory and a positive cap, and channels with distinct non-empty names,
    both callbacks and a source of one of the two declared kinds whose subjects
    are not empty. *)
Theorem validateSpec_sound_complete spec :
  validateSpec spec = None <-> spec_ok spec.
Proof. apply validateSpec_ok. Qed.

(** A rejected list of state shapes is rejected for its first bad entry,
    with the error of the first check that entry fails, and every rejection is
    of that form. *)
Lemma validateStates_first_fault states err :
  validateStates states = Some err <->
  exists pre s post, states = pre ++ s :: post /\ states_ok pre /\
    state_fault (ss_Name <$> pre) s err.
Proof.
  split.
  - intros Herr.
    assert (forall rest pre, states = pre ++ rest -> states_ok pre ->
      validateStates_loop (list_to_set (ss_Name <$> pre)) rest = Some err ->
      exists pre s post, states = pre ++ s :: post /\ states_ok pre /\
        state_fault (ss_Name <$> pre) s err) as Hgen.
    { induction rest as [|s rest IH]; intros pre Heq Hok; simpl; [done|].
      repeat case_decide; try (intros; simplify_eq; eexists pre, s, rest;
        split_and!; [done|done|constructor; set_solver]).
      destruct (ss_Factory s) as [f|] eqn:Hf;
        [|intros; simplify_eq; exists pre, s, rest; split_and!;
          [done|done|constructor; set_solver]].
      destruct (Z.leb_spec (ss_Cap s) 0);
        [intros; simplify_eq; exists pre, s, rest; split_and!;
          [done|done|constructor 4; [set_solver|set_solver|by eexists|done]]|].
      intros Hrest. apply (IH (pre ++ [s])).
      - by rewrite <- app_assoc.
      - destruct Hok as [Hnd Hall]. split.
        + rewrite fmap_app. apply NoDup_app. split_and!;
            [done|set_solver|apply NoDup_singleton].
        + apply Forall_snoc; [done|]. split_and!; [done|by eexists|lia].
      - rewrite fmap_app, list_to_set_app_L. cbn.
        rewrite (union_comm_L _ (_ ∪ ∅)), union_empty_r_L. done. }
    apply (Hgen states []); [done|split; constructor|done].
  - intros (pre & s & post & -> & [Hnd Hok] & Hf). unfold validateStates.
    rewrite validateStates_loop_app by set_solver. simpl. rewrite union_empty_r_L.
    destruct Hf as [Hn|Hn Hin|Hn Hni Hfac|Hn Hni [f Hfac] Hcap];
      repeat case_decide; try set_solver.
    + by rewrite Hfac.
    + rewrite Hfac. destruct (Z.leb_spec (ss_Cap s) 0); [done|lia].
Qed.

End Validate.

(** [validateStates_first_fault] holds in both directions on a list whose second
    entry repeats the first. *)
Example validateStates_duplicate :
  let s := mkStateShape "a" (Some (fun _ => Done ANil)) 1 in
  validateStates [s; s] = Some (ErrDuplicateStateShape "a").
Proof. reflexivity. Qed.
