(* ===== verification/Registry.v ===== *)
(** * The state registry (registry.go)

    Shapes with a cap and an atomic counter, slots found by entity, and the
    slot operations behind a [StateRef].  Slots are allocated in a heap, so that
    two references to one slot alias.  [ref] is given twice: here as the
    sequential function, and in [RegistryConc] as the interleaved steps of its
    atomic operations. *)

From S2P Require Import Prelude Values Substrate Model.

(** ** State *)

Record shape := mkShape {
  sh_name : string;
  sh_cap : Z;
  sh_factory : option (nat -> result any);
  sh_count : Z;                      (* atomic.Int64 *)
  sh_slots : gmap Entity nat         (* sync.Map: Entity -> *slot *) }.

(** The registry, with the heap its slots live in: the value of every slot
    allocated so far, at consecutive addresses. *)
Record registry := mkRegistry {
  rg_shapes : gmap string shape;
  rg_heap : list any }.

Definition newShape (s : StateShape) : shape :=
  mkShape (ss_Name s) (ss_Cap s) (ss_Factory s) 0 ∅.

Definition newRegistry (shapes : list StateShape) : registry :=
  mkRegistry (foldl (fun m s => <[ss_Name s := newShape s]> m) ∅ shapes) [].

Definition set_shape (name : string) (sh : shape) (r : registry) : registry :=
  mkRegistry (<[name := sh]> (rg_shapes r)) (rg_heap r).

Definition set_count (c : Z) (sh : shape) : shape :=
  mkShape (sh_name sh) (sh_cap sh) (sh_factory sh) c (sh_slots sh).

(** ** Operations *)

(** Calling a nil func value panics. *)
Definition call_factory (f : option (nat -> result any)) (n : nat) : result any :=
  match f with
  | None => Panicked (AString "nil func call")
  | Some f => f n
  end.

(** [ref]: run alone, the reservation loop succeeds at its first
    compare-and-swap and [LoadOrStore] stores.  A panicking factory leaves the
    reservation behind. *)
Definition ref (name : string) (entity : Entity) (r : registry) :
    result (option StateRef * error) * registry :=
  match rg_shapes r !! name with
  | None => (Done (None, Some (ErrUnknownStateShape name)), r)
  | Some sh =>
    match sh_slots sh !! entity with
    | Some existing => (Done (Some (mkStateRef existing), None), r)
    | None =>
      if (sh_cap sh <=? sh_count sh)%Z then
        (Done (None, Some (ErrCapExceeded (sh_name sh) (sh_cap sh))), r)
      else
        let reserved := set_shape name (set_count (int64 (sh_count sh + 1)) sh) r in
        let fresh := length (rg_heap r) in
        match call_factory (sh_factory sh) fresh with
        | Panicked v => (Panicked v, reserved)
        | Blocked => (Blocked, reserved)
        | Done val =>
            let sh' := mkShape (sh_name sh) (sh_cap sh) (sh_factory sh)
                         (int64 (sh_count sh + 1)) (<[entity := fresh]> (sh_slots sh)) in
            (Done (Some (mkStateRef fresh), None),
             mkRegistry (<[name := sh']> (rg_shapes r)) (rg_heap r ++ [val]))
        end
    end
  end.

(** The methods of [stateRef]; a reference to an unallocated slot does not
    arise from [ref], and reads as a nil-pointer panic. *)
Definition slot_nil : any := AString "nil pointer dereference".

Definition stateRef_Get (s : StateRef) (r : registry) : result any * registry :=
  match rg_heap r !! sr_slot s with
  | None => (Panicked slot_nil, r)
  | Some v => (Done v, r)
  end.

Definition stateRef_Set (s : StateRef) (v : any) (r : registry) : result error * registry :=
  match rg_heap r !! sr_slot s with
  | None => (Panicked slot_nil, r)
  | Some _ => (Done None, mkRegistry (rg_shapes r) (<[sr_slot s := v]> (rg_heap r)))
  end.

(** The deferred unlock runs when [fn] panics, and the slot keeps its value; a
    call of [fn] that never returns keeps the slot's lock. *)
Definition stateRef_Update (s : StateRef) (fn : any -> result any) (r : registry) :
    result error * registry :=
  match rg_heap r !! sr_slot s with
  | None => (Panicked slot_nil, r)
  | Some v =>
    match fn v with
    | Done v' => (Done None, mkRegistry (rg_shapes r) (<[sr_slot s := v']> (rg_heap r)))
    | Panicked p => (Panicked p, r)
    | Blocked => (Blocked, r)
    end
  end.

(** ** The invariant

    The counter of every shape is the number of its slots plus [leaked] — the
    reservations lost to panicking factories — and never exceeds the cap; every
    slot is allocated, and no two entries share one. *)

Abbreviation leaks := (gmap string nat).

Record shape_inv (leaked : nat) (heap : nat) (sh : shape) : Prop := {
  si_count : sh_count sh = (Z.of_nat (size (sh_slots sh)) + Z.of_nat leaked)%Z;
  si_cap : (sh_count sh <= sh_cap sh)%Z;
  si_int : is_int64 (sh_cap sh);
  si_alloc : forall e l, sh_slots sh !! e = Some l -> l < heap }.

Record registry_inv (lk : leaks) (r : registry) : Prop := {
  ri_shape : forall n sh, rg_shapes r !! n = Some sh ->
    shape_inv (default 0 (lk !! n)) (length (rg_heap r)) sh;
  ri_name : forall n sh, rg_shapes r !! n = Some sh -> sh_name sh = n;
  ri_inj : forall n n' sh sh' e e' l,
    rg_shapes r !! n = Some sh -> rg_shapes r !! n' = Some sh' ->
    sh_slots sh !! e = Some l -> sh_slots sh' !! e' = Some l ->
    n = n' /\ e = e' }.

(** The entity's slot for a shape, if it has one. *)
Definition slot_of (r : registry) (name : string) (e : Entity) : option nat :=
  rg_shapes r !! name ≫= fun sh => sh_slots sh !! e.

(** The value an entity's slot holds. *)
Definition value_of (r : registry) (name : string) (e : Entity) : option any :=
  slot_of r name e ≫= fun l => rg_heap r !! l.

(** ** Lemmas *)

Lemma newRegistry_lookup shapes n sh :
  rg_shapes (newRegistry shapes) !! n = Some sh ->
  exists s, s ∈ shapes /\ ss_Name s = n /\ sh = newShape s.
Proof.
  unfold newRegistry; simpl.
  induction shapes as [|s shapes IH] using rev_ind; simpl; [done|].
  rewrite foldl_snoc, lookup_insert. case_decide as Hn.
  - intros [= <-]. exists s. set_solver.
  - intros (s' & ? & ? & ?)%IH. exists s'. set_solver.
Qed.

Lemma newRegistry_declared shapes s :
  NoDup (ss_Name <$> shapes) -> s ∈ shapes ->
  rg_shapes (newRegistry shapes) !! ss_Name s = Some (newShape s).
Proof.
  unfold newRegistry; simpl.
  induction shapes as [|s' shapes IH] using rev_ind; [set_solver|].
  rewrite fmap_app, NoDup_app. intros (Hnd & Hni & _) Hin.
  rewrite foldl_snoc, lookup_insert. case_decide as Hn.
  - apply elem_of_app in Hin as [Hin|Hin]; [|set_solver].
    exfalso. apply (Hni (ss_Name s)); [by apply list_elem_of_fmap_2|]. set_solver.
  - apply elem_of_app in Hin as [Hin|Hin]; [by apply IH|set_solver].
Qed.

Lemma newRegistry_inv shapes :
  Forall (fun s => (0 < ss_Cap s)%Z /\ is_int64 (ss_Cap s)) shapes ->
  registry_inv ∅ (newRegistry shapes).
Proof.
  intros Hcap. rewrite Forall_forall in Hcap. split.
  - intros n sh (s & Hs & _ & ->)%newRegistry_lookup.
    destruct (Hcap s Hs) as [Hpos Hint].
    split; simpl; [done|lia|done|by intros; simplify_map_eq].
  - by intros n sh (s & _ & <- & ->)%newRegistry_lookup.
  - intros n n' sh sh' e e' l (s & _ & _ & ->)%newRegistry_lookup _ Hl.
    cbn in Hl. by rewrite lookup_empty in Hl.
Qed.

Lemma slot_of_shape r name sh e :
  rg_shapes r !! name = Some sh -> slot_of r name e = sh_slots sh !! e.
Proof. unfold slot_of. by intros ->. Qed.

(** Storing a fresh slot keeps the invariant; so does losing a reservation. *)
Lemma shape_inv_heap lk heap heap' sh :
  heap <= heap' -> shape_inv lk heap sh -> shape_inv lk heap' sh.
Proof.
  intros Hle [Hc Hcap Hint Hal]. split; try done. intros e l He.
  specialize (Hal e l He). lia.
Qed.

Lemma reserve_int64 lk heap sh :
  shape_inv lk heap sh -> (sh_count sh < sh_cap sh)%Z ->
  int64 (sh_count sh + 1) = (sh_count sh + 1)%Z.
Proof.
  intros [Hc Hcap Hint _] Hlt. apply int64_id. unfold is_int64, int64_min, int64_max in *. lia.
Qed.

Lemma store_inv lk r name sh e v :
  registry_inv lk r -> rg_shapes r !! name = Some sh -> sh_slots sh !! e = None ->
  (sh_count sh < sh_cap sh)%Z ->
  registry_inv lk
    (mkRegistry (<[name := mkShape (sh_name sh) (sh_cap sh) (sh_factory sh)
        (sh_count sh + 1) (<[e := length (rg_heap r)]> (sh_slots sh))]> (rg_shapes r))
      (rg_heap r ++ [v])).
Proof.
  intros [Hsh Hnm Hinj] Hn He Hlt.
  pose proof (Hsh name sh Hn) as [Hc Hcap Hint Hal].
  assert (forall n' sh' e' l, rg_shapes r !! n' = Some sh' -> sh_slots sh' !! e' = Some l ->
    l < length (rg_heap r)) as Halloc.
  { intros n' sh' e' l Hn'. apply (si_alloc _ _ _ (Hsh n' sh' Hn')). }
  split; simpl.
  - rewrite length_app; simpl. intros n' sh' [[<- <-]|[Hne Hn']]%lookup_insert_Some.
    + split; simpl; [rewrite map_size_insert_None by done; lia|lia|done|].
      intros e' l [[<- <-]|[? Hl]]%lookup_insert_Some; [lia|]. specialize (Hal _ _ Hl). lia.
    + eapply shape_inv_heap; [|by apply Hsh]. lia.
  - intros n' sh' [[<- <-]|[Hne Hn']]%lookup_insert_Some; simpl; [by apply Hnm|by apply Hnm].
  - intros n1 n2 sh1 sh2 e1 e2 l H1 H2 Hl1 Hl2.
    apply lookup_insert_Some in H1 as [[<- <-]|[Hne1 H1]];
      apply lookup_insert_Some in H2 as [[<- <-]|[Hne2 H2]]; simpl in *.
    + apply lookup_insert_Some in Hl1 as [[<- <-]|[_ Hl1]];
        apply lookup_insert_Some in Hl2 as [[<- Heq]|[_ Hl2]]; [done|..].
      * specialize (Halloc _ _ _ _ Hn Hl2). lia.
      * specialize (Halloc _ _ _ _ Hn Hl1). lia.
      * by eapply (Hinj name name).
    + apply lookup_insert_Some in Hl1 as [[<- <-]|[_ Hl1]];
        [specialize (Halloc _ _ _ _ H2 Hl2); lia|by eapply (Hinj name n2)].
    + apply lookup_insert_Some in Hl2 as [[<- <-]|[_ Hl2]];
        [specialize (Halloc _ _ _ _ H1 Hl1); lia|by eapply (Hinj n1 name)].
    + by eapply (Hinj n1 n2).
Qed.

Lemma leak_inv lk r name sh :
  registry_inv lk r -> rg_shapes r !! name = Some sh -> (sh_count sh < sh_cap sh)%Z ->
  registry_inv (<[name := S (default 0 (lk !! name))]> lk)
    (set_shape name (set_count (sh_count sh + 1) sh) r).
Proof.
  intros [Hsh Hnm Hinj] Hn Hlt.
  pose proof (Hsh name sh Hn) as [Hc Hcap Hint Hal].
  split; simpl.
  - intros n' sh' [[<- <-]|[Hne Hn']]%lookup_insert_Some.
    + rewrite lookup_insert_eq; simpl. split; simpl; [lia|lia|done|done].
    + rewrite lookup_insert_ne by done. by apply Hsh.
  - intros n' sh' [[<- <-]|[Hne Hn']]%lookup_insert_Some; simpl; by apply Hnm.
  - intros n1 n2 sh1 sh2 e1 e2 l H1 H2.
    apply lookup_insert_Some in H1 as [[<- <-]|[Hne1 H1]];
      apply lookup_insert_Some in H2 as [[<- <-]|[Hne2 H2]]; simpl in *; by eapply Hinj.
Qed.

Lemma heap_inv lk r heap :
  length heap = length (rg_heap r) ->
  registry_inv lk r -> registry_inv lk (mkRegistry (rg_shapes r) heap).
Proof. intros Hlen [Hsh Hnm Hinj]. split; simpl; rewrite ?Hlen; done. Qed.

#[export] Hint Resolve heap_inv newRegistry_inv : imps.

(** ** Properties *)

(** The entry (name, e) is the only one an operation may have changed. *)
Definition only_changes (name : string) (e : Entity) (r r' : registry) : Prop :=
  forall n e', (n, e') <> (name, e) -> value_of r' n e' = value_of r n e'.

Lemma only_changes_refl name e r : only_changes name e r r.
Proof. by intros n e' _. Qed.

Lemma store_only_changes lk r name sh e v c :
  registry_inv lk r -> rg_shapes r !! name = Some sh ->
  only_changes name e r
    (mkRegistry (<[name := mkShape (sh_name sh) (sh_cap sh) (sh_factory sh) c
        (<[e := length (rg_heap r)]> (sh_slots sh))]> (rg_shapes r))
      (rg_heap r ++ [v])).
Proof.
  intros [Hsh _ _] Hn n e' Hne. unfold value_of, slot_of; simpl.
  assert (forall sh' l, rg_shapes r !! n = Some sh' -> sh_slots sh' !! e' = Some l ->
    (rg_heap r ++ [v]) !! l = rg_heap r !! l) as Hlook.
  { intros sh' l Hn' Hl. apply lookup_app_l. by eapply (si_alloc _ _ _ (Hsh n sh' Hn')). }
  rewrite lookup_insert. case_decide as Heq; simpl.
  - subst n. rewrite Hn; simpl. rewrite lookup_insert_ne by congruence.
    destruct (sh_slots sh !! e') eqn:Hl; simpl; [by eapply Hlook|done].
  - destruct (rg_shapes r !! n) as [sh'|] eqn:Hn'; simpl; [|done].
    destruct (sh_slots sh' !! e') eqn:Hl; simpl; [by eapply Hlook|done].
Qed.

Lemma leak_value_of r name sh c n e :
  rg_shapes r !! name = Some sh ->
  value_of (set_shape name (set_count c sh) r) n e = value_of r n e.
Proof.
  intros Hn. unfold value_of, slot_of; simpl. rewrite lookup_insert.
  case_decide; simplify_eq; [|done]. by rewrite Hn.
Qed.

Lemma ref_Done_inv lk r name e x r' :
  registry_inv lk r -> ref name e r = (Done x, r') -> registry_inv lk r'.
Proof.
  intros Hinv. unfold ref. destruct (rg_shapes r !! name) as [sh|] eqn:Hn;
    [|by intros [= _ <-]].
  destruct (sh_slots sh !! e) eqn:He; [by intros [= _ <-]|].
  destruct (Z.leb_spec (sh_cap sh) (sh_count sh)); [by intros [= _ <-]|].
  rewrite (reserve_int64 _ _ _ (ri_shape _ _ Hinv name sh Hn)) by done.
  destruct (call_factory _ _); [|done|done]. intros [= _ <-]. by apply store_inv.
Qed.

(** C28: every branch of [ref].  An existing slot is returned as it is, whatever
    the counter says; a new entity below the cap gets a fresh slot holding the
    factory's value, and nothing else changes; at the cap the error names shape
    and cap and the registry is untouched; an undeclared name is an error; a
    factory that panics loses one reservation and allocates nothing.  The
    invariant holds after each. *)
Theorem ref_spec lk r name e :
  registry_inv lk r ->
  match ref name e r with
  | (Done (Some s, err), r') =>
      err = None /\ slot_of r' name e = Some (sr_slot s) /\ registry_inv lk r' /\
      only_changes name e r r' /\
      (is_Some (slot_of r name e) -> r' = r) /\
      (slot_of r name e = None ->
        exists sh v, rg_shapes r !! name = Some sh /\
          call_factory (sh_factory sh) (length (rg_heap r)) = Done v /\
          value_of r' name e = Some v)
  | (Done (None, err), r') =>
      r' = r /\ slot_of r name e = None /\
      ((err = Some (ErrUnknownStateShape name) /\ rg_shapes r !! name = None) \/
       exists sh, rg_shapes r !! name = Some sh /\ sh_count sh = sh_cap sh /\
         err = Some (ErrCapExceeded name (sh_cap sh)))
  | (Panicked _, r') | (Blocked, r') =>
      slot_of r name e = None /\
      registry_inv (<[name := S (default 0 (lk !! name))]> lk) r' /\
      forall n e', value_of r' n e' = value_of r n e'
  end.
Proof.
  intros Hinv. unfold ref. destruct (rg_shapes r !! name) as [sh|] eqn:Hn.
  2:{ split_and!; [done|unfold slot_of; by rewrite Hn|by left]. }
  pose proof (ri_shape _ _ Hinv name sh Hn) as Hsh.
  destruct (sh_slots sh !! e) as [l|] eqn:He.
  { rewrite (slot_of_shape _ _ sh) by done. rewrite He.
    split_and!; [done|done|done|apply only_changes_refl|done|done]. }
  destruct (Z.leb_spec (sh_cap sh) (sh_count sh)) as [Hcap|Hcap].
  { split_and!; [done|by rewrite (slot_of_shape _ _ sh)|].
    right. exists sh. rewrite (ri_name _ _ Hinv name sh Hn).
    pose proof (si_cap _ _ _ Hsh). split_and!; [done|lia|done]. }
  rewrite (reserve_int64 _ _ _ Hsh) by done.
  destruct (call_factory _ _) as [v|v|] eqn:Hf.
  - split_and!; [done| |by apply store_inv|by eapply store_only_changes| |].
    + unfold slot_of; simpl. by rewrite lookup_insert_eq; simpl; rewrite lookup_insert_eq.
    + rewrite (slot_of_shape _ _ sh) by done. rewrite He. intros [? [=]].
    + intros _. exists sh, v. split_and!; [done|done|].
      unfold value_of, slot_of; simpl. rewrite lookup_insert_eq; simpl.
      rewrite lookup_insert_eq; simpl. by rewrite lookup_app_r, Nat.sub_diag.
  - split_and!; [by rewrite (slot_of_shape _ _ sh)|by apply leak_inv|].
    intros. by apply leak_value_of.
  - split_and!; [by rewrite (slot_of_shape _ _ sh)|by apply leak_inv|].
    intros. by apply leak_value_of.
Qed.

(** What a panicking factory does to the cap.  When one reservation is left,
    a factory panic uses it up: from then on every new entity of the shape is
    refused with [ErrCapExceeded], though no slot was allocated for the
    reservation and none ever will be. *)
Lemma factory_panic_leaks lk r name sh e v :
  registry_inv lk r -> rg_shapes r !! name = Some sh ->
  slot_of r name e = None -> sh_count sh = (sh_cap sh - 1)%Z ->
  call_factory (sh_factory sh) (length (rg_heap r)) = Panicked v ->
  exists r', ref name e r = (Panicked v, r') /\
    forall e', slot_of r name e' = None ->
      ref name e' r' = (Done (None, Some (ErrCapExceeded name (sh_cap sh))), r').
Proof.
  intros Hinv Hn He Hc Hf. rewrite (slot_of_shape _ _ sh) in He by done.
  pose proof (ri_shape _ _ Hinv name sh Hn) as Hsh.
  eexists. split.
  { unfold ref. rewrite Hn, He. destruct (Z.leb_spec (sh_cap sh) (sh_count sh)); [lia|].
    by rewrite Hf. }
  intros e' He'. rewrite (slot_of_shape _ _ sh) in He' by done.
  unfold ref; simpl. rewrite lookup_insert_eq; simpl. rewrite He'.
  rewrite (reserve_int64 _ _ _ Hsh) by lia.
  destruct (Z.leb_spec (sh_cap sh) (sh_count sh + 1)); [|lia].
  by rewrite (ri_name _ _ Hinv name sh Hn).
Qed.

(** Slots are mutable cells per (shape, entity).  Through a reference that
    [ref] returned, [Get] reads the entity's value, [Set] and [Update] write it,
    an [Update] whose function panics leaves it, no other entity's value moves,
    and the invariant is kept. *)
Lemma stateRef_methods_spec lk r name e s v :
  registry_inv lk r -> slot_of r name e = Some (sr_slot s) ->
  value_of r name e = Some v ->
  stateRef_Get s r = (Done v, r) /\
  (forall w, exists r', stateRef_Set s w r = (Done None, r') /\ registry_inv lk r' /\
    value_of r' name e = Some w /\ only_changes name e r r') /\
  (forall fn, match fn v with
    | Done w => exists r', stateRef_Update s fn r = (Done None, r') /\ registry_inv lk r' /\
        value_of r' name e = Some w /\ only_changes name e r r'
    | Panicked p => stateRef_Update s fn r = (Panicked p, r)
    | Blocked => stateRef_Update s fn r = (Blocked, r)
    end).
Proof.
  intros Hinv Hs Hv. unfold value_of in Hv. rewrite Hs in Hv; simpl in Hv.
  assert (forall w, let r' := mkRegistry (rg_shapes r) (<[sr_slot s := w]> (rg_heap r)) in
    registry_inv lk r' /\ value_of r' name e = Some w /\ only_changes name e r r') as Hw.
  { intros w. simpl. split_and!.
    - apply heap_inv; [by rewrite length_insert|done].
    - unfold value_of. change (slot_of (mkRegistry (rg_shapes r) _)) with (slot_of r).
      rewrite Hs; simpl. apply list_lookup_insert_eq. by eapply lookup_lt_Some.
    - intros n e' Hne. unfold value_of.
      change (slot_of (mkRegistry (rg_shapes r) _)) with (slot_of r).
      destruct (slot_of r n e') as [l|] eqn:Hl; simpl; [|done].
      apply list_lookup_insert_ne. intros <-. apply Hne.
      unfold slot_of in Hs, Hl.
      apply bind_Some in Hs as (sh & Hsh & Hs). apply bind_Some in Hl as (sh' & Hsh' & Hl).
      destruct (ri_inj _ _ Hinv n name sh' sh e' e (sr_slot s)); [done..|]. congruence. }
  unfold stateRef_Get, stateRef_Set, stateRef_Update. rewrite Hv. split_and!; [done|..].
  - intros w. eexists. split; [done|apply Hw].
  - intros fn. destruct (fn v); [|done|done]. eexists. split; [done|apply Hw].
Qed.

(** ** Witnesses *)

Definition demo_shape : StateShape := mkStateShape "mood" (Some (fun _ => Done (AInt 0))) 1.
Definition demo_registry : registry := newRegistry [demo_shape].

Lemma demo_registry_inv : registry_inv ∅ demo_registry.
Proof.
  apply newRegistry_inv. repeat constructor; simpl; vm_compute; congruence.
Qed.

Lemma ref_spec_witness :
  registry_inv ∅ demo_registry /\
  match ref "mood" "ann" demo_registry with
  | (Done (Some s, err), r') => err = None /\ slot_of r' "mood" "ann" = Some (sr_slot s)
  | _ => False
  end.
Proof.
  split; [apply demo_registry_inv|].
  pose proof (ref_spec ∅ demo_registry "mood" "ann" demo_registry_inv) as H.
  revert H. vm_compute. naive_solver.
Defined.
