(* ===== verification/RegistryConc.v ===== *)
(** * Concurrent allocation in the registry (registry.go, [ref])

    [ref] under any interleaving of its atomic operations: the [sync.Map] load,
    the counter load, the compare-and-swap, the factory call, [LoadOrStore] and
    the give-back.  One shape is modelled with the threads that call [ref] on
    it; shapes share nothing but the allocator.  Each thread runs the code from
    its program counter, one atomic operation per step. *)

From S2P Require Import Prelude Values Substrate Model Registry.

(** ** The machine *)

Inductive pc :=
| RStart                             (* before sh.slots.Load *)
| RLoop                              (* top of the reservation loop *)
| RCas (current : Z)                 (* before CompareAndSwap(current, current+1) *)
| RReserved                          (* reservation held, before the factory *)
| RFresh (fresh : nat)               (* before LoadOrStore(entity, fresh) *)
| RGiveBack (actual : nat)           (* before count.Add(-1) *)
| RDone (res : result (option StateRef * error)).

Record thread := mkThread { t_entity : Entity; t_pc : pc }.

Record conc := mkConc {
  c_shape : shape;
  c_heap : list any;
  c_threads : list thread }.

Definition set_slots (slots : gmap Entity nat) (sh : shape) : shape :=
  mkShape (sh_name sh) (sh_cap sh) (sh_factory sh) (sh_count sh) slots.

(** One atomic operation of a thread that has not finished: the new shared
    state and the next program counter.  [None]: the factory does not return. *)
Definition pc_step (e : Entity) (p : pc) (sh : shape) (heap : list any) :
    option (shape * list any * pc) :=
  match p with
  | RStart =>
      Some (sh, heap,
        match sh_slots sh !! e with
        | Some existing => RDone (Done (Some (mkStateRef existing), None))
        | None => RLoop
        end)
  | RLoop =>
      Some (sh, heap,
        if (sh_cap sh <=? sh_count sh)%Z
        then RDone (Done (None, Some (ErrCapExceeded (sh_name sh) (sh_cap sh))))
        else RCas (sh_count sh))
  | RCas current =>
      if decide (sh_count sh = current) then
        Some (set_count (int64 (current + 1)) sh, heap, RReserved)
      else Some (sh, heap, RLoop)
  | RReserved =>
      match call_factory (sh_factory sh) (length heap) with
      | Done v => Some (sh, heap ++ [v], RFresh (length heap))
      | Panicked v => Some (sh, heap, RDone (Panicked v))
      | Blocked => None
      end
  | RFresh fresh =>
      match sh_slots sh !! e with
      | Some actual => Some (sh, heap, RGiveBack actual)
      | None => Some (set_slots (<[e := fresh]> (sh_slots sh)) sh, heap,
                  RDone (Done (Some (mkStateRef fresh), None)))
      end
  | RGiveBack actual =>
      Some (set_count (int64 (sh_count sh - 1)) sh, heap,
        RDone (Done (Some (mkStateRef actual), None)))
  | RDone _ => None
  end.

Definition thread_step (i : nat) (c : conc) : option conc :=
  match c_threads c !! i with
  | None => None
  | Some t =>
    match pc_step (t_entity t) (t_pc t) (c_shape c) (c_heap c) with
    | None => None
    | Some (sh, heap, p) =>
        Some (mkConc sh heap (<[i := mkThread (t_entity t) p]> (c_threads c)))
    end
  end.

(** A step of the system: a new call of [ref], or one operation of a thread. *)
Inductive cstep : conc -> conc -> Prop :=
| cstep_call c e :
    cstep c (mkConc (c_shape c) (c_heap c) (c_threads c ++ [mkThread e RStart]))
| cstep_run i c c' :
    thread_step i c = Some c' -> cstep c c'.

Definition conc_init (s : StateShape) : conc := mkConc (newShape s) [] [].

(** Running one thread alone, or a schedule of thread numbers. *)
Fixpoint run_alone (fuel i : nat) (c : conc) : conc :=
  match fuel with
  | 0 => c
  | S fuel => match thread_step i c with Some c' => run_alone fuel i c' | None => c end
  end.

Fixpoint run_schedule (sched : list nat) (c : conc) : option conc :=
  match sched with
  | [] => Some c
  | i :: rest => thread_step i c ≫= run_schedule rest
  end.

(** ** The invariant *)

(** A reservation is held between the compare-and-swap and the store or the
    give-back; a panicking factory keeps it for ever. *)
Definition holds (t : thread) : nat :=
  match t_pc t with
  | RReserved | RFresh _ | RGiveBack _ | RDone (Panicked _) => 1
  | _ => 0
  end.

(** What each thread knows about the slot map: slots are never removed. *)
Definition thread_ok (sh : shape) (heap : nat) (t : thread) : Prop :=
  match t_pc t with
  | RCas current => (current < sh_cap sh)%Z
  | RFresh fresh => fresh < heap
  | RGiveBack actual => sh_slots sh !! t_entity t = Some actual
  | RDone (Done (Some s, err)) => err = None /\ sh_slots sh !! t_entity t = Some (sr_slot s)
  | RDone (Done (None, err)) => err = Some (ErrCapExceeded (sh_name sh) (sh_cap sh))
  | RDone Blocked => False
  | _ => True
  end.

Record conc_inv (c : conc) : Prop := {
  ci_count : sh_count (c_shape c) =
    (Z.of_nat (size (sh_slots (c_shape c))) +
     Z.of_nat (sum_list_with holds (c_threads c)))%Z;
  ci_cap : (sh_count (c_shape c) <= sh_cap (c_shape c))%Z;
  ci_int : is_int64 (sh_cap (c_shape c));
  ci_threads : Forall (thread_ok (c_shape c) (length (c_heap c))) (c_threads c);
  ci_alloc : forall e l, sh_slots (c_shape c) !! e = Some l -> l < length (c_heap c) }.

(** ** Lemmas *)

Lemma sum_list_insert {A} (f : A -> nat) (l : list A) i x y :
  l !! i = Some y ->
  sum_list_with f (<[i := x]> l) + f y = sum_list_with f l + f x.
Proof.
  revert i. induction l as [|z l IH]; intros [|i]; simpl; intros Hi; simplify_eq; [lia|].
  specialize (IH i Hi). lia.
Qed.

(** Between two states the shape's name and cap are fixed and slots only grow. *)
Definition extends (sh sh' : shape) : Prop :=
  sh_name sh' = sh_name sh /\ sh_cap sh' = sh_cap sh /\ sh_slots sh ⊆ sh_slots sh'.

Lemma thread_ok_mono sh sh' h h' t :
  extends sh sh' -> h <= h' -> thread_ok sh h t -> thread_ok sh' h' t.
Proof.
  intros (Hn & Hc & Hs) Hh. unfold thread_ok. rewrite Hn, Hc.
  destruct (t_pc t) as [| | | |f|a|[[[s|] err]|v|]]; try done; [lia| |].
  - intros Ha. by eapply lookup_weaken.
  - intros [? Ha]. split; [done|]. by eapply lookup_weaken.
Qed.

(** What one operation does to the shared state, in the terms of the invariant. *)
Lemma pc_step_inv e p sh heap sh' heap' p' :
  pc_step e p sh heap = Some (sh', heap', p') ->
  thread_ok sh (length heap) (mkThread e p) ->
  (Z.of_nat (holds (mkThread e p)) <= sh_count sh <= sh_cap sh)%Z ->
  is_int64 (sh_cap sh) ->
  extends sh sh' /\ length heap <= length heap' /\
  thread_ok sh' (length heap') (mkThread e p') /\
  (sh_count sh' <= sh_cap sh')%Z /\
  (sh_count sh' - Z.of_nat (size (sh_slots sh')) - Z.of_nat (holds (mkThread e p')) =
   sh_count sh - Z.of_nat (size (sh_slots sh)) - Z.of_nat (holds (mkThread e p)))%Z /\
  (forall e' l, sh_slots sh' !! e' = Some l ->
    sh_slots sh !! e' = Some l \/ l < length heap').
Proof.
  intros Hstep Hok Hcnt Hint.
  assert (extends sh sh) as Hrefl by (by split_and!).
  unfold is_int64, int64_min, int64_max in Hint.
  unfold thread_ok, holds in *. destruct Hcnt as [Hlow Hcnt].
  destruct p as [| |cur| |f|a|res]; simpl in *; simplify_eq/=.
  - by destruct (sh_slots sh' !! e) eqn:He; simpl; split_and!; auto.
  - destruct (Z.leb_spec (sh_cap sh') (sh_count sh')); simpl; split_and!; auto.
  - case_decide; simplify_eq/=; [|by split_and!; auto].
    rewrite int64_id by (unfold is_int64, int64_min, int64_max; lia).
    split_and!; simpl; auto; lia.
  - destruct (call_factory _ _) as [v|v|]; simplify_eq/=; [|by split_and!; auto].
    rewrite length_app; simpl. split_and!; simpl; auto; lia.
  - destruct (sh_slots sh !! e) as [a|] eqn:He; simplify_eq/=; [by split_and!; auto|].
    rewrite map_size_insert_None by done. rewrite lookup_insert_eq.
    split_and!; simpl; auto; [|lia|].
    + split_and!; [done|done|]. by apply insert_subseteq.
    + intros e' l [[<- <-]|[? ?]]%lookup_insert_Some; auto.
  - rewrite int64_id by (unfold is_int64, int64_min, int64_max; lia).
    split_and!; simpl; auto; lia.
Qed.

Lemma conc_init_inv s :
  (0 < ss_Cap s)%Z -> is_int64 (ss_Cap s) -> conc_inv (conc_init s).
Proof. intros Hpos Hint. split; simpl; [done|lia|done|constructor|]. by intros; simplify_map_eq. Qed.

Lemma cstep_inv c c' : conc_inv c -> cstep c c' -> conc_inv c'.
Proof.
  intros [Hc Hcap Hint Hth Hal] Hstep. destruct Hstep as [c e|i c c' Hstep].
  { split; simpl; try done.
    - rewrite Hc, sum_list_with_app; simpl. lia.
    - by apply Forall_snoc. }
  unfold thread_step in Hstep. destruct (c_threads c !! i) as [[e p]|] eqn:Hi; [|done].
  simpl in Hstep. destruct (pc_step _ _ _ _) as [[[sh' heap'] p']|] eqn:Hp; [|done].
  simplify_eq.
  pose proof (sum_list_insert holds _ i (mkThread e p') _ Hi) as Hsum.
  destruct (pc_step_inv _ _ _ _ _ _ _ Hp) as (Hext & Hlen & Hok & Hcap' & Hcnt & Hal');
    [by eapply Forall_lookup_1 in Hth| |done|].
  { split; [|done]. rewrite Hc.
    assert (holds (mkThread e p) <= sum_list_with holds (c_threads c)); [|lia].
    apply sum_list_with_in. by eapply list_elem_of_lookup_2. }
  split; simpl.
  - lia.
  - done.
  - by destruct Hext as (_ & -> & _).
  - apply Forall_insert; [|done].
    eapply Forall_impl; [exact Hth|]. intros t. by apply thread_ok_mono.
  - intros e' l Hl. destruct (Hal' e' l Hl) as [Hold|]; [|done].
    specialize (Hal e' l Hold). lia.
Qed.

Lemma reachable_inv s c :
  (0 < ss_Cap s)%Z -> is_int64 (ss_Cap s) -> rtc cstep (conc_init s) c -> conc_inv c.
Proof.
  intros Hpos Hint Hrtc. pose proof (conc_init_inv s Hpos Hint) as Hinv.
  revert Hinv. generalize (conc_init s) Hrtc. clear Hrtc. intros c0 Hrtc.
  induction Hrtc as [|c0 c1 c2 Hstep _ IH]; [done|].
  intros Hinv. by eapply IH, cstep_inv.
Qed.

#[export] Hint Resolve conc_init_inv cstep_inv : imps.

(** No two entities share a slot, nor does a slot on its way into the map belong to
    anybody else. *)
Definition fresh_of (t : thread) : option nat :=
  match t_pc t with RFresh f => Some f | _ => None end.

Record apart (c : conc) : Prop := {
  ap_map e e' l : sh_slots (c_shape c) !! e = Some l -> sh_slots (c_shape c) !! e' = Some l ->
    e = e';
  ap_fresh i t f e : c_threads c !! i = Some t -> fresh_of t = Some f ->
    sh_slots (c_shape c) !! e <> Some f;
  ap_threads i j t t' f : c_threads c !! i = Some t -> c_threads c !! j = Some t' ->
    fresh_of t = Some f -> fresh_of t' = Some f -> i = j }.

(** A move that stores no slot, to a program counter that holds none. *)
Lemma apart_quiet c i e p p' sh heap :
  apart c -> c_threads c !! i = Some (mkThread e p) ->
  sh_slots sh = sh_slots (c_shape c) -> fresh_of (mkThread e p') = None ->
  apart (mkConc sh heap (<[i := mkThread e p']> (c_threads c))).
Proof.
  intros [Hm Hf Ht] Hi Hsh Hp'.
  assert (forall j t f, <[i := mkThread e p']> (c_threads c) !! j = Some t ->
    fresh_of t = Some f -> c_threads c !! j = Some t) as Hold.
  { intros j t f [(-> & <- & _)|[_ Hj]]%list_lookup_insert_Some Hff; [congruence|done]. }
  split; simpl; rewrite ?Hsh; [done|..].
  - intros j t f e' Hj Hff. eapply Hf; [by eapply Hold|done].
  - intros j k t t' f Hj Hk H1 H2. by eapply Ht; [eapply Hold|eapply Hold|..].
Qed.

Lemma apart_fresh c i e heap :
  conc_inv c -> apart c -> c_threads c !! i = Some (mkThread e RReserved) ->
  apart (mkConc (c_shape c) heap (<[i := mkThread e (RFresh (length (c_heap c)))]> (c_threads c))).
Proof.
  intros [_ _ _ Hok Hal] [Hm Hf Ht] Hi.
  assert (forall j t f, c_threads c !! j = Some t -> fresh_of t = Some f ->
    f < length (c_heap c)) as Hlt.
  { intros j [e' p] f Hj. rewrite Forall_lookup in Hok. specialize (Hok j _ Hj).
    unfold fresh_of, thread_ok in *. destruct p; simpl in *; try done. by intros [= <-]. }
  split; simpl; [done|..].
  - intros j t f e' [(-> & <- & _)|[_ Hj]]%list_lookup_insert_Some Hff; [|by eapply Hf].
    injection Hff as <-. intros Hl%Hal. lia.
  - intros j k t t' f [(-> & <- & _)|[Hj Hjt]]%list_lookup_insert_Some
      [(-> & <- & _)|[Hk Hkt]]%list_lookup_insert_Some H1 H2; [done|..|by eapply Ht].
    + injection H1 as <-. specialize (Hlt _ _ _ Hkt H2). lia.
    + injection H2 as <-. specialize (Hlt _ _ _ Hjt H1). lia.
Qed.

Lemma apart_store c i e f heap :
  apart c -> c_threads c !! i = Some (mkThread e (RFresh f)) ->
  apart (mkConc (set_slots (<[e := f]> (sh_slots (c_shape c))) (c_shape c)) heap
    (<[i := mkThread e (RDone (Done (Some (mkStateRef f), None)))]> (c_threads c))).
Proof.
  intros [Hm Hf Ht] Hi. pose proof (fun e' => Hf i _ f e' Hi eq_refl) as Hout. split; simpl.
  - intros e1 e2 l [[? ?]|[_ H1]]%lookup_insert_Some [[? ?]|[_ H2]]%lookup_insert_Some;
      simplify_eq; [done|by destruct (Hout e2)|by destruct (Hout e1)|by eapply Hm].
  - intros j t g e' [(-> & <- & _)|[Hj Hjt]]%list_lookup_insert_Some Hg; [done|].
    intros [[_ <-]|[_ Hl]]%lookup_insert_Some; [by destruct Hj; eapply Ht|by eapply Hf].
  - intros j k t t' g [(-> & <- & _)|[Hj Hjt]]%list_lookup_insert_Some
      [(-> & <- & _)|[Hk Hkt]]%list_lookup_insert_Some H1 H2; try done. by eapply Ht.
Qed.

Lemma cstep_apart c c' : conc_inv c -> apart c -> cstep c c' -> apart c'.
Proof.
  intros Hinv Hap Hstep. destruct Hstep as [c e|i c c' Hstep].
  { destruct Hap as [Hm Hf Ht].
    assert (forall j t f, (c_threads c ++ [mkThread e RStart]) !! j = Some t ->
      fresh_of t = Some f -> c_threads c !! j = Some t) as Hold.
    { intros j t f [Hj|[_ Hj]]%lookup_app_Some Hff; [done|].
      by apply list_lookup_singleton_Some in Hj as [_ <-]. }
    split; simpl; [done|..].
    - intros j t f e' Hj Hff. eapply Hf; [by eapply Hold|done].
    - intros j k t t' f Hj Hk H1 H2. by eapply Ht; [eapply Hold|eapply Hold|..]. }
  unfold thread_step in Hstep. destruct (c_threads c !! i) as [[e p]|] eqn:Hi; [|done].
  simpl in Hstep. destruct (pc_step _ _ _ _) as [[[sh' heap'] p']|] eqn:Hp; [|done].
  injection Hstep as <-. destruct p as [| |cur| |f|a|res]; simpl in Hp.
  - injection Hp as <- <- <-. eapply apart_quiet; [done..|]. by case_match.
  - injection Hp as <- <- <-. eapply apart_quiet; [done..|]. by case_match.
  - case_decide; injection Hp as <- <- <-; by eapply apart_quiet.
  - destruct (call_factory _ _); [| |done]; injection Hp as <- <- <-;
      [by apply apart_fresh|by eapply apart_quiet].
  - destruct (sh_slots _ !! e) eqn:He; injection Hp as <- <- <-;
      [by eapply apart_quiet|by apply apart_store].
  - injection Hp as <- <- <-. by eapply apart_quiet.
  - done.
Qed.

Lemma reachable_apart s c :
  (0 < ss_Cap s)%Z -> is_int64 (ss_Cap s) -> rtc cstep (conc_init s) c -> apart c.
Proof.
  intros Hpos Hint Hrtc. revert c Hrtc. refine (rtc_ind_r _ _ _ _).
  - split; simpl; [by intros; simplify_map_eq|done..].
  - intros c1 c2 Hrtc Hstep IH. eapply cstep_apart; [|exact IH|exact Hstep].
    by eapply reachable_inv.
Qed.

Lemma run_schedule_reach sched c c' :
  run_schedule sched c = Some c' -> rtc cstep c c'.
Proof.
  revert c. induction sched as [|i sched IH]; simpl; intros c; [by intros [= ->]|].
  destruct (thread_step i c) as [c1|] eqn:Hi; simpl; [|done].
  intros Hr. eapply rtc_l; [by eapply cstep_run|by apply IH].
Qed.

(** A race of three calls on a shape with a cap of two: the first two reserve for
    the same entity, the third arrives while both reservations are held. *)
Definition race_shape : StateShape :=
  mkStateShape "mood" (Some (fun _ => Done (AInt 0))) 2.
Definition race_start : conc :=
  mkConc (newShape race_shape) []
    [mkThread "ann" RStart; mkThread "ann" RStart; mkThread "bob" RStart].
Definition race_schedule : list nat := [0; 1; 0; 1; 0; 1; 1; 1; 2; 2; 0; 1; 0; 1; 1].
Definition race_end : conc := default race_start (run_schedule race_schedule race_start).

Lemma race_end_run : run_schedule race_schedule race_start = Some race_end.
Proof. vm_compute. reflexivity. Qed.

Lemma race_end_threads :
  c_threads race_end =
    [mkThread "ann" (RDone (Done (Some (mkStateRef 0), None)));
     mkThread "ann" (RDone (Done (Some (mkStateRef 0), None)));
     mkThread "bob" (RDone (Done (None, Some (ErrCapExceeded "mood" 2))))].
Proof. vm_compute. reflexivity. Qed.

(** ** Properties *)

Definition finished (t : thread) : Prop := exists res, t_pc t = RDone res.
Definition panicked (t : thread) : Prop := exists v, t_pc t = RDone (Panicked v).

Lemma holds_finished t : finished t -> ~ panicked t -> holds t = 0.
Proof.
  unfold finished, panicked, holds. intros [res ->] Hnp.
  destruct res as [|v|]; [done| |done]. by destruct Hnp; eexists.
Qed.

Lemma sum_holds_finished ts :
  Forall (fun t => finished t /\ ~ panicked t) ts -> sum_list_with holds ts = 0.
Proof.
  induction 1 as [|t ts [Hf Hp] _ IH]; simpl; [done|]. by rewrite holds_finished, IH.
Qed.

Lemma reachable_cap s c : rtc cstep (conc_init s) c -> sh_cap (c_shape c) = ss_Cap s.
Proof.
  revert c. apply rtc_ind_r; [done|].
  intros c1 c2 _ Hstep IH. destruct Hstep as [c1 e|i c1 c2 Hstep]; [done|].
  unfold thread_step in Hstep. rewrite <- IH. clear - Hstep.
  destruct (c_threads c1 !! i) as [[e p]|]; [|done]. simpl in Hstep.
  destruct p; simpl in Hstep; crunch.
Qed.

(** Two finished calls for one entity: the same slot, which the map holds; a call is
    refused only by the cap. *)
Definition agree (sh : shape) (t1 t2 : thread) : Prop :=
  t_entity t1 = t_entity t2 ->
  match t_pc t1, t_pc t2 with
  | RDone (Done (Some r1, e1)), RDone (Done (Some r2, e2)) =>
      r1 = r2 /\ e1 = None /\ e2 = None /\ sh_slots sh !! t_entity t1 = Some (sr_slot r1)
  | RDone (Done (None, e1)), RDone (Done _) =>
      e1 = Some (ErrCapExceeded (sh_name sh) (sh_cap sh))
  | _, _ => True
  end.

(** Calls that return one slot are calls for one entity. *)
Definition disjoint_slots (t1 t2 : thread) : Prop :=
  match t_pc t1, t_pc t2 with
  | RDone (Done (Some r1, _)), RDone (Done (Some r2, _)) => r1 = r2 -> t_entity t1 = t_entity t2
  | _, _ => True
  end.

Lemma reachable_ref_safe s c :
  (0 < ss_Cap s)%Z -> is_int64 (ss_Cap s) -> rtc cstep (conc_init s) c ->
  let sh := c_shape c in
  (Z.of_nat (size (sh_slots sh)) <= sh_count sh <= ss_Cap s)%Z /\
  sh_count sh =
    (Z.of_nat (size (sh_slots sh)) + Z.of_nat (sum_list_with holds (c_threads c)))%Z /\
  (Forall (fun t => finished t /\ ~ panicked t) (c_threads c) ->
    sh_count sh = Z.of_nat (size (sh_slots sh))) /\
  (forall t1 t2, t1 ∈ c_threads c -> t2 ∈ c_threads c -> agree sh t1 t2 /\ disjoint_slots t1 t2).
Proof.
  intros Hpos Hint Hrtc. simpl. pose proof (reachable_cap s c Hrtc) as Hcap.
  destruct (reachable_inv s c Hpos Hint Hrtc) as [Hc Hle _ Hth Hal]. split_and!; try lia.
  - intros Hfin. rewrite Hc, sum_holds_finished by done. lia.
  - rewrite Forall_forall in Hth. intros t1 t2 H1%Hth H2%Hth. split.
    + intros He. unfold thread_ok in *. rewrite He in H1 |- *.
      destruct (t_pc t1) as [| | | | | |[[[l1|] ?]|?|]], (t_pc t2) as [| | | | | |[[[l2|] ?]|?|]];
        try done; destruct_and?.
      destruct l1, l2; simpl in *; split_and!; congruence.
    + unfold disjoint_slots, thread_ok in *.
      destruct (t_pc t1) as [| | | | | |[[[l1|] ?]|?|]], (t_pc t2) as [| | | | | |[[[l2|] ?]|?|]];
        try done. intros ->. destruct H1 as [_ H1], H2 as [_ H2].
      by eapply ap_map; [apply (reachable_apart s)|..].
Qed.

(** A thread left alone finishes.  From its start it is done after at most
    five operations, with the result, the counter, the slots and the heap of the
    sequential [ref]; the other threads, stopped anywhere, do not matter. *)
Lemma ref_alone i e sh heap ts :
  ts !! i = Some (mkThread e RStart) ->
  call_factory (sh_factory sh) (length heap) <> Blocked ->
  let c := mkConc sh heap ts in
  let reg := mkRegistry {[sh_name sh := sh]} heap in
  exists sh' heap',
    run_alone 5 i c = mkConc sh' heap'
      (<[i := mkThread e (RDone (fst (ref (sh_name sh) e reg)))]> ts) /\
    snd (ref (sh_name sh) e reg) = mkRegistry {[sh_name sh := sh']} heap'.
Proof.
  intros Hi Hnb. pose proof (lookup_lt_Some _ _ _ Hi) as Hlt. simpl.
  unfold ref; simpl. rewrite lookup_singleton_eq.
  unfold thread_step at 1; simpl. rewrite Hi; simpl.
  assert (forall (ts' : list thread) t, (<[i := t]> ts) !! i = Some t) as Hget
    by (intros; by apply list_lookup_insert_eq).
  destruct (sh_slots sh !! e) as [l|] eqn:He.
  { eexists _, _. split; [|done].
    unfold thread_step; simpl. by rewrite Hget. }
  unfold thread_step at 1; simpl. rewrite Hget by done; simpl.
  rewrite list_insert_insert_eq.
  destruct (Z.leb_spec (sh_cap sh) (sh_count sh)).
  { eexists _, _. split; [|done]. unfold thread_step; simpl. by rewrite Hget. }
  unfold thread_step at 1; simpl. rewrite Hget by done; simpl.
  rewrite decide_True by done. rewrite list_insert_insert_eq.
  unfold thread_step at 1; simpl. rewrite Hget by done; simpl.
  destruct (call_factory _ _) as [v|v|]; [| |done].
  - rewrite list_insert_insert_eq. unfold thread_step at 1; simpl.
    rewrite Hget by done; simpl. rewrite He; simpl. rewrite list_insert_insert_eq.
    eexists _, _. split; [done|]. simpl. by rewrite insert_singleton_eq.
  - rewrite list_insert_insert_eq. eexists _, _. split.
    + unfold thread_step; simpl. by rewrite Hget.
    + unfold set_shape; simpl. by rewrite insert_singleton_eq.
Qed.

(** Two calls racing for the same new entity hold both reservations of a cap of two. *)
Lemma refused_below_cap :
  exists c, rtc cstep (conc_init race_shape) c /\
    Forall finished (c_threads c) /\
    mkThread "bob" (RDone (Done (None, Some (ErrCapExceeded "mood" 2)))) ∈ c_threads c /\
    size (sh_slots (c_shape c)) = 1 /\ sh_count (c_shape c) = 1%Z.
Proof.
  exists race_end. split_and!.
  - transitivity race_start; [|apply (run_schedule_reach race_schedule), race_end_run].
    do 3 (eapply rtc_l; [apply cstep_call|]); simpl. apply rtc_refl.
  - rewrite race_end_threads. repeat constructor; by eexists.
  - rewrite race_end_threads. set_solver.
  - by vm_compute.
  - by vm_compute.
Qed.

(** C23: under every interleaving of any number of [ref] calls the shape never
    holds more slots than its cap, the counter is the number of slots plus the
    reservations in flight, and once every call has finished without a factory
    panic the counter is exactly the number of slots. Any two calls that return a
    reference for the same entity return the same slot — the one the map holds —
    however they raced, and calls for different entities never do; a call is refused
    only with [ErrCapExceeded] naming the shape's cap. But the cap counts reservations,
    not entities: there is a schedule with a cap of two in which two calls for one new
    entity hold both, a call for another entity is refused, and afterwards the shape
    holds one slot. *)
Theorem concurrent_ref_safe :
  (forall s c, (0 < ss_Cap s)%Z -> is_int64 (ss_Cap s) -> rtc cstep (conc_init s) c ->
    let sh := c_shape c in
    (Z.of_nat (size (sh_slots sh)) <= sh_count sh <= ss_Cap s)%Z /\
    sh_count sh =
      (Z.of_nat (size (sh_slots sh)) + Z.of_nat (sum_list_with holds (c_threads c)))%Z /\
    (Forall (fun t => finished t /\ ~ panicked t) (c_threads c) ->
      sh_count sh = Z.of_nat (size (sh_slots sh))) /\
    (forall t1 t2, t1 ∈ c_threads c -> t2 ∈ c_threads c ->
      agree sh t1 t2 /\ disjoint_slots t1 t2)) /\
  (exists c, rtc cstep (conc_init race_shape) c /\ Forall finished (c_threads c) /\
    mkThread "bob" (RDone (Done (None, Some (ErrCapExceeded "mood" 2)))) ∈ c_threads c /\
    size (sh_slots (c_shape c)) = 1 /\ sh_count (c_shape c) = 1%Z).
Proof. split; [exact reachable_ref_safe|exact refused_below_cap]. Qed.

(** ** Witnesses *)

Definition race_state : conc :=
  mkConc (newShape demo_shape) [] [mkThread "ann" RStart].

Definition done_thread : thread := mkThread "ann" (RDone (Done (Some (mkStateRef 0), None))).
Definition done_state : conc :=
  mkConc (mkShape "mood" 1 (Some (fun _ => Done (AInt 0))) 1 {["ann" := 0]}) [AInt 0]
    [done_thread].

Lemma concurrent_ref_safe_witness :
  rtc cstep (conc_init demo_shape) done_state /\
  (Z.of_nat (size (sh_slots (c_shape done_state))) <= sh_count (c_shape done_state) <= 1)%Z /\
  agree (c_shape done_state) done_thread done_thread.
Proof.
  assert (rtc cstep (conc_init demo_shape) done_state) as Hr.
  { eapply rtc_l; [apply (cstep_call _ "ann")|]. simpl.
    do 5 (eapply rtc_l; [apply (cstep_run 0); reflexivity|]). apply rtc_refl. }
  split; [exact Hr|].
  destruct (proj1 concurrent_ref_safe demo_shape done_state) as (H1 & _ & _ & H2);
    [reflexivity|vm_compute; split; congruence|exact Hr|].
  split; [exact H1|]. apply H2; left.
Defined.
