(* ===== verification/Lifecycle.v ===== *)
(** * The lifecycle state machine (internal/lifecycle/state.go)

    An atomic holder of an [int32].  [Set] stores whatever it is given;
    [CompareAndSwap] is the only guarded transition. *)

From S2P Require Import Prelude.

Definition State : Type := Z.
#[export] Instance State_eq_dec : EqDecision State := Z.eq_dec.

Definition StateCreated : State := 0%Z.
Definition StateStarting : State := 1%Z.
Definition StateRunning : State := 2%Z.
Definition StateDraining : State := 3%Z.
Definition StateStopped : State := 4%Z.
Definition StateFailed : State := 5%Z.

Definition State_String (s : State) : string :=
  if decide (s = StateCreated) then "Created"
  else if decide (s = StateStarting) then "Starting"
  else if decide (s = StateRunning) then "Running"
  else if decide (s = StateDraining) then "Draining"
  else if decide (s = StateStopped) then "Stopped"
  else if decide (s = StateFailed) then "Failed"
  else "Unknown".

Record Machine := mkMachine { mc_state : State }.

Definition New : Machine := mkMachine StateCreated.
Definition Machine_Get (m : Machine) : State := mc_state m.

(** The previous state, and the machine after the swap. *)
Definition Machine_Set (s : State) (m : Machine) : State * Machine :=
  (mc_state m, mkMachine s).

Definition Machine_CompareAndSwap (prev next : State) (m : Machine) : bool * Machine :=
  if decide (mc_state m = prev) then (true, mkMachine next) else (false, m).

(** The transitions the comments of the package allow. *)
Inductive documented : State -> State -> Prop :=
| doc_start : documented StateCreated StateStarting
| doc_run : documented StateStarting StateRunning
| doc_drain : documented StateRunning StateDraining
| doc_stop : documented StateDraining StateStopped
| doc_fail : documented StateStarting StateFailed.

Definition documentedb (s s' : State) : bool :=
  bool_decide ((s, s') ∈ [(StateCreated, StateStarting); (StateStarting, StateRunning);
    (StateRunning, StateDraining); (StateDraining, StateStopped);
    (StateStarting, StateFailed)]).

Lemma documentedb_spec s s' : documentedb s s' = true <-> documented s s'.
Proof.
  unfold documentedb. rewrite bool_decide_eq_true. split.
  - rewrite !elem_of_cons, elem_of_nil.
    intros [[= -> ->]|[[= -> ->]|[[= -> ->]|[[= -> ->]|[[= -> ->]|[]]]]]]; constructor.
  - intros []; set_solver.
Qed.

#[export] Instance documented_dec s s' : Decision (documented s s').
Proof. refine (cast_if (decide (documentedb s s' = true))); by rewrite <- documentedb_spec. Defined.

Lemma compareAndSwap_true prev next m m' :
  Machine_CompareAndSwap prev next m = (true, m') ->
  Machine_Get m = prev /\ Machine_Get m' = next.
Proof. unfold Machine_CompareAndSwap, Machine_Get. case_decide; by intros [= <-]. Qed.

Lemma compareAndSwap_false prev next m m' :
  Machine_CompareAndSwap prev next m = (false, m') -> Machine_Get m <> prev /\ m' = m.
Proof. unfold Machine_CompareAndSwap, Machine_Get. case_decide; by intros [= <-]. Qed.
