(* ===== verification/Metrics.v ===== *)
(** * Counters (metrics_internal.go, spec.go)

    The harness's atomic counters.  Each is a [uint64] that wraps at 2^64, and
    [InflightThinking] is an [int64] gauge. *)

From S2P Require Import Prelude.

Inductive counter :=
| InflightThinking
| DecodeFailures
| ExtractionFailures
| AwarenessPanics
| ThinkingPanics
| ThinkingErrors
| NotesDelivered
| ThinksDispatched
| IgnoredVerdicts
| NakTotal
| RequestCalls
| RequestManyCalls
| RequestNoResponders
| RequestTimeouts.

#[export] Instance counter_eq_dec : EqDecision counter.
Proof. solve_decision. Defined.

(** The counter set: the value of every field. *)
Definition metrics : Type := counter -> Z.

Definition newMetrics : metrics := fun _ => 0%Z.

Definition wrap (c : counter) (z : Z) : Z :=
  match c with InflightThinking => int64 z | _ => uint64 z end.

(** [m.X.Add(d)]. *)
Definition Add (c : counter) (d : Z) (m : metrics) : metrics := fun c' =>
  if decide (c' = c) then wrap c (m c + d) else m c'.

(** The exported snapshot. *)
Record Metrics := mkMetrics {
  M_InflightThinking : Z;
  M_DecodeFailures : Z;
  M_ExtractionFailures : Z;
  M_AwarenessPanics : Z;
  M_ThinkingPanics : Z;
  M_ThinkingErrors : Z;
  M_NotesDelivered : Z;
  M_ThinksDispatched : Z;
  M_IgnoredVerdicts : Z;
  M_NakTotal : Z;
  M_RequestCalls : Z;
  M_RequestManyCalls : Z;
  M_RequestNoResponders : Z;
  M_RequestTimeouts : Z }.

Definition Metrics_zero : Metrics := mkMetrics 0 0 0 0 0 0 0 0 0 0 0 0 0 0.

Definition snapshot (m : metrics) : Metrics :=
  mkMetrics (m InflightThinking) (m DecodeFailures) (m ExtractionFailures)
    (m AwarenessPanics) (m ThinkingPanics) (m ThinkingErrors) (m NotesDelivered)
    (m ThinksDispatched) (m IgnoredVerdicts) (m NakTotal) (m RequestCalls)
    (m RequestManyCalls) (m RequestNoResponders) (m RequestTimeouts).

(** Every counter is in the range of its type. *)
Definition metrics_ok (m : metrics) : Prop := forall c, wrap c (m c) = m c.

(** Two counter sets agree outside the counters of a list. *)
Definition only_counts (cs : list counter) (m m' : metrics) : Prop :=
  forall c, c ∉ cs -> m' c = m c.

Lemma Add_eq c d m : Add c d m c = wrap c (m c + d).
Proof. unfold Add. by rewrite decide_True. Qed.

Lemma Add_ne c c' d m : c' <> c -> Add c d m c' = m c'.
Proof. unfold Add. intros. by rewrite decide_False. Qed.

Lemma wrap_idem c z : wrap c (wrap c z) = wrap c z.
Proof.
  destruct c; simpl; try (apply uint64_id, uint64_range). apply int64_id, int64_range.
Qed.

Lemma metrics_ok_new : metrics_ok newMetrics.
Proof. by intros []. Qed.

Lemma metrics_ok_Add c d m : metrics_ok m -> metrics_ok (Add c d m).
Proof.
  intros Hm c'. unfold Add. case_decide as Heq; [subst; apply wrap_idem|apply Hm].
Qed.

Lemma only_counts_refl cs m : only_counts cs m m.
Proof. by intros c _. Qed.

Lemma only_counts_trans cs m1 m2 m3 :
  only_counts cs m1 m2 -> only_counts cs m2 m3 -> only_counts cs m1 m3.
Proof. intros H1 H2 c Hc. by rewrite H2, H1. Qed.

Lemma only_counts_Add cs c d m m' :
  c ∈ cs -> only_counts cs m m' -> only_counts cs m (Add c d m').
Proof. intros Hc H c' Hc'. rewrite Add_ne; [by apply H|set_solver]. Qed.

(** Two additions to one counter are one addition, wrap-around included. *)
Lemma Add_Add c d d' m : Add c d' (Add c d m) c = wrap c (m c + (d + d')).
Proof.
  rewrite !Add_eq. destruct c; simpl; unfold int64, uint64;
    try (rewrite Zplus_mod_idemp_l; f_equal; lia).
  f_equal.
  replace ((m InflightThinking + d + 2 ^ 63) mod 2 ^ 64 - 2 ^ 63 + d' + 2 ^ 63)%Z
    with ((m InflightThinking + d + 2 ^ 63) mod 2 ^ 64 + d')%Z by lia.
  rewrite Zplus_mod_idemp_l. f_equal. lia.
Qed.

#[export] Hint Resolve metrics_ok_new metrics_ok_Add only_counts_refl only_counts_Add : imps.
#[export] Hint Rewrite Add_eq : imps.
