(* ===== verification/Runtime.v ===== *)
(** * The runtime and its effects (imp.go, logger.go, state passing)

    [runtime] is the record of imp.go, with three ghost fields for what the
    harness did: the log, the substrate events and the thinking goroutines it
    launched.  Code that runs against it is a state transformer whose result is
    an [outcome]; callbacks are interpreted into it through handlers. *)

From S2P Require Import Prelude Values Substrate Model Lifecycle Metrics Registry.

(** ** Logging (logger.go) *)

Inductive level := LDebug | LInfo | LWarn | LError.

(** One record: level, event name and attributes.  Elapsed times are left out. *)
Record log_entry := mkLog {
  lg_level : level;
  lg_msg : string;
  lg_attrs : list (string * any) }.

Record logger := mkLogger { lg_handler : slogHandler }.
Definition newLogger (h : slogHandler) : logger := mkLogger h.

Section Runtime.
Context `{NatsTypes}.

(** ** State *)

(** [channelState]; [true] in [ch_subscription] and [ch_streamConsume] is a
    non-nil handle. *)
Record channelState := mkChannelState {
  ch_spec : ChannelSpec;
  ch_subject : string;
  ch_subscription : bool;
  ch_stream : string;
  ch_consumerName : string;
  ch_ephemeral : bool;
  ch_streamConsume : bool }.

(** The fields of the two context objects that are not shared with the runtime. *)
Record awarenessCtx := mkAwarenessCtx { ac_defaultRequestTimeout : Duration }.
Record thinkingCtx := mkThinkingCtx {
  tc_defaultRequestTimeout : Duration;
  tc_defaultRequestManyWindow : Duration }.

(** A thinking goroutine: the arguments of the user's function. *)
Record goroutine := mkGoroutine { g_reason : any; g_entity : Entity }.

Record runtime := mkRuntime {
  rt_registry : registry;
  rt_metrics : metrics;
  rt_logger : logger;
  rt_awareness : awarenessCtx;
  rt_thinking : thinkingCtx;
  rt_thinkingCancelled : bool;      (* thinkingCtx.Done() is closed *)
  rt_thinkingWG : Z;
  rt_channels : list channelState;
  rt_js : bool;                     (* js != nil *)
  rt_streams : list string;
  rt_state : Machine;
  rt_identity : ImpIdentity;
  rt_shutdownOnce : bool;           (* the once has run *)
  rt_shutdownErr : error;
  rt_stopped : bool;                (* stopped is closed *)
  rt_log : list log_entry;
  rt_events : list event;
  rt_goroutines : list goroutine }.

(** Field updates. *)
Definition set_registry x (r : runtime) : runtime :=
  mkRuntime x (rt_metrics r) (rt_logger r) (rt_awareness r) (rt_thinking r)
    (rt_thinkingCancelled r) (rt_thinkingWG r) (rt_channels r) (rt_js r) (rt_streams r)
    (rt_state r) (rt_identity r) (rt_shutdownOnce r) (rt_shutdownErr r) (rt_stopped r)
    (rt_log r) (rt_events r) (rt_goroutines r).
Definition set_metrics x (r : runtime) : runtime :=
  mkRuntime (rt_registry r) x (rt_logger r) (rt_awareness r) (rt_thinking r)
    (rt_thinkingCancelled r) (rt_thinkingWG r) (rt_channels r) (rt_js r) (rt_streams r)
    (rt_state r) (rt_identity r) (rt_shutdownOnce r) (rt_shutdownErr r) (rt_stopped r)
    (rt_log r) (rt_events r) (rt_goroutines r).
Definition set_cancelled x (r : runtime) : runtime :=
  mkRuntime (rt_registry r) (rt_metrics r) (rt_logger r) (rt_awareness r) (rt_thinking r)
    x (rt_thinkingWG r) (rt_channels r) (rt_js r) (rt_streams r)
    (rt_state r) (rt_identity r) (rt_shutdownOnce r) (rt_shutdownErr r) (rt_stopped r)
    (rt_log r) (rt_events r) (rt_goroutines r).
Definition set_wg x (r : runtime) : runtime :=
  mkRuntime (rt_registry r) (rt_metrics r) (rt_logger r) (rt_awareness r) (rt_thinking r)
    (rt_thinkingCancelled r) x (rt_channels r) (rt_js r) (rt_streams r)
    (rt_state r) (rt_identity r) (rt_shutdownOnce r) (rt_shutdownErr r) (rt_stopped r)
    (rt_log r) (rt_events r) (rt_goroutines r).
Definition set_channels x (r : runtime) : runtime :=
  mkRuntime (rt_registry r) (rt_metrics r) (rt_logger r) (rt_awareness r) (rt_thinking r)
    (rt_thinkingCancelled r) (rt_thinkingWG r) x (rt_js r) (rt_streams r)
    (rt_state r) (rt_identity r) (rt_shutdownOnce r) (rt_shutdownErr r) (rt_stopped r)
    (rt_log r) (rt_events r) (rt_goroutines r).
Definition set_js x (r : runtime) : runtime :=
  mkRuntime (rt_registry r) (rt_metrics r) (rt_logger r) (rt_awareness r) (rt_thinking r)
    (rt_thinkingCancelled r) (rt_thinkingWG r) (rt_channels r) x (rt_streams r)
    (rt_state r) (rt_identity r) (rt_shutdownOnce r) (rt_shutdownErr r) (rt_stopped r)
    (rt_log r) (rt_events r) (rt_goroutines r).
Definition set_streams x (r : runtime) : runtime :=
  mkRuntime (rt_registry r) (rt_metrics r) (rt_logger r) (rt_awareness r) (rt_thinking r)
    (rt_thinkingCancelled r) (rt_thinkingWG r) (rt_channels r) (rt_js r) x
    (rt_state r) (rt_identity r) (rt_shutdownOnce r) (rt_shutdownErr r) (rt_stopped r)
    (rt_log r) (rt_events r) (rt_goroutines r).
Definition set_state x (r : runtime) : runtime :=
  mkRuntime (rt_registry r) (rt_metrics r) (rt_logger r) (rt_awareness r) (rt_thinking r)
    (rt_thinkingCancelled r) (rt_thinkingWG r) (rt_channels r) (rt_js r) (rt_streams r)
    x (rt_identity r) (rt_shutdownOnce r) (rt_shutdownErr r) (rt_stopped r)
    (rt_log r) (rt_events r) (rt_goroutines r).
Definition set_shutdown once err stopped (r : runtime) : runtime :=
  mkRuntime (rt_registry r) (rt_metrics r) (rt_logger r) (rt_awareness r) (rt_thinking r)
    (rt_thinkingCancelled r) (rt_thinkingWG r) (rt_channels r) (rt_js r) (rt_streams r)
    (rt_state r) (rt_identity r) once err stopped
    (rt_log r) (rt_events r) (rt_goroutines r).
Definition set_log x (r : runtime) : runtime :=
  mkRuntime (rt_registry r) (rt_metrics r) (rt_logger r) (rt_awareness r) (rt_thinking r)
    (rt_thinkingCancelled r) (rt_thinkingWG r) (rt_channels r) (rt_js r) (rt_streams r)
    (rt_state r) (rt_identity r) (rt_shutdownOnce r) (rt_shutdownErr r) (rt_stopped r)
    x (rt_events r) (rt_goroutines r).
Definition set_events x (r : runtime) : runtime :=
  mkRuntime (rt_registry r) (rt_metrics r) (rt_logger r) (rt_awareness r) (rt_thinking r)
    (rt_thinkingCancelled r) (rt_thinkingWG r) (rt_channels r) (rt_js r) (rt_streams r)
    (rt_state r) (rt_identity r) (rt_shutdownOnce r) (rt_shutdownErr r) (rt_stopped r)
    (rt_log r) x (rt_goroutines r).
Definition set_goroutines x (r : runtime) : runtime :=
  mkRuntime (rt_registry r) (rt_metrics r) (rt_logger r) (rt_awareness r) (rt_thinking r)
    (rt_thinkingCancelled r) (rt_thinkingWG r) (rt_channels r) (rt_js r) (rt_streams r)
    (rt_state r) (rt_identity r) (rt_shutdownOnce r) (rt_shutdownErr r) (rt_stopped r)
    (rt_log r) (rt_events r) x.

(** ** The execution monad *)

Definition M (A : Type) : Type := runtime -> result A * runtime.

Definition ret {A} (a : A) : M A := fun r => (Done a, r).
Definition panic {A} (v : any) : M A := fun r => (Panicked v, r).
Definition block {A} : M A := fun r => (Blocked, r).

Definition bind {A B} (m : M A) (k : A -> M B) : M B := fun r =>
  match m r with
  | (Done a, r') => k a r'
  | (Panicked v, r') => (Panicked v, r')
  | (Blocked, r') => (Blocked, r')
  end.

(** [defer func() { if r := recover(); r != nil { h(r) } }()] around a body. *)
Definition recovering {A} (body : M A) (h : any -> M A) : M A := fun r =>
  match body r with
  | (Panicked v, r') => h v r'
  | res => res
  end.

(** [defer cleanup()] around a body that returns or panics. *)
Definition deferring {A} (cleanup : M unit) (body : M A) : M A := fun r =>
  match body r with
  | (Blocked, r') => (Blocked, r')
  | (res, r') =>
      match cleanup r' with
      | (Done _, r'') => (res, r'')
      | (Panicked v, r'') => (Panicked v, r'')
      | (Blocked, r'') => (Blocked, r'')
      end
  end.

(** Reading, writing, and running a computation on a part of the state. *)
Definition gets {A} (f : runtime -> A) : M A := fun r => (Done (f r), r).
Definition modify (f : runtime -> runtime) : M unit := fun r => (Done tt, f r).
Definition lift {A} (m : result A) : M A := fun r => (m, r).
Definition on_registry {A} (f : registry -> result A * registry) : M A := fun r =>
  let (res, g) := f (rt_registry r) in (res, set_registry g r).

Definition add_metric (c : counter) (d : Z) : M unit :=
  modify (fun r => set_metrics (Add c d (rt_metrics r)) r).
Definition log (l : level) (msg : string) (attrs : list (string * any)) : M unit :=
  modify (fun r => set_log (rt_log r ++ [mkLog l msg attrs]) r).
Definition emit (e : event) : M unit :=
  modify (fun r => set_events (rt_events r ++ [e]) r).

(** A call on the substrate: its answer depends on the calls before it, and the
    call joins them. *)
Definition ask {A} (e : event) (answer : list event -> A) : M A := fun r =>
  (Done (answer (rt_events r)), set_events (rt_events r ++ [e]) r).

(** ** Interpreting callbacks *)

Fixpoint run_prog {E : Type -> Type} {A} (h : forall X, E X -> M X) (p : prog E A) : M A :=
  match p with
  | Ret a => ret a
  | Panic v => panic v
  | Diverge => block
  | Vis e k => bind (h _ e) (fun x => run_prog h (k x))
  end.

Definition StateRef_handler {X} (e : StateRef_methods X) : M X :=
  match e in StateRef_methods X return M X with
  | StateRef_Get r => on_registry (stateRef_Get r)
  | StateRef_Set r v => on_registry (stateRef_Set r v)
  | StateRef_Update r fn => on_registry (stateRef_Update r fn)
  end.

End Runtime.

Declare Scope imp_scope.
Delimit Scope imp_scope with imp.
Notation "x <- m ;; k" := (bind m (fun x => k))
  (at level 100, m at next level, right associativity) : imp_scope.
Notation "m ;; k" := (bind m (fun _ => k))
  (at level 100, right associativity) : imp_scope.
Open Scope imp_scope.

(** ** Frames

    [preserves R m]: whatever its outcome, running [m] relates the state before
    to the state after by [R].  The instances let the frame of a composed
    computation be found from the frames of its parts. *)

Section Frames.
Context `{NatsTypes}.

Class preserves {A} (R : relation runtime) (m : M A) : Prop :=
  preserves_run : forall r, R r (snd (m r)).

Context (R : relation runtime) `{!PreOrder R}.

#[export] Instance preserves_ret {A} (a : A) : preserves R (ret a).
Proof. intros r. reflexivity. Qed.
#[export] Instance preserves_panic {A} v : preserves R (panic (A := A) v).
Proof. intros r. reflexivity. Qed.
#[export] Instance preserves_block {A} : preserves R (block (A := A)).
Proof. intros r. reflexivity. Qed.
#[export] Instance preserves_gets {A} (f : runtime -> A) : preserves R (gets f).
Proof. intros r. reflexivity. Qed.
#[export] Instance preserves_lift {A} (x : result A) : preserves R (lift x).
Proof. intros r. reflexivity. Qed.

#[export] Instance preserves_bind {A B} (m : M A) (k : A -> M B) :
  preserves R m -> (forall a, preserves R (k a)) -> preserves R (bind m k).
Proof.
  intros Hm Hk r. unfold bind. specialize (Hm r).
  destruct (m r) as [[a|v|] r']; simpl in *; [|done|done]. etrans; [done|apply Hk].
Qed.

#[export] Instance preserves_recovering {A} (m : M A) h :
  preserves R m -> (forall v, preserves R (h v)) -> preserves R (recovering m h).
Proof.
  intros Hm Hh r. unfold recovering. specialize (Hm r).
  destruct (m r) as [[a|v|] r']; simpl in *; [done| |done]. etrans; [done|apply Hh].
Qed.

#[export] Instance preserves_deferring {A} cleanup (m : M A) :
  preserves R m -> preserves R cleanup -> preserves R (deferring cleanup m).
Proof.
  intros Hm Hc r. unfold deferring. specialize (Hm r).
  destruct (m r) as [[a|v|] r']; simpl in *; [| |done];
    specialize (Hc r'); destruct (cleanup r') as [[[]|v'|] r'']; simpl in *; by etrans.
Qed.

#[export] Instance preserves_run_prog {E : Type -> Type} {A} (h : forall X, E X -> M X)
    (p : prog E A) :
  (forall X (e : E X), preserves R (h X e)) -> preserves R (run_prog h p).
Proof. intros Hh. induction p as [a|v| |X e k IH]; simpl; apply _. Qed.

End Frames.
#[export] Hint Mode preserves + + ! ! : typeclass_instances.

(** ** Frame relations *)

Section Relations.
Context `{NatsTypes}.

(** A field keeps its value. *)
Definition unchanged {X} (f : runtime -> X) (r r' : runtime) : Prop := f r' = f r.

(** The event trace grows by events that satisfy [P]. *)
Definition events_grow (P : event -> Prop) (r r' : runtime) : Prop :=
  exists evs, rt_events r' = rt_events r ++ evs /\ Forall P evs.

(** Only the listed counters change. *)
Definition counts (cs : list counter) (r r' : runtime) : Prop :=
  only_counts cs (rt_metrics r) (rt_metrics r').

#[export] Instance unchanged_preorder {X} (f : runtime -> X) : PreOrder (unchanged f).
Proof. split; [done|]. unfold unchanged. intros ???; congruence. Qed.

#[export] Instance events_grow_preorder P : PreOrder (events_grow P).
Proof.
  split; [intros r; exists []; by rewrite app_nil_r|].
  intros r1 r2 r3 (e1 & H1 & P1) (e2 & H2 & P2). exists (e1 ++ e2).
  rewrite H2, H1, app_assoc. split; [done|by apply Forall_app].
Qed.

#[export] Instance counts_preorder cs : PreOrder (counts cs).
Proof.
  split; [intros r; apply only_counts_refl|]. intros r1 r2 r3. apply only_counts_trans.
Qed.

Lemma emit_grows (P : event -> Prop) e : P e -> preserves (events_grow P) (emit e).
Proof. intros He r. exists [e]. by split; [|constructor]. Qed.

Lemma ask_grows {A} (P : event -> Prop) e (f : list event -> A) :
  P e -> preserves (events_grow P) (ask e f).
Proof. intros He r. exists [e]. by split; [|constructor]. Qed.

Lemma add_counts cs c d : c ∈ cs -> preserves (counts cs) (add_metric c d).
Proof. intros Hc r. by apply only_counts_Add; [|apply only_counts_refl]. Qed.

Lemma on_registry_unchanged {A X} (f : runtime -> X) (g : registry -> result A * registry) :
  (forall x r, f (set_registry x r) = f r) -> preserves (unchanged f) (on_registry g).
Proof. intros Hf r. unfold on_registry, unchanged. destruct (g _). apply Hf. Qed.

Lemma modify_grows (P : event -> Prop) f :
  (forall r, rt_events (f r) = rt_events r) -> preserves (events_grow P) (modify f).
Proof. intros Hf r. exists []. simpl. by rewrite Hf, app_nil_r. Qed.

Lemma modify_counts cs f :
  (forall r, rt_metrics (f r) = rt_metrics r) -> preserves (counts cs) (modify f).
Proof. intros Hf r. unfold counts; simpl. rewrite Hf. apply only_counts_refl. Qed.

Lemma ask_counts {A} cs e (f : list event -> A) : preserves (counts cs) (ask e f).
Proof. intros r. apply only_counts_refl. Qed.

Lemma on_registry_grows {A} (P : event -> Prop) (g : registry -> result A * registry) :
  preserves (events_grow P) (on_registry g).
Proof.
  intros r. unfold on_registry. destruct (g _). exists []. by rewrite app_nil_r.
Qed.

Lemma on_registry_counts {A} cs (g : registry -> result A * registry) :
  preserves (counts cs) (on_registry g).
Proof. intros r. unfold on_registry. destruct (g _). apply only_counts_refl. Qed.

End Relations.

(** [frame] proves [preserves] goals by following the code; the primitive steps
    are settled by computation, or by the lemmas above. *)
Ltac frame_leaf :=
  lazymatch goal with
  | |- preserves (unchanged _) (on_registry _) =>
      apply on_registry_unchanged; intros ? []; reflexivity
  | |- preserves (events_grow _) (emit _) => apply emit_grows
  | |- preserves (events_grow _) (ask _ _) => apply ask_grows
  | |- preserves (events_grow _) (on_registry _) => apply on_registry_grows
  | |- preserves (counts _) (add_metric _ _) => apply add_counts
  | |- preserves (counts _) (on_registry _) => apply on_registry_counts
  | |- preserves (counts _) (ask _ _) => apply ask_counts
  | |- preserves (counts _) ?m =>
      unfold log, emit; apply modify_counts; intros []; reflexivity
  | |- preserves (events_grow _) ?m =>
      unfold add_metric, log; apply modify_grows; intros []; reflexivity
  | |- preserves _ _ => solve [intros ?; reflexivity]
  end.

Ltac frame_step :=
  lazymatch goal with
  | |- PreOrder _ => apply _
  | |- preserves _ (bind _ _) => apply preserves_bind
  | |- preserves _ (recovering _ _) => apply preserves_recovering
  | |- preserves _ (deferring _ _) => apply preserves_deferring
  | |- preserves _ (run_prog _ _) => apply preserves_run_prog
  | |- forall _, preserves _ _ => intros ?
  | |- forall _ _, preserves _ _ => intros ? ?
  | |- preserves _ (match ?x with _ => _ end) => destruct x
  | |- preserves _ (ret _) => apply preserves_ret
  | |- preserves _ (panic _) => apply preserves_panic
  | |- preserves _ block => apply preserves_block
  | |- preserves _ (gets _) => apply preserves_gets
  | |- preserves _ (lift _) => apply preserves_lift
  | |- preserves _ _ => first [assumption | solve [auto with frames] | frame_leaf]
  end.

Create HintDb frames.
Ltac frame := repeat frame_step.
