(* ===== verification/Request.v ===== *)
(** * Requests (request.go) and the two contexts (context_awareness.go,
      context_thinking.go)

    [requestSingle] and [requestMany] with their error classification, counters
    and cleanup; the concrete context objects as handlers of the interface
    signatures. *)

From S2P Require Import Prelude Values Substrate Model Lifecycle Metrics Registry Runtime.

Definition natsStatusHdr : string := "Status".

(** Allocation limits of the Go runtime on 64-bit platforms: [make] panics past
    them. *)
Definition maxAlloc : Z := 2 ^ 48.
Definition makechan_fits (n : Z) : bool := (n * 8 <=? maxAlloc - 96)%Z.
Definition makeslice_fits (n : Z) : bool := (n * 24 <=? maxAlloc)%Z.

Section Request.
Context `{NatsEnv}.

(** ** The code *)

Definition effective_timeout (defaultTimeout : Duration) (opts : list RequestOption) :
    Duration :=
  let cfg := apply_options (C := requestOptions) opts (mkRequestOptions 0) in
  if (ro_timeout cfg <=? 0)%Z then defaultTimeout else ro_timeout cfg.

Definition requestSingle (defaultTimeout : Duration) (subject : string) (payload : bytes)
    (opts : list RequestOption) : M (option bytes * error) :=
  add_metric RequestCalls 1 ;;
  let effective := effective_timeout defaultTimeout opts in
  answer <- ask (CRequest subject payload effective)
              (fun h => env_Request h subject payload effective) ;;
  let '(reply, (ctxErr, ctxErr')) := answer in
  match reply with
  | inl data =>
      log LDebug "request" [("subject", AString subject);
        ("bytes", AInt (Z.of_nat (String.length data))); ("outcome", AString "ok")] ;;
      ret (Some data, None)
  | inr err =>
      let failed category := log LWarn "request failed"
        [("subject", AString subject); ("category", AString category); ("cause", AError err)] in
      if errors_Is err NatsErrNoResponders then
        add_metric RequestNoResponders 1 ;;
        failed "no_responders" ;;
        ret (None, Some (ErrNoResponders subject))
      else if error_Is ctxErr ContextCanceled || errors_Is err ContextCanceled then
        failed "canceled" ;;
        ret (None, Some err)
      else if errors_Is err ContextDeadlineExceeded then
        if error_Is ctxErr' ContextDeadlineExceeded then
          failed "caller_deadline" ;;
          ret (None, Some err)
        else
          add_metric RequestTimeouts 1 ;;
          failed "timeout" ;;
          ret (None, Some (ErrRequestTimeout subject effective))
      else
        failed "substrate" ;;
        ret (None, Some err)
  end.

(** The receive loop: the choices [select] makes, one per iteration.  [None]
    when the choices run out with the loop still waiting. *)
Definition is_status (m : NatsMsg) : bool :=
  match nm_Header m with
  | None => false
  | Some h => negb (String.eqb (header_Get h natsStatusHdr) "")
  end.

Inductive loop_end := EndClosed | EndCap | EndWindow | EndCanceled (e : goerror).

Fixpoint receive_loop (maxReplies : Z) (choices : list select_event) (collected : list bytes) :
    option (list bytes * loop_end) :=
  match choices with
  | [] => None
  | SelClosed :: _ => Some (collected, EndClosed)
  | SelDeadline :: _ => Some (collected, EndWindow)
  | SelCtxDone e :: _ => Some (collected, EndCanceled e)
  | SelMsg m :: rest =>
      if is_status m then receive_loop maxReplies rest collected
      else
        let collected := collected ++ [nm_Data m] in
        if (0 <? maxReplies)%Z && (maxReplies <=? Z.of_nat (length collected))%Z
        then Some (collected, EndCap)
        else receive_loop maxReplies rest collected
  end.

Definition requestMany (defaultWindow : Duration) (subject : string) (payload : bytes)
    (opts : list RequestManyOption) : M (option (list bytes) * error) :=
  add_metric RequestManyCalls 1 ;;
  let cfg := apply_options (C := requestManyOptions) opts (mkRequestManyOptions 0 0) in
  let effective := if (rmo_window cfg <=? 0)%Z then defaultWindow else rmo_window cfg in
  let maxReplies := rmo_max cfg in
  let bufSize := if (maxReplies <? 64)%Z then 64%Z else maxReplies in
  inbox <- ask CNewRespInbox env_NewRespInbox ;;
  (if makechan_fits bufSize then ret tt
   else panic (AString "makechan: size out of range")) ;;
  suberr <- ask (CChanSubscribe inbox) (fun h => env_ChanSubscribe h inbox) ;;
  let failed category err := log LWarn "request_many failed"
    [("subject", AString subject); ("category", AString category); ("cause", AError err)] in
  match suberr with
  | Some err => failed "subscribe" err ;; ret (None, Some err)
  | None =>
    deferring
      (uerr <- ask (CInboxUnsubscribe inbox) env_InboxUnsubscribe ;;
       match uerr with
       | Some e => log LWarn "request_many unsubscribe failed"
                     [("subject", AString subject); ("err", AError e)]
       | None => ret tt
       end)
      (puberr <- ask (CPublishMsg subject inbox payload) (fun h => env_PublishMsg h subject) ;;
       match puberr with
       | Some err =>
           if errors_Is err NatsErrNoResponders then
             add_metric RequestNoResponders 1 ;;
             failed "no_responders" err ;;
             ret (None, Some (ErrNoResponders subject))
           else
             failed "publish" err ;;
             ret (None, Some err)
       | None =>
           (if makeslice_fits bufSize then ret tt
            else panic (AString "makeslice: cap out of range")) ;;
           choices <- gets (fun r => env_select (rt_events r)) ;;
           match receive_loop maxReplies choices [] with
           | None => block
           | Some (collected, how) =>
               let finished outcome := log LDebug "request_many"
                 [("subject", AString subject); ("replies", AInt (Z.of_nat (length collected)));
                  ("outcome", AString outcome)] in
               match how with
               | EndClosed => finished "channel_closed" ;; ret (Some collected, None)
               | EndCap => finished "cap" ;; ret (Some collected, None)
               | EndWindow => finished "window" ;; ret (Some collected, None)
               | EndCanceled e => failed "canceled" e ;; ret (Some collected, Some e)
               end
           end
       end)
  end.

(** ** Context methods *)

Definition awarenessCtx_State (name : string) (entity : Entity) :
    M (option StateRef * error) := on_registry (ref name entity).

Definition awarenessCtx_Request (subject : string) (payload : bytes)
    (opts : list RequestOption) : M (option bytes * error) :=
  a <- gets rt_awareness ;;
  requestSingle (ac_defaultRequestTimeout a) subject payload opts.

Definition thinkingCtx_State (name : string) (entity : Entity) :
    M (option StateRef * error) := on_registry (ref name entity).

Definition thinkingCtx_Publish (subject : string) (payload : bytes) : M error :=
  ask (CPublish subject payload) (fun h => env_Publish h subject payload).

Definition thinkingCtx_InFlight : M Z := gets (fun r => rt_metrics r InflightThinking).

Definition thinkingCtx_Conn : M unit := ret tt.

Definition thinkingCtx_Request (subject : string) (payload : bytes)
    (opts : list RequestOption) : M (option bytes * error) :=
  t <- gets rt_thinking ;;
  requestSingle (tc_defaultRequestTimeout t) subject payload opts.

Definition thinkingCtx_RequestMany (subject : string) (payload : bytes)
    (opts : list RequestManyOption) : M (option (list bytes) * error) :=
  t <- gets rt_thinking ;;
  requestMany (tc_defaultRequestManyWindow t) subject payload opts.

(** The two context objects as implementations of their interfaces. *)
Definition awareness_handler (X : Type) (e : both AwarenessContext StateRef_methods X) : M X :=
  match e with
  | InR s => StateRef_handler s
  | InL a =>
    match a in AwarenessContext X return M X with
    | AC_State name entity => awarenessCtx_State name entity
    | AC_Request subject payload opts => awarenessCtx_Request subject payload opts
    end
  end.

Definition thinking_handler (X : Type) (e : both ThinkingContext StateRef_methods X) : M X :=
  match e with
  | InR s => StateRef_handler s
  | InL t =>
    match t in ThinkingContext X return M X with
    | TC_State name entity => thinkingCtx_State name entity
    | TC_Publish subject payload => thinkingCtx_Publish subject payload
    | TC_InFlight => thinkingCtx_InFlight
    | TC_Conn => thinkingCtx_Conn
    | TC_Request subject payload opts => thinkingCtx_Request subject payload opts
    | TC_RequestMany subject payload opts => thinkingCtx_RequestMany subject payload opts
    end
  end.

End Request.

(** ** Specification and properties *)

Section RequestProperties.
Context `{NatsEnv}.

(** What a request means: the caller's result and the failure counter it moves,
    from the substrate's answer.  The cases exclude each other. *)
Inductive request_outcome (subject : string) (effective : Duration) :
    (bytes + goerror) * (error * error) -> option bytes * error -> list counter -> Prop :=
| out_ok data ctx :
    request_outcome subject effective (inl data, ctx) (Some data, None) []
| out_no_responders err ctx :
    errors_Is err NatsErrNoResponders = true ->
    request_outcome subject effective (inr err, ctx)
      (None, Some (ErrNoResponders subject)) [RequestNoResponders]
| out_canceled err ctx :
    errors_Is err NatsErrNoResponders = false ->
    error_Is (fst ctx) ContextCanceled = true \/ errors_Is err ContextCanceled = true ->
    request_outcome subject effective (inr err, ctx) (None, Some err) []
| out_caller_deadline err ctx :
    errors_Is err NatsErrNoResponders = false ->
    error_Is (fst ctx) ContextCanceled = false -> errors_Is err ContextCanceled = false ->
    errors_Is err ContextDeadlineExceeded = true ->
    error_Is (snd ctx) ContextDeadlineExceeded = true ->
    request_outcome subject effective (inr err, ctx) (None, Some err) []
| out_timeout err ctx :
    errors_Is err NatsErrNoResponders = false ->
    error_Is (fst ctx) ContextCanceled = false -> errors_Is err ContextCanceled = false ->
    errors_Is err ContextDeadlineExceeded = true ->
    error_Is (snd ctx) ContextDeadlineExceeded = false ->
    request_outcome subject effective (inr err, ctx)
      (None, Some (ErrRequestTimeout subject effective)) [RequestTimeouts]
| out_substrate err ctx :
    errors_Is err NatsErrNoResponders = false ->
    error_Is (fst ctx) ContextCanceled = false -> errors_Is err ContextCanceled = false ->
    errors_Is err ContextDeadlineExceeded = false ->
    request_outcome subject effective (inr err, ctx) (None, Some err) [].

Definition count_all (cs : list counter) (m : metrics) : metrics :=
  foldl (fun m c => Add c 1 m) m cs.


(** The effective timeout is the last positive per-call timeout, and the
    default when there is none: non-positive ones leave no trace. *)
Lemma effective_timeout_last dt ds :
  effective_timeout dt (WithRequestTimeout <$> ds) =
  default dt (last (filter (fun d => 0 < d)%Z ds)).
Proof.
  unfold effective_timeout. rewrite apply_request_timeouts.
  destruct (last _) as [d|] eqn:Hl; simpl; [|done].
  apply last_Some_elem_of, list_elem_of_filter in Hl as [Hpos _].
  destruct (Z.leb_spec d 0); [lia|done].
Qed.

(** *** The receive loop *)

Definition replies_of (ms : list NatsMsg) : list bytes :=
  nm_Data <$> filter (fun m => is_status m = false) ms.

Lemma replies_of_cons m ms :
  replies_of (m :: ms) = if is_status m then replies_of ms else nm_Data m :: replies_of ms.
Proof.
  unfold replies_of. rewrite filter_cons. by destruct (is_status m).
Qed.

(** How the loop ends on a choice that is not a message. *)
Definition terminal (s : select_event) : option loop_end :=
  match s with
  | SelMsg _ => None
  | SelClosed => Some EndClosed
  | SelDeadline => Some EndWindow
  | SelCtxDone e => Some (EndCanceled e)
  end.

Definition capped (maxReplies : Z) (n : nat) : bool :=
  (0 <? maxReplies)%Z && (maxReplies <=? Z.of_nat n)%Z.

Lemma receive_loop_app maxReplies ms t fin rest collected :
  terminal t = Some fin -> capped maxReplies (length collected) = false ->
  let all := collected ++ replies_of ms in
  receive_loop maxReplies (map SelMsg ms ++ t :: rest) collected =
  Some (if capped maxReplies (length all) then (take (Z.to_nat maxReplies) all, EndCap)
        else (all, fin)).
Proof.
  intros Ht. revert collected. induction ms as [|m ms IH]; intros collected Hc; simpl.
  { rewrite app_nil_r, Hc. by destruct t; simplify_eq/=. }
  rewrite replies_of_cons. destruct (is_status m) eqn:Hs; [by apply IH|].
  assert (collected ++ nm_Data m :: replies_of ms =
    (collected ++ [nm_Data m]) ++ replies_of ms) as -> by (by rewrite <- app_assoc).
  assert (length (collected ++ [nm_Data m]) = S (length collected)) as Hlen
    by (rewrite length_app; simpl; lia).
  revert Hlen. generalize (collected ++ [nm_Data m]). intros c' Hlen.
  fold (capped maxReplies (length c')).
  destruct (capped maxReplies (length c')) eqn:Hcap; [|by apply IH].
  unfold capped in *. apply andb_true_iff in Hcap as [Hpos Hle].
  rewrite Hpos in *; simpl in *. apply Z.leb_le in Hle. apply Z.leb_gt in Hc.
  rewrite length_app. destruct (Z.leb_spec maxReplies
    (Z.of_nat (length c' + length (replies_of ms)))); [|lia].
  rewrite take_app_length'; [done|]. lia.
Qed.

(** The loop returns at the first terminal choice (window over, channel closed,
    context done), or before when a positive cap is reached. *)
Lemma receive_loop_ends maxReplies ms t fin rest :
  terminal t = Some fin ->
  receive_loop maxReplies (map SelMsg ms ++ t :: rest) [] =
  Some (if capped maxReplies (length (replies_of ms))
        then (take (Z.to_nat maxReplies) (replies_of ms), EndCap)
        else (replies_of ms, fin)).
Proof.
  intros Ht. apply receive_loop_app; [done|].
  unfold capped; simpl. destruct (Z.ltb_spec 0 maxReplies); [|done].
  apply Z.leb_gt; lia.
Qed.

(** *** RequestMany *)

Lemma bind_Done {A B} (m : M A) (k : A -> M B) r a r' :
  m r = (Done a, r') -> bind m k r = k a r'.
Proof. unfold bind. by intros ->. Qed.

(** Once the reply inbox is subscribed, every way [requestMany] stops has
    unsubscribed it, as its last event. *)
Lemma requestMany_cleans_up dw subject payload opts r out r' :
  requestMany dw subject payload opts r = (out, r') -> out <> Blocked ->
  let inbox := env_NewRespInbox (rt_events r) in
  let h := rt_events r ++ [CNewRespInbox] in
  rt_events r' = h \/
  rt_events r' = h ++ [CChanSubscribe inbox] /\ is_Some (env_ChanSubscribe h inbox) \/
  rt_events r' = h ++ [CChanSubscribe inbox; CPublishMsg subject inbox payload;
    CInboxUnsubscribe inbox] /\ env_ChanSubscribe h inbox = None.
Proof.
  intros Hrun Hout inbox h. revert Hrun Hout.
  unfold requestMany, ask, add_metric, log, modify, ret, panic, gets.
  unfold bind at 1; simpl. unfold bind at 1; simpl. fold inbox h. unfold bind at 1.
  destruct (makechan_fits _); [|intros [= <- <-]; by left]. simpl.
  unfold bind at 1; simpl. destruct (env_ChanSubscribe h inbox) as [e|].
  { unfold bind; simpl. intros [= <- <-] _. right; left. by split. }
  unfold deferring. unfold bind at 1; simpl. intros Hrun Hout. right; right. split; [|done].
  revert Hrun Hout. unfold ask, bind; simpl.
  assert (forall (x : list event),
    ((h ++ [CChanSubscribe inbox]) ++ [CPublishMsg subject inbox payload]) ++
      [CInboxUnsubscribe inbox] =
    h ++ [CChanSubscribe inbox; CPublishMsg subject inbox payload; CInboxUnsubscribe inbox])
    as Happ by (intros _; by rewrite <- !app_assoc).
  specialize (Happ []).
  destruct (env_PublishMsg _ _) as [e|]; simpl.
  { destruct (errors_Is e NatsErrNoResponders); simpl;
      destruct (env_InboxUnsubscribe _); simpl; by intros [= <- <-]. }
  destruct (makeslice_fits _); simpl;
    [|destruct (env_InboxUnsubscribe _); simpl; by intros [= <- <-]].
  destruct (receive_loop _ _ _) as [[collected how]|]; simpl; [|by intros [= <- <-]].
  destruct how; simpl; destruct (env_InboxUnsubscribe _); simpl; by intros [= <- <-].
Qed.

(** What [requestMany] answers, given the options' limit and what the calls and the
    loop's [select] answered. *)
Definition many_result (subject : string) (maxReplies : Z) (suberr puberr : error)
    (replies : list bytes) (fin : loop_end) : option (list bytes) * error :=
  match suberr, puberr with
  | Some err, _ => (None, Some err)
  | None, Some err =>
      (None, Some (if errors_Is err NatsErrNoResponders then ErrNoResponders subject else err))
  | None, None =>
      if capped maxReplies (length replies)
      then (Some (take (Z.to_nat maxReplies) replies), None)
      else (Some replies, match fin with EndCanceled err => Some err | _ => None end)
  end.

Definition many_refused (suberr puberr : error) : bool :=
  match suberr, puberr with
  | None, Some err => errors_Is err NatsErrNoResponders
  | _, _ => false
  end.

(** The capacity of the channel and of the slice of replies. *)
Definition many_bufSize (opts : list RequestManyOption) : Z :=
  Z.max 64 (rmo_max (apply_options (C := requestManyOptions) opts (mkRequestManyOptions 0 0))).

(** C30: [requestMany], whole. Whichever way it stops, a panic included, an inbox it
    subscribed is unsubscribed as its last event, and nothing but one publish to the
    subject was sent between. If the buffers can be allocated and the loop's
    [select] picks the messages [ms] and then something terminal, it returns: the
    error of the subscribe or of the publish, no responders under the subject's own
    error; otherwise the payloads of the non-status messages in order, cut at a
    positive limit without an error, and with the context's error besides exactly
    when the context ended the loop. The call counts once, and once more in the
    no-responders counter exactly when the publish was refused that way. *)
Theorem requestMany_spec dw subject payload opts r :
  let inbox := env_NewRespInbox (rt_events r) in
  let h := rt_events r ++ [CNewRespInbox] in
  let h1 := h ++ [CChanSubscribe inbox] in
  let h2 := h1 ++ [CPublishMsg subject inbox payload] in
  let suberr := env_ChanSubscribe h inbox in
  let puberr := env_PublishMsg h1 subject in
  (forall out r', requestMany dw subject payload opts r = (out, r') -> out <> Blocked ->
    rt_events r' = h \/
    rt_events r' = h1 /\ is_Some suberr \/
    rt_events r' = h2 ++ [CInboxUnsubscribe inbox] /\ suberr = None) /\
  (forall ms t fin rest,
    makechan_fits (many_bufSize opts) = true -> makeslice_fits (many_bufSize opts) = true ->
    env_select h2 = map SelMsg ms ++ t :: rest -> terminal t = Some fin ->
    exists r', requestMany dw subject payload opts r =
      (Done (many_result subject (rmo_max (apply_options (C := requestManyOptions) opts
         (mkRequestManyOptions 0 0))) suberr puberr (replies_of ms) fin), r') /\
    rt_metrics r' =
      (if many_refused suberr puberr then Add RequestNoResponders 1 else id)
        (Add RequestManyCalls 1 (rt_metrics r))).
Proof.
  intros inbox h h1 h2 suberr puberr. split.
  { intros out r' Hrun Hout. unfold h2, h1. rewrite <- !app_assoc.
    by eapply requestMany_cleans_up. }
  unfold many_bufSize. set (cfg := apply_options (C := requestManyOptions) opts _).
  intros ms t fin rest Hchan Hslice Hsel Ht.
  assert ((if (rmo_max cfg <? 64)%Z then 64%Z else rmo_max cfg) = Z.max 64 (rmo_max cfg)) as Hbuf
    by (destruct (Z.ltb_spec (rmo_max cfg) 64); lia).
  unfold requestMany, ask, add_metric, log, modify, ret, panic, gets.
  unfold bind at 1; simpl. unfold bind at 1; simpl. fold inbox h cfg. rewrite Hbuf, Hchan.
  unfold bind at 1; simpl. unfold bind at 1; simpl. fold h1 suberr.
  destruct suberr as [err|]; [eexists; split; reflexivity|].
  unfold deferring. unfold bind at 1; simpl. fold h1 h2 puberr. unfold bind; simpl.
  destruct puberr as [err|]; simpl.
  { destruct (errors_Is err NatsErrNoResponders); simpl; destruct (env_InboxUnsubscribe _);
      eexists; split; reflexivity. }
  rewrite Hslice. simpl. rewrite Hsel, (receive_loop_ends _ ms t fin rest Ht).
  destruct (capped _ _); [|destruct fin]; simpl; destruct (env_InboxUnsubscribe _);
    eexists; split; reflexivity.
Qed.

(** ** Frames of the context methods *)

(** The counters a request may move. *)
Definition request_counters : list counter :=
  [RequestCalls; RequestManyCalls; RequestNoResponders; RequestTimeouts].

(** The events awareness may cause: single requests. *)
Definition single_request (e : event) : Prop :=
  match e with CRequest _ _ _ => True | _ => False end.

(** The events thinking may cause. *)
Definition outbound (e : event) : Prop :=
  match e with
  | CRequest _ _ _ | CPublish _ _ | CNewRespInbox | CChanSubscribe _ | CPublishMsg _ _ _
  | CInboxUnsubscribe _ => True
  | _ => False
  end.

Lemma awareness_frame {X} (f : runtime -> X) (Y : Type) (e : both AwarenessContext StateRef_methods Y) :
  (forall x r, f (set_registry x r) = f r) -> (forall x r, f (set_metrics x r) = f r) ->
  (forall x r, f (set_log x r) = f r) -> (forall x r, f (set_events x r) = f r) ->
  preserves (unchanged f) (awareness_handler Y e).
Proof.
  intros Hreg Hmet Hlog Hev.
  assert (forall A (g : registry -> result A * registry), preserves (unchanged f) (on_registry g))
    by (intros; by apply on_registry_unchanged).
  assert (forall c d, preserves (unchanged f) (add_metric c d)) by (intros ?? ?; apply Hmet).
  assert (forall l m a, preserves (unchanged f) (log l m a)) by (intros ??? ?; apply Hlog).
  assert (forall A ev (g : list event -> A), preserves (unchanged f) (ask ev g))
    by (intros ??? ?; apply Hev).
  destruct e as [[name entity|subject payload opts]|[s|s v|s fn]]; simpl;
    unfold awarenessCtx_State, awarenessCtx_Request, requestSingle, StateRef_handler; auto.
  frame; auto.
Qed.

Lemma awareness_events Y e : preserves (events_grow single_request) (awareness_handler Y e).
Proof.
  destruct e as [[name entity|subject payload opts]|[s|s v|s fn]]; simpl;
    unfold awarenessCtx_State, awarenessCtx_Request, requestSingle, StateRef_handler.
  - apply (on_registry_grows _ _).
  - frame; simpl; done.
  - apply (on_registry_grows _ _).
  - apply (on_registry_grows _ _).
  - apply (on_registry_grows _ _).
Qed.

Lemma awareness_counts Y e : preserves (counts request_counters) (awareness_handler Y e).
Proof.
  destruct e as [[name entity|subject payload opts]|[s|s v|s fn]]; simpl;
    unfold awarenessCtx_State, awarenessCtx_Request, requestSingle, StateRef_handler.
  - apply (on_registry_counts _ _).
  - frame; set_solver.
  - apply (on_registry_counts _ _).
  - apply (on_registry_counts _ _).
  - apply (on_registry_counts _ _).
Qed.


End RequestProperties.

(** ** Witnesses *)

Section Witnesses.
Import Demo.

Definition demo_runtime : runtime :=
  mkRuntime demo_registry newMetrics (newLogger DiscardHandler)
    (mkAwarenessCtx (5 * Second)) (mkThinkingCtx (5 * Second) Second)
    false 0 [] false [] New (mkImpIdentity "echo" "0.1.0") false None false [] [] [].

Definition demo_many_result : result (option (list bytes) * error) * runtime :=
  requestMany Second "cap.x" "?" [] demo_runtime.

Lemma requestMany_spec_witness :
  fst demo_many_result = Done (Some [], None) /\
  rt_events (snd demo_many_result) =
    [CNewRespInbox; CChanSubscribe "_INBOX.1"; CPublishMsg "cap.x" "_INBOX.1" "?";
     CInboxUnsubscribe "_INBOX.1"].
Proof.
  destruct (requestMany_spec Second "cap.x" "?" [] demo_runtime) as [Hclean Hres]. split.
  - destruct (Hres [] SelDeadline EndWindow []) as (r' & Hrun & _); [reflexivity..|].
    unfold demo_many_result. rewrite Hrun. reflexivity.
  - destruct (Hclean (fst demo_many_result) (snd demo_many_result)) as [H|[[_ [? H]]|[H _]]].
    + reflexivity.
    + vm_compute; congruence.
    + vm_compute in H. congruence.
    + vm_compute in H. congruence.
    + exact H.
Defined.

End Witnesses.
