(* ===== verification/Dispatch.v ===== *)
(** * Message dispatch (dispatch.go, note.go, thinking.go, stream.go)

    The per-message pipeline for both channel kinds, the note hook and the
    thinking goroutine.  A panic of a decoder or an extractor is not recovered
    by the source: it ends the computation as [Panicked]. *)

From S2P Require Import Prelude Values Substrate Model Lifecycle Metrics Registry Runtime Request.

Inductive dispatchOutcome :=
| dispatchOK
| dispatchDecodeFail
| dispatchExtractFail
| dispatchAwarenessPanic.

#[export] Instance dispatchOutcome_eq_dec : EqDecision dispatchOutcome.
Proof. solve_decision. Defined.

Definition nil_call : any := AString "nil func call".

Section Dispatch.
Context `{NatsEnv}.

(** [jetstream.Msg]: a message with the identity its acknowledgement names. *)
Record JsMsg := mkJsMsg { jm_id : nat; jm_msg : Message }.

Context (spec : ImpSpec).

(** ** The code *)

Definition hook_handler (X : Type) (e : HookEffects X) : M X :=
  match e in HookEffects X return M X with
  | HookAddComment topic body anchor =>
      ask (CAddComment topic body anchor) (fun h => env_AddComment h topic body anchor)
  | HookUser tag entity payload => emit (ENote tag entity payload)
  end.

(** note.go *)
Definition invokeNote (entity : Entity) (payload : any) : M unit :=
  match is_OnNote spec with
  | None => ret tt
  | Some hook =>
      recovering (run_prog hook_handler (hook entity payload))
        (fun p =>
          add_metric AwarenessPanics 1 ;;
          log LError "note hook panic" [("entity", AString entity); ("recovered", p)])
  end.

(** thinking.go: the synchronous half — gauge, wait group, [go] statement. *)
Definition launchThinking (reason : any) (entity : Entity) : M unit :=
  add_metric InflightThinking 1 ;;
  modify (fun r => set_wg (rt_thinkingWG r + 1) r) ;;
  emit (ELaunch reason entity) ;;
  modify (fun r => set_goroutines (rt_goroutines r ++ [mkGoroutine reason entity]) r).

(** thinking.go: the goroutine.  The deferred calls run last-in first-out:
    recover, gauge, wait group. *)
Definition thinking_goroutine (g : goroutine) : M unit :=
  deferring (modify (fun r => set_wg (rt_thinkingWG r - 1) r))
   (deferring (add_metric InflightThinking (-1))
     (recovering
       (err <- match is_Thinking spec with
               | None => panic nil_call
               | Some f => run_prog thinking_handler (f (g_reason g) (g_entity g))
               end ;;
        match err with
        | Some e =>
            add_metric ThinkingErrors 1 ;;
            log LWarn "thinking error" [("entity", AString (g_entity g)); ("err", AError e)]
        | None => ret tt
        end)
       (fun p =>
         add_metric ThinkingPanics 1 ;;
         log LError "thinking panic"
           [("entity", AString (g_entity g)); ("recovered", p)]))).

Definition safeAwareness (decoded : any) (entity : Entity) : M (Verdict * bool) :=
  recovering
    (v <- match is_Awareness spec with
          | None => panic nil_call
          | Some f => run_prog awareness_handler (f decoded entity)
          end ;;
     ret (v, false))
    (fun p =>
      log LError "awareness panic" [("entity", AString entity); ("recovered", p)] ;;
      ret (Verdict_zero, true)).

(** The [switch verdict.kind] both dispatchers end with. *)
Definition act_on_verdict (entity : Entity) (verdict : Verdict) : M unit :=
  if decide (vd_kind verdict = verdictIgnore) then
    add_metric IgnoredVerdicts 1
  else if decide (vd_kind verdict = verdictNote) then
    add_metric NotesDelivered 1 ;;
    invokeNote entity (vd_payload verdict)
  else if decide (vd_kind verdict = verdictThink) then
    add_metric ThinksDispatched 1 ;;
    launchThinking (vd_reason verdict) (vd_entity verdict)
  else ret tt.

Definition call_Decode (ch : channelState) (msg : Message) : result (any * error) :=
  match cs_Decode (ch_spec ch) with None => Panicked nil_call | Some f => f msg end.
Definition call_ExtractEntity (ch : channelState) (decoded : any) : result (Entity * error) :=
  match cs_ExtractEntity (ch_spec ch) with None => Panicked nil_call | Some f => f decoded end.

Definition attr_err (e : error) : string * any :=
  ("err", match e with Some e => AError e | None => ANil end).

(** dispatch.go *)
Definition dispatch (ch : channelState) (msg : Message) : M dispatchOutcome :=
  de <- lift (call_Decode ch msg) ;;
  match de with
  | (_, Some err) =>
      add_metric DecodeFailures 1 ;;
      log LWarn "decode failure" [("channel", AString (cs_Name (ch_spec ch)));
        ("subject", AString (m_Subject msg)); ("err", AError err)] ;;
      ret dispatchDecodeFail
  | (decoded, None) =>
      ee <- lift (call_ExtractEntity ch decoded) ;;
      let '(entity, err) := ee in
      if bool_decide (err <> None) || bool_decide (entity = "") then
        add_metric ExtractionFailures 1 ;;
        log LWarn "extraction failure"
          [("channel", AString (cs_Name (ch_spec ch))); attr_err err] ;;
        ret dispatchExtractFail
      else
        va <- safeAwareness decoded entity ;;
        let '(verdict, panicked) := va in
        if (panicked : bool) then
          add_metric AwarenessPanics 1 ;;
          ret dispatchAwarenessPanic
        else
          act_on_verdict entity verdict ;;
          ret dispatchOK
  end.

(** stream.go *)
Definition nakAndLog (msg : JsMsg) (ev channelName : string) (cause : error) : M unit :=
  e <- ask (CNak (jm_id msg)) (fun h => env_Nak h (jm_id msg)) ;;
  match e with
  | Some err => log LWarn "nak failed" [("channel", AString channelName);
                  ("event", AString ev); ("err", AError err)]
  | None => ret tt
  end ;;
  log LWarn ev [("channel", AString channelName); attr_err cause].

Definition dispatchStream (ch : channelState) (msg : JsMsg) : M unit :=
  de <- lift (call_Decode ch (jm_msg msg)) ;;
  match de with
  | (_, Some err) =>
      add_metric DecodeFailures 1 ;;
      add_metric NakTotal 1 ;;
      nakAndLog msg "decode failure" (cs_Name (ch_spec ch)) (Some err)
  | (decoded, None) =>
      ee <- lift (call_ExtractEntity ch decoded) ;;
      let '(entity, err) := ee in
      if bool_decide (err <> None) || bool_decide (entity = "") then
        add_metric ExtractionFailures 1 ;;
        add_metric NakTotal 1 ;;
        nakAndLog msg "extraction failure" (cs_Name (ch_spec ch)) err
      else
        va <- safeAwareness decoded entity ;;
        let '(verdict, panicked) := va in
        if (panicked : bool) then
          add_metric AwarenessPanics 1 ;;
          add_metric NakTotal 1 ;;
          ask (CNak (jm_id msg)) (fun h => env_Nak h (jm_id msg)) ;;
          ret tt
        else
          ackerr <- ask (CAck (jm_id msg)) (fun h => env_Ack h (jm_id msg)) ;;
          match ackerr with
          | Some err => log LWarn "ack failed"
                          [("channel", AString (cs_Name (ch_spec ch))); ("err", AError err)]
          | None => ret tt
          end ;;
          act_on_verdict entity verdict
  end.

End Dispatch.

(** ** Specification *)

(** Properties of a program's results, and programs that do not panic. *)
Fixpoint leaves {E : Type -> Type} {A} (P : A -> Prop) (p : prog E A) : Prop :=
  match p with
  | Ret a => P a
  | Panic _ | Diverge => True
  | Vis e k => forall x, leaves P (k x)
  end.

Fixpoint no_panic {E : Type -> Type} {A} (p : prog E A) : Prop :=
  match p with
  | Ret _ | Diverge => True
  | Panic _ => False
  | Vis e k => forall x, no_panic (k x)
  end.

(** What the shared front of the two pipelines decides about a message. *)
Inductive disposition :=
| RejectDecode (err : goerror)
| RejectExtract (err : error)
| RejectPanic
| Accept (entity : Entity) (verdict : Verdict).

(** Events of the note hook, and of acting on a verdict. *)
Definition note_event (e : event) : Prop :=
  match e with CAddComment _ _ _ | ENote _ _ _ => True | _ => False end.
Definition verdict_event (e : event) : Prop :=
  match e with CAddComment _ _ _ | ENote _ _ _ | ELaunch _ _ => True | _ => False end.

(** The counters that classify a message. *)
Definition message_counters : list counter :=
  [DecodeFailures; ExtractionFailures; AwarenessPanics; IgnoredVerdicts; NotesDelivered;
   ThinksDispatched].
Definition handled (m : metrics) : Z := uint64 (foldr (fun c z => m c + z)%Z 0%Z message_counters).

Section DispatchProperties.
Context `{NatsEnv} (spec : ImpSpec).

Definition front (ch : channelState) (msg : Message) : M disposition :=
  de <- lift (call_Decode ch msg) ;;
  match de with
  | (_, Some err) => ret (RejectDecode err)
  | (decoded, None) =>
      ee <- lift (call_ExtractEntity ch decoded) ;;
      let '(entity, err) := ee in
      if bool_decide (err <> None) || bool_decide (entity = "") then ret (RejectExtract err)
      else
        va <- safeAwareness spec decoded entity ;;
        let '(verdict, panicked) := va in
        ret (if (panicked : bool) then RejectPanic else Accept entity verdict)
  end.

Definition settle (ch : channelState) (msg : Message) (d : disposition) : M dispatchOutcome :=
  match d with
  | RejectDecode err =>
      add_metric DecodeFailures 1 ;;
      log LWarn "decode failure" [("channel", AString (cs_Name (ch_spec ch)));
        ("subject", AString (m_Subject msg)); ("err", AError err)] ;;
      ret dispatchDecodeFail
  | RejectExtract err =>
      add_metric ExtractionFailures 1 ;;
      log LWarn "extraction failure"
        [("channel", AString (cs_Name (ch_spec ch))); attr_err err] ;;
      ret dispatchExtractFail
  | RejectPanic => add_metric AwarenessPanics 1 ;; ret dispatchAwarenessPanic
  | Accept entity verdict => act_on_verdict spec entity verdict ;; ret dispatchOK
  end.

Definition settle_stream (ch : channelState) (msg : JsMsg) (d : disposition) : M unit :=
  match d with
  | RejectDecode err =>
      add_metric DecodeFailures 1 ;; add_metric NakTotal 1 ;;
      nakAndLog msg "decode failure" (cs_Name (ch_spec ch)) (Some err)
  | RejectExtract err =>
      add_metric ExtractionFailures 1 ;; add_metric NakTotal 1 ;;
      nakAndLog msg "extraction failure" (cs_Name (ch_spec ch)) err
  | RejectPanic =>
      add_metric AwarenessPanics 1 ;; add_metric NakTotal 1 ;;
      ask (CNak (jm_id msg)) (fun h => env_Nak h (jm_id msg)) ;; ret tt
  | Accept entity verdict =>
      ackerr <- ask (CAck (jm_id msg)) (fun h => env_Ack h (jm_id msg)) ;;
      match ackerr with
      | Some err => log LWarn "ack failed"
                      [("channel", AString (cs_Name (ch_spec ch))); ("err", AError err)]
      | None => ret tt
      end ;;
      act_on_verdict spec entity verdict
  end.

(** ** Lemmas *)

Lemma bind_assoc_run {A B C} (m : M A) (f : A -> M B) (g : B -> M C) r :
  bind (bind m f) g r = bind m (fun a => bind (f a) g) r.
Proof. unfold bind. by destruct (m r) as [[]]. Qed.

Lemma bind_ext_run {A B} (m : M A) (f g : A -> M B) r :
  (forall a r', f a r' = g a r') -> bind m f r = bind m g r.
Proof. intros Hfg. unfold bind. by destruct (m r) as [[]]. Qed.

Lemma dispatch_front ch msg r :
  dispatch spec ch msg r = bind (front ch msg) (settle ch msg) r.
Proof.
  unfold dispatch, front. rewrite bind_assoc_run. apply bind_ext_run.
  intros [decoded [err|]] r1; [done|]. rewrite bind_assoc_run. apply bind_ext_run.
  intros [entity err] r2. destruct (_ || _); [done|].
  rewrite bind_assoc_run. apply bind_ext_run. by intros [v []] r3.
Qed.

Lemma dispatchStream_front ch msg r :
  dispatchStream spec ch msg r = bind (front ch (jm_msg msg)) (settle_stream ch msg) r.
Proof.
  unfold dispatchStream, front. rewrite bind_assoc_run. apply bind_ext_run.
  intros [decoded [err|]] r1; [done|]. rewrite bind_assoc_run. apply bind_ext_run.
  intros [entity err] r2. destruct (_ || _); [done|].
  rewrite bind_assoc_run. apply bind_ext_run. by intros [v []] r3.
Qed.

(** Any frame of the awareness handler that ignores the log is a frame of the
    front. *)
Lemma front_frame (R : relation runtime) `{!PreOrder R} ch msg :
  (forall X (e : both AwarenessContext StateRef_methods X),
    preserves R (awareness_handler X e)) ->
  (forall l m a, preserves R (log l m a)) ->
  preserves R (front ch msg).
Proof.
  intros Haw Hlog. unfold front, safeAwareness. frame; auto.
Qed.

Lemma front_events ch msg : preserves (events_grow single_request) (front ch msg).
Proof.
  apply front_frame; [apply _|intros; apply awareness_events|].
  intros; unfold log; by apply modify_grows.
Qed.

Lemma front_counts ch msg : preserves (counts request_counters) (front ch msg).
Proof.
  apply front_frame; [apply _|intros; apply awareness_counts|].
  intros; unfold log; by apply modify_counts.
Qed.

Lemma front_goroutines ch msg : preserves (unchanged rt_goroutines) (front ch msg).
Proof. apply front_frame; [apply _|intros; by apply awareness_frame|by intros ????]. Qed.

Lemma front_wg ch msg : preserves (unchanged rt_thinkingWG) (front ch msg).
Proof. apply front_frame; [apply _|intros; by apply awareness_frame|by intros ????]. Qed.

Lemma hook_events X (e : HookEffects X) : preserves (events_grow note_event) (hook_handler X e).
Proof. destruct e; simpl; frame; done. Qed.

Lemma invokeNote_events entity payload :
  preserves (events_grow note_event) (invokeNote spec entity payload).
Proof. unfold invokeNote. frame. apply hook_events. Qed.

Lemma invokeNote_frame {X} (f : runtime -> X) entity payload :
  (forall x r, f (set_metrics x r) = f r) -> (forall x r, f (set_log x r) = f r) ->
  (forall x r, f (set_events x r) = f r) ->
  preserves (unchanged f) (invokeNote spec entity payload).
Proof.
  intros Hm Hl He. unfold invokeNote.
  assert (forall c d, preserves (unchanged f) (add_metric c d)) by (intros ?? ?; apply Hm).
  assert (forall l m a, preserves (unchanged f) (log l m a)) by (intros ??? ?; apply Hl).
  assert (forall Y (e : HookEffects Y), preserves (unchanged f) (hook_handler Y e))
    by (intros Y [] ?; apply He).
  frame; auto.
Qed.

Lemma invokeNote_counts entity payload :
  preserves (counts [AwarenessPanics]) (invokeNote spec entity payload).
Proof.
  unfold invokeNote. frame; [|set_solver].
  destruct e; simpl; frame; done.
Qed.

Lemma events_grow_weaken (P Q : event -> Prop) r r' :
  (forall e, P e -> Q e) -> events_grow P r r' -> events_grow Q r r'.
Proof. intros HPQ (evs & He & HP). exists evs. split; [done|]. by eapply Forall_impl. Qed.

Lemma act_on_verdict_events entity v :
  preserves (events_grow verdict_event) (act_on_verdict spec entity v).
Proof.
  unfold act_on_verdict, launchThinking. frame; try done.
  intros r. eapply events_grow_weaken, invokeNote_events. by intros [].
Qed.

Lemma act_on_verdict_counts entity v :
  preserves (counts (InflightThinking :: message_counters)) (act_on_verdict spec entity v).
Proof.
  unfold act_on_verdict, launchThinking. frame; try set_solver.
  intros r c Hc. apply invokeNote_counts. set_solver.
Qed.

Lemma run_prog_leaves {E : Type -> Type} {A} (P : A -> Prop) (h : forall X, E X -> M X)
    (p : prog E A) r a r' :
  leaves P p -> run_prog h p r = (Done a, r') -> P a.
Proof.
  revert r. induction p as [b|v| |X e k IH]; simpl; intros r HP Hrun.
  - by injection Hrun as <- _.
  - done.
  - done.
  - unfold bind in Hrun. destruct (h X e r) as [[x|v|] r1]; try done. by eapply IH.
Qed.

Lemma run_prog_no_panic {E : Type -> Type} {A} (h : forall X, E X -> M X) (p : prog E A) r v r' :
  (forall X (e : E X) r v r', h X e r <> (Panicked v, r')) ->
  no_panic p -> run_prog h p r <> (Panicked v, r').
Proof.
  intros Hh. revert r. induction p as [b|w| |X e k IH]; simpl; intros r Hnp; try done.
  unfold bind. destruct (h X e r) as [[x|w|] r1] eqn:He; [by apply IH|by destruct (Hh X e r w r1)|done].
Qed.

End DispatchProperties.

(** ** Properties *)

Section DispatchTheorems.
Context `{NatsEnv} (spec : ImpSpec).

(** The goroutines a verdict launches. *)
Definition launches (v : Verdict) : list goroutine :=
  if decide (vd_kind v = verdictThink) then [mkGoroutine (vd_reason v) (vd_entity v)] else [].

Lemma act_on_verdict_goroutines entity v r :
  rt_goroutines (snd (act_on_verdict spec entity v r)) = rt_goroutines r ++ launches v /\
  rt_thinkingWG (snd (act_on_verdict spec entity v r)) =
    (rt_thinkingWG r + Z.of_nat (length (launches v)))%Z.
Proof.
  unfold act_on_verdict, launches.
  destruct (decide (vd_kind v = verdictIgnore)) as [Hi|Hi].
  { rewrite Hi. rewrite decide_False by done. rewrite app_nil_r. simpl. split; [done|lia]. }
  destruct (decide (vd_kind v = verdictNote)) as [Hn|Hn].
  { rewrite Hn. rewrite decide_False by done. rewrite app_nil_r. simpl.
    pose proof (invokeNote_frame spec rt_goroutines entity (vd_payload v)
      ltac:(done) ltac:(done) ltac:(done)) as Hg.
    pose proof (invokeNote_frame spec rt_thinkingWG entity (vd_payload v)
      ltac:(done) ltac:(done) ltac:(done)) as Hw.
    unfold bind, add_metric, modify. rewrite Hg, Hw. simpl. split; [done|lia]. }
  case_decide; simpl; [done|]. rewrite app_nil_r. split; [done|lia].
Qed.

Lemma settle_stream_rejects ch msg d r r' :
  (forall e v, d <> Accept e v) -> settle_stream spec ch msg d r = (Done tt, r') ->
  rt_events r' = rt_events r ++ [CNak (jm_id msg)] /\ rt_goroutines r' = rt_goroutines r /\
  rt_metrics r' NakTotal = uint64 (rt_metrics r NakTotal + 1).
Proof.
  intros Hd. destruct d as [err|err| |e v]; [..|by destruct (Hd e v)];
    unfold settle_stream, nakAndLog, bind, ask, add_metric, log, modify, ret; simpl.
  - destruct (env_Nak _ _); by intros [= <-].
  - destruct (env_Nak _ _); by intros [= <-].
  - by intros [= <-].
Qed.

(** C10: acknowledgement discipline of stream channels.  A delivered message
    whose handling completes is acknowledged or negatively acknowledged, once:
    after awareness (whose own events are requests only) and before any effect of
    the verdict.  It is a NAK exactly when the pipeline rejected the message —
    decode error, extraction error, empty entity, awareness panic — and then
    nothing follows, no goroutine is launched and [NakTotal] counts one; otherwise
    it is an ACK, whatever the verdict and even if the ack itself fails, and
    [NakTotal] stays. *)
Theorem dispatchStream_acks_once ch msg r r' :
  dispatchStream spec ch msg r = (Done tt, r') ->
  exists aw a post,
    rt_events r' = rt_events r ++ aw ++ a :: post /\
    Forall single_request aw /\ Forall verdict_event post /\
    match fst (front spec ch (jm_msg msg) r) with
    | Done (Accept entity verdict) =>
        a = CAck (jm_id msg) /\ rt_metrics r' NakTotal = rt_metrics r NakTotal /\
        rt_goroutines r' = rt_goroutines r ++ launches verdict
    | Done _ =>
        a = CNak (jm_id msg) /\ post = [] /\ rt_goroutines r' = rt_goroutines r /\
        rt_metrics r' NakTotal = uint64 (rt_metrics r NakTotal + 1)
    | _ => False
    end.
Proof.
  rewrite dispatchStream_front. unfold bind at 1.
  pose proof (front_events spec ch (jm_msg msg) r) as (aw & Haw & Hreq).
  pose proof (front_counts spec ch (jm_msg msg) r NakTotal ltac:(set_solver)) as Hnak.
  pose proof (front_goroutines spec ch (jm_msg msg) r) as Hgo. unfold unchanged in Hgo.
  destruct (front spec ch (jm_msg msg) r) as [[d|v|] r1]; simpl in *; [|done|done].
  intros Hset. destruct d as [err|err| |entity verdict].
  1-3: apply settle_stream_rejects in Hset as (He & Hg & Hn); [|done];
    exists aw, (CNak (jm_id msg)), []; rewrite He, Haw, Hg, Hgo, Hn, Hnak, <- app_assoc;
    by split_and!.
  unfold settle_stream in Hset. unfold bind at 1, ask in Hset. simpl in Hset.
  set (r2 := set_events (rt_events r1 ++ [CAck (jm_id msg)]) r1) in Hset.
  assert (exists lg, act_on_verdict spec entity verdict (set_log lg r2) = (Done tt, r'))
    as [lg Hact].
  { destruct (env_Ack _ _); unfold bind, log, modify, ret in Hset; simpl in Hset;
      [by eexists|]. exists (rt_log r1). exact Hset. }
  pose proof (act_on_verdict_events spec entity verdict (set_log lg r2)) as (post & Hp & Hpost).
  pose proof (act_on_verdict_counts spec entity verdict (set_log lg r2) NakTotal
    ltac:(set_solver)) as Hn2.
  pose proof (act_on_verdict_goroutines entity verdict (set_log lg r2)) as [Hg2 _].
  rewrite Hact in Hp, Hn2, Hg2. simpl in *.
  exists aw, (CAck (jm_id msg)), post. rewrite Hp, Haw, <- !app_assoc.
  split_and!; [done..| |]; [congruence|]. by rewrite Hg2, Hgo.
Qed.


(** *** Accounting *)

(** The awareness function only returns verdicts made by [Ignore], [Note] and
    [Think], and the note hook does not panic. *)
Definition awareness_constructed : Prop :=
  forall f decoded entity, is_Awareness spec = Some f ->
    leaves (fun v => vd_kind v ∈ [verdictIgnore; verdictNote; verdictThink]) (f decoded entity).
Definition hook_calm : Prop :=
  forall hook entity payload, is_OnNote spec = Some hook -> no_panic (hook entity payload).

Definition total (cs : list counter) (m : metrics) : Z :=
  foldr (fun c z => m c + z)%Z 0%Z cs.

Lemma total_Add_out cs c d m : c ∉ cs -> total cs (Add c d m) = total cs m.
Proof.
  induction cs as [|c' cs IH]; simpl; intros Hc; [done|].
  rewrite Add_ne, IH by set_solver. done.
Qed.

Lemma total_Add_in cs c d m :
  NoDup cs -> c ∈ cs -> c <> InflightThinking ->
  uint64 (total cs (Add c d m)) = uint64 (total cs m + d).
Proof.
  intros Hnd Hc Hne. induction Hnd as [|c' cs Hni Hnd IH]; [set_solver|].
  cbn [total foldr]. apply elem_of_cons in Hc as [<-|Hc].
  - rewrite Add_eq. fold (total cs (Add c d m)). rewrite total_Add_out by done.
    assert (wrap c (m c + d) = uint64 (m c + d)) as -> by (by destruct c).
    rewrite uint64_add_l. f_equal. unfold total. lia.
  - rewrite Add_ne by (intros ->; done). fold (total cs (Add c d m)) (total cs m).
    unfold uint64 in *. rewrite <- Zplus_mod_idemp_r, IH, Zplus_mod_idemp_r by done.
    f_equal. lia.
Qed.

Lemma message_counters_NoDup : NoDup message_counters.
Proof. apply (bool_decide_unpack _). vm_compute. exact I. Qed.

Lemma message_not_request c : c ∈ message_counters -> c ∉ request_counters.
Proof.
  revert c. apply Forall_forall. apply (bool_decide_unpack _). vm_compute. exact I.
Qed.

Lemma handled_Add_in c d m :
  c ∈ message_counters -> handled (Add c d m) = uint64 (handled m + d).
Proof.
  intros Hc. unfold handled. rewrite uint64_add_l.
  apply total_Add_in; [apply message_counters_NoDup|done|].
  intros ->. revert Hc. apply (bool_decide_unpack (_ ∉ _)). vm_compute. exact I.
Qed.

Lemma handled_Add_out c d m : c ∉ message_counters -> handled (Add c d m) = handled m.
Proof. intros Hc. unfold handled. f_equal. by apply (total_Add_out message_counters). Qed.

Lemma total_counts cs m m' :
  (forall c, c ∈ cs -> m' c = m c) -> total cs m' = total cs m.
Proof.
  induction cs as [|c cs IH]; simpl; intros Hc; [done|].
  rewrite Hc, IH by set_solver. done.
Qed.

Lemma handled_only_counts cs m m' :
  (forall c, c ∈ message_counters -> c ∉ cs) -> only_counts cs m m' -> handled m' = handled m.
Proof. intros Hd Hoc. unfold handled. f_equal. apply total_counts. auto. Qed.

Lemma invokeNote_calm entity payload :
  hook_calm -> preserves (counts []) (invokeNote spec entity payload).
Proof.
  intros Hcalm r. unfold invokeNote. destruct (is_OnNote spec) as [hook|] eqn:Hh;
    [|apply only_counts_refl].
  assert (preserves (counts []) (run_prog hook_handler (hook entity payload))) as Hp.
  { apply preserves_run_prog; [apply _|]. intros X []; simpl; frame. }
  specialize (Hp r). unfold recovering.
  destruct (run_prog _ _ r) as [[a|v|] r'] eqn:Hrun; [done| |done].
  exfalso. revert Hrun. apply run_prog_no_panic; [|by apply Hcalm].
  intros X [] r1 v1 r2; by simpl.
Qed.

Lemma front_verdict ch msg r entity v r' :
  awareness_constructed -> front spec ch msg r = (Done (Accept entity v), r') ->
  vd_kind v ∈ [verdictIgnore; verdictNote; verdictThink].
Proof.
  intros Haw. unfold front, bind, lift, ret, safeAwareness, recovering, panic.
  destruct (call_Decode ch msg) as [[decoded [err|]]|v1|]; try done.
  destruct (call_ExtractEntity ch decoded) as [[e err]|v1|]; try done.
  destruct (_ || _); [done|]. unfold bind, ret, panic, log, modify.
  destruct (is_Awareness spec) as [f|] eqn:Hf; [|done].
  destruct (run_prog awareness_handler (f decoded e) r) as [[v'|v'|] r1] eqn:Hrun; try done.
  intros [= <- <- <-]. by eapply run_prog_leaves in Hrun; [|apply Haw].
Qed.

Lemma act_on_verdict_handled entity v r r' :
  hook_calm -> vd_kind v ∈ [verdictIgnore; verdictNote; verdictThink] ->
  act_on_verdict spec entity v r = (Done tt, r') ->
  handled (rt_metrics r') = uint64 (handled (rt_metrics r) + 1).
Proof.
  intros Hcalm Hk. unfold act_on_verdict.
  assert (forall c m, c ∈ message_counters -> handled (Add c 1 m) = uint64 (handled m + 1))
    as Hin by (intros; by apply handled_Add_in).
  assert (InflightThinking ∉ message_counters) as Hout
    by (apply (bool_decide_unpack _); vm_compute; exact I).
  case_decide as Hi; [|case_decide as Hn; [|case_decide as Ht; [|set_solver]]].
  - intros [= <-]. apply Hin. set_solver.
  - unfold bind, add_metric, modify. intros Hrun.
    pose proof (invokeNote_calm entity (vd_payload v) Hcalm
      (set_metrics (Add NotesDelivered 1 (rt_metrics r)) r)) as Hc.
    rewrite Hrun in Hc. unfold counts in Hc. cbn [snd] in Hc.
    rewrite (handled_only_counts [] _ _ ltac:(set_solver) Hc).
    apply Hin. set_solver.
  - intros [= <-]. simpl. rewrite handled_Add_out by done. apply Hin. set_solver.
Qed.

(** A message handed to the harness on either kind of channel. *)
Inductive delivery :=
| OnSubject (ch : channelState) (msg : Message)
| OnStream (ch : channelState) (msg : JsMsg).

Definition deliver (d : delivery) : M unit :=
  match d with
  | OnSubject ch msg => dispatch spec ch msg ;; ret tt
  | OnStream ch msg => dispatchStream spec ch msg
  end.

Fixpoint deliver_all (ds : list delivery) : M unit :=
  match ds with
  | [] => ret tt
  | d :: rest => deliver d ;; deliver_all rest
  end.

Lemma settle_handled ch msg d r o r' :
  hook_calm ->
  (forall e v, d = Accept e v -> vd_kind v ∈ [verdictIgnore; verdictNote; verdictThink]) ->
  settle spec ch msg d r = (Done o, r') ->
  handled (rt_metrics r') = uint64 (handled (rt_metrics r) + 1).
Proof.
  intros Hcalm Hk. destruct d as [err|err| |e v]; simpl.
  4:{ unfold bind, ret. destruct (act_on_verdict spec e v r) as [[[]|w|] r1] eqn:Hact; try done.
      intros [= <- <-]. by eapply act_on_verdict_handled; [|by eapply Hk|]. }
  all: intros [= <- <-]; apply handled_Add_in; set_solver.
Qed.

Lemma settle_stream_handled ch msg d r r' :
  hook_calm ->
  (forall e v, d = Accept e v -> vd_kind v ∈ [verdictIgnore; verdictNote; verdictThink]) ->
  settle_stream spec ch msg d r = (Done tt, r') ->
  handled (rt_metrics r') = uint64 (handled (rt_metrics r) + 1).
Proof.
  assert (forall m, handled (Add NakTotal 1 m) = handled m) as Hnak.
  { intros m. apply handled_Add_out. apply (bool_decide_unpack (_ ∉ _)). vm_compute. exact I. }
  intros Hcalm Hk. destruct d as [err|err| |e v];
    unfold settle_stream, nakAndLog, bind, ask, add_metric, log, modify, ret; simpl.
  1-2: destruct (env_Nak _ _); intros [= <-]; simpl; rewrite Hnak;
    apply handled_Add_in; set_solver.
  - intros [= <-]; simpl; rewrite Hnak; apply handled_Add_in; set_solver.
  - specialize (Hk e v eq_refl).
    destruct (env_Ack _ _); intros Hact;
      by apply (act_on_verdict_handled e v _ _ Hcalm Hk) in Hact.
Qed.

Lemma deliver_handled d r r' :
  awareness_constructed -> hook_calm -> deliver d r = (Done tt, r') ->
  handled (rt_metrics r') = uint64 (handled (rt_metrics r) + 1).
Proof.
  intros Haw Hcalm.
  assert (forall ch msg r1 r2 d1, front spec ch msg r1 = (Done d1, r2) ->
    handled (rt_metrics r2) = handled (rt_metrics r1)) as Hfront.
  { intros ch msg r1 r2 d1 Hf. pose proof (front_counts spec ch msg r1) as Hc.
    rewrite Hf in Hc. eapply handled_only_counts; [|exact Hc].
    apply message_not_request. }
  destruct d as [ch msg|ch msg]; unfold deliver.
  - unfold bind at 1, ret. rewrite dispatch_front. unfold bind.
    destruct (front spec ch msg r) as [[d1|v|] r1] eqn:Hf; try done.
    destruct (settle spec ch msg d1 r1) as [[o|v|] r2] eqn:Hs; try done.
    intros [= <-]. rewrite <- (Hfront _ _ _ _ _ Hf).
    eapply settle_handled; [done| |exact Hs]. intros e v ->. by eapply front_verdict.
  - rewrite dispatchStream_front. unfold bind.
    destruct (front spec ch (jm_msg msg) r) as [[d1|v|] r1] eqn:Hf; try done.
    intros Hs. rewrite <- (Hfront _ _ _ _ _ Hf).
    eapply settle_stream_handled; [done| |exact Hs]. intros e v ->. by eapply front_verdict.
Qed.

(** Every message is accounted for, once.  When awareness returns verdicts
    made by the exported constructors and the note hook does not panic, handling
    any sequence of messages, on channels of either kind, raises the sum of the
    six classifying counters by exactly the number of messages (in [uint64]). *)
Lemma deliver_all_accounted ds r r' :
  awareness_constructed -> hook_calm -> deliver_all ds r = (Done tt, r') ->
  handled (rt_metrics r') = uint64 (handled (rt_metrics r) + Z.of_nat (length ds)).
Proof.
  intros Haw Hcalm. revert r. induction ds as [|d ds IH]; simpl; intros r.
  { intros [= <-]. rewrite Z.add_0_r. symmetry. apply uint64_id, uint64_range. }
  unfold bind. destruct (deliver d r) as [[[]|v|] r1] eqn:Hd; try done.
  intros Hds%IH. rewrite Hds, (deliver_handled d r r1) by done.
  rewrite uint64_add_l. f_equal. lia.
Qed.

(** A zero [Verdict] falls through.  If awareness returns the zero value of
    [Verdict] — which user code can write without any constructor — the message
    is acknowledged and then dropped: no counter at all moves, no hook runs, no
    goroutine starts. *)
Lemma zero_verdict_unaccounted ch msg r entity r1 :
  front spec ch (jm_msg msg) r = (Done (Accept entity Verdict_zero), r1) ->
  exists r', dispatchStream spec ch msg r = (Done tt, r') /\
    rt_metrics r' = rt_metrics r1 /\ rt_goroutines r' = rt_goroutines r1 /\
    rt_events r' = rt_events r1 ++ [CAck (jm_id msg)].
Proof.
  intros Hf. rewrite dispatchStream_front. unfold bind at 1. rewrite Hf.
  unfold settle_stream, bind, ask; simpl. destruct (env_Ack _ _); by eexists.
Qed.

(** *** The thinking goroutine *)

Lemma thinking_handler_counts X (e : both ThinkingContext StateRef_methods X) :
  preserves (counts request_counters) (thinking_handler X e).
Proof.
  destruct e as [[name entity|subject payload| | |subject payload opts|subject payload opts]
    |[s|s v|s fn]]; simpl;
    unfold thinkingCtx_State, thinkingCtx_Publish, thinkingCtx_InFlight, thinkingCtx_Conn,
      thinkingCtx_Request, thinkingCtx_RequestMany, requestSingle, requestMany,
      StateRef_handler; frame; try set_solver.
Qed.

Lemma thinking_handler_wg X (e : both ThinkingContext StateRef_methods X) :
  preserves (unchanged rt_thinkingWG) (thinking_handler X e).
Proof.
  destruct e as [[name entity|subject payload| | |subject payload opts|subject payload opts]
    |[s|s v|s fn]]; simpl;
    unfold thinkingCtx_State, thinkingCtx_Publish, thinkingCtx_InFlight, thinkingCtx_Conn,
      thinkingCtx_Request, thinkingCtx_RequestMany, requestSingle, requestMany,
      StateRef_handler; frame.
Qed.

End DispatchTheorems.

Section ThinkingTheorems.
Context `{NatsEnv} (spec : ImpSpec).

Definition thinking_counters : list counter :=
  [InflightThinking; ThinkingErrors; ThinkingPanics] ++ request_counters.

(** The three ways a thinking function that stops can end. *)
Definition thinking_end (r r' : runtime) : Prop :=
  let m := rt_metrics r in let m' := rt_metrics r' in
  (m' ThinkingErrors = m ThinkingErrors /\ m' ThinkingPanics = m ThinkingPanics) \/
  (m' ThinkingErrors = uint64 (m ThinkingErrors + 1) /\ m' ThinkingPanics = m ThinkingPanics) \/
  (m' ThinkingErrors = m ThinkingErrors /\ m' ThinkingPanics = uint64 (m ThinkingPanics + 1)).

Lemma thinking_goroutine_settled g r out r' :
  thinking_goroutine spec g r = (out, r') -> out <> Blocked ->
  out = Done tt /\ rt_thinkingWG r' = (rt_thinkingWG r - 1)%Z /\
  rt_metrics r' InflightThinking = int64 (rt_metrics r InflightThinking - 1) /\
  thinking_end r r' /\ counts thinking_counters r r'.
Proof.
  unfold thinking_goroutine, recovering.
  unfold deferring. unfold bind at 1.
  set (body := match is_Thinking spec with
    | None => panic nil_call
    | Some f => run_prog thinking_handler (f (g_reason g) (g_entity g))
    end).
  assert (preserves (counts request_counters) body) as Hc.
  { unfold body. frame. apply thinking_handler_counts. }
  assert (preserves (unchanged rt_thinkingWG) body) as Hw.
  { unfold body. frame. apply thinking_handler_wg. }
  specialize (Hc r). specialize (Hw r). unfold unchanged in Hw.
  assert (forall c, c ∉ request_counters -> rt_metrics (snd (body r)) c = rt_metrics r c)
    as Hsame by (intros c ?; by apply Hc).
  pose proof (Hsame InflightThinking ltac:(set_solver)) as Hg.
  pose proof (Hsame ThinkingErrors ltac:(set_solver)) as He.
  pose proof (Hsame ThinkingPanics ltac:(set_solver)) as Hp.
  destruct (body r) as [[[err|]|v|] r1]; simpl in *; intros [= <- <-] Hout; try done;
    (split; [done|]); (split; [simpl; congruence|]);
    unfold thinking_end, counts; simpl;
    (split_and!;
      [by rewrite Add_eq; repeat rewrite Add_ne by done; rewrite Hg
      |repeat (rewrite Add_eq || rewrite Add_ne by done); simpl; rewrite ?He, ?Hp; auto
      |intros c Hni; repeat rewrite Add_ne by set_solver; apply Hsame; set_solver]).
Qed.

(** A thinking goroutine that stops — by returning, returning an error or
    panicking — never crashes the program, and has given back exactly what its
    launch took: one unit of the wait group and one of the in-flight gauge, in
    that order last; an error counts once in [ThinkingErrors], a panic once in
    [ThinkingPanics], never both, and only request counters move besides. *)
Lemma thinking_goroutine_settles g r out r' :
  thinking_goroutine spec g r = (out, r') -> out <> Blocked ->
  out = Done tt /\ rt_thinkingWG r' = (rt_thinkingWG r - 1)%Z /\
  rt_metrics r' InflightThinking = int64 (rt_metrics r InflightThinking - 1) /\
  thinking_end r r' /\ counts thinking_counters r r'.
Proof. apply thinking_goroutine_settled. Qed.

End ThinkingTheorems.

(** ** Witnesses *)

Section Witnesses.
Import Demo.

(** Decode the payload as a string, one entity, always think; thinking answers by
    publishing. *)
Definition demo_channel_spec : ChannelSpec :=
  mkChannelSpec "inbound" (Some (ASubjectSource (mkSubjectSource "messages.in")))
    (Some (fun m => Done (AString (m_Data m), None)))
    (Some (fun _ => Done ("singleton", None))).
Definition demo_channel : channelState :=
  mkChannelState demo_channel_spec "messages.in" true "" "" false false.

Definition spec_with (aw : any -> Verdict) : ImpSpec :=
  mkImpSpec "echo" "0.1.0" [demo_channel_spec]
    (Some (fun decoded _ => Ret (aw decoded)))
    (Some (fun reason _ => Vis (InL (TC_Publish "actions.out" "hi")) Ret)) [] None.
Definition demo_spec : ImpSpec := spec_with (fun d => Think d "singleton").

Definition demo_msg : Message := mkMessage "messages.in" "" ∅ "hello".
Definition demo_jsmsg : JsMsg := mkJsMsg 7 demo_msg.

Lemma dispatchStream_acks_once_witness :
  let res := dispatchStream demo_spec demo_channel demo_jsmsg demo_runtime in
  fst res = Done tt /\
  rt_events (snd res) = [CAck 7; ELaunch (AString "hello") "singleton"].
Proof.
  intros res. split; [reflexivity|].
  destruct (dispatchStream_acks_once demo_spec demo_channel demo_jsmsg demo_runtime (snd res))
    as (aw & a & post & Hev & _ & _ & Hcase); [reflexivity|].
  destruct Hcase as [-> _]. vm_compute. reflexivity.
Defined.


Definition thinking_runtime : runtime :=
  snd (launchThinking (AString "hello") "singleton" demo_runtime).

Example thinking_goroutine_settles_demo :
  let r' := snd (thinking_goroutine demo_spec (mkGoroutine (AString "hello") "singleton")
                   thinking_runtime) in
  rt_thinkingWG thinking_runtime = 1%Z /\ rt_thinkingWG r' = 0%Z /\
  rt_metrics r' InflightThinking = 0%Z.
Proof.
  intros r'. set (g := mkGoroutine (AString "hello") "singleton") in r'.
  destruct (thinking_goroutine_settles demo_spec g thinking_runtime (Done tt) r')
    as (_ & H1 & H2 & _);
    [reflexivity|discriminate|].
  split; [reflexivity|]. split; [rewrite H1; reflexivity|rewrite H2; reflexivity].
Defined.

End Witnesses.
