(* ===== verification/GoTime.v ===== *)
(** * Go's [time] package, as far as the source uses it

    [Duration.String].  Digits are written with stdpp's [pretty]. *)

From S2P Require Import Prelude Values.
From stdpp Require Import pretty.

(** Go's [fmtFrac]: the [prec] low decimal digits of [v] as a fraction, without
    trailing zeros and without the point when all are zero; the quotient. *)
Fixpoint fmtFrac_go (prec : nat) (v : Z) (printing : bool) (suffix : string) : string * Z :=
  match prec with
  | 0 => (if printing then "." +:+ suffix else suffix, v)
  | S prec =>
      let digit := (v mod 10)%Z in
      let printing := printing || negb (digit =? 0)%Z in
      fmtFrac_go prec (v / 10) printing
        (if printing then pretty digit +:+ suffix else suffix)
  end.
Definition fmtFrac (prec : nat) (v : Z) (suffix : string) : string * Z :=
  fmtFrac_go prec v false suffix.

(** The unit sign of microseconds in UTF-8. *)
Definition micro_sign : string :=
  String (Ascii.ascii_of_nat 194) (String (Ascii.ascii_of_nat 181) "s").

(** [Duration.String] of the absolute value [u]. *)
Definition Duration_String_abs (u : Z) : string :=
  if (u =? 0)%Z then "0s"
  else if (u <? 1000)%Z then pretty u +:+ "ns"
  else if (u <? 1000000)%Z then
    let '(frac, v) := fmtFrac 3 u micro_sign in pretty v +:+ frac
  else if (u <? Second)%Z then
    let '(frac, v) := fmtFrac 6 u "ms" in pretty v +:+ frac
  else
    let '(frac, secs) := fmtFrac 9 u "s" in
    let s := pretty (secs mod 60)%Z +:+ frac in
    let mins := (secs / 60)%Z in
    if (mins =? 0)%Z then s
    else
      let s := pretty (mins mod 60)%Z +:+ "m" +:+ s in
      let hours := (mins / 60)%Z in
      if (hours =? 0)%Z then s else pretty hours +:+ "h" +:+ s.

Definition Duration_String (d : Duration) : string :=
  if (d <? 0)%Z then "-" +:+ Duration_String_abs (- d) else Duration_String_abs d.

Example Duration_String_1 : Duration_String (90 * Second) = "1m30s".
Proof. vm_compute. reflexivity. Qed.
Example Duration_String_2 : Duration_String 1500000 = "1.5ms".
Proof. vm_compute. reflexivity. Qed.
Example Duration_String_3 : Duration_String (- (3600 * Second + 250 * Millisecond)) = "-1h0m0.25s".
Proof. vm_compute. reflexivity. Qed.
