(* ===== verification/Errors.v ===== *)
(** * Errors: the texts of the typed errors (errors.go, state.go)

    The [Error] methods, with [strconv.Quote] — which [%q] is on strings — written
    out: UTF-8 decoding, the escapes, and [unquote], which reads a quoted text back.
    Which runes beyond ASCII are printable is a table of the Unicode standard, and the
    texts of the error variables of other packages are theirs: both are arguments. *)

From S2P Require Import Prelude Values GoTime.
From stdpp Require Import pretty.
From Stdlib Require Import Ascii.

Local Open Scope Z_scope.

(** ** UTF-8 *)

Definition continuation (b : Z) : bool := (128 <=? b) && (b <=? 191).

(** The second byte of three, and of four: no overlong form, no surrogate, nothing
    beyond U+10FFFF. *)
Definition second_of_three (a b : Z) : bool :=
  (224 <=? a) && (a <=? 239) && continuation b &&
  negb ((a =? 224) && (b <? 160)) && negb ((a =? 237) && (159 <? b)).
Definition second_of_four (a b : Z) : bool :=
  (240 <=? a) && (a <=? 244) && continuation b &&
  negb ((a =? 240) && (b <? 144)) && negb ((a =? 244) && (143 <? b)).

(** [utf8.DecodeRuneInString]: the rune and its width; nothing for an invalid
    byte, which is taken alone. *)
Definition DecodeRune (s : string) : option (Z * nat) :=
  match s with
  | EmptyString => None
  | String a s1 =>
      let a := byte_val a in
      if a <? 128 then Some (a, 1%nat)
      else match s1 with
      | EmptyString => None
      | String b s2 =>
          let b := byte_val b in
          if (194 <=? a) && (a <=? 223) && continuation b
          then Some ((a - 192) * 64 + (b - 128), 2%nat)
          else match s2 with
          | EmptyString => None
          | String c s3 =>
              let c := byte_val c in
              if second_of_three a b && continuation c
              then Some ((a - 224) * 4096 + (b - 128) * 64 + (c - 128), 3%nat)
              else match s3 with
              | EmptyString => None
              | String d _ =>
                  let d := byte_val d in
                  if second_of_four a b && continuation c && continuation d
                  then Some ((a - 240) * 262144 + (b - 128) * 4096 + (c - 128) * 64 + (d - 128),
                             4%nat)
                  else None
              end
          end
      end
  end.

Definition EncodeRune (r : Z) : string :=
  if r <? 128 then String (byte_of r) ""
  else if r <? 2048 then
    String (byte_of (192 + r / 64)) (String (byte_of (128 + r mod 64)) "")
  else if r <? 65536 then
    String (byte_of (224 + r / 4096)) (String (byte_of (128 + r / 64 mod 64))
      (String (byte_of (128 + r mod 64)) ""))
  else
    String (byte_of (240 + r / 262144)) (String (byte_of (128 + r / 4096 mod 64))
      (String (byte_of (128 + r / 64 mod 64)) (String (byte_of (128 + r mod 64)) ""))).

(** ** [strconv.Quote] *)

Definition lowerhex (d : Z) : ascii :=
  default "0"%char (String.get (Z.to_nat d) "0123456789abcdef").

(** The [n] low hexadecimal digits. *)
Fixpoint hex (n : nat) (v : Z) : string :=
  match n with
  | O => ""
  | S n => String (lowerhex (v / 16 ^ Z.of_nat n mod 16)) (hex n v)
  end.

Definition backslash : ascii := ascii_of_nat 92.
Definition escape (c : ascii) (rest : string) : string := String backslash (String c rest).

Section Texts.
Context (isPrint : Z -> bool) (sentinel_text : sentinel -> string).

(** [appendEscapedRune] for a rune whose bytes are [raw]. *)
Definition appendEscapedRune (r : Z) (raw : string) : string :=
  if (r =? 34) || (r =? 92) then String backslash raw
  else if (if r <? 128 then (32 <=? r) && (r <=? 126) else isPrint r) then raw
  else if r =? 7 then escape "a" ""
  else if r =? 8 then escape "b" ""
  else if r =? 12 then escape "f" ""
  else if r =? 10 then escape "n" ""
  else if r =? 13 then escape "r" ""
  else if r =? 9 then escape "t" ""
  else if r =? 11 then escape "v" ""
  else if (r <? 32) || (r =? 127) then escape "x" (hex 2 r)
  else if r <? 65536 then escape "u" (hex 4 r)
  else escape "U" (hex 8 r).

(** One turn of [appendQuotedWith]: the text, and how many bytes it stands for. *)
Definition quote_next (s : string) : string * nat :=
  match DecodeRune s with
  | Some (r, w) => (appendEscapedRune r (String.substring 0 w s), w)
  | None =>
      (match s with String a _ => escape "x" (hex 2 (byte_val a)) | EmptyString => "" end, 1%nat)
  end.

(** The loop; [skip] bytes belong to the rune that was written last. *)
Fixpoint quote_from (skip : nat) (s : string) : string :=
  match s with
  | EmptyString => ""
  | String _ s' =>
      match skip with
      | S skip => quote_from skip s'
      | O => let '(txt, w) := quote_next s in txt +:+ quote_from (w - 1) s'
      end
  end.

Definition Quote (s : string) : string :=
  String dquote (quote_from 0 s +:+ String dquote "").

(** ** The [Error] methods *)

Definition ErrSpecInvalid_Error (Field Reason : string) : string :=
  "imps: spec invalid: field " +:+ Quote Field +:+ ": " +:+ Reason.
Definition ErrDuplicateStateShape_Error (Shape : string) : string :=
  "imps: duplicate state shape " +:+ Quote Shape.
Definition ErrConfigInvalid_Error (Field Reason : string) : string :=
  "imps: config invalid: field " +:+ Quote Field +:+ ": " +:+ Reason.
Definition ErrStreamNotFound_Error (Stream : string) : string :=
  "imps: stream " +:+ Quote Stream +:+ " not found".
Definition ErrConsumerIncompatible_Error (Consumer Diff : string) : string :=
  "imps: consumer " +:+ Quote Consumer +:+ " incompatible: " +:+ Diff.
Definition ErrSubscriptionFailed_Error (Subject cause : string) : string :=
  "imps: subscription to " +:+ Quote Subject +:+ " failed: " +:+ cause.
Definition ErrNoResponders_Error (Subject : string) : string :=
  "imps: no responders for subject " +:+ Quote Subject.
Definition ErrRequestTimeout_Error (Subject : string) (Timeout : Duration) : string :=
  "imps: request timeout: subject " +:+ Quote Subject +:+
  " exceeded " +:+ Duration_String Timeout.
Definition ErrUnknownStateShape_Error (Shape : string) : string :=
  "imps: unknown state shape " +:+ Quote Shape.
Definition ErrCapExceeded_Error (Shape : string) (Count : Z) : string :=
  "imps: state shape " +:+ Quote Shape +:+ " cap exceeded (" +:+ pretty Count +:+ ")".

(** [err.Error()]. *)
Fixpoint Error (e : goerror) : string :=
  match e with
  | Sentinel s => sentinel_text s
  | ErrorsNew msg => msg
  | Errorf prefix e => prefix +:+ Error e
  | ErrorsJoin e1 e2 => Error e1 +:+ String (ascii_of_nat 10) (Error e2)
  | ErrSpecInvalid f r => ErrSpecInvalid_Error f r
  | ErrDuplicateStateShape n => ErrDuplicateStateShape_Error n
  | ErrConfigInvalid f r => ErrConfigInvalid_Error f r
  | ErrStreamNotFound n => ErrStreamNotFound_Error n
  | ErrConsumerIncompatible n d => ErrConsumerIncompatible_Error n d
  | ErrSubscriptionFailed subj c => ErrSubscriptionFailed_Error subj (Error c)
  | ErrNoResponders subj => ErrNoResponders_Error subj
  | ErrRequestTimeout subj d => ErrRequestTimeout_Error subj d
  | ErrUnknownStateShape n => ErrUnknownStateShape_Error n
  | ErrCapExceeded n k => ErrCapExceeded_Error n k
  end.
End Texts.

Example Quote_plain : Quote (fun _ => false) "a.b" = String dquote ("a.b" +:+ String dquote "").
Proof. reflexivity. Qed.
(** A newline, an invalid byte and the micro sign. *)
Example Quote_escapes :
  quote_from (fun r => r =? 181) 0
    (String (ascii_of_nat 10) (String (ascii_of_nat 255) micro_sign)) =
  "\n\xff" +:+ micro_sign.
Proof. reflexivity. Qed.
Example Quote_unprintable : quote_from (fun _ => false) 0 micro_sign = "\u00b5s".
Proof. reflexivity. Qed.

(** ** Reading a quoted text *)

(** Where a reader is: between runes, after a backslash, or with [n + 1] digits of an
    escape to come. *)
Inductive qstate :=
| Raw
| Escaped
| Digits (n : nat) (acc : Z) (rune : bool).

Definition hexval (c : ascii) : option Z :=
  let n := byte_val c in
  if (48 <=? n) && (n <=? 57) then Some (n - 48)
  else if (97 <=? n) && (n <=? 102) then Some (n - 87)
  else None.

Definition unescape (c : ascii) : ascii + qstate :=
  match c with
  | "a" => inl (ascii_of_nat 7)
  | "b" => inl (ascii_of_nat 8)
  | "f" => inl (ascii_of_nat 12)
  | "n" => inl (ascii_of_nat 10)
  | "r" => inl (ascii_of_nat 13)
  | "t" => inl (ascii_of_nat 9)
  | "v" => inl (ascii_of_nat 11)
  | "x" => inr (Digits 1 0 false)
  | "u" => inr (Digits 3 0 true)
  | "U" => inr (Digits 7 0 true)
  | c => inl c
  end%char.

Definition prepend (p : string) (o : option (string * string)) : option (string * string) :=
  '(t, r) ← o; Some (p +:+ t, r).

(** The text up to the closing quote, and what follows it. *)
Fixpoint unquote (st : qstate) (s : string) : option (string * string) :=
  match s with
  | EmptyString => None
  | String c s =>
      match st with
      | Raw =>
          if Ascii.eqb c dquote then Some ("", s)
          else if Ascii.eqb c backslash then unquote Escaped s
          else prepend (String c "") (unquote Raw s)
      | Escaped =>
          match unescape c with
          | inl b => prepend (String b "") (unquote Raw s)
          | inr st => unquote st s
          end
      | Digits n acc rune =>
          d ← hexval c;
          let acc := acc * 16 + d in
          match n with
          | S n => unquote (Digits n acc rune) s
          | O => prepend (if rune then EncodeRune acc else String (byte_of acc) "") (unquote Raw s)
          end
      end
  end.

Lemma prepend_app p q o : prepend p (prepend q o) = prepend (p +:+ q) o.
Proof. destruct o as [[t r]|]; [|done]. simpl. by rewrite app_assoc_string. Qed.

Lemma append_String c s t : String c s +:+ t = String c (s +:+ t).
Proof. done. Qed.

(** A piece of text that reads as [raw]. *)
Definition reads (txt raw : string) : Prop :=
  forall out, unquote Raw (txt +:+ out) = prepend raw (unquote Raw out).

(** Bytes that are neither a quote nor a backslash read as themselves. *)
Fixpoint unescaped (s : string) : bool :=
  match s with
  | EmptyString => true
  | String c s => negb (Ascii.eqb c dquote) && negb (Ascii.eqb c backslash) && unescaped s
  end.

Lemma reads_raw s : unescaped s = true -> reads s s.
Proof.
  induction s as [|c s IH]; simpl.
  - intros _ out. change ("" +:+ out) with out. by destruct (unquote Raw out) as [[]|].
  - rewrite !andb_true_iff, !negb_true_iff. intros [[Hd Hb] Hs] out.
    rewrite append_String. simpl. rewrite Hd, Hb, (IH Hs). apply prepend_app.
Qed.

Lemma hexval_lowerhex d : 0 <= d < 16 -> hexval (lowerhex d) = Some d.
Proof.
  intros H. rewrite <- (Z2Nat.id d) by lia.
  assert (Z.to_nat d < 16)%nat as Hn by lia. revert Hn. generalize (Z.to_nat d). clear.
  intros n Hn. do 16 (destruct n as [|n]; [reflexivity|]). lia.
Qed.

(** Digits read as the number they write. *)
Lemma unquote_hex n acc rune v out :
  unquote (Digits n acc rune) (hex (S n) v +:+ out) =
  prepend (let r := acc * 16 ^ Z.of_nat (S n) + v mod 16 ^ Z.of_nat (S n) in
           if rune then EncodeRune r else String (byte_of r) "") (unquote Raw out).
Proof.
  revert acc. induction n as [|n IH]; intros acc; cbn [hex]; rewrite append_String; cbn [unquote];
    rewrite hexval_lowerhex by (apply Z.mod_pos_bound; lia); cbn [mbind option_bind].
  - by rewrite Z.div_1_r.
  - etransitivity; [apply IH|].
    rewrite (Nat2Z.inj_succ (S n)), Z.pow_succ_r, (Z.mul_comm 16) by lia.
    rewrite (Z.rem_mul_r v) by lia.
    cbv zeta. match goal with |- prepend (if _ then EncodeRune ?a else _) _ =
      prepend (if _ then EncodeRune ?b else _) _ => replace a with b by ring end. done.
Qed.

(** Runes whose number fits the digits. *)
Lemma reads_hex e n rune v :
  unescape e = inr (Digits n 0 rune) -> 0 <= v < 16 ^ Z.of_nat (S n) ->
  reads (escape e (hex (S n) v)) (if rune then EncodeRune v else String (byte_of v) "").
Proof.
  intros He Hv out. unfold escape. rewrite !append_String. cbn [unquote].
  change (Ascii.eqb backslash dquote) with false. change (Ascii.eqb backslash backslash) with true.
  cbv iota. rewrite He, unquote_hex, Z.mod_small by done. by rewrite Z.mul_0_l, Z.add_0_l.
Qed.

Lemma reads_escape e b : unescape e = inl b -> reads (escape e "") (String b "").
Proof.
  intros He out. unfold escape. rewrite !append_String. cbn [unquote].
  change (Ascii.eqb backslash dquote) with false. change (Ascii.eqb backslash backslash) with true.
  cbv iota. by rewrite He.
Qed.

(** ** What decoding found is what encoding writes *)

Lemma byte_eqb c z : 0 <= z < 256 -> Ascii.eqb c (byte_of z) = (byte_val c =? z).
Proof.
  intros Hz. destruct (Z.eqb_spec (byte_val c) z) as [<-|Hne].
  - rewrite byte_of_val. apply Ascii.eqb_refl.
  - apply Ascii.eqb_neq. intros ->. apply Hne. unfold byte_val, byte_of.
    rewrite N_ascii_embedding by lia. lia.
Qed.

(** A byte beyond ASCII is no quote and no backslash. *)
Lemma unescaped_high c s : 128 <= byte_val c -> unescaped (String c s) = unescaped s.
Proof.
  intros Hc. simpl. change dquote with (byte_of 34). change backslash with (byte_of 92).
  rewrite !byte_eqb by lia.
  by rewrite (proj2 (Z.eqb_neq _ 34)), (proj2 (Z.eqb_neq _ 92)) by lia.
Qed.

(** [lia] over the tests of the decoder. *)
Ltac byte_tests := unfold second_of_three, second_of_four, continuation in *; lia.

Lemma EncodeRune_2 a b r :
  (194 <=? byte_val a) && (byte_val a <=? 223) && continuation (byte_val b) = true ->
  r = (byte_val a - 192) * 64 + (byte_val b - 128) ->
  128 <= r < 2048 /\ EncodeRune r = String a (String b "").
Proof.
  intros Ht Hr. assert (128 <= r < 2048) as Hb by byte_tests. split; [done|].
  unfold EncodeRune. rewrite (proj2 (Z.ltb_ge r 128)), (proj2 (Z.ltb_lt r 2048)) by lia.
  rewrite (byte_of_eq _ a), (byte_of_eq _ b); [done|..];
    unfold continuation in Ht; Z.to_euclidean_division_equations; lia.
Qed.

Lemma EncodeRune_3 a b c r :
  second_of_three (byte_val a) (byte_val b) && continuation (byte_val c) = true ->
  r = (byte_val a - 224) * 4096 + (byte_val b - 128) * 64 + (byte_val c - 128) ->
  2048 <= r < 65536 /\ EncodeRune r = String a (String b (String c "")).
Proof.
  intros Ht Hr. assert (2048 <= r < 65536) as Hb by byte_tests. split; [done|].
  unfold EncodeRune. rewrite (proj2 (Z.ltb_ge r 128)), (proj2 (Z.ltb_ge r 2048)),
    (proj2 (Z.ltb_lt r 65536)) by lia.
  rewrite (byte_of_eq _ a), (byte_of_eq _ b), (byte_of_eq _ c); [done|..];
    unfold second_of_three, continuation in Ht; Z.to_euclidean_division_equations; lia.
Qed.

Lemma EncodeRune_4 a b c d r :
  second_of_four (byte_val a) (byte_val b) && continuation (byte_val c) &&
    continuation (byte_val d) = true ->
  r = (byte_val a - 240) * 262144 + (byte_val b - 128) * 4096 + (byte_val c - 128) * 64 +
      (byte_val d - 128) ->
  65536 <= r < 1114112 /\ EncodeRune r = String a (String b (String c (String d ""))).
Proof.
  intros Ht Hr. assert (65536 <= r < 1114112) as Hb by byte_tests. split; [done|].
  unfold EncodeRune. rewrite (proj2 (Z.ltb_ge r 128)), (proj2 (Z.ltb_ge r 2048)),
    (proj2 (Z.ltb_ge r 65536)) by lia.
  rewrite (byte_of_eq _ a), (byte_of_eq _ b), (byte_of_eq _ c), (byte_of_eq _ d); [done|..];
    unfold second_of_four, continuation in Ht; Z.to_euclidean_division_equations; lia.
Qed.

(** The rune of some bytes, and that they are bytes beyond ASCII if it is. *)
Lemma DecodeRune_spec s r w :
  DecodeRune s = Some (r, w) ->
  EncodeRune r = String.substring 0 w s /\ (1 <= w <= String.length s)%nat /\
  0 <= r < 1114112 /\ (128 <= r -> unescaped (String.substring 0 w s) = true).
Proof.
  unfold DecodeRune.
  destruct s as [|a s1]; [done|]. pose proof (byte_val_range a).
  destruct (Z.ltb_spec (byte_val a) 128).
  { intros [= <- <-]. unfold EncodeRune. rewrite (proj2 (Z.ltb_lt _ _)) by done.
    rewrite byte_of_val. cbn [String.substring]. rewrite substring_none. split_and!; try (simpl; lia). done. }
  destruct s1 as [|b s2]; [done|].
  destruct (_ && continuation _) eqn:H2.
  { intros [= <- <-]. destruct (EncodeRune_2 a b _ H2 eq_refl) as [Hr He].
    cbn [String.substring]. rewrite substring_none. split_and!; try (simpl; lia); [done|].
    intros _. rewrite !unescaped_high by byte_tests. done. }
  destruct s2 as [|c s3]; [done|].
  destruct (second_of_three _ _ && _) eqn:H3.
  { intros [= <- <-]. destruct (EncodeRune_3 a b c _ H3 eq_refl) as [Hr He].
    cbn [String.substring]. rewrite substring_none. split_and!; try (simpl; lia); [done|].
    intros _. rewrite !unescaped_high by byte_tests. done. }
  destruct s3 as [|d s4]; [done|].
  destruct (second_of_four _ _ && _ && _) eqn:H4; [|done].
  intros [= <- <-]. destruct (EncodeRune_4 a b c d _ H4 eq_refl) as [Hr He].
  cbn [String.substring]. rewrite substring_none. split_and!; try (simpl; lia); [done|].
  intros _. rewrite !unescaped_high by byte_tests. done.
Qed.

Lemma byte_val_of z : 0 <= z < 256 -> byte_val (byte_of z) = z.
Proof. intros Hz. unfold byte_val, byte_of. rewrite N_ascii_embedding by lia. lia. Qed.

Section QuoteFacts.
Context (isPrint : Z -> bool).

Lemma appendEscapedRune_reads r raw :
  EncodeRune r = raw -> 0 <= r < 1114112 -> (128 <= r -> unescaped raw = true) ->
  reads (appendEscapedRune isPrint r raw) raw.
Proof.
  intros <- Hr Hhigh. unfold appendEscapedRune.
  destruct (Z.eqb_spec r 34) as [->|H34]; [by apply (reads_escape dquote)|].
  destruct (Z.eqb_spec r 92) as [->|H92]; [by apply (reads_escape backslash)|]. simpl orb. cbv iota.
  destruct (if r <? 128 then _ else _) eqn:Hprint.
  { apply reads_raw. destruct (Z.ltb_spec r 128); [|by apply Hhigh].
    unfold EncodeRune. rewrite (proj2 (Z.ltb_lt r 128)) by done. simpl.
    change dquote with (byte_of 34). change backslash with (byte_of 92).
    rewrite !byte_eqb, byte_val_of by lia.
    by rewrite (proj2 (Z.eqb_neq r 34)), (proj2 (Z.eqb_neq r 92)). }
  clear Hprint. destruct (Z.eqb_spec r 7) as [->|_]; [by apply (reads_escape "a")|].
  destruct (Z.eqb_spec r 8) as [->|_]; [by apply (reads_escape "b")|].
  destruct (Z.eqb_spec r 12) as [->|_]; [by apply (reads_escape "f")|].
  destruct (Z.eqb_spec r 10) as [->|_]; [by apply (reads_escape "n")|].
  destruct (Z.eqb_spec r 13) as [->|_]; [by apply (reads_escape "r")|].
  destruct (Z.eqb_spec r 9) as [->|_]; [by apply (reads_escape "t")|].
  destruct (Z.eqb_spec r 11) as [->|_]; [by apply (reads_escape "v")|].
  destruct ((r <? 32) || (r =? 127)) eqn:Hlow.
  { unfold EncodeRune. rewrite (proj2 (Z.ltb_lt r 128)) by lia.
    apply (reads_hex "x" 1 false); [done | lia]. }
  case_match.
  - apply (reads_hex "u" 3 true); [done|]. change (16 ^ Z.of_nat 4) with 65536. lia.
  - apply (reads_hex "U" 7 true); [done|]. change (16 ^ Z.of_nat 8) with 4294967296. lia.
Qed.

Lemma quote_next_reads s txt w :
  s <> "" -> quote_next isPrint s = (txt, w) ->
  reads txt (String.substring 0 w s) /\ (1 <= w <= String.length s)%nat.
Proof.
  intros Hs. unfold quote_next. destruct (DecodeRune s) as [[r n]|] eqn:Hd.
  - intros [= <- <-]. destruct (DecodeRune_spec s r n Hd) as (He & Hw & Hr & Hh).
    split; [|done]. by apply appendEscapedRune_reads.
  - destruct s as [|a s]; [done|]. intros [= <- <-]. cbn [String.substring].
    rewrite substring_none. split; [|simpl; lia].
    pose proof (reads_hex "x" 1 false (byte_val a) eq_refl (byte_val_range a)) as Hx.
    by rewrite byte_of_val in Hx.
Qed.

Fixpoint drop_string (n : nat) (s : string) : string :=
  match n, s with
  | S n, String _ s => drop_string n s
  | _, _ => s
  end.

Lemma substring_drop n s : (n <= String.length s)%nat -> String.substring 0 n s +:+ drop_string n s = s.
Proof.
  revert s. induction n as [|n IH]; intros s Hn; [by rewrite substring_none|].
  destruct s as [|c s]; [simpl in Hn; lia|]. simpl. rewrite append_String. f_equal.
  apply IH. simpl in Hn. lia.
Qed.

Lemma drop_string_length n s : String.length (drop_string n s) = (String.length s - n)%nat.
Proof. revert n. induction s as [|c s IH]; intros [|n]; simpl; auto. Qed.

Lemma quote_from_skip n s : quote_from isPrint n s = quote_from isPrint 0 (drop_string n s).
Proof. revert n. induction s as [|c s IH]; intros [|n]; try done. apply IH. Qed.

(** The loop writes what reads as its input. *)
Lemma quote_from_reads n s : (String.length s <= n)%nat -> reads (quote_from isPrint 0 s) s.
Proof.
  revert s. induction n as [|n IH]; intros s Hn; (destruct s as [|a s]; [by apply reads_raw|]);
    [simpl in Hn; lia|].
  intros out. cbn [quote_from].
  destruct (quote_next isPrint (String a s)) as [txt w] eqn:Hq.
  apply quote_next_reads in Hq as [Hr Hw]; [|done]. rewrite quote_from_skip, app_assoc_string, Hr.
  rewrite (IH (drop_string (w - 1) s)); [|rewrite drop_string_length; simpl in Hn; lia].
  rewrite prepend_app. f_equal.
  destruct w as [|w]; [lia|]. replace (S w - 1)%nat with w by lia.
  exact (substring_drop (S w) (String a s) (proj2 Hw)).
Qed.

Lemma unquote_Quote s rest :
  unquote Raw (quote_from isPrint 0 s +:+ String dquote rest) = Some (s, rest).
Proof.
  rewrite (quote_from_reads (String.length s) s) by lia. simpl.
  by rewrite append_nil_string.
Qed.

(** A quoted text ends where it ends: what is quoted and what follows are its own. *)
Lemma Quote_app_inj s t r r' :
  Quote isPrint s +:+ r = Quote isPrint t +:+ r' -> s = t /\ r = r'.
Proof.
  unfold Quote. rewrite !append_String. intros Heq. injection Heq as Heq.
  rewrite !app_assoc_string, !append_String in Heq.
  change ("" +:+ r) with r in Heq. change ("" +:+ r') with r' in Heq.
  apply (f_equal (unquote Raw)) in Heq. rewrite !unquote_Quote in Heq. by simplify_eq.
Qed.

Lemma Quote_inj s t : Quote isPrint s = Quote isPrint t -> s = t.
Proof.
  intros Heq. apply (Quote_app_inj s t "" ""). by rewrite Heq.
Qed.
End QuoteFacts.

(** ** What a text says *)

(** The errors this package declares. *)
Definition typed (e : goerror) : bool :=
  match e with
  | Sentinel _ | ErrorsNew _ | Errorf _ _ | ErrorsJoin _ _ => false
  | _ => true
  end.

Lemma append_char_inj s t c : s +:+ String c "" = t +:+ String c "" -> s = t.
Proof.
  revert t. induction s as [|a s IH]; intros [|b t]; rewrite ?append_String; [done|..].
  - intros [= -> Heq]. by destruct t.
  - intros [= -> Heq]. by destruct s.
  - intros [= -> Heq]. f_equal. by apply IH.
Qed.

Section Identify.
Context (isPrint : Z -> bool) (sentinel_text : sentinel -> string).
Local Abbreviation Error := (Error isPrint sentinel_text).

(** The same error, up to the texts of a cause and of a duration. *)
Definition same_error (e e' : goerror) : Prop :=
  match e, e' with
  | ErrSpecInvalid f r, ErrSpecInvalid f' r' => f = f' /\ r = r'
  | ErrDuplicateStateShape n, ErrDuplicateStateShape n' => n = n'
  | ErrConfigInvalid f r, ErrConfigInvalid f' r' => f = f' /\ r = r'
  | ErrStreamNotFound n, ErrStreamNotFound n' => n = n'
  | ErrConsumerIncompatible n d, ErrConsumerIncompatible n' d' => n = n' /\ d = d'
  | ErrSubscriptionFailed n c, ErrSubscriptionFailed n' c' => n = n' /\ Error c = Error c'
  | ErrNoResponders n, ErrNoResponders n' => n = n'
  | ErrRequestTimeout n d, ErrRequestTimeout n' d' =>
      n = n' /\ Duration_String d = Duration_String d'
  | ErrUnknownStateShape n, ErrUnknownStateShape n' => n = n'
  | ErrCapExceeded n k, ErrCapExceeded n' k' => n = n' /\ k = k'
  | _, _ => False
  end.

(** Texts of two kinds differ within their first eleven characters. *)
Ltac differ H := exfalso; apply (f_equal (String.substring 0 11)) in H; vm_compute in H; discriminate H.

Lemma Error_same e e' : typed e -> typed e' -> Error e = Error e' -> same_error e e'.
Proof.
  intros He He' H. destruct e; try done; destruct e'; try done; simpl in H |- *;
    try (differ H); unfold ErrSpecInvalid_Error, ErrDuplicateStateShape_Error,
      ErrConfigInvalid_Error, ErrStreamNotFound_Error, ErrConsumerIncompatible_Error,
      ErrSubscriptionFailed_Error, ErrNoResponders_Error, ErrRequestTimeout_Error,
      ErrUnknownStateShape_Error, ErrCapExceeded_Error in H;
    apply (inj (String.append _)) in H;
    first [by apply Quote_inj in H | apply Quote_app_inj in H as [-> H]]; try done;
    (split; [done|]); apply (inj (String.append _)) in H; try done.
  apply append_char_inj in H. by apply (inj pretty) in H.
Qed.
End Identify.

(** C37: the text of an error of this package says which error it is. Two of them have
    the same text exactly if they are of the same type with the same fields, whatever
    bytes the names in them are made of — up to the text of the cause that a failed
    subscription wraps and of the duration of a timeout. *)
Theorem Error_identifies isPrint sentinel_text e e' :
  typed e -> typed e' ->
  Error isPrint sentinel_text e = Error isPrint sentinel_text e' <->
  same_error isPrint sentinel_text e e'.
Proof.
  intros He He'. split; [by apply Error_same|].
  destruct e; try done; destruct e'; try done; simpl; intros; destruct_and?; subst; try done.
  - unfold ErrSubscriptionFailed_Error. by f_equal; f_equal; f_equal.
  - unfold ErrRequestTimeout_Error. by do 3 f_equal.
Qed.

Lemma Error_identifies_witness :
  Error (fun _ => false) (fun _ => "") (ErrNoResponders "a") =
    Error (fun _ => false) (fun _ => "") (ErrNoResponders "b") <->
  "a" = "b".
Proof.
  apply (Error_identifies (fun _ => false) (fun _ => "") (ErrNoResponders "a")
           (ErrNoResponders "b")); exact I.
Defined.
