(* ===== verification/Consumer.v ===== *)
(** * Consumer configuration (stream.go)

    The configuration a stream channel asks for, and the compatibility check of
    an existing durable consumer against it. *)

From S2P Require Import Prelude Values Substrate Model GoTime.
From stdpp Require Import pretty.
From Stdlib Require Import Ascii.

(** ** Integers in decimal: [itoa]

    A 20-byte buffer filled from its end.  [pos] is the next index to fill plus
    one, and the bytes written so far are [suffix]; indexing below zero panics. *)

Definition index_panic : any := AString "index out of range".

Fixpoint itoa_loop (pos : nat) (i : Z) (suffix : string) : result (nat * string) :=
  if (i <=? 0)%Z then Done (pos, suffix)
  else match pos with
  | 0 => Panicked index_panic
  | S pos =>
      itoa_loop pos (i / 10)
        (String (ascii_of_nat (48 + Z.to_nat (i mod 10))) suffix)
  end.

Definition itoa (i : Z) : result string :=
  if (i =? 0)%Z then Done "0"
  else
    let neg := (i <? 0)%Z in
    let i := if neg then int64 (- i) else i in
    match itoa_loop 20 i "" with
    | Done (pos, s) =>
        if neg then
          match pos with
          | 0 => Panicked index_panic
          | S _ => Done (String "-" s)
          end
        else Done s
    | Panicked v => Panicked v
    | Blocked => Blocked
    end.

(** ** Differences *)

Definition quote_char : string := String (ascii_of_nat 34) "".

Definition formatDiff (field existing declared : string) : string :=
  field +:+ ": existing=" +:+ quote_char +:+ existing +:+ quote_char +:+
  ", declared=" +:+ quote_char +:+ declared +:+ quote_char.

Definition formatDiffInt (field : string) (existing declared : Z) : result string :=
  match itoa existing with
  | Done e =>
      match itoa declared with
      | Done d => Done (field +:+ ": existing=" +:+ e +:+ ", declared=" +:+ d)
      | Panicked v => Panicked v
      | Blocked => Blocked
      end
  | Panicked v => Panicked v
  | Blocked => Blocked
  end.

(** [strings.Join]. *)
Fixpoint strings_Join (sep : string) (l : list string) : string :=
  match l with
  | [] => ""
  | [s] => s
  | s :: rest => s +:+ sep +:+ strings_Join sep rest
  end.

Section Consumer.
Context `{NatsTypes}.

Definition or_default (z d : Z) : Z := if (z =? 0)%Z then d else z.

Definition buildConsumerConfig (src : StreamSource) (resolvedFilter : string) :
    JsConsumerConfig :=
  let cc := st_ConsumerConfig src in
  {| js_Durable := "";
     js_Name := "";
     js_FilterSubject := resolvedFilter;
     js_AckPolicy := or_default (cc_AckPolicy cc) AckExplicitPolicy;
     js_AckWait := if (0 <? cc_AckWait cc)%Z then cc_AckWait cc else 0%Z;
     js_MaxDeliver := or_default (cc_MaxDeliver cc) 0;
     js_DeliverPolicy := or_default (cc_DeliverPolicy cc) 0;
     js_ReplayPolicy := or_default (cc_ReplayPolicy cc) 0;
     js_OptStartSeq := or_default (cc_OptStartSeq cc) 0;
     js_OptStartTime := match cc_OptStartTime cc with Some t => Some t | None => None end;
     js_MaxAckPending := or_default (cc_MaxAckPending cc) 0;
     js_Description :=
       if decide (cc_Description cc = "") then "" else cc_Description cc |}.

(** The two adjustments of [resolveConsumer] to the desired configuration. *)
Definition with_durable (name : string) (c : JsConsumerConfig) : JsConsumerConfig :=
  {| js_Durable := name; js_Name := name; js_FilterSubject := js_FilterSubject c;
     js_AckPolicy := js_AckPolicy c; js_AckWait := js_AckWait c;
     js_MaxDeliver := js_MaxDeliver c; js_DeliverPolicy := js_DeliverPolicy c;
     js_ReplayPolicy := js_ReplayPolicy c; js_OptStartSeq := js_OptStartSeq c;
     js_OptStartTime := js_OptStartTime c; js_MaxAckPending := js_MaxAckPending c;
     js_Description := js_Description c |}.

Definition without_durable (c : JsConsumerConfig) : JsConsumerConfig :=
  {| js_Durable := ""; js_Name := js_Name c; js_FilterSubject := js_FilterSubject c;
     js_AckPolicy := js_AckPolicy c; js_AckWait := js_AckWait c;
     js_MaxDeliver := js_MaxDeliver c; js_DeliverPolicy := js_DeliverPolicy c;
     js_ReplayPolicy := js_ReplayPolicy c; js_OptStartSeq := js_OptStartSeq c;
     js_OptStartTime := js_OptStartTime c; js_MaxAckPending := js_MaxAckPending c;
     js_Description := js_Description c |}.

Definition compatDiff (existing : option JsConsumerConfig) (desired : JsConsumerConfig) :
    result string :=
  match existing with
  | None => Done "existing consumer info unavailable"
  | Some got =>
    let diffs :=
      (if decide (js_FilterSubject got = js_FilterSubject desired) then []
       else [formatDiff "filter_subject" (js_FilterSubject got) (js_FilterSubject desired)]) ++
      (if (js_AckPolicy got =? AckExplicitPolicy)%Z then []
       else [formatDiff "ack_policy" (AckPolicy_String (js_AckPolicy got)) "explicit"]) ++
      (if negb (js_DeliverPolicy desired =? 0)%Z &&
          negb (js_DeliverPolicy got =? js_DeliverPolicy desired)%Z
       then [formatDiff "deliver_policy" (DeliverPolicy_String (js_DeliverPolicy got))
               (DeliverPolicy_String (js_DeliverPolicy desired))]
       else []) ++
      (if negb (js_ReplayPolicy desired =? 0)%Z &&
          negb (js_ReplayPolicy got =? js_ReplayPolicy desired)%Z
       then [formatDiff "replay_policy" (ReplayPolicy_String (js_ReplayPolicy got))
               (ReplayPolicy_String (js_ReplayPolicy desired))]
       else []) ++
      (if (0 <? js_AckWait desired)%Z && (js_AckWait got <? js_AckWait desired)%Z
       then [formatDiff "ack_wait" (Duration_String (js_AckWait got))
               (Duration_String (js_AckWait desired))]
       else []) in
    if negb (js_MaxDeliver desired =? 0)%Z &&
       negb (js_MaxDeliver got =? js_MaxDeliver desired)%Z
    then
      match formatDiffInt "max_deliver" (js_MaxDeliver got) (js_MaxDeliver desired) with
      | Done d => Done (strings_Join "; " (diffs ++ [d]))
      | Panicked v => Panicked v
      | Blocked => Blocked
      end
    else Done (strings_Join "; " diffs)
  end.

(** ** Specification: the compatibility table *)

Record compatible (got desired : JsConsumerConfig) : Prop := {
  co_filter : js_FilterSubject got = js_FilterSubject desired;
  co_ack : js_AckPolicy got = AckExplicitPolicy;
  co_deliver : js_DeliverPolicy desired = 0%Z \/ js_DeliverPolicy got = js_DeliverPolicy desired;
  co_replay : js_ReplayPolicy desired = 0%Z \/ js_ReplayPolicy got = js_ReplayPolicy desired;
  co_wait : (js_AckWait desired <= 0)%Z \/ (js_AckWait desired <= js_AckWait got)%Z;
  co_max : js_MaxDeliver desired = 0%Z \/ js_MaxDeliver got = js_MaxDeliver desired }.

(** The server keeps what it was asked for and fills in only what was left zero. *)
Record server_keeps (asked stored : JsConsumerConfig) : Prop := {
  sk_filter : js_FilterSubject stored = js_FilterSubject asked;
  sk_ack : js_AckPolicy stored = js_AckPolicy asked;
  sk_deliver : js_DeliverPolicy stored = js_DeliverPolicy asked;
  sk_replay : js_ReplayPolicy stored = js_ReplayPolicy asked;
  sk_wait : (0 < js_AckWait asked)%Z -> js_AckWait stored = js_AckWait asked;
  sk_max : js_MaxDeliver asked <> 0%Z -> js_MaxDeliver stored = js_MaxDeliver asked }.

End Consumer.

(** ** Lemmas *)

Lemma pretty_digit z : (0 <= z < 10)%Z ->
  pretty z = String (ascii_of_nat (48 + Z.to_nat z)) "".
Proof.
  intros Hz. assert (z = 0 \/ z = 1 \/ z = 2 \/ z = 3 \/ z = 4 \/ z = 5 \/ z = 6 \/ z = 7 \/
    z = 8 \/ z = 9)%Z as Hcases by lia.
  by destruct Hcases as [->|[->|[->|[->|[->|[->|[->|[->|[->| ->]]]]]]]]].
Qed.

Lemma pretty_pos_step i suffix : (0 < i)%Z ->
  pretty_N_go (Z.to_N i) suffix =
  pretty_N_go (Z.to_N (i / 10)) (String (ascii_of_nat (48 + Z.to_nat (i mod 10))) suffix).
Proof.
  intros Hi. rewrite pretty_N_go_step by lia.
  rewrite Z2N.inj_div by lia. f_equal. f_equal.
  pose proof (Z.mod_pos_bound i 10 ltac:(lia)) as Hb.
  replace (Z.to_N i `mod` 10)%N with (Z.to_N (i mod 10)) by (rewrite Z2N.inj_mod by lia; done).
  assert (i mod 10 = 0 \/ i mod 10 = 1 \/ i mod 10 = 2 \/ i mod 10 = 3 \/ i mod 10 = 4 \/
    i mod 10 = 5 \/ i mod 10 = 6 \/ i mod 10 = 7 \/ i mod 10 = 8 \/ i mod 10 = 9)%Z as Hcases
    by lia.
  by destruct Hcases as [->|[->|[->|[->|[->|[->|[->|[->|[->| ->]]]]]]]]].
Qed.

(** The loop writes one digit per power of ten: it needs [n] positions below 10^n,
    and keeps the unused ones. *)
Lemma itoa_loop_pretty n i pos suffix :
  (0 <= i < 10 ^ Z.of_nat n)%Z -> n <= pos ->
  exists pos', pos - n <= pos' /\
    itoa_loop pos i suffix = Done (pos', pretty_N_go (Z.to_N i) suffix).
Proof.
  revert i pos suffix. induction n as [|n IH]; intros i pos suffix Hi Hpos.
  { assert (i = 0)%Z as -> by (simpl in Hi; lia). exists pos. split; [lia|].
    by destruct pos. }
  destruct (Z.leb_spec i 0).
  { assert (i = 0)%Z as -> by lia. exists pos. split; [lia|]. by destruct pos. }
  destruct pos as [|pos]; [lia|]. cbn [itoa_loop].
  destruct (Z.leb_spec i 0); [lia|].
  rewrite Nat2Z.inj_succ, Z.pow_succ_r in Hi by lia.
  destruct (IH (i / 10)%Z pos (String (ascii_of_nat (48 + Z.to_nat (i mod 10))) suffix))
    as (pos' & Hpos' & Hrun); [split; [apply Z.div_pos; lia|apply Z.div_lt_upper_bound; [lia|apply Hi]]|lia|].
  exists pos'. split; [lia|]. rewrite Hrun, (pretty_pos_step i) by lia. done.
Qed.

Lemma pretty_Z_pos i : (0 < i)%Z -> pretty i = pretty_N_go (Z.to_N i) "".
Proof.
  intros Hi. by destruct i as [|p|p]; [lia| |lia].
Qed.

Lemma pretty_Z_neg i : (i < 0)%Z -> pretty i = String "-" (pretty (- i)%Z).
Proof. intros Hi. by destruct i; [lia|lia|]. Qed.

Lemma strings_Join_app_ne sep s l : s <> "" -> strings_Join sep (s :: l) <> "".
Proof. destruct s; [done|]. by destruct l. Qed.

Lemma strings_Join_empty sep l : Forall (fun s => s <> "") l -> strings_Join sep l = "" <-> l = [].
Proof.
  intros Hl. split; [|by intros ->]. destruct Hl as [|s l Hs _]; [done|].
  intros H. by apply strings_Join_app_ne in H.
Qed.

Lemma formatDiff_ne field e d : field <> "" -> formatDiff field e d <> "".
Proof. by destruct field. Qed.

(** ** Properties *)

Lemma itoa_decimal i :
  is_int64 i -> i <> int64_min -> itoa i = Done (pretty i).
Proof.
  unfold is_int64, int64_min, int64_max. intros Hi Hmin. unfold itoa.
  destruct (Z.eqb_spec i 0) as [->|Hne]; [done|].
  destruct (Z.ltb_spec i 0) as [Hneg|Hpos].
  - rewrite int64_id by (unfold is_int64, int64_min, int64_max; lia).
    destruct (itoa_loop_pretty 19 (- i) 20 "") as (pos & Hpos & ->);
      [split; [lia|change (10 ^ Z.of_nat 19)%Z with 10000000000000000000%Z; lia]|lia|].
    destruct pos as [|pos]; [lia|].
    rewrite pretty_Z_neg, (pretty_Z_pos (- i)) by lia. done.
  - destruct (itoa_loop_pretty 19 i 20 "") as (pos & _ & ->);
      [split; [lia|change (10 ^ Z.of_nat 19)%Z with 10000000000000000000%Z; lia]|lia|].
    by rewrite pretty_Z_pos by lia.
Qed.

(** C40: [itoa] is decimal printing, without ever indexing its 20-byte buffer below
    zero, on every [int] but the least, which is printed as a bare minus sign: its
    negation wraps to itself, and the digit loop does not run. *)
Theorem itoa_pretty i :
  is_int64 i -> itoa i = Done (if decide (i = int64_min) then "-" else pretty i).
Proof.
  intros Hi. case_decide as Hmin; [by subst|]. by apply itoa_decimal.
Qed.

Lemma itoa_total i : is_int64 i -> exists s, itoa i = Done s.
Proof.
  intros Hi. destruct (decide (i = int64_min)) as [->|Hne]; [by eexists|].
  (* the same computation as for the other integers *)
  unfold itoa. destruct (Z.eqb_spec i 0); [by eexists|].
  assert (forall j, (0 <= j < 10 ^ 19)%Z -> exists pos, 1 <= pos /\
    itoa_loop 20 j "" = Done (pos, pretty_N_go (Z.to_N j) "")) as Hrun.
  { intros j Hj. destruct (itoa_loop_pretty 19 j 20 "") as (pos & Hp & ->); [done|lia|].
    exists pos. split; [lia|done]. }
  unfold is_int64, int64_min, int64_max in *.
  change (10 ^ 19)%Z with 10000000000000000000%Z in Hrun.
  destruct (Z.ltb_spec i 0).
  - rewrite int64_id by (unfold is_int64, int64_min, int64_max; lia).
    destruct (Hrun (- i)%Z ltac:(lia)) as (pos & Hp & ->). destruct pos; [lia|by eexists].
  - destruct (Hrun i ltac:(lia)) as (pos & _ & ->). by eexists.
Qed.

Section ConsumerProperties.
Context `{NatsTypes}.

(** The integers of a configuration that [compatDiff] prints are Go ints. *)
Definition config_ints (cfg : JsConsumerConfig) : Prop := is_int64 (js_MaxDeliver cfg).

Lemma compatDiff_table got desired :
  config_ints got -> config_ints desired ->
  exists s, compatDiff (Some got) desired = Done s /\ (s = "" <-> compatible got desired).
Proof.
  intros Hg Hd. unfold compatDiff.
  match goal with |- context [strings_Join "; " (?l ++ [_])] => set (diffs := l) end.
  assert (Forall (fun s => s <> "") diffs) as Hne.
  { unfold diffs. repeat apply Forall_app_2; repeat (case_decide || case_match);
      repeat constructor; by apply formatDiff_ne. }
  set (others := js_FilterSubject got = js_FilterSubject desired /\
    js_AckPolicy got = AckExplicitPolicy /\
    (js_DeliverPolicy desired = 0%Z \/ js_DeliverPolicy got = js_DeliverPolicy desired) /\
    (js_ReplayPolicy desired = 0%Z \/ js_ReplayPolicy got = js_ReplayPolicy desired) /\
    ((js_AckWait desired <= 0)%Z \/ (js_AckWait desired <= js_AckWait got)%Z)).
  assert (diffs = [] <-> others) as Hnil.
  { unfold diffs, others. rewrite !app_nil.
    repeat match goal with
    | |- context [(?a =? ?b)%Z] => destruct (Z.eqb_spec a b)
    | |- context [(?a <? ?b)%Z] => destruct (Z.ltb_spec a b)
    end; case_decide; simpl; split; intros; destruct_and?; split_and?; try done; auto; try lia.
  }
  assert (compatible got desired <-> others /\
    (js_MaxDeliver desired = 0%Z \/ js_MaxDeliver got = js_MaxDeliver desired)) as Hco.
  { unfold others. split; [by intros []; split_and!|]. intros ((?&?&?&?&?)&?). by constructor. }
  setoid_rewrite Hco. clear Hco.
  destruct (Z.eqb_spec (js_MaxDeliver desired) 0) as [H0|H0]; simpl.
  { eexists. split; [done|]. rewrite strings_Join_empty by done. rewrite Hnil. naive_solver. }
  destruct (Z.eqb_spec (js_MaxDeliver got) (js_MaxDeliver desired)) as [H1|H1]; simpl.
  { eexists. split; [done|]. rewrite strings_Join_empty by done. rewrite Hnil. naive_solver. }
  unfold formatDiffInt. destruct (itoa_total _ Hg) as [s1 ->], (itoa_total _ Hd) as [s2 ->].
  eexists. split; [done|]. rewrite strings_Join_empty by (apply Forall_snoc; done).
  split; [by destruct diffs|]. intros [_ []]; done.
Qed.

Lemma with_durable_ints name src filter :
  is_int64 (cc_MaxDeliver (st_ConsumerConfig src)) ->
  config_ints (with_durable name (buildConsumerConfig src filter)).
Proof.
  intros Hi. unfold config_ints; simpl. unfold or_default.
  destruct (Z.eqb_spec (cc_MaxDeliver (st_ConsumerConfig src)) 0); [|done].
  unfold is_int64, int64_min, int64_max. lia.
Qed.

(** C32: [compatDiff] implements the compatibility table: it returns the empty
    string exactly when every row of the table holds — equal filter, explicit
    acks, declared deliver and replay policies matched, an ack wait no shorter
    than declared, a declared delivery limit matched — and it always returns. *)
Theorem compatDiff_compatible got desired :
  config_ints got -> config_ints desired ->
  exists s, compatDiff (Some got) desired = Done s /\ (s = "" <-> compatible got desired).
Proof. apply compatDiff_table. Qed.

(** C33: restarting against one's own consumer.  If the server keeps what it was
    asked for, the consumer a durable channel created is accepted by the same
    declaration's check at the next start exactly when the acknowledgement policy
    is the explicit one: a declaration with another policy creates a consumer that
    no later start accepts. *)
Theorem restart_compatible src filter name stored :
  let desired := buildConsumerConfig src filter in
  let asked := with_durable name desired in
  server_keeps asked stored ->
  is_int64 (cc_MaxDeliver (st_ConsumerConfig src)) -> config_ints stored ->
  (compatDiff (Some stored) asked = Done "" <->
   cc_AckPolicy (st_ConsumerConfig src) = 0%Z \/
   cc_AckPolicy (st_ConsumerConfig src) = AckExplicitPolicy).
Proof.
  intros desired asked [Hf Ha Hd Hr Hw Hm] Hi Hs.
  (* the table, row by row *)
  assert (compatible stored asked <-> js_AckPolicy asked = AckExplicitPolicy) as Hrow.
  { split; [intros []; congruence|]. intros Hack. constructor.
    - done.
    - congruence.
    - by right.
    - by right.
    - destruct (Z.leb_spec (js_AckWait asked) 0); [by left|right]. rewrite Hw; lia.
    - destruct (decide (js_MaxDeliver asked = 0%Z)); [by left|right]. auto. }
  assert (js_AckPolicy asked = AckExplicitPolicy <->
    cc_AckPolicy (st_ConsumerConfig src) = 0%Z \/
    cc_AckPolicy (st_ConsumerConfig src) = AckExplicitPolicy) as Hack.
  { simpl. unfold or_default. destruct (Z.eqb_spec (cc_AckPolicy (st_ConsumerConfig src)) 0);
      naive_solver. }
  assert (config_ints asked) as Hasked by by apply with_durable_ints.
  rewrite <- Hack, <- Hrow.
  destruct (compatDiff_table stored asked Hs Hasked) as (s & -> & <-).
  split; [by intros [= ->]|by intros ->].
Qed.

End ConsumerProperties.

(** ** Witnesses *)

Section ConsumerWitnesses.
Import Demo.

Lemma itoa_pretty_witness : is_int64 (-120) /\ itoa (-120) = Done (pretty (-120)%Z).
Proof. split; [done|]. by apply itoa_pretty. Defined.

Definition demo_stream : StreamSource :=
  mkStreamSource "ORDERS" "orders.>" "worker"
    (mkConsumerConfig 0 Second 5 0 0 0 None 0 "").
Definition demo_asked : JsConsumerConfig :=
  with_durable "worker" (buildConsumerConfig demo_stream "orders.>").

Lemma compatDiff_compatible_witness :
  config_ints demo_asked /\
  exists s, compatDiff (Some demo_asked) demo_asked = Done s /\
    (s = "" <-> compatible demo_asked demo_asked).
Proof. split; [done|]. by apply compatDiff_compatible. Defined.

Lemma restart_compatible_witness :
  compatDiff (Some demo_asked) demo_asked = Done "" <->
  cc_AckPolicy (st_ConsumerConfig demo_stream) = 0%Z \/
  cc_AckPolicy (st_ConsumerConfig demo_stream) = AckExplicitPolicy.
Proof.
  apply (restart_compatible demo_stream "orders.>" "worker" demo_asked); [by constructor|done|done].
Defined.

End ConsumerWitnesses.
