(* ===== verification/Channels.v ===== *)
(** * Binding and releasing channels (start.go, stream.go)

    [start] establishes every declared subscription; [unwind] releases them.
    The resources held on the substrate are read off the event trace, and the
    invariant says they are the ones the channel list accounts for. *)

From stdpp Require Import gmultiset.
From S2P Require Import Prelude Values Substrate Model Validate Lifecycle Metrics Registry Runtime.
From S2P Require Import Request Dispatch Consumer.

Section Channels.
Context `{NatsEnv}.

(** ** The code *)

Definition bindSubjectChannel (spec : ChannelSpec) (src : SubjectSource) : M error :=
  err <- ask (CSubscribe (sub_Subject src)) (fun h => env_Subscribe h (sub_Subject src)) ;;
  match err with
  | Some e => ret (Some (ErrSubscriptionFailed (sub_Subject src) e))
  | None =>
      let state := mkChannelState spec (sub_Subject src) true "" "" false false in
      modify (fun r => set_channels (rt_channels r ++ [state]) r) ;;
      log LInfo "channel ready" [("channel", AString (cs_Name spec));
        ("subject", AString (sub_Subject src)); ("kind", AString "subject")] ;;
      ret None
  end.

Definition ensureJetStream : M error :=
  have <- gets rt_js ;;
  if (have : bool) then ret None
  else
    err <- ask CJetStreamNew env_JetStreamNew ;;
    match err with
    | Some e => ret (Some e)
    | None => modify (set_js true) ;; ret None
    end.

(** The consumer, which is identified by its name, whether it is ephemeral, and
    the error. *)
Definition resolveConsumer (stream : string) (src : StreamSource)
    (desired : JsConsumerConfig) : M (string * bool * error) :=
  if decide (st_Durable src = "") then
    let cfg := without_durable desired in
    created <- ask (CCreateConsumer stream cfg) (fun h => env_CreateConsumer h stream cfg) ;;
    match created with
    | inr e => ret ("", false,
                 Some (ErrSubscriptionFailed (js_FilterSubject desired) e))
    | inl name => ret (name, true, None)
    end
  else
    let desired := with_durable (st_Durable src) desired in
    found <- ask (CConsumer stream (st_Durable src))
               (fun h => env_Consumer h stream (st_Durable src)) ;;
    match found with
    | inr err =>
        if errors_Is err JsErrConsumerNotFound then
          created <- ask (CCreateConsumer stream desired)
                       (fun h => env_CreateConsumer h stream desired) ;;
          match created with
          | inr cerr => ret ("", false,
                          Some (ErrSubscriptionFailed (js_FilterSubject desired) cerr))
          | inl _ => ret (st_Durable src, false, None)
          end
        else ret ("", false, Some err)
    | inl existing =>
        diff <- lift (compatDiff existing desired) ;;
        if decide (diff = "") then ret (st_Durable src, false, None)
        else ret ("", false, Some (ErrConsumerIncompatible (st_Durable src) diff))
    end.

Definition bindStreamChannel (spec : ChannelSpec) (src : StreamSource) : M error :=
  jserr <- ensureJetStream ;;
  match jserr with
  | Some err => ret (Some err)
  | None =>
  serr <- ask (CJsStream (st_Stream src)) (fun h => env_Stream h (st_Stream src)) ;;
  match serr with
  | Some err =>
      if errors_Is err JsErrStreamNotFound then ret (Some (ErrStreamNotFound (st_Stream src)))
      else ret (Some err)
  | None =>
  let desired := buildConsumerConfig src (st_FilterSubject src) in
  res <- resolveConsumer (st_Stream src) src desired ;;
  let '(consumerName, ephemeral, rerr) := res in
  match rerr with
  | Some err => ret (Some err)
  | None =>
  cerr <- ask (CConsume (st_Stream src) consumerName)
            (fun h => env_Consume h (st_Stream src) consumerName) ;;
  match cerr with
  | Some err =>
      (if (ephemeral : bool) then
         ask (CDeleteConsumer (st_Stream src) consumerName)
           (fun h => env_DeleteConsumer h (st_Stream src) consumerName) ;;
         ret tt
       else ret tt) ;;
      ret (Some (ErrSubscriptionFailed (st_FilterSubject src) err))
  | None =>
      let state := mkChannelState spec (st_FilterSubject src) false (st_Stream src)
                     consumerName ephemeral true in
      modify (fun r => set_channels (rt_channels r ++ [state]) r) ;;
      modify (fun r => set_streams (rt_streams r ++ [st_Stream src]) r) ;;
      log LInfo "channel ready" [("channel", AString (cs_Name spec));
        ("subject", AString (st_FilterSubject src)); ("kind", AString "stream");
        ("stream", AString (st_Stream src)); ("consumer", AString consumerName);
        ("ephemeral", AString (if ephemeral then "true" else "false"))] ;;
      ret None
  end end end end.

Fixpoint start (channels : list ChannelSpec) : M error :=
  match channels with
  | [] => ret None
  | ch :: rest =>
      err <- match cs_Source ch with
             | Some (ASubjectSource src) => bindSubjectChannel ch src
             | Some (AStreamSource src) => bindStreamChannel ch src
             | _ => ret (Some (ErrSpecInvalid "ChannelSpec.Source"
                      ("unsupported source kind for channel " +:+ cs_Name ch)))
             end ;;
      match err with
      | Some e => ret (Some e)
      | None => start rest
      end
  end.

Definition set_subscription (b : bool) (ch : channelState) : channelState :=
  mkChannelState (ch_spec ch) (ch_subject ch) b (ch_stream ch) (ch_consumerName ch)
    (ch_ephemeral ch) (ch_streamConsume ch).
Definition set_streamConsume (b : bool) (ch : channelState) : channelState :=
  mkChannelState (ch_spec ch) (ch_subject ch) (ch_subscription ch) (ch_stream ch)
    (ch_consumerName ch) (ch_ephemeral ch) b.
Definition clear_consumerName (ch : channelState) : channelState :=
  mkChannelState (ch_spec ch) (ch_subject ch) (ch_subscription ch) (ch_stream ch)
    "" (ch_ephemeral ch) (ch_streamConsume ch).

(** One iteration of the two loops of [unwind]; a loop over a slice of pointers
    updates each record in place. *)
Definition unsubscribe_one (ch : channelState) : M channelState :=
  if ch_subscription ch then
    err <- ask (CUnsubscribe (ch_subject ch)) (fun h => env_Unsubscribe h (ch_subject ch)) ;;
    match err with
    | Some e => log LWarn "unsubscribe failed"
                  [("channel", AString (cs_Name (ch_spec ch))); ("err", AError e)]
    | None => ret tt
    end ;;
    ret (set_subscription false ch)
  else ret ch.

(** The two statements of the second loop's body. *)
Definition stop_one (ch : channelState) : M channelState :=
  if ch_streamConsume ch then
    emit (CConsumeStop (ch_stream ch) (ch_consumerName ch)) ;;
    ret (set_streamConsume false ch)
  else ret ch.

Definition delete_one (ch : channelState) : M channelState :=
  if ch_ephemeral ch && negb (String.eqb (ch_consumerName ch) "")
     && negb (String.eqb (ch_stream ch) "") then
    serr <- ask (CJsStream (ch_stream ch)) (fun h => env_Stream h (ch_stream ch)) ;;
    match serr with
    | Some _ => ret tt
    | None =>
        derr <- ask (CDeleteConsumer (ch_stream ch) (ch_consumerName ch))
                  (fun h => env_DeleteConsumer h (ch_stream ch) (ch_consumerName ch)) ;;
        match derr with
        | Some e => log LWarn "ephemeral consumer delete failed"
            [("channel", AString (cs_Name (ch_spec ch)));
             ("consumer", AString (ch_consumerName ch)); ("err", AError e)]
        | None => log LInfo "ephemeral consumer deleted"
            [("channel", AString (cs_Name (ch_spec ch)));
             ("consumer", AString (ch_consumerName ch))]
        end
    end ;;
    ret (clear_consumerName ch)
  else ret ch.

Definition teardown_one (ch : channelState) : M channelState :=
  ch <- stop_one ch ;; delete_one ch.

Fixpoint for_channels (f : channelState -> M channelState) (chs : list channelState) :
    M (list channelState) :=
  match chs with
  | [] => ret []
  | ch :: rest => ch' <- f ch ;; rest' <- for_channels f rest ;; ret (ch' :: rest')
  end.

Definition teardownStreamConsumers : M unit :=
  have <- gets rt_js ;;
  if (have : bool) then
    chs <- gets rt_channels ;;
    chs' <- for_channels teardown_one chs ;;
    modify (set_channels chs')
  else ret tt.

Definition unwind : M unit :=
  chs <- gets rt_channels ;;
  chs' <- for_channels unsubscribe_one chs ;;
  modify (set_channels chs') ;;
  teardownStreamConsumers.

(** [unwind] one iteration at a time. [range] takes the slice as it is when its loop
    begins; a record stays at its place, since channels are only ever appended. The
    position: before either loop, or in it, with [k] of [n] records done; [UDelete] is
    inside an iteration of the second loop, its consume loop stopped. *)
Inductive unwinding :=
| UBegin
| UUnsubscribe (k n : nat)
| UTeardown
| UStop (k n : nat)
| UDelete (k n : nat).

Definition in_place (k : nat) (f : channelState -> M channelState) : M unit :=
  chs <- gets rt_channels ;;
  match chs !! k with
  | Some ch =>
      ch' <- f ch ;;
      modify (fun r => set_channels (<[k := ch']> (rt_channels r)) r)
  | None => ret tt
  end.

(** One iteration; [None] at the end. *)
Definition unwind_step (u : unwinding) : M (option unwinding) :=
  match u with
  | UBegin =>
      chs <- gets rt_channels ;;
      ret (Some (UUnsubscribe 0 (length chs)))
  | UUnsubscribe k n =>
      if k <? n then in_place k unsubscribe_one ;; ret (Some (UUnsubscribe (S k) n))
      else ret (Some UTeardown)
  | UTeardown =>
      have <- gets rt_js ;;
      chs <- gets rt_channels ;;
      ret (if (have : bool) then Some (UStop 0 (length chs)) else None)
  | UStop k n =>
      if k <? n then in_place k stop_one ;; ret (Some (UDelete k n)) else ret None
  | UDelete k n => in_place k delete_one ;; ret (Some (UStop (S k) n))
  end.

Fixpoint unwind_from (fuel : nat) (u : unwinding) : M unit :=
  match fuel with
  | 0 => block
  | S fuel =>
      next <- unwind_step u ;;
      match next with Some u' => unwind_from fuel u' | None => ret tt end
  end.

End Channels.

(** ** Resources held on the substrate *)

Inductive resource :=
| RSub (subject : string)
| RConsume (stream consumer : string)
| REph (stream consumer : string).

#[export] Instance resource_eq_dec : EqDecision resource.
Proof. solve_decision. Defined.
#[export] Instance resource_countable : Countable resource.
Proof.
  apply (inj_countable'
    (fun x => match x with
      | RSub s => inl s | RConsume s c => inr (inl (s, c)) | REph s c => inr (inr (s, c)) end)
    (fun y => match y with
      | inl s => RSub s | inr (inl (s, c)) => RConsume s c | inr (inr (s, c)) => REph s c end)).
  by intros [].
Defined.

Section Resources.
Context `{NatsEnv}.

(** What an event does to the resources held, given the calls before it: a
    successful subscribe, consume or ephemeral creation opens one, and asking
    for the matching release closes it, whatever the server answers. *)
Definition opens (h : list event) (e : event) : option resource :=
  match e with
  | CSubscribe s => if env_Subscribe h s is None then Some (RSub s) else None
  | CConsume s c => if env_Consume h s c is None then Some (RConsume s c) else None
  | CCreateConsumer s cfg =>
      if decide (js_Durable cfg = "") then
        match env_CreateConsumer h s cfg with inl n => Some (REph s n) | inr _ => None end
      else None
  | _ => None
  end.

Definition closes (e : event) : option resource :=
  match e with
  | CUnsubscribe s => Some (RSub s)
  | CConsumeStop s c => Some (RConsume s c)
  | CDeleteConsumer s c => Some (REph s c)
  | _ => None
  end.

Definition live_step (h : list event) (m : gmultiset resource) (e : event) :
    gmultiset resource :=
  match opens h e, closes e with
  | Some x, _ => m ⊎ {[+ x +]}
  | None, Some x => m ∖ {[+ x +]}
  | None, None => m
  end.

Fixpoint live_from (h evs : list event) (m : gmultiset resource) : gmultiset resource :=
  match evs with
  | [] => m
  | e :: rest => live_from (h ++ [e]) rest (live_step h m e)
  end.

(** The resources held after a trace. *)
Definition live (evs : list event) : gmultiset resource := live_from [] evs ∅.

(** The resources the harness's channel record accounts for. *)
Definition held_consumer (ch : channelState) : bool :=
  ch_ephemeral ch && negb (String.eqb (ch_consumerName ch) "") &&
  negb (String.eqb (ch_stream ch) "").

Definition channel_resources (ch : channelState) : gmultiset resource :=
  (if ch_subscription ch then {[+ RSub (ch_subject ch) +]} else ∅) ⊎
  (if ch_streamConsume ch then {[+ RConsume (ch_stream ch) (ch_consumerName ch) +]} else ∅) ⊎
  (if held_consumer ch then {[+ REph (ch_stream ch) (ch_consumerName ch) +]} else ∅).

Definition owned (chs : list channelState) : gmultiset resource :=
  foldr (fun ch m => channel_resources ch ⊎ m) ∅ chs.

(** A record that holds nothing. *)
Definition quiet (ch : channelState) : Prop :=
  ch_subscription ch = false /\ ch_streamConsume ch = false /\ held_consumer ch = false.

(** The channel list accounts for exactly the resources held, but for those
    [lost] earlier, and a stream channel exists only once there is a JetStream
    context. *)
Record balanced (lost : gmultiset resource) (r : runtime) : Prop := {
  ba_live : live (rt_events r) = owned (rt_channels r) ⊎ lost;
  ba_js : rt_js r = false ->
    Forall (fun ch => ch_streamConsume ch = false /\ ch_ephemeral ch = false) (rt_channels r) }.

(** The record a binding leaves for a declared channel. *)
Definition bound_to (spec : ChannelSpec) (ch : channelState) : Prop :=
  ch_spec ch = spec /\
  match cs_Source spec with
  | Some (ASubjectSource src) =>
      ch_subject ch = sub_Subject src /\ ch_subscription ch = true /\
      ch_streamConsume ch = false /\ ch_ephemeral ch = false
  | Some (AStreamSource src) =>
      ch_subject ch = st_FilterSubject src /\ ch_subscription ch = false /\
      ch_stream ch = st_Stream src /\ ch_streamConsume ch = true /\
      (if decide (st_Durable src = "") then ch_ephemeral ch = true
       else ch_ephemeral ch = false /\ ch_consumerName ch = st_Durable src)
  | _ => False
  end.

(** Documented behaviour of the server: it generates a name for an ephemeral
    consumer, and the delivery limit of a configuration is a Go int. *)
Class ServerLaws : Prop := {
  ephemeral_named h s cfg n : env_CreateConsumer h s cfg = inl n -> n <> "";
  stored_ints h s n cfg : env_Consumer h s n = inl (Some cfg) -> config_ints cfg }.

(** The delivery limit a channel declares is a Go int. *)
Definition channel_ints (spec : ChannelSpec) : Prop :=
  match cs_Source spec with
  | Some (AStreamSource src) => is_int64 (cc_MaxDeliver (st_ConsumerConfig src))
  | _ => True
  end.

(** ** Lemmas *)

Lemma live_from_snoc h evs e m :
  live_from h (evs ++ [e]) m = live_step (h ++ evs) (live_from h evs m) e.
Proof.
  revert h m. induction evs as [|e' evs IH]; intros h m; simpl; [by rewrite app_nil_r|].
  by rewrite IH, <- app_assoc.
Qed.

Lemma live_snoc evs e : live (evs ++ [e]) = live_step evs (live evs) e.
Proof. apply live_from_snoc. Qed.

Lemma owned_app chs chs' : owned (chs ++ chs') = owned chs ⊎ owned chs'.
Proof.
  induction chs as [|ch chs IH]; simpl; [by multiset_solver|]. rewrite IH. multiset_solver.
Qed.

(** An event that neither opens nor closes. *)
Definition neutral (e : event) : Prop :=
  match e with
  | CSubscribe _ | CConsume _ _ | CCreateConsumer _ _ | CUnsubscribe _ | CConsumeStop _ _
  | CDeleteConsumer _ _ => False
  | _ => True
  end.

Lemma live_neutral evs e : neutral e -> live (evs ++ [e]) = live evs.
Proof. intros He. rewrite live_snoc. by destruct e. Qed.

Lemma live_grow (P : event -> Prop) r r' :
  (forall e, P e -> neutral e) -> events_grow P r r' ->
  live (rt_events r') = live (rt_events r).
Proof.
  intros HP (evs & -> & Hevs). induction evs as [|e evs IH] using rev_ind.
  - by rewrite app_nil_r.
  - apply Forall_app in Hevs as [Hevs He]. rewrite list.Forall_singleton in He.
    rewrite app_assoc, live_neutral by (by apply HP). by apply IH.
Qed.

(** An ephemeral consumer whose stream's lookup fails at teardown is let go
    without a delete call. *)
Definition lookup_lost (x : resource) : Prop :=
  match x with
  | REph s _ => exists h e, env_Stream h s = Some e
  | _ => False
  end.

Definition all_lost (m : gmultiset resource) : Prop := forall x, x ∈ m -> lookup_lost x.

Lemma all_lost_empty : all_lost ∅.
Proof. intros x Hx. by apply gmultiset_not_elem_of_empty in Hx. Qed.

Lemma all_lost_disj m m' : all_lost m -> all_lost m' -> all_lost (m ⊎ m').
Proof. intros Hm Hm' x [?|?]%gmultiset_elem_of_disj_union; auto. Qed.

(** The fields [unwind] leaves alone. *)
Definition same_binding (r r' : runtime) : Prop :=
  rt_channels r' = rt_channels r /\ rt_js r' = rt_js r.

(** A step on one channel turns its record [ch] into [ch'], and the resources of
    [ch] into those of [ch'] and lost ones. *)
Definition transfers (pre : channelState -> Prop)
    (post : channelState -> channelState -> Prop)
    (f : channelState -> M channelState) : Prop :=
  forall ch m r, pre ch -> live (rt_events r) = channel_resources ch ⊎ m ->
  exists ch' lost r', f ch r = (Done ch', r') /\ post ch ch' /\ all_lost lost /\
    live (rt_events r') = channel_resources ch' ⊎ lost ⊎ m /\ same_binding r r'.

Lemma for_channels_transfers post f chs :
  transfers (fun _ => True) post f -> forall m r, live (rt_events r) = owned chs ⊎ m ->
  exists chs' lost r', for_channels f chs r = (Done chs', r') /\ Forall2 post chs chs' /\
    all_lost lost /\ live (rt_events r') = owned chs' ⊎ lost ⊎ m /\ same_binding r r'.
Proof.
  intros Hf. induction chs as [|ch chs IH]; intros m r Hl; simpl.
  { exists [], ∅, r. split_and!; [done|done|apply all_lost_empty| |done].
    rewrite Hl; simpl; multiset_solver. }
  simpl in Hl. destruct (Hf ch (owned chs ⊎ m) r I) as (ch' & lost & r1 & H1 & P1 & A1 & L1 & S1);
    [rewrite Hl; multiset_solver|].
  destruct (IH (channel_resources ch' ⊎ lost ⊎ m) r1)
    as (chs' & lost' & r2 & H2 & P2 & A2 & L2 & S2); [rewrite L1; multiset_solver|].
  exists (ch' :: chs'), (lost ⊎ lost'), r2. unfold bind, ret. rewrite H1, H2.
  unfold same_binding in *. destruct_and!. split_and!; try done; try congruence.
  - by constructor.
  - by apply all_lost_disj.
  - rewrite L2; simpl; multiset_solver.
Qed.

Lemma unsubscribe_one_transfers :
  transfers (fun _ => True) (fun ch ch' => ch' = set_subscription false ch) unsubscribe_one.
Proof.
  intros ch m r _ Hl. unfold unsubscribe_one. destruct (ch_subscription ch) eqn:Hs.
  2:{ exists ch, ∅, r. split_and!; [done|by destruct ch; simpl in *; subst|
        apply all_lost_empty|rewrite Hl; multiset_solver|done]. }
  unfold bind, ask, ret, log, modify; simpl.
  assert (live (rt_events r ++ [CUnsubscribe (ch_subject ch)]) =
    channel_resources (set_subscription false ch) ⊎ ∅ ⊎ m) as Hl'.
  { rewrite live_snoc, Hl. unfold live_step, channel_resources; simpl. rewrite Hs.
    change (held_consumer (set_subscription false ch)) with (held_consumer ch).
    destruct (ch_streamConsume ch), (held_consumer ch); multiset_solver. }
  destruct (env_Unsubscribe _ _); simpl; (eexists _, ∅, _; split_and!;
    [done|done|apply all_lost_empty|done|done]).
Qed.

Lemma stop_one_transfers :
  transfers (fun _ => True) (fun ch ch' => ch' = set_streamConsume false ch) stop_one.
Proof.
  intros ch m r _ Hl. unfold stop_one. destruct (ch_streamConsume ch) eqn:Hs.
  2:{ exists ch, ∅, r. split_and!; [done|by destruct ch; simpl in *; subst|
        apply all_lost_empty|rewrite Hl; multiset_solver|done]. }
  eexists _, ∅, _. split_and!; [done|done|apply all_lost_empty| |done].
  simpl. rewrite live_snoc, Hl. unfold live_step, channel_resources; simpl. rewrite Hs.
  change (held_consumer (set_streamConsume false ch)) with (held_consumer ch).
  destruct (ch_subscription ch), (held_consumer ch); multiset_solver.
Qed.

Lemma transfers_bind pre post pre' post' f g :
  transfers pre post f -> transfers pre' post' g ->
  (forall ch ch', pre ch -> post ch ch' -> pre' ch') ->
  transfers pre (fun ch ch'' => exists ch', post ch ch' /\ post' ch' ch'')
    (fun ch => ch' <- f ch ;; g ch').
Proof.
  intros Hf Hg Hpre ch m r Hp Hl.
  destruct (Hf ch m r Hp Hl) as (ch1 & l1 & r1 & H1 & P1 & A1 & L1 & S1).
  destruct (Hg ch1 (l1 ⊎ m) r1) as (ch2 & l2 & r2 & H2 & P2 & A2 & L2 & S2);
    [by eapply Hpre|rewrite L1; multiset_solver|].
  exists ch2, (l1 ⊎ l2), r2. unfold bind. rewrite H1, H2. unfold same_binding in *.
  destruct_and!. split_and!; try done; try congruence.
  - eauto.
  - by apply all_lost_disj.
  - rewrite L2; multiset_solver.
Qed.

Lemma delete_one_transfers :
  transfers (fun ch => ch_streamConsume ch = false)
    (fun ch ch' => ch_subscription ch' = ch_subscription ch /\
      ch_streamConsume ch' = false /\ held_consumer ch' = false) delete_one.
Proof.
  intros ch m r Hp Hl. unfold delete_one. fold (held_consumer ch).
  destruct (held_consumer ch) eqn:Hh.
  2:{ exists ch, ∅, r. split_and!; [done|done|done|done|
        apply all_lost_empty|rewrite Hl; multiset_solver|done]. }
  assert (held_consumer (clear_consumerName ch) = false) as Hh'.
  { unfold held_consumer; simpl. by rewrite andb_false_r. }
  assert (channel_resources ch ⊎ m =
    {[+ REph (ch_stream ch) (ch_consumerName ch) +]} ⊎
    channel_resources (clear_consumerName ch) ⊎ m) as Hres.
  { unfold channel_resources. rewrite Hh, Hh'. simpl. rewrite Hp.
    destruct (ch_subscription ch); multiset_solver. }
  unfold bind, ask. destruct (env_Stream _ (ch_stream ch)) as [e|] eqn:He; simpl.
  - eexists _, {[+ REph (ch_stream ch) (ch_consumerName ch) +]}, _.
    split_and!; [done|done|done|done| | |done].
    + intros x ->%gmultiset_elem_of_singleton. simpl. eauto.
    + simpl. rewrite live_neutral, Hl, Hres by done. multiset_solver.
  - assert (live ((rt_events r ++ [CJsStream (ch_stream ch)]) ++
      [CDeleteConsumer (ch_stream ch) (ch_consumerName ch)]) =
      channel_resources (clear_consumerName ch) ⊎ ∅ ⊎ m) as Hl'.
    { rewrite live_snoc, live_neutral, Hl, Hres by done. unfold live_step; simpl.
      multiset_solver. }
    destruct (env_DeleteConsumer _ _ _); simpl; (eexists _, ∅, _; split_and!;
      [done|done|done|done|apply all_lost_empty|done|done]).
Qed.

Lemma teardown_one_transfers :
  transfers (fun _ => True)
    (fun ch ch' => ch_subscription ch' = ch_subscription ch /\
      ch_streamConsume ch' = false /\ held_consumer ch' = false) teardown_one.
Proof.
  intros ch m r Hp Hl.
  destruct (transfers_bind _ _ _ _ _ _ stop_one_transfers delete_one_transfers
    ltac:(by intros ? ? _ ->) ch m r Hp Hl)
    as (ch' & lost & r' & Hrun & (ch1 & -> & Hpost) & HA & HL & HS).
  exists ch', lost, r'. by split_and!; try apply Hpost.
Qed.

(** *** Unwinding *)

Lemma owned_quiet chs : Forall quiet chs -> owned chs = ∅.
Proof.
  induction 1 as [|ch chs (H1 & H2 & H3) _ IH]; simpl; [done|].
  rewrite IH. unfold channel_resources. rewrite H1, H2, H3. multiset_solver.
Qed.

Lemma unwind_settles lost r : balanced lost r -> all_lost lost ->
  exists r' lost', unwind r = (Done tt, r') /\ Forall quiet (rt_channels r') /\
    all_lost lost' /\ balanced lost' r' /\
    length (rt_channels r') = length (rt_channels r).
Proof.
  intros [Hl Hjs] HA0. unfold unwind, teardownStreamConsumers, gets, bind, modify.
  destruct (for_channels_transfers _ _ (rt_channels r) unsubscribe_one_transfers lost r)
    as (chs1 & l1 & r1 & -> & P1 & A1 & L1 & C1 & J1); [by rewrite Hl|].
  pose proof (Forall2_length _ _ _ P1) as Hlen1. cbv beta iota.
  change (rt_js (set_channels chs1 r1)) with (rt_js r1). rewrite J1.
  destruct (rt_js r) eqn:Hj.
  - change (rt_channels (set_channels chs1 r1)) with chs1.
    destruct (for_channels_transfers _ _ chs1 teardown_one_transfers (l1 ⊎ lost)
      (set_channels chs1 r1)) as (chs2 & l2 & r2 & -> & P2 & A2 & L2 & C2 & J2);
      [simpl; rewrite L1; multiset_solver|].
    pose proof (Forall2_length _ _ _ P2) as Hlen2.
    assert (Forall quiet chs2) as Hq.
    { apply Forall_lookup. intros i ch Hch.
      destruct (Forall2_lookup_r _ _ _ _ _ P2 Hch) as (ch1 & Hch1 & Hs & Hc & Hh).
      destruct (Forall2_lookup_r _ _ _ _ _ P1 Hch1) as (ch0 & _ & ->). by split_and!. }
    eexists _, (l2 ⊎ (l1 ⊎ lost)). split; [done|]. split; [done|].
    split; [by repeat apply all_lost_disj|]. split; [|simpl; congruence].
    split; simpl; [rewrite L2; multiset_solver|]. by rewrite J2; simpl; rewrite J1.
  - assert (Forall quiet chs1) as Hq.
    { apply Forall_lookup. intros i ch Hch.
      destruct (Forall2_lookup_r _ _ _ _ _ P1 Hch) as (ch0 & Hch0 & ->).
      specialize (Hjs eq_refl). rewrite Forall_lookup in Hjs.
      destruct (Hjs i ch0 Hch0) as [H1 H2]. split_and!; [done|done|].
      unfold held_consumer; simpl. by rewrite H2. }
    eexists _, (l1 ⊎ lost). split; [done|]. split; [done|].
    split; [by apply all_lost_disj|]. split; [|simpl; congruence].
    split; simpl; [rewrite L1; multiset_solver|]. intros _. apply Forall_lookup.
    intros i ch Hch. destruct (Forall2_lookup_r _ _ _ _ _ P1 Hch) as (ch0 & Hch0 & ->).
    specialize (Hjs eq_refl). rewrite Forall_lookup in Hjs. by apply (Hjs i ch0).
Qed.

Lemma for_channels_id f chs r :
  (forall ch, ch ∈ chs -> f ch r = (Done ch, r)) -> for_channels f chs r = (Done chs, r).
Proof.
  induction chs as [|ch chs IH]; intros Hf; simpl; [done|]. unfold bind, ret.
  rewrite Hf by set_solver. rewrite IH; [done|]. intros ch' Hch'. apply Hf. set_solver.
Qed.

Lemma set_channels_id r : set_channels (rt_channels r) r = r.
Proof. by destruct r. Qed.

Lemma unwind_quiet r : Forall quiet (rt_channels r) -> unwind r = (Done tt, r).
Proof.
  intros Hq. rewrite Forall_forall in Hq. unfold unwind, teardownStreamConsumers.
  unfold gets, bind, modify. rewrite for_channels_id.
  2:{ intros ch (H1 & _)%Hq. unfold unsubscribe_one. by rewrite H1. }
  rewrite set_channels_id. destruct (rt_js r); [|done]. rewrite for_channels_id.
  2:{ intros ch (_ & H2 & H3)%Hq. unfold teardown_one, stop_one. rewrite H2.
      unfold bind, ret, delete_one. fold (held_consumer ch). by rewrite H3. }
  by rewrite set_channels_id.
Qed.

(** *** Unwinding, one iteration at a time *)

(** What releasing does to a record: nothing is opened again. *)
Record released (ch ch' : channelState) : Prop := {
  rl_spec : ch_spec ch' = ch_spec ch;
  rl_ephemeral : ch_ephemeral ch' = ch_ephemeral ch;
  rl_subscription : ch_subscription ch = false -> ch_subscription ch' = false;
  rl_consume : ch_streamConsume ch = false -> ch_streamConsume ch' = false;
  rl_held : held_consumer ch = false -> held_consumer ch' = false }.

#[export] Instance released_preorder : PreOrder released.
Proof. split; [by split|]. intros x y z [] []. split; [congruence|congruence|auto..]. Qed.

Lemma released_quiet ch ch' : released ch ch' -> quiet ch -> quiet ch'.
Proof. intros [_ _ H1 H2 H3] (? & ? & ?). split_and!; auto. Qed.

Lemma released_Forall (P : channelState -> Prop) chs chs' :
  (forall ch ch', released ch ch' -> P ch -> P ch') ->
  Forall2 released chs chs' -> Forall P chs -> Forall P chs'.
Proof. intros HP. induction 1; intros HF; [done|]. inversion_clear HF. constructor; eauto. Qed.

(** One record's step returns, releases, and touches no other record. *)
Definition one_released (f : channelState -> M channelState) : Prop :=
  forall ch r, exists ch' r', f ch r = (Done ch', r') /\ released ch ch' /\ same_binding r r'.

Lemma unsubscribe_one_released : one_released unsubscribe_one.
Proof.
  intros ch r. unfold unsubscribe_one, bind, ask, log, modify, ret.
  destruct (ch_subscription ch); [|by eexists _, _].
  destruct (env_Unsubscribe _ _); eexists _, _; (split; [done|]); by split.
Qed.

Lemma stop_one_released : one_released stop_one.
Proof.
  intros ch r. unfold stop_one, bind, emit, modify, ret.
  destruct (ch_streamConsume ch); [|by eexists _, _]. eexists _, _. split; [done|]. by split.
Qed.

Lemma delete_one_released : one_released delete_one.
Proof.
  intros ch r. unfold delete_one. fold (held_consumer ch).
  assert (released ch (clear_consumerName ch)) as Hrel.
  { split; try done. intros _. unfold held_consumer. simpl. by rewrite andb_false_r. }
  unfold bind, ask, log, modify, ret. destruct (held_consumer ch); [|by eexists _, _].
  destruct (env_Stream _ _); simpl; [by eexists _, _|].
  destruct (env_DeleteConsumer _ _ _); simpl; by eexists _, _.
Qed.

#[local] Hint Resolve unsubscribe_one_released stop_one_released delete_one_released : core.

Lemma in_place_run k f r :
  one_released f -> exists r', in_place k f r = (Done tt, r') /\ rt_js r' = rt_js r /\
    Forall2 released (rt_channels r) (rt_channels r') /\
    forall ch, rt_channels r !! k = Some ch -> exists ch' r1,
      f ch r = (Done ch', r1) /\ rt_channels r' = <[k := ch']> (rt_channels r) /\
      rt_events r' = rt_events r1.
Proof.
  intros Hf. unfold in_place, gets, bind, modify, ret.
  destruct (rt_channels r !! k) as [ch|] eqn:Hk.
  - destruct (Hf ch r) as (ch' & r1 & Hrun & Hrel & Hc & Hj). rewrite Hrun. simpl.
    eexists. split; [done|]. simpl. rewrite Hc. split; [done|]. split.
    + rewrite <- (list_insert_id (rt_channels r) k ch Hk) at 1.
      apply Forall2_insert; [|done]. by apply Forall_Forall2_diag, Forall_true.
    + intros ch0 [= <-]. by exists ch', r1.
  - exists r. split_and!; [done|done|by apply Forall_Forall2_diag, Forall_true|done].
Qed.

Lemma unwind_step_run u r :
  exists next r', unwind_step u r = (Done next, r') /\ rt_js r' = rt_js r /\
    Forall2 released (rt_channels r) (rt_channels r').
Proof.
  assert (Forall2 released (rt_channels r) (rt_channels r)) as Hrefl
    by by apply Forall_Forall2_diag, Forall_true.
  destruct u as [|k n| |k n|k n]; simpl; unfold bind at 1, gets.
  - by eexists _, _.
  - destruct (k <? n); [|by eexists _, _].
    destruct (in_place_run k unsubscribe_one r) as (r' & -> & Hj & Hrel & _); [done|].
    by eexists _, _.
  - by eexists _, _.
  - destruct (k <? n); [|by eexists _, _].
    destruct (in_place_run k stop_one r) as (r' & -> & Hj & Hrel & _); [done|]. by eexists _, _.
  - destruct (in_place_run k delete_one r) as (r' & -> & Hj & Hrel & _); [done|]. by eexists _, _.
Qed.

(** Positions that a range over the records can be at. *)
Definition position_ok (u : unwinding) (chs : list channelState) : Prop :=
  match u with
  | UBegin | UTeardown => True
  | UUnsubscribe k n | UStop k n => k <= n <= length chs
  | UDelete k n => k < n <= length chs /\
      forall ch, chs !! k = Some ch -> ch_streamConsume ch = false
  end.

Lemma position_grows u chs chs' new :
  Forall2 released chs chs' -> position_ok u chs -> position_ok u (chs' ++ new).
Proof.
  intros Hrel. pose proof (Forall2_length _ _ _ Hrel) as Hlen.
  destruct u as [|k n| |k n|k n]; simpl; rewrite ?length_app; [done|lia|done|lia|].
  intros [Hk Hs]. split; [lia|]. intros ch'. rewrite lookup_app_l by lia. intros Hch'.
  destruct (Forall2_lookup_r _ _ _ _ _ Hrel Hch') as (ch & Hch & Hr).
  by apply (rl_consume _ _ Hr), Hs.
Qed.

(** *** What one iteration does *)

Lemma unsubscribe_one_off ch r ch' r' :
  unsubscribe_one ch r = (Done ch', r') -> ch_subscription ch' = false.
Proof.
  unfold unsubscribe_one, bind, ask, log, modify, ret. destruct (ch_subscription ch) eqn:Hs.
  - by destruct (env_Unsubscribe _ _); intros [= <- _].
  - by intros [= <- _].
Qed.

Lemma stop_one_off ch r ch' r' : stop_one ch r = (Done ch', r') -> ch_streamConsume ch' = false.
Proof.
  unfold stop_one, bind, emit, modify, ret. destruct (ch_streamConsume ch) eqn:Hs;
    by intros [= <- _].
Qed.

Lemma delete_one_off ch r ch' r' : delete_one ch r = (Done ch', r') -> held_consumer ch' = false.
Proof.
  unfold delete_one. fold (held_consumer ch).
  assert (held_consumer (clear_consumerName ch) = false) as Hc
    by (unfold held_consumer; simpl; by rewrite andb_false_r).
  unfold bind, ask, log, modify, ret. destruct (held_consumer ch) eqn:Hh; [|by intros [= <- _]].
  destruct (env_Stream _ _); simpl; [by intros [= <- _]|].
  by destruct (env_DeleteConsumer _ _ _); intros [= <- _].
Qed.

(** The record of the iteration, after it. *)
Lemma in_place_off (P : channelState -> Prop) k f r r' :
  one_released f -> (forall ch r ch' r', f ch r = (Done ch', r') -> P ch') ->
  in_place k f r = (Done tt, r') -> forall ch', rt_channels r' !! k = Some ch' -> P ch'.
Proof.
  intros Hf HP Hrun ch' Hch'. destruct (in_place_run k f r Hf) as (r1 & Hrun' & _ & Hrel & Hk).
  rewrite Hrun in Hrun'. injection Hrun' as <-.
  destruct (Forall2_lookup_r _ _ _ _ _ Hrel Hch') as (ch & Hch & _).
  destruct (Hk ch Hch) as (ch1 & r2 & Hf1 & Hins & _).
  rewrite Hins, list_lookup_insert_eq in Hch' by (by eapply lookup_lt_Some).
  injection Hch' as <-. by eapply HP.
Qed.

(** The positions follow from each other. *)
Lemma unwind_step_position u r u' r' :
  position_ok u (rt_channels r) -> unwind_step u r = (Done (Some u'), r') ->
  position_ok u' (rt_channels r').
Proof.
  intros Hu Hstep. destruct (unwind_step_run u r) as (next & r1 & Hrun & _ & Hrel).
  rewrite Hstep in Hrun. injection Hrun as <- <-.
  pose proof (Forall2_length _ _ _ Hrel) as Hlen.
  destruct u as [|k n| |k n|k n]; simpl in Hstep; unfold bind in Hstep at 1; unfold gets in Hstep.
  - injection Hstep as <- _. simpl. lia.
  - destruct (Nat.ltb_spec k n); [|by injection Hstep as <- _].
    destruct (in_place _ _ _) as [[[]|v|] r1]; try done. injection Hstep as <- <-. simpl in *. lia.
  - unfold bind, ret in Hstep. destruct (rt_js r); [|done]. injection Hstep as <- _. simpl. lia.
  - destruct (Nat.ltb_spec k n); [|done].
    destruct (in_place _ _ _) as [[[]|v|] r1] eqn:Hin; try done. injection Hstep as <- <-.
    simpl in *. split; [lia|].
    by eapply (in_place_off (fun ch => ch_streamConsume ch = false));
      [|apply stop_one_off|exact Hin].
  - destruct (in_place _ _ _) as [[[]|v|] r1]; try done. injection Hstep as <- <-. simpl in *. lia.
Qed.

(** The steps that are left, with [l] records. *)
Definition unwind_rank (l : nat) (u : unwinding) : nat :=
  match u with
  | UBegin => 3 * l + 4
  | UUnsubscribe k n => (n - k) + 2 * l + 3
  | UTeardown => 2 * l + 2
  | UStop k n => 2 * (n - k) + 1
  | UDelete k n => 2 * (n - k)
  end.

Lemma unwind_rank_bounds u chs :
  position_ok u chs -> 0 < unwind_rank (length chs) u <= 3 * length chs + 4.
Proof. destruct u; simpl; lia. Qed.

Lemma unwind_step_rank u r u' r' :
  position_ok u (rt_channels r) -> unwind_step u r = (Done (Some u'), r') ->
  unwind_rank (length (rt_channels r)) u' < unwind_rank (length (rt_channels r)) u.
Proof.
  intros Hu Hstep.
  destruct u as [|k n| |k n|k n]; simpl in *; unfold bind in Hstep at 1; unfold gets in Hstep.
  - injection Hstep as <- _. simpl. lia.
  - destruct (Nat.ltb_spec k n); [|injection Hstep as <- _; simpl; lia].
    destruct (in_place _ _ _) as [[[]|v|] r1]; try done. injection Hstep as <- <-. simpl. lia.
  - unfold bind, ret in Hstep. destruct (rt_js r); [|done]. injection Hstep as <- _. simpl. lia.
  - destruct (Nat.ltb_spec k n); [|done].
    destruct (in_place _ _ _) as [[[]|v|] r1]; try done. injection Hstep as <- <-. simpl. lia.
  - destruct (in_place _ _ _) as [[[]|v|] r1]; try done. injection Hstep as <- <-. simpl. lia.
Qed.

(** An iteration keeps the books. *)
Lemma in_place_settles pre post k f lost r r' :
  one_released f -> transfers pre post f -> all_lost lost -> balanced lost r ->
  (forall ch, rt_channels r !! k = Some ch -> pre ch) -> in_place k f r = (Done tt, r') ->
  exists lost', all_lost lost' /\ balanced lost' r'.
Proof.
  intros Hf Ht Hlost [Hl Hjs] Hpre Hrun.
  destruct (in_place_run k f r Hf) as (r1 & Hrun' & Hj & Hrel & _).
  rewrite Hrun in Hrun'. injection Hrun' as <-.
  assert (rt_js r' = false -> Forall (fun ch => ch_streamConsume ch = false /\
    ch_ephemeral ch = false) (rt_channels r')) as Hjs'.
  { rewrite Hj. intros Hn. eapply released_Forall; [|exact Hrel|by apply Hjs].
    intros ch ch' Hr [H1 H2]. split; [by apply (rl_consume _ _ Hr)|].
    by rewrite (rl_ephemeral _ _ Hr). }
  unfold in_place, gets, bind, modify, ret in Hrun.
  destruct (rt_channels r !! k) as [ch|] eqn:Hk; [|injection Hrun as <-; by exists lost].
  pose proof (take_drop_middle _ _ _ Hk) as Hmid.
  set (pre_ := take k (rt_channels r)) in *. set (post_ := drop (S k) (rt_channels r)) in *.
  destruct (Ht ch (owned pre_ ⊎ owned post_ ⊎ lost) r (Hpre ch eq_refl))
    as (ch' & lost' & r1 & Hf1 & _ & Hlost' & Hl' & [Hc' _]).
  { rewrite Hl, <- Hmid, owned_app. simpl. multiset_solver. }
  rewrite Hf1 in Hrun. injection Hrun as <-. exists (lost' ⊎ lost).
  split; [by apply all_lost_disj|]. split; [|done]. simpl. rewrite Hc', Hl'.
  rewrite insert_take_drop by (by eapply lookup_lt_Some). fold pre_ post_.
  rewrite owned_app. simpl. multiset_solver.
Qed.

Lemma unwind_step_settles u lost r next r' :
  position_ok u (rt_channels r) -> all_lost lost -> balanced lost r ->
  unwind_step u r = (Done next, r') -> exists lost', all_lost lost' /\ balanced lost' r'.
Proof.
  intros Hu Hl Hb Hstep.
  destruct u as [|k n| |k n|k n]; simpl in Hstep; unfold bind in Hstep at 1; unfold gets in Hstep.
  - injection Hstep as _ <-. by exists lost.
  - destruct (k <? n); [|injection Hstep as _ <-; by exists lost].
    destruct (in_place _ _ _) as [[[]|v|] r1] eqn:Hin; try done. injection Hstep as _ <-.
    by eapply (in_place_settles _ _ k); [|apply unsubscribe_one_transfers|..].
  - injection Hstep as _ <-. by exists lost.
  - destruct (k <? n); [|injection Hstep as _ <-; by exists lost].
    destruct (in_place _ _ _) as [[[]|v|] r1] eqn:Hin; try done. injection Hstep as _ <-.
    by eapply (in_place_settles _ _ k); [|apply stop_one_transfers|..].
  - destruct (in_place _ _ _) as [[[]|v|] r1] eqn:Hin; try done. injection Hstep as _ <-.
    eapply (in_place_settles _ _ k); [|apply delete_one_transfers|..]; try done. apply Hu.
Qed.

(** How far a range over all the records has come. *)
Definition unsubscribed (ch : channelState) : Prop := ch_subscription ch = false.
Definition covered (u : unwinding) (chs : list channelState) : Prop :=
  match u with
  | UBegin => True
  | UUnsubscribe k n => n = length chs /\ Forall unsubscribed (take k chs)
  | UTeardown => Forall unsubscribed chs
  | UStop k n | UDelete k n =>
      n = length chs /\ Forall unsubscribed chs /\ Forall quiet (take k chs)
  end.

Lemma released_unsubscribed ch ch' : released ch ch' -> unsubscribed ch -> unsubscribed ch'.
Proof. intros Hr. apply (rl_subscription _ _ Hr). Qed.

Lemma covered_released u chs chs' : Forall2 released chs chs' -> covered u chs -> covered u chs'.
Proof.
  intros Hrel. pose proof (Forall2_length _ _ _ Hrel) as Hlen.
  assert (forall k, Forall2 released (take k chs) (take k chs')) as Htake
    by (intros k; by apply Forall2_take).
  pose proof released_unsubscribed. pose proof released_quiet.
  destruct u as [|k n| |k n|k n]; simpl; [done| | | |]; intros; destruct_and?; split_and?;
    try congruence; eapply released_Forall; eauto.
Qed.

Lemma Forall_take_S {A} (P : A -> Prop) k (l : list A) :
  Forall P (take k l) -> (forall x, l !! k = Some x -> P x) -> Forall P (take (S k) l).
Proof.
  intros Ht Hk. destruct (l !! k) as [x|] eqn:Hx.
  - rewrite (take_S_r _ _ _ Hx). apply Forall_snoc; auto.
  - apply lookup_ge_None in Hx. rewrite take_ge in Ht |- * by lia. done.
Qed.

Lemma unwind_step_covers u lost r next r' :
  balanced lost r -> position_ok u (rt_channels r) -> covered u (rt_channels r) ->
  unwind_step u r = (Done next, r') ->
  match next with
  | Some u' => covered u' (rt_channels r')
  | None => Forall quiet (rt_channels r')
  end.
Proof.
  intros Hb Hpos Hu Hstep. destruct (unwind_step_run u r) as (next' & r1 & Hrun & _ & Hrel).
  rewrite Hstep in Hrun. injection Hrun as <- <-. pose proof (Forall2_length _ _ _ Hrel) as Hlen.
  pose proof (covered_released _ _ _ Hrel Hu) as Hu'.
  destruct u as [|k n| |k n|k n]; simpl in Hstep; unfold bind in Hstep at 1; unfold gets in Hstep.
  - injection Hstep as <- <-. by split.
  - destruct (Nat.ltb_spec k n) as [Hk|Hk].
    + destruct (in_place _ _ _) as [[[]|v|] r1] eqn:Hin; try done. injection Hstep as <- <-.
      destruct Hu' as [Hn Ht]. split; [done|]. apply Forall_take_S; [done|].
      by eapply in_place_off; [|apply unsubscribe_one_off|exact Hin].
    + injection Hstep as <- <-. destruct Hu as [-> Ht]. simpl. by rewrite take_ge in Ht.
  - unfold bind, ret in Hstep. destruct (rt_js r) eqn:Hj; injection Hstep as <- <-.
    + by split_and!.
    + apply Forall_forall. intros ch Hch. simpl in Hu. rewrite Forall_forall in Hu.
      pose proof (ba_js _ _ Hb Hj) as Hjs. rewrite Forall_forall in Hjs.
      destruct (Hjs ch Hch) as [Hc He]. split_and!; [by apply Hu|done|].
      unfold held_consumer. by rewrite He.
  - destruct (Nat.ltb_spec k n) as [Hk|Hk].
    + destruct (in_place _ _ _) as [[[]|v|] r1] eqn:Hin; try done. by injection Hstep as <- <-.
    + injection Hstep as <- <-. destruct Hu as (-> & _ & Hq). by rewrite take_ge in Hq.
  - destruct (in_place _ _ _) as [[[]|v|] r1] eqn:Hin; try done. injection Hstep as <- <-.
    destruct Hu' as (Hn & Hun & Hq). split_and!; [done..|]. apply Forall_take_S; [done|].
    intros ch Hch. split_and!.
    + rewrite Forall_lookup in Hun. by eapply Hun.
    + destruct (Forall2_lookup_r _ _ _ _ _ Hrel Hch) as (ch0 & Hch0 & Hr).
      apply (rl_consume _ _ Hr). by apply Hpos.
    + by eapply (in_place_off (fun ch => held_consumer ch = false)); [|apply delete_one_off|exact Hin|].
Qed.

(** *** Without interruption *)

(** One record's step does not look at the list of records. *)
Definition blind_to_channels (f : channelState -> M channelState) : Prop :=
  forall ch x r, f ch (set_channels x r) = ((f ch r).1, set_channels x (f ch r).2).

Lemma unsubscribe_one_blind : blind_to_channels unsubscribe_one.
Proof.
  intros ch x r. unfold unsubscribe_one, bind, ask, log, modify, ret; simpl.
  destruct (ch_subscription ch); [|done]. by destruct (env_Unsubscribe _ _).
Qed.

Lemma stop_one_blind : blind_to_channels stop_one.
Proof. intros ch x r. unfold stop_one. by destruct (ch_streamConsume ch). Qed.

Lemma delete_one_blind : blind_to_channels delete_one.
Proof.
  intros ch x r. unfold delete_one, bind, ask, log, modify, ret; simpl.
  destruct (_ && _); [|done]. destruct (env_Stream _ _); simpl; [done|].
  by destruct (env_DeleteConsumer _ _ _).
Qed.

Lemma for_channels_blind f chs x r :
  blind_to_channels f ->
  for_channels f chs (set_channels x r) =
  ((for_channels f chs r).1, set_channels x (for_channels f chs r).2).
Proof.
  intros Hf. revert r. induction chs as [|ch chs IH]; intros r; simpl; [done|].
  unfold bind at 1 3 5. rewrite Hf. destruct (f ch r) as [[ch'|v|] r1]; simpl; [|done..].
  unfold bind. rewrite IH. by destruct (for_channels f chs r1) as [[]].
Qed.

Lemma for_channels_run f chs r :
  one_released f -> exists chs' r', for_channels f chs r = (Done chs', r') /\ same_binding r r'.
Proof.
  intros Hf. revert r. induction chs as [|ch chs IH]; intros r; simpl; [by eexists _, _|].
  destruct (Hf ch r) as (ch' & r1 & H1 & _ & [Hc1 Hj1]).
  destruct (IH r1) as (chs' & r2 & H2 & [Hc2 Hj2]). unfold bind, ret. rewrite H1, H2.
  eexists _, _. split; [done|]. split; congruence.
Qed.

(** The record of the iteration, updated in place. *)
Lemma in_place_at f done ch rest r :
  one_released f -> rt_channels r = done ++ ch :: rest ->
  exists ch' r1, f ch r = (Done ch', r1) /\ same_binding r r1 /\
    in_place (length done) f r = (Done tt, set_channels (done ++ ch' :: rest) r1).
Proof.
  intros Hf Hc. destruct (Hf ch r) as (ch' & r1 & Hrun & _ & Hsame). exists ch', r1.
  split_and!; [done..|]. unfold in_place, gets, bind, modify.
  rewrite Hc, list_lookup_middle by done. rewrite Hrun. simpl.
  rewrite (proj1 Hsame), Hc, insert_app_r_alt, Nat.sub_diag by done. done.
Qed.

Lemma length_snoc_middle {A} (done rest : list A) ch ch' :
  length (done ++ ch :: rest) = length ((done ++ [ch']) ++ rest).
Proof. rewrite !length_app. simpl. lia. Qed.

Lemma unwind_from_next fuel u r u' r' :
  unwind_step u r = (Done (Some u'), r') -> unwind_from (S fuel) u r = unwind_from fuel u' r'.
Proof. intros Hs. simpl. unfold bind. by rewrite Hs. Qed.

Lemma unwind_from_last fuel u r r' :
  unwind_step u r = (Done None, r') -> unwind_from (S fuel) u r = (Done tt, r').
Proof. intros Hs. simpl. unfold bind. by rewrite Hs. Qed.

Lemma unsubscribe_next k n r r' :
  k < n -> in_place k unsubscribe_one r = (Done tt, r') ->
  unwind_step (UUnsubscribe k n) r = (Done (Some (UUnsubscribe (S k) n)), r').
Proof. intros Hk%Nat.ltb_lt Hin. simpl. rewrite Hk. unfold bind. by rewrite Hin. Qed.

Lemma stop_next k n r r' :
  k < n -> in_place k stop_one r = (Done tt, r') ->
  unwind_step (UStop k n) r = (Done (Some (UDelete k n)), r').
Proof. intros Hk%Nat.ltb_lt Hin. simpl. rewrite Hk. unfold bind. by rewrite Hin. Qed.

Lemma delete_next k n r r' :
  in_place k delete_one r = (Done tt, r') ->
  unwind_step (UDelete k n) r = (Done (Some (UStop (S k) n)), r').
Proof. intros Hin. simpl. unfold bind. by rewrite Hin. Qed.

Lemma unsubscribe_loop fuel rest : forall done r,
  rt_channels r = done ++ rest ->
  unwind_from (length rest + S fuel) (UUnsubscribe (length done) (length (done ++ rest))) r =
  (rest' <- for_channels unsubscribe_one rest ;; modify (set_channels (done ++ rest')) ;;
   unwind_from fuel UTeardown) r.
Proof.
  induction rest as [|ch rest IH]; intros done r Hc.
  - simpl. rewrite app_nil_r in *. rewrite Nat.ltb_irrefl. unfold bind, ret, modify; simpl.
    rewrite app_nil_r, <- Hc. by destruct r.
  - destruct (in_place_at unsubscribe_one done ch rest r) as (ch' & r1 & H1 & _ & Hin); [done..|].
    assert (length done < length (done ++ ch :: rest)) as Hlt by (rewrite length_app; simpl; lia).
    cbn [length Nat.add]. rewrite (unwind_from_next _ _ _ _ _ (unsubscribe_next _ _ _ _ Hlt Hin)).
    rewrite (length_snoc_middle _ _ ch ch').
    replace (S (length done)) with (length (done ++ [ch'])) by (rewrite length_app; simpl; lia).
    rewrite IH by (simpl; by rewrite <- app_assoc). simpl. unfold bind, ret. rewrite H1.
    rewrite for_channels_blind by apply unsubscribe_one_blind.
    destruct (for_channels_run unsubscribe_one rest r1) as (rest' & r2 & H2 & _); [done|].
    rewrite H2. unfold modify; simpl. by rewrite <- app_assoc.
Qed.

Lemma teardown_one_blind : blind_to_channels teardown_one.
Proof.
  intros c x r. unfold teardown_one, bind. rewrite stop_one_blind.
  destruct (stop_one c r) as [[c'|v|] r1]; simpl; [apply delete_one_blind|done..].
Qed.

Lemma teardown_one_released : one_released teardown_one.
Proof.
  intros ch r. destruct (stop_one_released ch r) as (c1 & r1 & H1 & R1 & [C1 J1]).
  destruct (delete_one_released c1 r1) as (c2 & r2 & H2 & R2 & [C2 J2]).
  exists c2, r2. unfold teardown_one, bind. rewrite H1. split; [done|].
  split; [by transitivity c1|]. split; congruence.
Qed.

Lemma teardown_loop fuel rest : forall done r,
  rt_channels r = done ++ rest ->
  unwind_from (2 * length rest + S fuel) (UStop (length done) (length (done ++ rest))) r =
  (rest' <- for_channels teardown_one rest ;; modify (set_channels (done ++ rest'))) r.
Proof.
  induction rest as [|ch rest IH]; intros done r Hc.
  - simpl. rewrite app_nil_r in *. rewrite Nat.ltb_irrefl. unfold bind, ret, modify; simpl.
    rewrite app_nil_r, <- Hc. by destruct r.
  - destruct (in_place_at stop_one done ch rest r) as (ch1 & r1 & H1 & _ & Hin1); [done..|].
    destruct (in_place_at delete_one done ch1 rest (set_channels (done ++ ch1 :: rest) r1))
      as (ch2 & r2' & H2 & _ & Hin2); [done..|].
    rewrite delete_one_blind in H2.
    destruct (delete_one ch1 r1) as [res r2] eqn:Hd. simpl in H2. injection H2 as -> <-.
    assert (length done < length (done ++ ch :: rest)) as Hlt by (rewrite length_app; simpl; lia).
    replace (2 * length (ch :: rest) + S fuel) with (S (S (2 * length rest + S fuel)))
      by (simpl; lia).
    rewrite (unwind_from_next _ _ _ _ _ (stop_next _ _ _ _ Hlt Hin1)).
    rewrite (unwind_from_next _ _ _ _ _ (delete_next _ _ _ _ Hin2)).
    rewrite (length_snoc_middle _ _ ch ch2).
    replace (S (length done)) with (length (done ++ [ch2])) by (rewrite length_app; simpl; lia).
    rewrite IH by (simpl; by rewrite <- app_assoc). simpl.
    change (set_channels (done ++ ch2 :: rest) (set_channels (done ++ ch1 :: rest) r2))
      with (set_channels (done ++ ch2 :: rest) r2).
    assert (teardown_one ch r = (Done ch2, r2)) as Hch by (unfold teardown_one, bind; by rewrite H1).
    destruct (for_channels_run teardown_one rest r2 teardown_one_released) as (rest' & r3 & H3 & _).
    unfold bind, ret. rewrite Hch, for_channels_blind, H3 by apply teardown_one_blind.
    unfold modify; simpl. by rewrite <- app_assoc.
Qed.

Lemma for_channels_length f l : forall r chs r',
  for_channels f l r = (Done chs, r') -> length chs = length l.
Proof.
  induction l as [|ch l IH]; intros r chs r'; simpl; [by intros [= <- _]|].
  unfold bind, ret. destruct (f ch r) as [[ch'|v|] r2]; try done.
  destruct (for_channels f l r2) as [[l'|v|] r3] eqn:Hl; try done. intros [= <- _]. simpl.
  by rewrite (IH _ _ _ Hl).
Qed.

(** Iteration by iteration, [unwind] is what it is in one go. *)
Lemma unwind_uninterrupted r :
  unwind_from (3 * length (rt_channels r) + 4) UBegin r = unwind r.
Proof.
  set (n := length (rt_channels r)).
  replace (3 * n + 4) with (S (n + S (S (2 * n + 1)))) by lia.
  rewrite (unwind_from_next _ _ _ (UUnsubscribe 0 n) r) by done.
  pose proof (unsubscribe_loop (S (2 * n + 1)) (rt_channels r) [] r eq_refl) as Hloop.
  simpl length in Hloop. fold n in Hloop. rewrite Hloop. unfold unwind, gets. unfold bind at 1 3.
  unfold bind at 2.
  destruct (for_channels_run unsubscribe_one (rt_channels r) r) as (chs & r1 & H1 & _); [done|].
  rewrite H1. unfold bind, modify. simpl app.
  pose proof (for_channels_length _ _ _ _ _ H1) as Hn. fold n in Hn.
  set (r2 := set_channels chs r1). unfold teardownStreamConsumers, gets, bind.
  destruct (rt_js r2) eqn:Hj.
  - rewrite (unwind_from_next _ _ _ (UStop 0 n) r2).
    2:{ simpl. unfold bind, gets, ret. by rewrite Hj; simpl; rewrite Hn. }
    pose proof (teardown_loop 0 chs [] r2 eq_refl) as Hloop2. simpl app in Hloop2.
    change (length []) with 0 in Hloop2. rewrite Hn in Hloop2. rewrite Hloop2. done.
  - apply unwind_from_last. simpl. unfold bind, gets, ret. by rewrite Hj.
Qed.

(** *** Binding *)

Lemma live_step_create h m s cfg :
  live_step h m (CCreateConsumer s cfg) =
  if decide (js_Durable cfg = "") then
    match env_CreateConsumer h s cfg with inl n => m ⊎ {[+ REph s n +]} | inr _ => m end
  else m.
Proof.
  unfold live_step; simpl. case_decide; [|done]. by destruct (env_CreateConsumer _ _ _).
Qed.

Lemma resolveConsumer_spec `{!ServerLaws} stream src filter r :
  is_int64 (cc_MaxDeliver (st_ConsumerConfig src)) ->
  exists name eph err r',
    resolveConsumer stream src (buildConsumerConfig src filter) r = (Done (name, eph, err), r') /\
    same_binding r r' /\
    match err with
    | Some _ => live (rt_events r') = live (rt_events r)
    | None =>
        live (rt_events r') =
          live (rt_events r) ⊎ (if eph then {[+ REph stream name +]} else ∅) /\
        if decide (st_Durable src = "") then eph = true /\ name <> ""
        else eph = false /\ name = st_Durable src
    end.
Proof.
  intros Hint. unfold resolveConsumer. case_decide as Hd.
  - unfold bind, ask, ret. set (cfg := without_durable _).
    destruct (env_CreateConsumer (rt_events r) stream cfg) as [name|e] eqn:He;
      (eexists _, _, _, _; split; [done|split; [done|]]); simpl;
      rewrite live_snoc, live_step_create, decide_True by done; rewrite He; [|done].
    split; [done|]. by split; [|eapply ephemeral_named].
  - unfold bind, ask, ret. set (cfg := with_durable _ _).
    assert (forall h m, live_step h m (CCreateConsumer stream cfg) = m) as Hcreate.
    { intros h m. by rewrite live_step_create, decide_False. }
    destruct (env_Consumer (rt_events r) stream (st_Durable src)) as [existing|e] eqn:Hc.
    + destruct existing as [got|].
      * destruct (compatDiff_table got cfg) as (diff & Hdiff & _).
        { by eapply stored_ints. } { by apply with_durable_ints. }
        unfold lift. rewrite Hdiff. case_decide; (eexists _, _, _, _; split; [done|split; [done|]]); simpl; rewrite live_neutral by done; [|done].
        split; [multiset_solver|done].
      * eexists _, _, _, _. split; [done|split; [done|]]. simpl. by rewrite live_neutral.
    + destruct (errors_Is e JsErrConsumerNotFound).
      2:{ eexists _, _, _, _. split; [done|split; [done|]]. simpl. by rewrite live_neutral. }
      simpl. destruct (env_CreateConsumer _ stream cfg) as [name|e'];
        (eexists _, _, _, _; split; [done|split; [done|]]); simpl;
        rewrite live_snoc, Hcreate, live_neutral by done; [|done].
      split; [multiset_solver|done].
Qed.

(** What one binding step does to the runtime. *)
Definition binds (spec : ChannelSpec) (m : M error) : Prop :=
  forall lost r, balanced lost r -> exists err r', m r = (Done err, r') /\ balanced lost r' /\
    match err with
    | None => exists ch, rt_channels r' = rt_channels r ++ [ch] /\ bound_to spec ch
    | Some _ => rt_channels r' = rt_channels r
    end.

(** A failure that only asked is balanced. *)
Lemma balanced_neutral lost r r' :
  balanced lost r -> live (rt_events r') = live (rt_events r) ->
  rt_channels r' = rt_channels r -> (rt_js r = true -> rt_js r' = true) -> balanced lost r'.
Proof.
  intros [Hl Hj] Hl' Hc Hjs. split; [congruence|]. rewrite Hc. intros Hf. apply Hj.
  destruct (rt_js r); [|done]. by rewrite Hjs in Hf.
Qed.

Lemma balanced_snoc lost r r' ch :
  balanced lost r -> live (rt_events r') = live (rt_events r) ⊎ channel_resources ch ->
  rt_channels r' = rt_channels r ++ [ch] -> (rt_js r = true -> rt_js r' = true) ->
  (rt_js r' = false -> ch_streamConsume ch = false /\ ch_ephemeral ch = false) -> balanced lost r'.
Proof.
  intros [Hl Hj] Hl' Hc Hjs Hch. split; rewrite Hc.
  - rewrite owned_app, Hl', Hl. simpl. multiset_solver.
  - intros Hf. apply Forall_snoc; [|auto]. apply Hj. destruct (rt_js r); [|done].
    by rewrite Hjs in Hf.
Qed.

Lemma bindSubjectChannel_spec spec src :
  cs_Source spec = Some (ASubjectSource src) -> binds spec (bindSubjectChannel spec src).
Proof.
  intros Hsrc lost r Hb. unfold bindSubjectChannel, bind, ask, ret, modify, log.
  destruct (env_Subscribe _ _) as [e|] eqn:He; simpl.
  - eexists _, _. split; [done|split; [|done]]. apply (balanced_neutral _ r); try done.
    simpl. rewrite live_snoc. unfold live_step; simpl. by rewrite He.
  - eexists _, _. split; [done|]. split.
    + eapply (balanced_snoc _ r); try done. simpl. rewrite live_snoc.
      unfold live_step, channel_resources; simpl. rewrite He. multiset_solver.
    + eexists. split; [done|]. split; [done|]. simpl. by rewrite Hsrc.
Qed.

Lemma ensureJetStream_spec r :
  exists err r', ensureJetStream r = (Done err, r') /\
    live (rt_events r') = live (rt_events r) /\ rt_channels r' = rt_channels r /\
    (rt_js r = true -> rt_js r' = true) /\ (err = None -> rt_js r' = true).
Proof.
  unfold ensureJetStream, bind, gets, ask, ret, modify.
  destruct (rt_js r) eqn:Hj; [by eexists None, r|].
  destruct (env_JetStreamNew _) as [e|]; (eexists _, _; split; [done|]); simpl;
    by rewrite live_neutral.
Qed.

Lemma live_consume r stream name err :
  env_Consume (rt_events r) stream name = err ->
  live (rt_events r ++ [CConsume stream name]) =
  match err with
  | None => live (rt_events r) ⊎ {[+ RConsume stream name +]}
  | Some _ => live (rt_events r)
  end.
Proof. intros <-. rewrite live_snoc. unfold live_step; simpl. by destruct (env_Consume _ _ _). Qed.

Lemma held_ephemeral (stream name : string) :
  stream <> "" -> name <> "" ->
  true && negb (String.eqb name "") && negb (String.eqb stream "") = true.
Proof. intros Hs Hn. by rewrite !(proj2 (String.eqb_neq _ _)). Qed.

Lemma bindStreamChannel_spec `{!ServerLaws} spec src :
  cs_Source spec = Some (AStreamSource src) -> channel_ok spec -> channel_ints spec ->
  binds spec (bindStreamChannel spec src).
Proof.
  intros Hsrc (_ & _ & _ & (src' & Hsrc' & Hok)) Hint lost r Hb. simplify_eq.
  unfold channel_ints in Hint. rewrite Hsrc in Hint. destruct Hok as [Hstream _].
  unfold bindStreamChannel, bind.
  destruct (ensureJetStream_spec r) as (jerr & r1 & -> & L1 & C1 & J1 & J1').
  assert (balanced lost r1) as Hb1 by by apply (balanced_neutral _ r).
  destruct jerr as [e|]; [by eexists _, _|]. specialize (J1' eq_refl).
  unfold ask at 1. set (r2 := set_events _ r1).
  assert (balanced lost r2) as Hb2.
  { apply (balanced_neutral _ r1); [done| |done|done]. simpl. by rewrite live_neutral. }
  destruct (env_Stream _ _) as [e|].
  { destruct (errors_Is e _); by eexists _, _. }
  destruct (resolveConsumer_spec (st_Stream src) src (st_FilterSubject src) r2 Hint)
    as (name & eph & rerr & r3 & -> & [C3 J3] & Hres).
  destruct rerr as [e|].
  { eexists _, _. split; [done|]. split; [|simpl in *; congruence].
    apply (balanced_neutral _ r2); [done|done|done|simpl in *; congruence]. }
  destruct Hres as [L3 Hname]. unfold ask at 1.
  pose proof (live_consume r3 (st_Stream src) name _ eq_refl) as L4.
  destruct (env_Consume (rt_events r3) (st_Stream src) name) as [e|] eqn:He.
  - (* the consume loop did not start: an ephemeral consumer is deleted again *)
    destruct eph; unfold ask, ret; (eexists _, _; split; [done|]);
      (split; [|simpl in *; congruence]).
    + apply (balanced_neutral _ r2); [done| |done|simpl in *; congruence]. simpl.
      rewrite live_snoc, L4, L3. unfold live_step; simpl. multiset_solver.
    + apply (balanced_neutral _ r2); [done| |done|simpl in *; congruence]. simpl.
      rewrite L4, L3. multiset_solver.
  - unfold modify, log, ret; simpl. eexists _, _. split; [done|]. split.
    + eapply (balanced_snoc _ r2); [done| |simpl; by rewrite C3|simpl in *; congruence|
        simpl in *; congruence].
      simpl. rewrite L4, L3. unfold channel_resources; simpl.
      unfold held_consumer; simpl. destruct eph; [|multiset_solver].
      rewrite held_ephemeral; [multiset_solver|done|]. case_decide; naive_solver.
    + eexists. split; [simpl; rewrite C3; simpl; by rewrite C1|]. split; [done|]. simpl.
      rewrite Hsrc. split_and!; try done. case_decide; naive_solver.
Qed.

Lemma start_prefix `{!ServerLaws} chs : Forall channel_ok chs -> Forall channel_ints chs ->
  forall lost r, balanced lost r ->
  exists err r' k bound, start chs r = (Done err, r') /\ balanced lost r' /\
    rt_channels r' = rt_channels r ++ bound /\ Forall2 bound_to (take k chs) bound /\
    match err with None => k = length chs | Some _ => k < length chs end.
Proof.
  induction 1 as [|spec chs Hok _ IH]; intros Hint lost r Hb; simpl.
  { exists None, r, 0, []. rewrite app_nil_r. by split_and!. }
  apply Forall_cons in Hint as [Hi Hint].
  assert (binds spec match cs_Source spec with
    | Some (ASubjectSource src) => bindSubjectChannel spec src
    | Some (AStreamSource src) => bindStreamChannel spec src
    | _ => ret (Some (ErrSpecInvalid "ChannelSpec.Source"
             ("unsupported source kind for channel " +:+ cs_Name spec))) end) as Hbind.
  { pose proof Hok as (_ & _ & _ & (src & Hsrc & Hs)). rewrite Hsrc.
    destruct src; [by apply bindSubjectChannel_spec|by apply bindStreamChannel_spec|done]. }
  unfold bind at 1. destruct (Hbind lost r Hb) as (err & r1 & -> & Hb1 & Hch).
  destruct err as [e|].
  { exists (Some e), r1, 0, []. rewrite Hch, app_nil_r. split_and!; try done. simpl; lia. }
  destruct Hch as (ch & Hch & Hbound).
  destruct (IH Hint lost r1 Hb1) as (err & r2 & k & bound & -> & Hb2 & C2 & F2 & Hk).
  exists err, r2, (S k), (ch :: bound). rewrite C2, Hch, <- app_assoc.
  split_and!; try done; [by constructor|destruct err; simpl; lia].
Qed.

(** *** What binding and unwinding leave alone *)

(** A field that does not read the channel records, the JetStream handles, the log
    or the trace. *)
Record binding_blind {X} (f : runtime -> X) : Prop := {
  bb_channels x r : f (set_channels x r) = f r;
  bb_js x r : f (set_js x r) = f r;
  bb_streams x r : f (set_streams x r) = f r;
  bb_log x r : f (set_log x r) = f r;
  bb_events x r : f (set_events x r) = f r }.

Lemma for_channels_preserves (R : relation runtime) `{!PreOrder R} f chs :
  (forall ch, preserves R (f ch)) -> preserves R (for_channels f chs).
Proof. intros Hf. induction chs as [|ch chs IH]; simpl; frame. Qed.

Section Blind.
Context {X : Type} (f : runtime -> X) (Hblind : binding_blind f).

Ltac blind := frame; intros r; apply Hblind.

Lemma unwind_frame : preserves (unchanged f) unwind.
Proof.
  unfold unwind, teardownStreamConsumers. frame;
    try (apply for_channels_preserves; [apply _|]; intros ch;
      unfold unsubscribe_one, teardown_one, stop_one, delete_one);
    blind.
Qed.

Lemma unwind_step_frame u : preserves (unchanged f) (unwind_step u).
Proof.
  destruct u; simpl; unfold in_place, unsubscribe_one, stop_one, delete_one; blind.
Qed.

Lemma bindSubjectChannel_frame spec src :
  preserves (unchanged f) (bindSubjectChannel spec src).
Proof. unfold bindSubjectChannel. blind. Qed.

Lemma bindStreamChannel_frame spec src : preserves (unchanged f) (bindStreamChannel spec src).
Proof. unfold bindStreamChannel, ensureJetStream, resolveConsumer. blind. Qed.

Lemma start_frame chs : preserves (unchanged f) (start chs).
Proof.
  induction chs as [|ch chs IH]; simpl; frame.
  - apply bindSubjectChannel_frame.
  - apply bindStreamChannel_frame.
Qed.

End Blind.

(** Startup only appends records. *)
Definition appends (r r' : runtime) : Prop := rt_channels r `prefix_of` rt_channels r'.
#[export] Instance appends_preorder : PreOrder appends.
Proof.
  split; unfold appends; [by intros r|]. intros r1 r2 r3. by transitivity (rt_channels r2).
Qed.

Lemma start_appends chs : preserves appends (start chs).
Proof.
  assert (forall st, preserves appends (modify (fun r => set_channels (rt_channels r ++ [st]) r)))
    as Hadd by (intros st r; by eexists).
  assert (forall A (m : M A), preserves (unchanged rt_channels) m -> preserves appends m) as Hsame.
  { intros A m Hm r. unfold appends. by rewrite Hm. }
  induction chs as [|ch chs IH]; simpl;
    unfold bindSubjectChannel, bindStreamChannel, ensureJetStream, resolveConsumer;
    frame.
  all: first [apply Hadd|apply Hsame; by intros ?].
Qed.

(** ** Properties *)


(** C12: startup and shutdown are balanced. Whether [start] succeeded or failed
    half-way, and whatever the harness did on the connection meanwhile that is
    not binding or releasing, [unwind] then returns with every subscription and
    every consume loop released, and the deletion of every ephemeral consumer
    requested, but for those whose stream the server then fails to look up.
    Unwinding again does nothing, and unwinding one iteration at a time, the way
    the goroutines of a running system do, comes to the same. *)
Theorem unwind_releases `{!ServerLaws} chs r :
  validateChannels chs = None -> Forall channel_ints chs ->
  rt_events r = [] -> rt_channels r = [] ->
  exists err r1, start chs r = (Done err, r1) /\
    forall r1', same_binding r1 r1' -> events_grow neutral r1 r1' ->
    exists r2, unwind r1' = (Done tt, r2) /\
      unwind_from (3 * length (rt_channels r1') + 4) UBegin r1' = unwind r1' /\
      (forall x, x ∈ live (rt_events r2) -> lookup_lost x) /\
      length (rt_channels r2) = length (rt_channels r1) /\
      unwind r2 = (Done tt, r2).
Proof.
  intros [_ Hok]%validateChannels_ok Hint He Hc.
  assert (balanced ∅ r) as Hb by (split; rewrite ?He, ?Hc; [done|constructor]).
  destruct (start_prefix chs Hok Hint ∅ r Hb) as (err & r1 & _ & _ & Hs & Hb1 & _).
  exists err, r1. split; [done|]. intros r1' [Hch Hj] Hgrow.
  assert (balanced ∅ r1') as Hb1'.
  { apply (balanced_neutral _ r1); [done| |done|congruence]. by eapply live_grow. }
  destruct (unwind_settles ∅ r1' Hb1' all_lost_empty)
    as (r2 & lost & Hr2 & Hq & HA & Hb2 & Hlen).
  exists r2. split_and!; [done|apply unwind_uninterrupted| |congruence|by apply unwind_quiet].
  rewrite (ba_live _ _ Hb2), (owned_quiet _ Hq). intros x Hx. apply HA. multiset_solver.
Qed.

End Resources.

(** ** Witnesses *)

Section ChannelWitnesses.
Import Demo.

#[export] Instance quiet_laws : ServerLaws.
Proof.
  split; simpl; [|done]. intros h s cfg n [= <-]. by case_decide.
Qed.

Definition demo_decode : Decoder := fun m => Done (AString (m_Data m), None).
Definition demo_extract : EntityExtractor := fun _ => Done ("e", None).

(** A subject channel, a durable stream channel and an ephemeral one. *)
Definition demo_channels : list ChannelSpec := [
  mkChannelSpec "cmd" (Some (ASubjectSource (mkSubjectSource "cmd.*")))
    (Some demo_decode) (Some demo_extract);
  mkChannelSpec "orders" (Some (AStreamSource demo_stream))
    (Some demo_decode) (Some demo_extract);
  mkChannelSpec "tail" (Some (AStreamSource
      (mkStreamSource "ORDERS" "orders.new" "" ConsumerConfig_zero)))
    (Some demo_decode) (Some demo_extract)].


(** On the quiet server the three channels come up, and nothing is left behind. *)
Example demo_start_unwind :
  let r1 := snd (start demo_channels demo_runtime) in
  fst (start demo_channels demo_runtime) = Done None /\
  size (live (rt_events r1)) = 4 /\ live (rt_events (snd (unwind r1))) = ∅.
Proof. intros r1. split_and!; unfold r1; vm_compute; reflexivity. Qed.

Lemma unwind_releases_witness :
  exists err r1, start demo_channels demo_runtime = (Done err, r1) /\
    forall r1', same_binding r1 r1' -> events_grow neutral r1 r1' ->
    exists r2, unwind r1' = (Done tt, r2) /\
      unwind_from (3 * length (rt_channels r1') + 4) UBegin r1' = unwind r1' /\
      (forall x, x ∈ live (rt_events r2) -> lookup_lost x) /\
      length (rt_channels r2) = length (rt_channels r1) /\
      unwind r2 = (Done tt, r2).
Proof.
  apply unwind_releases; [reflexivity|repeat constructor; done|reflexivity|reflexivity].
Defined.

End ChannelWitnesses.
