(* ===== verification/Callbacks.v ===== *)
(** * Callbacks one access at a time (dispatch.go, note.go, thinking.go, stream.go)

    What the goroutine of a message callback and that of a thinking function do, as
    programs over the accesses they make: one count, one record logged, one
    acknowledgement, one method call of user code on its context. Between two
    accesses the rest of the program runs. Run without interruption the programs
    are the pipelines of [Dispatch]. *)

From S2P Require Import Prelude Values Substrate Model Lifecycle Metrics Registry Runtime.
From S2P Require Import Request Dispatch Channels.

(** ** Programs: sequence and recover *)

Section Programs.
Context {E : Type -> Type}.

Fixpoint prog_bind {A B} (p : prog E A) (k : A -> prog E B) : prog E B :=
  match p with
  | Ret a => k a
  | Panic v => Panic v
  | Diverge => Diverge
  | Vis e j => Vis e (fun x => prog_bind (j x) k)
  end.

(** [defer func() { if r := recover(); r != nil { h(r) } }()] around a body. *)
Fixpoint catch {A} (p : prog E A) (h : any -> prog E A) : prog E A :=
  match p with
  | Ret a => Ret a
  | Panic v => h v
  | Diverge => Diverge
  | Vis e j => Vis e (fun x => catch (j x) h)
  end.

Definition of_result {A} (res : result A) : prog E A :=
  match res with
  | Done a => Ret a
  | Panicked v => Panic v
  | Blocked => Diverge
  end.

End Programs.

Declare Scope prog_scope.
Delimit Scope prog_scope with prog.
Notation "x <- p ;; q" := (prog_bind p (fun x => q))
  (at level 100, p at next level, right associativity) : prog_scope.
Notation "p ;; q" := (prog_bind p (fun _ => q))
  (at level 100, right associativity) : prog_scope.

Section Callbacks.
Context `{NatsEnv}.

(** ** The accesses *)

(** A count is of any counter but the gauge. A method called by user code answers
    its outcome: a panic inside it is for the callback to recover. *)
Inductive access : Type -> Type :=
| Count (c : counter) (Hc : c <> InflightThinking) : access unit
| Log (l : level) (msg : string) (attrs : list (string * any)) : access unit
| Ack (id : nat) : access error
| Nak (id : nat) : access error
| ByAwareness {X : Type} (e : both AwarenessContext StateRef_methods X) : access (result X)
| ByHook {X : Type} (e : HookEffects X) : access (result X)
| ByThinking {X : Type} (e : both ThinkingContext StateRef_methods X) : access (result X).

Definition attempt {A} (m : M A) : M (result A) := fun r =>
  match m r with
  | (Done a, r') => (Done (Done a), r')
  | (Panicked v, r') => (Done (Panicked v), r')
  | (Blocked, r') => (Blocked, r')
  end.

Definition access_handler (X : Type) (a : access X) : M X :=
  match a in access X return M X with
  | Count c _ => add_metric c 1
  | Log l msg attrs => log l msg attrs
  | Ack id => ask (CAck id) (fun h => env_Ack h id)
  | Nak id => ask (CNak id) (fun h => env_Nak h id)
  | ByAwareness e => attempt (awareness_handler _ e)
  | ByHook e => attempt (hook_handler _ e)
  | ByThinking e => attempt (thinking_handler _ e)
  end.

(** A user function, each of its method calls an access. *)
Fixpoint user {E : Type -> Type} {A} (by_ : forall X, E X -> access (result X)) (p : prog E A) :
    prog access A :=
  match p with
  | Ret a => Ret a
  | Panic v => Panic v
  | Diverge => Diverge
  | Vis e k => Vis (by_ _ e) (fun res => prog_bind (of_result res) (fun x => user by_ (k x)))
  end.

Notation tick c := (call (Count c ltac:(discriminate))).

Context (spec : ImpSpec).

(** ** The code *)

Open Scope prog_scope.

(** note.go *)
Definition invokeNote_steps (entity : Entity) (payload : any) : prog access unit :=
  match is_OnNote spec with
  | None => Ret tt
  | Some hook =>
      catch (user (@ByHook) (hook entity payload))
        (fun p =>
          tick AwarenessPanics ;;
          call (Log LError "note hook panic" [("entity", AString entity); ("recovered", p)]))
  end.

(** dispatch.go *)
Definition safeAwareness_steps (decoded : any) (entity : Entity) : prog access (Verdict * bool) :=
  catch
    (v <- match is_Awareness spec with
          | None => Panic nil_call
          | Some f => user (@ByAwareness) (f decoded entity)
          end ;;
     Ret (v, false))
    (fun p =>
      call (Log LError "awareness panic" [("entity", AString entity); ("recovered", p)]) ;;
      Ret (Verdict_zero, true)).

(** The [switch] on the verdict, up to the call of [launchThinking]: what that call
    is to launch. *)
Definition act_on_verdict_steps (entity : Entity) (verdict : Verdict) :
    prog access (option goroutine) :=
  if decide (vd_kind verdict = verdictIgnore) then
    tick IgnoredVerdicts ;; Ret None
  else if decide (vd_kind verdict = verdictNote) then
    tick NotesDelivered ;;
    invokeNote_steps entity (vd_payload verdict) ;;
    Ret None
  else if decide (vd_kind verdict = verdictThink) then
    tick ThinksDispatched ;;
    Ret (Some (mkGoroutine (vd_reason verdict) (vd_entity verdict)))
  else Ret None.

Definition dispatch_steps (ch : channelState) (msg : Message) :
    prog access (dispatchOutcome * option goroutine) :=
  de <- of_result (call_Decode ch msg) ;;
  match de with
  | (_, Some err) =>
      tick DecodeFailures ;;
      call (Log LWarn "decode failure" [("channel", AString (cs_Name (ch_spec ch)));
        ("subject", AString (m_Subject msg)); ("err", AError err)]) ;;
      Ret (dispatchDecodeFail, None)
  | (decoded, None) =>
      ee <- of_result (call_ExtractEntity ch decoded) ;;
      let '(entity, err) := ee in
      if bool_decide (err <> None) || bool_decide (entity = "") then
        tick ExtractionFailures ;;
        call (Log LWarn "extraction failure"
          [("channel", AString (cs_Name (ch_spec ch))); attr_err err]) ;;
        Ret (dispatchExtractFail, None)
      else
        va <- safeAwareness_steps decoded entity ;;
        let '(verdict, panicked) := va in
        if (panicked : bool) then
          tick AwarenessPanics ;;
          Ret (dispatchAwarenessPanic, None)
        else
          launch <- act_on_verdict_steps entity verdict ;;
          Ret (dispatchOK, launch)
  end.

(** stream.go *)
Definition nakAndLog_steps (msg : JsMsg) (ev channelName : string) (cause : error) :
    prog access unit :=
  e <- call (Nak (jm_id msg)) ;;
  match e with
  | Some err => call (Log LWarn "nak failed" [("channel", AString channelName);
                  ("event", AString ev); ("err", AError err)])
  | None => Ret tt
  end ;;
  call (Log LWarn ev [("channel", AString channelName); attr_err cause]).

Definition dispatchStream_steps (ch : channelState) (msg : JsMsg) :
    prog access (option goroutine) :=
  de <- of_result (call_Decode ch (jm_msg msg)) ;;
  match de with
  | (_, Some err) =>
      tick DecodeFailures ;;
      tick NakTotal ;;
      nakAndLog_steps msg "decode failure" (cs_Name (ch_spec ch)) (Some err) ;;
      Ret None
  | (decoded, None) =>
      ee <- of_result (call_ExtractEntity ch decoded) ;;
      let '(entity, err) := ee in
      if bool_decide (err <> None) || bool_decide (entity = "") then
        tick ExtractionFailures ;;
        tick NakTotal ;;
        nakAndLog_steps msg "extraction failure" (cs_Name (ch_spec ch)) err ;;
        Ret None
      else
        va <- safeAwareness_steps decoded entity ;;
        let '(verdict, panicked) := va in
        if (panicked : bool) then
          tick AwarenessPanics ;;
          tick NakTotal ;;
          call (Nak (jm_id msg)) ;;
          Ret None
        else
          ackerr <- call (Ack (jm_id msg)) ;;
          match ackerr with
          | Some err => call (Log LWarn "ack failed"
                          [("channel", AString (cs_Name (ch_spec ch))); ("err", AError err)])
          | None => Ret tt
          end ;;
          act_on_verdict_steps entity verdict
  end.

(** The callback of a message up to the launch, if there is one. *)
Definition deliver_steps (d : delivery) : prog access (option goroutine) :=
  match d with
  | OnSubject ch msg => res <- dispatch_steps ch msg ;; Ret (snd res)
  | OnStream ch msg => dispatchStream_steps ch msg
  end.

(** thinking.go: the goroutine up to the deferred gauge and wait group. *)
Definition thinking_steps (g : goroutine) : prog access unit :=
  catch
    (err <- match is_Thinking spec with
            | None => Panic nil_call
            | Some f => user (@ByThinking) (f (g_reason g) (g_entity g))
            end ;;
     match err with
     | Some e =>
         tick ThinkingErrors ;;
         call (Log LWarn "thinking error" [("entity", AString (g_entity g)); ("err", AError e)])
     | None => Ret tt
     end)
    (fun p =>
      tick ThinkingPanics ;;
      call (Log LError "thinking panic" [("entity", AString (g_entity g)); ("recovered", p)])).

Close Scope prog_scope.

(** thinking.go: the three accesses of [launchThinking], and the two deferred ones of
    the goroutine. *)
Definition launch_gauge : M unit := add_metric InflightThinking 1.
Definition launch_wg : M unit := modify (fun r => set_wg (rt_thinkingWG r + 1) r).
Definition launch_go (g : goroutine) : M unit :=
  emit (ELaunch (g_reason g) (g_entity g)) ;;
  modify (fun r => set_goroutines (rt_goroutines r ++ [g]) r).
Definition settle_gauge : M unit := add_metric InflightThinking (-1).
Definition settle_wg : M unit := modify (fun r => set_wg (rt_thinkingWG r - 1) r).

(** ** Without interruption *)

Lemma run_bind {A B} {E : Type -> Type} (h : forall X, E X -> M X) (p : prog E A)
    (k : A -> prog E B) r :
  run_prog h (prog_bind p k) r = bind (run_prog h p) (fun a => run_prog h (k a)) r.
Proof.
  revert r. induction p as [a|v| |X e j IH]; intros r; try done. simpl.
  unfold bind at 1 3. unfold bind at 1. destruct (h X e r) as [[x|v|] r']; [apply IH|done..].
Qed.

Lemma access_no_panic X (a : access X) r v r' : access_handler X a r <> (Panicked v, r').
Proof.
  destruct a; simpl; unfold attempt; try done;
    [destruct (awareness_handler _ _ _) as [[]]|destruct (hook_handler _ _ _) as [[]]
    |destruct (thinking_handler _ _ _) as [[]]]; done.
Qed.

Lemma run_catch {A} (p : prog access A) h r :
  run_prog access_handler (catch p h) r =
  recovering (run_prog access_handler p) (fun v => run_prog access_handler (h v)) r.
Proof.
  revert r. induction p as [a|v| |X e j IH]; intros r; try done. simpl.
  unfold recovering, bind. pose proof (access_no_panic X e r) as Hnp.
  destruct (access_handler X e r) as [[x|v|] r']; [apply IH|by destruct (Hnp v r')|done].
Qed.

(** A handler of user code with the access that makes its calls. *)
Lemma run_user {E : Type -> Type} {A} (by_ : forall X, E X -> access (result X))
    (h : forall X, E X -> M X) (p : prog E A) r :
  (forall X (e : E X), access_handler _ (by_ X e) = attempt (h X e)) ->
  run_prog access_handler (user by_ p) r = run_prog h p r.
Proof.
  intros Hh. revert r. induction p as [a|v| |X e k IH]; intros r; try done. simpl.
  rewrite Hh. unfold bind, attempt. destruct (h X e r) as [[x|v|] r']; try done. apply IH.
Qed.

Lemma recovering_ext {A} (m m' : M A) h h' r :
  (forall r, m r = m' r) -> (forall v r, h v r = h' v r) ->
  recovering m h r = recovering m' h' r.
Proof. intros Hm Hh. unfold recovering. rewrite Hm. by destruct (m' r) as [[]]. Qed.

Lemma safeAwareness_run decoded entity r :
  run_prog access_handler (safeAwareness_steps decoded entity) r =
  safeAwareness spec decoded entity r.
Proof.
  unfold safeAwareness_steps. rewrite run_catch. apply recovering_ext; [|done].
  intros r1. rewrite run_bind. unfold bind.
  destruct (is_Awareness spec) as [f|]; [|done]. by rewrite run_user with (h := awareness_handler).
Qed.

Lemma invokeNote_run entity payload r :
  run_prog access_handler (invokeNote_steps entity payload) r = invokeNote spec entity payload r.
Proof.
  unfold invokeNote_steps, invokeNote. destruct (is_OnNote spec) as [hook|]; [|done].
  rewrite run_catch. apply recovering_ext; [|done]. intros r1.
  by rewrite run_user with (h := hook_handler).
Qed.

(** What the [go] statement of a callback comes to. *)
Definition launching_of (launch : option goroutine) : M unit :=
  match launch with
  | Some g => launchThinking (g_reason g) (g_entity g)
  | None => ret tt
  end.

Lemma of_result_run {A} (res : result A) r :
  run_prog access_handler (of_result res) r = lift res r.
Proof. by destruct res. Qed.

(** The head of a program and the head of a computation that begin alike. *)
Lemma run_head {A B C} (p : prog access A) (k : A -> prog access B) (f : B -> M C)
    (m : M A) (g : A -> M C) r :
  (forall r, run_prog access_handler p r = m r) ->
  (forall a r, bind (run_prog access_handler (k a)) f r = g a r) ->
  bind (run_prog access_handler (prog_bind p k)) f r = bind m g r.
Proof.
  intros Hp Hk. unfold bind at 1. rewrite run_bind. unfold bind at 1 2. rewrite Hp.
  destruct (m r) as [[a|v|] r1]; [|done..]. apply Hk.
Qed.

(** A computation after which nothing is launched. *)
Lemma run_last (p : prog access unit) (m : M unit) r :
  (forall r, run_prog access_handler p r = m r) ->
  bind (run_prog access_handler (prog_bind p (fun _ => Ret None))) launching_of r = m r.
Proof.
  intros Hp. transitivity (bind m ret r); [by apply run_head; [|intros []]|].
  unfold bind. by destruct (m r) as [[[]|v|] r1].
Qed.

Lemma act_on_verdict_run entity v r :
  bind (run_prog access_handler (act_on_verdict_steps entity v)) launching_of r =
  act_on_verdict spec entity v r.
Proof.
  unfold act_on_verdict_steps, act_on_verdict. case_decide; [done|].
  case_decide; [|by case_decide]. apply run_head; [done|]. intros _ r1.
  apply run_last, invokeNote_run.
Qed.

Lemma dispatch_run ch msg r :
  bind (run_prog access_handler (dispatch_steps ch msg))
    (fun '(o, launch) => launching_of launch ;; ret o) r =
  dispatch spec ch msg r.
Proof.
  apply run_head; [apply of_result_run|]. intros [decoded [err|]] r1; [done|].
  apply run_head; [apply of_result_run|]. intros [entity err] r2. destruct (_ || _); [done|].
  apply run_head; [apply safeAwareness_run|]. intros [verdict []] r3; [done|].
  transitivity (bind (bind (run_prog access_handler (act_on_verdict_steps entity verdict))
    launching_of) (fun _ => ret dispatchOK) r3).
  - rewrite bind_assoc_run. by apply run_head.
  - unfold bind at 1. by rewrite act_on_verdict_run.
Qed.

Lemma nakAndLog_run msg ev name cause r :
  run_prog access_handler (nakAndLog_steps msg ev name cause) r =
  nakAndLog msg ev name cause r.
Proof.
  unfold nakAndLog_steps, nakAndLog. simpl. unfold bind, ask. by destruct (env_Nak _ _).
Qed.

Lemma dispatchStream_run ch msg r :
  bind (run_prog access_handler (dispatchStream_steps ch msg)) launching_of r =
  dispatchStream spec ch msg r.
Proof.
  apply run_head; [apply of_result_run|]. intros [decoded [err|]] r1.
  { do 2 (apply run_head; [done|]; intros _ ?). apply run_last, nakAndLog_run. }
  apply run_head; [apply of_result_run|]. intros [entity err] r2. destruct (_ || _).
  { do 2 (apply run_head; [done|]; intros _ ?). apply run_last, nakAndLog_run. }
  apply run_head; [apply safeAwareness_run|]. intros [verdict []] r3; [done|].
  apply run_head; [done|]. intros ackerr r4.
  apply run_head; [|intros _ r5; apply act_on_verdict_run]. by destruct ackerr.
Qed.

Lemma deliver_run d r :
  bind (run_prog access_handler (deliver_steps d)) launching_of r = deliver spec d r.
Proof.
  destruct d as [ch msg|ch msg]; [|apply dispatchStream_run]. simpl.
  transitivity (bind (bind (run_prog access_handler (dispatch_steps ch msg))
    (fun '(o, launch) => launching_of launch ;; ret o)) (fun _ => ret tt) r).
  - rewrite bind_assoc_run. apply run_head; [done|]. intros [o [g|]] r1; [|done].
    done.
  - unfold bind at 1. by rewrite dispatch_run.
Qed.

Lemma deferring_ext c (m m' : M unit) r :
  (forall r, m r = m' r) -> deferring c m r = deferring c m' r.
Proof. intros Hm. unfold deferring. by rewrite Hm. Qed.

Lemma thinking_run g r :
  deferring settle_wg (deferring settle_gauge (run_prog access_handler (thinking_steps g))) r =
  thinking_goroutine spec g r.
Proof.
  do 2 (apply deferring_ext; clear r; intros r). unfold thinking_steps. rewrite run_catch.
  apply recovering_ext; [|done]. intros r1. rewrite run_bind. unfold bind.
  assert (forall r, run_prog access_handler (match is_Thinking spec with
    | None => Panic nil_call
    | Some f => user (@ByThinking) (f (g_reason g) (g_entity g))
    end) r = match is_Thinking spec with
    | None => panic nil_call
    | Some f => run_prog thinking_handler (f (g_reason g) (g_entity g))
    end r) as Hf.
  { intros r2. destruct (is_Thinking spec); [|done].
    by rewrite run_user with (h := thinking_handler). }
  rewrite Hf. destruct (_ r1) as [[[err|]|v|] r2]; done.
Qed.

(** ** Frames of one access *)

Ltac thinking_methods :=
  unfold thinkingCtx_State, thinkingCtx_Publish, thinkingCtx_InFlight, thinkingCtx_Conn,
    thinkingCtx_Request, thinkingCtx_RequestMany, requestSingle, requestMany, StateRef_handler.

(** A field that reads none of what handling a message writes. *)
Record handling_blind {X} (f : runtime -> X) : Prop := {
  hb_registry x r : f (set_registry x r) = f r;
  hb_metrics x r : f (set_metrics x r) = f r;
  hb_wg x r : f (set_wg x r) = f r;
  hb_goroutines x r : f (set_goroutines x r) = f r;
  hb_log x r : f (set_log x r) = f r;
  hb_events x r : f (set_events x r) = f r }.

Lemma thinking_handler_frame {X} (f : runtime -> X) Y (e : both ThinkingContext StateRef_methods Y) :
  handling_blind f -> preserves (unchanged f) (thinking_handler Y e).
Proof.
  intros Hblind.
  assert (forall A (g : registry -> result A * registry), preserves (unchanged f) (on_registry g))
    by (intros; apply on_registry_unchanged; apply Hblind).
  assert (forall c d, preserves (unchanged f) (add_metric c d)) by (intros ?? ?; apply Hblind).
  assert (forall l m a, preserves (unchanged f) (log l m a)) by (intros ??? ?; apply Hblind).
  assert (forall A ev (g : list event -> A), preserves (unchanged f) (ask ev g))
    by (intros ??? ?; apply Hblind).
  destruct e as [[name entity|subject payload| | |subject payload opts|subject payload opts]
    |[s|s v|s fn]]; simpl;
    thinking_methods; auto; frame; auto.
Qed.

(** No event of user code opens or closes a resource. *)
Lemma neutral_grow (P : event -> Prop) {A} (m : M A) :
  (forall e, P e -> neutral e) -> preserves (events_grow P) m -> preserves (events_grow neutral) m.
Proof. intros HP Hm r. by eapply events_grow_weaken; [|apply Hm]. Qed.

Lemma thinking_events X (e : both ThinkingContext StateRef_methods X) :
  preserves (events_grow outbound) (thinking_handler X e).
Proof.
  destruct e as [[name entity|subject payload| | |subject payload opts|subject payload opts]
    |[s|s v|s fn]]; simpl;
    thinking_methods; frame; done.
Qed.

Lemma attempt_frame (R : relation runtime) {A} (m : M A) :
  preserves R m -> preserves R (attempt m).
Proof.
  intros Hm r. specialize (Hm r). unfold attempt. by destruct (m r) as [[a|v|] r'].
Qed.

Lemma access_frame {X} (f : runtime -> X) Y (a : access Y) :
  handling_blind f -> preserves (unchanged f) (access_handler Y a).
Proof.
  intros Hf. destruct a; simpl; try (intros r; apply Hf); apply attempt_frame.
  - apply awareness_frame; apply Hf.
  - destruct e; intros r; apply Hf.
  - by apply thinking_handler_frame.
Qed.

(** The gauge, the wait group and the goroutines belong to the launch. *)
Lemma access_launches_nothing Y (a : access Y) :
  preserves (unchanged (fun r => (rt_goroutines r, rt_thinkingWG r, rt_metrics r InflightThinking)))
    (access_handler Y a).
Proof.
  assert (forall A (m : M A) cs, InflightThinking ∉ cs ->
    preserves (unchanged rt_goroutines) m -> preserves (unchanged rt_thinkingWG) m ->
    preserves (counts cs) m -> preserves (unchanged (fun r =>
      (rt_goroutines r, rt_thinkingWG r, rt_metrics r InflightThinking))) m) as Hthree.
  { intros A m cs Hcs Hg Hw Hc r. unfold unchanged in *. by rewrite Hg, Hw, (Hc r _ Hcs). }
  destruct a; simpl; try (intros r; reflexivity).
  - intros r. unfold unchanged; simpl. by rewrite Add_ne by congruence.
  - apply attempt_frame, (Hthree _ _ request_counters); [set_solver| | |apply awareness_counts];
      by apply awareness_frame.
  - apply attempt_frame. destruct e; by intros r.
  - apply attempt_frame, (Hthree _ _ request_counters); [set_solver| | |].
    + destruct e as [[]|[]]; simpl;
        thinking_methods; frame.
    + apply thinking_handler_wg.
    + apply thinking_handler_counts.
Qed.

Lemma access_neutral Y (a : access Y) : preserves (events_grow neutral) (access_handler Y a).
Proof.
  destruct a; simpl; try (frame; done); apply attempt_frame.
  - eapply neutral_grow, awareness_events. by intros [].
  - eapply neutral_grow, hook_events. by intros [].
  - eapply neutral_grow, thinking_events. by intros [].
Qed.

End Callbacks.
