(* ===== verification/Imp.v ===== *)
(** * The imp handle (imp.go, options.go)

    Construction, the boot of the runtime, the phases of [Run] and [Shutdown],
    and the observers. The blocking points of the two are where other goroutines
    run; [System] interleaves the phases defined here, and [Run] and [Shutdown]
    below compose them for a goroutine that runs alone. *)

From stdpp Require Import gmultiset.
From S2P Require Import Prelude Values Substrate Model Validate Lifecycle Metrics Registry.
From S2P Require Import Runtime Request Dispatch GoTime Consumer Channels.

Definition nil_dereference : any := AString "invalid memory address or nil pointer dereference".

Section Imp.
Context `{NatsEnv}.

(** [Imp]; the connection is the substrate. [imp_rtOnce] is true once the once
    has run, and [imp_rtPtr] is the pointer it may have stored. *)
Record Imp := mkImp {
  imp_spec : ImpSpec;
  imp_opts : runtimeOptions;
  imp_rtOnce : bool;
  imp_rtPtr : option runtime }.

(** [nc] is whether the connection is non-nil. *)
Definition NewImp (spec : ImpSpec) (nc : bool) (opts : list Option) : option Imp * error :=
  if nc then
    match validateSpec spec with
    | Some err => (None, Some err)
    | None =>
        let o := apply_options opts defaultRuntimeOptions in
        (Some (mkImp spec o false None), None)
    end
  else (None, Some (ErrConfigInvalid "nats.Conn" "nil")).

(** The runtime that [bootRuntime] installs. *)
Definition fresh_runtime (i : Imp) : runtime :=
  {| rt_registry := newRegistry (is_States (imp_spec i));
     rt_metrics := newMetrics;
     rt_logger := newLogger (logHandler (imp_opts i));
     rt_awareness := mkAwarenessCtx (defaultRequestTimeout (imp_opts i));
     rt_thinking := mkThinkingCtx (defaultRequestTimeout (imp_opts i))
       (defaultRequestManyWindow (imp_opts i));
     rt_thinkingCancelled := false;
     rt_thinkingWG := 0;
     rt_channels := [];
     rt_js := false;
     rt_streams := [];
     rt_state := New;
     rt_identity := mkImpIdentity (is_Name (imp_spec i)) (is_Version (imp_spec i));
     rt_shutdownOnce := false;
     rt_shutdownErr := None;
     rt_stopped := false;
     rt_log := []; rt_events := []; rt_goroutines := [] |}.

Definition bootRuntime (i : Imp) : error * Imp :=
  if imp_rtOnce i then (None, i)
  else if (defaultRequestTimeout (imp_opts i) <=? 0)%Z then
    (Some (ErrConfigInvalid "default_request_timeout" "non-positive"),
     mkImp (imp_spec i) (imp_opts i) true (imp_rtPtr i))
  else if (defaultRequestManyWindow (imp_opts i) <=? 0)%Z then
    (Some (ErrConfigInvalid "default_request_many_window" "non-positive"),
     mkImp (imp_spec i) (imp_opts i) true (imp_rtPtr i))
  else (None, mkImp (imp_spec i) (imp_opts i) true (Some (fresh_runtime i))).

(** Running against the runtime behind the pointer. *)
Definition set_runtime (r : runtime) (i : Imp) : Imp :=
  mkImp (imp_spec i) (imp_opts i) (imp_rtOnce i) (Some r).
Definition on_runtime {A} (m : M A) (i : Imp) : result A * Imp :=
  match imp_rtPtr i with
  | Some r => let (res, r') := m r in (res, set_runtime r' i)
  | None => (Panicked nil_dereference, i)
  end.

(** ** The phases of [Run] *)

Definition set_lifecycle (s : State) : M unit :=
  modify (fun r => set_state (snd (Machine_Set s (rt_state r))) r).

(** The compare-and-swap, and the error of a second [Run]. *)
Definition run_claim : M error :=
  state <- gets rt_state ;;
  let (swapped, state') := Machine_CompareAndSwap StateCreated StateStarting state in
  modify (set_state state') ;;
  if (swapped : bool) then ret None
  else
    s <- gets rt_state ;;
    ret (Some (ErrorsNew ("imps: Run already invoked (state " +:+
                 State_String (Machine_Get s) +:+ ")"))).

Definition run_failed (err : goerror) : M unit :=
  set_lifecycle StateFailed ;;
  log LError "startup failed" [("err", AError err)].

Definition run_ready (spec : ImpSpec) : M unit :=
  set_lifecycle StateRunning ;;
  log LInfo "imp ready"
    [("name", AString (is_Name spec)); ("version", AString (is_Version spec))].

(** ** The phases of [Shutdown] *)

(** [shutdownOnce.Do]: whether this caller runs the body, and its first phase. *)
Definition shutdown_begin (o : runtimeOptions) : M bool :=
  once <- gets rt_shutdownOnce ;;
  if (once : bool) then ret false
  else
    modify (fun r => set_shutdown true (rt_shutdownErr r) (rt_stopped r) r) ;;
    set_lifecycle StateDraining ;;
    log LInfo "imp shutdown begin"
      [("drain_window", AString (Duration_String (drainWindow o)))] ;;
    ret true.

Definition thinkingCancel : M unit := modify (set_cancelled true).

Definition drain_error : goerror :=
  ErrorsJoin (Sentinel ContextDeadlineExceeded) (ErrorsNew "imps: drain window exceeded").

(** The select of [waitDrain]. The wait group's arm is there once the group is at
    zero, the timer's once the window is over; [elapsed] is whether the timer's
    arm is the one taken. Neither arm is there while thinking runs within the
    window. *)
Definition waitDrain (elapsed : bool) : M error :=
  if elapsed then
    pending <- gets (fun r => rt_metrics r InflightThinking) ;;
    log LWarn "drain deadline exceeded" [("pending_thinking", AInt pending)] ;;
    ret (Some drain_error)
  else
    wg <- gets rt_thinkingWG ;;
    if decide (wg = 0%Z) then ret None else block.

Definition set_shutdownErr (e : error) : M unit :=
  modify (fun r => set_shutdown (rt_shutdownOnce r) e (rt_stopped r) r).

Definition shutdown_stopped : M unit :=
  set_lifecycle StateStopped ;;
  pending <- gets (fun r => rt_metrics r InflightThinking) ;;
  log LInfo "imp shutdown end" [("pending_thinking", AInt pending)].

Definition close_stopped : M unit :=
  modify (fun r => set_shutdown (rt_shutdownOnce r) (rt_shutdownErr r) true r).

(** [<-rt.stopped] and the result. *)
Definition shutdown_join : M error :=
  stopped <- gets rt_stopped ;;
  if (stopped : bool) then gets rt_shutdownErr else block.

(** ** The two calls, run alone *)

Definition shutdown_body (o : runtimeOptions) (elapsed : bool) : M error :=
  first <- shutdown_begin o ;;
  (if (first : bool) then
     unwind ;;
     thinkingCancel ;;
     err <- waitDrain elapsed ;;
     set_shutdownErr err ;;
     shutdown_stopped ;;
     close_stopped
   else ret tt) ;;
  shutdown_join.

Definition Shutdown (elapsed : bool) (i : Imp) : result error * Imp :=
  match imp_rtPtr i with
  | None => (Done None, i)
  | Some _ => on_runtime (shutdown_body (imp_opts i) elapsed) i
  end.

(** [Run] up to its final select. [inl e] is a return, [inr tt] the select. *)
Definition run_startup (spec : ImpSpec) : M (error + unit) :=
  claim <- run_claim ;;
  match claim with
  | Some err => ret (inl (Some err))
  | None =>
      err <- start (is_Channels spec) ;;
      match err with
      | Some err => run_failed err ;; unwind ;; ret (inl (Some err))
      | None => run_ready spec ;; ret (inr tt)
      end
  end.

(** The context's arm of the select; its other arm is [shutdown_join]. *)
Definition Run (elapsed : bool) (i : Imp) : result error * Imp :=
  let (err, i) := bootRuntime i in
  match err with
  | Some err => (Done (Some err), i)
  | None =>
      match on_runtime (run_startup (imp_spec i)) i with
      | (Done (inl err), i) => (Done err, i)
      | (Done (inr _), i) => Shutdown elapsed i
      | (Panicked v, i) => (Panicked v, i)
      | (Blocked, i) => (Blocked, i)
      end
  end.

(** ** Observers *)

Definition Identity (i : Imp) : ImpIdentity :=
  match imp_rtPtr i with
  | Some r => rt_identity r
  | None => mkImpIdentity (is_Name (imp_spec i)) (is_Version (imp_spec i))
  end.

Definition Ready (i : Imp) : bool :=
  match imp_rtPtr i with
  | None => false
  | Some r => bool_decide (Machine_Get (rt_state r) = StateRunning)
  end.

(** The method [Metrics] of the handle. *)
Definition Imp_Metrics (i : Imp) : Metrics :=
  match imp_rtPtr i with
  | None => Metrics_zero
  | Some r => snapshot (rt_metrics r)
  end.

(** ** Lemmas *)

Lemma unwind_keeps {X} (f : runtime -> X) r r' :
  binding_blind f -> unwind r = (Done tt, r') -> f r' = f r.
Proof.
  intros Hb Hu. pose proof (unwind_frame f Hb r) as Hf. by rewrite Hu in Hf.
Qed.

Lemma start_keeps {X} (f : runtime -> X) chs r e r' :
  binding_blind f -> start chs r = (Done e, r') -> f r' = f r.
Proof.
  intros Hb Hs. pose proof (start_frame f Hb chs r) as Hf. by rewrite Hs in Hf.
Qed.

(** The state after the first phase of [Shutdown]. *)
Definition begun (o : runtimeOptions) (r : runtime) : runtime :=
  set_log (rt_log r ++ [mkLog LInfo "imp shutdown begin"
      [("drain_window", AString (Duration_String (drainWindow o)))]])
    (set_state (mkMachine StateDraining)
      (set_shutdown true (rt_shutdownErr r) (rt_stopped r) r)).

Lemma shutdown_begin_first o r :
  rt_shutdownOnce r = false -> shutdown_begin o r = (Done true, begun o r).
Proof.
  intros Ho. unfold shutdown_begin, gets. unfold bind at 1. by rewrite Ho.
Qed.

(** The body of [Shutdown] for its first caller. *)
Lemma shutdown_body_first o elapsed lost r :
  rt_shutdownOnce r = false -> balanced lost r -> all_lost lost ->
  (elapsed = false -> rt_thinkingWG r = 0%Z) ->
  exists r' lost', shutdown_body o elapsed r =
      (Done (if elapsed then Some drain_error else None), r') /\
    Machine_Get (rt_state r') = StateStopped /\ rt_thinkingCancelled r' = true /\
    Forall quiet (rt_channels r') /\ balanced lost' r' /\ all_lost lost' /\
    rt_identity r' = rt_identity r /\ rt_metrics r' = rt_metrics r.
Proof.
  intros Ho Hb Hl Hw. unfold shutdown_body.
  set (r1 := begun o r). rewrite (bind_Done _ _ _ _ _ (shutdown_begin_first o r Ho)).
  fold r1. assert (balanced lost r1) as Hb1 by by destruct Hb.
  destruct (unwind_settles lost r1 Hb1 Hl) as (r2 & lost' & Hu & Hq & Hl' & Hb2 & _).
  assert (forall X (f : runtime -> X), binding_blind f -> f r2 = f r1) as Hk
    by (intros; by eapply unwind_keeps).
  unfold bind at 1. rewrite (bind_Done _ _ _ _ _ Hu).
  exists (set_log (rt_log r2 ++
      (if elapsed then [mkLog LWarn "drain deadline exceeded"
         [("pending_thinking", AInt (rt_metrics r InflightThinking))]] else []) ++
      [mkLog LInfo "imp shutdown end"
         [("pending_thinking", AInt (rt_metrics r InflightThinking))]])
    (set_state (mkMachine StateStopped)
      (set_shutdown true (if elapsed then Some drain_error else None) true
        (set_cancelled true r2)))), lost'.
  assert (rt_metrics r2 = rt_metrics r) as Hm by by apply (Hk _ rt_metrics).
  assert (rt_thinkingWG r2 = rt_thinkingWG r) as Hwg by by apply (Hk _ rt_thinkingWG).
  assert (rt_shutdownOnce r2 = true) as Hon by by apply (Hk _ rt_shutdownOnce).
  split.
  - unfold waitDrain, thinkingCancel, set_shutdownErr, shutdown_stopped, close_stopped,
      shutdown_join, set_lifecycle, modify, gets, log, bind, ret; simpl.
    destruct elapsed; simpl.
    + rewrite Hm, Hon, <- app_assoc. by destruct r2.
    + rewrite decide_True by (rewrite Hwg; auto). simpl. rewrite Hm, Hon. by destruct r2.
  - split_and!; try done; [by destruct Hb2|by apply (Hk _ rt_identity)].
Qed.

Lemma shutdown_body_again o elapsed r :
  rt_shutdownOnce r = true -> rt_stopped r = true ->
  shutdown_body o elapsed r = (Done (rt_shutdownErr r), r).
Proof.
  intros Ho Hs. unfold shutdown_body, shutdown_begin, gets, bind at 1 2. rewrite Ho.
  unfold bind, ret, shutdown_join, gets. unfold bind. by rewrite Hs.
Qed.

(** A body that returned has run the once and closed [stopped]. *)
Lemma shutdown_body_done o elapsed r e r' :
  shutdown_body o elapsed r = (Done e, r') ->
  rt_shutdownOnce r' = true /\ rt_stopped r' = true /\ rt_shutdownErr r' = e.
Proof.
  intros Hrun. destruct (rt_shutdownOnce r) eqn:Ho.
  - unfold shutdown_body, shutdown_begin, gets, bind at 1 2 in Hrun. rewrite Ho in Hrun.
    unfold bind, ret, shutdown_join, gets, block, bind in Hrun.
    destruct (rt_stopped r) eqn:Hs; [|done]. by injection Hrun as <- <-.
  - unfold shutdown_body in Hrun.
    rewrite (bind_Done _ _ _ _ _ (shutdown_begin_first o r Ho)) in Hrun.
    unfold bind in Hrun at 1 2. destruct (unwind (begun o r)) as [[[]|v|] r2] eqn:Hu; try done.
    assert (rt_shutdownOnce r2 = true) as Hon
      by by rewrite (unwind_keeps rt_shutdownOnce _ _ ltac:(done) Hu).
    unfold waitDrain, thinkingCancel, set_shutdownErr, shutdown_stopped, close_stopped,
      shutdown_join, set_lifecycle, modify, gets, log, block, bind, ret in Hrun; simpl in Hrun.
    destruct elapsed; simpl in Hrun; [by injection Hrun as <- <-|].
    case_decide; [by injection Hrun as <- <-|done].
Qed.

(** What [Run] leaves when nobody else runs. *)
Definition start_result (i : Imp) : result error :=
  fst (start (is_Channels (imp_spec i)) (set_state (mkMachine StateStarting) (fresh_runtime i))).

Lemma run_startup_alone `{!ServerLaws} i :
  validateSpec (imp_spec i) = None -> Forall channel_ints (is_Channels (imp_spec i)) ->
  exists res r' lost, run_startup (imp_spec i) (fresh_runtime i) = (Done res, r') /\
    balanced lost r' /\ all_lost lost /\ rt_thinkingWG r' = 0%Z /\ rt_shutdownOnce r' = false /\
    rt_identity r' = rt_identity (fresh_runtime i) /\
    match res with
    | inl (Some e) => start_result i = Done (Some e) /\ Forall quiet (rt_channels r') /\
        Machine_Get (rt_state r') = StateFailed
    | inl None => False
    | inr _ => start_result i = Done None /\ Machine_Get (rt_state r') = StateRunning
    end.
Proof.
  intros Hv Hint. apply validateSpec_channels in Hv as [_ Hok]%validateChannels_ok.
  set (r0 := set_state (mkMachine StateStarting) (fresh_runtime i)).
  assert (balanced ∅ r0) as Hb0 by (split; [done|constructor]).
  destruct (start_prefix _ Hok Hint ∅ r0 Hb0) as (err & r1 & _ & _ & Hs & Hb1 & _).
  unfold run_startup.
  rewrite (bind_Done _ _ _ None r0) by reflexivity. cbv beta iota.
  rewrite (bind_Done _ _ _ _ _ Hs).
  assert (forall X (f : runtime -> X), binding_blind f -> f r1 = f r0) as Hk
    by (intros; by eapply start_keeps).
  assert (start_result i = Done err) as Hres by (unfold start_result; fold r0; by rewrite Hs).
  destruct err as [e|].
  - set (r2 := snd (run_failed e r1)).
    rewrite (bind_Done _ _ _ tt r2) by reflexivity.
    assert (balanced ∅ r2) as Hb2 by by destruct Hb1.
    destruct (unwind_settles ∅ r2 Hb2 all_lost_empty) as (r3 & lost & Hu & Hq & Hl & Hb3 & _).
    rewrite (bind_Done _ _ _ _ _ Hu).
    assert (forall X (f : runtime -> X), binding_blind f -> f r3 = f r2) as Hk3
      by (intros; by eapply unwind_keeps).
    exists (inl (Some e)), r3, lost. split_and!; try done.
    + rewrite (Hk3 _ rt_thinkingWG) by done. by apply (Hk _ rt_thinkingWG).
    + rewrite (Hk3 _ rt_shutdownOnce) by done. by apply (Hk _ rt_shutdownOnce).
    + rewrite (Hk3 _ rt_identity) by done. by apply (Hk _ rt_identity).
    + by rewrite (Hk3 _ rt_state).
  - eexists (inr tt), _, ∅. split; [done|].
    split_and!; [by destruct Hb1|exact all_lost_empty|by apply (Hk _ rt_thinkingWG)|
      by apply (Hk _ rt_shutdownOnce)|by apply (Hk _ rt_identity)|done|done].
Qed.

(** ** Properties *)

(** [NewImp] hands out an imp exactly for a non-nil connection and a
    well-formed spec, and otherwise the error of the first check that fails, the
    connection first. The imp it hands out has not started: it is not ready, its
    counters read zero, it has the spec's identity, shutting it down returns nil
    at once without changing it, and its options are the defaults overridden in
    order. *)
Lemma NewImp_spec spec nc opts :
  match NewImp spec nc opts with
  | (Some i, err) =>
      err = None /\ nc = true /\ spec_ok spec /\ imp_spec i = spec /\
      imp_opts i = apply_options opts defaultRuntimeOptions /\
      Ready i = false /\ Imp_Metrics i = Metrics_zero /\
      Identity i = mkImpIdentity (is_Name spec) (is_Version spec) /\
      (forall elapsed, Shutdown elapsed i = (Done None, i))
  | (None, err) =>
      (nc = false /\ err = Some (ErrConfigInvalid "nats.Conn" "nil")) \/
      (nc = true /\ ~ spec_ok spec /\ err = validateSpec spec /\ err <> None)
  end.
Proof.
  unfold NewImp. destruct nc; [|by left]. destruct (validateSpec spec) as [e|] eqn:Hv; simpl.
  - right. split_and!; try done. intros Hok. apply validateSpec_ok in Hok. congruence.
  - apply validateSpec_ok in Hv. by split_and!.
Qed.

(** The error of a runtime option that is out of range. *)
Definition options_error (o : runtimeOptions) : error :=
  if decide (defaultRequestTimeout o <= 0)%Z then
    Some (ErrConfigInvalid "default_request_timeout" "non-positive")
  else if decide (defaultRequestManyWindow o <= 0)%Z then
    Some (ErrConfigInvalid "default_request_many_window" "non-positive")
  else None.

Lemma bootRuntime_first i :
  imp_rtOnce i = false -> imp_rtPtr i = None ->
  bootRuntime i =
    (options_error (imp_opts i),
     mkImp (imp_spec i) (imp_opts i) true
       (if options_error (imp_opts i) then None else Some (fresh_runtime i))).
Proof.
  intros Ho Hp. unfold bootRuntime, options_error. rewrite Ho, Hp.
  destruct (Z.leb_spec (defaultRequestTimeout (imp_opts i)) 0);
    [by rewrite decide_True by lia|]. rewrite decide_False by lia.
  destruct (Z.leb_spec (defaultRequestManyWindow (imp_opts i)) 0);
    [by rewrite decide_True by lia|]. by rewrite decide_False by lia.
Qed.


(** [Shutdown] is idempotent: once a call has returned, every later call
    returns the same error and changes nothing, whatever its timer does. *)
Lemma Shutdown_idempotent i elapsed err i' elapsed' :
  Shutdown elapsed i = (Done err, i') -> Shutdown elapsed' i' = (Done err, i').
Proof.
  unfold Shutdown at 1. destruct (imp_rtPtr i) as [r|] eqn:Hp.
  2:{ intros [= <- <-]. unfold Shutdown. by rewrite Hp. }
  unfold on_runtime. rewrite Hp.
  destruct (shutdown_body (imp_opts i) elapsed r) as [res r'] eqn:Hrun.
  intros [= -> <-]. apply shutdown_body_done in Hrun as (Ho & Hs & He).
  unfold Shutdown, on_runtime; simpl. rewrite shutdown_body_again by done. by rewrite He.
Qed.

(** A second [Run] after one that refused its options dereferences the
    runtime that was never installed: the once is spent, so the second boot
    reports no error. *)
Lemma second_Run_panics i elapsed err i' elapsed' :
  imp_rtOnce i = false -> imp_rtPtr i = None -> options_error (imp_opts i) = Some err ->
  Run elapsed i = (Done (Some err), i') ->
  Run elapsed' i' = (Panicked nil_dereference, i').
Proof.
  intros Ho Hp Herr. unfold Run at 1. rewrite bootRuntime_first, Herr by done.
  by intros [= <-].
Qed.

End Imp.

(** ** Witnesses *)

Section ImpWitnesses.
Import Demo.

Definition demo_full_spec : ImpSpec :=
  mkImpSpec "echo" "0.1.0" demo_channels (is_Awareness demo_spec) (is_Thinking demo_spec)
    [mkStateShape "convo" (Some (fun _ => Done ANil)) 8] None.
Definition demo_imp (o : runtimeOptions) : Imp := mkImp demo_full_spec o false None.


End ImpWitnesses.
