(* ===== verification/System.v ===== *)
(** * The running system (imp.go with its goroutines)

    The goroutines of a program that uses one imp: callers of [Run] and
    [Shutdown], message callbacks and thinking functions. Each is a [thread] at
    the point of its code it has reached; one step takes one thread from there to
    its next point, through the phases of [Imp], and a schedule is any sequence of
    steps, calls and arrivals. Message callbacks and thinking functions take a step
    for each access of [Callbacks], so the rest of the program runs between any two
    calls they make; one that hangs has no step. *)

From stdpp Require Import gmultiset.
From S2P Require Import Prelude Values Substrate Model Validate Lifecycle Metrics Registry.
From S2P Require Import Runtime Request Dispatch GoTime Consumer Channels Callbacks Imp.

Section System.
Context `{NatsEnv}.

(** ** The code *)

(** Where a goroutine is. The results of [Run] and [Shutdown] are told apart by
    the return they come from. *)
Inductive thread :=
| TRunBoot
| TRunClaim
| TRunStart (rest : list ChannelSpec)
| TRunFailed (err : goerror)
| TRunUnwind (u : unwinding) (err : goerror)
| TRunReady
| TRunSelect
| TShutBegin
| TShutUnwind (u : unwinding)
| TShutCancel
| TShutDrain
| TShutStop (err : error)
| TShutClose
| TShutJoin
| TDeliver (d : delivery) (rest : prog access (option goroutine))
| TLaunchWG (g : goroutine)        (* in launchThinking, past the gauge *)
| TLaunchGo (g : goroutine)        (* past the wait group, before [go] *)
| TThink (g : goroutine) (rest : prog access unit)
| TThinkWG (g : goroutine)         (* past the deferred gauge *)
| TReturned (err : error)       (* before anything was started *)
| TStartReturned (err : goerror)
| TShutReturned (err : error)
| TDone.

(** One step of a thread against the runtime. [ctxDone] is whether the context
    given to [Run] is over, and [pick] resolves a select whose arms are both
    there. A thread that cannot go on is [Blocked]. *)
Definition thread_action (spec : ImpSpec) (o : runtimeOptions) (ctxDone pick : bool)
    (t : thread) : M thread :=
  match t with
  | TRunClaim =>
      claim <- run_claim ;;
      ret (match claim with
           | Some err => TReturned (Some err)
           | None => TRunStart (is_Channels spec)
           end)
  | TRunStart [] => ret TRunReady
  | TRunStart (ch :: rest) =>
      err <- start [ch] ;;
      ret (match err with Some err => TRunFailed err | None => TRunStart rest end)
  | TRunFailed err => run_failed err ;; ret (TRunUnwind UBegin err)
  | TRunUnwind u err =>
      next <- unwind_step u ;;
      ret (match next with Some u' => TRunUnwind u' err | None => TStartReturned err end)
  | TRunReady => run_ready spec ;; ret TRunSelect
  | TRunSelect =>
      if ctxDone && pick then ret TShutBegin
      else err <- shutdown_join ;; ret (TShutReturned err)
  | TShutBegin =>
      first <- shutdown_begin o ;; ret (if (first : bool) then TShutUnwind UBegin else TShutJoin)
  | TShutUnwind u =>
      next <- unwind_step u ;;
      ret (match next with Some u' => TShutUnwind u' | None => TShutCancel end)
  | TShutCancel => thinkingCancel ;; ret TShutDrain
  | TShutDrain => err <- waitDrain pick ;; ret (TShutStop err)
  | TShutStop err => set_shutdownErr err ;; shutdown_stopped ;; ret TShutClose
  | TShutClose => close_stopped ;; ret TShutJoin
  | TShutJoin => err <- shutdown_join ;; ret (TShutReturned err)
  | TDeliver d (Vis e k) => x <- access_handler _ e ;; ret (TDeliver d (k x))
  | TDeliver _ (Ret (Some g)) => launch_gauge ;; ret (TLaunchWG g)
  | TDeliver _ (Ret None) => ret TDone
  | TDeliver _ (Panic v) | TThink _ (Panic v) => panic v
  | TDeliver _ Diverge | TThink _ Diverge => block
  | TLaunchWG g => launch_wg ;; ret (TLaunchGo g)
  | TLaunchGo g => launch_go g ;; ret TDone
  | TThink g (Vis e k) => x <- access_handler _ e ;; ret (TThink g (k x))
  | TThink g (Ret _) => settle_gauge ;; ret (TThinkWG g)
  | TThinkWG _ => settle_wg ;; ret TDone
  | TRunBoot | TReturned _ | TStartReturned _ | TShutReturned _ | TDone => block
  end.

(** The goroutine of a callback, and the one a [go] statement starts. *)
Definition arrived_thread (spec : ImpSpec) (d : delivery) : thread :=
  TDeliver d (deliver_steps spec d).
Definition started (spec : ImpSpec) (g : goroutine) : thread := TThink g (thinking_steps spec g).

Inductive stepped :=
| Stuck
| Crashed
| Next (t : thread) (spawned : list thread) (i : Imp).

(** The two calls look at the runtime pointer first; the other threads go through
    it, and only a [Run] whose boot was spent earlier can find none. An unrecovered
    panic ends the program. *)
Definition thread_step (ctxDone pick : bool) (t : thread) (i : Imp) : stepped :=
  match t, imp_rtPtr i with
  | TRunBoot, _ =>
      let (err, i') := bootRuntime i in
      Next (match err with Some e => TReturned (Some e) | None => TRunClaim end) [] i'
  | TShutBegin, None => Next (TReturned None) [] i
  | _, Some r =>
      match thread_action (imp_spec i) (imp_opts i) ctxDone pick t r with
      | (Done t', r') =>
          Next t' (started (imp_spec i) <$> drop (length (rt_goroutines r)) (rt_goroutines r'))
            (set_runtime r' i)
      | (Panicked _, _) => Crashed
      | (Blocked, _) => Stuck
      end
  | TRunClaim, None => Crashed
  | _, None => Stuck
  end.

Record system := mkSystem {
  sy_imp : Imp;
  sy_ctxDone : bool;
  sy_threads : list thread }.

Definition initial (i : Imp) : system := mkSystem i false [].

Inductive label :=
| LCallRun
| LCallShutdown
| LCancel
| LMessage (channel : nat) (msg : Message)
| LStreamMessage (channel : nat) (msg : JsMsg)
| LThread (n : nat) (pick : bool).

Definition add_thread (t : thread) (s : system) : system :=
  mkSystem (sy_imp s) (sy_ctxDone s) (sy_threads s ++ [t]).

(** The callback of a message, which arrives on a live handle only. *)
Definition arrive (live : channelState -> bool) (d : channelState -> delivery) (n : nat)
    (s : system) : option system :=
  imp_rtPtr (sy_imp s) ≫= fun r => rt_channels r !! n ≫= fun ch =>
  if live ch then Some (add_thread (arrived_thread (imp_spec (sy_imp s)) (d ch)) s) else None.

(** [None]: the step is not there, or it ends the program. *)
Definition sys_step (l : label) (s : system) : option system :=
  match l with
  | LCallRun => Some (add_thread TRunBoot s)
  | LCallShutdown => Some (add_thread TShutBegin s)
  | LCancel => Some (mkSystem (sy_imp s) true (sy_threads s))
  | LMessage n msg => arrive ch_subscription (fun ch => OnSubject ch msg) n s
  | LStreamMessage n msg => arrive ch_streamConsume (fun ch => OnStream ch msg) n s
  | LThread n pick =>
      sy_threads s !! n ≫= fun t =>
      match thread_step (sy_ctxDone s) pick t (sy_imp s) with
      | Next t' spawned i' =>
          Some (mkSystem i' (sy_ctxDone s) (<[n := t']> (sy_threads s) ++ spawned))
      | Stuck | Crashed => None
      end
  end.

Fixpoint sys_run (ls : list label) (s : system) : option system :=
  match ls with
  | [] => Some s
  | l :: rest => sys_step l s ≫= sys_run rest
  end.

(** An imp as [NewImp] hands it out. *)
Definition unstarted (i : Imp) : Prop := imp_rtOnce i = false /\ imp_rtPtr i = None.

(** ** Invariants of the system: the method *)

Definition channel_of (d : delivery) : channelState :=
  match d with OnSubject ch _ | OnStream ch _ => ch end.

Definition arrival (i : Imp) (t : thread) : Prop :=
  match t with
  | TRunBoot | TShutBegin => True
  | TDeliver d p => p = deliver_steps (imp_spec i) d /\
      exists r ch, imp_rtPtr i = Some r /\ ch ∈ rt_channels r /\ channel_of d = ch /\
      (ch_subscription ch = true \/ ch_streamConsume ch = true)
  | _ => False
  end.

(** A property of the imp and the threads that new threads and steps keep. *)
Record inductive_inv (P : Imp -> list thread -> Prop) (Q : thread -> Prop) : Prop := {
  ii_arrive i ts t : P i ts -> arrival i t -> Q t -> P i (ts ++ [t]);
  ii_step i ts1 t ts2 c p t' sp i' : P i (ts1 ++ t :: ts2) ->
    thread_step c p t i = Next t' sp i' -> P i' ((ts1 ++ t' :: ts2) ++ sp) }.

(** What arrives with a label. *)
Definition arriving (l : label) : option thread :=
  match l with
  | LCallRun => Some TRunBoot
  | LCallShutdown => Some TShutBegin
  | _ => None
  end.

Lemma arrive_inv live d n s s' :
  arrive live d n s = Some s' ->
  exists r ch, imp_rtPtr (sy_imp s) = Some r /\ rt_channels r !! n = Some ch /\
    live ch = true /\ s' = add_thread (arrived_thread (imp_spec (sy_imp s)) (d ch)) s.
Proof.
  unfold arrive. destruct (imp_rtPtr (sy_imp s)) as [r|] eqn:Hr; simpl; [|done].
  destruct (rt_channels r !! n) as [ch|] eqn:Hch; simpl; [|done].
  destruct (live ch) eqn:Hl; [|done]. intros [= <-]. by exists r, ch.
Qed.

Lemma sys_step_thread n pick s s' :
  sys_step (LThread n pick) s = Some s' ->
  exists ts1 t ts2 t' sp i', sy_threads s = ts1 ++ t :: ts2 /\ length ts1 = n /\
    thread_step (sy_ctxDone s) pick t (sy_imp s) = Next t' sp i' /\
    s' = mkSystem i' (sy_ctxDone s) ((ts1 ++ t' :: ts2) ++ sp).
Proof.
  simpl. destruct (sy_threads s !! n) as [t|] eqn:Ht; simpl; [|done].
  destruct (thread_step _ _ _ _) as [| |t' sp i'] eqn:Hstep; try done. intros [= <-].
  pose proof (lookup_lt_Some _ _ _ Ht).
  exists (take n (sy_threads s)), t, (drop (S n) (sy_threads s)), t', sp, i'.
  split_and!; [by rewrite take_drop_middle|rewrite length_take; lia|done|].
  by rewrite insert_take_drop.
Qed.

Lemma inv_step P Q l s s' :
  inductive_inv P Q -> (forall t, arriving l = Some t -> Q t) ->
  (forall d p, Q (TDeliver d p)) ->
  P (sy_imp s) (sy_threads s) -> sys_step l s = Some s' -> P (sy_imp s') (sy_threads s').
Proof.
  intros [Ha Hs] HQ HD HP. destruct l as [| | |n msg|n msg|n pick].
  - intros [= <-]. apply Ha; [done|done|by apply HQ].
  - intros [= <-]. apply Ha; [done|done|by apply HQ].
  - by intros [= <-].
  - intros (r & ch & Hr & Hch & Hl & ->)%arrive_inv. apply Ha; [done| |by apply HD].
    split; [done|]. exists r, ch. split_and!; [done|by eapply list_elem_of_lookup_2|done|by left].
  - intros (r & ch & Hr & Hch & Hl & ->)%arrive_inv. apply Ha; [done| |by apply HD].
    split; [done|]. exists r, ch. split_and!; [done|by eapply list_elem_of_lookup_2|done|by right].
  - intros (ts1 & t & ts2 & t' & sp & i' & Hts & _ & Hstep & ->)%sys_step_thread.
    rewrite Hts in HP. by eapply Hs.
Qed.

Lemma inv_run P Q ls s s' :
  inductive_inv P Q -> (forall l t, l ∈ ls -> arriving l = Some t -> Q t) ->
  (forall d p, Q (TDeliver d p)) ->
  P (sy_imp s) (sy_threads s) -> sys_run ls s = Some s' -> P (sy_imp s') (sy_threads s').
Proof.
  intros HI HQ HD. revert s. induction ls as [|l ls IH]; simpl; intros s HP.
  { by intros [= <-]. }
  destruct (sys_step l s) as [s1|] eqn:Hs; simpl; [|done].
  apply IH; [intros; eapply HQ; [|done]; set_solver|].
  eapply inv_step; [done| |done|done|done]. intros t. apply HQ. set_solver.
Qed.

(** The cases of a step. *)
Lemma thread_step_cases c p t i t' sp i' :
  thread_step c p t i = Next t' sp i' ->
  (t = TRunBoot /\ sp = [] /\ exists err, bootRuntime i = (err, i') /\
     t' = match err with Some e => TReturned (Some e) | None => TRunClaim end) \/
  (t = TShutBegin /\ imp_rtPtr i = None /\ t' = TReturned None /\ sp = [] /\ i' = i) \/
  (t <> TRunBoot /\ exists r r', imp_rtPtr i = Some r /\
     thread_action (imp_spec i) (imp_opts i) c p t r = (Done t', r') /\
     sp = started (imp_spec i) <$> drop (length (rt_goroutines r)) (rt_goroutines r') /\
     i' = set_runtime r' i).
Proof.
  intros Hstep.
  assert (t = TRunBoot \/ t <> TRunBoot) as [->|Hne] by (destruct t; auto; by right).
  { left. simpl in Hstep. destruct (bootRuntime i) as [err i1].
    injection Hstep as <- <- <-. split_and!; [done|done|]. by eexists. }
  right. destruct (imp_rtPtr i) as [r|] eqn:Hr.
  - right. split; [done|]. exists r.
    assert (match thread_action (imp_spec i) (imp_opts i) c p t r with
      | (Done t', r') =>
          Next t' (started (imp_spec i) <$> drop (length (rt_goroutines r)) (rt_goroutines r'))
            (set_runtime r' i)
      | (Panicked _, _) => Crashed
      | (Blocked, _) => Stuck
      end = Next t' sp i') as Hstep'.
    { destruct t; [done|..]; unfold thread_step in Hstep; rewrite Hr in Hstep; exact Hstep. }
    destruct (thread_action _ _ _ _ _ _) as [[t1|v|] r'] eqn:Hact; try done.
    injection Hstep' as <- <- <-. by exists r'.
  - left. destruct t; unfold thread_step in Hstep; rewrite ?Hr in Hstep; try done.
    by injection Hstep as <- <- <-.
Qed.

Lemma bootRuntime_cases i err i' :
  bootRuntime i = (err, i') ->
  imp_spec i' = imp_spec i /\ imp_opts i' = imp_opts i /\ imp_rtOnce i' = true /\
  (imp_rtPtr i' = imp_rtPtr i \/
   imp_rtOnce i = false /\ imp_rtPtr i' = Some (fresh_runtime i) /\ err = None).
Proof.
  unfold bootRuntime. destruct (imp_rtOnce i) eqn:Ho.
  { intros [= <- <-]. split_and!; auto. }
  destruct (_ <=? 0)%Z; [intros [= <- <-]; split_and!; auto|].
  destruct (_ <=? 0)%Z; intros [= <- <-]; split_and!; auto.
Qed.

(** ** Frames of one step *)

(** A field that neither binding nor the phases of [Run] and [Shutdown] write. *)
Record control_blind {X} (f : runtime -> X) : Prop := {
  cb_binding : binding_blind f;
  cb_state x r : f (set_state x r) = f r;
  cb_shutdown x y z r : f (set_shutdown x y z r) = f r;
  cb_cancelled x r : f (set_cancelled x r) = f r }.

(** The threads of message callbacks, and those that run user code. *)
Definition is_callback (t : thread) : bool :=
  match t with TDeliver _ _ | TLaunchWG _ | TLaunchGo _ => true | _ => false end.
Definition runs_user_code (t : thread) : bool :=
  match t with TThink _ _ | TThinkWG _ => true | _ => is_callback t end.

Lemma control_frame {X} (f : runtime -> X) spec o c p t :
  control_blind f -> runs_user_code t = false ->
  preserves (unchanged f) (thread_action spec o c p t).
Proof.
  intros Hf Ht. pose proof (cb_binding _ Hf) as Hb.
  pose proof (start_frame f Hb) as Hstart. pose proof (unwind_step_frame f Hb) as Hunwind.
  assert (forall l m a, preserves (unchanged f) (log l m a)) as Hlog
    by (intros ??? ?; apply Hb).
  assert (forall s, preserves (unchanged f) (set_lifecycle s)) as Hset
    by (intros ? ?; apply Hf).
  assert (forall g, (forall r, f (g r) = f r) -> preserves (unchanged f) (modify g)) as Hmod
    by (intros ? Hg ?; apply Hg).
  destruct t as [| |[|ch rest]| | | | | | | | | | | | | | | | | | | |]; try done;
    unfold thread_action, run_claim, run_failed, run_ready, shutdown_join, shutdown_begin,
      thinkingCancel, waitDrain, set_shutdownErr, shutdown_stopped, close_stopped; frame; auto;
    apply Hmod; intros; apply Hf.
Qed.

Lemma user_frame {X} (f : runtime -> X) spec o c p t :
  handling_blind f -> runs_user_code t = true ->
  preserves (unchanged f) (thread_action spec o c p t).
Proof.
  intros Hf Ht.
  assert (forall X e, preserves (unchanged f) (access_handler X e))
    by (intros; by apply access_frame).
  destruct t as [| | | | | | | | | | | | | |d [[g|]| | |]|g|g|g [| | |]|g| | | |]; try done;
    unfold thread_action, launch_go; frame; auto; intros r; apply Hf.
Qed.

(** Events of the threads that run user code. *)
Lemma user_events (P : event -> Prop) spec o c p t :
  (forall X (a : access X), preserves (events_grow P) (access_handler X a)) ->
  (forall reason entity, P (ELaunch reason entity)) ->
  runs_user_code t = true -> preserves (events_grow P) (thread_action spec o c p t).
Proof.
  intros Ha Hl Ht.
  destruct t as [| | | | | | | | | | | | | |d [[g|]| | |]|g|g|g [| | |]|g| | | |]; try done;
    unfold thread_action, launch_go, launch_wg, settle_wg, launch_gauge, settle_gauge; frame; auto;
    by apply modify_grows.
Qed.

Lemma preserves_Done {A} (R : relation runtime) (m : M A) r a r' :
  preserves R m -> m r = (Done a, r') -> R r r'.
Proof. intros Hm Hrun. specialize (Hm r). by rewrite Hrun in Hm. Qed.

(** ** The shutdown protocol

    What the threads share to coordinate: the lifecycle state, the once, the
    error and the channel of [Shutdown]. [protocol] is the protocol they follow,
    as a specification; a step of the code is a step of the protocol. *)

Record control := mkControl {
  ct_state : State;
  ct_once : bool;
  ct_err : error;
  ct_stopped : bool }.

Definition control_of (r : runtime) : control :=
  mkControl (Machine_Get (rt_state r)) (rt_shutdownOnce r) (rt_shutdownErr r) (rt_stopped r).

Definition with_state (st : State) (k : control) : control :=
  mkControl st (ct_once k) (ct_err k) (ct_stopped k).

Inductive protocol (chs : list ChannelSpec) : thread -> control -> thread -> control -> Prop :=
| pr_claim k : ct_state k = StateCreated ->
    protocol chs TRunClaim k (TRunStart chs) (with_state StateStarting k)
| pr_refused k e : ct_state k <> StateCreated ->
    protocol chs TRunClaim k (TReturned (Some e)) k
| pr_bind ch rest k : protocol chs (TRunStart (ch :: rest)) k (TRunStart rest) k
| pr_bind_failed ch rest e k : protocol chs (TRunStart (ch :: rest)) k (TRunFailed e) k
| pr_bound k : protocol chs (TRunStart []) k TRunReady k
| pr_failed e k :
    protocol chs (TRunFailed e) k (TRunUnwind UBegin e) (with_state StateFailed k)
| pr_rolling_back u u' e k : protocol chs (TRunUnwind u e) k (TRunUnwind u' e) k
| pr_rolled_back u e k : protocol chs (TRunUnwind u e) k (TStartReturned e) k
| pr_ready k : protocol chs TRunReady k TRunSelect (with_state StateRunning k)
| pr_ctx_done k : protocol chs TRunSelect k TShutBegin k
| pr_select_stopped k : ct_stopped k = true ->
    protocol chs TRunSelect k (TShutReturned (ct_err k)) k
| pr_begin k : ct_once k = false ->
    protocol chs TShutBegin k (TShutUnwind UBegin)
      (mkControl StateDraining true (ct_err k) (ct_stopped k))
| pr_later k : ct_once k = true -> protocol chs TShutBegin k TShutJoin k
| pr_unwinding u u' k : protocol chs (TShutUnwind u) k (TShutUnwind u') k
| pr_unwind u k : protocol chs (TShutUnwind u) k TShutCancel k
| pr_cancel k : protocol chs TShutCancel k TShutDrain k
| pr_drained k : protocol chs TShutDrain k (TShutStop None) k
| pr_elapsed k : protocol chs TShutDrain k (TShutStop (Some drain_error)) k
| pr_stop e k : protocol chs (TShutStop e) k TShutClose
    (mkControl StateStopped (ct_once k) e (ct_stopped k))
| pr_close k : protocol chs TShutClose k TShutJoin
    (mkControl (ct_state k) (ct_once k) (ct_err k) true)
| pr_join k : ct_stopped k = true -> protocol chs TShutJoin k (TShutReturned (ct_err k)) k
| pr_access d p p' k : protocol chs (TDeliver d p) k (TDeliver d p') k
| pr_delivered d p k : protocol chs (TDeliver d p) k TDone k
| pr_launch d p g k : protocol chs (TDeliver d p) k (TLaunchWG g) k
| pr_launch_wg g k : protocol chs (TLaunchWG g) k (TLaunchGo g) k
| pr_go g k : protocol chs (TLaunchGo g) k TDone k
| pr_think g p p' k : protocol chs (TThink g p) k (TThink g p') k
| pr_thought g p k : protocol chs (TThink g p) k (TThinkWG g) k
| pr_settled g k : protocol chs (TThinkWG g) k TDone k.

Lemma control_of_binding : binding_blind control_of.
Proof. done. Qed.

Lemma control_of_handling : handling_blind control_of.
Proof. done. Qed.

Lemma unwind_step_control u r next r' :
  unwind_step u r = (Done next, r') -> control_of r' = control_of r.
Proof. exact (preserves_Done _ _ _ _ _ (unwind_step_frame _ control_of_binding u)). Qed.

Lemma user_action_protocol spec o c p t r t' r' :
  runs_user_code t = true -> thread_action spec o c p t r = (Done t', r') ->
  protocol (is_Channels spec) t (control_of r) t' (control_of r').
Proof.
  intros Hu Hact.
  pose proof (preserves_Done _ _ _ _ _ (user_frame _ spec o c p t control_of_handling Hu) Hact)
    as Hf. unfold unchanged in Hf. rewrite Hf. clear Hf.
  destruct t as [| | | | | | | | | | | | | |d [[g|]|v| |X e k]|g|g|g [[]|v| |X e k]|g| | | |];
    try done; unfold thread_action in Hact; unfold bind in Hact;
    try (destruct (access_handler _ e r) as [[x|v|] r1]); try done;
    injection Hact as <- _; constructor.
Qed.

Lemma thread_action_protocol spec o c p t r t' r' :
  thread_action spec o c p t r = (Done t', r') ->
  protocol (is_Channels spec) t (control_of r) t' (control_of r').
Proof.
  destruct (runs_user_code t) eqn:Huser; [by apply user_action_protocol|].
  destruct t as [| |[|ch rest]| | | | | | | | | | | | | | | | | | | |]; try done;
    unfold thread_action.
  - unfold run_claim, gets, modify, bind, ret; simpl.
    destruct (Machine_CompareAndSwap _ _ _) as [[] m] eqn:Hcas; simpl; intros [= <- <-].
    + apply compareAndSwap_true in Hcas as [Hc Hm]. unfold control_of; simpl. rewrite Hm.
      by constructor.
    + apply compareAndSwap_false in Hcas as [Hc ->]. destruct r; by constructor.
  - intros [= <- <-]. constructor.
  - unfold bind at 1, ret. destruct (start [ch] r) as [[err|v|] r1] eqn:Hs; try done.
    intros [= <- <-]. pose proof (start_frame _ control_of_binding [ch] r) as Hf.
    rewrite Hs in Hf. unfold unchanged in Hf; simpl in Hf. rewrite Hf.
    destruct err; constructor.
  - intros [= <- <-]. exact (pr_failed _ _ (control_of r)).
  - unfold bind, ret. destruct (unwind_step _ r) as [[next|v|] r1] eqn:Hu; try done.
    intros [= <- <-]. rewrite (unwind_step_control _ _ _ _ Hu). destruct next; constructor.
  - intros [= <- <-]. exact (pr_ready _ (control_of r)).
  - destruct (c && p); [intros [= <- <-]; constructor|].
    unfold shutdown_join, gets, bind, ret, block. destruct (rt_stopped r) eqn:Hs; [|done].
    intros [= <- <-]. by apply (pr_select_stopped _ (control_of r)).
  - unfold bind at 1, ret. destruct (rt_shutdownOnce r) eqn:Ho.
    + unfold shutdown_begin, gets, bind, ret. rewrite Ho. intros [= <- <-].
      by apply pr_later.
    + rewrite (shutdown_begin_first o r Ho). intros [= <- <-].
      by apply (pr_begin _ (control_of r)).
  - unfold bind, ret. destruct (unwind_step _ r) as [[next|v|] r1] eqn:Hu; try done.
    intros [= <- <-]. rewrite (unwind_step_control _ _ _ _ Hu). destruct next; constructor.
  - intros [= <- <-]. exact (pr_cancel _ (control_of r)).
  - unfold waitDrain, gets, log, modify, bind, ret, block. destruct p.
    + intros [= <- <-]. exact (pr_elapsed _ (control_of r)).
    + case_decide; [|done]. intros [= <- <-]. constructor.
  - intros [= <- <-]. exact (pr_stop _ _ (control_of r)).
  - intros [= <- <-]. exact (pr_close _ (control_of r)).
  - unfold shutdown_join, gets, bind, ret, block. destruct (rt_stopped r) eqn:Hs; [|done].
    intros [= <- <-]. by apply (pr_join _ (control_of r)).
Qed.

(** ** Invariant: the wait group and the gauge count the thinking threads *)

(** The threads one unit of the wait group, of the gauge, stands for. *)
Definition in_wg (t : thread) : bool :=
  match t with TLaunchGo _ | TThink _ _ | TThinkWG _ => true | _ => false end.
Definition in_gauge (t : thread) : bool :=
  match t with TLaunchWG _ | TLaunchGo _ | TThink _ _ => true | _ => false end.

(** A thinking goroutine that is running, and one between the two units of either. *)
Definition thinks (t : thread) : bool := match t with TThink _ _ => true | _ => false end.
Definition in_passing (t : thread) : bool :=
  match t with TLaunchWG _ | TLaunchGo _ | TThinkWG _ => true | _ => false end.

Definition count (f : thread -> bool) (ts : list thread) : Z :=
  foldr (fun t z => (if f t then 1 else 0) + z)%Z 0%Z ts.
Definition unit_of (f : thread -> bool) (t : thread) : Z := if f t then 1 else 0.

Lemma count_cons f t ts : count f (t :: ts) = ((if f t then 1 else 0) + count f ts)%Z.
Proof. done. Qed.

Lemma count_app f ts ts' : count f (ts ++ ts') = (count f ts + count f ts')%Z.
Proof. induction ts as [|t ts IH]; simpl; [done|]. rewrite IH. lia. Qed.

Lemma count_nonneg f ts : (0 <= count f ts)%Z.
Proof. induction ts as [|t ts IH]; simpl; [done|]. destruct (f t); lia. Qed.

Lemma count_zero f ts : count f ts = 0%Z <-> Forall (fun t => f t = false) ts.
Proof.
  induction ts as [|t ts IH]; simpl; [by split; [constructor|]|]. rewrite Forall_cons, <- IH.
  pose proof (count_nonneg f ts). destruct (f t); split; intros; destruct_and?;
    split_and?; auto; lia.
Qed.

Lemma count_elem f ts t : t ∈ ts -> f t = true -> (1 <= count f ts)%Z.
Proof.
  induction ts as [|t' ts IH]; simpl; [set_solver|]. pose proof (count_nonneg f ts).
  intros [<-|Hin]%elem_of_cons Hf; [rewrite Hf; lia|]. specialize (IH Hin Hf).
  destruct (f t'); lia.
Qed.

Lemma count_spawned f spec gs :
  (forall g p, f (TThink g p) = true) ->
  count f (started spec <$> gs) = Z.of_nat (length gs).
Proof.
  intros Hf. induction gs as [|g gs IH]; [done|]. rewrite fmap_cons, count_cons, IH.
  unfold started. rewrite Hf. simpl. lia.
Qed.

Lemma count_unspawned f spec gs :
  (forall g p, f (TThink g p) = false) -> count f (started spec <$> gs) = 0%Z.
Proof.
  intros Hf. apply count_zero, Forall_fmap, Forall_true. intros g. apply Hf.
Qed.

(** What a step of a thread does to the three. *)
Lemma action_counts spec o c p t r t' r' :
  thread_action spec o c p t r = (Done t', r') ->
  is_int64 (rt_metrics r InflightThinking) ->
  exists gs, rt_goroutines r' = rt_goroutines r ++ gs /\
    let n := Z.of_nat (length gs) in
    (rt_thinkingWG r' + unit_of in_wg t = rt_thinkingWG r + unit_of in_wg t' + n)%Z /\
    rt_metrics r' InflightThinking =
      int64 (rt_metrics r InflightThinking + unit_of in_gauge t' + n - unit_of in_gauge t).
Proof.
  intros Hact Hint.
  assert (forall t, (rt_goroutines r', rt_thinkingWG r', rt_metrics r' InflightThinking) =
      (rt_goroutines r, rt_thinkingWG r, rt_metrics r InflightThinking) ->
    unit_of in_wg t = unit_of in_wg t' -> unit_of in_gauge t = unit_of in_gauge t' ->
    exists gs, rt_goroutines r' = rt_goroutines r ++ gs /\
    let n := Z.of_nat (length gs) in
    (rt_thinkingWG r' + unit_of in_wg t = rt_thinkingWG r + unit_of in_wg t' + n)%Z /\
    rt_metrics r' InflightThinking =
      int64 (rt_metrics r InflightThinking + unit_of in_gauge t' + n - unit_of in_gauge t))
    as Hsame.
  { intros t1 [= Hg Hw Hm] E1 E2. exists []. rewrite Hg, Hw, Hm, E1, E2, app_nil_r.
    cbn [length Z.of_nat]. rewrite !Z.add_0_r, Z.add_simpl_r. by rewrite int64_id. }
  destruct (runs_user_code t) eqn:Hu.
  - assert (forall X (e : access X) x r1, access_handler X e r = (Done x, r1) ->
      (rt_goroutines r1, rt_thinkingWG r1, rt_metrics r1 InflightThinking) =
      (rt_goroutines r, rt_thinkingWG r, rt_metrics r InflightThinking)) as Hacc.
    { intros X e x r1 He. by apply (preserves_Done _ _ _ _ _ (access_launches_nothing X e)) in He. }
    destruct t as [| | | | | | | | | | | | | |d [[g|]|v| |X e k]|g|g|g [[]|v| |X e k]|g| | | |];
      try done; unfold thread_action in Hact; try done.
    all: try (unfold bind in Hact; destruct (access_handler _ e r) as [[x|v|] r1] eqn:He;
      [|done..]; injection Hact as <- <-; eapply Hsame; [by eapply Hacc|done..]).
    + injection Hact as <- <-. exists []. simpl. rewrite app_nil_r, Add_eq.
      split_and!; [done|unfold unit_of; simpl; lia|]. unfold wrap, unit_of; simpl. f_equal. lia.
    + injection Hact as <- <-. by apply Hsame.
    + injection Hact as <- <-. exists []. simpl. rewrite app_nil_r.
      split_and!; [done|unfold unit_of; simpl; lia|]. unfold unit_of; simpl. symmetry.
      rewrite <- (int64_id _ Hint) at 2. f_equal. lia.
    + injection Hact as <- <-. exists [g]. simpl. split_and!; [done|unfold unit_of; simpl; lia|].
      unfold unit_of; simpl. symmetry. rewrite <- (int64_id _ Hint) at 2. f_equal. lia.
    + injection Hact as <- <-. exists []. simpl. rewrite app_nil_r, Add_eq.
      split_and!; [done|unfold unit_of; simpl; lia|].
      unfold wrap, unit_of; simpl. f_equal. lia.
    + injection Hact as <- <-. exists []. simpl. rewrite app_nil_r.
      split_and!; [done|unfold unit_of; simpl; lia|]. unfold unit_of; simpl. symmetry.
      rewrite <- (int64_id _ Hint) at 2. f_equal. lia.
  - assert (unit_of in_wg t' = 0%Z /\ unit_of in_gauge t' = 0%Z) as [E1 E2].
    { apply thread_action_protocol in Hact. by destruct Hact. }
    apply Hsame; [|by rewrite E1; destruct t|by rewrite E2; destruct t].
    exact (preserves_Done _ _ _ _ _ (control_frame (fun r => (rt_goroutines r, rt_thinkingWG r,
      rt_metrics r InflightThinking)) spec o c p t ltac:(done) Hu) Hact).
Qed.

(** The threads that may exist before there is a runtime. *)
Definition early (t : thread) : bool :=
  match t with TRunBoot | TRunClaim | TShutBegin | TReturned _ => true | _ => false end.

Definition counted (i : Imp) (ts : list thread) : Prop :=
  match imp_rtPtr i with
  | None => Forall (fun t => early t = true) ts
  | Some r => imp_rtOnce i = true /\ rt_thinkingWG r = count in_wg ts /\
      rt_metrics r InflightThinking = int64 (count in_gauge ts)
  end.

Lemma early_uncounted ts :
  Forall (fun t => early t = true) ts -> count in_wg ts = 0%Z /\ count in_gauge ts = 0%Z.
Proof.
  rewrite !count_zero, !Forall_forall. intros Hts. split; intros t Ht; specialize (Hts t Ht);
    by destruct t.
Qed.

Lemma counted_inv : inductive_inv counted (fun _ => True).
Proof.
  split.
  - intros i ts t HP Ha _. unfold counted in *. destruct (imp_rtPtr i) as [r|] eqn:Hr.
    + rewrite !count_app. destruct HP as (Ho & Hw & Hm).
      assert (count in_wg [t] = 0%Z /\ count in_gauge [t] = 0%Z) as [-> ->] by by destruct t.
      by rewrite !Z.add_0_r.
    + apply Forall_snoc; [done|]. destruct t; try done.
      destruct Ha as (_ & ? & ? & Hx & _); congruence.
  - intros i ts1 t ts2 c p t' sp i' HP Hstep.
    apply thread_step_cases in Hstep as
      [(-> & -> & err & Hboot & ->)|[(-> & Hr & -> & -> & ->)|(_ & r & r' & Hr & Hact & -> & ->)]].
    + apply bootRuntime_cases in Hboot as (_ & _ & Ho & [Hp|(Ho' & Hp & ->)]); rewrite app_nil_r.
      * unfold counted in *. rewrite Hp. destruct (imp_rtPtr i) as [r|].
        -- rewrite !count_app in *. destruct HP as (_ & Hw & Hm).
           split_and!; [done|rewrite Hw|rewrite Hm]; by destruct err.
        -- apply Forall_app in HP as [H1 H2]. apply Forall_cons in H2 as [_ H2].
           apply Forall_app_2; [done|]. constructor; [by destruct err|done].
      * unfold counted in *. rewrite Hp. destruct (imp_rtPtr i) as [r|];
          [destruct HP; congruence|].
        apply Forall_app in HP as [H1 H2]. apply Forall_cons in H2 as [_ H2].
        apply early_uncounted in H1 as [W1 G1]. apply early_uncounted in H2 as [W2 G2].
        rewrite !count_app, !count_cons, W1, W2, G1, G2. done.
    + unfold counted in *. rewrite Hr in *. rewrite app_nil_r.
      apply Forall_app in HP as [H1 H2]. apply Forall_cons in H2 as [_ H2].
      apply Forall_app_2; [done|]. by constructor.
    + unfold counted in *. rewrite Hr in HP. simpl. destruct HP as (Ho & Hw & Hm).
      destruct (action_counts _ _ _ _ _ _ _ _ Hact) as (gs & Hg & Hw' & Hm');
        [rewrite Hm; apply int64_range|].
      rewrite Hg, drop_app_length. rewrite !count_app, !count_spawned by done.
      rewrite !count_app, !count_cons in *. fold (unit_of in_wg t) in Hw.
      fold (unit_of in_gauge t) in Hm. fold (unit_of in_wg t') (unit_of in_gauge t').
      split_and!; [done|lia|]. rewrite Hm', Hm.
      rewrite <- Z.add_assoc, <- Z.add_sub_assoc, int64_add_l. f_equal. lia.
Qed.

Lemma Forall_middle {A} (P : A -> Prop) l1 x y l2 :
  Forall P (l1 ++ x :: l2) -> P y -> Forall P (l1 ++ y :: l2).
Proof.
  intros HP Hy. apply Forall_app in HP as [H1 H2]. apply Forall_cons in H2 as [_ H2].
  apply Forall_app_2; [done|]. by constructor.
Qed.

(** ** Invariant: the channel records account for what is open on the server *)

Definition accounted (r : runtime) : Prop := exists lost, all_lost lost /\ balanced lost r.

Definition startable (t : thread) : Prop :=
  match t with
  | TRunStart rest => Forall channel_ok rest /\ Forall channel_ints rest
  | _ => True
  end.

(** The part of the runtime that accounting reads. *)
Definition binding_part (r : runtime) := (rt_events r, rt_channels r, rt_js r).

Lemma accounted_same r r' : binding_part r' = binding_part r -> accounted r -> accounted r'.
Proof.
  intros [= He Hc Hj] (lost & Hl & [Hb1 Hb2]). exists lost. split; [done|].
  split; rewrite ?He, ?Hc, ?Hj; done.
Qed.

Lemma accounted_neutral r r' :
  events_grow neutral r r' -> rt_channels r' = rt_channels r -> rt_js r' = rt_js r ->
  accounted r -> accounted r'.
Proof.
  intros Hg Hc Hj (lost & Hl & Hb). exists lost. split; [done|].
  apply (balanced_neutral _ r); [done|by eapply live_grow|done|congruence].
Qed.

Lemma action_user_accounted spec o c p t r t' r' :
  runs_user_code t = true -> thread_action spec o c p t r = (Done t', r') ->
  events_grow neutral r r' /\ rt_channels r' = rt_channels r /\ rt_js r' = rt_js r.
Proof.
  intros Hu Hact.
  assert (forall X (f : runtime -> X), handling_blind f -> f r' = f r) as Hk.
  { intros X f Hf. exact (preserves_Done _ _ _ _ _ (user_frame f spec o c p t Hf Hu) Hact). }
  split_and!; [|by apply (Hk _ rt_channels)|by apply (Hk _ rt_js)].
  by apply (preserves_Done _ _ _ _ _ (user_events neutral spec o c p t access_neutral
    ltac:(done) Hu)) in Hact.
Qed.

(** The threads whose step binds or releases. *)
Definition touches_channels (t : thread) : bool :=
  match t with TRunStart _ | TRunUnwind _ _ | TShutUnwind _ => true | _ => false end.

Lemma control_binding spec o c p t :
  touches_channels t = false -> runs_user_code t = false ->
  preserves (unchanged binding_part) (thread_action spec o c p t).
Proof.
  intros Ht Hu.
  destruct t; try done;
    unfold thread_action, run_claim, run_failed, run_ready, shutdown_join, shutdown_begin,
      thinkingCancel, waitDrain, set_shutdownErr, shutdown_stopped, close_stopped, set_lifecycle;
    frame.
Qed.

Lemma startable_step chs t k t' k' :
  Forall channel_ok chs -> Forall channel_ints chs ->
  protocol chs t k t' k' -> startable t -> startable t'.
Proof.
  intros Hok Hint Hp Hs. destruct Hp; try done. destruct Hs as [Ho Hi].
  apply Forall_cons in Ho as [_ Ho]. by apply Forall_cons in Hi as [_ Hi].
Qed.

(** *** Positions of the threads that unwind *)

Definition unwinding_of (t : thread) : option unwinding :=
  match t with TRunUnwind u _ | TShutUnwind u => Some u | _ => None end.

Definition positioned (chs : list channelState) (t : thread) : Prop :=
  match unwinding_of t with Some u => position_ok u chs | None => True end.

Definition in_startup (t : thread) : bool :=
  match t with TRunStart _ | TRunFailed _ | TRunReady => true | _ => false end.

Lemma action_unwinding spec o c p t r t' r' u :
  unwinding_of t = Some u -> thread_action spec o c p t r = (Done t', r') ->
  exists next, unwind_step u r = (Done next, r') /\
    match next with
    | Some u' => unwinding_of t' = Some u'
    | None => unwinding_of t' = None
    end /\
    match t' with
    | TShutUnwind u' => next = Some u'
    | _ => match t with TShutUnwind _ => next = None | _ => True end
    end.
Proof.
  intros Hu Hact. destruct t; try done; injection Hu as ->; unfold thread_action, bind, ret in Hact;
    destruct (unwind_step u r) as [[next|v|] r1]; try done; injection Hact as <- <-;
    exists next; by destruct next.
Qed.

(** Records are released or appended, and outside startup only released. *)
Lemma action_records spec o c p t r t' r' :
  thread_action spec o c p t r = (Done t', r') ->
  exists chs new, rt_channels r' = chs ++ new /\ Forall2 released (rt_channels r) chs /\
    (in_startup t = false -> new = []).
Proof.
  intros Hact.
  assert (Forall2 released (rt_channels r) (rt_channels r)) as Hrefl
    by by apply Forall_Forall2_diag, Forall_true.
  assert (rt_channels r' = rt_channels r -> exists chs new, rt_channels r' = chs ++ new /\
    Forall2 released (rt_channels r) chs /\ (in_startup t = false -> new = [])) as Hsame.
  { intros ->. exists (rt_channels r), []. by rewrite app_nil_r. }
  destruct (runs_user_code t) eqn:Hu.
  { apply Hsame. by destruct (action_user_accounted _ _ _ _ _ _ _ _ Hu Hact) as (_ & ? & _). }
  destruct (touches_channels t) eqn:Htc.
  2:{ apply Hsame. pose proof (preserves_Done _ _ _ _ _ (control_binding spec o c p t Htc Hu) Hact)
        as Hb. by injection Hb. }
  destruct (unwinding_of t) as [u|] eqn:Hw.
  { destruct (action_unwinding _ _ _ _ _ _ _ _ _ Hw Hact) as (next & Hs & _).
    destruct (unwind_step_run u r) as (next' & r1 & Hrun & _ & Hrel).
    rewrite Hs in Hrun. injection Hrun as _ <-. exists (rt_channels r'), []. by rewrite app_nil_r. }
  destruct t as [| |[|ch rest]| | | | | | | | | | | | | | | | | | | |]; try done;
    unfold thread_action in Hact; [by injection Hact as _ <-; apply Hsame|].
  pose proof (start_appends [ch] r) as Happ. unfold bind, ret in Hact.
  destruct (start [ch] r) as [[err|v|] r1]; try done. injection Hact as _ <-.
  destruct Happ as [new Hnew]. by exists (rt_channels r), new.
Qed.

Lemma action_positioned spec o c p t r t' r' :
  positioned (rt_channels r) t -> thread_action spec o c p t r = (Done t', r') ->
  positioned (rt_channels r') t'.
Proof.
  intros Hp Hact. unfold positioned. destruct (unwinding_of t') as [u'|] eqn:Hu'; [|done].
  pose proof (thread_action_protocol _ _ _ _ _ _ _ _ Hact) as Hpr.
  destruct (unwinding_of t) as [u|] eqn:Hu.
  - unfold positioned in Hp. rewrite Hu in Hp.
    destruct (action_unwinding _ _ _ _ _ _ _ _ _ Hu Hact) as (next & Hs & Hnext & _).
    destruct next; [|congruence]. rewrite Hnext in Hu'. injection Hu' as ->.
    by eapply unwind_step_position.
  - destruct Hpr; simpl in *; try done; by injection Hu' as <-.
Qed.

Lemma positioned_later spec o c p t0 r t' r' t :
  thread_action spec o c p t0 r = (Done t', r') -> positioned (rt_channels r) t ->
  positioned (rt_channels r') t.
Proof.
  intros (chs & new & -> & Hrel & _)%action_records. unfold positioned.
  destruct (unwinding_of t); [|done]. by apply position_grows.
Qed.

(** The records there are. *)
Definition records (i : Imp) : list channelState :=
  match imp_rtPtr i with Some r => rt_channels r | None => [] end.

Record placed (i : Imp) (ts : list thread) : Prop := {
  pl_booted r : imp_rtPtr i = Some r -> imp_rtOnce i = true;
  pl_threads : Forall (positioned (records i)) ts }.

Lemma boot_records i err i' :
  (forall r, imp_rtPtr i = Some r -> imp_rtOnce i = true) -> bootRuntime i = (err, i') ->
  records i' = records i.
Proof.
  intros Ho (_ & _ & _ & [Heq|(Hf & Heq & _)])%bootRuntime_cases; unfold records; rewrite Heq; [done|].
  destruct (imp_rtPtr i) as [r|]; [|done]. specialize (Ho r eq_refl). congruence.
Qed.

Lemma placed_inv : inductive_inv placed (fun _ => True).
Proof.
  split.
  - intros i ts t [Ho Hts] Ha _. split; [done|]. apply Forall_snoc; [done|]. by destruct t.
  - intros i ts1 t ts2 c p t' sp i' [Ho Hts] Hstep.
    assert (positioned (records i) t) as Ht by (rewrite Forall_forall in Hts; apply Hts; set_solver).
    apply thread_step_cases in Hstep as
      [(-> & -> & err & Hboot & ->)|[(-> & Hp & -> & -> & ->)|(_ & r & r' & Hp & Hact & -> & ->)]].
    + rewrite app_nil_r. split; [intros r _; by apply bootRuntime_cases in Hboot as (_ & _ & ? & _)|].
      rewrite (boot_records _ _ _ Ho Hboot). eapply Forall_middle; [done|]. by destruct err.
    + rewrite app_nil_r. split; [done|]. by eapply Forall_middle.
    + split; [intros _ _; by eapply Ho|]. unfold records in *. rewrite Hp in *. simpl.
      apply Forall_app_2; [|apply Forall_fmap, Forall_true; done].
      assert (Forall (positioned (rt_channels r')) (ts1 ++ t :: ts2)) as Hlater
        by (eapply Forall_impl; [exact Hts|]; intros t1; by eapply positioned_later).
      eapply Forall_middle; [exact Hlater|]. by eapply action_positioned.
Qed.

(** *** Accounts *)

Lemma action_accounted `{!ServerLaws} spec o c p t r t' r' :
  startable t -> positioned (rt_channels r) t -> accounted r ->
  thread_action spec o c p t r = (Done t', r') -> accounted r'.
Proof.
  intros Hst Hpos Ha Hact. destruct (runs_user_code t) eqn:Hu.
  { destruct (action_user_accounted _ _ _ _ _ _ _ _ Hu Hact) as (He & Hc & Hj).
    by eapply accounted_neutral. }
  destruct (touches_channels t) eqn:Ht.
  2:{ apply (accounted_same r); [|done].
      exact (preserves_Done _ _ _ _ _ (control_binding spec o c p t Ht Hu) Hact). }
  destruct Ha as (lost & Hl & Hb). destruct (unwinding_of t) as [u|] eqn:Hw.
  { unfold positioned in Hpos. rewrite Hw in Hpos.
    destruct (action_unwinding _ _ _ _ _ _ _ _ _ Hw Hact) as (next & Hstep & _).
    by eapply unwind_step_settles. }
  destruct t as [| |[|ch rest]| | | | | | | | | | | | | | | | | | | |]; try done;
    unfold thread_action in Hact; [injection Hact as _ <-; by exists lost|].
  destruct Hst as [Hok Hint]. apply Forall_cons in Hok as [Hok _].
  apply Forall_cons in Hint as [Hint _].
  destruct (start_prefix [ch] ltac:(by constructor) ltac:(by constructor) lost r Hb)
    as (err & r1 & _ & _ & Hs & Hb1 & _).
  rewrite (bind_Done _ _ _ _ _ Hs) in Hact. injection Hact as _ <-. by exists lost.
Qed.

Record accounts (spec : ImpSpec) (i : Imp) (ts : list thread) : Prop := {
  ac_spec : imp_spec i = spec;
  ac_threads : Forall startable ts;
  ac_placed : placed i ts;
  ac_runtime r : imp_rtPtr i = Some r -> accounted r }.

Lemma fresh_accounted i : accounted (fresh_runtime i).
Proof. exists ∅. split; [apply all_lost_empty|]. split; [done|constructor]. Qed.

Lemma accounts_inv `{!ServerLaws} spec :
  validateSpec spec = None -> Forall channel_ints (is_Channels spec) ->
  inductive_inv (accounts spec) (fun _ => True).
Proof.
  intros Hv Hint. apply validateSpec_channels in Hv as [_ Hok]%validateChannels_ok. split.
  - intros i ts t [Hs Hts Hpl Hr] Ha _. split; [done| |by apply placed_inv|done].
    apply Forall_snoc; [done|]. by destruct t.
  - intros i ts1 t ts2 c p t' sp i' [Hs Hts Hpl Hr] Hstep.
    pose proof (ii_step _ _ placed_inv _ _ _ _ _ _ _ _ _ Hpl Hstep) as Hpl'.
    assert (startable t) as Ht by (rewrite Forall_forall in Hts; apply Hts; set_solver).
    apply thread_step_cases in Hstep as
      [(-> & -> & err & Hboot & ->)|[(-> & Hp & -> & -> & ->)|(_ & r & r' & Hp & Hact & -> & ->)]].
    + rewrite app_nil_r in *. apply bootRuntime_cases in Hboot as (Hsp & _ & _ & Hptr). split.
      * congruence.
      * eapply Forall_middle; [done|]. by destruct err.
      * done.
      * intros r Hp. destruct Hptr as [Heq|(_ & Heq & _)]; [apply Hr; congruence|].
        rewrite Heq in Hp. injection Hp as <-. apply fresh_accounted.
    + rewrite app_nil_r in *. split; [done| |done|done]. by eapply Forall_middle.
    + split; [done| |done|].
      * apply Forall_app_2; [|apply Forall_fmap, Forall_true; done].
        eapply Forall_middle; [done|]. apply thread_action_protocol in Hact.
        eapply startable_step; [| |exact Hact|done]; by rewrite Hs.
      * intros r1 [= <-]. eapply action_accounted; [exact Ht| |by apply Hr|exact Hact].
        pose proof (pl_threads _ _ Hpl) as Hall. unfold records in Hall. rewrite Hp in Hall.
        rewrite Forall_forall in Hall. apply Hall. set_solver.
Qed.

(** ** Reachable states *)

Definition set_thread (n : nat) (t : thread) (r : runtime) (s : system) : system :=
  mkSystem (set_runtime r (sy_imp s)) (sy_ctxDone s) (<[n := t]> (sy_threads s)).

(** A step against the runtime that launches nothing. *)
Lemma sys_step_action n pick t t' s r r' :
  sy_threads s !! n = Some t -> imp_rtPtr (sy_imp s) = Some r -> t <> TRunBoot ->
  thread_action (imp_spec (sy_imp s)) (imp_opts (sy_imp s)) (sy_ctxDone s) pick t r =
    (Done t', r') ->
  rt_goroutines r' = rt_goroutines r ->
  sys_step (LThread n pick) s = Some (set_thread n t' r' s).
Proof.
  intros Ht Hr Hne Hact Hg. simpl. rewrite Ht. simpl.
  assert (thread_step (sy_ctxDone s) pick t (sy_imp s) = Next t' [] (set_runtime r' (sy_imp s)))
    as ->; [|by rewrite app_nil_r].
  destruct t; try done; unfold thread_step; rewrite Hr, Hact, Hg, drop_all; done.
Qed.

Lemma sys_run_app ls ls' s s' :
  sys_run ls s = Some s' -> sys_run (ls ++ ls') s = sys_run ls' s'.
Proof.
  revert s. induction ls as [|l ls IH]; simpl; intros s; [by intros [= ->]|].
  destruct (sys_step l s) as [s1|]; simpl; [apply IH|done].
Qed.

Definition lifecycle (s : system) : State :=
  match imp_rtPtr (sy_imp s) with
  | Some r => Machine_Get (rt_state r)
  | None => StateCreated
  end.

Lemma reach_counted i ls s :
  unstarted i -> sys_run ls (initial i) = Some s -> counted (sy_imp s) (sy_threads s).
Proof.
  intros [Ho Hp] Hrun. eapply inv_run; [apply counted_inv|done|done| |exact Hrun].
  unfold counted; simpl. by rewrite Hp.
Qed.

Lemma reach_placed i ls s :
  unstarted i -> sys_run ls (initial i) = Some s -> placed (sy_imp s) (sy_threads s).
Proof.
  intros [_ Hp] Hrun. eapply inv_run; [apply placed_inv|done|done| |exact Hrun].
  split; simpl; [by rewrite Hp|constructor].
Qed.

Lemma reach_accounts `{!ServerLaws} i ls s :
  unstarted i -> validateSpec (imp_spec i) = None ->
  Forall channel_ints (is_Channels (imp_spec i)) -> sys_run ls (initial i) = Some s ->
  accounts (imp_spec i) (sy_imp s) (sy_threads s).
Proof.
  intros [Ho Hp] Hv Hint Hrun.
  eapply inv_run; [by apply accounts_inv|done|done| |exact Hrun].
  split; simpl; [done|constructor|split; simpl; [by rewrite Hp|constructor]|by rewrite Hp].
Qed.

(** ** Properties *)

(** The units of the wait group and of the gauge are the running goroutines when no
    launch is half done and no goroutine is between its deferred calls. *)
Lemma count_settled ts :
  Forall (fun t => in_passing t = false) ts ->
  count in_wg ts = count thinks ts /\ count in_gauge ts = count thinks ts.
Proof.
  induction 1 as [|t ts Ht _ [Hw Hg]]; [done|]. rewrite !count_cons, Hw, Hg. by destruct t.
Qed.

(** C8: the wait group and the in-flight gauge are exact. In every state any
    schedule of calls, messages and threads reaches, the wait group counts the
    goroutines from the addition of their launch to their deferred [Done], and the
    gauge, an int64, those from its increment to its decrement; so the wait group
    never goes negative, and when no launch is half done and no goroutine is between
    its deferred calls both are the number of thinking functions running. *)
Theorem thinking_counted i ls s r :
  unstarted i -> sys_run ls (initial i) = Some s -> imp_rtPtr (sy_imp s) = Some r ->
  rt_thinkingWG r = count in_wg (sy_threads s) /\ (0 <= rt_thinkingWG r)%Z /\
  M_InflightThinking (Imp_Metrics (sy_imp s)) = int64 (count in_gauge (sy_threads s)) /\
  (Forall (fun t => in_passing t = false) (sy_threads s) ->
   rt_thinkingWG r = count thinks (sy_threads s) /\
   M_InflightThinking (Imp_Metrics (sy_imp s)) = int64 (count thinks (sy_threads s))).
Proof.
  intros Hun Hrun Hr. pose proof (reach_counted _ _ _ Hun Hrun) as HP.
  unfold counted in HP. unfold Imp_Metrics. rewrite Hr in *. destruct HP as (_ & Hw & Hm).
  split_and!; [done|rewrite Hw; apply count_nonneg|done|].
  intros [Hcw Hcg]%count_settled. split; [by rewrite Hw|]. by rewrite <- Hcg.
Qed.

End System.

(** ** Witnesses *)

Section SystemWitnesses.
Import Demo.

Definition demo : Imp := demo_imp defaultRuntimeOptions.
Definition step (n : nat) : label := LThread n false.

Lemma observe_run {A} (f : system -> A) ls s0 a :
  f <$> sys_run ls s0 = Some a -> exists s, sys_run ls s0 = Some s /\ f s = a.
Proof. destruct (sys_run ls s0) as [s|]; [|done]. intros [= <-]. by exists s. Qed.

(** The imp up and running, with one thinking goroutine. *)
Definition up : list label :=
  LCallRun :: replicate 7 (step 0) ++ LMessage 0 demo_msg :: replicate 4 (step 1).
(** That goroutine, to its end. *)
Definition thought : list label := replicate 3 (step 2).
Definition after (ls : list label) : system := default (initial demo) (sys_run ls (initial demo)).
Definition runtime_after (ls : list label) : runtime :=
  default demo_runtime (imp_rtPtr (sy_imp (after ls))).

Lemma demo_unstarted : unstarted demo.
Proof. by split. Qed.

Lemma after_run ls :
  (if sys_run ls (initial demo) then true else false) = true ->
  sys_run ls (initial demo) = Some (after ls).
Proof. apply Some_default. Qed.

Lemma runtime_after_ptr ls :
  (if imp_rtPtr (sy_imp (after ls)) then true else false) = true ->
  imp_rtPtr (sy_imp (after ls)) = Some (runtime_after ls).
Proof. apply Some_default. Qed.

Lemma after_steps ls ls' :
  (if sys_run ls (initial demo) then true else false) = true ->
  (if sys_run (ls ++ ls') (initial demo) then true else false) = true ->
  sys_run ls' (after ls) = Some (after (ls ++ ls')).
Proof. intros H1%after_run H2%after_run. by rewrite (sys_run_app _ _ _ _ H1) in H2. Qed.

Lemma after_step ls l :
  (if sys_run ls (initial demo) then true else false) = true ->
  (if sys_run (ls ++ [l]) (initial demo) then true else false) = true ->
  sys_step l (after ls) = Some (after (ls ++ [l])).
Proof.
  intros H1%after_run H2%after_run. rewrite (sys_run_app _ _ _ _ H1) in H2. cbn [sys_run] in H2.
  by destruct (sys_step l (after ls)).
Qed.

Lemma thinking_counted_witness :
  count thinks (sy_threads (after up)) = 1%Z /\
  rt_thinkingWG (runtime_after up) = count thinks (sy_threads (after up)).
Proof.
  split; [vm_compute; reflexivity|].
  apply (thinking_counted demo up (after up) (runtime_after up)).
  - exact demo_unstarted.
  - apply after_run. vm_compute. reflexivity.
  - apply runtime_after_ptr. vm_compute. reflexivity.
  - assert (in_passing <$> sy_threads (after up) = [false; false; false]) as Hnone
      by (vm_compute; reflexivity).
    apply Forall_fmap with (P := fun b => b = false). rewrite Hnone. by repeat constructor.
Defined.

End SystemWitnesses.
