(* ===== verification/Closing.v ===== *)
(** * Shutting down (imp.go)

    What [System] says of the lifecycle and of [Shutdown]: invariants of its protocol,
    the states a graceful shutdown leads to, its progress, and what it does not
    guarantee. *)

From stdpp Require Import gmultiset.
From S2P Require Import Prelude Values Substrate Model Validate Lifecycle Metrics Registry.
From S2P Require Import Runtime Request Dispatch GoTime Consumer Channels Callbacks Imp.
From S2P Require Import System.

Section Closing.
Context `{NatsEnv}.

(** ** Invariant: one caller runs the body of [Shutdown] *)

Definition is_body (t : thread) : bool :=
  match t with
  | TShutUnwind _ | TShutCancel | TShutDrain | TShutStop _ | TShutClose => true
  | _ => false
  end.
Definition is_joining (t : thread) : bool :=
  match t with TShutJoin | TShutReturned _ => true | _ => false end.

Definition drain_result (e : error) : Prop := e = None \/ e = Some drain_error.

Record shut_inv (k : control) (ts : list thread) : Prop := {
  sh_before : ct_once k = false ->
    count is_body ts = 0%Z /\ count is_joining ts = 0%Z /\ ct_stopped k = false;
  sh_body : ct_once k = true -> count is_body ts = if ct_stopped k then 0%Z else 1%Z;
  sh_returned e : TShutReturned e ∈ ts -> ct_stopped k = true /\ e = ct_err k;
  sh_stop e : TShutStop e ∈ ts -> drain_result e;
  sh_err : drain_result (ct_err k) }.

Lemma elem_of_step spec x t t' ts1 ts2 gs :
  x ∈ (ts1 ++ t' :: ts2) ++ (started spec <$> gs) -> runs_user_code x = false ->
  x = t' \/ x ∈ ts1 ++ t :: ts2.
Proof.
  rewrite !elem_of_app, !elem_of_cons. intros [[?|[?|?]]|(g & -> & _)%list_elem_of_fmap]; auto.
  done.
Qed.

Lemma shut_inv_step spec chs t k t' k' ts1 ts2 gs :
  protocol chs t k t' k' -> shut_inv k (ts1 ++ t :: ts2) ->
  shut_inv k' ((ts1 ++ t' :: ts2) ++ (started spec <$> gs)).
Proof.
  intros Hp [Hbe Hbo Hre Hst Her].
  pose proof (count_nonneg is_body ts1). pose proof (count_nonneg is_body ts2).
  pose proof (count_nonneg is_joining ts1). pose proof (count_nonneg is_joining ts2).
  assert (forall f, (forall g p, f (TThink g p) = false) ->
    count f ((ts1 ++ t' :: ts2) ++ (started spec <$> gs)) =
    (count f ts1 + ((if f t' then 1 else 0) + count f ts2))%Z) as Hcount.
  { intros f Hf. by rewrite !count_app, count_cons, count_unspawned, Z.add_0_r by done. }
  rewrite !count_app, !count_cons in *.
  assert (forall e, TShutReturned e ∈ (ts1 ++ t' :: ts2) ++ (started spec <$> gs) ->
    t' = TShutReturned e \/ ct_stopped k = true /\ e = ct_err k) as Hre'.
  { intros e Hin. by destruct (elem_of_step _ _ t _ _ _ _ Hin) as [->|?]; auto. }
  assert (forall e, TShutStop e ∈ (ts1 ++ t' :: ts2) ++ (started spec <$> gs) ->
    t' = TShutStop e \/ drain_result e) as Hst'.
  { intros e Hin. by destruct (elem_of_step _ _ t _ _ _ _ Hin) as [->|?]; eauto. }
  assert (forall e, t = TShutStop e -> drain_result e) as Hsto.
  { intros e ->. apply Hst. set_solver. }
  assert (is_body t = true -> ct_once k = true /\ ct_stopped k = false) as Hbody.
  { intros Hb. rewrite Hb in *. destruct (ct_once k); [|lia]. destruct (ct_stopped k); [lia|done]. }
  clear Hre Hst.
  split.
  - rewrite !Hcount by done. destruct Hp; simpl in *;
      intuition (auto; try congruence; try lia).
  - rewrite !Hcount by done. destruct Hp as [k|k| | | | | | | | | |k|k| | | | | |e k|k|k| | | | | | | |]; simpl in *;
      destruct (ct_once k), (ct_stopped k); intuition (auto; try congruence; try lia).
  - intros e Hin. destruct (Hre' e Hin) as [Heq|[Hs ->]].
    + destruct Hp; simplify_eq/=; auto.
    + destruct Hp; simpl in *; auto; intuition congruence.
  - intros e Hin. destruct (Hst' e Hin) as [Heq|Hd]; [|done].
    destruct Hp; simplify_eq/=; unfold drain_result; auto.
  - destruct Hp; simpl in *; auto.
Qed.

(** ** From the protocol to the system

    An invariant of the protocol is one of the system. [external] says whether
    anybody but [Run] itself calls [Shutdown]. *)

Definition fresh_control : control := mkControl StateCreated false None false.

Definition admitted (external : bool) (t : thread) : Prop := t = TShutBegin -> external = true.

Record protocol_inv (external : bool) (I : control -> list thread -> Prop) : Prop := {
  pi_init ts : Forall (fun t => early t = true /\ admitted external t) ts -> I fresh_control ts;
  pi_arrive k ts t : I k ts ->
    t = TRunBoot \/ t = TShutBegin \/ (exists d p, t = TDeliver d p) -> admitted external t ->
    I k (ts ++ [t]);
  pi_boot k ts1 ts2 t' : I k (ts1 ++ TRunBoot :: ts2) ->
    t' = TRunClaim \/ (exists e, t' = TReturned e) -> I k (ts1 ++ t' :: ts2);
  pi_step spec chs t k t' k' ts1 ts2 gs : protocol chs t k t' k' -> I k (ts1 ++ t :: ts2) ->
    I k' ((ts1 ++ t' :: ts2) ++ (started spec <$> gs)) }.

Definition lifted (external : bool) (I : control -> list thread -> Prop) (i : Imp)
    (ts : list thread) : Prop :=
  match imp_rtPtr i with
  | None => Forall (fun t => early t = true /\ admitted external t) ts
  | Some r => imp_rtOnce i = true /\ I (control_of r) ts
  end.

Lemma lifted_inv external I :
  protocol_inv external I -> inductive_inv (lifted external I) (admitted external).
Proof.
  intros [Hi Ha Hb Hs]. split.
  - intros i ts t HP Harr Hadm. unfold lifted in *.
    assert (t = TRunBoot \/ t = TShutBegin \/ exists d p, t = TDeliver d p) as Ht
      by (destruct t; try done; eauto).
    destruct (imp_rtPtr i) as [r|] eqn:Hr.
    + split; [apply HP|]. apply Ha; [apply HP|done|done].
    + apply Forall_snoc; [done|]. split; [|done].
      destruct t; try done. destruct Harr as (_ & ? & ? & Hx & _); congruence.
  - intros i ts1 t ts2 c p t' sp i' HP Hstep.
    apply thread_step_cases in Hstep as
      [(-> & -> & err & Hboot & ->)|[(-> & Hr & -> & -> & ->)|(_ & r & r' & Hr & Hact & -> & ->)]].
    + apply bootRuntime_cases in Hboot as (_ & _ & Ho & [Hp|(Ho' & Hp & ->)]); rewrite app_nil_r.
      * unfold lifted in *. rewrite Hp. destruct (imp_rtPtr i) as [r|].
        -- split; [done|]. apply Hb; [apply HP|]. destruct err; eauto.
        -- eapply Forall_middle; [done|]. by destruct err.
      * unfold lifted in *. rewrite Hp. split; [done|].
        destruct (imp_rtPtr i) as [r|]; [destruct HP; congruence|].
        apply Hi. by eapply Forall_middle.
    + unfold lifted in *. rewrite Hr in *. rewrite app_nil_r. by eapply Forall_middle.
    + unfold lifted in *. rewrite Hr in HP. simpl. destruct HP as [Ho HP]. split; [done|].
      apply thread_action_protocol in Hact. eapply Hs; [exact Hact|]. done.
Qed.

(** A protocol invariant holds in every state reached from an unstarted imp. *)
Lemma protocol_inv_reach external I ls i s r :
  protocol_inv external I -> unstarted i -> sys_run ls (initial i) = Some s ->
  (external = false -> LCallShutdown ∉ ls) -> imp_rtPtr (sy_imp s) = Some r ->
  I (control_of r) (sy_threads s).
Proof.
  intros HI [Ho Hp] Hrun Hext Hr.
  assert (lifted external I (sy_imp s) (sy_threads s)) as HP.
  { eapply inv_run; [by apply lifted_inv| | | |exact Hrun].
    - intros l t Hl Ht. destruct l; simplify_eq/=; [done|]. intros _.
      destruct external; [done|]. by specialize (Hext eq_refl).
    - done.
    - unfold lifted; simpl. by rewrite Hp. }
  unfold lifted in HP. rewrite Hr in HP. apply HP.
Qed.

Lemma shut_inv_protocol : protocol_inv true shut_inv.
Proof.
  assert (forall k ts1 ts2 ts3 t', shut_inv k (ts1 ++ ts2 ++ ts3) ->
    (forall t, t ∈ ts2 -> is_body t = false /\ is_joining t = false) ->
    is_body t' = false -> is_joining t' = false -> shut_inv k (ts1 ++ t' :: ts3)) as Hswap.
  { intros k ts1 ts2 ts3 t' [Hbe Hbo Hre Hst Her] Hts2 Hb Hj.
    assert (count is_body ts2 = 0%Z /\ count is_joining ts2 = 0%Z) as [C1 C2].
    { rewrite !count_zero, !Forall_forall. split; intros t Ht; by apply Hts2. }
    rewrite !count_app, C1, C2 in *. split.
    - rewrite !count_app, !count_cons, Hb, Hj. intros Ho.
      destruct (Hbe Ho) as (? & ? & ?). split_and!; [lia|lia|done].
    - rewrite !count_app, !count_cons, Hb. intros Ho. rewrite <- (Hbo Ho). lia.
    - intros e Hin. apply Hre. set_solver.
    - intros e Hin. apply Hst. set_solver.
    - done. }
  split.
  - intros ts Hts.
    assert (forall t, t ∈ ts -> early t = true) as He.
    { intros t Ht. rewrite Forall_forall in Hts. by apply Hts. }
    split; simpl.
    + intros _. rewrite !count_zero, !Forall_forall.
      split_and!; [intros t Ht; specialize (He t Ht); by destruct t..|done].
    + done.
    + intros e Hin. by specialize (He _ Hin).
    + intros e Hin. by specialize (He _ Hin).
    + by left.
  - intros k ts t HI Ht _. replace (ts ++ [t]) with (ts ++ t :: []) by done.
    apply (Hswap k ts [] [] t); [by rewrite app_nil_r|set_solver|..];
      by destruct Ht as [->|[->|(d & q & ->)]].
  - intros k ts1 ts2 t' HI Ht. apply (Hswap k ts1 [TRunBoot] ts2 t'); [done|set_solver|..];
      by destruct Ht as [->|[e ->]].
  - intros. by eapply shut_inv_step.
Qed.

(** ** Invariant: without outside calls of [Shutdown], one thread drives the state *)

(** The state that belongs to the driving thread's position. *)
Definition drives (t : thread) : option State :=
  match t with
  | TRunStart _ | TRunFailed _ | TRunReady => Some StateStarting
  | TRunSelect | TShutBegin => Some StateRunning
  | TShutUnwind _ | TShutCancel | TShutDrain | TShutStop _ => Some StateDraining
  | TShutClose | TShutJoin | TShutReturned _ => Some StateStopped
  | TRunUnwind _ _ | TStartReturned _ => Some StateFailed
  | _ => None
  end.

(** The driver also knows what it has done with the once. *)
Definition driver_once (t : thread) : option bool :=
  match t with
  | TRunSelect | TShutBegin => Some false
  | TShutUnwind _ | TShutCancel | TShutDrain | TShutStop _ | TShutClose | TShutJoin
  | TShutReturned _ => Some true
  | TRunStart _ | TRunFailed _ | TRunReady => Some false
  | _ => None
  end.

Record driven (k : control) (ts : list thread) : Prop := {
  dr_state : omap drives ts =
    if decide (ct_state k = StateCreated) then [] else [ct_state k];
  dr_once : Forall (fun t => forall b, driver_once t = Some b -> ct_once k = b) ts;
  dr_created : ct_state k = StateCreated -> ct_once k = false;
  dr_stopped : ct_stopped k = true -> ct_once k = true }.

Lemma omap_drives_nil ts : omap drives ts = [] <-> Forall (fun t => drives t = None) ts.
Proof.
  induction ts as [|t ts IH]; [done|]. rewrite Forall_cons, <- IH. cbn.
  destruct (drives t); naive_solver.
Qed.

Lemma driver_drives t : drives t = None -> driver_once t = None.
Proof. by destruct t. Qed.

Lemma idle_once k ts :
  Forall (fun t => drives t = None) ts ->
  Forall (fun t => forall b, driver_once t = Some b -> ct_once k = b) ts.
Proof.
  intros Hts. eapply Forall_impl; [done|]. intros t Ht b Hb.
  rewrite (driver_drives t Ht) in Hb. done.
Qed.

Lemma omap_spawned spec gs : omap drives (started spec <$> gs) = [].
Proof. apply omap_drives_nil, Forall_fmap, Forall_true. done. Qed.

(** A step of the driver, or the step that makes a driver of a thread. *)
Lemma driven_move spec k t t' k' ts1 ts2 gs st' :
  driven k (ts1 ++ t :: ts2) -> is_Some (drives t) \/ ct_state k = StateCreated ->
  drives t' = Some st' -> ct_state k' = st' -> st' <> StateCreated ->
  (forall b, driver_once t' = Some b -> ct_once k' = b) ->
  (ct_stopped k' = true -> ct_once k' = true) ->
  driven k' ((ts1 ++ t' :: ts2) ++ (started spec <$> gs)).
Proof.
  intros [Hst Hon Hcr Hstop] Hd Ht' Hk' Hne Honce Hstopped.
  assert (omap drives ts1 = [] /\ omap drives ts2 = []) as [E1 E2].
  { rewrite omap_app in Hst. cbn in Hst. destruct Hd as [[st Hd]|Hc].
    - rewrite Hd in Hst. case_decide; [by destruct (omap drives ts1)|].
      destruct (omap drives ts1) as [|s1 [|]]; simplify_eq/=; [|done..]. done.
    - rewrite decide_True in Hst by done. by apply app_eq_nil in Hst as [-> ?];
        destruct (drives t). }
  split.
  - rewrite omap_app, omap_spawned, app_nil_r, omap_app. cbn. rewrite E1, E2, Ht'.
    by rewrite decide_False, Hk' by congruence.
  - apply Forall_app_2; [apply Forall_app_2|].
    + by apply idle_once, omap_drives_nil.
    + constructor; [done|]. by apply idle_once, omap_drives_nil.
    + apply idle_once, omap_drives_nil, omap_spawned.
  - congruence.
  - done.
Qed.

(** A step that leaves the control alone, of a thread that does not drive. *)
Lemma driven_idle spec k t t' ts1 ts2 gs :
  driven k (ts1 ++ t :: ts2) -> drives t = None -> drives t' = None ->
  driven k ((ts1 ++ t' :: ts2) ++ (started spec <$> gs)).
Proof.
  intros [Hst Hon Hcr Hstop] Ht Ht'. split; try done.
  - rewrite omap_app, omap_spawned, app_nil_r. rewrite <- Hst, !omap_app. cbn.
    by rewrite Ht, Ht'.
  - apply Forall_app_2.
    + eapply Forall_middle; [done|]. intros b. by rewrite (driver_drives t' Ht').
    + apply idle_once, omap_drives_nil, omap_spawned.
Qed.

Lemma driven_state k ts1 t ts2 :
  driven k (ts1 ++ t :: ts2) -> forall st, drives t = Some st -> ct_state k = st.
Proof.
  intros HI st Hd. pose proof (dr_state _ _ HI) as Hs. rewrite omap_app in Hs. cbn in Hs.
  rewrite Hd in Hs. case_decide; [by destruct (omap drives ts1)|].
  destruct (omap drives ts1) as [|s1 [|]]; simplify_eq/=; done.
Qed.

Lemma driven_step spec chs t k t' k' ts1 ts2 gs :
  protocol chs t k t' k' -> driven k (ts1 ++ t :: ts2) ->
  driven k' ((ts1 ++ t' :: ts2) ++ (started spec <$> gs)).
Proof.
  intros Hp HI.
  assert (forall b, driver_once t = Some b -> ct_once k = b) as Hon.
  { pose proof (dr_once _ _ HI) as Hall. apply Forall_app in Hall as [_ Hall].
    by apply Forall_cons in Hall as [? _]. }
  pose proof (driven_state _ _ _ _ HI) as Hst.
  pose proof (dr_created _ _ HI) as Hcr. pose proof (dr_stopped _ _ HI) as Hstop.
  destruct Hp; simpl in Hon, Hst; try (by eapply driven_idle).
  all: try specialize (Hst _ eq_refl); try specialize (Hon _ eq_refl).
  all: try (eapply driven_move; [done|first [by left|by right]|done|done|done| |];
    simpl; intros; simplify_eq/=; auto; fail).
  all: try (rewrite Hstop in Hon by done; done).
  all: congruence.
Qed.

Lemma driven_protocol : protocol_inv false driven.
Proof.
  split.
  - intros ts Hts.
    assert (Forall (fun t => drives t = None) ts) as Hn.
    { eapply Forall_impl; [done|]. intros t [He Ha].
      destruct t; try done. by specialize (Ha eq_refl). }
    split; [by apply omap_drives_nil|by apply idle_once|done|done].
  - intros k ts t HI Ht Ha.
    assert (drives t = None) as Hn.
    { destruct Ht as [->|[->|(d & q & ->)]]; [done| |done]. by specialize (Ha eq_refl). }
    destruct HI as [Hst Hon Hcr Hstop]. split; try done.
    + rewrite omap_app. cbn. by rewrite Hn, app_nil_r.
    + apply Forall_snoc; [done|]. intros b. by rewrite (driver_drives t Hn).
  - intros k ts1 ts2 t' HI Ht. 
    assert (driven k ((ts1 ++ t' :: ts2) ++ [])) as Hd; [|by rewrite app_nil_r in Hd].
    apply (driven_idle (mkImpSpec "" "" [] None None [] None) k TRunBoot t' _ _ []); [done|done|].
    by destruct Ht as [->|[e ->]].
  - intros. by eapply driven_step.
Qed.

(** The transition a step makes, when one is made. *)
Lemma protocol_transition chs t k t' k' ts1 ts2 :
  protocol chs t k t' k' -> driven k (ts1 ++ t :: ts2) ->
  ct_state k' = ct_state k \/ documented (ct_state k) (ct_state k').
Proof.
  intros Hp HI.
  pose proof (driven_state _ _ _ _ HI) as Hst.
  destruct Hp; simpl in *; auto; right; try specialize (Hst _ eq_refl);
    try match goal with E : ct_state _ = _ |- _ => rewrite E end; constructor.
Qed.

(** ** Invariant: the state when [Shutdown] is called from outside *)

(** The transitions that then come on top: [Shutdown] begins before or during startup
    or after its failure, and what startup and [Shutdown] store at their ends covers
    what the other has stored. *)
Inductive overtaken : State -> State -> Prop :=
| ov_before_start : overtaken StateCreated StateDraining
| ov_in_startup : overtaken StateStarting StateDraining
| ov_after_failure : overtaken StateFailed StateDraining
| ov_ready_draining : overtaken StateDraining StateRunning
| ov_ready_stopped : overtaken StateStopped StateRunning
| ov_failed_draining : overtaken StateDraining StateFailed
| ov_failed_stopped : overtaken StateStopped StateFailed
| ov_stop_running : overtaken StateRunning StateStopped
| ov_stop_failed : overtaken StateFailed StateStopped.

(** The threads between the first phase of [Shutdown] and the state Stopped. *)
Definition to_stop (t : thread) : bool :=
  match t with
  | TShutUnwind _ | TShutCancel | TShutDrain | TShutStop _ => true
  | _ => false
  end.

(** One [Run] at most is in startup, one thread at most on its way to Stopped, and
    the states they and the once leave possible. *)
Record ordered (k : control) (ts : list thread) : Prop := {
  or_known : (StateCreated <= ct_state k <= StateFailed)%Z;
  or_one : (count in_startup ts <= 1 /\ count to_stop ts <= 1)%Z;
  or_created : ct_state k = StateCreated -> count in_startup ts = 0%Z;
  or_startup : (0 < count in_startup ts)%Z ->
    ct_state k = StateStarting \/ ct_state k = StateDraining \/ ct_state k = StateStopped;
  or_to_stop : (0 < count to_stop ts)%Z ->
    ct_state k = StateDraining \/ ct_state k = StateRunning \/ ct_state k = StateFailed;
  or_once : if ct_once k
    then ct_state k <> StateCreated /\ ct_state k <> StateStarting
    else count to_stop ts = 0%Z /\ ct_state k <> StateDraining /\ ct_state k <> StateStopped }.

Ltac lifecycle_lia :=
  unfold StateCreated, StateStarting, StateRunning, StateDraining, StateStopped, StateFailed in *;
  lia.

Lemma ordered_step spec chs t k t' k' ts1 ts2 gs :
  protocol chs t k t' k' -> ordered k (ts1 ++ t :: ts2) ->
  ordered k' ((ts1 ++ t' :: ts2) ++ (started spec <$> gs)).
Proof.
  intros Hp [Hkn Hone Hcr Hup Hdown Hon].
  pose proof (count_nonneg in_startup ts1). pose proof (count_nonneg in_startup ts2).
  pose proof (count_nonneg to_stop ts1). pose proof (count_nonneg to_stop ts2).
  rewrite !count_app, !count_cons in *.
  split; rewrite ?count_app, ?count_cons, ?count_unspawned, ?Z.add_0_r by done;
    destruct Hp; simpl in *; destruct (ct_once k); try done; lifecycle_lia.
Qed.

Lemma ordered_swap k ts ts' :
  count in_startup ts' = count in_startup ts -> count to_stop ts' = count to_stop ts ->
  ordered k ts -> ordered k ts'.
Proof. intros H1 H2 []. split; rewrite ?H1, ?H2; done. Qed.

Lemma ordered_protocol : protocol_inv true ordered.
Proof.
  split.
  - intros ts Hts.
    assert (count in_startup ts = 0%Z /\ count to_stop ts = 0%Z) as [C1 C2].
    { rewrite !count_zero. split; (eapply Forall_impl; [exact Hts|]); intros t [He _]; by destruct t. }
    split; rewrite ?C1, ?C2; simpl; lifecycle_lia.
  - intros k ts t HI Ht _. revert HI. apply ordered_swap; rewrite count_app;
      destruct Ht as [->|[->|(d & p & ->)]]; simpl; lia.
  - intros k ts1 ts2 t' HI Ht. revert HI. apply ordered_swap; rewrite !count_app, !count_cons;
      destruct Ht as [->|[e ->]]; simpl; lia.
  - intros. by eapply ordered_step.
Qed.

(** The transition a step makes then. *)
Lemma ordered_transition chs t k t' k' ts1 ts2 :
  protocol chs t k t' k' -> ordered k (ts1 ++ t :: ts2) ->
  ct_state k' = ct_state k \/ documented (ct_state k) (ct_state k') \/
  overtaken (ct_state k) (ct_state k').
Proof.
  intros Hp [Hkn Hone Hcr Hup Hdown Hon].
  pose proof (count_nonneg in_startup ts1). pose proof (count_nonneg in_startup ts2).
  pose proof (count_nonneg to_stop ts1). pose proof (count_nonneg to_stop ts2).
  rewrite !count_app, !count_cons in *.
  destruct Hp; simpl in *; auto; right.
  - match goal with E : ct_state k = _ |- _ => rewrite E end. left. constructor.
  - destruct Hup as [-> |[-> | ->]]; [lia|left; constructor|right; constructor..].
  - destruct Hup as [-> |[-> | ->]]; [lia|left; constructor|right; constructor..].
  - match goal with E : ct_once k = _ |- _ => rewrite E in Hon end.
    assert (ct_state k = StateCreated \/ ct_state k = StateStarting \/
      ct_state k = StateRunning \/ ct_state k = StateFailed) as [-> |[-> |[-> | ->]]];
      [lifecycle_lia|right; constructor|right; constructor|left; constructor|right; constructor].
  - destruct Hdown as [-> |[-> | ->]]; [lia|left; constructor|right; constructor..].
Qed.

(** ** After [Shutdown] has begun with startup over *)

Definition closing (st : State) : Prop := st = StateDraining \/ st = StateStopped.

(** The imp is shutting down or has shut down, and nobody starts it: nothing is
    bound any more, and [Shutdown] is on its way through the records or has released
    them all. [extra] is what is known about the threads. *)
Record retired (extra : thread -> Prop) (i : Imp) (ts : list thread) (r : runtime) : Prop := {
  re_runtime : imp_rtPtr i = Some r;
  re_booted : imp_rtOnce i = true;
  re_once : rt_shutdownOnce r = true;
  re_state : closing (Machine_Get (rt_state r));
  re_threads : Forall (fun t => in_startup t = false /\ extra t) ts;
  re_positions : Forall (positioned (rt_channels r)) ts;
  re_accounted : accounted r;
  re_quiet : (exists u, TShutUnwind u ∈ ts /\ covered u (rt_channels r)) \/
    Forall quiet (rt_channels r) }.

(** The protocol keeps a closing state closing when nobody is in startup. *)
Lemma protocol_closing chs t k t' k' :
  protocol chs t k t' k' -> ct_once k = true -> closing (ct_state k) -> in_startup t = false ->
  ct_once k' = true /\ closing (ct_state k') /\ in_startup t' = false.
Proof.
  intros Hp Ho Hc Hs.
  assert (ct_state k <> StateCreated) by (by destruct Hc as [-> | ->]).
  destruct Hp; simpl in *; split_and!; auto; try congruence; by right.
Qed.

Lemma startable_later t : in_startup t = false -> startable t.
Proof. by destruct t. Qed.

(** What a step of such a thread does to the channel records. *)
Lemma action_closing `{!ServerLaws} spec o c p t r t' r' :
  in_startup t = false -> positioned (rt_channels r) t -> accounted r ->
  thread_action spec o c p t r = (Done t', r') ->
  accounted r' /\ Forall2 released (rt_channels r) (rt_channels r') /\
  forall u, t = TShutUnwind u -> covered u (rt_channels r) ->
    (exists u', t' = TShutUnwind u' /\ covered u' (rt_channels r')) \/
    Forall quiet (rt_channels r').
Proof.
  intros Ht Hpos Ha Hact. split_and!.
  - eapply action_accounted; [by apply startable_later|exact Hpos|exact Ha|exact Hact].
  - destruct (action_records _ _ _ _ _ _ _ _ Hact) as (chs & new & -> & Hrel & Hnew).
    by rewrite Hnew, app_nil_r.
  - intros u -> Hu. destruct Ha as (lost & _ & Hb).
    destruct (action_unwinding _ _ _ _ (TShutUnwind u) _ _ _ _ eq_refl Hact) as (next & Hstep & _ & Hnext).
    pose proof (unwind_step_covers _ _ _ _ _ Hb Hpos Hu Hstep) as Hc.
    destruct t'; simplify_eq/=; eauto.
Qed.

Lemma retired_step `{!ServerLaws} (extra : thread -> Prop) i ts1 t ts2 r c p t' sp i' :
  (forall r', thread_action (imp_spec i) (imp_opts i) c p t r = (Done t', r') -> extra t') ->
  (forall e, extra (TReturned e)) -> extra TRunClaim ->
  retired extra i (ts1 ++ t :: ts2) r -> thread_step c p t i = Next t' sp i' ->
  (forall x, x ∈ sp -> extra x) ->
  exists r', retired extra i' ((ts1 ++ t' :: ts2) ++ sp) r'.
Proof.
  intros Hextra Hret Hcl [Hr Ho Hon Hst Hts Hpo Hac Hq] Hstep Hsp.
  assert (in_startup t = false) as Ht by (rewrite Forall_forall in Hts; apply Hts; set_solver).
  apply thread_step_cases in Hstep as
    [(-> & -> & err & Hboot & ->)|[(-> & Hp & -> & -> & ->)|(_ & r0 & r' & Hp & Hact & -> & ->)]];
    [|congruence|].
  - unfold bootRuntime in Hboot. rewrite Ho in Hboot. injection Hboot as <- <-.
    exists r. rewrite app_nil_r. split; try done; [by eapply Forall_middle..|].
    destruct Hq as [(u & Hin & Hu)|Hq]; [left; exists u; set_solver|by right].
  - assert (r0 = r) as -> by congruence. exists r'.
    pose proof (thread_action_protocol _ _ _ _ _ _ _ _ Hact) as Hpr.
    destruct (protocol_closing _ _ _ _ _ Hpr Hon Hst Ht) as (Hon' & Hst' & Ht').
    assert (positioned (rt_channels r) t) as Htp
      by (rewrite Forall_forall in Hpo; apply Hpo; set_solver).
    destruct (action_closing _ _ _ _ _ _ _ _ Ht Htp Hac Hact) as (Hac' & Hrel & Hcov).
    split; try done.
    + apply Forall_app_2.
      * eapply Forall_middle; [done|]. split; [done|by eapply Hextra].
      * apply Forall_forall. intros x Hx. split; [|by apply Hsp].
        by apply list_elem_of_fmap in Hx as (g & -> & _).
    + apply Forall_app_2; [|apply Forall_fmap, Forall_true; done].
      assert (Forall (positioned (rt_channels r')) (ts1 ++ t :: ts2)) as Hlater
        by (eapply Forall_impl; [exact Hpo|]; intros t1; by eapply positioned_later).
      eapply Forall_middle; [exact Hlater|]. by eapply action_positioned.
    + destruct Hq as [(u & Hin & Hu)|Hq].
      2:{ right. by eapply released_Forall; [apply released_quiet|..]. }
      apply elem_of_app in Hin as [Hin|[Heq|Hin]%elem_of_cons].
      * left. exists u. split; [set_solver|by eapply covered_released].
      * destruct (Hcov u) as [(u' & -> & Hu')|Hq]; [done|done| |by right].
        left. exists u'. split; [set_solver|done].
      * left. exists u. split; [set_solver|by eapply covered_released].
Qed.

Definition anything (t : thread) : Prop := True.

(** No callback, no thinking, and the releasing is over. *)
Definition releasing (t : thread) : bool := match t with TShutUnwind _ => true | _ => false end.
Definition idle (t : thread) : Prop := runs_user_code t = false /\ releasing t = false.

Lemma retired_inv `{!ServerLaws} :
  inductive_inv (fun i ts => exists r, retired anything i ts r) (fun _ => True).
Proof.
  split.
  - intros i ts t (r & [Hr Ho Hon Hst Hts Hpo Hac Hq]) Ha _. exists r. split; try done.
    + apply Forall_snoc; [done|]. split; [|done]. by destruct t.
    + apply Forall_snoc; [done|]. by destruct t.
    + destruct Hq as [(u & Hin & Hu)|Hq]; [left; exists u; set_solver|by right].
  - intros i ts1 t ts2 c p t' sp i' (r & HR) Hstep.
    eapply (retired_step anything); [done..|exact HR|exact Hstep|done].
Qed.

Lemma idle_no_unwind i ts r : retired idle i ts r -> Forall quiet (rt_channels r).
Proof.
  intros HR. destruct (re_quiet _ _ _ _ HR) as [(u & Hin & _)|Hq]; [|done].
  pose proof (re_threads _ _ _ _ HR) as Hts. rewrite Forall_forall in Hts.
  by destruct (Hts _ Hin) as (_ & _ & Hne).
Qed.

Lemma idle_step_thread spec o c p t r t' r' :
  rt_shutdownOnce r = true -> idle t ->
  thread_action spec o c p t r = (Done t', r') -> idle t' /\ rt_goroutines r' = rt_goroutines r.
Proof.
  intros Hon [Hu Hne] Hact. split.
  - apply thread_action_protocol in Hact. unfold idle.
    change (ct_once (control_of r) = true) in Hon.
    destruct Hact; simpl in *; try done; congruence.
  - by apply (preserves_Done _ _ _ _ _ (control_frame rt_goroutines spec o c p t
      ltac:(done) Hu)) in Hact.
Qed.

Lemma idle_inv `{!ServerLaws} :
  inductive_inv (fun i ts => exists r, retired idle i ts r) (fun _ => True).
Proof.
  split.
  - intros i ts t (r & HR) Ha _. pose proof (idle_no_unwind _ _ _ HR) as Hquiet.
    destruct HR as [Hr Ho Hon Hst Hts Hpo Hac _]. exists r.
    assert (in_startup t = false /\ idle t) as Ht.
    { destruct t; try done. destruct Ha as (_ & r1 & ch & Hr1 & Hch & _ & Hlive).
      rewrite Hr in Hr1. injection Hr1 as <-. rewrite Forall_forall in Hquiet.
      destruct (Hquiet ch Hch) as (Hs & Hc & _). destruct Hlive; congruence. }
    split; try done; [by apply Forall_snoc| |by right]. apply Forall_snoc; [done|]. by destruct t.
  - intros i ts1 t ts2 c p t' sp i' (r & HR) Hstep.
    assert (idle t) as Ht.
    { pose proof (re_threads _ _ _ _ HR) as Hts. rewrite Forall_forall in Hts.
      by destruct (Hts t ltac:(set_solver)). }
    pose proof (re_once _ _ _ _ HR) as Hon. pose proof (re_runtime _ _ _ _ HR) as Hr.
    eapply (retired_step idle); [|done|done|exact HR|exact Hstep|].
    + intros r' Hact. by eapply idle_step_thread.
    + intros x Hx. apply thread_step_cases in Hstep as
        [(_ & -> & _)|[(_ & _ & _ & -> & _)|(_ & r0 & r' & Hp & Hact & -> & _)]];
        [set_solver|set_solver|].
      assert (r0 = r) as -> by congruence.
      destruct (idle_step_thread _ _ _ _ _ _ _ _ Hon Ht Hact) as [_ Hg].
      rewrite Hg, drop_all in Hx. set_solver.
Qed.

(** The first phase of [Shutdown] retires an imp nobody is starting. *)
Lemma begin_retires i ts1 ts2 r c p t' sp i' :
  imp_rtPtr i = Some r -> imp_rtOnce i = true -> rt_shutdownOnce r = false -> accounted r ->
  Forall (positioned (rt_channels r)) (ts1 ++ TShutBegin :: ts2) ->
  Forall (fun t => in_startup t = false) (ts1 ++ TShutBegin :: ts2) ->
  thread_step c p TShutBegin i = Next t' sp i' ->
  exists r', retired anything i' ((ts1 ++ t' :: ts2) ++ sp) r'.
Proof.
  intros Hr Ho Hon Hac Hpo Hts Hstep. unfold thread_step, thread_action in Hstep.
  rewrite Hr in Hstep.
  rewrite (bind_Done _ _ _ _ _ (shutdown_begin_first (imp_opts i) r Hon)) in Hstep.
  unfold ret in Hstep. injection Hstep as <- <- <-.
  exists (begun (imp_opts i) r). split; try done.
  - by left.
  - apply Forall_app_2.
    + eapply (Forall_middle _ _ TShutBegin); [|done].
      eapply Forall_impl; [done|]. by intros t Ht.
    + apply Forall_fmap, Forall_true. done.
  - apply Forall_app_2; [|apply Forall_fmap, Forall_true; done].
    by eapply (Forall_middle _ _ TShutBegin).
  - by apply (accounted_same r).
  - left. exists UBegin. split; [set_solver|done].
Qed.

(** ** Progress of [Shutdown] *)

(** The steps the body has left, with [l] channel records. *)
Definition body_rank (l : nat) (t : thread) : nat :=
  match t with
  | TShutUnwind u => unwind_rank l u + 4
  | TShutCancel => 4 | TShutDrain => 3 | TShutStop _ => 2 | TShutClose => 1
  | _ => 0
  end.

Lemma body_rank_bound t chs : positioned chs t -> body_rank (length chs) t <= 3 * length chs + 8.
Proof.
  destruct t; simpl; try lia. intros Hu. pose proof (unwind_rank_bounds u chs Hu). lia.
Qed.

(** The body's next step is always there, if the timer is allowed to fire. *)
Lemma body_step spec o c t r :
  is_body t = true -> positioned (rt_channels r) t ->
  exists t' r', thread_action spec o c true t r = (Done t', r') /\
    rt_goroutines r' = rt_goroutines r /\ length (rt_channels r') = length (rt_channels r) /\
    body_rank (length (rt_channels r)) t' < body_rank (length (rt_channels r)) t /\
    (is_body t' = true \/ t' = TShutJoin /\ rt_stopped r' = true).
Proof.
  intros Hb Hpos. destruct t as [| | | | | | | |u| | | | | | | | | | | | | |]; try done.
  1:{ destruct (unwind_step_run u r) as (next & r' & Hs & _ & Hrel).
      pose proof (unwind_rank_bounds u _ Hpos).
      exists (match next with Some u' => TShutUnwind u' | None => TShutCancel end), r'.
      simpl. rewrite (bind_Done _ _ _ _ _ Hs). split_and!; [done| | | |left; by destruct next].
      - exact (preserves_Done _ _ _ _ _ (unwind_step_frame rt_goroutines ltac:(done) u) Hs).
      - symmetry. by eapply Forall2_length.
      - destruct next as [u'|]; simpl; [|lia].
        pose proof (unwind_step_rank u r u' r' Hpos Hs). lia. }
  all: unfold thread_action; simpl; eexists _, _; split_and!; [done|done|done|simpl; lia|].
  1-3: by left. by right.
Qed.

(** A run of one thread alone. *)
Notation alone n k := (replicate k (LThread n true)).

Lemma body_runs n : forall m t s r,
  body_rank (length (rt_channels r)) t <= n -> is_body t = true ->
  positioned (rt_channels r) t -> sy_threads s !! m = Some t ->
  imp_rtPtr (sy_imp s) = Some r ->
  exists k s' r', sys_run (alone m k) s = Some s' /\ k <= n /\
    imp_rtPtr (sy_imp s') = Some r' /\ rt_stopped r' = true /\
    sy_threads s' = <[m := TShutJoin]> (sy_threads s).
Proof.
  induction n as [|n IH]; intros m t s r Hn Hb Hpos Ht Hr;
    (destruct (body_step (imp_spec (sy_imp s)) (imp_opts (sy_imp s)) (sy_ctxDone s) t r Hb Hpos)
      as (t' & r' & Hact & Hg & Hlen & Hrank & Hnext)); [lia|].
  assert (sys_step (LThread m true) s = Some (set_thread m t' r' s)) as Hstep.
  { apply (sys_step_action m true t t' s r r'); try done. by intros ->. }
  pose proof (action_positioned _ _ _ _ _ _ _ _ Hpos Hact) as Hpos'.
  pose proof (lookup_lt_Some _ _ _ Ht) as Hlt.
  destruct Hnext as [Hb'|[-> Hstop]].
  - destruct (IH m t' (set_thread m t' r' s) r') as (k & s' & r2 & Hrun & Hk & Hr2 & Hs2 & Hts);
      [rewrite Hlen; lia|done|done|by apply list_lookup_insert_eq|done|].
    exists (S k), s', r2. cbn [replicate sys_run]. rewrite Hstep. simpl.
    split_and!; [done|lia|done|done|]. rewrite Hts. simpl. by rewrite list_insert_insert_eq.
  - exists 1, (set_thread m TShutJoin r' s), r'. cbn [replicate sys_run]. rewrite Hstep.
    split_and!; [done|lia|done..].
Qed.

Lemma join_step n s r :
  sy_threads s !! n = Some TShutJoin -> imp_rtPtr (sy_imp s) = Some r -> rt_stopped r = true ->
  exists s', sys_run (alone n 1) s = Some s' /\
    sy_threads s' !! n = Some (TShutReturned (rt_shutdownErr r)).
Proof.
  intros Ht Hr Hs. exists (set_thread n (TShutReturned (rt_shutdownErr r)) r s).
  pose proof (lookup_lt_Some _ _ _ Ht) as Hlt. split; [|by apply list_lookup_insert_eq].
  cbn [replicate sys_run].
  rewrite (sys_step_action n true TShutJoin (TShutReturned (rt_shutdownErr r)) s r r); try done.
  unfold thread_action, shutdown_join, gets, bind. by rewrite Hs.
Qed.

(** The steps the body takes at most. *)
Definition body_bound (s : system) : nat := 3 * length (records (sy_imp s)) + 8.

Lemma body_runs_bound m t s r :
  placed (sy_imp s) (sy_threads s) -> is_body t = true -> sy_threads s !! m = Some t ->
  imp_rtPtr (sy_imp s) = Some r ->
  exists k s' r', sys_run (alone m k) s = Some s' /\ k <= body_bound s /\
    imp_rtPtr (sy_imp s') = Some r' /\ rt_stopped r' = true /\
    sy_threads s' = <[m := TShutJoin]> (sy_threads s).
Proof.
  intros [_ Hpl] Hb Ht Hr. unfold body_bound, records in *. rewrite Hr in *.
  rewrite Forall_forall in Hpl. pose proof (Hpl t (list_elem_of_lookup_2 _ _ _ Ht)) as Hpos.
  by apply (body_runs _ m t s r); [apply body_rank_bound|..].
Qed.

(** A caller that waits is released by the one that runs the body. *)
Lemma join_runs n s r :
  placed (sy_imp s) (sy_threads s) -> shut_inv (control_of r) (sy_threads s) ->
  imp_rtPtr (sy_imp s) = Some r -> sy_threads s !! n = Some TShutJoin ->
  exists m tm k s' e, sy_threads s !! m = Some tm /\ (m = n \/ is_body tm = true) /\
    sys_run (alone m k ++ alone n 1) s = Some s' /\ k <= body_bound s /\
    sy_threads s' !! n = Some (TShutReturned e).
Proof.
  intros Hpl HI Hr Ht. destruct (rt_stopped r) eqn:Hs.
  { destruct (join_step n s r Ht Hr Hs) as (s' & Hrun & Hret).
    exists n, TShutJoin, 0, s', (rt_shutdownErr r). split_and!; [done|by left|done|lia|done]. }
  destruct (rt_shutdownOnce r) eqn:Ho.
  2:{ destruct (sh_before _ _ HI Ho) as (_ & Hj & _).
      pose proof (count_elem is_joining _ _ (list_elem_of_lookup_2 _ _ _ Ht) eq_refl). lia. }
  pose proof (sh_body _ _ HI Ho) as Hbody. simpl in Hbody. rewrite Hs in Hbody.
  assert (exists m t, sy_threads s !! m = Some t /\ is_body t = true) as (m & t & Hm & Hb).
  { destruct (decide (Exists (fun t => is_body t = true) (sy_threads s))) as [Hex|Hnex].
    - apply Exists_exists in Hex as (t & Hin & Hb).
      apply list_elem_of_lookup in Hin as [m Hm]. by exists m, t.
    - exfalso. assert (count is_body (sy_threads s) = 0%Z); [|lia].
      apply count_zero, Forall_forall. intros t Hin. destruct (is_body t) eqn:Hb; [|done].
      destruct Hnex. apply Exists_exists. by exists t. }
  destruct (body_runs_bound m t s r Hpl Hb Hm Hr) as (k & s1 & r1 & Hrun & Hk & Hr1 & Hs1 & Hts).
  assert (m <> n) as Hne by (intros ->; rewrite Ht in Hm; by injection Hm as <-).
  destruct (join_step n s1 r1) as (s2 & Hrun2 & Hret);
    [by rewrite Hts, list_lookup_insert_ne|done|done|].
  exists m, t, k, s2, (rt_shutdownErr r1). rewrite (sys_run_app _ _ _ _ Hrun).
  by split_and!; [|right|..].
Qed.

(** The one that runs the body comes to its own join. *)
Lemma body_then_join n t s r :
  placed (sy_imp s) (sy_threads s) -> is_body t = true -> sy_threads s !! n = Some t ->
  imp_rtPtr (sy_imp s) = Some r ->
  exists k s' e, sys_run (alone n k ++ alone n 1) s = Some s' /\ k <= body_bound s /\
    sy_threads s' !! n = Some (TShutReturned e).
Proof.
  intros Hpl Hb Ht Hr.
  destruct (body_runs_bound n t s r Hpl Hb Ht Hr) as (k & s1 & r1 & Hrun & Hk & Hr1 & Hs1 & Hts).
  pose proof (lookup_lt_Some _ _ _ Ht).
  destruct (join_step n s1 r1) as (s2 & Hrun2 & Hret);
    [by rewrite Hts, list_lookup_insert_eq|done|done|].
  exists k, s2, (rt_shutdownErr r1). by rewrite (sys_run_app _ _ _ _ Hrun).
Qed.

(** ** Properties *)

Definition shutting (t : thread) : bool :=
  match t with TShutBegin | TShutJoin => true | _ => is_body t end.

(** C6: all callers of [Shutdown] agree. The body runs once: in every reachable
    state at most one thread is inside it, a caller has returned from the join only
    when [stopped] is closed, and every such return — of a second [Shutdown], or of
    a [Run] whose select saw [stopped] — is the one recorded error, which is nil or
    the drain error. *)
Theorem shutdown_agrees i ls s r :
  unstarted i -> sys_run ls (initial i) = Some s -> imp_rtPtr (sy_imp s) = Some r ->
  (count is_body (sy_threads s) <= 1)%Z /\
  forall e, TShutReturned e ∈ sy_threads s ->
    rt_stopped r = true /\ e = rt_shutdownErr r /\ (e = None \/ e = Some drain_error).
Proof.
  intros Hun Hrun Hr.
  pose proof (protocol_inv_reach true shut_inv ls i s r shut_inv_protocol Hun Hrun
    ltac:(done) Hr) as HI.
  split.
  - destruct (rt_shutdownOnce r) eqn:Ho.
    + rewrite (sh_body _ _ HI Ho). by case_match.
    + by destruct (sh_before _ _ HI Ho) as (-> & _).
  - intros e He. destruct (sh_returned _ _ HI e He) as [Hs ->].
    split_and!; [done|done|]. apply (sh_err _ _ HI).
Qed.

(** A step keeps the lifecycle state, or is a step of the protocol. *)
Lemma lifecycle_step i ls l s s' :
  unstarted i -> sys_run ls (initial i) = Some s -> sys_step l s = Some s' ->
  lifecycle s' = lifecycle s \/
  exists r ts1 t ts2 chs t' k', imp_rtPtr (sy_imp s) = Some r /\
    sy_threads s = ts1 ++ t :: ts2 /\ protocol chs t (control_of r) t' k' /\
    lifecycle s = ct_state (control_of r) /\ lifecycle s' = ct_state k'.
Proof.
  intros Hun Hrun Hstep. destruct l as [| | |n msg|n msg|n pick].
  - injection Hstep as <-. by left.
  - injection Hstep as <-. by left.
  - injection Hstep as <-. by left.
  - apply arrive_inv in Hstep as (? & ? & _ & _ & _ & ->). by left.
  - apply arrive_inv in Hstep as (? & ? & _ & _ & _ & ->). by left.
  - apply sys_step_thread in Hstep as (ts1 & t & ts2 & t' & sp & i' & Hts & _ & Hstep & ->).
    unfold lifecycle; simpl. apply thread_step_cases in Hstep as
      [(-> & -> & err & Hboot & ->)|[(-> & Hp & -> & -> & ->)|(_ & r & r' & Hr & Hact & -> & ->)]].
    + left. apply bootRuntime_cases in Hboot as (_ & _ & _ & [-> |(Ho & Hp & _)]); [done|].
      pose proof (reach_counted _ _ _ Hun Hrun) as HP. unfold counted in HP.
      destruct (imp_rtPtr (sy_imp s)); [destruct HP; congruence|]. by rewrite Hp.
    + by left.
    + right. rewrite Hr. apply thread_action_protocol in Hact.
      eexists r, ts1, t, ts2, _, t', _. by split_and!.
Qed.

(** C2: the lifecycle, over every schedule, however many times [Run] and [Shutdown] are
    called and whatever messages and thinking do. Every step keeps the state or makes
    one of the transitions the package documents or of the nine of [overtaken], in
    which [Shutdown] and startup overtake each other; and if only [Run] itself ever
    calls [Shutdown], it keeps the state or makes a documented one. *)
Theorem lifecycle_documented i ls l s s' :
  unstarted i -> sys_run ls (initial i) = Some s -> sys_step l s = Some s' ->
  (lifecycle s' = lifecycle s \/ documented (lifecycle s) (lifecycle s') \/
   overtaken (lifecycle s) (lifecycle s')) /\
  (LCallShutdown ∉ ls -> lifecycle s' = lifecycle s \/ documented (lifecycle s) (lifecycle s')).
Proof.
  intros Hun Hrun Hstep.
  destruct (lifecycle_step i ls l s s' Hun Hrun Hstep)
    as [Hsame|(r & ts1 & t & ts2 & chs & t' & k' & Hr & Hts & Hp & -> & ->)]; [auto|].
  split.
  - pose proof (protocol_inv_reach true ordered ls i s r ordered_protocol Hun Hrun
      ltac:(done) Hr) as HI. rewrite Hts in HI. by eapply ordered_transition.
  - intros Hls. pose proof (protocol_inv_reach false driven ls i s r driven_protocol Hun Hrun
      ltac:(done) Hr) as HI. rewrite Hts in HI. by eapply protocol_transition.
Qed.

(** The labels of a run by threads that are in [Shutdown] in [s]. *)
Definition by_shutting (s : system) (ls : list label) : Prop :=
  Forall (fun l => exists m tm, l = LThread m true /\ sy_threads s !! m = Some tm /\
    shutting tm = true) ls.

Lemma by_shutting_alone s n t k :
  sy_threads s !! n = Some t -> shutting t = true -> by_shutting s (alone n k).
Proof.
  intros Ht Hs. apply Forall_forall. intros l Hl%elem_of_replicate. destruct Hl as [-> _].
  by exists n, t.
Qed.

(** The first step of a caller. *)
Lemma begin_step n s r :
  sy_threads s !! n = Some TShutBegin -> imp_rtPtr (sy_imp s) = Some r ->
  sys_step (LThread n true) s =
    Some (if rt_shutdownOnce r then set_thread n TShutJoin r s
          else set_thread n (TShutUnwind UBegin) (begun (imp_opts (sy_imp s)) r) s).
Proof.
  intros Ht Hr. destruct (rt_shutdownOnce r) eqn:Ho.
  - apply (sys_step_action n true TShutBegin TShutJoin s r r); try done.
    unfold thread_action, shutdown_begin, gets, bind, ret. by rewrite Ho.
  - apply (sys_step_action n true TShutBegin (TShutUnwind UBegin) s r
      (begun (imp_opts (sy_imp s)) r)); try done.
    unfold thread_action. by rewrite (bind_Done _ _ _ _ _ (shutdown_begin_first _ r Ho)).
Qed.

(** Within so many steps of threads in [Shutdown], thread [n] has returned. *)
Definition can_return (n : nat) (s : system) : Prop :=
  exists ls' s', sys_run ls' s = Some s' /\
    length ls' <= 3 * length (records (sy_imp s)) + 10 /\ by_shutting s ls' /\
    exists e, sy_threads s' !! n = Some (TShutReturned e) \/
      (sy_threads s' !! n = Some (TReturned e) /\ e = None).

(** A run of one thread and then of [n], as a return of [n]. *)
Lemma can_return_alone n t s m tm k s' e :
  sy_threads s !! n = Some t -> shutting t = true ->
  sy_threads s !! m = Some tm -> m = n \/ is_body tm = true ->
  sys_run (alone m k ++ alone n 1) s = Some s' -> k <= body_bound s ->
  sy_threads s' !! n = Some (TShutReturned e) -> can_return n s.
Proof.
  intros Ht Hs Hm Hmn Hrun Hk Hret. exists (alone m k ++ alone n 1), s'. split_and!; [done| | |eauto].
  - unfold body_bound in Hk. rewrite length_app, !length_replicate. simpl. lia.
  - apply Forall_app_2; [|by eapply by_shutting_alone]. eapply by_shutting_alone; [done|].
    destruct Hmn as [-> |Hb']; [|by destruct tm]. rewrite Ht in Hm. by injection Hm as <-.
Qed.

(** The same after a first step of [n] that moves nobody else. *)
Lemma can_return_after n t1 r1 s m tm k s' e :
  sy_threads s !! n = Some TShutBegin ->
  sys_step (LThread n true) s = Some (set_thread n t1 r1 s) ->
  sy_threads (set_thread n t1 r1 s) !! m = Some tm -> m = n \/ is_body tm = true ->
  sys_run (alone m k ++ alone n 1) (set_thread n t1 r1 s) = Some s' -> k <= body_bound s ->
  sy_threads s' !! n = Some (TShutReturned e) -> can_return n s.
Proof.
  intros Ht Hstep Hm Hmn Hrun Hk Hret.
  exists (LThread n true :: alone m k ++ alone n 1), s'. split_and!; [| | |eauto].
  - cbn [sys_run]. by rewrite Hstep.
  - unfold body_bound in Hk. simpl. rewrite length_app, !length_replicate. simpl. lia.
  - constructor; [by eexists n, _|]. apply Forall_app_2; [|by eapply by_shutting_alone].
    destruct (decide (m = n)) as [->|Hne]; [by eapply by_shutting_alone|].
    simpl in Hm. rewrite list_lookup_insert_ne in Hm by done.
    destruct Hmn as [|Hb']; [done|]. eapply by_shutting_alone; [done|]. by destruct tm.
Qed.

(** A caller whose imp was never started. *)
Lemma can_return_unstarted n s :
  sy_threads s !! n = Some TShutBegin -> imp_rtPtr (sy_imp s) = None -> can_return n s.
Proof.
  intros Ht Hr. exists (alone n 1). eexists.
  split_and!; [|simpl; lia|by eapply by_shutting_alone|].
  - simpl. rewrite Ht. simpl. rewrite Hr. simpl. done.
  - exists None. right. split; [|done]. simpl. rewrite app_nil_r.
    apply list_lookup_insert_eq. by eapply lookup_lt_Some.
Qed.

Lemma can_return_begin i ls s n r :
  unstarted i -> sys_run ls (initial i) = Some s -> imp_rtPtr (sy_imp s) = Some r ->
  sy_threads s !! n = Some TShutBegin -> can_return n s.
Proof.
  intros Hun Hrun Hr Ht. pose proof (begin_step n s r Ht Hr) as Hstep.
  pose proof (lookup_lt_Some _ _ _ Ht) as Hlt.
  set (t1 := if rt_shutdownOnce r then TShutJoin else TShutUnwind UBegin).
  set (r1 := if rt_shutdownOnce r then r else begun (imp_opts (sy_imp s)) r).
  assert (sys_step (LThread n true) s = Some (set_thread n t1 r1 s)) as Hstep1
    by (unfold t1, r1; by destruct (rt_shutdownOnce r)).
  assert (sys_run (ls ++ alone n 1) (initial i) = Some (set_thread n t1 r1 s)) as Hrun1.
  { rewrite (sys_run_app _ _ _ _ Hrun). cbn [replicate sys_run]. by rewrite Hstep1. }
  pose proof (reach_placed _ _ _ Hun Hrun1) as Hpl.
  assert (body_bound (set_thread n t1 r1 s) = body_bound s) as Hbound.
  { unfold body_bound, records, r1. rewrite Hr. simpl. by destruct (rt_shutdownOnce r). }
  assert (sy_threads (set_thread n t1 r1 s) !! n = Some t1) as Hn
    by by apply list_lookup_insert_eq.
  destruct (rt_shutdownOnce r) eqn:Ho.
  - pose proof (protocol_inv_reach true shut_inv _ i _ r1 shut_inv_protocol Hun Hrun1
      ltac:(done) eq_refl) as HI.
    destruct (join_runs n _ r1 Hpl HI eq_refl Hn) as (m & tm & k & s' & e & Hm & Hmn & Hrun' & Hk & Hret).
    rewrite Hbound in Hk. by eapply can_return_after.
  - destruct (body_then_join n t1 _ r1 Hpl eq_refl Hn eq_refl) as (k & s' & e & Hrun' & Hk & Hret).
    rewrite Hbound in Hk. eapply (can_return_after n _ r1 s n); eauto.
Qed.

(** C7: [Shutdown] can always return. From every reachable state, every caller of
    [Shutdown] returns after at most [3 * n + 10] further steps, where [n] is the
    number of channel records, all of them of threads that are in [Shutdown]
    themselves: no message callback and no thinking function has to move. The drain
    timer is what makes this true when thinking hangs. *)
Theorem shutdown_returns i ls s n t :
  unstarted i -> sys_run ls (initial i) = Some s ->
  sy_threads s !! n = Some t -> shutting t = true ->
  can_return n s.
Proof.
  intros Hun Hrun Ht Hs.
  pose proof (reach_placed _ _ _ Hun Hrun) as Hpl.
  pose proof (reach_counted _ _ _ Hun Hrun) as Hcount. unfold counted in Hcount.
  destruct (imp_rtPtr (sy_imp s)) as [r|] eqn:Hr.
  2:{ rewrite Forall_forall in Hcount. specialize (Hcount t (list_elem_of_lookup_2 _ _ _ Ht)).
      apply can_return_unstarted; [|done]. rewrite Ht. by destruct t. }
  destruct (is_body t) eqn:Hb.
  { destruct (body_then_join n t s r Hpl Hb Ht Hr) as (k & s' & e & Hrun' & Hk & Hret).
    by eapply (can_return_alone n t s n); eauto. }
  assert (t = TShutBegin \/ t = TShutJoin) as [-> | ->] by (destruct t; auto; done).
  - by eapply can_return_begin.
  - pose proof (protocol_inv_reach true shut_inv ls i s r shut_inv_protocol Hun Hrun
      ltac:(done) Hr) as HI.
    destruct (join_runs n s r Hpl HI Hr Ht) as (m & tm & k & s' & e & Hm & Hmn & Hrun' & Hk & Hret).
    by eapply (can_return_alone n TShutJoin s m).
Qed.

(** A state of a graceful shutdown is idle from the drain on. *)
Lemma drain_idles i ts1 ts2 r c t' sp i' :
  retired anything i (ts1 ++ TShutDrain :: ts2) r -> shut_inv (control_of r) (ts1 ++ TShutDrain :: ts2) ->
  rt_thinkingWG r = count in_wg (ts1 ++ TShutDrain :: ts2) ->
  Forall (fun t => is_callback t = false) (ts1 ++ TShutDrain :: ts2) ->
  thread_step c false TShutDrain i = Next t' sp i' ->
  exists r', retired idle i' ((ts1 ++ t' :: ts2) ++ sp) r'.
Proof.
  intros HR HI Hw Hd Hstep. pose proof (re_runtime _ _ _ _ HR) as Hr.
  unfold thread_step in Hstep. rewrite Hr in Hstep. simpl in Hstep.
  unfold waitDrain, gets, bind, ret, block in Hstep.
  destruct (decide (rt_thinkingWG r = 0%Z)) as [Hz|]; [|done].
  rewrite drop_all in Hstep. injection Hstep as <- <- <-. rewrite Hw in Hz.
  assert (forall u, TShutUnwind u ∉ ts1 ++ TShutDrain :: ts2) as Hnu.
  { intros u Hin. destruct (rt_shutdownOnce r) eqn:Ho; [|by rewrite (re_once _ _ _ _ HR) in Ho].
    pose proof (sh_body _ _ HI Ho) as Hb. rewrite count_app, count_cons in Hb. simpl in Hb.
    apply elem_of_app in Hin as [Hin|Hin%elem_of_cons]; [|destruct Hin as [|Hin]; [done|]];
      pose proof (count_elem is_body _ _ Hin eq_refl); pose proof (count_nonneg is_body ts1);
      pose proof (count_nonneg is_body ts2); destruct (rt_stopped r); lia. }
  destruct HR as [_ Ho Hon Hst Hts Hpo Hac Hq].
  assert (set_runtime r i = i) as -> by (destruct i; simpl in *; by subst).
  exists r. rewrite app_nil_r. split; try done.
  - assert (Forall (fun t => in_startup t = false /\ idle t) (ts1 ++ TShutDrain :: ts2)) as Hidle.
    { apply Forall_forall. intros t Hin. rewrite Forall_forall in Hts, Hd.
      split; [by apply Hts|]. unfold idle. split; [|destruct t; try done; by destruct (Hnu u)].
      specialize (Hd _ Hin). rewrite count_zero, Forall_forall in Hz. specialize (Hz _ Hin).
      by destruct t. }
    by eapply Forall_middle.
  - by eapply Forall_middle.
  - destruct Hq as [(u & Hin & _)|Hq]; [by destruct (Hnu u)|by right].
Qed.


(** The transition of the last step of a schedule. *)
Definition transition (i : Imp) (ls : list label) (l : label) : option (State * State) :=
  sys_run ls (initial i) ≫= fun s => sys_step l s ≫= fun s' => Some (lifecycle s, lifecycle s').

End Closing.

(** ** What schedules can still do, and witnesses *)

Section ClosingWitnesses.
Import Demo.

(** What a caller can see. *)
Definition observed (s : system) : bool * Z * option nat :=
  (Ready (sy_imp s), M_InflightThinking (Imp_Metrics (sy_imp s)),
   (fun r => size (live (rt_events r))) <$> imp_rtPtr (sy_imp s)).

(** [Run] binds the first of three channels; [Shutdown] runs to its end; [Run] goes
    on, and a message arrives. *)
Definition during_startup : list label :=
  [LCallRun; step 0; step 0; step 0] ++
  LCallShutdown :: replicate 10 (step 1) ++
  replicate 5 (step 0) ++ LStreamMessage 1 demo_jsmsg :: replicate 5 (step 2).

(** A callback has judged its message when [Shutdown] begins, and goes on after the
    drain. *)
Definition late_thinking : list label :=
  LCallRun :: replicate 7 (step 0) ++ [LMessage 0 demo_msg; step 1] ++
  LCallShutdown :: replicate 19 (step 2) ++ replicate 3 (step 1).

(** [Run] up to a point, [Shutdown] up to another, and again, and then one step. *)
Definition overtaking (n m n' m' : nat) : list label :=
  LCallRun :: replicate n (step 0) ++ LCallShutdown :: replicate m (step 1) ++
  replicate n' (step 0) ++ replicate m' (step 1).

(** C27: what a shutdown does not guarantee. There is a schedule in which [Shutdown]
    returns nil while [Run] is still binding channels, and afterwards [Run] goes on,
    reports the imp ready, returns nil itself, and leaves the channels it bound since
    open on the server, with messages still launching thinking. There is one in
    which [Shutdown] drains, returns nil, and then a thinking goroutine starts: the
    wait group knows nothing of a message callback that is on its way to launching.
    And each of the nine transitions of [overtaken] happens on some server, with a
    valid spec. *)
Theorem shutdown_gaps :
  (exists s, sys_run during_startup (initial demo) = Some s /\
    (sy_threads s !! 0, sy_threads s !! 1, observed s) =
    (Some (TShutReturned None), Some (TShutReturned None), (true, 1%Z, Some 3))) /\
  (exists s, sys_run late_thinking (initial demo) = Some s /\
    (sy_threads s !! 2, sy_threads s !! 3, observed s) =
    (Some (TShutReturned None),
     Some (started (imp_spec demo) (mkGoroutine (AString "hello") "singleton")),
     (false, 1%Z, Some 0))) /\
  (forall st st', overtaken st st' -> exists (E : NatsEnv) i ls l,
    unstarted i /\ validateSpec (imp_spec i) = None /\ transition i ls l = Some (st, st')).
Proof.
  split; [apply observe_run; vm_compute; reflexivity|].
  split; [apply observe_run; vm_compute; reflexivity|].
  assert (forall (E : NatsEnv) n m n' m' last st st',
    transition demo (overtaking n m n' m') (step last) = Some (st, st') ->
    exists (E : NatsEnv) i ls l,
      unstarted i /\ validateSpec (imp_spec i) = None /\ transition i ls l = Some (st, st')) as Hex.
  { intros E n m n' m' last st st' Ht. exists E, demo. eexists _, _. by split_and!. }
  intros st st' [].
  - apply (Hex quiet_env 1 0 0 0 1). vm_compute. reflexivity.
  - apply (Hex quiet_env 2 0 0 0 1). vm_compute. reflexivity.
  - apply (Hex refusing_env 4 0 0 0 1). vm_compute. reflexivity.
  - apply (Hex quiet_env 6 1 0 0 0). vm_compute. reflexivity.
  - apply (Hex quiet_env 6 17 0 0 0). vm_compute. reflexivity.
  - apply (Hex refusing_env 3 1 0 0 0). vm_compute. reflexivity.
  - apply (Hex refusing_env 3 9 0 0 0). vm_compute. reflexivity.
  - apply (Hex quiet_env 6 1 1 15 1). vm_compute. reflexivity.
  - apply (Hex refusing_env 3 1 1 5 1). vm_compute. reflexivity.
Qed.

(** [Shutdown] after a [Run] that failed: the Failed state is not terminal. *)
Example shutdown_after_failure r :
  rt_state r = mkMachine StateFailed -> rt_shutdownOnce r = false ->
  rt_state (begun defaultRuntimeOptions r) = mkMachine StateDraining.
Proof. done. Qed.

(** *** Witnesses *)

(** Two callers of [Shutdown] and the [Run] they stop. *)
Definition down : list label :=
  up ++ thought ++ [LCallShutdown; LCallShutdown] ++ replicate 19 (step 3) ++
  [step 4; step 4; step 0].

Lemma shutdown_agrees_witness :
  TShutReturned None ∈ sy_threads (after down) /\ rt_stopped (runtime_after down) = true.
Proof.
  assert (TShutReturned None ∈ sy_threads (after down)) as Hin.
  { apply (list_elem_of_lookup_2 _ 4). vm_compute. reflexivity. }
  split; [exact Hin|].
  apply (shutdown_agrees demo down (after down) (runtime_after down)) with (e := None);
    [exact demo_unstarted|apply after_run; vm_compute; reflexivity|
     apply runtime_after_ptr; vm_compute; reflexivity|exact Hin].
Defined.

(** [Run] whose context ends, before and after its last step to Stopped. *)
Definition cancelled : list label :=
  up ++ thought ++ [LCancel; LThread 0 true] ++ replicate 16 (step 0).

Lemma lifecycle_documented_witness :
  lifecycle (after cancelled) = StateDraining /\
  (lifecycle (after (cancelled ++ [step 0])) = lifecycle (after cancelled) \/
   documented (lifecycle (after cancelled)) (lifecycle (after (cancelled ++ [step 0])))).
Proof.
  split; [vm_compute; reflexivity|].
  apply (lifecycle_documented demo cancelled (step 0)).
  - exact demo_unstarted.
  - apply after_run. vm_compute. reflexivity.
  - apply after_step; vm_compute; reflexivity.
  - intros Hin. apply list_elem_of_In in Hin. cbn in Hin. intuition discriminate.
Defined.

Lemma shutdown_returns_witness :
  sy_threads (after (up ++ [LCallShutdown])) !! 3 = Some TShutBegin /\
  can_return 3 (after (up ++ [LCallShutdown])).
Proof.
  assert (sy_threads (after (up ++ [LCallShutdown])) !! 3 = Some TShutBegin) as Ht
    by (vm_compute; reflexivity).
  split; [exact Ht|].
  apply (shutdown_returns demo (up ++ [LCallShutdown]) (after (up ++ [LCallShutdown])) 3
    TShutBegin);
    [exact demo_unstarted|apply after_run; vm_compute; reflexivity|exact Ht|reflexivity].
Defined.

(** A graceful shutdown: thinking finishes, then [Shutdown] begins, drains and
    ends; a message that comes later finds no subscription. *)
Definition before_begin : list label := up ++ thought ++ [LCallShutdown].
Definition before_drain : list label :=
  (before_begin ++ [LThread 3 true]) ++ replicate 14 (step 3).
Definition after_all : list label := [step 3; step 3; step 3; LCallRun; step 4; step 4].


End ClosingWitnesses.
