(* ===== verification/Ledger.v ===== *)
(** * Accounts over schedules

    Quantities that every schedule conserves: what the runtime has recorded and what
    the callbacks and thinking goroutines under way still owe make up what has
    arrived. [within] says what a program owes from where it stands, [Ledger] what a
    quantity has to satisfy, one access at a time, and [ledger_balances] that it is
    then conserved by the whole system. The classification of messages and their
    acknowledgement are two ledgers; the echoes of [Echo] are a third. *)

From S2P Require Import Prelude Values Substrate Model Validate Lifecycle Metrics Registry.
From S2P Require Import Runtime Request Dispatch GoTime Consumer Channels Callbacks Imp.
From S2P Require Import System.

(** ** Amounts *)

(** A commutative monoid, up to an equivalence. *)
Class Amounts (C : Type) `{Equiv C} := {
  join : C -> C -> C;
  nothing : C;
  am_equiv :: Equivalence (≡@{C});
  am_proper :: Proper ((≡) ==> (≡) ==> (≡)) join;
  am_assoc :: Assoc (≡) join;
  am_comm :: Comm (≡) join;
  am_left_id :: LeftId (≡) nothing join }.
Infix "⊕" := join (at level 50, left associativity).

Section Amounts.
Context `{Amounts C}.
Implicit Types c : C.

Definition total : list C -> C := foldr join nothing.

Lemma total_app cs cs' : total (cs ++ cs') ≡ total cs ⊕ total cs'.
Proof.
  induction cs as [|c cs IH]; simpl; [by rewrite (left_id _ _)|]. by rewrite IH, (assoc _).
Qed.

Lemma total_middle cs c cs' : total (cs ++ c :: cs') ≡ c ⊕ total (cs ++ cs').
Proof. rewrite !total_app. simpl. by rewrite !(assoc _), ((comm _) c). Qed.

Lemma join_under x a o y b t : x ⊕ (a ⊕ o) ≡ y ⊕ b -> x ⊕ ((a ⊕ t) ⊕ o) ≡ y ⊕ (b ⊕ t).
Proof.
  intros Heq. rewrite <- (assoc join a), (comm join t), !(assoc join). by rewrite <- Heq, (assoc join).
Qed.

End Amounts.

Section Ledgers.
Context `{NatsEnv}.

(** ** What a program owes *)

(** An answer an access can give. *)
Definition possible {X} (e : access X) (x : X) : Prop :=
  exists r r', access_handler X e r = (Done x, r').

Section Within.
Context {C : Type} (spend : forall X, access X -> C -> C -> Prop) (fails : Prop).

(** From [c] on, whatever the accesses answer, the program spends what it should:
    [Q] holds of its result and what is left, [R] of its panics. [fails]: it may
    stop for ever. *)
Fixpoint within {A} (Q : A -> C -> Prop) (R : any -> C -> Prop) (c : C) (p : prog access A) :
    Prop :=
  match p with
  | Ret a => Q a c
  | Panic v => R v c
  | Diverge => fails
  | Vis e k => exists c', spend _ e c c' /\ forall x, possible e x -> within Q R c' (k x)
  end.

Lemma within_mono {A} (Q Q' : A -> C -> Prop) (R R' : any -> C -> Prop) c p :
  (forall a c, Q a c -> Q' a c) -> (forall v c, R v c -> R' v c) ->
  within Q R c p -> within Q' R' c p.
Proof.
  intros HQ HR. revert c. induction p as [a|v| |X e k IH]; intros c; simpl; auto.
  intros (c' & Hs & Hk). exists c'. split; [done|]. intros x Hx. by apply IH, Hk.
Qed.

Lemma within_bind {A B} (Q : B -> C -> Prop) R c (p : prog access A) (k : A -> prog access B) :
  within (fun a c => within Q R c (k a)) R c p -> within Q R c (prog_bind p k).
Proof.
  revert c. induction p as [a|v| |X e j IH]; intros c; simpl; auto.
  intros (c' & Hs & Hk). exists c'. split; [done|]. intros x Hx. by apply IH, Hk.
Qed.

Lemma within_access {X A} (Q : A -> C -> Prop) R c c' (e : access X) (k : X -> prog access A) :
  spend _ e c c' -> (forall x, possible e x -> within Q R c' (k x)) ->
  within Q R c (prog_bind (call e) k).
Proof. intros Hs Hk. by exists c'. Qed.

Lemma within_last {X} (Q : X -> C -> Prop) R c c' (e : access X) :
  spend _ e c c' -> (forall x, possible e x -> Q x c') -> within Q R c (call e).
Proof. intros Hs Hk. by exists c'. Qed.

Lemma within_catch {A} (Q : A -> C -> Prop) R c (p : prog access A) h :
  within Q (fun v c => within Q R c (h v)) c p -> within Q R c (catch p h).
Proof.
  revert c. induction p as [a|v| |X e j IH]; intros c; simpl; auto.
  intros (c' & Hs & Hk). exists c'. split; [done|]. intros x Hx. by apply IH, Hk.
Qed.

Lemma within_of_result {A} (Q : A -> C -> Prop) R c (res : result A) :
  (forall a, res = Done a -> Q a c) -> (forall v, res = Panicked v -> R v c) ->
  (res = Blocked -> fails) -> within Q R c (of_result res).
Proof. destruct res; simpl; auto. Qed.

(** User code whose calls are free. [P]: what is known of its results. *)
Lemma within_user {E : Type -> Type} {A} (by_ : forall X, E X -> access (result X))
    (P : A -> Prop) (Q : A -> C -> Prop) (R : any -> C -> Prop) c (p : prog E A) :
  (forall X (e : E X), spend _ (by_ X e) c c) -> fails ->
  leaves P p -> (forall a, P a -> Q a c) -> (forall v, R v c) -> within Q R c (user by_ p).
Proof.
  intros Hs Hf Hp HQ HR. induction p as [a|v| |X e k IH]; simpl in *; auto.
  exists c. split; [done|]. intros [x|v|] _; simpl; auto.
Qed.

(** User code that does not panic, with calls that do not. *)
Lemma within_calm {E : Type -> Type} {A} (by_ : forall X, E X -> access (result X))
    (Q : A -> C -> Prop) (R : any -> C -> Prop) c (p : prog E A) :
  (forall X (e : E X), spend _ (by_ X e) c c) -> fails ->
  (forall X (e : E X) v, ~ possible (by_ X e) (Panicked v)) ->
  no_panic p -> (forall a, Q a c) -> within Q R c (user by_ p).
Proof.
  intros Hs Hf Hc Hp HQ. induction p as [a|v| |X e k IH]; simpl in *; auto; [done|].
  exists c. split; [done|]. intros [x|v|] Hx; simpl; auto. by destruct (Hc X e v).
Qed.

End Within.

(** ** What the other threads leave *)

(** The events of binding and releasing channels. *)
Definition bookkeeping (e : event) : Prop :=
  match e with
  | CSubscribe _ | CUnsubscribe _ | CJetStreamNew | CJsStream _ | CCreateConsumer _ _
  | CConsumer _ _ | CConsume _ _ | CConsumeStop _ _ | CDeleteConsumer _ _ => True
  | _ => False
  end.

Lemma unwind_step_events u : preserves (events_grow bookkeeping) (unwind_step u).
Proof.
  destruct u; simpl; unfold in_place, unsubscribe_one, stop_one, delete_one; frame; done.
Qed.

Lemma start_events chs : preserves (events_grow bookkeeping) (start chs).
Proof.
  induction chs as [|ch chs IH]; simpl; frame;
    unfold bindSubjectChannel, bindStreamChannel, ensureJetStream, resolveConsumer;
    frame; done.
Qed.

Lemma control_events spec o c p t :
  runs_user_code t = false -> preserves (events_grow bookkeeping) (thread_action spec o c p t).
Proof.
  intros Ht. pose proof unwind_step_events. pose proof start_events.
  destruct t as [| |[|ch rest]| | | | | | | | | | | | | | | | | | | |]; try done;
    unfold thread_action, run_claim, run_failed, run_ready, shutdown_join, shutdown_begin,
      thinkingCancel, waitDrain, set_shutdownErr, shutdown_stopped, close_stopped,
      set_lifecycle; frame; auto; by apply modify_grows.
Qed.

(** Every channel record belongs to a declaration. *)
Definition all_of (P : ChannelSpec -> Prop) (r : runtime) : Prop :=
  Forall (fun ch => P (ch_spec ch)) (rt_channels r).
Definition keeps_specs (P : ChannelSpec -> Prop) (r r' : runtime) : Prop :=
  all_of P r -> all_of P r'.

#[local] Instance keeps_specs_preorder P : PreOrder (keeps_specs P).
Proof. split; [by intros r Hr|]. intros r1 r2 r3 H12 H23 Hr. auto. Qed.

Lemma keeps_specs_same {A} P (m : M A) :
  preserves (unchanged rt_channels) m -> preserves (keeps_specs P) m.
Proof. intros Hm r Hr. unfold all_of. by rewrite Hm. Qed.

Lemma all_of_released P r r' :
  Forall2 released (rt_channels r) (rt_channels r') -> all_of P r -> all_of P r'.
Proof.
  intros Hrel Hr. eapply released_Forall; [|exact Hrel|exact Hr].
  intros ch ch' Hch. simpl. by rewrite (rl_spec _ _ Hch).
Qed.

Lemma start_specs (P : ChannelSpec -> Prop) ch :
  P ch -> preserves (keeps_specs P) (start [ch]).
Proof.
  intros HP. simpl.
  assert (forall st, ch_spec st = ch ->
    preserves (keeps_specs P) (modify (fun r => set_channels (rt_channels r ++ [st]) r))) as Hadd.
  { intros st Hst r Hr. apply Forall_app_2; [done|]. constructor; [|done]. by rewrite Hst. }
  unfold bindSubjectChannel, bindStreamChannel, ensureJetStream, resolveConsumer.
  frame; try (by apply Hadd); by apply keeps_specs_same.
Qed.

(** Channels and startups stay within the declarations of the spec. *)
Definition thread_booked (chs : list ChannelSpec) (t : thread) : Prop :=
  match t with
  | TRunStart rest => Forall (fun ch => ch ∈ chs) rest
  | TDeliver d _ => ch_spec (channel_of d) ∈ chs
  | _ => True
  end.

Record booked (spec : ImpSpec) (i : Imp) (ts : list thread) : Prop := {
  bk_spec : imp_spec i = spec;
  bk_booted r : imp_rtPtr i = Some r -> imp_rtOnce i = true;
  bk_channels r : imp_rtPtr i = Some r -> all_of (fun ch => ch ∈ is_Channels spec) r;
  bk_threads : Forall (thread_booked (is_Channels spec)) ts }.

Lemma protocol_booked chs t k t' k' :
  protocol chs t k t' k' -> thread_booked chs t -> thread_booked chs t'.
Proof.
  intros Hp. destruct Hp; try done.
  - intros _. by apply Forall_forall.
  - by intros [_ ?]%Forall_cons.
Qed.

Lemma action_channels (P : ChannelSpec -> Prop) spec o c p t r t' r' :
  thread_action spec o c p t r = (Done t', r') ->
  match t with TRunStart rest => Forall P rest | _ => True end ->
  all_of P r -> all_of P r'.
Proof.
  intros Hact Ht Hr. destruct (runs_user_code t) eqn:Hu.
  { unfold all_of. by rewrite (preserves_Done _ _ _ _ _
      (user_frame rt_channels spec o c p t ltac:(done) Hu) Hact). }
  destruct (touches_channels t) eqn:Htc.
  2:{ pose proof (preserves_Done _ _ _ _ _ (control_binding spec o c p t Htc Hu) Hact) as Hb.
      unfold all_of. by injection Hb as _ -> _. }
  destruct (unwinding_of t) as [u|] eqn:Hw.
  { destruct (action_unwinding _ _ _ _ _ _ _ _ _ Hw Hact) as (next & Hs & _).
    destruct (unwind_step_run u r) as (next' & r1 & Hrun & _ & Hrel).
    rewrite Hs in Hrun. injection Hrun as _ <-. by eapply all_of_released. }
  destruct t as [| |[|ch rest]| | | | | | | | | | | | | | | | | | | |]; try done;
    unfold thread_action in Hact; [by injection Hact as _ <-|].
  apply Forall_cons in Ht as [Hch _].
  pose proof (start_specs P ch Hch r Hr) as Hs. unfold bind, ret in Hact.
  destruct (start [ch] r) as [[err|v|] r1]; try done. by injection Hact as _ <-.
Qed.

Lemma booked_inv spec : inductive_inv (booked spec) (fun _ => True).
Proof.
  split.
  - intros i ts t [Hs Ho Hc Ht] Ha _. split; [done..|]. apply Forall_snoc; [done|].
    destruct t as [| | | | | | | | | | | | | |d q| | | | | | | |]; try done.
    destruct Ha as (_ & r & ch & Hr & Hch & <- & _). specialize (Hc r Hr).
    unfold all_of in Hc. rewrite Forall_forall in Hc. by apply Hc.
  - intros i ts1 t ts2 c p t' sp i' [Hs Ho Hc Hts] Hstep.
    apply thread_step_cases in Hstep as
      [(-> & -> & err & Hboot & ->)|[(-> & Hp & -> & -> & ->)|(_ & r & r' & Hp & Hact & -> & ->)]].
    + rewrite app_nil_r. apply bootRuntime_cases in Hboot as (Hsp & _ & Ho' & Hptr). split.
      * congruence.
      * done.
      * intros r Hp. destruct Hptr as [Heq|(_ & Heq & _)]; [apply Hc; congruence|].
        rewrite Heq in Hp. injection Hp as <-. constructor.
      * eapply Forall_middle; [done|]. by destruct err.
    + rewrite app_nil_r. split; [done..|]. by eapply Forall_middle.
    + assert (thread_booked (is_Channels spec) t) as Ht
        by (rewrite Forall_forall in Hts; apply Hts; set_solver).
      split; [done|intros _ _; by eapply Ho| |].
      * intros r1 [= <-]. eapply action_channels; [exact Hact|by destruct t|by apply Hc].
      * apply Forall_app_2; [|apply Forall_fmap, Forall_true; done].
        eapply Forall_middle; [done|]. apply thread_action_protocol in Hact. rewrite Hs in Hact.
        by eapply protocol_booked.
Qed.

(** ** Ledgers *)

(** A quantity in three places: what the runtime has [recorded], what a message or a
    goroutine still owes, and what each access moves from there to the record. Only
    accesses of callbacks and thinking move it, and a callback passes on to the
    goroutine it launches what that owes. *)
Class Ledger (spec : ImpSpec) (C : Type) `{Amounts C} := {
  recorded : runtime -> C;
  spend : forall X, access X -> C -> C -> Prop;
  fails : Prop;
  fits : delivery + goroutine -> C -> Prop;
  due_subject : Message -> C;
  due_stream : JsMsg -> C;
  owed : goroutine -> C;
  due (d : delivery) : C :=
    match d with OnSubject _ msg => due_subject msg | OnStream _ msg => due_stream msg end;
  callback_end (launch : option goroutine) (c : C) : Prop :=
    c ≡ match launch with Some g => owed g | None => nothing end;
  ld_access X (e : access X) c c' r x r' :
    spend X e c c' -> access_handler X e r = (Done x, r') -> recorded r' ⊕ c' ≡ recorded r ⊕ c;
  ld_gauge n r : recorded (set_metrics (Add InflightThinking n (rt_metrics r)) r) ≡ recorded r;
  ld_wg n r : recorded (set_wg n r) ≡ recorded r;
  ld_go g gs r :
    recorded (set_goroutines gs (set_events (rt_events r ++ [ELaunch (g_reason g) (g_entity g)]) r))
    ≡ recorded r;
  ld_control r r' :
    rt_metrics r' = rt_metrics r -> events_grow bookkeeping r r' -> recorded r' ≡ recorded r;
  ld_fresh i : recorded (fresh_runtime i) ≡ nothing;
  ld_deliver d : ch_spec (channel_of d) ∈ is_Channels spec ->
    within spend fails callback_end (fun _ _ => fails) (due d) (deliver_steps spec d);
  ld_think g :
    within spend fails (fun _ c => c ≡ nothing) (fun _ _ => fails) (owed g) (thinking_steps spec g);
  ld_fits_due d : fits (inl d) (due d);
  ld_fits_owed g : fits (inr g) (owed g);
  ld_fits_spend w X (e : access X) c c' : spend X e c c' -> fits w c -> fits w c' }.

Section Balance.
Context {spec : ImpSpec} {C : Type} `{Ledger spec C}.

Definition thread_owes (c : C) (t : thread) : Prop :=
  match t with
  | TDeliver d p => fits (inl d) c /\ within spend fails callback_end (fun _ _ => fails) c p
  | TLaunchWG g | TLaunchGo g => c ≡ owed g
  | TThink g p => fits (inr g) c /\
      within spend fails (fun _ c => c ≡ nothing) (fun _ _ => fails) c p
  | _ => c ≡ nothing
  end.

Definition recorded_of (i : Imp) : C :=
  match imp_rtPtr i with Some r => recorded r | None => nothing end.

Definition arriving_due (l : label) : C :=
  match l with
  | LMessage _ msg => due_subject msg
  | LStreamMessage _ msg => due_stream msg
  | _ => nothing
  end.
Definition arrived_due (ls : list label) : C := total (arriving_due <$> ls).

Lemma started_owe gs : Forall2 thread_owes (owed <$> gs) (started spec <$> gs).
Proof.
  induction gs as [|g gs IH]; constructor; [|done].
  split; [apply ld_fits_owed|apply ld_think].
Qed.

(** A step moves what it takes from the debt of its thread to the record or to the
    goroutine it launches. *)
Lemma action_balances o c p t r t' r' a :
  thread_action spec o c p t r = (Done t', r') -> thread_owes a t ->
  exists a' gs, thread_owes a' t' /\ rt_goroutines r' = rt_goroutines r ++ gs /\
    recorded r' ⊕ (a' ⊕ total (owed <$> gs)) ≡ recorded r ⊕ a.
Proof.
  intros Hact Ha.
  assert (rt_goroutines r' = rt_goroutines r -> forall a', thread_owes a' t' ->
    recorded r' ⊕ a' ≡ recorded r ⊕ a ->
    exists a' gs, thread_owes a' t' /\ rt_goroutines r' = rt_goroutines r ++ gs /\
    recorded r' ⊕ (a' ⊕ total (owed <$> gs)) ≡ recorded r ⊕ a) as Hnone.
  { intros Hg a' Ha' Heq. exists a', []. split; [done|]. rewrite app_nil_r. split; [done|].
    simpl. by rewrite (comm join a'), (left_id nothing join). }
  destruct (runs_user_code t) eqn:Hu.
  - assert (forall X (e : access X) x r1, access_handler X e r = (Done x, r1) ->
      rt_goroutines r1 = rt_goroutines r) as Hg.
    { intros X e x r1 He. pose proof (preserves_Done _ _ _ _ _ (access_launches_nothing X e) He)
        as Hu1. by injection Hu1. }
    destruct t as [| | | | | | | | | | | | | |d [[g|]|v| |X e k]|g|g|g [[]|v| |X e k]|g| | | |];
      try done; unfold thread_action in Hact; try done.
    + injection Hact as <- <-. destruct Ha as [_ Ha]. apply (Hnone eq_refl a); [exact Ha|].
      by rewrite ld_gauge.
    + injection Hact as <- <-. destruct Ha as [_ Ha]. by apply (Hnone eq_refl a).
    + unfold bind in Hact. destruct (access_handler X e r) as [[x|v|] r1] eqn:He; try done.
      injection Hact as <- <-. destruct Ha as [Hfit (a' & Hs & Hk)].
      apply (Hnone (Hg _ _ _ _ He) a'); [|by eapply ld_access].
      split; [by eapply ld_fits_spend|]. apply Hk. by exists r, r1.
    + injection Hact as <- <-. apply (Hnone eq_refl a); [exact Ha|]. by rewrite ld_wg.
    + injection Hact as <- <-. exists nothing, [g]. split; [simpl; reflexivity|]. split; [done|].
      rewrite ld_go. simpl. simpl in Ha.
      by rewrite Ha, (comm join (owed g) nothing), !(left_id nothing join).
    + injection Hact as <- <-. destruct Ha as [_ Ha]. apply (Hnone eq_refl a); [exact Ha|].
      by rewrite ld_gauge.
    + unfold bind in Hact. destruct (access_handler X e r) as [[x|v|] r1] eqn:He; try done.
      injection Hact as <- <-. destruct Ha as [Hfit (a' & Hs & Hk)].
      apply (Hnone (Hg _ _ _ _ He) a'); [|by eapply ld_access].
      split; [by eapply ld_fits_spend|]. apply Hk. by exists r, r1.
    + injection Hact as <- <-. apply (Hnone eq_refl a); [exact Ha|]. by rewrite ld_wg.
  - assert (a ≡ nothing) as Ha0 by (by destruct t).
    pose proof (preserves_Done _ _ _ _ _ (control_frame rt_goroutines spec o c p t
      ltac:(done) Hu) Hact) as Hg.
    pose proof (preserves_Done _ _ _ _ _ (control_frame rt_metrics spec o c p t
      ltac:(done) Hu) Hact) as Hm.
    pose proof (preserves_Done _ _ _ _ _ (control_events spec o c p t Hu) Hact) as He.
    apply (Hnone Hg nothing).
    + apply thread_action_protocol in Hact. destruct Hact; try done; simpl; reflexivity.
    + by rewrite Ha0, (ld_control r r').
Qed.

(** *** Schedules *)

Definition balances (i : Imp) (ts : list thread) (sum : C) : Prop :=
  exists cs, Forall2 thread_owes cs ts /\ recorded_of i ⊕ total cs ≡ sum.

Lemma balances_add i ts t sum c :
  balances i ts sum -> thread_owes c t -> balances i (ts ++ [t]) (sum ⊕ c).
Proof.
  intros (cs & Hcs & Hsum) Hc. exists (cs ++ [c]). split.
  - apply Forall2_app; [done|]. by constructor.
  - rewrite total_app. simpl. by rewrite (comm join c), (left_id nothing join), (assoc join), Hsum.
Qed.

(** The threads there are before the runtime owe nothing. *)
Lemma boot_balances i i' err ts1 t' ts2 sum :
  booked spec i (ts1 ++ TRunBoot :: ts2) -> bootRuntime i = (err, i') ->
  thread_owes nothing t' ->
  balances i (ts1 ++ TRunBoot :: ts2) sum -> balances i' (ts1 ++ t' :: ts2) sum.
Proof.
  intros Hbk Hboot Ht' (cs & Hcs & Hsum).
  apply Forall2_app_inv_r in Hcs as (cs1 & cs2' & Hl1 & Hl2 & ->).
  apply Forall2_cons_inv_r in Hl2 as (c & cs2 & Hc & Hl2 & ->). simpl in Hc.
  assert (recorded_of i' ≡ recorded_of i) as Hrec.
  { unfold recorded_of. apply bootRuntime_cases in Hboot as (_ & _ & _ & [->|(Ho & -> & _)]); [done|].
    destruct (imp_rtPtr i) eqn:Hp; [|apply ld_fresh].
    pose proof (bk_booted _ _ _ Hbk _ Hp). congruence. }
  exists (cs1 ++ nothing :: cs2). split.
  - apply Forall2_app; [done|]. by constructor.
  - rewrite Hrec, <- Hsum, !total_middle. by rewrite Hc.
Qed.

Lemma thread_balances c p ts1 t ts2 i t' sp i' sum :
  booked spec i (ts1 ++ t :: ts2) -> balances i (ts1 ++ t :: ts2) sum ->
  thread_step c p t i = Next t' sp i' -> balances i' ((ts1 ++ t' :: ts2) ++ sp) sum.
Proof.
  intros Hbk Hb Hstep. apply thread_step_cases in Hstep as
    [(-> & -> & err & Hboot & ->)|[(-> & Hp & -> & -> & ->)|(_ & r & r' & Hp & Hact & -> & ->)]].
  - rewrite app_nil_r. eapply boot_balances; [exact Hbk|done| |exact Hb]. destruct err; simpl; reflexivity.
  - rewrite app_nil_r. destruct Hb as (cs & Hcs & Hsum). exists cs. split; [|done].
    apply Forall2_app_inv_r in Hcs as (cs1 & cs2' & Hl1 & Hl2 & ->).
    apply Forall2_cons_inv_r in Hl2 as (a & cs2 & Ha & Hl2 & ->).
    apply Forall2_app; [done|]. by constructor.
  - destruct Hb as (cs & Hcs & Hsum). rewrite (bk_spec _ _ _ Hbk) in Hact |- *.
    apply Forall2_app_inv_r in Hcs as (cs1 & cs2' & Hl1 & Hl2 & ->).
    apply Forall2_cons_inv_r in Hl2 as (a & cs2 & Ha & Hl2 & ->).
    destruct (action_balances _ _ _ _ _ _ _ _ Hact Ha) as (a' & gs & Ha' & Hg & Heq).
    exists ((cs1 ++ a' :: cs2) ++ (owed <$> gs)). rewrite Hg, drop_app_length. split.
    + apply Forall2_app; [|apply started_owe]. apply Forall2_app; [done|]. by constructor.
    + unfold recorded_of in *. rewrite Hp in Hsum. simpl.
      rewrite <- Hsum, total_app, !total_middle.
      by apply join_under.
Qed.

Lemma step_balances l s s' sum :
  booked spec (sy_imp s) (sy_threads s) -> balances (sy_imp s) (sy_threads s) sum ->
  sys_step l s = Some s' -> balances (sy_imp s') (sy_threads s') (sum ⊕ arriving_due l).
Proof.
  intros Hbk Hb Hstep.
  assert (forall t, thread_owes nothing t ->
    balances (sy_imp s) (sy_threads s ++ [t]) (sum ⊕ nothing)) as Hcall
    by (intros t Ht; by apply balances_add).
  assert (forall live d n, (forall ch, channel_of (d ch) = ch) -> arrive live d n s = Some s' ->
    exists ch, balances (sy_imp s') (sy_threads s') (sum ⊕ due (d ch))) as Harr.
  { intros live d n Hd (r & ch & Hr & Hch & _ & ->)%arrive_inv. exists ch.
    apply balances_add; [done|]. split; [apply ld_fits_due|].
    rewrite (bk_spec _ _ _ Hbk). apply ld_deliver. rewrite Hd.
    pose proof (bk_channels _ _ _ Hbk r Hr) as Hall. unfold all_of in Hall.
    rewrite Forall_forall in Hall. by apply Hall, list_elem_of_lookup_2 with n. }
  destruct l as [| | |n msg|n msg|n pick]; simpl.
  - injection Hstep as <-. apply Hcall. simpl. reflexivity.
  - injection Hstep as <-. apply Hcall. simpl. reflexivity.
  - injection Hstep as <-. destruct Hb as (cs & Hcs & Hsum). exists cs. split; [done|].
    by rewrite (comm join sum), (left_id nothing join).
  - by destruct (Harr ch_subscription (fun ch => OnSubject ch msg) n ltac:(done) Hstep) as [ch ?].
  - by destruct (Harr ch_streamConsume (fun ch => OnStream ch msg) n ltac:(done) Hstep) as [ch ?].
  - apply sys_step_thread in Hstep as (ts1 & t & ts2 & t' & sp & i' & Hts & _ & Hstep & ->).
    rewrite Hts in Hbk, Hb. simpl.
    destruct (thread_balances _ _ _ _ _ _ _ _ _ _ Hbk Hb Hstep) as (cs & Hcs & Hsum).
    exists cs. split; [done|]. by rewrite Hsum, (comm join sum), (left_id nothing join).
Qed.

(** The ledger balances: in every state a schedule reaches, what is recorded and what
    the threads under way owe make up what has arrived. *)
Lemma ledger_balances i ls s :
  unstarted i -> imp_spec i = spec -> sys_run ls (initial i) = Some s ->
  balances (sy_imp s) (sy_threads s) (arrived_due ls).
Proof.
  intros [Ho Hp] Hs Hrun.
  assert (booked spec i [] /\ balances i [] nothing) as [Hbk Hb].
  { split; [split; [done|congruence|congruence|constructor]|]. exists []. split; [constructor|].
    unfold recorded_of. rewrite Hp. simpl. by rewrite (left_id nothing join). }
  change i with (sy_imp (initial i)) in Hbk, Hb.
  change [] with (sy_threads (initial i)) in Hbk, Hb.
  assert (balances (sy_imp s) (sy_threads s) (nothing ⊕ arrived_due ls)) as (cs & Hcs & Hsum).
  2:{ exists cs. split; [done|]. by rewrite Hsum, (left_id nothing join). }
  revert Hbk Hb Hrun. generalize (initial i) (nothing (C:=C)). clear.
  induction ls as [|l ls IH]; intros s0 sum Hbk Hb; cbn [sys_run].
  { intros [= <-]. destruct Hb as (cs & Hcs & Hsum). exists cs. split; [done|].
    unfold arrived_due. simpl. by rewrite Hsum, (comm join sum), (left_id nothing join). }
  destruct (sys_step l s0) as [s1|] eqn:Hstep; simpl; [|done]. intros Hrun.
  pose proof (step_balances _ _ _ _ Hbk Hb Hstep) as Hb1.
  assert (booked spec (sy_imp s1) (sy_threads s1)) as Hbk1
    by (eapply inv_step; [apply booked_inv|done|done|exact Hbk|exact Hstep]).
  destruct (IH _ _ Hbk1 Hb1 Hrun) as (cs & Hcs & Hsum). exists cs. split; [done|].
  rewrite Hsum. unfold arrived_due. simpl. by rewrite (assoc join).
Qed.

End Balance.
End Ledgers.
