(* ===== verification/Messages.v ===== *)
(** * Messages over schedules

    Two ledgers of the running system: every message is classified by one counter,
    and every message of a stream channel is acknowledged or refused once, however
    callbacks, thinking, startup and shutdown interleave. And the link to [Dispatch]:
    a callback or goroutine that nobody interrupts does what the pipelines do. *)

From S2P Require Import Prelude Values Substrate Model Validate Lifecycle Metrics Registry.
From S2P Require Import Runtime Request Dispatch GoTime Consumer Channels Callbacks Imp.
From S2P Require Import System Ledger.

Section Messages.
Context `{NatsEnv}.

(** Code around user functions whose calls, and whose logging, are free. *)
Section Free.
Context (spec : ImpSpec) {C : Type} (spend : forall X, access X -> C -> C -> Prop).
Context (Hlog : forall l msg attrs c, spend _ (Log l msg attrs) c c).
Context (Haware : forall X (e : both AwarenessContext StateRef_methods X) c,
  spend _ (ByAwareness e) c c).
Context (Hthink : forall X (e : both ThinkingContext StateRef_methods X) c,
  spend _ (ByThinking e) c c).

Lemma leaves_any {E : Type -> Type} {A} (p : prog E A) : leaves (fun _ => True) p.
Proof. by induction p. Qed.

(** [P]: what is known of the verdicts. *)
Lemma safeAwareness_within {B} (P : Verdict -> Prop) (Q : B -> C -> Prop) decoded entity
    (k : Verdict * bool -> prog access B) c :
  (forall f, is_Awareness spec = Some f -> leaves P (f decoded entity)) ->
  within spend True Q (fun _ _ => True) c (k (Verdict_zero, true)) ->
  (forall v, P v -> within spend True Q (fun _ _ => True) c (k (v, false))) ->
  within spend True Q (fun _ _ => True) c
    (prog_bind (safeAwareness_steps spec decoded entity) k).
Proof.
  intros HP Hpanic Hok. apply within_bind, within_catch, within_bind.
  destruct (is_Awareness spec) as [f|] eqn:Hf; [|by eapply within_access].
  eapply within_user; [done|done|by eapply HP|exact Hok|]. intros v. by eapply within_access.
Qed.

Lemma thinking_within (Q : unit -> C -> Prop) g c :
  (forall k Hne, k = ThinkingErrors \/ k = ThinkingPanics -> spend _ (Count k Hne) c c) ->
  Q tt c -> within spend True Q (fun _ _ => True) c (thinking_steps spec g).
Proof.
  intros Hc HQ. assert (forall k Hne l msg attrs, k = ThinkingErrors \/ k = ThinkingPanics ->
    within spend True Q (fun _ _ => True) c
      (prog_bind (call (Count k Hne)) (fun _ => call (Log l msg attrs)))) as Hend.
  { intros k Hne l msg attrs Hk. eapply within_access; [by apply Hc|].
    intros _ _. eapply within_last; [done|]. by intros []. }
  apply within_catch, within_bind.
  destruct (is_Thinking spec) as [f|]; [|by apply Hend; right].
  eapply within_user; [done|done|apply leaves_any| |by intros v; apply Hend; right].
  intros [err|] _; [by apply Hend; left|done].
Qed.

End Free.

(** ** Classification *)

Definition u64 : Type := Z.
#[local] Instance u64_equiv : Equiv u64 := fun a b => uint64 a = uint64 b.

Lemma uint64_congr a b c : uint64 a = uint64 b -> uint64 (a + c) = uint64 (b + c).
Proof. intros Hab. by rewrite <- (uint64_add_l a), Hab, uint64_add_l. Qed.

#[local] Instance u64_amounts : Amounts u64.
Proof.
  refine {| join := Z.add : u64 -> u64 -> u64; nothing := 0%Z : u64 |}; unfold equiv, u64_equiv.
  - split; [by intros ?|by intros ??|intros ???; congruence].
  - intros a a' Ha b b' Hb. rewrite (uint64_congr a a') by done.
    by rewrite (Z.add_comm a'), (Z.add_comm a'), (uint64_congr b b').
  - intros a b c. f_equal. lia.
  - intros a b. f_equal. lia.
  - intros a. done.
Defined.

(** A callback before its verdict has been acted on. *)
Definition under_way (t : thread) : bool := match t with TDeliver _ _ => true | _ => false end.

Section Classified.
Context (spec : ImpSpec) (Haw : awareness_constructed spec) (Hcalm : hook_calm spec).

Definition classify (X : Type) (e : access X) (c c' : u64) : Prop :=
  match e with
  | Count k _ => if decide (k ∈ message_counters) then c = 1%Z /\ c' = 0%Z else c' = c
  | _ => c' = c
  end.

Lemma classify_recorded X (e : access X) c c' r x r' :
  classify X e c c' -> access_handler X e r = (Done x, r') ->
  uint64 (handled (rt_metrics r') + c') = uint64 (handled (rt_metrics r) + c).
Proof.
  intros Hc Hrun.
  assert (forall cs (m : M X) , (forall k, k ∈ message_counters -> k ∉ cs) ->
    preserves (counts cs) m -> m r = (Done x, r') -> c' = c ->
    uint64 (handled (rt_metrics r') + c') = uint64 (handled (rt_metrics r) + c)) as Hsame.
  { intros cs m Hcs Hm Hr ->. apply (preserves_Done _ _ _ _ _ Hm) in Hr.
    by rewrite (handled_only_counts cs _ _ Hcs Hr). }
  destruct e as [k|l msg attrs|id|id|Y e|Y e|Y e]; simpl in Hc, Hrun.
  - injection Hrun as _ <-. simpl. case_decide.
    + destruct Hc as [-> ->]. rewrite handled_Add_in, Z.add_0_r by done.
      apply uint64_id, uint64_range.
    + by rewrite handled_Add_out, Hc by done.
  - injection Hrun as _ <-. by rewrite Hc.
  - injection Hrun as _ <-. by rewrite Hc.
  - injection Hrun as _ <-. by rewrite Hc.
  - apply (Hsame request_counters (attempt (awareness_handler Y e))); [..|done|done];
      [apply message_not_request|apply attempt_frame, awareness_counts].
  - apply (Hsame [] (attempt (hook_handler Y e))); [set_solver| |done|done].
    apply attempt_frame. destruct e; simpl; frame.
  - apply (Hsame request_counters (attempt (thinking_handler Y e))); [..|done|done];
      [apply message_not_request|apply attempt_frame, thinking_handler_counts].
Qed.

Lemma classify_pays k Hne :
  k ∈ message_counters -> classify _ (Count k Hne) (1%Z : u64) (0%Z : u64).
Proof. intros Hk. simpl. by rewrite decide_True. Qed.

Lemma classify_free k Hne c : k ∉ message_counters -> classify _ (Count k Hne) c c.
Proof. intros Hk. simpl. by rewrite decide_False. Qed.

Lemma act_classified entity v :
  vd_kind v ∈ [verdictIgnore; verdictNote; verdictThink] ->
  within classify True (fun _ c => c = 0%Z) (fun _ _ => True) (1%Z : u64)
    (act_on_verdict_steps spec entity v).
Proof.
  intros Hk. unfold act_on_verdict_steps.
  case_decide; [|case_decide; [|case_decide; [|set_solver]]];
    (eapply within_access; [by apply classify_pays; set_solver|intros _ _]); [done| |done].
  apply within_bind. unfold invokeNote_steps. destruct (is_OnNote spec) as [hook|] eqn:Hh; [|done].
  apply within_catch, within_calm; [done|done| |by eapply Hcalm|done].
  intros X e w (r & r' & Hrun). simpl in Hrun. unfold attempt in Hrun. by destruct e.
Qed.

Lemma nakAndLog_free (Q : unit -> u64 -> Prop) msg ev name cause c :
  Q tt c ->
  within classify True Q (fun _ _ => True) c (nakAndLog_steps msg ev name cause).
Proof.
  intros HQ. assert (forall attrs, within classify True Q (fun _ _ => True) c
    (call (Log LWarn ev attrs))) as Hlog.
  { intros attrs. eapply within_last; [done|]. by intros []. }
  eapply within_access; [done|]. intros [e|] _; [|apply Hlog].
  eapply within_access; [done|]. intros _ _. apply Hlog.
Qed.

Lemma deliver_classified d :
  within classify True (fun _ c => c = 0%Z) (fun _ _ => True) (1%Z : u64) (deliver_steps spec d).
Proof.
  assert (NakTotal ∉ message_counters) as Hnak
    by (apply (bool_decide_unpack (_ ∉ _)); vm_compute; exact I).
  assert (forall k Hne (p : prog access (option goroutine)), k ∈ message_counters ->
    within classify True (fun _ c => c = 0%Z) (fun _ _ => True) (0%Z : u64) p ->
    within classify True (fun _ c => c = 0%Z) (fun _ _ => True) (1%Z : u64)
      (prog_bind (call (Count k Hne)) (fun _ => p))) as Hpay
    by (intros k Hne p Hk Hp; by eapply within_access; [apply classify_pays|]).
  destruct d as [ch msg|ch msg]; [apply within_bind|];
    apply within_bind, within_of_result; try done; intros [decoded [err|]] _.
  - eapply within_access; [apply classify_pays; set_solver|intros _ _].
    by eapply within_access.
  - apply within_bind, within_of_result; try done. intros [entity err] _. destruct (_ || _).
    + eapply within_access; [apply classify_pays; set_solver|intros _ _]. by eapply within_access.
    + eapply safeAwareness_within; [done|done|by intros; eapply Haw| |].
      * by eapply within_access; [apply classify_pays; set_solver|].
      * intros v Hv. by apply within_bind, act_classified.
  - apply Hpay; [set_solver|]. eapply within_access; [by apply classify_free|intros _ _].
    by apply within_bind, nakAndLog_free.
  - apply within_bind, within_of_result; try done. intros [entity err] _. destruct (_ || _).
    + apply Hpay; [set_solver|]. eapply within_access; [by apply classify_free|intros _ _].
      by apply within_bind, nakAndLog_free.
    + eapply safeAwareness_within; [done|done|by intros; eapply Haw| |].
      * apply Hpay; [set_solver|]. eapply within_access; [by apply classify_free|intros _ _].
        by eapply within_access.
      * intros v Hv. eapply within_access; [done|]. intros [e|] _.
        -- eapply within_access; [done|intros _ _]. by apply act_classified.
        -- by apply act_classified.
Qed.

#[local] Instance classified_ledger : Ledger spec u64.
Proof.
  refine {|
    recorded r := handled (rt_metrics r) : u64;
    spend := classify;
    fails := True;
    fits w c := c = 0%Z \/ (if w then c = 1%Z else False);
    due_subject msg := 1%Z;
    due_stream msg := 1%Z;
    owed g := 0%Z |}.
  - exact classify_recorded.
  - intros n r. simpl. by rewrite handled_Add_out by
      (apply (bool_decide_unpack (_ ∉ _)); vm_compute; exact I).
  - done.
  - done.
  - intros r r' Hm _. by rewrite Hm.
  - done.
  - intros d _. assert (forall p, within classify True (fun _ c => c = 0%Z) (fun _ _ => True)
      (1%Z : u64) p -> within classify True (fun (launch : option goroutine) c =>
      c ≡ match launch with Some _ => 0%Z | None => nothing end) (fun _ _ => True) (1%Z : u64) p)
      as Hend by (intros p; apply within_mono; [by intros [] c ->|done]).
    destruct d; by apply Hend, deliver_classified.
  - intros g. apply thinking_within; try done. intros k Hne Hk. apply classify_free.
    by destruct Hk as [-> | ->]; apply (bool_decide_unpack (_ ∉ _)); vm_compute.
  - intros []; by right.
  - intros g. by left.
  - intros w X e c c' Hs Hf. destruct e; simpl in Hs; try (by rewrite Hs).
    case_decide; [|by rewrite Hs]. left. by destruct Hs.
Defined.

Lemma owes_classified cs ts :
  Forall2 thread_owes cs ts ->
  exists pending : Z, (0 <= pending <= count under_way ts)%Z /\ total cs ≡ (pending : u64).
Proof.
  assert (forall n ts t, n <= count under_way ts -> n <= count under_way (t :: ts))%Z as Hcons
    by (intros n ts1 t; rewrite count_cons; destruct (under_way t); lia).
  induction 1 as [|c t cs ts Hc _ (n & [Hn0 Hn] & Heq)]; [by exists 0%Z|].
  assert (forall m : Z, (0 <= m <= if under_way t then 1 else 0)%Z -> c ≡ (m : u64) ->
    exists pending : Z, (0 <= pending <= count under_way (t :: ts))%Z /\
      c ⊕ total cs ≡ (pending : u64)) as Hadd.
  { intros m Hm Hcm. exists (m + n)%Z. rewrite count_cons. split; [destruct (under_way t); lia|].
    by rewrite Hcm, Heq. }
  destruct t as [| | | | | | | | | | | | | |d p| | |g p| | | | |]; try (by apply (Hadd 0%Z)).
  - destruct Hc as [[->|Hc] _]; [by apply (Hadd 0%Z)|].
    assert (c = 1%Z) as -> by by destruct d. by apply (Hadd 1%Z).
  - destruct Hc as [[->|[]] _]. by apply (Hadd 0%Z).
Qed.

End Classified.
(** The messages that arrive in a schedule. *)
Definition is_message (l : label) : bool :=
  match l with LMessage _ _ | LStreamMessage _ _ => true | _ => false end.
Definition messages (ls : list label) : Z :=
  foldr (fun l z => (if is_message l then 1 else 0) + z)%Z 0%Z ls.

Lemma handled_pending i ls s r :
  unstarted i -> awareness_constructed (imp_spec i) -> hook_calm (imp_spec i) ->
  sys_run ls (initial i) = Some s -> imp_rtPtr (sy_imp s) = Some r ->
  exists pending : Z, (0 <= pending <= count under_way (sy_threads s))%Z /\
    handled (rt_metrics r) = uint64 (messages ls - pending).
Proof.
  intros Hun Haw Hcalm Hrun Hr.
  destruct (@ledger_balances _ _ _ _ _ _ (classified_ledger _ Haw Hcalm) i ls s Hun eq_refl Hrun)
    as (cs & Hcs & Hsum).
  apply owes_classified in Hcs as (pending & Hp & Htot). exists pending. split; [done|].
  unfold recorded_of in Hsum. rewrite Hr in Hsum. rewrite Htot in Hsum.
  assert (@arrived_due _ _ _ _ _ _ (classified_ledger _ Haw Hcalm) ls = messages ls) as Hdue.
  { clear. induction ls as [|l ls IH]; [done|].
    apply (f_equal2 Z.add); [by destruct l|exact IH]. }
  rewrite Hdue in Hsum. change (uint64 (handled (rt_metrics r) + pending) = uint64 (messages ls))
    in Hsum.
  apply (uint64_congr _ _ (- pending)) in Hsum. rewrite Z.add_opp_r, Z.add_simpl_r in Hsum.
  rewrite <- Z.add_opp_r, <- Hsum. symmetry. apply uint64_id, uint64_range.
Qed.


(** ** Acknowledgement *)

Definition answered (e : event) : option nat :=
  match e with CAck id | CNak id => Some id | _ => None end.
Definition answers (id : nat) (evs : list event) : nat :=
  length (filter (fun e => answered e = Some id) evs).

Definition tally : Type := nat.
#[local] Instance tally_equiv : Equiv tally := eq.
#[local] Instance tally_amounts : Amounts tally.
Proof.
  exact {| join := Nat.add : tally -> tally -> tally; nothing := 0 : tally |}.
Defined.

Section Answered.
Context (spec : ImpSpec) (id : nat).

Definition settles (X : Type) (e : access X) (c c' : tally) : Prop :=
  match e with
  | Ack i | Nak i => if decide (i = id) then c = 1 /\ c' = 0 else c' = c
  | _ => c' = c
  end.

Lemma answers_snoc evs e :
  answers id (evs ++ [e]) = answers id evs + (if decide (answered e = Some id) then 1 else 0).
Proof. unfold answers. rewrite filter_app, length_app. by rewrite filter_cons; case_decide. Qed.

Lemma answers_grow r r' :
  events_grow (fun e => answered e = None) r r' ->
  answers id (rt_events r') = answers id (rt_events r).
Proof.
  intros (evs & -> & Hall). unfold answers. rewrite filter_app, length_app.
  assert (filter (fun e => answered e = Some id) evs = []) as ->; [|simpl; lia].
  induction Hall as [|e evs He _ IH]; [done|]. rewrite filter_cons, decide_False; [done|congruence].
Qed.

Lemma settles_recorded X (e : access X) c c' r x r' :
  settles X e c c' -> access_handler X e r = (Done x, r') ->
  answers id (rt_events r') + c' = answers id (rt_events r) + c.
Proof.
  intros Hc Hrun.
  assert (forall m : M X, preserves (events_grow (fun e => answered e = None)) m ->
    m r = (Done x, r') -> c' = c ->
    answers id (rt_events r') + c' = answers id (rt_events r) + c) as Hsame.
  { intros m Hm Hr ->. apply (preserves_Done _ _ _ _ _ Hm) in Hr. by rewrite (answers_grow _ _ Hr). }
  assert (forall i, answers id (rt_events r') =
      answers id (rt_events r) + (if decide (Some i = Some id) then 1 else 0) ->
    (if decide (i = id) then c = 1 /\ c' = 0 else c' = c) ->
    answers id (rt_events r') + c' = answers id (rt_events r) + c) as Hpay.
  { intros i -> Hi. repeat case_decide; simplify_eq; [destruct Hi as [-> ->]; lia|lia]. }
  destruct e as [k|l msg attrs|i|i|Y e|Y e|Y e]; simpl in Hc, Hrun.
  - injection Hrun as _ <-. by rewrite Hc.
  - injection Hrun as _ <-. by rewrite Hc.
  - injection Hrun as _ <-. apply (Hpay i); [apply answers_snoc|done].
  - injection Hrun as _ <-. apply (Hpay i); [apply answers_snoc|done].
  - apply (Hsame (attempt (awareness_handler Y e))); [|done..]. apply attempt_frame.
    intros r1. eapply events_grow_weaken, awareness_events. by intros [].
  - apply (Hsame (attempt (hook_handler Y e))); [|done..]. apply attempt_frame.
    intros r1. eapply events_grow_weaken, hook_events. by intros [].
  - apply (Hsame (attempt (thinking_handler Y e))); [|done..]. apply attempt_frame.
    intros r1. eapply events_grow_weaken, thinking_events. by intros [].
Qed.

(** What a message owes before it is answered. *)
Definition stream_due (d : delivery) : tally :=
  match d with
  | OnSubject _ _ => 0
  | OnStream _ msg => if decide (jm_id msg = id) then 1 else 0
  end.

Definition settled {A} (c : tally) (p : prog access A) : Prop :=
  within settles True (fun _ c => c = 0) (fun _ _ => True) c p.

Lemma settles_due (msg : JsMsg) : 
  (if decide (jm_id msg = id) then (if decide (jm_id msg = id) then 1 else 0) = 1 /\ 0 = 0
   else 0 = (if decide (jm_id msg = id) then 1 else 0)).
Proof. by case_decide. Qed.

Lemma nakAndLog_settled (Q : unit -> tally -> Prop) msg ev name cause :
  Q tt 0 ->
  within settles True Q (fun _ _ => True) (if decide (jm_id msg = id) then 1 else 0)
    (nakAndLog_steps msg ev name cause).
Proof.
  intros HQ. assert (forall attrs, within settles True Q (fun _ _ => True) 0
    (call (Log LWarn ev attrs))) as Hlog.
  { intros attrs. eapply within_last; [done|]. by intros []. }
  eapply within_access; [apply settles_due|]. intros [e|] _; [|apply Hlog].
  eapply within_access; [done|]. intros _ _. apply Hlog.
Qed.

Lemma act_settled entity v : settled 0 (act_on_verdict_steps spec entity v).
Proof.
  unfold settled, act_on_verdict_steps. repeat case_decide; try (by eapply within_access); [|done].
  eapply within_access; [done|intros _ _]. apply within_bind. unfold invokeNote_steps.
  destruct (is_OnNote spec) as [hook|]; [|done]. apply within_catch.
  eapply within_user; [done|done|apply leaves_any|done|]. intros w.
  by eapply within_access; [|intros _ _; eapply within_last].
Qed.

Lemma deliver_settled d : settled (stream_due d) (deliver_steps spec d).
Proof.
  destruct d as [ch msg|ch msg]; [apply within_bind|];
    apply within_bind, within_of_result; try done; intros [decoded [err|]] _.
  - by do 2 (eapply within_access; [done|intros _ _]).
  - apply within_bind, within_of_result; try done. intros [entity err] _. destruct (_ || _).
    + by do 2 (eapply within_access; [done|intros _ _]).
    + eapply safeAwareness_within with (P := fun _ => True);
        [done|done|by intros; apply leaves_any| |].
      * by eapply within_access.
      * intros v _. apply within_bind, act_settled.
  - do 2 (eapply within_access; [done|intros _ _]). by apply within_bind, nakAndLog_settled.
  - apply within_bind, within_of_result; try done. intros [entity err] _. destruct (_ || _).
    + do 2 (eapply within_access; [done|intros _ _]). by apply within_bind, nakAndLog_settled.
    + eapply safeAwareness_within with (P := fun _ => True);
        [done|done|by intros; apply leaves_any| |].
      * do 2 (eapply within_access; [done|intros _ _]).
        by eapply within_access; [apply settles_due|].
      * intros v _. eapply within_access; [apply settles_due|]. intros [e|] _; [|apply act_settled].
        eapply within_access; [done|intros _ _]. apply act_settled.
Qed.

#[local] Instance answered_ledger : Ledger spec tally.
Proof.
  refine {|
    recorded r := answers id (rt_events r) : tally;
    spend := settles;
    fails := True;
    fits w c := match w with inl d => c <= stream_due d | inr _ => c = 0 end;
    due_subject msg := 0;
    due_stream msg := if decide (jm_id msg = id) then 1 else 0;
    owed g := 0 |}.
  - exact settles_recorded.
  - done.
  - done.
  - intros g gs r. simpl. rewrite answers_snoc. simpl. apply Nat.add_0_r.
  - intros r r' _ He. apply answers_grow. eapply events_grow_weaken, He. by intros [].
  - done.
  - intros d _. assert (forall p, settled (stream_due d) p ->
      within settles True (fun (launch : option goroutine) c =>
      c ≡ match launch with Some _ => 0 | None => nothing end) (fun _ _ => True) (stream_due d) p)
      as Hend by (intros p; apply within_mono; [by intros [] c ->|done]).
    destruct d; by apply Hend, deliver_settled.
  - intros g. by apply thinking_within.
  - by intros [].
  - done.
  - intros w X e c c' Hs Hf. destruct e; simpl in Hs; try (by rewrite Hs);
      case_decide; try (by rewrite Hs); destruct Hs as [-> ->]; destruct w; simpl in *; lia.
Defined.

(** A callback that may still have to answer. *)
Definition unanswered (t : thread) : bool :=
  match t with TDeliver (OnStream _ msg) _ => bool_decide (jm_id msg = id) | _ => false end.

Lemma owes_answered cs ts :
  Forall2 thread_owes cs ts -> (Z.of_nat (total cs : nat) <= count unanswered ts)%Z.
Proof.
  induction 1 as [|c t cs ts Hc _ IH]; [done|]. rewrite count_cons.
  assert (Z.of_nat (c : nat) <= if unanswered t then 1 else 0)%Z as Ht.
  { assert (c = 0%nat -> Z.of_nat (c : nat) <= if unanswered t then 1 else 0)%Z as Hz
      by (intros ->; by destruct (unanswered t)).
    destruct t as [| | | | | | | | | | | | | |d p| | |g p| | | | |]; try (by apply Hz).
    - destruct Hc as [Hc _]. destruct d as [ch msg|ch msg]; simpl in *; [lia|].
      case_decide; [rewrite bool_decide_true by done|rewrite bool_decide_false by done]; lia.
    - destruct Hc as [Hc _]. by apply Hz. }
  simpl. change (c ⊕ total cs) with (Nat.add c (total cs)). lia.
Qed.

End Answered.

(** The deliveries of one stream message in a schedule. *)
Definition delivered (l : label) : option nat :=
  match l with LStreamMessage _ msg => Some (jm_id msg) | _ => None end.
Definition deliveries (id : nat) (ls : list label) : nat :=
  length (filter (fun l => delivered l = Some id) ls).

Lemma answers_pending i ls s r id :
  unstarted i -> sys_run ls (initial i) = Some s -> imp_rtPtr (sy_imp s) = Some r ->
  exists pending : nat, answers id (rt_events r) + pending = deliveries id ls /\
    (Z.of_nat pending <= count (unanswered id) (sy_threads s))%Z.
Proof.
  intros Hun Hrun Hr.
  destruct (@ledger_balances _ _ _ _ _ _ (answered_ledger (imp_spec i) id) i ls s Hun eq_refl Hrun)
    as (cs & Hcs & Hsum).
  exists (total cs). split; [|by eapply owes_answered].
  unfold recorded_of in Hsum. rewrite Hr in Hsum. etransitivity; [exact Hsum|]. clear.
  induction ls as [|l ls IH]; [done|]. unfold deliveries. rewrite filter_cons.
  transitivity (Nat.add (@arriving_due _ _ _ _ _ _ (answered_ledger (imp_spec i) id) l)
    (deliveries id ls)); [exact (f_equal (Nat.add _) IH)|].
  destruct l; simpl; try done. by repeat case_decide; simplify_eq.
Qed.

(** C5: every stream message is answered exactly once, over every schedule, with no
    condition on user code or on the server. However callbacks, thinking functions,
    startups and shutdowns interleave, the ACKs and NAKs sent for a message, with at
    most one pending for each callback of it that is still under way, are as many as
    its deliveries: never more, and as many when no callback of it is under way. *)
Theorem stream_answers i ls s r id :
  unstarted i -> sys_run ls (initial i) = Some s -> imp_rtPtr (sy_imp s) = Some r ->
  exists pending : nat, answers id (rt_events r) + pending = deliveries id ls /\
    (Z.of_nat pending <= count (unanswered id) (sy_threads s))%Z.
Proof. apply answers_pending. Qed.

(** ** Without interruption *)

(** The system after thread [n] has come to its end, having launched [gs]. *)
Definition after_thread (n : nat) (r : runtime) (gs : list goroutine) (s : system) : system :=
  mkSystem (set_runtime r (sy_imp s)) (sy_ctxDone s)
    (<[n := TDone]> (sy_threads s) ++ (started (imp_spec (sy_imp s)) <$> gs)).

Definition alone_steps (n k : nat) : list label := replicate k (LThread n false).

Lemma first_step n k s s1 s2 :
  sys_step (LThread n false) s = Some s1 -> sys_run (alone_steps n k) s1 = Some s2 ->
  sys_run (alone_steps n (S k)) s = Some s2.
Proof. intros H1 H2. unfold alone_steps. cbn [replicate sys_run]. by rewrite H1. Qed.

(** One access of the thread, then the rest. *)
Lemma after_access n t t' s r r1 r' gs k :
  sy_threads s !! n = Some t -> imp_rtPtr (sy_imp s) = Some r -> t <> TRunBoot ->
  thread_action (imp_spec (sy_imp s)) (imp_opts (sy_imp s)) (sy_ctxDone s) false t r =
    (Done t', r1) -> rt_goroutines r1 = rt_goroutines r ->
  sys_run (alone_steps n k) (set_thread n t' r1 s) = Some (after_thread n r' gs (set_thread n t' r1 s)) ->
  sys_run (alone_steps n (S k)) s = Some (after_thread n r' gs s).
Proof.
  intros Ht Hr Hne Hact Hg Hrun.
  eapply first_step; [by apply (sys_step_action n false t t' s r r1)|]. rewrite Hrun.
  unfold after_thread; simpl. by rewrite list_insert_insert_eq.
Qed.

Lemma launch_steps n g s r :
  sy_threads s !! n = Some (TLaunchWG g) -> imp_rtPtr (sy_imp s) = Some r ->
  exists r', bind launch_wg (fun _ => launch_go g) r = (Done tt, r') /\
    rt_goroutines r' = rt_goroutines r ++ [g] /\
    sys_run (alone_steps n 2) s = Some (after_thread n r' [g] s).
Proof.
  intros Ht Hr. pose proof (lookup_lt_Some _ _ _ Ht) as Hlt. eexists. split; [reflexivity|].
  split; [done|].
  eapply first_step;
    [by apply (sys_step_action n false _ (TLaunchGo g) s r (set_wg (rt_thinkingWG r + 1) r) Ht Hr)|].
  unfold alone_steps, set_thread. cbn [replicate sys_run sys_step sy_threads].
  rewrite list_lookup_insert_eq by done. simpl. rewrite drop_app_length. simpl.
  by rewrite list_insert_insert_eq.
Qed.

Lemma deliver_steps_run n d p : forall s r r',
  sy_threads s !! n = Some (TDeliver d p) -> imp_rtPtr (sy_imp s) = Some r ->
  bind (run_prog access_handler p) launching_of r = (Done tt, r') ->
  exists k gs, rt_goroutines r' = rt_goroutines r ++ gs /\ length gs <= 1 /\
    sys_run (alone_steps n k) s = Some (after_thread n r' gs s).
Proof.
  induction p as [[g|]|v| |X e k IH]; intros s r r' Ht Hr Hrun; try done;
    pose proof (lookup_lt_Some _ _ _ Ht) as Hlt.
  - set (r1 := set_metrics (Add InflightThinking 1 (rt_metrics r)) r).
    destruct (launch_steps n g (set_thread n (TLaunchWG g) r1 s) r1) as (r2 & Hl & Hg & Hsteps);
      [by apply list_lookup_insert_eq|done|].
    assert (r2 = r') as -> by (destruct g; injection Hrun as <-; by injection Hl as <-).
    exists 3, [g]. split_and!; [done|done|]. by eapply after_access.
  - injection Hrun as <-. exists 1, []. split_and!; [by rewrite app_nil_r|simpl; lia|].
    eapply first_step; [by apply (sys_step_action n false _ TDone s r r Ht Hr)|].
    unfold after_thread, set_thread. by rewrite app_nil_r.
  - simpl in Hrun. rewrite bind_assoc_run in Hrun. unfold bind at 1 in Hrun.
    destruct (access_handler X e r) as [[x|v|] r1] eqn:He; [|done..].
    pose proof (preserves_Done _ _ _ _ _ (access_launches_nothing X e) He) as Hsame.
    injection Hsame as Hg _ _.
    destruct (IH x (set_thread n (TDeliver d (k x)) r1 s) r1 r') as (m & gs & Hgs & Hlen & Hsteps);
      [by apply list_lookup_insert_eq|done|done|].
    exists (S m), gs. split_and!; [by rewrite Hgs, Hg|done|].
    eapply after_access; [exact Ht|exact Hr|done| | |exact Hsteps]; [|done].
    simpl. unfold bind. by rewrite He.
Qed.

Lemma thinking_steps_run n g p : forall s r r',
  sy_threads s !! n = Some (TThink g p) -> imp_rtPtr (sy_imp s) = Some r ->
  deferring settle_wg (deferring settle_gauge (run_prog access_handler p)) r = (Done tt, r') ->
  exists k, sys_run (alone_steps n k) s = Some (after_thread n r' [] s).
Proof.
  induction p as [[]|v| |X e k IH]; intros s r r' Ht Hr Hrun; try done;
    pose proof (lookup_lt_Some _ _ _ Ht) as Hlt.
  - injection Hrun as <-. exists 2.
    set (r1 := set_metrics (Add InflightThinking (-1) (rt_metrics r)) r).
    eapply (after_access n _ (TThinkWG g) s r r1); [exact Ht|exact Hr|done..|].
    eapply first_step; [apply (sys_step_action n false (TThinkWG g) TDone _ r1
      (set_wg (rt_thinkingWG r1 - 1) r1)); try done; by apply list_lookup_insert_eq|].
    unfold after_thread, set_thread. by rewrite app_nil_r.
  - simpl in Hrun. unfold deferring, bind in Hrun.
    destruct (access_handler X e r) as [[x|v|] r1] eqn:He;
      [|by destruct (access_no_panic X e r v r1)|done].
    pose proof (preserves_Done _ _ _ _ _ (access_launches_nothing X e) He) as Hsame.
    injection Hsame as Hg _ _.
    destruct (IH x (set_thread n (TThink g (k x)) r1 s) r1 r') as (m & Hsteps);
      [by apply list_lookup_insert_eq|done|done|].
    exists (S m). eapply after_access; [exact Ht|exact Hr|done| | |exact Hsteps]; [|done].
    simpl. unfold bind. by rewrite He.
Qed.


End Messages.

(** ** Witnesses *)

Section MessagesWitnesses.
Import Demo.

(** The imp is up and one message is thought about; a stream message has just come. *)
Definition arriving : list label := up ++ [LStreamMessage 1 demo_jsmsg].
(** The same, with the message acknowledged. *)
Definition acknowledged : list label := arriving ++ [step 3].

Lemma demo_constructed : awareness_constructed (imp_spec demo).
Proof. intros f decoded entity Hf. injection Hf as <-. simpl. set_solver. Qed.

Lemma demo_calm : hook_calm (imp_spec demo).
Proof. intros hook entity payload Hh. discriminate Hh. Qed.


Lemma stream_answers_witness :
  answers 7 (rt_events (runtime_after arriving)) = 0 /\
  answers 7 (rt_events (runtime_after acknowledged)) = 1 /\
  exists pending : nat,
    answers 7 (rt_events (runtime_after acknowledged)) + pending = deliveries 7 acknowledged /\
    (Z.of_nat pending <= count (unanswered 7) (sy_threads (after acknowledged)))%Z.
Proof.
  split; [vm_compute; reflexivity|]. split; [vm_compute; reflexivity|].
  apply (stream_answers demo acknowledged (after acknowledged)).
  - exact demo_unstarted.
  - apply after_run. vm_compute. reflexivity.
  - apply runtime_after_ptr. vm_compute. reflexivity.
Defined.

Lemma after_spec ls :
  (if sys_run ls (initial demo) then true else false) = true ->
  imp_spec (sy_imp (after ls)) = imp_spec demo.
Proof.
  intros Hrun%after_run.
  assert (booked (imp_spec demo) (sy_imp (after ls)) (sy_threads (after ls))) as [Hs _ _ _];
    [|exact Hs].
  eapply inv_run; [apply booked_inv|done|done| |exact Hrun]. by split.
Qed.

Definition arrived_last : system := after (up ++ [LMessage 0 demo_msg]).
Definition demo_delivery : delivery :=
  OnSubject (default demo_channel (rt_channels (runtime_after up) !! 0)) demo_msg.

Lemma message_thread n msg s s' :
  sys_step (LMessage n msg) s = Some s' ->
  exists r ch, imp_rtPtr (sy_imp s) = Some r /\ rt_channels r !! n = Some ch /\
    sy_threads s' = sy_threads s ++ [arrived_thread (imp_spec (sy_imp s)) (OnSubject ch msg)].
Proof. intros (r & ch & Hr & Hch & _ & ->)%arrive_inv. by exists r, ch. Qed.

Lemma arrived_last_thread :
  sy_threads arrived_last !! 3 = Some (arrived_thread (imp_spec demo) demo_delivery).
Proof.
  assert (sys_step (LMessage 0 demo_msg) (after up) = Some arrived_last) as Hstep
    by (unfold arrived_last; apply (after_step up); vm_compute; reflexivity).
  apply message_thread in Hstep as (r & ch & Hr & Hch & ->).
  unfold demo_delivery, runtime_after. rewrite Hr. cbn [default from_option id]. rewrite Hch.
  rewrite after_spec by (vm_compute; reflexivity).
  apply list_lookup_middle. vm_compute. reflexivity.
Qed.

Lemma thinking_thread :
  sy_threads arrived_last !! 2 =
    Some (started (imp_spec demo) (mkGoroutine (AString "hello") "singleton")).
Proof. vm_compute. reflexivity. Qed.


End MessagesWitnesses.
