(* ===== verification/Rest.v ===== *)
(** * Coming to rest (imp.go with its goroutines)

    Every schedule ends: without new calls and messages the goroutines of [System]
    take finitely many steps, whatever user code does. And what holds when none of
    them has a step left. *)

From stdpp Require Import well_founded.
From S2P Require Import Prelude Values Substrate Model Validate Lifecycle Metrics Registry.
From S2P Require Import Runtime Request Dispatch GoTime Consumer Channels Callbacks Imp.
From S2P Require Import System Closing Ledger Messages.

(** ** Replacing an element by smaller ones *)

Section Spawning.
Context {A : Type} (R : relation A).

(** Of a pool of things, up to their order, one is replaced by any number of smaller
    ones. *)
Definition replaced (l' l : list A) : Prop :=
  exists x new rest, l ≡ₚ x :: rest /\ l' ≡ₚ new ++ rest /\ Forall (fun y => R y x) new.

#[local] Instance replaced_proper : Proper ((≡ₚ) ==> (≡ₚ) ==> iff) replaced.
Proof.
  assert (forall l l' m m', l ≡ₚ l' -> m ≡ₚ m' -> replaced l m -> replaced l' m') as Hp.
  { intros l l' m m' Hl Hm (x & new & rest & H1 & H2 & H3). exists x, new, rest.
    by rewrite <- Hl, <- Hm. }
  intros l l' Hl m m' Hm. split; by apply Hp.
Qed.

Lemma replaced_acc_perm l l' : l ≡ₚ l' -> Acc replaced l -> Acc replaced l'.
Proof. intros Hl [Ha]. constructor. intros m Hm. apply Ha. by rewrite Hl. Qed.

(** A first element that is the one replaced, or stays. *)
Lemma replaced_cons l' x l :
  replaced l' (x :: l) ->
  (exists new, l' ≡ₚ new ++ l /\ Forall (fun y => R y x) new) \/
  (exists l1, l' ≡ₚ x :: l1 /\ replaced l1 l).
Proof.
  intros (y & new & rest & H1 & H2 & H3). symmetry in H1.
  apply Permutation_cons_inv_r in H1 as (k1 & k2 & Heq & Hp).
  destruct k1 as [|z k1]; injection Heq as -> Heq.
  - left. exists new. by rewrite H2, Heq, Hp.
  - right. exists (new ++ k1 ++ k2). split.
    + by rewrite H2, Heq, !app_assoc, <- Permutation_middle.
    + by exists z, new, (k1 ++ k2).
Qed.

Lemma replaced_acc_cons x : Acc R x -> forall l, Acc replaced l -> Acc replaced (x :: l).
Proof.
  induction 1 as [x _ IHx]. induction 1 as [l Hl IHl]. constructor.
  intros l' [(new & Hp & Hnew)|(l1 & Hp & Hr)]%replaced_cons; (eapply replaced_acc_perm; [by symmetry|]).
  - clear Hp. induction Hnew as [|y new Hy _ IH]; simpl; [by constructor|by apply IHx].
  - by apply IHl.
Qed.

Lemma replaced_wf : well_founded R -> well_founded replaced.
Proof.
  intros HR l. induction l as [|x l IH]; [|by apply replaced_acc_cons].
  constructor. intros l' (x & new & rest & Hp & _). by apply Permutation_nil_cons in Hp.
Qed.

End Spawning.

(** ** The way of a goroutine through its code *)

Section Rest.
Context `{NatsEnv}.

(** What is left of a program after its first access. *)
Definition continues {A} (q p : prog access A) : Prop :=
  match p with Vis _ k => exists x, q = k x | _ => False end.

Lemma continues_wf {A} : well_founded (@continues A).
Proof.
  intros p. induction p as [a|v| |X e k IH]; constructor; [done..|]. intros q [x ->]. apply IH.
Qed.

(** The phases of the code, and what is left of a loop. *)
Definition unwind_phase (u : unwinding) : nat :=
  match u with UBegin => 3 | UUnsubscribe _ _ => 2 | UTeardown => 1 | UStop _ _ | UDelete _ _ => 0 end.
Definition unwind_left (u : unwinding) : nat :=
  match u with
  | UUnsubscribe k n => n - k
  | UStop k n => 2 * (n - k)
  | UDelete k n => S (2 * (n - S k))
  | UBegin | UTeardown => 0
  end.

Definition phase (t : thread) : nat :=
  match t with
  | TRunBoot => 20 | TRunClaim => 19 | TRunStart _ => 18 | TRunFailed _ => 17
  | TRunUnwind u _ => 13 + unwind_phase u
  | TRunReady => 12 | TRunSelect => 11 | TShutBegin => 10
  | TShutUnwind u => 6 + unwind_phase u
  | TShutCancel => 5 | TShutDrain => 4 | TShutStop _ => 3 | TShutClose => 2 | TShutJoin => 1
  | TDeliver _ _ => 5 | TLaunchWG _ => 4 | TLaunchGo _ => 3 | TThink _ _ => 2 | TThinkWG _ => 1
  | TReturned _ | TStartReturned _ | TShutReturned _ | TDone => 0
  end.
Definition loop_left (t : thread) : nat :=
  match t with
  | TRunStart rest => length rest
  | TRunUnwind u _ | TShutUnwind u => unwind_left u
  | _ => 0
  end.

(** [t'] continues the program of [t]. *)
Definition next_access (t' t : thread) : Prop :=
  match t, t' with
  | TDeliver _ p, TDeliver _ q => continues q p
  | TThink _ p, TThink _ q => continues q p
  | _, _ => False
  end.

(** [t'] is further on its way than [t]. *)
Definition further (t' t : thread) : Prop :=
  phase t' < phase t \/ phase t' = phase t /\ loop_left t' < loop_left t \/ next_access t' t.

Lemma next_access_wf : well_founded next_access.
Proof.
  assert (forall d p, Acc next_access (TDeliver d p)) as Hd.
  { intros d p. revert d. induction (continues_wf p) as [p _ IH]. intros d. constructor.
    intros t Ht. destruct t; try (destruct Ht; fail). by apply IH. }
  assert (forall g p, Acc next_access (TThink g p)) as Hg.
  { intros g p. revert g. induction (continues_wf p) as [p _ IH]. intros g. constructor.
    intros t Ht. destruct t; try (destruct Ht; fail). by apply IH. }
  intros t. destruct t; try apply Hd; try apply Hg; by constructor; intros t' [].
Qed.

Lemma next_access_same t' t :
  next_access t' t -> phase t' = phase t /\ loop_left t' = loop_left t.
Proof. destruct t; try (intros []); by destruct t'. Qed.

Lemma further_wf : well_founded further.
Proof.
  assert (forall n m t, phase t = n -> loop_left t = m -> Acc further t) as Hacc;
    [|intros t; by eapply Hacc].
  induction n as [n IHn] using lt_wf_ind. induction m as [m IHm] using lt_wf_ind.
  intros t. induction (next_access_wf t) as [t _ IHt]. intros Hn Hm. constructor.
  intros t' [Hp|[[Hp Hl]|Ht]].
  - eapply IHn; [|done..]. lia.
  - eapply IHm; [|congruence|done]. lia.
  - destruct (next_access_same _ _ Ht). apply IHt; [done|congruence..].
Qed.

(** Every step gets a goroutine further, and what it starts is further too. *)
Lemma unwind_step_further u r u' r' :
  unwind_step u r = (Done (Some u'), r') ->
  unwind_phase u' < unwind_phase u \/
  unwind_phase u' = unwind_phase u /\ unwind_left u' < unwind_left u.
Proof.
  intros Hstep.
  destruct u as [|k n| |k n|k n]; simpl in *; unfold bind in Hstep at 1; unfold gets in Hstep.
  - injection Hstep as <- _. simpl. lia.
  - destruct (Nat.ltb_spec k n); [|injection Hstep as <- _; simpl; lia].
    destruct (in_place _ _ _) as [[[]|v|] r1]; try done. injection Hstep as <- <-. simpl. lia.
  - unfold bind, ret in Hstep. destruct (rt_js r); [|done]. injection Hstep as <- _. simpl. lia.
  - destruct (Nat.ltb_spec k n); [|done].
    destruct (in_place _ _ _) as [[[]|v|] r1]; try done. injection Hstep as <- <-. simpl. lia.
  - destruct (in_place _ _ _) as [[[]|v|] r1]; try done. injection Hstep as <- <-. simpl. lia.
Qed.

Lemma control_further spec o c p t r t' r' :
  runs_user_code t = false -> thread_action spec o c p t r = (Done t', r') -> further t' t.
Proof.
  intros Hu Hact. destruct (unwinding_of t) as [u|] eqn:Hw.
  - destruct (action_unwinding _ _ _ _ _ _ _ _ _ Hw Hact) as (next & Hs & Hnext & Hshut).
    pose proof (thread_action_protocol _ _ _ _ _ _ _ _ Hact) as Hpr.
    destruct next as [u'|].
    + apply unwind_step_further in Hs. unfold further.
      destruct Hpr; simplify_eq/=; lia.
    + left. destruct Hpr; simplify_eq/=; lia.
  - apply thread_action_protocol in Hact. unfold further.
    destruct Hact; simplify_eq/=; lia.
Qed.

Lemma action_further spec o c p t r t' r' :
  thread_action spec o c p t r = (Done t', r') ->
  further t' t /\
  Forall (fun g => further (started spec g) t) (drop (length (rt_goroutines r)) (rt_goroutines r')).
Proof.
  intros Hact. destruct (runs_user_code t) eqn:Hu.
  2:{ split; [by eapply control_further|].
      pose proof (preserves_Done _ _ _ _ _ (control_frame rt_goroutines spec o c p t
        ltac:(done) Hu) Hact) as Hg. unfold unchanged in Hg. rewrite Hg, drop_all. constructor. }
  assert (rt_goroutines r' = rt_goroutines r -> Forall (fun g => further (started spec g) t)
    (drop (length (rt_goroutines r)) (rt_goroutines r'))) as Hnone.
  { intros ->. rewrite drop_all. constructor. }
  assert (forall X (e : access X) x r1, access_handler X e r = (Done x, r1) ->
    rt_goroutines r1 = rt_goroutines r) as Hacc.
  { intros X e x r1 He. pose proof (preserves_Done _ _ _ _ _ (access_launches_nothing X e) He) as Hg.
    by injection Hg. }
  destruct t as [| | | | | | | | | | | | | |d [[g|]|v| |X e k]|g|g|g [[]|v| |X e k]|g| | | |];
    try done; unfold thread_action in Hact; try done.
  all: try (unfold bind in Hact; destruct (access_handler _ e r) as [[x|v|] r1] eqn:He; [|done..];
    injection Hact as <- <-; split; [right; right; by exists x|by eapply Hnone, Hacc]).
  all: injection Hact as <- <-; split; [left; simpl; lia|].
  all: try by apply Hnone.
  simpl. rewrite drop_app_length. repeat constructor.
Qed.

(** ** Termination *)

(** One step of the goroutines there are. *)
Definition proceeds (s' s : system) : Prop := exists n pick, sys_step (LThread n pick) s = Some s'.

Lemma step_further c p t i t' sp i' :
  thread_step c p t i = Next t' sp i' -> further t' t /\ Forall (fun t1 => further t1 t) sp.
Proof.
  intros [(-> & -> & err & _ & ->)|[(-> & _ & -> & -> & _)|(_ & r & r' & _ & Hact & -> & _)]]
    %thread_step_cases.
  - split; [left; destruct err; simpl; lia|constructor].
  - split; [left; simpl; lia|constructor].
  - apply action_further in Hact as [H1 H2]. split; [done|]. by apply Forall_fmap.
Qed.

Lemma proceeds_replaced s' s : proceeds s' s -> replaced further (sy_threads s') (sy_threads s).
Proof.
  intros (n & pick & (ts1 & t & ts2 & t' & sp & i' & -> & _ & Hstep & ->)%sys_step_thread).
  apply step_further in Hstep as [H1 H2]. exists t, (t' :: sp), (ts1 ++ ts2). split_and!.
  - by rewrite Permutation_middle.
  - simpl. rewrite (Permutation_app_comm _ sp), app_assoc, <- Permutation_middle.
    by rewrite <- app_assoc.
  - by constructor.
Qed.

Lemma proceeds_wf : well_founded proceeds.
Proof.
  eapply (wf_projected (replaced further) sy_threads); [|apply replaced_wf, further_wf].
  intros s' s. apply proceeds_replaced.
Qed.

(** ** At rest *)

(** No goroutine has a step left. *)
Definition at_rest (s : system) : Prop := forall n pick, sys_step (LThread n pick) s = None.

Definition at_restb (s : system) : bool :=
  forallb (fun n => match sys_step (LThread n true) s, sys_step (LThread n false) s with
                    | None, None => true
                    | _, _ => false
                    end) (seq 0 (length (sy_threads s))).

Lemma at_restb_spec s : at_restb s = true <-> at_rest s.
Proof.
  unfold at_restb. rewrite forallb_forall. setoid_rewrite in_seq. split.
  - intros Hall n pick. destruct (decide (n < length (sy_threads s))) as [Hn|Hn].
    + specialize (Hall n ltac:(lia)).
      destruct (sys_step (LThread n true) s) eqn:H1; [done|].
      destruct (sys_step (LThread n false) s) eqn:H2; [done|]. by destruct pick.
    + simpl. by rewrite lookup_ge_None_2 by lia.
  - intros Hr n _. by rewrite !Hr.
Qed.

#[export] Instance at_rest_dec s : Decision (at_rest s).
Proof. refine (cast_if (decide (at_restb s = true))); by rewrite <- at_restb_spec. Defined.

Lemma not_at_rest s : ~ at_rest s -> exists s', proceeds s' s.
Proof.
  intros Hr. rewrite <- at_restb_spec, not_true_iff_false in Hr. unfold at_restb in Hr.
  apply not_true_iff_false in Hr. rewrite forallb_forall in Hr.
  destruct (decide (Exists (fun n => is_Some (sys_step (LThread n true) s) \/
    is_Some (sys_step (LThread n false) s)) (seq 0 (length (sy_threads s))))) as [Hex|Hex].
  - apply Exists_exists in Hex as (n & _ & [[s' Hs]|[s' Hs]]);
      [by exists s', n, true|by exists s', n, false].
  - destruct Hr. intros n Hn. apply not_Exists_Forall in Hex; [|apply _].
    rewrite Forall_forall in Hex. specialize (Hex n). rewrite <- list_elem_of_In in Hn.
    specialize (Hex Hn).
    destruct (sys_step (LThread n true) s) eqn:H1; [destruct Hex; left; by eexists|].
    destruct (sys_step (LThread n false) s) eqn:H2; [destruct Hex; right; by eexists|done].
Qed.

(** Steps of the goroutines there are. *)
Definition thread_label (l : label) : Prop := exists n pick, l = LThread n pick.

(** Whoever goes on comes to rest. *)
Lemma rest_reached s :
  exists ls s', Forall thread_label ls /\ sys_run ls s = Some s' /\ at_rest s'.
Proof.
  induction (proceeds_wf s) as [s _ IH]. destruct (decide (at_rest s)) as [Hr|Hr].
  { exists [], s. by split; [constructor|]. }
  apply not_at_rest in Hr as (s1 & n & pick & Hs).
  destruct (IH s1) as (ls & s' & Hls & Hrun & Hr); [by exists n, pick|].
  exists (LThread n pick :: ls), s'. split_and!; [constructor; [by eexists _, _|done]| |done].
  cbn [sys_run]. by rewrite Hs.
Qed.

(** *** Where goroutines rest *)

Definition user_call {X} (e : access X) : bool :=
  match e with ByAwareness _ | ByHook _ | ByThinking _ => true | _ => false end.

(** User code that hangs or has panicked, or a call of user code that does not
    return. *)
Definition held_up (r : runtime) {A} (p : prog access A) : Prop :=
  match p with
  | Ret _ => False
  | Panic _ | Diverge => True
  | Vis e _ => user_call e = true /\ exists r', access_handler _ e r = (Blocked, r')
  end.

Definition resting (i : Imp) (ctxDone : bool) (t : thread) : Prop :=
  match t with
  | TReturned _ | TStartReturned _ | TShutReturned _ | TDone => True
  | TRunClaim => imp_rtPtr i = None
  | TRunSelect => ctxDone = false /\ exists r, imp_rtPtr i = Some r /\ rt_shutdownOnce r = false
  | TDeliver _ p => exists r, imp_rtPtr i = Some r /\ held_up r p
  | TThink _ p => exists r, imp_rtPtr i = Some r /\ held_up r p /\ forall v, p <> Panic v
  | _ => False
  end.

Lemma access_blocks X (e : access X) r r' :
  access_handler X e r = (Blocked, r') -> user_call e = true.
Proof. by destruct e. Qed.

Lemma prog_rests {A} (p : prog access A) r (f : prog access A -> thread) :
  (forall X (e : access X) k, p = Vis e k -> forall x r', access_handler X e r <> (Done x, r')) ->
  (forall a, p <> Ret a) -> held_up r p.
Proof.
  intros Hv Hr. destruct p as [a|v| |X e k]; simpl; [by destruct (Hr a)|done..|].
  destruct (access_handler X e r) as [[x|v|] r'] eqn:He.
  - by destruct (Hv X e k eq_refl x r').
  - by destruct (access_no_panic X e r v r').
  - split; [by eapply access_blocks|by eexists].
Qed.

(** Thinking does not panic: its goroutine recovers. *)
Lemma no_panic_catch {A} (p : prog access A) h :
  (forall v, no_panic (h v)) -> no_panic (catch p h).
Proof. intros Hh. induction p as [a|v| |X e k IH]; simpl; auto. Qed.

Definition calm (t : thread) : Prop := match t with TThink _ p => no_panic p | _ => True end.

Lemma started_calm spec g : calm (started spec g).
Proof. apply no_panic_catch. intros v x. by simpl. Qed.

Lemma calm_inv : inductive_inv (fun _ ts => Forall calm ts) (fun _ => True).
Proof.
  split.
  - intros i ts t Hts Ha _. apply Forall_snoc; [done|]. by destruct t.
  - intros i ts1 t ts2 c p t' sp i' Hts Hstep.
    assert (calm t) as Ht by (rewrite Forall_forall in Hts; apply Hts; set_solver).
    apply thread_step_cases in Hstep as
      [(-> & -> & err & Hboot & ->)|[(-> & Hp & -> & -> & ->)|(_ & r & r' & Hp & Hact & -> & ->)]];
      rewrite ?app_nil_r; [eapply Forall_middle; [done|by destruct err]|by eapply Forall_middle|].
    apply Forall_app_2; [|apply Forall_fmap, Forall_true; intros g; apply started_calm].
    eapply Forall_middle; [done|].
    destruct (thinks t) eqn:Hth.
    + destruct t as [| | | | | | | | | | | | | | | | |g [a|v| |X e k]|g| | | |]; try done;
        unfold thread_action in Hact; try done; [by injection Hact as <- <-|].
      unfold bind in Hact. destruct (access_handler _ e r) as [[x|v|] r1]; try done.
      injection Hact as <- <-. apply Ht.
    + apply thread_action_protocol in Hact. by destruct Hact.
Qed.

(** *** What goroutines can always do *)

(** The goroutines that wait for somebody else, or for user code. *)
Definition waits (t : thread) : bool :=
  match t with TRunSelect | TShutJoin | TDeliver _ _ | TThink _ _ => true | _ => false end.

Definition has_action (spec : ImpSpec) (o : runtimeOptions) (c : bool) (t : thread) (r : runtime) :
    Prop :=
  exists p t' r', thread_action spec o c p t r = (Done t', r').

Lemma begin_action spec o c r : has_action spec o c TShutBegin r.
Proof.
  unfold has_action, thread_action. exists true. destruct (rt_shutdownOnce r) eqn:Ho.
  - unfold shutdown_begin, gets, bind, ret. rewrite Ho. by eexists _, _.
  - rewrite (bind_Done _ _ _ _ _ (shutdown_begin_first o r Ho)). by eexists _, _.
Qed.

Lemma claim_action spec o c r : has_action spec o c TRunClaim r.
Proof.
  unfold has_action, thread_action, run_claim, gets, modify, bind, ret. exists true. simpl.
  destruct (Machine_CompareAndSwap _ _ _) as [[] m]; by eexists _, _.
Qed.

Lemma start_action `{!ServerLaws} spec o c rest r :
  startable (TRunStart rest) -> accounted r -> has_action spec o c (TRunStart rest) r.
Proof.
  intros [Hok Hint] (lost & _ & Hb). exists true. destruct rest as [|ch rest]; [by eexists _, _|].
  apply Forall_cons in Hok as [Hok _]. apply Forall_cons in Hint as [Hint _].
  destruct (start_prefix [ch] ltac:(by constructor) ltac:(by constructor) lost r Hb)
    as (err & r1 & _ & _ & Hs & _).
  unfold thread_action. rewrite (bind_Done _ _ _ _ _ Hs). by eexists _, _.
Qed.

Lemma always_action `{!ServerLaws} spec o c t r :
  startable t -> accounted r -> waits t = false -> phase t <> 0 -> t <> TRunBoot ->
  has_action spec o c t r.
Proof.
  intros Hst Ha Hw Hf Hne. destruct (unwinding_of t) as [u|] eqn:Hu.
  { destruct (unwind_step_run u r) as (next & r' & Hs & _). exists true.
    destruct t; try done; injection Hu as ->; unfold thread_action;
      rewrite (bind_Done _ _ _ _ _ Hs); by eexists _, _. }
  destruct t; try done; first [by apply start_action|apply begin_action|apply claim_action|
    exists true; unfold thread_action; by eexists _, _].
Qed.

Lemma resting_action s n t r :
  at_rest s -> sy_threads s !! n = Some t -> imp_rtPtr (sy_imp s) = Some r -> t <> TRunBoot ->
  forall p t' r',
    thread_action (imp_spec (sy_imp s)) (imp_opts (sy_imp s)) (sy_ctxDone s) p t r <> (Done t', r').
Proof.
  intros Hrest Ht Hr Hne p t' r' Hact. specialize (Hrest n p). simpl in Hrest.
  rewrite Ht in Hrest. simpl in Hrest.
  destruct t; try done; unfold thread_step in Hrest; rewrite Hr, Hact in Hrest; done.
Qed.

(** Of the callbacks and goroutines only those user code holds up. *)
Lemma resting_user s n t r :
  at_rest s -> sy_threads s !! n = Some t -> imp_rtPtr (sy_imp s) = Some r ->
  runs_user_code t = true ->
  match t with TDeliver _ p => held_up r p | TThink _ p => held_up r p | _ => False end.
Proof.
  intros Hrest Ht Hr Hu. assert (t <> TRunBoot) as Hne by by destruct t.
  pose proof (resting_action s n t r Hrest Ht Hr Hne) as Hno.
  destruct t as [| | | | | | | | | | | | | |d p|g|g|g p|g| | | |]; try done.
  - apply (prog_rests p r (TDeliver d)).
    + intros X e k -> x r' He. apply (Hno true (TDeliver d (k x)) r'). unfold thread_action, bind.
      by rewrite He.
    + intros [g|] ->; by eapply (Hno true).
  - by eapply (Hno true).
  - by eapply (Hno true).
  - apply (prog_rests p r (TThink g)).
    + intros X e k -> x r' He. apply (Hno true (TThink g (k x)) r'). unfold thread_action, bind.
      by rewrite He.
    + intros [] ->. by eapply (Hno true).
  - by eapply (Hno true).
Qed.

Lemma no_boot_at_rest s n : at_rest s -> sy_threads s !! n <> Some TRunBoot.
Proof.
  intros Hrest Ht. specialize (Hrest n true). simpl in Hrest. rewrite Ht in Hrest. simpl in Hrest.
  by destruct (bootRuntime (sy_imp s)).
Qed.

(** At rest nobody is in the body of [Shutdown], so a [Shutdown] that has begun has
    closed [stopped]. *)
Lemma rest_stopped `{!ServerLaws} s r :
  accounts (imp_spec (sy_imp s)) (sy_imp s) (sy_threads s) ->
  shut_inv (control_of r) (sy_threads s) -> imp_rtPtr (sy_imp s) = Some r -> at_rest s ->
  rt_shutdownOnce r = true -> rt_stopped r = true.
Proof.
  intros Hacc HI Hr Hrest Ho. pose proof (sh_body _ _ HI Ho) as Hb. simpl in Hb.
  destruct (rt_stopped r); [done|]. exfalso.
  assert (count is_body (sy_threads s) = 0%Z); [|lia].
  apply count_zero, Forall_forall. intros t Hin. destruct (is_body t) eqn:Hbt; [|done]. exfalso.
  apply list_elem_of_lookup in Hin as [n Hn].
  destruct (always_action (imp_spec (sy_imp s)) (imp_opts (sy_imp s)) (sy_ctxDone s) t r)
    as (p & t' & r' & Hact).
  - by destruct t.
  - by apply Hacc.
  - by destruct t.
  - by destruct t.
  - by destruct t.
  - eapply (resting_action s n t r); [done..|by destruct t|exact Hact].
Qed.

Lemma rests `{!ServerLaws} s n t :
  accounts (imp_spec (sy_imp s)) (sy_imp s) (sy_threads s) -> counted (sy_imp s) (sy_threads s) ->
  Forall calm (sy_threads s) ->
  (forall r, imp_rtPtr (sy_imp s) = Some r -> shut_inv (control_of r) (sy_threads s)) ->
  at_rest s -> sy_threads s !! n = Some t -> resting (sy_imp s) (sy_ctxDone s) t.
Proof.
  intros Hacc Hc Hcalm HI Hrest Ht.
  assert (t <> TRunBoot) as Hne by (intros ->; by eapply no_boot_at_rest).
  pose proof (list_elem_of_lookup_2 _ _ _ Ht) as Hin.
  destruct (imp_rtPtr (sy_imp s)) as [r|] eqn:Hr.
  2:{ unfold counted in Hc. rewrite Hr, Forall_forall in Hc. specialize (Hc t Hin).
      destruct t; try done. specialize (Hrest n true). simpl in Hrest. rewrite Ht in Hrest.
      simpl in Hrest. by rewrite Hr in Hrest. }
  specialize (HI r eq_refl).
  pose proof (resting_action s n t r Hrest Ht Hr Hne) as Hno.
  destruct (waits t) eqn:Hw.
  2:{ destruct (decide (phase t = 0)) as [Hp|Hp]; [by destruct t|]. exfalso.
      destruct (always_action (imp_spec (sy_imp s)) (imp_opts (sy_imp s)) (sy_ctxDone s) t r)
        as (p & t' & r' & Hact); try done; [|by apply Hacc|by eapply Hno].
      pose proof (ac_threads _ _ _ Hacc) as Hst. rewrite Forall_forall in Hst. by apply Hst. }
  destruct t as [| | | | | | | | | | | | | |d p| | |g p| | | | |]; try done.
  - split.
    + destruct (sy_ctxDone s) eqn:Hcd; [|done]. exfalso. by eapply (Hno true).
    + exists r. split; [done|]. destruct (rt_shutdownOnce r) eqn:Ho; [|done]. exfalso.
      apply (Hno false (TShutReturned (rt_shutdownErr r)) r). unfold thread_action.
      rewrite andb_false_r. unfold shutdown_join, gets, bind, ret.
      by rewrite (rest_stopped s r).
  - exfalso. destruct (rt_shutdownOnce r) eqn:Ho.
    + apply (Hno true (TShutReturned (rt_shutdownErr r)) r). unfold thread_action, shutdown_join.
      unfold gets, bind, ret. by rewrite (rest_stopped s r).
    + destruct (sh_before _ _ HI Ho) as (_ & Hj & _).
      pose proof (count_elem is_joining _ _ Hin eq_refl). lia.
  - exists r. split; [done|]. by apply (resting_user s n _ r Hrest Ht Hr).
  - rewrite Forall_forall in Hcalm. specialize (Hcalm _ Hin). exists r. split; [done|]. split.
    + by apply (resting_user s n _ r Hrest Ht Hr).
    + by intros v ->.
Qed.

Lemma reach_calm i ls s : sys_run ls (initial i) = Some s -> Forall calm (sy_threads s).
Proof. intros Hrun. by eapply (inv_run _ _ ls (initial i) s calm_inv). Qed.

Lemma count_none f g ts :
  (forall t, f t = false -> g t = false) -> Forall (fun t => f t = false) ts -> count g ts = 0%Z.
Proof. intros Hfg Hts. apply count_zero. by eapply Forall_impl. Qed.

(** ** Properties *)


End Rest.

(** ** Witnesses *)

Section RestWitnesses.
Import Demo.

(** The imp has handled a subject message and a stream message and thought about both;
    [Run] waits. *)
Definition settled_run : list label :=
  acknowledged ++ replicate 4 (step 3) ++ thought ++ replicate 3 (step 4).


End RestWitnesses.
