(* ===== verification/Echo.v ===== *)
(** * The example imp (examples/echo/main.go)

    The worked example as an [ImpSpec], its [main], and what the library makes of
    it: over every schedule of calls, messages and goroutines the imp publishes
    exactly the messages it was handed. *)

From stdpp Require Import gmultiset.
From S2P Require Import Prelude Values Substrate Model Validate Lifecycle Metrics Registry.
From S2P Require Import Runtime Request Dispatch GoTime Consumer Channels Callbacks Imp.
From S2P Require Import System Ledger Messages Rest.

Module Echo.

(** ** The code *)

Section Code.
Context `{NatsEnv}.

(** The panic of the assertion [reason.(string)] on a value of another type. *)
Definition not_a_string : any := AString "interface conversion: interface {} is not string".

Definition Decode : Decoder := fun msg => Done (AString (m_Data msg), None).
Definition ExtractEntity : EntityExtractor := fun _ => Done ("singleton", None).
Definition Awareness : AwarenessFn := fun decoded entity => Ret (Think decoded entity).
Definition Thinking : ThinkingFn := fun reason _ =>
  match reason with
  | AString payload => call (InL (TC_Publish "actions.out" payload))
  | _ => Panic not_a_string
  end.

Definition inbound : ChannelSpec :=
  mkChannelSpec "inbound" (Some (ASubjectSource (mkSubjectSource "messages.in")))
    (Some Decode) (Some ExtractEntity).
Definition spec : ImpSpec :=
  mkImpSpec "echo" "0.1.0" [inbound] (Some Awareness) (Some Thinking) [] None.

(** How [main] ends: [log.Fatalf] exits at once and runs no deferred call. *)
Inductive ending :=
| Fatal (msg : string) (err : goerror)
| Returned
| Crash (v : any)
| Hangs.

(** [main], with the answer of [nats.Connect] and the text handler: how it ends,
    whether the deferred [Drain] of the connection ran, and the imp. *)
Definition main (connect : error) (textHandler : slogHandler) (elapsed : bool) :
    ending * bool * option Imp :=
  match connect with
  | Some err => (Fatal "nats connect" err, false, None)
  | None =>
  match NewImp spec true [WithLogger (Some textHandler)] with
  | (i, Some err) => (Fatal "build imp" err, false, i)
  | (None, None) => (Crash nil_dereference, true, None)
  | (Some i, None) =>
  match Run elapsed i with
  | (Done (Some err), i) => (Fatal "run imp" err, false, Some i)
  | (Done None, i) => (Returned, true, Some i)
  | (Panicked v, i) => (Crash v, true, Some i)
  | (Blocked, i) => (Hangs, false, Some i)
  end end end.

(** The imp [main] builds. *)
Definition imp (textHandler : slogHandler) : Imp :=
  mkImp spec (WithLogger (Some textHandler) defaultRuntimeOptions) false None.

Lemma NewImp_echo textHandler :
  NewImp spec true [WithLogger (Some textHandler)] = (Some (imp textHandler), None).
Proof. reflexivity. Qed.

(** ** Specification *)

(** What reached the imp, and what it has published. *)
Definition arrived (l : label) : list bytes :=
  match l with
  | LMessage _ msg => [m_Data msg]
  | LStreamMessage _ msg => [m_Data (jm_msg msg)]
  | _ => []
  end.

Definition publication (e : event) : list (string * bytes) :=
  match e with CPublish subject payload => [(subject, payload)] | _ => [] end.
Definition published (s : system) : list (string * bytes) :=
  match imp_rtPtr (sy_imp s) with Some r => rt_events r ≫= publication | None => [] end.
Definition echo_of (payload : bytes) : string * bytes := ("actions.out", payload).

(** ** The ledger of publications *)

Definition sent : Type := list (string * bytes).
#[local] Instance sent_equiv : Equiv sent := Permutation.
#[local] Instance sent_amounts : Amounts sent.
Proof.
  refine {| join := app : sent -> sent -> sent; nothing := [] : sent |}; unfold equiv, sent_equiv.
  - intros ???. by rewrite app_assoc.
  - by intros ?.
Defined.

(** The accesses the echo makes, with what they publish. *)
Definition publishes (X : Type) (e : access X) (c c' : sent) : Prop :=
  match e with
  | Count _ _ | Log _ _ _ | Ack _ | Nak _ => c' = c
  | ByThinking (InL (TC_Publish subject payload)) => c = (subject, payload) :: c'
  | _ => False
  end.

Lemma silent_published (P : event -> Prop) r r' :
  (forall e, P e -> publication e = []) -> events_grow P r r' ->
  rt_events r' ≫= publication = rt_events r ≫= publication.
Proof.
  intros HP (evs & -> & Hs). rewrite bind_app.
  assert (evs ≫= publication = []) as ->; [|by rewrite app_nil_r].
  induction Hs as [|e evs He _ IH]; [done|]. simpl. by rewrite HP.
Qed.

Lemma publishes_returns X (e : access X) c c' r :
  publishes X e c c' -> exists x r', access_handler X e r = (Done x, r') /\
    (rt_events r' ≫= publication) ++ c' ≡ₚ (rt_events r ≫= publication) ++ c.
Proof.
  assert (forall ev (r1 : runtime), publication ev = [] ->
    rt_events r1 = rt_events r ++ [ev] ->
    rt_events r1 ≫= publication = rt_events r ≫= publication) as Hquiet.
  { intros ev r1 He ->. rewrite bind_app. simpl. by rewrite He, !app_nil_r. }
  destruct e as [k| |id|id|Y e|Y e|Y [e|e]]; simpl; try done.
  1-2: intros ->; by eexists _, _.
  1: intros ->; eexists _, _; (split; [done|]); by rewrite (Hquiet (CAck id)).
  1: intros ->; eexists _, _; (split; [done|]); by rewrite (Hquiet (CNak id)).
  destruct e; try done. intros ->. eexists _, _. split; [reflexivity|]. simpl.
  rewrite bind_app, <- app_assoc. done.
Qed.

(** The callback of a message owes its echo, and hands it to the goroutine. *)
Definition payload_of (d : delivery) : bytes :=
  match d with OnSubject _ msg => m_Data msg | OnStream _ msg => m_Data (jm_msg msg) end.
Definition echo_goroutine (payload : bytes) : goroutine :=
  mkGoroutine (AString payload) "singleton".

Lemma deliver_echoes d :
  ch_spec (channel_of d) ∈ is_Channels spec ->
  within publishes False
    (fun launch c => launch = Some (echo_goroutine (payload_of d)) /\ c = [echo_of (payload_of d)])
    (fun _ _ => False) [echo_of (payload_of d)] (deliver_steps spec d).
Proof.
  intros Hd%list_elem_of_singleton.
  destruct d as [[sp ? ? ? ? ? ?] msg|[sp ? ? ? ? ? ?] [id msg]]; simpl in Hd; subst sp.
  - by eapply (within_access (C:=sent)).
  - eapply (within_access (C:=sent)); [done|].
    intros [err|] _; repeat (eapply (within_access (C:=sent)); [done|intros _ _]); done.
Qed.

Definition owed_by (g : goroutine) : sent :=
  match g_reason g with AString payload => [echo_of payload] | _ => [] end.

Lemma thinking_echoes g :
  within publishes False (fun _ c => c = []) (fun _ _ => False) (owed_by g)
    (thinking_steps spec g).
Proof.
  destruct g as [reason entity]. apply within_catch, within_bind. simpl.
  assert (forall k Hne l msg attrs, within publishes False (fun _ c => c = []) (fun _ _ => False)
    ([] : sent) (prog_bind (call (Count k Hne)) (fun _ => call (Log l msg attrs)))) as Hend
    by (intros; by do 2 (eexists; split; [done|intros ? _])).
  destruct reason as [|payload| | | | | |]; try apply Hend.
  eexists. split; [done|]. intros [[err|]|v|] Hx; simpl; [apply Hend|done|apply Hend|].
  destruct Hx as (r & r' & Hrun). simpl in Hrun. unfold attempt in Hrun.
  by destruct (thinkingCtx_Publish _ _ r) as [[]].
Qed.

#[local] Instance echo_ledger : Ledger spec sent.
Proof.
  refine {|
    recorded r := rt_events r ≫= publication : sent;
    spend := publishes;
    fails := False;
    fits w c := True;
    due_subject msg := [echo_of (m_Data msg)];
    due_stream msg := [echo_of (m_Data (jm_msg msg))];
    owed := owed_by |}; try done.
  - intros X e c c' r x r' Hs Hrun. destruct (publishes_returns X e c c' r Hs) as (y & r1 & Hr & Hp).
    rewrite Hrun in Hr. by injection Hr as _ <-.
  - intros g gs r. simpl. by rewrite bind_app, app_nil_r.
  - intros r r' _ He. by rewrite (silent_published bookkeeping _ _ ltac:(by intros []) He).
  - intros d Hd. destruct d; (eapply within_mono; [| |exact (deliver_echoes _ Hd)]; [|done]);
      by intros ? ? [-> ->].
  - intros g. eapply within_mono; [| |apply thinking_echoes]; [by intros _ c ->|done].
Defined.

(** ** Nothing crashes *)

Lemma control_no_panic o c p t r v r' :
  runs_user_code t = false -> thread_booked (is_Channels spec) t ->
  thread_action spec o c p t r <> (Panicked v, r').
Proof.
  intros Hu Ht. destruct (touches_channels t) eqn:Htc.
  - destruct t as [| |[|ch rest]| | | | | | | | | | | | | | | | | | | |]; try done; unfold thread_action.
    + apply Forall_cons in Ht as [->%list_elem_of_singleton _].
      unfold start, bindSubjectChannel, bind, ask, log, modify, ret; simpl.
      by destruct (env_Subscribe _ _).
    + destruct (unwind_step_run u r) as (n & r1 & Hrun & _). by rewrite (bind_Done _ _ _ _ _ Hrun).
    + destruct (unwind_step_run u r) as (n & r1 & Hrun & _). by rewrite (bind_Done _ _ _ _ _ Hrun).
  - destruct t; try done;
      unfold thread_action, run_claim, run_failed, run_ready, shutdown_join, shutdown_begin,
        thinkingCancel, waitDrain, set_shutdownErr, shutdown_stopped, close_stopped,
        set_lifecycle, gets, modify, log, bind, ret, block; simpl; repeat case_match; by simplify_eq/=.
Qed.

(** The threads there can be before the first [Run] has booted the runtime. *)
Definition before_boot (t : thread) : bool :=
  match t with TRunBoot | TShutBegin | TReturned _ => true | _ => false end.

Record healthy (i : Imp) (ts : list thread) : Prop := {
  he_opts : options_error (imp_opts i) = None;
  he_booted : imp_rtOnce i = match imp_rtPtr i with Some _ => true | None => false end;
  he_early : imp_rtPtr i = None -> Forall (fun t => before_boot t = true) ts }.

Lemma boot_echo i err i' :
  options_error (imp_opts i) = None ->
  imp_rtOnce i = match imp_rtPtr i with Some _ => true | None => false end ->
  bootRuntime i = (err, i') ->
  imp_rtPtr i' = Some (match imp_rtPtr i with Some r => r | None => fresh_runtime i end) /\
  imp_rtOnce i' = true /\ imp_opts i' = imp_opts i.
Proof.
  intros Ho Hb. destruct (imp_rtPtr i) as [r|] eqn:Hp.
  - unfold bootRuntime. rewrite Hb. by intros [= <- <-].
  - rewrite bootRuntime_first, Ho by done. by intros [= <- <-].
Qed.

Lemma healthy_inv : inductive_inv healthy (fun _ => True).
Proof.
  split.
  - intros i ts t [Ho Hb He] Ha _. split; [done..|]. intros Hn. apply Forall_snoc; [by apply He|].
    destruct t; try done. destruct Ha as (_ & r & ch & Hr & _). congruence.
  - intros i ts1 t ts2 c p t' sp i' [Ho Hb He] Hstep. apply thread_step_cases in Hstep as
      [(-> & -> & err & Hboot & ->)|[(-> & Hp & -> & -> & ->)|(_ & r & r' & Hp & Hact & -> & ->)]].
    + apply boot_echo in Hboot as (Hp' & Ho' & Hopt); [|done|done].
      split; [congruence|by rewrite Hp'|by rewrite Hp'].
    + rewrite app_nil_r. split; [done..|]. intros Hn. by eapply Forall_middle; [apply He|].
    + split; simpl; [done|by rewrite Hb, Hp|done].
Qed.

(** What is known of a state that a schedule of the echo imp reaches. *)
Record sound (s : system) (due : sent) : Prop := {
  so_healthy : healthy (sy_imp s) (sy_threads s);
  so_booked : booked spec (sy_imp s) (sy_threads s);
  so_balances : balances (sy_imp s) (sy_threads s) due }.

Lemma reach_sound textHandler ls s :
  sys_run ls (initial (imp textHandler)) = Some s -> sound s (arrived_due ls).
Proof.
  intros Hrun. split.
  - eapply inv_run; [apply healthy_inv|done|done| |exact Hrun]. by split.
  - eapply inv_run; [apply booked_inv|done|done| |exact Hrun]. by split.
  - by apply (ledger_balances (imp textHandler)).
Qed.

Lemma arrived_due_echo ls : arrived_due ls = echo_of <$> (ls ≫= arrived).
Proof.
  induction ls as [|l ls IH]; [done|]. rewrite bind_cons, fmap_app, <- IH. by destruct l.
Qed.

Lemma thread_owed s due n t :
  sound s due -> sy_threads s !! n = Some t -> exists c, thread_owes c t.
Proof.
  intros [_ _ (cs & Hcs & _)] Hn. rewrite Forall2_lookup in Hcs. specialize (Hcs n).
  rewrite Hn in Hcs. inversion Hcs as [c ? Hc|]; subst. by exists c.
Qed.

Lemma no_crash s due n t c p :
  sound s due -> sy_threads s !! n = Some t -> thread_step c p t (sy_imp s) <> Crashed.
Proof.
  intros Hs Hn. destruct (thread_owed s due n t Hs Hn) as [a Ha]. destruct Hs as [[Ho Hb He] Hbk _].
  assert (t ∈ sy_threads s) as Hin by (by eapply list_elem_of_lookup_2).
  assert (thread_booked (is_Channels spec) t) as Ht
    by (pose proof (bk_threads _ _ _ Hbk) as Hall; rewrite Forall_forall in Hall; by apply Hall).
  destruct (imp_rtPtr (sy_imp s)) as [r|] eqn:Hp.
  2:{ specialize (He eq_refl). rewrite Forall_forall in He. specialize (He t Hin).
      unfold thread_step. rewrite Hp. destruct t; try done. by destruct (bootRuntime _). }
  assert (forall v r', thread_action (imp_spec (sy_imp s)) (imp_opts (sy_imp s)) c p t r <>
    (Panicked v, r')) as Hnp.
  { rewrite (bk_spec _ _ _ Hbk). destruct (runs_user_code t) eqn:Hu; [|intros; by apply control_no_panic].
    assert (forall X (e : access X) (k : X -> thread) v r',
      bind (access_handler X e) (fun x => ret (k x)) r <> (Panicked v, r')) as Hacc.
    { intros X e k v r'. unfold bind, ret. pose proof (access_no_panic X e r) as Hnp.
      destruct (access_handler X e r) as [[]]; [done| |done]. by edestruct Hnp. }
    intros v r'. destruct t as [| | | | | | | | | | | | | |d [[g|]| | |]|g|g|g [[]| | |]|g| | | |];
      try done; try apply Hacc; by destruct Ha. }
  unfold thread_step. rewrite Hp.
  destruct t; try (destruct (bootRuntime _); done);
    destruct (thread_action _ _ _ _ _ _) as [[]] eqn:Hact; try done; by edestruct Hnp.
Qed.

(** ** Nothing is held up *)

(** A program that owes something to the ledger goes on. *)
Lemma echo_goes_on {A} (Q : A -> sent -> Prop) c (p : prog access A) r :
  within publishes False Q (fun _ _ => False) c p -> ~ held_up r p.
Proof.
  destruct p as [a|v| |X e k]; simpl; [by intros _ []|done|done|].
  intros (c' & Hs & _) (_ & r' & Hb).
  destruct (publishes_returns X e c c' r Hs) as (x & r1 & Hrun & _). congruence.
Qed.

(** At rest nothing is under way. *)
Lemma nothing_under_way s due :
  sound s due -> at_rest s -> Forall (fun t => runs_user_code t = false) (sy_threads s).
Proof.
  intros Hs Hrest. apply Forall_forall. intros t Hin. destruct (runs_user_code t) eqn:Hu; [|done].
  exfalso. apply list_elem_of_lookup in Hin as [n Hn].
  destruct (thread_owed s due n t Hs Hn) as [c Hc].
  destruct (imp_rtPtr (sy_imp s)) as [r|] eqn:Hr.
  2:{ pose proof (he_early _ _ (so_healthy _ _ Hs) Hr) as He. rewrite Forall_lookup in He.
      specialize (He n t Hn). by destruct t. }
  assert (t <> TRunBoot) as Hne by by destruct t.
  pose proof (resting_user s n t r Hrest Hn Hr Hu) as Hheld.
  destruct t; try done; destruct Hc as [_ Hc]; by eapply (echo_goes_on _ _ _ r Hc).
Qed.

Lemma thread_labels_silent ls : Forall thread_label ls -> ls ≫= arrived = [].
Proof. induction 1 as [|l ls (n & pick & ->) _ IH]; [done|]. exact IH. Qed.

Lemma settled_published s due :
  sound s due -> Forall (fun t => runs_user_code t = false) (sy_threads s) ->
  (published s : sent) ≡ due.
Proof.
  intros [_ _ (cs & Hcs & Hsum)] Hts. rewrite <- Hsum.
  assert (total cs ≡ nothing) as ->.
  { clear Hsum. induction Hcs as [|c t cs ts Hc _ IH]; [done|]. apply Forall_cons in Hts as [Ht Hts].
    simpl. rewrite (IH Hts). assert (c ≡ nothing) as -> by by destruct t. done. }
  rewrite (comm join), (left_id nothing join). unfold published, recorded_of.
  by destruct (imp_rtPtr (sy_imp s)).
Qed.

(** ** Properties *)


Lemma startup_echo textHandler :
  exists r, match env_Subscribe [] "messages.in" with
  | Some err =>
      run_startup spec (fresh_runtime (imp textHandler)) =
        (Done (inl (Some (ErrSubscriptionFailed "messages.in" err))), r)
  | None =>
      run_startup spec (fresh_runtime (imp textHandler)) = (Done (inr tt), r) /\
      balanced ∅ r /\ rt_shutdownOnce r = false /\ rt_thinkingWG r = 0%Z
  end.
Proof.
  assert (run_startup spec (fresh_runtime (imp textHandler)) =
    bind (start [inbound]) (fun err => match err with
      | Some err => run_failed err ;; unwind ;; ret (inl (Some err))
      | None => run_ready spec ;; ret (inr tt)
      end) (set_state (mkMachine StateStarting) (fresh_runtime (imp textHandler)))) as -> by done.
  unfold start, bindSubjectChannel. simpl.
  destruct (env_Subscribe [] "messages.in") as [err|] eqn:Hs.
  - eexists. unfold bind, ask, ret; simpl. by rewrite Hs.
  - eexists. split; [unfold bind, ask, modify, log, ret; simpl; rewrite Hs; reflexivity|].
    cbv beta iota. split_and!; [|reflexivity|reflexivity]. split.
    + unfold live, owned; simpl. unfold live_step; simpl. rewrite Hs. simpl. multiset_solver.
    + simpl. by constructor.
Qed.

(** How [main] ends when no message arrives: the error it prints is that of the
    first call that failed, building the imp never is one, and the connection is
    drained exactly when [Run] returns nil. *)
Lemma main_ends connect textHandler elapsed :
  fst (main connect textHandler elapsed) =
    match connect with
    | Some err => (Fatal "nats connect" err, false)
    | None =>
    match env_Subscribe [] "messages.in" with
    | Some err => (Fatal "run imp" (ErrSubscriptionFailed "messages.in" err), false)
    | None => if elapsed then (Fatal "run imp" drain_error, false) else (Returned, true)
    end end.
Proof.
  destruct connect as [err|]; [done|]. unfold main. rewrite NewImp_echo.
  unfold Run. rewrite bootRuntime_first by done. unfold on_runtime; simpl imp_rtPtr.
  cbv iota beta. simpl imp_spec. destruct (startup_echo textHandler) as [r Hr].
  destruct (env_Subscribe [] "messages.in") as [err|]; [by rewrite Hr|].
  destruct Hr as (-> & Hb & Ho & Hw). unfold Shutdown, on_runtime; simpl imp_rtPtr.
  cbv iota beta.
  destruct (shutdown_body_first
    (imp_opts (set_runtime r (mkImp spec (imp_opts (imp textHandler)) true
       (Some (fresh_runtime (imp textHandler)))))) elapsed ∅ r Ho Hb all_lost_empty
    ltac:(done)) as (r2 & lost & Hrun & _).
  simpl imp_opts in *. rewrite Hrun. by destruct elapsed.
Qed.

End Code.

(** ** Witnesses *)

Section Witnesses.
Import Demo.

Definition demo_text : slogHandler := UserHandler 1.

(** [Run] binds the channel, two messages arrive; one goes all the way, the other has
    been judged. *)
Definition demo_schedule : list label :=
  LCallRun :: replicate 5 (LThread 0 false) ++
  LMessage 0 (mkMessage "messages.in" "" ∅ "hello") :: replicate 4 (LThread 1 false) ++
  [LMessage 0 (mkMessage "messages.in" "" ∅ "world"); LThread 2 false; LThread 3 false].

Definition demo_reached : system :=
  default (initial (imp demo_text)) (sys_run demo_schedule (initial (imp demo_text))).

(** The steps that are left. *)
Definition demo_left : list label :=
  replicate 2 (LThread 2 false) ++ replicate 3 (LThread 3 false) ++ replicate 3 (LThread 4 false).
Definition demo_rested : system := default demo_reached (sys_run demo_left demo_reached).


End Witnesses.
End Echo.
