(* ===== verification/Schedule.v ===== *)
(** * Scheduled ticks (schedule/)

    [Register] and [Deregister] build what they publish from their arguments;
    [Channel] is a stream channel whose decoder reads headers only. *)

From S2P Require Import Prelude Values Substrate Model Validate Lifecycle Metrics Registry.
From S2P Require Import Runtime Request Dispatch GoTime Consumer Channels.

Module Schedule.

(** ** Header names (tick.go) *)

Definition headerSchedule : string := "Nats-Schedule".
Definition headerScheduleTarget : string := "Nats-Schedule-Target".
Definition headerScheduleTTL : string := "Nats-Schedule-TTL".
Definition headerScheduleTimeZone : string := "Nats-Schedule-Time-Zone".
Definition headerScheduleRollup : string := "Nats-Schedule-Rollup".
Definition headerScheduleSource : string := "Nats-Schedule-Source".
Definition headerScheduler : string := "Nats-Scheduler".
Definition headerScheduleNext : string := "Nats-Schedule-Next".

Section Package.
Context `{NatsTypes}.

Definition decodeTick : Decoder := fun m =>
  Done (ATick (mkTick (m_Subject m) (header_Get (m_Headers m) headerScheduler)
                (header_Get (m_Headers m) headerScheduleNext)), None).

Definition extractTarget (target : string) : EntityExtractor := fun _ => Done (target, None).

Definition defaultChannelName (target : string) : string := "schedule:" +:+ target.

(** ** The channel (channel.go) *)

Record channelConfig := mkChannelConfig {
  cg_name : string;
  cg_durable : string;
  cg_consumer : ConsumerConfig;
  cg_decode : option Decoder;
  cg_extract : option EntityExtractor }.

Definition ChannelOption : Type := channelConfig -> channelConfig.

(** The two assignments to the consumer configuration. *)
Definition start_seq (seq : Z) (c : ConsumerConfig) : ConsumerConfig :=
  {| cc_AckPolicy := cc_AckPolicy c; cc_AckWait := cc_AckWait c;
     cc_MaxDeliver := cc_MaxDeliver c; cc_DeliverPolicy := DeliverByStartSequencePolicy;
     cc_ReplayPolicy := cc_ReplayPolicy c; cc_OptStartSeq := seq;
     cc_OptStartTime := cc_OptStartTime c; cc_MaxAckPending := cc_MaxAckPending c;
     cc_Description := cc_Description c |}.
Definition start_time (t : Z) (c : ConsumerConfig) : ConsumerConfig :=
  {| cc_AckPolicy := cc_AckPolicy c; cc_AckWait := cc_AckWait c;
     cc_MaxDeliver := cc_MaxDeliver c; cc_DeliverPolicy := DeliverByStartTimePolicy;
     cc_ReplayPolicy := cc_ReplayPolicy c; cc_OptStartSeq := cc_OptStartSeq c;
     cc_OptStartTime := Some t; cc_MaxAckPending := cc_MaxAckPending c;
     cc_Description := cc_Description c |}.

Definition WithDurable (name : string) : ChannelOption := fun c =>
  mkChannelConfig (cg_name c) name (cg_consumer c) (cg_decode c) (cg_extract c).
Definition WithStartSeq (seq : Z) : ChannelOption := fun c =>
  mkChannelConfig (cg_name c) (cg_durable c) (start_seq seq (cg_consumer c)) (cg_decode c)
    (cg_extract c).
Definition WithStartTime (t : Z) : ChannelOption := fun c =>
  mkChannelConfig (cg_name c) (cg_durable c) (start_time t (cg_consumer c)) (cg_decode c)
    (cg_extract c).
Definition WithDecoder (d : option Decoder) : ChannelOption := fun c =>
  mkChannelConfig (cg_name c) (cg_durable c) (cg_consumer c) d (cg_extract c).
Definition WithEntityExtractor (e : option EntityExtractor) : ChannelOption := fun c =>
  mkChannelConfig (cg_name c) (cg_durable c) (cg_consumer c) (cg_decode c) e.
Definition WithName (name : string) : ChannelOption := fun c =>
  mkChannelConfig name (cg_durable c) (cg_consumer c) (cg_decode c) (cg_extract c).

Definition Channel (stream target : string) (opts : list ChannelOption) : ChannelSpec :=
  let cfg := apply_options opts
    (mkChannelConfig (defaultChannelName target) ""
       (mkConsumerConfig 0 0 0 DeliverAllPolicy 0 0 None 0 "")
       (Some decodeTick) (Some (extractTarget target))) in
  mkChannelSpec (cg_name cfg)
    (Some (AStreamSource (mkStreamSource stream target (cg_durable cfg) (cg_consumer cfg))))
    (cg_decode cfg) (cg_extract cfg).

(** ** Registration (register.go) *)

Record registerConfig := mkRegisterConfig {
  rc_ttl : Duration;
  rc_ttlSet : bool;
  rc_timeZone : string;
  rc_body : bytes;
  rc_source : string;
  rc_rollup : bool }.

Definition RegisterOption : Type := registerConfig -> registerConfig.

Definition WithTickTTL (ttl : Duration) : RegisterOption := fun c =>
  mkRegisterConfig ttl true (rc_timeZone c) (rc_body c) (rc_source c) (rc_rollup c).
Definition WithTimeZone (tz : string) : RegisterOption := fun c =>
  mkRegisterConfig (rc_ttl c) (rc_ttlSet c) tz (rc_body c) (rc_source c) (rc_rollup c).
Definition WithBody (body : bytes) : RegisterOption := fun c =>
  mkRegisterConfig (rc_ttl c) (rc_ttlSet c) (rc_timeZone c) body (rc_source c) (rc_rollup c).
Definition WithSource (subject : string) : RegisterOption := fun c =>
  mkRegisterConfig (rc_ttl c) (rc_ttlSet c) (rc_timeZone c) (rc_body c) subject (rc_rollup c).
Definition WithRollup : RegisterOption := fun c =>
  mkRegisterConfig (rc_ttl c) (rc_ttlSet c) (rc_timeZone c) (rc_body c) (rc_source c) true.

(** What the package asks of JetStream: the calls it makes, in order. *)
Inductive js_call :=
| JsPublishMsg (subject : string) (header : Header) (data : bytes)
| JsStream (stream : string)
| JsPurge (stream subject : string).

(** The server's answer to a call. *)
Context (answer : js_call -> error).

Definition schedule_header (pattern target : string) (cfg : registerConfig) : Header :=
  let h := header_Set header_nil headerSchedule pattern in
  let h := header_Set h headerScheduleTarget target in
  let h := if (0 <? rc_ttl cfg)%Z
           then header_Set h headerScheduleTTL (Duration_String (rc_ttl cfg)) else h in
  let h := if decide (rc_timeZone cfg = "") then h
           else header_Set h headerScheduleTimeZone (rc_timeZone cfg) in
  let h := if decide (rc_source cfg = "") then h
           else header_Set h headerScheduleSource (rc_source cfg) in
  if rc_rollup cfg then header_Set h headerScheduleRollup "sub" else h.

(** The calls made, and the error. *)
Definition Register (scheduleSubject pattern target : string) (opts : list RegisterOption) :
    list js_call * error :=
  if decide (scheduleSubject = "") then
    ([], Some (ErrorsNew "schedule: schedule subject required"))
  else if decide (pattern = "") then ([], Some (ErrorsNew "schedule: pattern required"))
  else if decide (target = "") then
    ([], Some (ErrorsNew "schedule: target subject required"))
  else
    let cfg := apply_options opts (mkRegisterConfig 0 false "" "" "" false) in
    if rc_ttlSet cfg && (rc_ttl cfg <=? 0)%Z then
      ([], Some (ErrorsNew "schedule: tick TTL must be > 0"))
    else
      let msg := JsPublishMsg scheduleSubject (schedule_header pattern target cfg)
                   (rc_body cfg) in
      ([msg], match answer msg with
              | Some err => Some (Errorf ("schedule: register " +:+ scheduleSubject +:+ ": ") err)
              | None => None
              end).

Definition Deregister (stream scheduleSubject : string) : list js_call * error :=
  if decide (stream = "") then
    ([], Some (ErrorsNew "schedule: stream and schedule subject required"))
  else if decide (scheduleSubject = "") then
    ([], Some (ErrorsNew "schedule: stream and schedule subject required"))
  else
    match answer (JsStream stream) with
    | Some err =>
        ([JsStream stream],
         Some (Errorf ("schedule: deregister " +:+ scheduleSubject +:+ ": ") err))
    | None =>
        ([JsStream stream; JsPurge stream scheduleSubject],
         match answer (JsPurge stream scheduleSubject) with
         | Some err => Some (Errorf ("schedule: deregister " +:+ scheduleSubject +:+ ": ") err)
         | None => None
         end)
    end.

(** ** Specification *)

(** What each header of a registration holds. *)
Definition expected_header (pattern target : string) (cfg : registerConfig) (k : string) : string :=
  if decide (k = headerSchedule) then pattern
  else if decide (k = headerScheduleTarget) then target
  else if decide (k = headerScheduleTTL) then
    (if (0 <? rc_ttl cfg)%Z then Duration_String (rc_ttl cfg) else "")
  else if decide (k = headerScheduleTimeZone) then rc_timeZone cfg
  else if decide (k = headerScheduleSource) then rc_source cfg
  else if decide (k = headerScheduleRollup) then (if rc_rollup cfg then "sub" else "")
  else "".

Definition register_ok (scheduleSubject pattern target : string) (cfg : registerConfig) : Prop :=
  scheduleSubject <> "" /\ pattern <> "" /\ target <> "" /\
  (rc_ttlSet cfg = true -> (0 < rc_ttl cfg)%Z).

Lemma header_Get_Set_dec `{!NatsLaws} h k k' v :
  header_Get (header_Set h k v) k' = if decide (k' = k) then v else header_Get h k'.
Proof.
  case_decide as Hk; [subst; apply header_Get_Set|]. apply header_Get_Set_ne. congruence.
Qed.

Lemma schedule_header_spec `{!NatsLaws} pattern target cfg k :
  header_Get (schedule_header pattern target cfg) k = expected_header pattern target cfg k.
Proof.
  unfold schedule_header, expected_header.
  destruct (rc_rollup cfg), (Z.ltb_spec 0 (rc_ttl cfg)),
    (decide (rc_timeZone cfg = "")) as [Htz|], (decide (rc_source cfg = "")) as [Hs|];
    rewrite ?header_Get_Set_dec, ?header_Get_nil; repeat case_decide; subst; done || congruence.
Qed.

(** The options that place a channel, as data. *)
Inductive placement :=
| PDurable (name : string)
| PStartSeq (seq : Z)
| PStartTime (t : Z)
| PName (name : string).

Definition option_of (p : placement) : ChannelOption :=
  match p with
  | PDurable name => WithDurable name
  | PStartSeq seq => WithStartSeq seq
  | PStartTime t => WithStartTime t
  | PName name => WithName name
  end.

(** What the last placement of a kind says. *)
Definition last_of {A} (f : placement -> option A) (d : A) (ps : list placement) : A :=
  default d (last (omap f ps)).

Definition p_durable p := match p with PDurable n => Some n | _ => None end.
Definition p_name p := match p with PName n => Some n | _ => None end.
Definition p_seq p := match p with PStartSeq n => Some n | _ => None end.
Definition p_time p := match p with PStartTime t => Some (Some t) | _ => None end.
Definition p_policy p :=
  match p with
  | PStartSeq _ => Some DeliverByStartSequencePolicy
  | PStartTime _ => Some DeliverByStartTimePolicy
  | _ => None
  end.

Lemma last_of_snoc {A} (f : placement -> option A) d ps p :
  last_of f d (ps ++ [p]) = default (last_of f d ps) (f p).
Proof.
  unfold last_of. rewrite omap_app. cbn. destruct (f p) as [a|]; simpl.
  - by rewrite last_snoc.
  - by rewrite app_nil_r.
Qed.

(** The configuration that placements leave. *)
Lemma placed ps name dec ext :
  apply_options (option_of <$> ps)
    (mkChannelConfig name "" (mkConsumerConfig 0 0 0 DeliverAllPolicy 0 0 None 0 "") dec ext) =
  mkChannelConfig (last_of p_name name ps) (last_of p_durable "" ps)
    (mkConsumerConfig 0 0 0 (last_of p_policy DeliverAllPolicy ps) 0 (last_of p_seq 0%Z ps)
       (last_of p_time None ps) 0 "") dec ext.
Proof.
  induction ps as [|p ps IH] using rev_ind; [done|].
  rewrite fmap_app, (apply_options_app (C := channelConfig)), IH, !last_of_snoc.
  by destruct p.
Qed.

(** ** Properties *)

(** C36: [Register] sends exactly one message, or none. With the three arguments
    given and no non-positive TTL it publishes one message on the schedule subject,
    with the configured body and exactly the configured headers — every header of
    the package has the value its option says, absent options leave no header, and
    no other header is set — and it fails exactly when the publish does, with an
    error that wraps the server's. Otherwise it sends nothing and returns an error. *)
Theorem Register_spec `{!NatsLaws} subject pattern target opts :
  let cfg := apply_options opts (mkRegisterConfig 0 false "" "" "" false) in
  let res := Register subject pattern target opts in
  (register_ok subject pattern target cfg /\
   exists h, fst res = [JsPublishMsg subject h (rc_body cfg)] /\
     (forall k, header_Get h k = expected_header pattern target cfg k) /\
     (forall s, error_Is (snd res) s = error_Is (answer (JsPublishMsg subject h (rc_body cfg))) s) /\
     (snd res = None <-> answer (JsPublishMsg subject h (rc_body cfg)) = None)) \/
  (~ register_ok subject pattern target cfg /\ fst res = [] /\ snd res <> None).
Proof.
  intros cfg res. unfold res, Register, register_ok. fold cfg.
  case_decide; [right; naive_solver|]. case_decide; [right; naive_solver|].
  case_decide; [right; naive_solver|].
  destruct (rc_ttlSet cfg) eqn:Hset; simpl;
    [destruct (Z.leb_spec (rc_ttl cfg) 0);
      [right; split_and!; [intros (_ & _ & _ & Hp); specialize (Hp eq_refl); lia|done|done]|]|];
    (left; split; [split_and!; done || (intros; lia) || auto|];
     eexists; split; [done|]; split; [intros k; apply schedule_header_spec|];
     simpl; by destruct (answer _)).
Qed.

(** C35: a schedule channel is an ordinary stream channel that accepts every tick.
    Built with any placements — the last of each kind wins, everything is delivered
    by default — on non-empty names, it passes the harness's validation, filters on
    the target verbatim, and hands every message whatsoever to awareness as a
    [Tick] of its headers with the target as entity: neither decoding nor
    extraction can reject one. *)
Theorem Channel_spec `{Henv : !NatsEnv} stream target ps :
  let name := last_of p_name (defaultChannelName target) ps in
  let c := Channel stream target (option_of <$> ps) in
  stream <> "" -> target <> "" -> name <> "" ->
  channel_ok c /\ cs_Name c = name /\
  cs_Source c = Some (AStreamSource (mkStreamSource stream target (last_of p_durable "" ps)
    (mkConsumerConfig 0 0 0 (last_of p_policy DeliverAllPolicy ps) 0 (last_of p_seq 0%Z ps)
       (last_of p_time None ps) 0 ""))) /\
  forall spec ch m r, ch_spec ch = c ->
    front spec ch m r =
      bind (safeAwareness spec (ATick (mkTick (m_Subject m)
              (header_Get (m_Headers m) headerScheduler)
              (header_Get (m_Headers m) headerScheduleNext))) target)
        (fun va => ret (if snd va then RejectPanic else Accept target (fst va))) r.
Proof.
  intros name c Hs Ht Hn. unfold c, Channel. rewrite placed. simpl.
  split_and!; try done.
  - split_and!; [done|by eexists|by eexists|]. eexists. by split.
  - intros spec ch m r Hch. unfold front, call_Decode, call_ExtractEntity. rewrite Hch. simpl.
    unfold bind, lift, ret. simpl. rewrite bool_decide_eq_false_2 by done. simpl.
    destruct (safeAwareness _ _ _ _) as [[[v []]|v|] r']; done.
Qed.

End Package.

(** ** Witnesses *)

Section Witnesses.
Import Demo.

Lemma Register_spec_witness :
  exists h, fst (Register (fun _ => None) "sched.a" "@every 1m" "ticks.a" [WithRollup]) =
      [JsPublishMsg "sched.a" h ""] /\
    header_Get h headerScheduleRollup = "sub" /\ header_Get h headerScheduleTTL = "".
Proof.
  destruct (Register_spec (fun _ => None) "sched.a" "@every 1m" "ticks.a" [WithRollup])
    as [(_ & h & H1 & H2 & _)|(_ & H1 & _)].
  - exists h. split; [exact H1|]. rewrite !H2. split; reflexivity.
  - apply (f_equal length) in H1. vm_compute in H1. discriminate H1.
Defined.

Lemma Channel_spec_witness :
  channel_ok (Channel "TICKS" "ticks.a" (option_of <$> [PDurable "d"; PStartSeq 5; PName "t"])) /\
  cs_Name (Channel "TICKS" "ticks.a" (option_of <$> [PDurable "d"; PStartSeq 5; PName "t"])) = "t".
Proof.
  destruct (Channel_spec (Henv := quiet_env) "TICKS" "ticks.a" [PDurable "d"; PStartSeq 5; PName "t"])
    as (H1 & H2 & _); [discriminate|discriminate|discriminate|]. split; [exact H1|exact H2].
Defined.

End Witnesses.
End Schedule.
