(* ===== verification/Soulstream.v ===== *)
(** * Topic participation (soulstream/)

    A topic channel is a stream channel on the realm's stream; the note bridge is
    a note hook that turns [Noted] payloads into comments. The owner library is a
    parameter: its client, the keys it signs with and its calls. *)

From S2P Require Import Prelude Values Substrate Model Validate Lifecycle Metrics Registry.
From S2P Require Import Runtime Request Dispatch Consumer Channels Schedule.

Module Soulstream.

Section Package.
Context `{NatsTypes}.

(** ** The channel (op.go, channel.go) *)

Definition decodeOp : Decoder := fun m =>
  Done (AOp (mkOp (header_Get (m_Headers m) record_HeaderType)
               (header_Get (m_Headers m) record_HeaderAuthor)
               (header_Get (m_Headers m) record_HeaderMsgID)), None).

Definition extractTopicPath (path : string) : EntityExtractor := fun _ => Done (path, None).

Definition defaultChannelName (path : string) : string := "soulstream:" +:+ path.

Record topicChannelConfig := mkTopicChannelConfig {
  tg_name : string;
  tg_durable : string;
  tg_consumer : ConsumerConfig;
  tg_decode : option Decoder;
  tg_extract : option EntityExtractor }.

Definition TopicChannelOption : Type := topicChannelConfig -> topicChannelConfig.

Definition WithDurable (name : string) : TopicChannelOption := fun c =>
  mkTopicChannelConfig (tg_name c) name (tg_consumer c) (tg_decode c) (tg_extract c).
Definition WithStartSeq (seq : Z) : TopicChannelOption := fun c =>
  let cc := tg_consumer c in
  mkTopicChannelConfig (tg_name c) (tg_durable c)
    {| cc_AckPolicy := cc_AckPolicy cc; cc_AckWait := cc_AckWait cc;
       cc_MaxDeliver := cc_MaxDeliver cc; cc_DeliverPolicy := DeliverByStartSequencePolicy;
       cc_ReplayPolicy := cc_ReplayPolicy cc; cc_OptStartSeq := seq;
       cc_OptStartTime := cc_OptStartTime cc; cc_MaxAckPending := cc_MaxAckPending cc;
       cc_Description := cc_Description cc |} (tg_decode c) (tg_extract c).
Definition WithStartTime (t : Z) : TopicChannelOption := fun c =>
  let cc := tg_consumer c in
  mkTopicChannelConfig (tg_name c) (tg_durable c)
    {| cc_AckPolicy := cc_AckPolicy cc; cc_AckWait := cc_AckWait cc;
       cc_MaxDeliver := cc_MaxDeliver cc; cc_DeliverPolicy := DeliverByStartTimePolicy;
       cc_ReplayPolicy := cc_ReplayPolicy cc; cc_OptStartSeq := cc_OptStartSeq cc;
       cc_OptStartTime := Some t; cc_MaxAckPending := cc_MaxAckPending cc;
       cc_Description := cc_Description cc |} (tg_decode c) (tg_extract c).
Definition WithDecoder (d : option Decoder) : TopicChannelOption := fun c =>
  mkTopicChannelConfig (tg_name c) (tg_durable c) (tg_consumer c) d (tg_extract c).
Definition WithEntityExtractor (e : option EntityExtractor) : TopicChannelOption := fun c =>
  mkTopicChannelConfig (tg_name c) (tg_durable c) (tg_consumer c) (tg_decode c) e.
Definition WithName (name : string) : TopicChannelOption := fun c =>
  mkTopicChannelConfig name (tg_durable c) (tg_consumer c) (tg_decode c) (tg_extract c).

Definition TopicChannel (path : string) (opts : list TopicChannelOption) : ChannelSpec :=
  let cfg := apply_options opts
    (mkTopicChannelConfig (defaultChannelName path) ""
       (mkConsumerConfig 0 0 0 DeliverAllPolicy 0 0 None 0 "")
       (Some decodeOp) (Some (extractTopicPath path))) in
  mkChannelSpec (tg_name cfg)
    (Some (AStreamSource (mkStreamSource realm_StreamName (topic_OpsSubject path)
       (tg_durable cfg) (tg_consumer cfg))))
    (tg_decode cfg) (tg_extract cfg).

(** ** Participants (participant.go) *)

(** The owner library's client and signing key. *)
Context {Client SigningKey : Type}.

Record Participant := mkParticipant { pt_client : Client }.
Record participantConfig := mkParticipantConfig { pg_signer : option SigningKey }.
Definition ParticipantOption : Type := participantConfig -> participantConfig.
Definition WithSigner (key : option SigningKey) : ParticipantOption := fun _ =>
  mkParticipantConfig key.

(** The calls of [NewParticipant], in order. *)
Inductive owner_call :=
| OJetStreamNew
| OAccountInfo
| ONewClient (realmName persona : string) (signer : option SigningKey).

(** [NewParticipant] with the answers of the libraries: the calls made, the
    participant and the error. *)
Definition NewParticipant (jsNew accountInfo : error)
    (newClient : string -> string -> option SigningKey -> Client + goerror)
    (realmName persona : string) (opts : list ParticipantOption) :
    list owner_call * (option Participant * error) :=
  let cfg := apply_options opts (mkParticipantConfig None) in
  match jsNew with
  | Some err =>
      ([OJetStreamNew], (None, Some (Errorf "soulstream: initialise jetstream: " err)))
  | None =>
  match accountInfo with
  | Some err =>
      ([OJetStreamNew; OAccountInfo],
       (None, Some (Errorf "soulstream: jetstream unavailable: " err)))
  | None =>
      ([OJetStreamNew; OAccountInfo; ONewClient realmName persona (pg_signer cfg)],
       match newClient realmName persona (pg_signer cfg) with
       | inr err => (None, Some (Errorf "soulstream: realm client: " err))
       | inl client => (Some (mkParticipant client), None)
       end)
  end end.

(** Thinking-tier handles: the calls of the owner library on the wrapped client. *)
Section Handles.
Context {Handle StartTopicInput : Type}.
Context (topic_Open : Client -> string -> Handle).
Context (topic_StartTopic : Client -> StartTopicInput -> option Handle * error).

Definition Topic (p : Participant) (path : string) : Handle := topic_Open (pt_client p) path.
Definition StartTopic (p : Participant) (input : StartTopicInput) : option Handle * error :=
  topic_StartTopic (pt_client p) input.

(** The handle a participant gives out is the owner library's, on the client that
    [NewParticipant] wrapped: the last options' signer and nothing else is in it. *)
Lemma Topic_of_new newClient realmName persona signers p path :
  snd (NewParticipant None None newClient realmName persona (WithSigner <$> signers)) =
    (Some p, None) ->
  exists client, newClient realmName persona (mjoin (last signers)) = inl client /\
    Topic p path = topic_Open client path.
Proof.
  unfold NewParticipant; simpl.
  assert (pg_signer (apply_options (WithSigner <$> signers) (mkParticipantConfig None)) =
    mjoin (last signers)) as ->.
  { induction signers as [|k ks IH] using rev_ind; [done|].
    rewrite fmap_app, (apply_options_app (C := participantConfig)), last_snoc. done. }
  destruct (newClient _ _ _) as [client|]; [|done]. intros [= <-]. by exists client.
Qed.

End Handles.

(** ** The note bridge (notebridge.go) *)

(** [payload.(Noted)]. *)
Definition as_Noted (payload : any) : option Noted :=
  match payload with ANoted n => Some n | _ => None end.

(** [next] and [onErr] are user callbacks, nil when absent. Adding the comment is
    the owner library's call on the handle of the entity's topic. *)
Definition NoteBridge (p : option Participant)
    (next : option (Entity -> any -> prog HookEffects unit))
    (onErr : option (Entity -> Noted -> goerror -> prog HookEffects unit)) :
    result NoteHook :=
  match p with
  | None => Panicked (AString "soulstream: NoteBridge requires a non-nil Participant")
  | Some p => Done (fun entity payload =>
      match as_Noted payload with
      | None =>
          match next with Some next => next entity payload | None => Ret tt end
      | Some noted =>
          let fail (err : goerror) :=
            match onErr with Some onErr => onErr entity noted err | None => Ret tt end in
          if decide (Noted_AnchorOp noted = "") then
            fail (ErrorsNew "soulstream: Noted.AnchorOp is required")
          else if decide (Noted_Body noted = "") then
            fail (ErrorsNew "soulstream: Noted.Body is required")
          else if decide (entity = "") then
            fail (ErrorsNew "soulstream: note entity is empty — not a topic path")
          else
            Vis (HookAddComment entity (Noted_Body noted) (Noted_AnchorOp noted)) (fun err =>
              match err with Some err => fail err | None => Ret tt end)
      end)
  end.

(** ** Specification *)

(** The options of both packages, as data. *)
Inductive customisation :=
| CuDurable (name : string)
| CuStartSeq (seq : Z)
| CuStartTime (t : Z)
| CuDecoder (d : option Decoder)
| CuExtractor (e : option EntityExtractor)
| CuName (name : string).

Definition topic_option (c : customisation) : TopicChannelOption :=
  match c with
  | CuDurable n => WithDurable n | CuStartSeq n => WithStartSeq n
  | CuStartTime t => WithStartTime t | CuDecoder d => WithDecoder d
  | CuExtractor e => WithEntityExtractor e | CuName n => WithName n
  end.

Definition schedule_option (c : customisation) : Schedule.ChannelOption :=
  match c with
  | CuDurable n => Schedule.WithDurable n | CuStartSeq n => Schedule.WithStartSeq n
  | CuStartTime t => Schedule.WithStartTime t | CuDecoder d => Schedule.WithDecoder d
  | CuExtractor e => Schedule.WithEntityExtractor e | CuName n => Schedule.WithName n
  end.

(** The two configurations hold the same fields. *)
Definition as_schedule (c : topicChannelConfig) : Schedule.channelConfig :=
  Schedule.mkChannelConfig (tg_name c) (tg_durable c) (tg_consumer c) (tg_decode c)
    (tg_extract c).

Lemma apply_as_schedule cs c :
  apply_options (schedule_option <$> cs) (as_schedule c) =
  as_schedule (apply_options (topic_option <$> cs) c).
Proof.
  revert c. induction cs as [|o cs IH]; intros c; [done|]. rewrite !fmap_cons. simpl.
  rewrite <- IH. by destruct o.
Qed.

(** ** Properties *)

(** The two packages build channels the same way. Under any list of options a
    topic channel is the schedule package's channel on the realm's stream and the
    topic's subject, with the topic's name, decoder and extractor as the options
    applied first; so nothing is said of one that does not hold of the other. *)
Lemma TopicChannel_as_schedule path cs :
  TopicChannel path (topic_option <$> cs) =
  Schedule.Channel realm_StreamName (topic_OpsSubject path)
    ([Schedule.WithName (defaultChannelName path); Schedule.WithDecoder (Some decodeOp);
      Schedule.WithEntityExtractor (Some (extractTopicPath path))] ++
     (schedule_option <$> cs)).
Proof.
  set (c0 := mkTopicChannelConfig (defaultChannelName path) ""
    (mkConsumerConfig 0 0 0 DeliverAllPolicy 0 0 None 0 "")
    (Some decodeOp) (Some (extractTopicPath path))).
  pose proof (apply_as_schedule cs c0) as Hcs. unfold TopicChannel, Schedule.Channel.
  fold c0. simpl app. unfold apply_options in *. cbn [foldl].
  change (foldl _ _ (schedule_option <$> cs)) with
    (foldl (fun c opt => opt c) (as_schedule c0) (schedule_option <$> cs)).
  by rewrite Hcs.
Qed.

End Package.

Section Bridge.
Context `{NatsEnv} {Client : Type}.

(** What a note asks for. *)
Inductive note_request :=
| NotANote
| Malformed (err : goerror)
| Comment (topic body anchor : string).

Definition requested (entity : Entity) (payload : any) : note_request :=
  match as_Noted payload with
  | None => NotANote
  | Some n =>
      if decide (Noted_AnchorOp n = "") then
        Malformed (ErrorsNew "soulstream: Noted.AnchorOp is required")
      else if decide (Noted_Body n = "") then
        Malformed (ErrorsNew "soulstream: Noted.Body is required")
      else if decide (entity = "") then
        Malformed (ErrorsNew "soulstream: note entity is empty — not a topic path")
      else Comment entity (Noted_Body n) (Noted_AnchorOp n)
  end.

(** The user's callbacks, absent ones doing nothing. *)
Definition run_next (next : option (Entity -> any -> prog HookEffects unit)) entity payload :
    M unit :=
  match next with Some f => run_prog hook_handler (f entity payload) | None => ret tt end.
Definition run_onErr (onErr : option (Entity -> Noted -> goerror -> prog HookEffects unit))
    entity payload err : M unit :=
  match onErr, as_Noted payload with
  | Some f, Some n => run_prog hook_handler (f entity n err)
  | _, _ => ret tt
  end.

(** C34: the note bridge, run as the harness's note hook. A payload that is not a
    [Noted] goes to [next] alone; a [Noted] that lacks its anchor or its body, or
    whose entity is empty, publishes nothing and is reported to [onErr] with the
    first thing missing; any other is one comment on the entity's topic, anchored
    to its op, and [onErr] hears of it exactly when that publish fails. Absent
    callbacks do nothing. *)
Theorem NoteBridge_spec (p : Participant (Client := Client)) next onErr hook entity payload r :
  NoteBridge (Some p) next onErr = Done hook ->
  run_prog hook_handler (hook entity payload) r =
  match requested entity payload with
  | NotANote => run_next next entity payload r
  | Malformed err => run_onErr onErr entity payload err r
  | Comment topic body anchor =>
      let e := env_AddComment (rt_events r) topic body anchor in
      let r' := set_events (rt_events r ++ [CAddComment topic body anchor]) r in
      match e with
      | Some err => run_onErr onErr entity payload err r'
      | None => (Done tt, r')
      end
  end.
Proof.
  intros [= <-]. unfold requested, run_next, run_onErr.
  destruct (as_Noted payload) as [n|]; [|by destruct next].
  repeat case_decide; try by destruct onErr.
  simpl. unfold bind, ask. destruct (env_AddComment _ _ _ _); by destruct onErr.
Qed.

End Bridge.

(** ** Witnesses *)

Section Witnesses.
Import Demo.

Definition demo_hook : NoteHook :=
  match NoteBridge (Some (mkParticipant tt)) None None with
  | Done hook => hook
  | _ => fun _ _ => Ret tt
  end.

Lemma NoteBridge_spec_witness :
  rt_events (snd (run_prog hook_handler (demo_hook "t/a" (ANoted (mkNoted "op1" "hello")))
    demo_runtime)) = [CAddComment "t/a" "hello" "op1"].
Proof.
  rewrite (NoteBridge_spec (mkParticipant tt) None None demo_hook "t/a"
    (ANoted (mkNoted "op1" "hello")) demo_runtime eq_refl). reflexivity.
Defined.

End Witnesses.
End Soulstream.
