(* ===== verification/StateMonad.v ===== *)
(** * State passing with outcomes

    The monad of the persist package and of the objects that goroutines share: a
    computation on a state that returns, panics or blocks. *)

From S2P Require Import Prelude Values.

Definition SM (S A : Type) : Type := S -> result A * S.

Instance SM_ret S : MRet (SM S) := fun A a s => (Done a, s).
Instance SM_bind S : MBind (SM S) := fun A B k m s =>
  match m s with
  | (Done a, s') => k a s'
  | (Panicked v, s') => (Panicked v, s')
  | (Blocked, s') => (Blocked, s')
  end.

Definition lift {S A} (r : result A) : SM S A := fun s => (r, s).
Definition gets {S A} (f : S -> A) : SM S A := fun s => (Done (f s), s).
Definition modify {S} (f : S -> S) : SM S unit := fun s => (Done (), f s).
Definition panic {S A} (v : any) : SM S A := fun s => (Panicked v, s).

(** ** Running a sequence *)

Lemma bind_match {S A C} (m : SM S A) (k : A -> SM S C) f :
  (m ≫= k) f = match m f with
               | (Done a, f') => k a f'
               | (Panicked v, f') => (Panicked v, f')
               | (Blocked, f') => (Blocked, f')
               end.
Proof. reflexivity. Qed.

Lemma bind_done {S A C} (m : SM S A) (k : A -> SM S C) x a x' :
  m x = (Done a, x') -> (m ≫= k) x = k a x'.
Proof. intros Hm. unfold mbind, SM_bind. by rewrite Hm. Qed.

Lemma bind_panicked {S A C} (m : SM S A) (k : A -> SM S C) x v x' :
  m x = (Panicked v, x') -> (m ≫= k) x = (Panicked v, x').
Proof. intros Hm. unfold mbind, SM_bind. by rewrite Hm. Qed.

Lemma bind_blocked {S A C} (m : SM S A) (k : A -> SM S C) x x' :
  m x = (Blocked, x') -> (m ≫= k) x = (Blocked, x').
Proof. intros Hm. unfold mbind, SM_bind. by rewrite Hm. Qed.
