(* ===== verification/Mutex.v ===== *)
(** * Objects behind a mutex

    What [sync.Mutex] gives an object whose methods are critical sections: goroutines
    interleaved at every access inside them get the replies of uninterrupted calls.
    [Guarded] is the interface, with the two laws an object has to keep; the durable
    store and the slots of the registry implement it. *)

From S2P Require Import Prelude Values StateMonad.

(** ** Computations one access at a time *)

Inductive steps (S A : Type) : Type :=
| Fin (a : A)
| Act {X : Type} (m : SM S X) (k : X -> steps S A).
Arguments Fin {S A} a.
Arguments Act {S A X} m k.

Instance steps_ret S : MRet (steps S) := fun A a => Fin a.
Fixpoint steps_bind_def {S A C} (k : A -> steps S C) (t : steps S A) : steps S C :=
  match t with
  | Fin a => k a
  | Act m j => Act m (fun x => steps_bind_def k (j x))
  end.
Instance steps_bind S : MBind (steps S) := fun A C k t => steps_bind_def k t.

Definition act {S A} (m : SM S A) : steps S A := Act m Fin.

(** Without interruption. *)
Fixpoint run_steps {S A} (t : steps S A) : SM S A :=
  match t with
  | Fin a => mret a
  | Act m k => m ≫= fun x => run_steps (k x)
  end.

Lemma run_steps_bind {S A C} (t : steps S A) (k : A -> steps S C) f :
  run_steps (t ≫= k) f = (run_steps t ≫= fun a => run_steps (k a)) f.
Proof.
  revert f. induction t as [a|X m j IH]; intros f; [done|].
  change (Act m j ≫= k) with (Act m (fun x => j x ≫= k)). simpl.
  rewrite !bind_match. destruct (m f) as [[x|v|] f']; [|done..]. rewrite IH. apply bind_match.
Qed.

(** A computation that leaves the mutex as it is. *)
Definition keeps {S A} (held : S -> bool) (m : SM S A) : Prop :=
  forall f, held (m f).2 = held f.

Fixpoint keeps_held {S A} (held : S -> bool) (t : steps S A) : Prop :=
  match t with
  | Fin _ => True
  | Act m k => keeps held m /\ forall x, keeps_held held (k x)
  end.

Lemma keeps_held_bind {S A C} (held : S -> bool) (t : steps S A) (k : A -> steps S C) :
  keeps_held held t -> (forall a, keeps_held held (k a)) -> keeps_held held (t ≫= k).
Proof.
  induction t as [a|X m j IH]; intros Ht Hk; [apply Hk|]. destruct Ht as [Hm Hj].
  split; [done|]. intros x. by apply IH.
Qed.

(** ** The interface *)

(** [S]: the object and its world. [C]: its methods with their arguments; [R]: their
    replies. A method is a critical section between a lock and a deferred unlock, and
    does not touch the mutex. *)
Class Guarded (S C R : Type) := {
  held : S -> bool;
  set_held : bool -> S -> S;
  critical : C -> steps S R;
  held_set b f : held (set_held b f) = b;
  critical_keeps c : keeps_held held (critical c) }.

Section Guarded.
Context {S C R : Type} `{!Guarded S C R}.

(** A call that nobody interrupts. *)
Definition run_call (c : C) : SM S R := fun f =>
  if held f then (Blocked, f)
  else
    match run_steps (critical c) (set_held true f) with
    | (Blocked, f') => (Blocked, f')
    | (r, f') => (r, set_held false f')
    end.

(** ** Goroutines *)

(** A call before it has the mutex, with what is left of its critical section, and
    returned. *)
Inductive caller :=
| Waiting (c : C)
| Inside (rest : steps S R)
| Leaving (r : result R)
| Returned (r : result R).

(** The object with its callers; [c_order] is a ghost: the callers that have taken
    the mutex, in order. *)
Record conf := mkConf {
  c_st : S;
  c_callers : list caller;
  c_order : list (nat * C) }.

Inductive move :=
| Invoke (c : C)
| Step (n : nat).

(** One move; [None] where there is none. A panic leaves the critical section by
    the deferred unlock. *)
Definition caller_step (n : nat) (a : caller) (cf : conf) : option conf :=
  match a with
  | Waiting c =>
      if held (c_st cf) then None
      else Some (mkConf (set_held true (c_st cf)) (<[n := Inside (critical c)]> (c_callers cf))
                   (c_order cf ++ [(n, c)]))
  | Inside (Fin r) =>
      Some (mkConf (c_st cf) (<[n := Leaving (Done r)]> (c_callers cf)) (c_order cf))
  | Inside (Act m k) =>
      match m (c_st cf) with
      | (Done x, f) => Some (mkConf f (<[n := Inside (k x)]> (c_callers cf)) (c_order cf))
      | (Panicked v, f) =>
          Some (mkConf f (<[n := Leaving (Panicked v)]> (c_callers cf)) (c_order cf))
      | (Blocked, _) => None
      end
  | Leaving r =>
      Some (mkConf (set_held false (c_st cf)) (<[n := Returned r]> (c_callers cf)) (c_order cf))
  | Returned _ => None
  end.

Definition conf_step (m : move) (cf : conf) : option conf :=
  match m with
  | Invoke c => Some (mkConf (c_st cf) (c_callers cf ++ [Waiting c]) (c_order cf))
  | Step n => c_callers cf !! n ≫= fun a => caller_step n a cf
  end.

Fixpoint conf_run (ms : list move) (cf : conf) : option conf :=
  match ms with
  | [] => Some cf
  | m :: ms => conf_step m cf ≫= conf_run ms
  end.

Definition alone (f : S) : conf := mkConf f [] [].

Lemma run_call_free c f :
  held f = false ->
  run_call c f =
  match run_steps (critical c) (set_held true f) with
  | (Blocked, f') => (Blocked, f')
  | (r, f') => (r, set_held false f')
  end.
Proof. unfold run_call. by intros ->. Qed.

(** ** One call after the other *)

Definition sequential (cs : list C) (f : S) :
    list (result R) * S :=
  foldl (fun '(rs, f) c => let '(r, f') := run_call c f in (rs ++ [r], f'))
    ([], f) cs.

Lemma sequential_snoc cs c f :
  sequential (cs ++ [c]) f =
  let '(rs, f1) := sequential cs f in
  let '(r, f2) := run_call c f1 in (rs ++ [r], f2).
Proof. unfold sequential. rewrite foldl_app. simpl. by destruct (foldl _ _ cs). Qed.

Definition invoked (m : move) : list C :=
  match m with Invoke c => [c] | Step _ => [] end.

(** ** The invariant *)

(** What the holder of the mutex has left gives what its whole call gives. *)
Definition holding (f : S) (n : nat) (c : C) (cf : conf) : Prop :=
  held (c_st cf) = true /\
  match c_callers cf !! n with
  | Some (Inside t) =>
      keeps_held held t /\ run_steps t (c_st cf) = run_steps (critical c) (set_held true f)
  | Some (Leaving r) => r <> Blocked /\ run_steps (critical c) (set_held true f) = (r, c_st cf)
  | _ => False
  end.

Definition place (done : list (nat * C)) (holder : option (nat * C))
    (calls : list C) (n : nat) (a : caller) : Prop :=
  match a with
  | Waiting c => n ∉ done.*1 /\ (forall h, holder = Some h -> h.1 <> n) /\ calls !! n = Some c
  | Inside _ | Leaving _ => exists c, holder = Some (n, c)
  | Returned _ => n ∈ done.*1
  end.

Record serialized (f0 : S) (calls : list C) (cf : conf)
    (done : list (nat * C)) (holder : option (nat * C))
    (rs : list (result R)) (f : S) : Prop := {
  sz_order : c_order cf = done ++ option_list holder;
  sz_nodup : NoDup (c_order cf).*1;
  sz_calls n c : (n, c) ∈ c_order cf -> calls !! n = Some c;
  sz_length : length (c_callers cf) = length calls;
  sz_run : sequential done.*2 f0 = (rs, f);
  sz_free : held f = false;
  sz_replies : Forall2 (fun p r => c_callers cf !! p.1 = Some (Returned r)) done rs;
  sz_place n a : c_callers cf !! n = Some a -> place done holder calls n a;
  sz_holder : match holder with
              | None => c_st cf = f
              | Some (n, c) => holding f n c cf
              end }.

Lemma lookup_invoke {A} (l : list A) a n x :
  (l ++ [a]) !! n = Some x -> l !! n = Some x \/ n = length l /\ x = a.
Proof.
  intros [Hl|[Hge Hl]]%lookup_app_Some; [by left|]. right.
  destruct (n - length l) eqn:Hn; simplify_eq/=. split; [lia|done].
Qed.

Lemma invoke_serialized f0 calls c cf done holder rs f :
  serialized f0 calls cf done holder rs f ->
  serialized f0 (calls ++ [c])
    (mkConf (c_st cf) (c_callers cf ++ [Waiting c]) (c_order cf)) done holder rs f.
Proof.
  intros [Ho Hnd Hc Hl Hr Hf Hrs Hp Hh].
  assert (Hfresh : forall m c', (m, c') ∈ c_order cf -> m < length (c_callers cf)).
  { intros m c' Hm%Hc. rewrite Hl. by apply lookup_lt_Some in Hm. }
  split; simpl; try done.
  - intros n c' Hn%Hc. by apply lookup_app_l_Some.
  - rewrite !length_app. simpl. lia.
  - eapply Forall2_impl; [done|]. simpl. intros p r Hp'. by apply lookup_app_l_Some.
  - intros n a [Hn|[-> ->]]%lookup_invoke.
    + apply Hp in Hn. destruct a; simpl in *; try done. destruct_and!. split_and!; try done.
      by apply lookup_app_l_Some.
    + simpl. rewrite Ho in Hfresh. split_and!.
      * intros [[m c'] [Hm Hin]]%list_elem_of_fmap.
        specialize (Hfresh m c' ltac:(set_solver)). simpl in *. lia.
      * intros [m c'] ->. specialize (Hfresh m c' ltac:(set_solver)). simpl. lia.
      * by rewrite Hl, lookup_app_r, Nat.sub_diag by lia.
  - destruct holder as [[n c']|]; [|done]. destruct Hh as [Hmu Hh]. split; [done|]. simpl.
    destruct (c_callers cf !! n) as [a|] eqn:Hn; [|done].
    by rewrite (lookup_app_l_Some _ _ _ _ Hn).
Qed.

(** The holder moves within its critical section, or out of it. *)
Lemma inside_serialized f0 calls cf done n c rs f a f' :
  serialized f0 calls cf done (Some (n, c)) rs f ->
  let cf' := mkConf f' (<[n := a]> (c_callers cf)) (c_order cf) in
  match a with Inside _ | Leaving _ => True | _ => False end ->
  holding f n c cf' -> serialized f0 calls cf' done (Some (n, c)) rs f.
Proof.
  intros [Ho Hnd Hc Hl Hr Hf Hrs Hp Hh] cf' Ha Hh'. split; try done; simpl.
  - by rewrite length_insert.
  - rewrite Forall2_lookup in Hrs |- *. intros i. specialize (Hrs i).
    destruct Hrs as [[m cm] r Hm|]; constructor. simpl in *. rewrite list_lookup_insert_ne; [done|].
    intros ->. destruct Hh as [_ Hh]. rewrite Hm in Hh. done.
  - intros m b. destruct (decide (m = n)) as [->|Hne].
    + intros Hb. assert (b = a) as ->.
      { apply list_lookup_insert_Some in Hb as [(_ & ? & _)|[? _]]; done. }
      destruct a; try done; by exists c.
    + rewrite list_lookup_insert_ne by done. apply Hp.
Qed.

Lemma order_prefix {A} (l : list A) a (done : list A) holder :
  l = done ++ option_list holder -> holder = None -> l ++ [a] = done ++ option_list (Some a).
Proof. intros -> ->. by rewrite app_nil_r. Qed.

(** A waiting caller takes a free mutex. *)
Lemma lock_serialized f0 calls cf done rs f n c :
  serialized f0 calls cf done None rs f -> c_callers cf !! n = Some (Waiting c) ->
  serialized f0 calls
    (mkConf (set_held true (c_st cf)) (<[n := Inside (critical c)]> (c_callers cf))
       (c_order cf ++ [(n, c)])) done (Some (n, c)) rs f.
Proof.
  intros [Ho Hnd Hc Hl Hr Hf Hrs Hp Hh] Hn. destruct (Hp n _ Hn) as (Hout & _ & Hcall).
  assert (Ho' : c_order cf = done) by (by rewrite Ho, app_nil_r).
  split; simpl; try done.
  - by rewrite Ho'.
  - rewrite fmap_app. apply NoDup_app. split_and!; [done| |apply NoDup_singleton].
    intros m Hm. simpl. rewrite list_elem_of_singleton. intros ->. by rewrite Ho' in Hm.
  - intros m c' [?| [= -> ->]%list_elem_of_singleton]%elem_of_app; [by apply Hc|done].
  - by rewrite length_insert.
  - rewrite Forall2_lookup in Hrs |- *. intros i. specialize (Hrs i).
    destruct Hrs as [[m cm] r Hm|]; constructor. simpl in *. rewrite list_lookup_insert_ne; [done|].
    intros ->. congruence.
  - intros m b. destruct (decide (m = n)) as [->|Hne].
    + intros [(_ & <- & _)|[? _]]%list_lookup_insert_Some; [by exists c|done].
    + rewrite list_lookup_insert_ne by done. intros Hm%Hp. destruct b; simpl in *; try done.
      * destruct_and!. split_and!; [done|by intros ? [= <-]|done].
      * by destruct Hm.
      * by destruct Hm.
  - split; [by apply held_set|]. simpl.
    rewrite list_lookup_insert_eq by (by apply lookup_lt_Some in Hn).
    split; [apply critical_keeps|]. by rewrite Hh.
Qed.

(** The holder leaves: its whole call is one more of the sequence. *)
Lemma unlock_serialized f0 calls cf done rs f n c r :
  serialized f0 calls cf done (Some (n, c)) rs f -> c_callers cf !! n = Some (Leaving r) ->
  serialized f0 calls
    (mkConf (set_held false (c_st cf)) (<[n := Returned r]> (c_callers cf)) (c_order cf))
    (done ++ [(n, c)]) None (rs ++ [r]) (set_held false (c_st cf)).
Proof.
  intros [Ho Hnd Hc Hl Hr Hf Hrs Hp Hh] Hn. destruct Hh as [Hmu Hh]. rewrite Hn in Hh.
  destruct Hh as [Hr0 Hbody]. split; simpl; try done.
  - by rewrite Ho, app_nil_r.
  - by rewrite length_insert.
  - rewrite fmap_app. simpl. rewrite sequential_snoc, Hr, (run_call_free c f Hf), Hbody.
    by destruct r.
  - apply held_set.
  - apply Forall2_app.
    + rewrite Forall2_lookup in Hrs |- *. intros i. specialize (Hrs i).
      destruct Hrs as [[m cm] r' Hm|]; constructor. simpl in *.
      rewrite list_lookup_insert_ne; [done|]. intros ->. congruence.
    + constructor; [|done]. simpl. by rewrite list_lookup_insert_eq by (by apply lookup_lt_Some in Hn).
  - intros m b. destruct (decide (m = n)) as [->|Hne].
    + intros [(_ & <- & _)|[? _]]%list_lookup_insert_Some; [|done]. simpl.
      rewrite fmap_app. set_solver.
    + rewrite list_lookup_insert_ne by done. intros Hm%Hp. destruct b; simpl in *.
      * destruct_and!. split_and!; [|done|done]. rewrite fmap_app. set_solver.
      * by destruct Hm as [c' [= <- _]].
      * by destruct Hm as [c' [= <- _]].
      * rewrite fmap_app. set_solver.
Qed.

Definition serial (f0 : S) (calls : list C) (cf : conf) : Prop :=
  exists done holder rs f, serialized f0 calls cf done holder rs f.

Lemma step_serial f0 calls m cf cf' :
  serial f0 calls cf -> conf_step m cf = Some cf' -> serial f0 (calls ++ invoked m) cf'.
Proof.
  intros (done & holder & rs & f & Hs). destruct m as [c|n]; simpl.
  { intros [= <-]. exists done, holder, rs, f. by apply invoke_serialized. }
  rewrite app_nil_r. destruct (c_callers cf !! n) as [a|] eqn:Hn; simpl; [|done].
  pose proof (lookup_lt_Some _ _ _ Hn) as Hlt.
  pose proof (sz_place _ _ _ _ _ _ _ Hs n a Hn) as Hp.
  pose proof (sz_holder _ _ _ _ _ _ _ Hs) as Hh.
  destruct a as [c|t|r|r]; simpl in *; [| | |done].
  - destruct (held (c_st cf)) eqn:Hmu; [done|]. intros [= <-].
    destruct holder as [[m c']|]; [by destruct Hh; congruence|].
    exists done, (Some (n, c)), rs, f. by apply lock_serialized.
  - destruct Hp as [c ->]. destruct Hh as [Hmu Hh]. rewrite Hn in Hh. destruct Hh as [Hk Hrun].
    assert (Hin : forall f' a', match a' with Inside _ | Leaving _ => True | _ => False end ->
      held f' = true ->
      match a' with
      | Inside t => keeps_held held t /\ run_steps t f' = run_steps (critical c) (set_held true f)
      | Leaving r => r <> Blocked /\ run_steps (critical c) (set_held true f) = (r, f')
      | _ => False
      end -> serial f0 calls (mkConf f' (<[n := a']> (c_callers cf)) (c_order cf))).
    { intros f' a' Ha Hmu' Hrun'. exists done, (Some (n, c)), rs, f.
      apply (inside_serialized _ _ _ _ _ _ _ _ _ _ Hs); [done|]. split; [done|]. simpl.
      by rewrite list_lookup_insert_eq. }
    destruct t as [r|X m k].
    + intros [= <-]. by apply Hin.
    + destruct Hk as [Hm Hk]. simpl in Hrun. rewrite bind_match in Hrun.
      specialize (Hm (c_st cf)). destruct (m (c_st cf)) as [[x|v|] f']; [| |done];
        intros [= <-]; simpl in Hm; apply Hin; simpl; rewrite ?Hm; auto.
  - destruct Hp as [c ->]. intros [= <-].
    exists (done ++ [(n, c)]), None, (rs ++ [r]), (set_held false (c_st cf)).
    by apply (unlock_serialized _ _ _ _ _ f).
Qed.

Lemma run_serial f0 ms calls cf cf' :
  serial f0 calls cf -> conf_run ms cf = Some cf' -> serial f0 (calls ++ (ms ≫= invoked)) cf'.
Proof.
  revert calls cf. induction ms as [|m ms IH]; intros calls cf Hs; simpl.
  { intros [= <-]. by rewrite app_nil_r. }
  destruct (conf_step m cf) as [cf1|] eqn:Hm; simpl; [|done]. intros Hrun.
  rewrite app_assoc. eapply IH; [|done]. by eapply step_serial.
Qed.

Lemma alone_serial f0 : held f0 = false -> serial f0 [] (alone f0).
Proof.
  intros Hf. exists [], None, [], f0. split; try done; simpl.
  - constructor.
  - intros n c Hn. by apply elem_of_nil in Hn.
Qed.

Lemma conf_run_app ms1 ms2 cf :
  conf_run (ms1 ++ ms2) cf = conf_run ms1 cf ≫= conf_run ms2.
Proof.
  revert cf. induction ms1 as [|m ms1 IH]; intros cf; [done|]. simpl.
  destruct (conf_step m cf); simpl; [apply IH|done].
Qed.

(** The order only grows. *)
Lemma step_order m cf cf' :
  conf_step m cf = Some cf' -> exists later, c_order cf' = c_order cf ++ later.
Proof.
  assert (Hrefl : exists later, c_order cf = c_order cf ++ later)
    by (exists []; by rewrite app_nil_r).
  destruct m as [c|n]; simpl; [by intros [= <-]|].
  destruct (c_callers cf !! n) as [[c|[r|X m k]|r|r]|]; simpl; try done.
  - destruct (held _); [done|]. intros [= <-]. by exists [(n, c)].
  - by intros [= <-].
  - destruct (m (c_st cf)) as [[x|v|] f']; [by intros [= <-]..|done].
  - by intros [= <-].
Qed.

Lemma run_order ms cf cf' :
  conf_run ms cf = Some cf' -> exists later, c_order cf' = c_order cf ++ later.
Proof.
  revert cf. induction ms as [|m ms IH]; intros cf; simpl.
  { intros [= <-]. exists []. by rewrite app_nil_r. }
  destruct (conf_step m cf) as [cf1|] eqn:Hm; simpl; [|done].
  intros [l2 ->]%IH. apply step_order in Hm as [l1 ->]. exists (l1 ++ l2). by rewrite app_assoc.
Qed.

Lemma returned_in_order f0 calls cf done holder rs f n r :
  serialized f0 calls cf done holder rs f ->
  c_callers cf !! n = Some (Returned r) <->
  exists i c, done !! i = Some (n, c) /\ rs !! i = Some r.
Proof.
  intros Hs. pose proof (sz_replies _ _ _ _ _ _ _ Hs) as Hrs. rewrite Forall2_lookup in Hrs. split.
  - intros Hn. pose proof (sz_place _ _ _ _ _ _ _ Hs n _ Hn) as Hp. simpl in Hp.
    apply list_elem_of_fmap in Hp as [[m c] [-> [i Hi]%list_elem_of_lookup]]. exists i, c.
    split; [done|]. specialize (Hrs i). rewrite Hi in Hrs. inversion Hrs as [? r' Hr|]; subst.
    simpl in *. congruence.
  - intros (i & c & Hi & Hr). specialize (Hrs i). rewrite Hi, Hr in Hrs. by inversion Hrs.
Qed.

(** Somebody can go on, unless everybody has returned or the holder is inside user
    code, or a call on the backend, that does not return. *)
Lemma goes_on f0 calls cf n a :
  serial f0 calls cf -> c_callers cf !! n = Some a ->
  (exists r, a = Returned r) \/ (exists n' cf', conf_step (Step n') cf = Some cf') \/
  (exists n' X (m : SM S X) k,
     c_callers cf !! n' = Some (Inside (Act m k)) /\ (m (c_st cf)).1 = Blocked).
Proof.
  intros (done & holder & rs & f & Hs) Hn. pose proof (sz_holder _ _ _ _ _ _ _ Hs) as Hh.
  destruct holder as [[h c]|].
  - right. destruct Hh as [_ Hh]. destruct (c_callers cf !! h) as [[c'|[r|X m k]|r|r]|] eqn:Hc;
      try done.
    + left. eexists h, _. simpl. by rewrite Hc.
    + destruct (m (c_st cf)) as [[x|v|] f'] eqn:Hm.
      * left. eexists h, _. simpl. rewrite Hc. simpl. by rewrite Hm.
      * left. eexists h, _. simpl. rewrite Hc. simpl. by rewrite Hm.
      * right. exists h, X, m, k. by rewrite Hm.
    + left. eexists h, _. simpl. by rewrite Hc.
  - pose proof (sz_place _ _ _ _ _ _ _ Hs n a Hn) as Hp. destruct a as [c|t|r|r]; simpl in Hp.
    + right; left. eexists n, _. simpl. rewrite Hn. simpl. rewrite Hh.
      by rewrite (sz_free _ _ _ _ _ _ _ Hs).
    + by destruct Hp.
    + by destruct Hp.
    + left. by exists r.
Qed.

(** ** The theorem *)

(** The object serialises its callers. Start from an unlocked object and let any
    number of goroutines call it, interleaved at every access to its memory, to the
    backend and the clock and at every call into user code. The calls that have
    returned, in the order in which they took the mutex, are a sequence of
    uninterrupted calls: run one after the other from the start they give exactly the
    replies returned, and, when nobody is inside, exactly the present object.
    That order respects time: what is in it stays where it is, and a call that has
    returned is in it before any later one enters. And nobody is stuck: while a caller
    has not returned some caller can go on, or the one inside is waiting for user code
    or the backend. *)
Lemma serializes f0 ms cf :
  held f0 = false -> conf_run ms (alone f0) = Some cf ->
  exists done holder rs f,
    c_order cf = done ++ option_list holder /\ NoDup (c_order cf).*1 /\
    (forall n c, (n, c) ∈ c_order cf -> (ms ≫= invoked) !! n = Some c) /\
    sequential done.*2 f0 = (rs, f) /\ held f = false /\
    (forall n r, c_callers cf !! n = Some (Returned r) <->
       exists i c, done !! i = Some (n, c) /\ rs !! i = Some r) /\
    (held (c_st cf) = false -> c_st cf = f /\ c_order cf = done) /\
    (forall ms1 ms2 cf1, ms = ms1 ++ ms2 -> conf_run ms1 (alone f0) = Some cf1 ->
       exists later, c_order cf = c_order cf1 ++ later /\
         forall n r, c_callers cf1 !! n = Some (Returned r) -> n ∈ (c_order cf1).*1) /\
    (forall n a, c_callers cf !! n = Some a ->
       (exists r, a = Returned r) \/ (exists n' cf', conf_step (Step n') cf = Some cf') \/
       (exists n' X (m : SM S X) k,
          c_callers cf !! n' = Some (Inside (Act m k)) /\ (m (c_st cf)).1 = Blocked)).
Proof.
  intros Hf Hrun. pose proof (alone_serial f0 Hf) as H0.
  pose proof (run_serial f0 ms [] _ _ H0 Hrun) as Hser. simpl in Hser.
  destruct Hser as (done & holder & rs & f & Hs). exists done, holder, rs, f.
  split_and!.
  - by destruct Hs.
  - by destruct Hs.
  - by destruct Hs.
  - by destruct Hs.
  - by destruct Hs.
  - intros n r. by eapply returned_in_order.
  - intros Hmu. destruct Hs as [Ho _ _ _ _ _ _ _ Hh]. destruct holder as [[n c]|].
    { destruct Hh. congruence. }
    by rewrite Ho, app_nil_r.
  - intros ms1 ms2 cf1 -> Hrun1. rewrite conf_run_app, Hrun1 in Hrun. simpl in Hrun.
    destruct (run_order _ _ _ Hrun) as [later ->]. exists later. split; [done|].
    intros n r Hn. destruct (run_serial f0 ms1 [] _ _ H0 Hrun1) as (done1 & h1 & rs1 & f1 & Hs1).
    pose proof (sz_place _ _ _ _ _ _ _ Hs1 n _ Hn) as Hp. simpl in Hp.
    rewrite (sz_order _ _ _ _ _ _ _ Hs1), fmap_app. set_solver.
  - intros n a Hn. eapply goes_on; [|done]. by exists done, holder, rs, f.
Qed.

End Guarded.
