(* ===== verification/Slots.v ===== *)
(** * A slot under concurrent callers (registry.go)

    [Get], [Set] and [Update] of the references to one slot, by any number of
    awareness callbacks and thinking goroutines, interleaved at every access to the
    value and at every call of an update function. The slot is an object behind its
    mutex, so [Mutex] applies; uninterrupted, its methods are those of [Registry]. *)

From S2P Require Import Prelude Values StateMonad Mutex Model Registry.

(** ** The code *)

(** [slot]. *)
Record slot := mkSlot { sl_mu : bool; sl_val : any }.

Inductive slot_call :=
| SGet
| SSet (v : any)
| SUpdate (fn : any -> result any).

(** [Get] answers a value, the others an error. *)
Inductive slot_reply :=
| SValue (v : any)
| SError (err : error).

Definition set_val (v : any) (sl : slot) : slot := mkSlot (sl_mu sl) v.

(** What the methods do between lock and deferred unlock. *)
Definition slot_body (c : slot_call) : steps slot slot_reply :=
  match c with
  | SGet => v ← act (gets sl_val); mret (SValue v)
  | SSet v => act (modify (set_val v));; mret (SError None)
  | SUpdate fn =>
      v ← act (gets sl_val);
      v' ← act (lift (fn v));
      act (modify (set_val v'));;
      mret (SError None)
  end.

Lemma slot_body_keeps c : keeps_held sl_mu (slot_body c).
Proof. by destruct c. Qed.

#[export] Instance slot_guarded : Guarded slot slot_call slot_reply := {|
  held := sl_mu;
  set_held b sl := mkSlot b (sl_val sl);
  critical := slot_body;
  held_set b f := eq_refl;
  critical_keeps := slot_body_keeps |}.

(** ** Specification *)

(** The value a call leaves, and its reply, from the value it finds. *)
Definition slot_value (v : any) (c : slot_call) : any :=
  match c with
  | SGet => v
  | SSet v' => v'
  | SUpdate fn => match fn v with Done v' => v' | _ => v end
  end.

Definition slot_answer (v : any) (c : slot_call) : result slot_reply :=
  match c with
  | SGet => Done (SValue v)
  | SSet _ => Done (SError None)
  | SUpdate fn =>
      match fn v with
      | Done _ => Done (SError None)
      | Panicked p => Panicked p
      | Blocked => Blocked
      end
  end.

Definition values (v : any) (cs : list slot_call) : any := foldl slot_value v cs.

(** ** Lemmas *)

Lemma values_snoc v cs c : values v (cs ++ [c]) = slot_value (values v cs) c.
Proof. unfold values. by rewrite foldl_app. Qed.

Lemma slot_run c v :
  slot_answer v c <> Blocked ->
  run_call c (mkSlot false v) = (slot_answer v c, mkSlot false (slot_value v c)).
Proof.
  destruct c as [|w|fn]; unfold run_call; simpl; [done|done|].
  unfold mbind, SM_bind, lift; simpl. by destruct (fn v).
Qed.

Lemma slot_run_blocked c v :
  slot_answer v c = Blocked -> run_call c (mkSlot false v) = (Blocked, mkSlot true v).
Proof.
  destruct c as [|w|fn]; unfold run_call; simpl; [done|done|].
  unfold mbind, SM_bind, lift; simpl. by destruct (fn v).
Qed.

(** A sequence that leaves the slot free is that of the values. *)
Lemma sequential_slot cs v rs sl :
  sequential cs (mkSlot false v) = (rs, sl) -> sl_mu sl = false ->
  sl = mkSlot false (values v cs) /\
  rs = imap (fun i c => slot_answer (values v (take i cs)) c) cs.
Proof.
  revert rs sl. induction cs as [|c cs IH] using rev_ind; intros rs sl.
  { by intros [= <- <-]. }
  rewrite sequential_snoc. destruct (sequential cs (mkSlot false v)) as [rs1 sl1].
  destruct (run_call c sl1) as [r sl2] eqn:Hc. intros [= <- <-] Hfree.
  assert (sl_mu sl1 = false) as Hsl1.
  { unfold run_call in Hc. simpl in Hc. destruct (sl_mu sl1) eqn:Hm; [|done].
    injection Hc as _ <-. congruence. }
  destruct (IH rs1 sl1 eq_refl Hsl1) as [-> ->].
  assert (slot_answer (values v cs) c <> Blocked) as Hnb.
  { intros Hb. rewrite (slot_run_blocked _ _ Hb) in Hc. injection Hc as _ <-. done. }
  rewrite (slot_run _ _ Hnb) in Hc. injection Hc as <- <-.
  rewrite values_snoc. split; [done|].
  rewrite imap_app. simpl. rewrite Nat.add_0_r, take_app_length. f_equal.
  apply imap_ext. intros i x Hx. apply lookup_lt_Some in Hx. by rewrite take_app_le by lia.
Qed.

(** The calls that have returned replied what they reply one after the other, in the
    order in which they took the mutex. *)
Lemma slot_serializes v ms (cf : conf (S:=slot) (C:=slot_call) (R:=slot_reply)) :
  conf_run ms (alone (mkSlot false v)) = Some cf ->
  exists done holder,
    c_order cf = done ++ option_list holder /\ NoDup (c_order cf).*1 /\
    (forall n c, (n, c) ∈ c_order cf -> (ms ≫= invoked) !! n = Some c) /\
    (forall n a, c_callers cf !! n = Some (Returned a) <->
       exists i c, done !! i = Some (n, c) /\ a = slot_answer (values v (take i done.*2)) c) /\
    (sl_mu (c_st cf) = false ->
       holder = None /\ sl_val (c_st cf) = values v (c_order cf).*2).
Proof.
  intros Hrun.
  destruct (@serializes _ _ _ slot_guarded (mkSlot false v) ms cf eq_refl Hrun)
    as (done & holder & rs & f & Ho & Hnd & Hc & Hseq & Hfree & Hret & Hend & _ & _).
  apply sequential_slot in Hseq as [-> ->]; [|done].
  exists done, holder. split_and!; [exact Ho|exact Hnd|exact Hc|..].
  - intros n a. rewrite Hret. f_equiv. intros i. f_equiv. intros c.
    rewrite list_lookup_imap, list_lookup_fmap. simpl. split.
    + intros [Hd Ha]. split; [done|]. rewrite Hd in Ha. simpl in Ha. by injection Ha as <-.
    + intros [Hd ->]. split; [done|]. by rewrite Hd.
  - intros Hmu. destruct (Hend Hmu) as [-> Hd]. split; [|by rewrite Hd].
    rewrite Ho in Hd. apply (f_equal length) in Hd. rewrite length_app in Hd.
    destruct holder; simpl in Hd; [lia|done].
Qed.

(** ** The methods of [Registry] *)

Definition replied {A} (f : A -> slot_reply) (res : result A) : result slot_reply :=
  match res with
  | Done a => Done (f a)
  | Panicked p => Panicked p
  | Blocked => Blocked
  end.

(** A method call on a reference, as [Registry] has it. *)
Definition ref_call (l : nat) (c : slot_call) (r : registry) : result slot_reply * registry :=
  match c with
  | SGet => let (res, r') := stateRef_Get (mkStateRef l) r in (replied SValue res, r')
  | SSet v => let (res, r') := stateRef_Set (mkStateRef l) v r in (replied SError res, r')
  | SUpdate fn =>
      let (res, r') := stateRef_Update (mkStateRef l) fn r in (replied SError res, r')
  end.

Lemma ref_call_slot l c r v :
  rg_heap r !! l = Some v ->
  ref_call l c r =
    (slot_answer v c, mkRegistry (rg_shapes r) (<[l := slot_value v c]> (rg_heap r))).
Proof.
  intros Hl. destruct r as [sh heap]; simpl in *.
  destruct c as [|w|fn]; unfold ref_call, stateRef_Get, stateRef_Set, stateRef_Update; simpl;
    rewrite Hl; simpl; [|done|destruct (fn v); simpl]; rewrite ?list_insert_id by done; done.
Qed.

(** One call after the other on the registry. *)
Definition ref_calls (l : nat) (cs : list slot_call) (r : registry) : registry :=
  foldl (fun r c => (ref_call l c r).2) r cs.

Lemma ref_calls_slot l cs r v :
  rg_heap r !! l = Some v ->
  ref_calls l cs r = mkRegistry (rg_shapes r) (<[l := values v cs]> (rg_heap r)).
Proof.
  intros Hl. pose proof (lookup_lt_Some _ _ _ Hl) as Hlt.
  unfold ref_calls. induction cs as [|c cs IH] using rev_ind; simpl.
  { rewrite list_insert_id by done. by destruct r. }
  rewrite foldl_app, values_snoc, IH. simpl.
  rewrite (ref_call_slot l c _ (values v cs)) by (simpl; by apply list_lookup_insert_eq).
  simpl. by rewrite list_insert_insert_eq.
Qed.

(** ** Properties *)

(** C25: no update of a slot is lost. Let any number of goroutines get, set and update
    one slot through their references, interleaved at every access to the value and at
    every call of an update function. The calls that have returned, in the order in
    which they took the slot's mutex, replied what the registry's methods reply one
    after the other in this order, each from the value the one before left; once
    nobody is inside the slot holds the value they all leave, every update applied
    once, the panicking ones not at all. The order respects time, and nobody is stuck
    but behind an update function that does not return. *)
Theorem slot_updates_not_lost l r v ms cf :
  rg_heap r !! l = Some v -> conf_run ms (alone (mkSlot false v)) = Some cf ->
  exists done holder,
    c_order cf = done ++ option_list holder /\ NoDup (c_order cf).*1 /\
    (forall n c, (n, c) ∈ c_order cf -> (ms ≫= invoked) !! n = Some c) /\
    (forall n a, c_callers cf !! n = Some (Returned a) <->
       exists i c, done !! i = Some (n, c) /\
         a = (ref_call l c (ref_calls l (take i done.*2) r)).1) /\
    (sl_mu (c_st cf) = false ->
       rg_heap (ref_calls l (c_order cf).*2 r) !! l = Some (sl_val (c_st cf))) /\
    (forall ms1 ms2 cf1, ms = ms1 ++ ms2 -> conf_run ms1 (alone (mkSlot false v)) = Some cf1 ->
       exists later, c_order cf = c_order cf1 ++ later /\
         forall n a, c_callers cf1 !! n = Some (Returned a) -> n ∈ (c_order cf1).*1) /\
    (forall n a, c_callers cf !! n = Some a ->
       (exists a', a = Returned a') \/ (exists n' cf', conf_step (Step n') cf = Some cf') \/
       (exists n' X (m : SM slot X) k,
          c_callers cf !! n' = Some (Inside (Act m k)) /\ (m (c_st cf)).1 = Blocked)).
Proof.
  intros Hl Hrun. pose proof (lookup_lt_Some _ _ _ Hl) as Hlt.
  destruct (slot_serializes v ms cf Hrun) as (done & holder & Ho & Hnd & Hc & Hret & Hend).
  destruct (@serializes _ _ _ slot_guarded (mkSlot false v) ms cf eq_refl Hrun)
    as (_ & _ & _ & _ & _ & _ & _ & _ & _ & _ & _ & Htime & Hgo).
  exists done, holder. split; [exact Ho|]. split; [exact Hnd|]. split; [exact Hc|].
  split; [|split; [|split; [exact Htime|exact Hgo]]].
  - intros n a. rewrite Hret. f_equiv. intros i. f_equiv. intros c.
    rewrite (ref_calls_slot l _ r v Hl).
    by rewrite (ref_call_slot l c _ (values v (take i done.*2)))
      by (simpl; by apply list_lookup_insert_eq).
  - intros Hmu. destruct (Hend Hmu) as [_ ->].
    rewrite (ref_calls_slot l _ r v Hl). simpl. by apply list_lookup_insert_eq.
Qed.

(** ** Witness

    Two updates race and a third caller reads. *)

Definition add (n : Z) : any -> result any := fun v =>
  match v with AInt z => Done (AInt (z + n)) | _ => Panicked (AString "not a count") end.

Definition race_moves : list (move (C:=slot_call)) :=
  [Invoke (SUpdate (add 1)); Invoke (SUpdate (add 10)); Step 1; Step 1; Invoke SGet; Step 1;
   Step 1; Step 1; Step 1] ++ replicate 6 (Step 0) ++ replicate 4 (Step 2).
Definition raced : conf (S:=slot) (C:=slot_call) (R:=slot_reply) :=
  default (alone (mkSlot false (AInt 5))) (conf_run race_moves (alone (mkSlot false (AInt 5)))).

Lemma slot_updates_not_lost_witness :
  sl_val (c_st raced) = AInt 16 /\
  c_callers raced !! 2 = Some (Returned (Done (SValue (AInt 16)))).
Proof.
  destruct (slot_updates_not_lost 0 (mkRegistry ∅ [AInt 5]) (AInt 5) race_moves raced)
    as (done & holder & _ & _ & _ & _ & Hend & _).
  - reflexivity.
  - apply Some_default. vm_compute. reflexivity.
  - split; [|vm_compute; reflexivity].
    assert (sl_mu (c_st raced) = false) as Hmu by (vm_compute; reflexivity).
    specialize (Hend Hmu). vm_compute in Hend. vm_compute. congruence.
Defined.
