(* ===== verification/Shared.v ===== *)
(** * State shared by goroutines (registry.go)

    [ref] and the slots together: goroutines that ask a shape for the slot of an
    entity, allocating it when it is not there, and then call a method on the
    reference, interleaved at every atomic operation of [RegistryConc] and at every
    access of [Slots]. *)

From S2P Require Import Prelude Values StateMonad Mutex Model Registry RegistryConc Slots.

(** ** The code *)

(** A call through a reference: in [ref], with the reference in hand, or caller [n] of
    slot [l]. *)
Inductive phase :=
| Referring (p : pc)
| Holding (l : nat)
| Using (l n : nat).

Record client := mkClient { cl_entity : Entity; cl_call : slot_call; cl_phase : phase }.

Abbreviation slot_conf := (conf (S:=slot) (C:=slot_call) (R:=slot_reply)).

(** The shape, the slots allocated so far with the values they were made with, and the
    clients. *)
Record shared := mkShared {
  sd_shape : shape;
  sd_inits : list any;
  sd_slots : list slot_conf;
  sd_clients : list client }.

Definition start_shared (s : StateShape) : shared := mkShared (newShape s) [] [] [].

Definition fresh_slot (v : any) : slot_conf := alone (mkSlot false v).

Definition set_phase (p : phase) (cl : client) : client :=
  mkClient (cl_entity cl) (cl_call cl) p.
Definition set_slot_conf (l : nat) (cf : slot_conf) (i : nat) (cl : client) (g : shared) : shared :=
  mkShared (sd_shape g) (sd_inits g) (<[l := cf]> (sd_slots g)) (<[i := cl]> (sd_clients g)).

(** What [ref] returns is used; a refused or panicking call ends there. *)
Definition referred (p : pc) : phase :=
  match p with
  | RDone (Done (Some s, None)) => Holding (sr_slot s)
  | _ => Referring p
  end.

Definition client_step (i : nat) (cl : client) (g : shared) : option shared :=
  match cl_phase cl with
  | Referring p =>
      '(sh, heap, p') ← pc_step (cl_entity cl) p (sd_shape g) (sd_inits g);
      Some (mkShared sh heap
              (sd_slots g ++ (fresh_slot <$> drop (length (sd_inits g)) heap))
              (<[i := set_phase (referred p') cl]> (sd_clients g)))
  | Holding l =>
      cf ← sd_slots g !! l;
      cf' ← conf_step (Invoke (cl_call cl)) cf;
      Some (set_slot_conf l cf' i (set_phase (Using l (length (c_callers cf))) cl) g)
  | Using l n =>
      cf ← sd_slots g !! l;
      cf' ← conf_step (Step n) cf;
      Some (set_slot_conf l cf' i cl g)
  end.

Definition reference (cl : client) : option nat :=
  match cl_phase cl with
  | Referring _ => None
  | Holding l | Using l _ => Some l
  end.

Definition add_client (cl : client) (g : shared) : shared :=
  mkShared (sd_shape g) (sd_inits g) (sd_slots g) (sd_clients g ++ [cl]).

(** A goroutine asks for the entity's slot to make a call on it; makes another call
    through a reference that some client has; or goes on. *)
Inductive event :=
| Ask (e : Entity) (c : slot_call)
| Again (i : nat) (c : slot_call)
| Go (i : nat).

Definition shared_step (ev : event) (g : shared) : option shared :=
  match ev with
  | Ask e c => Some (add_client (mkClient e c (Referring RStart)) g)
  | Again i c =>
      cl ← sd_clients g !! i;
      l ← reference cl;
      Some (add_client (mkClient (cl_entity cl) c (Holding l)) g)
  | Go i => cl ← sd_clients g !! i; client_step i cl g
  end.

Fixpoint shared_run (evs : list event) (g : shared) : option shared :=
  match evs with
  | [] => Some g
  | ev :: evs => shared_step ev g ≫= shared_run evs
  end.

(** What a client's call has replied, when it has. *)
Definition reply_of (g : shared) (cl : client) : option (result slot_reply) :=
  match cl_phase cl with
  | Using l n =>
      cf ← sd_slots g !! l;
      a ← c_callers cf !! n;
      match a with Returned r => Some r | _ => None end
  | _ => None
  end.

(** ** [ref] within *)

Definition as_thread (cl : client) : thread :=
  mkThread (cl_entity cl)
    match cl_phase cl with
    | Referring p => p
    | Holding l | Using l _ => RDone (Done (Some (mkStateRef l), None))
    end.
Definition as_conc (g : shared) : conc :=
  mkConc (sd_shape g) (sd_inits g) (as_thread <$> sd_clients g).

Lemma as_thread_referred p cl : as_thread (set_phase (referred p) cl) = mkThread (cl_entity cl) p.
Proof. by destruct p as [| | | | | |[[[[]|] []]| |]]. Qed.

(** A client that has a reference has the slot in the map. *)
Lemma client_slot g i cl l :
  conc_inv (as_conc g) -> sd_clients g !! i = Some cl -> reference cl = Some l ->
  sh_slots (sd_shape g) !! cl_entity cl = Some l /\ l < length (sd_inits g).
Proof.
  intros [_ _ _ Hth Hal] Hi Hl. rewrite Forall_lookup in Hth.
  specialize (Hth i (as_thread cl)). simpl in Hth. rewrite list_lookup_fmap, Hi in Hth.
  specialize (Hth eq_refl). unfold thread_ok, as_thread, reference in *; simpl in *.
  assert (sh_slots (sd_shape g) !! cl_entity cl = Some l) as Hs
    by (destruct (cl_phase cl); simplify_eq; by destruct Hth).
  split; [done|]. by eapply Hal.
Qed.

(** What the clients do to the shape is what [RegistryConc] does. *)
Lemma shared_step_conc ev g g' :
  conc_inv (as_conc g) -> shared_step ev g = Some g' -> rtc cstep (as_conc g) (as_conc g').
Proof.
  intros Hinv. destruct ev as [e c|i c|i]; simpl.
  - intros [= <-]. apply rtc_once. unfold as_conc. simpl. rewrite fmap_app.
    apply (cstep_call (as_conc g)).
  - intros (cl & Hi & (l & Hl & [= <-])%bind_Some)%bind_Some.
    pose proof (client_slot _ _ _ _ Hinv Hi Hl) as [Hs _].
    eapply rtc_l; [apply (cstep_call _ (cl_entity cl))|]. apply rtc_once.
    apply (cstep_run (length (sd_clients g))). unfold thread_step, as_conc; simpl.
    rewrite lookup_app_r, length_fmap, Nat.sub_diag by (by rewrite length_fmap). simpl.
    rewrite Hs, fmap_app. simpl. do 2 f_equal.
    rewrite insert_app_r_alt, length_fmap, Nat.sub_diag by (by rewrite length_fmap). done.
  - intros (cl & Hi & Hstep)%bind_Some. unfold client_step in Hstep.
    destruct (cl_phase cl) as [p|l|l n] eqn:Hp.
    + apply bind_Some in Hstep as ([[sh heap] p'] & Hpc & [= <-]). apply rtc_once.
      apply (cstep_run i). unfold thread_step, as_conc; simpl.
      rewrite list_lookup_fmap, Hi. simpl. rewrite Hp, Hpc.
      by rewrite list_fmap_insert, as_thread_referred.
    + apply bind_Some in Hstep as (cf & _ & [= <-]). unfold as_conc; simpl.
      rewrite list_fmap_insert, list_insert_id; [done|]. rewrite list_lookup_fmap, Hi.
      unfold as_thread; simpl. by rewrite Hp.
    + apply bind_Some in Hstep as (cf & _ & (cf' & _ & [= <-])%bind_Some). unfold as_conc; simpl.
      by rewrite list_fmap_insert, list_insert_id by (by rewrite list_lookup_fmap, Hi).
Qed.

(** ** The slots within *)

(** Slot [l] has run as an object of [Slots] from the value [v] of its factory; its
    callers are clients. *)
Definition slot_ok (cls : list client) (l : nat) (v : any) (cf : slot_conf) : Prop :=
  exists ms owners, conf_run ms (fresh_slot v) = Some cf /\
    Forall2 (fun i c => cl_call <$> cls !! i = Some c) owners (ms ≫= invoked) /\
    forall n i, owners !! n = Some i <-> cl_phase <$> cls !! i = Some (Using l n).

Definition uses (l : nat) (cl : client) : bool :=
  match cl_phase cl with Using l' _ => bool_decide (l = l') | _ => false end.

Lemma uses_Using l cl n : cl_phase cl = Using l n -> uses l cl = true.
Proof. unfold uses. intros ->. by apply bool_decide_true. Qed.

Lemma conf_run_length ms (cf cf' : slot_conf) :
  conf_run ms cf = Some cf' ->
  length (c_callers cf') = length (c_callers cf) + length (ms ≫= invoked).
Proof.
  revert cf. induction ms as [|m ms IH]; intros cf; [intros [= <-]; simpl; lia|].
  intros (cf1 & Hm & Hrun)%bind_Some. rewrite bind_cons, length_app, (IH _ Hrun).
  destruct m as [c|n]; simpl in Hm; [injection Hm as <-; simpl; rewrite length_app; simpl; lia|].
  apply bind_Some in Hm as (a & Ha & Hm). simpl.
  enough (length (c_callers cf1) = length (c_callers cf)) by lia.
  destruct a as [c|[r|X act k]|r|r]; simpl in Hm; repeat case_match; simplify_eq/=;
    by rewrite ?length_insert.
Qed.

Lemma conf_run_snoc ms m (cf0 cf cf' : slot_conf) :
  conf_run ms cf0 = Some cf -> conf_step m cf = Some cf' -> conf_run (ms ++ [m]) cf0 = Some cf'.
Proof. intros Hrun Hm. rewrite conf_run_app, Hrun. cbn [mbind option_bind conf_run]. by rewrite Hm. Qed.

Lemma slot_ok_snoc cls cl l v cf :
  uses l cl = false -> slot_ok cls l v cf -> slot_ok (cls ++ [cl]) l v cf.
Proof.
  intros Hu (ms & owners & Hrun & Hcalls & Hown). exists ms, owners. split; [done|]. split.
  - eapply Forall2_impl; [exact Hcalls|]. intros i c (cl' & Hi & ->)%fmap_Some.
    by rewrite (lookup_app_l_Some _ _ _ _ Hi).
  - intros n i. rewrite Hown, !fmap_Some. split; intros (cl' & Hi & Hp); exists cl'.
    + by rewrite (lookup_app_l_Some _ _ _ _ Hi).
    + apply lookup_app_Some in Hi as [Hi|[_ Hi]]; [done|].
      apply list_lookup_singleton_Some in Hi as [_ <-]. symmetry in Hp.
      apply uses_Using in Hp. congruence.
Qed.

(** A client that has nothing to do with slot [l] moves. *)
Lemma slot_ok_insert cls i cl cl' l v cf :
  cls !! i = Some cl -> cl_call cl' = cl_call cl -> uses l cl = false -> uses l cl' = false ->
  slot_ok cls l v cf -> slot_ok (<[i := cl']> cls) l v cf.
Proof.
  intros Hi Hc Hu Hu' (ms & owners & Hrun & Hcalls & Hown). exists ms, owners. split; [done|].
  split.
  - eapply Forall2_impl; [exact Hcalls|]. simpl. intros j c Hj. destruct (decide (i = j)) as [->|Hne].
    + rewrite list_lookup_insert_eq by (by eapply lookup_lt_Some). rewrite Hi in Hj.
      simpl in *. by rewrite Hc.
    + by rewrite list_lookup_insert_ne.
  - intros n j. rewrite Hown. destruct (decide (i = j)) as [->|Hne].
    + rewrite list_lookup_insert_eq by (by eapply lookup_lt_Some). rewrite Hi. simpl.
      split; intros [= Hp%uses_Using]; congruence.
    + by rewrite list_lookup_insert_ne.
Qed.

(** A client calls. *)
Lemma slot_ok_invoke cls i cl l v cf cf' :
  cls !! i = Some cl -> uses l cl = false ->
  conf_step (Invoke (cl_call cl)) cf = Some cf' -> slot_ok cls l v cf ->
  slot_ok (<[i := set_phase (Using l (length (c_callers cf))) cl]> cls) l v cf'.
Proof.
  intros Hi Hu Hstep (ms & owners & Hrun & Hcalls & Hown).
  pose proof (lookup_lt_Some _ _ _ Hi) as Hlt.
  assert (length (c_callers cf) = length owners) as ->
    by (rewrite (conf_run_length _ _ _ Hrun); symmetry; by eapply Forall2_length).
  exists (ms ++ [Invoke (cl_call cl)]), (owners ++ [i]). split_and!.
  - by eapply conf_run_snoc.
  - rewrite bind_app. apply Forall2_app.
    + eapply Forall2_impl; [exact Hcalls|]. simpl. intros j c Hj. destruct (decide (i = j)) as [->|Hne].
      * rewrite list_lookup_insert_eq by done. by rewrite Hi in Hj.
      * by rewrite list_lookup_insert_ne.
    + constructor; [|done]. by rewrite list_lookup_insert_eq.
  - intros n j. rewrite lookup_app_Some, list_lookup_singleton_Some, Hown.
    destruct (decide (i = j)) as [->|Hne].
    + rewrite list_lookup_insert_eq, Hi by done. simpl. split.
      * intros [[= Hp%uses_Using]|[Hge [Hn _]]]; [congruence|]. do 2 f_equal. lia.
      * intros [= <-]. right. split_and!; [done|lia|done].
    + rewrite list_lookup_insert_ne by done. split; [|by left]. by intros [?|(_ & _ & ?)].
Qed.

Lemma slot_ok_step cls l v (cf cf' : slot_conf) n :
  conf_step (Step n) cf = Some cf' -> slot_ok cls l v cf -> slot_ok cls l v cf'.
Proof.
  intros Hstep (ms & owners & Hrun & Hcalls & Hown). exists (ms ++ [Step n]), owners.
  split; [|split; [|done]].
  - by eapply conf_run_snoc.
  - by rewrite bind_app, app_nil_r.
Qed.

(** ** The invariant *)

(** A value the shape's factory has made. *)
Definition made (s : StateShape) (v : any) : Prop :=
  exists k, call_factory (ss_Factory s) k = Done v.

Record sound (s : StateShape) (g : shared) : Prop := {
  sd_conc : rtc cstep (conc_init s) (as_conc g);
  sd_factory : sh_factory (sd_shape g) = ss_Factory s;
  sd_made : Forall (made s) (sd_inits g);
  sd_length : length (sd_slots g) = length (sd_inits g);
  sd_ok l v cf : sd_inits g !! l = Some v -> sd_slots g !! l = Some cf ->
    slot_ok (sd_clients g) l v cf }.

Lemma pc_step_heap e p sh heap sh' heap' p' :
  pc_step e p sh heap = Some (sh', heap', p') ->
  sh_factory sh' = sh_factory sh /\
  exists vs, heap' = heap ++ vs /\
    Forall (fun v => exists k, call_factory (sh_factory sh) k = Done v) vs.
Proof.
  assert (exists vs, heap = heap ++ vs /\
    Forall (fun v => exists k, call_factory (sh_factory sh) k = Done v) vs) as Hsame
    by (exists []; split; [by rewrite app_nil_r|constructor]).
  destruct p; simpl; repeat case_match; intros; simplify_eq/=; split; try done.
  eexists [_]. split; [done|]. constructor; [by eexists|constructor].
Qed.

Lemma not_using_referred l p cl : uses l (set_phase (referred p) cl) = false.
Proof. by destruct p as [| | | | | |[[[[]|] []]| |]]. Qed.

(** A slot that has just been allocated has no callers. *)
Lemma slot_ok_fresh cls l v :
  (forall i cl, cls !! i = Some cl -> uses l cl = false) -> slot_ok cls l v (fresh_slot v).
Proof.
  intros Hnone. exists [], []. split_and!; [done|constructor|]. intros n i.
  split; [by rewrite lookup_nil|]. intros (cl & Hi & Hp)%fmap_Some. symmetry in Hp.
  apply uses_Using in Hp. rewrite (Hnone i cl Hi) in Hp. done.
Qed.

Lemma reference_uses l cl : reference cl <> Some l -> uses l cl = false.
Proof.
  unfold reference, uses. destruct (cl_phase cl); try done. intros Hne.
  apply bool_decide_false. congruence.
Qed.

Lemma refer_sound s g i cl p sh heap p' :
  conc_inv (as_conc g) -> sd_clients g !! i = Some cl -> cl_phase cl = Referring p ->
  pc_step (cl_entity cl) p (sd_shape g) (sd_inits g) = Some (sh, heap, p') ->
  sound s g ->
  let g' := mkShared sh heap (sd_slots g ++ (fresh_slot <$> drop (length (sd_inits g)) heap))
    (<[i := set_phase (referred p') cl]> (sd_clients g)) in
  rtc cstep (as_conc g) (as_conc g') -> sound s g'.
Proof.
  intros Hinv Hi Hp Hpc [Hconc Hfac Hmade Hlen Hok] g' Hrtc.
  apply pc_step_heap in Hpc as (Hf & vs & -> & Hvs). unfold g'. rewrite drop_app_length.
  split; simpl.
  - etransitivity; [exact Hconc|]. unfold g' in Hrtc. by rewrite drop_app_length in Hrtc.
  - congruence.
  - apply Forall_app_2; [done|]. eapply Forall_impl; [exact Hvs|].
    intros v [k Hk]. exists k. congruence.
  - by rewrite !length_app, length_fmap, Hlen.
  - intros l v cf Hv Hcf. assert (uses l cl = false) as Hu by (unfold uses; by rewrite Hp).
    apply (slot_ok_insert _ _ cl); [done|done|done|apply not_using_referred|].
    apply lookup_app_Some in Hv as [Hv|[Hge Hv]].
    + apply (Hok l v); [done|]. rewrite lookup_app_l in Hcf; [done|].
      rewrite Hlen. by eapply lookup_lt_Some.
    + rewrite lookup_app_r, Hlen, list_lookup_fmap, Hv in Hcf by lia. injection Hcf as <-.
      apply slot_ok_fresh. intros j cl' Hj. apply reference_uses. intros Hr.
      destruct (client_slot g j cl' l Hinv Hj Hr). lia.
Qed.

(** A move of a client of slot [l] leaves the others alone. *)
Lemma set_slot_sound s g i cl cl' l cf' :
  sd_clients g !! i = Some cl -> cl_call cl' = cl_call cl ->
  (forall l', l' <> l -> uses l' cl = false /\ uses l' cl' = false) ->
  (forall v cf, sd_slots g !! l = Some cf -> slot_ok (sd_clients g) l v cf ->
     slot_ok (<[i := cl']> (sd_clients g)) l v cf') ->
  rtc cstep (as_conc g) (as_conc (set_slot_conf l cf' i cl' g)) ->
  sound s g -> sound s (set_slot_conf l cf' i cl' g).
Proof.
  intros Hi Hc Hu Hnew Hrtc [Hconc Hfac Hmade Hlen Hok]. split; simpl; try done.
  - by etransitivity.
  - by rewrite length_insert.
  - intros l' v cf Hv [(<- & <- & Hlt)|[Hne Hcf]]%list_lookup_insert_Some.
    + apply lookup_lt_is_Some_2 in Hlt as [cf0 Hcf0]. eapply Hnew; [done|]. by apply Hok.
    + destruct (Hu l' ltac:(done)). eapply slot_ok_insert; [done..|]. by apply Hok.
Qed.

Lemma shared_step_sound s ev g g' :
  conc_inv (as_conc g) -> sound s g -> shared_step ev g = Some g' -> sound s g'.
Proof.
  intros Hinv Hs Hstep. pose proof (shared_step_conc _ _ _ Hinv Hstep) as Hrtc.
  assert (forall cl, (forall l, uses l cl = false) -> rtc cstep (as_conc g) (as_conc (add_client cl g)) ->
    sound s (add_client cl g)) as Hadd.
  { intros cl Hu Hr. destruct Hs as [Hconc Hfac Hmade Hlen Hok]. split; simpl; try done.
    - by etransitivity.
    - intros l v cf Hv Hcf. apply slot_ok_snoc; [done|by apply Hok]. }
  destruct ev as [e c|i c|i]; simpl in Hstep.
  - injection Hstep as <-. by apply Hadd.
  - apply bind_Some in Hstep as (cl & Hi & (l & Hl & [= <-])%bind_Some). by apply Hadd.
  - apply bind_Some in Hstep as (cl & Hi & Hstep). unfold client_step in Hstep.
    destruct (cl_phase cl) as [p|l|l n] eqn:Hp.
    + apply bind_Some in Hstep as ([[sh heap] p'] & Hpc & [= <-]). by eapply refer_sound.
    + apply bind_Some in Hstep as (cf & Hcf & (cf' & Hcf' & [= <-])%bind_Some).
      assert (forall l', uses l' cl = false) as Hu by (intros l'; unfold uses; by rewrite Hp).
      apply (set_slot_sound _ _ _ cl); try done.
      * intros l' Hne. split; [done|]. unfold uses. by apply bool_decide_false.
      * intros v cf1 Hcf1 Hok. rewrite Hcf in Hcf1. injection Hcf1 as <-.
        by eapply slot_ok_invoke.
    + apply bind_Some in Hstep as (cf & Hcf & (cf' & Hcf' & [= <-])%bind_Some).
      apply (set_slot_sound _ _ _ cl); try done.
      * intros l' Hne. unfold uses. rewrite Hp. by split; apply bool_decide_false.
      * intros v cf1 Hcf1 Hok. rewrite Hcf in Hcf1. injection Hcf1 as <-.
        rewrite list_insert_id by done. by eapply slot_ok_step.
Qed.

Lemma shared_run_sound s evs g :
  (0 < ss_Cap s)%Z -> is_int64 (ss_Cap s) -> shared_run evs (start_shared s) = Some g -> sound s g.
Proof.
  intros Hpos Hint.
  assert (sound s (start_shared s)) as Hs by (split; simpl; [done|done|constructor|done|done]).
  revert Hs. generalize (start_shared s). induction evs as [|ev evs IH]; simpl; intros g0 Hs.
  { by intros [= <-]. }
  intros (g1 & Hstep & Hrun)%bind_Some. eapply IH; [|exact Hrun].
  eapply shared_step_sound; [|exact Hs|exact Hstep]. by eapply reachable_inv, sd_conc.
Qed.

(** ** Clients of one entity *)

Section Entity.
Context (s : StateShape) (g : shared) (e : Entity) (l : nat) (cf : slot_conf).
Context (Hinv : conc_inv (as_conc g)) (Hap : apart (as_conc g)).
Context (Hslot : sh_slots (sd_shape g) !! e = Some l) (Hcf : sd_slots g !! l = Some cf).

(** The clients of the entity are the users of its slot. *)
Lemma client_entity i cl : sd_clients g !! i = Some cl -> reference cl = Some l -> cl_entity cl = e.
Proof.
  intros Hi Hr. destruct (client_slot g i cl l Hinv Hi Hr) as [Hs _]. by eapply (ap_map _ Hap).
Qed.

Lemma entity_reference i cl l' :
  sd_clients g !! i = Some cl -> cl_entity cl = e -> reference cl = Some l' -> l' = l.
Proof.
  intros Hi He Hr. destruct (client_slot g i cl l' Hinv Hi Hr) as [Hs _]. congruence.
Qed.

Context (ms : list (move (C:=slot_call))) (owners : list nat).
Context (Hcalls : Forall2 (fun i c => cl_call <$> sd_clients g !! i = Some c) owners
  (ms ≫= invoked)).
Context (Hown : forall n i, owners !! n = Some i <->
  cl_phase <$> sd_clients g !! i = Some (Using l n)).
Context (Horder : forall n c, (n, c) ∈ c_order cf -> (ms ≫= invoked) !! n = Some c).

Definition owner (p : nat * slot_call) : nat * slot_call := (default 0 (owners !! p.1), p.2).

Lemma owner_client n c :
  (n, c) ∈ c_order cf -> owners !! n = Some (owner (n, c)).1 /\
  exists cl, sd_clients g !! (owner (n, c)).1 = Some cl /\ cl_call cl = c /\ cl_phase cl = Using l n.
Proof.
  intros Hn%Horder. rewrite Forall2_lookup in Hcalls. specialize (Hcalls n). rewrite Hn in Hcalls.
  inversion Hcalls as [i c' (cl & Hi & ->)%fmap_Some Ho|]; subst.
  unfold owner; simpl. rewrite <- Ho. simpl. split; [done|]. exists cl. split_and!; [done..|].
  symmetry in Ho. apply Hown in Ho. rewrite Hi in Ho. by injection Ho.
Qed.

Lemma owner_nodup : NoDup (c_order cf).*1 -> NoDup (owner <$> c_order cf).*1.
Proof.
  intros Hnd. rewrite <- list_fmap_compose.
  assert ((fst ∘ owner) <$> c_order cf = (fun n => default 0 (owners !! n)) <$> (c_order cf).*1) as ->
    by (by rewrite <- list_fmap_compose).
  apply NoDup_fmap_2_strong; [|done].
  intros n m [[n' c] [-> Hn]]%list_elem_of_fmap [[m' c'] [-> Hm]]%list_elem_of_fmap Heq.
  apply owner_client in Hn as (_ & cl & Hi & _ & Hp), Hm as (_ & cl' & Hi' & _ & Hp').
  unfold owner in *; simpl in *. rewrite Heq in Hi. congruence.
Qed.

Lemma owner_calls i c :
  (i, c) ∈ owner <$> c_order cf ->
  exists cl, sd_clients g !! i = Some cl /\ cl_entity cl = e /\ cl_call cl = c.
Proof.
  intros ([n c'] & Heq & Hn)%list_elem_of_fmap.
  apply owner_client in Hn as (_ & cl & Hi & Hc & Hp). rewrite <- Heq in Hi. simpl in Hi.
  injection Heq as _ ->. exists cl. split_and!; [done| |done].
  eapply client_entity; [done|]. unfold reference. by rewrite Hp.
Qed.

(** A call has replied when it is among the finished ones. *)
Lemma owner_replies done holder (answer : nat -> slot_call -> result slot_reply) i cl a :
  c_order cf = done ++ option_list holder ->
  (forall n a, c_callers cf !! n = Some (Returned a) <->
     exists j c, done !! j = Some (n, c) /\ a = answer j c) ->
  sd_clients g !! i = Some cl -> cl_entity cl = e ->
  reply_of g cl = Some a <-> exists j c, (owner <$> done) !! j = Some (i, c) /\ a = answer j c.
Proof.
  intros Ho Hret Hi He.
  assert (forall j c, (owner <$> done) !! j = Some (i, c) ->
    exists n, done !! j = Some (n, c) /\ cl_phase cl = Using l n) as Hdone.
  { intros j c ([n c'] & Heq & Hj)%list_lookup_fmap_Some.
    unfold owner in Heq; simpl in Heq. injection Heq as Hi' ->.
    exists n. split; [done|]. assert ((n, c') ∈ c_order cf) as Hn
      by (rewrite Ho; apply elem_of_app; left; by eapply list_elem_of_lookup_2).
    apply owner_client in Hn as (_ & cl' & Hcl & _ & Hp). unfold owner in Hcl; simpl in Hcl.
    congruence. }
  unfold reply_of. destruct (cl_phase cl) as [p|l'|l' n] eqn:Hp;
    [split; [done|intros (j & c & Hj & _); by apply Hdone in Hj as (? & _ & ?)]..|].
  assert (l' = l) as -> by (eapply entity_reference; [done..|]; unfold reference; by rewrite Hp).
  rewrite Hcf. simpl.
  transitivity (c_callers cf !! n = Some (Returned a)).
  { destruct (c_callers cf !! n) as [[]|]; simpl; split; intros; simplify_eq; done. }
  rewrite Hret. split; intros (j & c & Hj & ->); exists j, c; (split; [|done]).
  - rewrite list_lookup_fmap, Hj. simpl. unfold owner; simpl.
    by rewrite (proj2 (Hown n i)) by (rewrite Hi; simpl; by rewrite Hp).
  - apply Hdone in Hj as (m & Hj & [= ->]). done.
Qed.

End Entity.

(** ** Properties *)

(** C24: the state of an entity is the fold of its updates. Let any number of goroutines
    ask a shape for entities' slots, allocating them in races, and get, set and update
    through the references, repeatedly and through references handed on, interleaved at
    every atomic operation of [ref], every access to a slot and every call of an update
    function. The calls of the clients of one entity that have taken its slot's mutex
    are, in this order, one after the other from one value of the factory: each that has
    returned replied what it does from the value the one before left, and when nobody is
    inside the slot holds the value they all leave. So no call is lost to a slot that
    lost the race for the map, none reaches another entity, and none runs twice. *)
Theorem entity_updates_not_lost s evs g e l :
  (0 < ss_Cap s)%Z -> is_int64 (ss_Cap s) -> shared_run evs (start_shared s) = Some g ->
  sh_slots (sd_shape g) !! e = Some l ->
  exists v0 cf done holder, made s v0 /\ sd_slots g !! l = Some cf /\
    let order := done ++ option_list holder in
    NoDup order.*1 /\
    (forall i c, (i, c) ∈ order ->
       exists cl, sd_clients g !! i = Some cl /\ cl_entity cl = e /\ cl_call cl = c) /\
    (forall i cl a, sd_clients g !! i = Some cl -> cl_entity cl = e ->
       reply_of g cl = Some a <->
       exists j c, done !! j = Some (i, c) /\ a = slot_answer (values v0 (take j done.*2)) c) /\
    (sl_mu (c_st cf) = false ->
       holder = None /\ sl_val (c_st cf) = values v0 order.*2).
Proof.
  intros Hpos Hint Hrun Hslot.
  destruct (shared_run_sound s evs g Hpos Hint Hrun) as [Hconc _ Hmade Hlen Hok].
  pose proof (reachable_inv _ _ Hpos Hint Hconc) as Hinv.
  pose proof (reachable_apart _ _ Hpos Hint Hconc) as Hap.
  pose proof (ci_alloc _ Hinv _ _ Hslot) as Hlt. simpl in Hlt.
  destruct (lookup_lt_is_Some_2 _ _ Hlt) as [v0 Hv0].
  rewrite <- Hlen in Hlt. destruct (lookup_lt_is_Some_2 _ _ Hlt) as [cf Hcf].
  destruct (Hok l v0 cf Hv0 Hcf) as (ms & owners & Hms & Hcalls & Hown).
  destruct (slot_serializes v0 ms cf Hms) as (done & holder & Ho & Hnd & Horder & Hret & Hend).
  set (who := owner owners).
  assert ((who <$> done) ++ option_list (who <$> holder) = who <$> c_order cf) as Hwho
    by (rewrite Ho, fmap_app; by destruct holder).
  assert (forall cs : list (nat * slot_call), (who <$> cs).*2 = cs.*2) as Hsnd
    by (intros cs; by rewrite <- list_fmap_compose).
  exists v0, cf, (who <$> done), (who <$> holder). cbv zeta. rewrite Hwho. split_and!.
  - rewrite Forall_lookup in Hmade. by eapply Hmade.
  - done.
  - by eapply owner_nodup.
  - intros i c. by eapply owner_calls.
  - intros i cl a Hi He.
    rewrite (owner_replies g e l cf Hinv Hslot Hcf ms owners Hcalls Hown Horder done holder
      (fun j c => slot_answer (values v0 (take j done.*2)) c)) by done.
    by rewrite Hsnd.
  - intros Hmu. destruct (Hend Hmu) as [-> ->]. by rewrite Hsnd.
Qed.

(** ** Witness

    Two goroutines allocate the slot of one entity in a race, the loser's slot is
    dropped, and both update the winner's; a third call reads through a reference. *)

Definition mood : StateShape := mkStateShape "mood" (Some (fun _ => Done (AInt 5))) 3.
Definition race_events : list event :=
  [Ask "ann" (SUpdate (add 1)); Ask "ann" (SUpdate (add 10))] ++
  (Go <$> [0; 1; 0; 1; 0; 1; 1; 1; 0; 1; 1; 0; 0]) ++
  (Go <$> [0; 1; 0; 0; 0; 0; 0; 0; 1; 1; 1; 1; 1; 1]) ++ Again 0 SGet :: (Go <$> [2; 2; 2; 2; 2]).
Definition raced_state : shared :=
  default (start_shared mood) (shared_run race_events (start_shared mood)).

Lemma entity_updates_not_lost_witness :
  reply_of raced_state (mkClient "ann" SGet (Using 1 2)) = Some (Done (SValue (AInt 16))) /\
  exists v0 cf, made mood v0 /\ sd_slots raced_state !! 1 = Some cf /\ sl_val (c_st cf) = AInt 16.
Proof.
  split; [vm_compute; reflexivity|].
  destruct (entity_updates_not_lost mood race_events raced_state "ann" 1)
    as (v0 & cf & done & holder & Hm & Hcf & _).
  - reflexivity.
  - vm_compute. split; congruence.
  - apply Some_default. vm_compute. reflexivity.
  - vm_compute. reflexivity.
  - exists v0, cf. split; [exact Hm|]. split; [exact Hcf|].
    vm_compute in Hcf. injection Hcf as <-. reflexivity.
Defined.
