(* ===== verification/Instants.v ===== *)
(** * Instants: Go's [time.Time] and its RFC 3339 text

    The part of package [time] the durable tier uses: the difference of two wall
    clocks, [Format] and [Parse] with the layout [RFC3339Nano], and the stricter
    encoding [MarshalJSON] makes of it. An instant is its nanoseconds since the
    Unix epoch with the offset of its location in seconds; the calendar is the
    proleptic Gregorian one. *)

From S2P Require Import Prelude Values.
From stdpp Require Import pretty.
From Stdlib Require Import Ascii.

Local Open Scope Z_scope.

Record gotime := mkTime {
  tm_nano : Z;
  tm_offset : Z }.

(** [t.UTC()]: the same instant. *)
Definition Time_UTC (t : gotime) : gotime := mkTime (tm_nano t) 0.

(** [t.Sub(u)] between wall clocks: the difference, saturated. *)
Definition Time_Sub (t u : gotime) : Duration :=
  Z.max int64_min (Z.min int64_max (tm_nano t - tm_nano u)).

(** ** The calendar

    Years counted from 1 March, so that a leap day ends its year; days counted
    from 1 March of year 0. [marches y] is the first day of year [y]. *)

Definition marches (y : Z) : Z := 365 * y + y / 4 - y / 100 + y / 400.

Definition is_leap (y : Z) : bool :=
  (y mod 4 =? 0) && (negb (y mod 100 =? 0) || (y mod 400 =? 0)).

(** The days of a month. *)
Definition daysIn (m y : Z) : Z :=
  if m =? 2 then (if is_leap y then 29 else 28)
  else if (m =? 4) || (m =? 6) || (m =? 9) || (m =? 11) then 30 else 31.

(** The year of a day: the estimate from the mean year is off by at most one. *)
Definition march_year (z : Z) : Z :=
  let y := 400 * z / 146097 in
  if z <? marches y then y - 1
  else if marches (y + 1) <=? z then y + 1 else y.

(** Months of the year that starts in March, from 0; the first day of each. *)
Definition month_start (mp : Z) : Z := (153 * mp + 2) / 5.
Definition month_at (doy : Z) : Z := (5 * doy + 2) / 153.

(** 1 January 1970 is day 719468. *)
Definition civil (day : Z) : Z * Z * Z :=
  let z := day + 719468 in
  let y := march_year z in
  let doy := z - marches y in
  let mp := month_at doy in
  let m := if mp <? 10 then mp + 3 else mp - 9 in
  (if m <=? 2 then y + 1 else y, m, doy - month_start mp + 1).

Definition days_of_civil (y m d : Z) : Z :=
  let y' := if m <=? 2 then y - 1 else y in
  let mp := if m <=? 2 then m + 9 else m - 3 in
  marches y' + month_start mp + (d - 1) - 719468.

Example civil_epoch : civil 0 = (1970, 1, 1). Proof. reflexivity. Qed.
Example civil_leap : civil 11016 = (2000, 2, 29). Proof. reflexivity. Qed.
Example civil_zero : civil (-719162) = (1, 1, 1). Proof. reflexivity. Qed.

(** [Date(y, m, d, hour, min, sec, nsec, UTC)], in nanoseconds. *)
Definition Date (y m d hour min sec nsec : Z) : Z :=
  (days_of_civil y m d * 86400 + hour * 3600 + min * 60 + sec) * Second + nsec.

(** ** Decimal fields *)

Definition utod (d : Z) : ascii := ascii_of_N (Z.to_N (48 + d)).

Definition undigit (c : ascii) : option Z :=
  let n := Z.of_N (N_of_ascii c) in
  if (48 <=? n) && (n <=? 57) then Some (n - 48) else None.

Fixpoint zeros (n : nat) : string :=
  match n with O => "" | S n => String "0" (zeros n) end.

(** [appendInt]: [x] in decimal, padded with zeros to [width]. *)
Definition appendInt (x : Z) (width : nat) : string :=
  let u := Z.abs x in
  (if x <? 0 then "-" else "") +:+
  match width with
  | 2%nat => if u <? 100 then String (utod (u / 10)) (String (utod (u mod 10)) "")
             else pretty u
  | 4%nat => if u <? 10000
             then String (utod (u / 1000)) (String (utod (u / 100 mod 10))
                    (String (utod (u / 10 mod 10)) (String (utod (u mod 10)) "")))
             else pretty u
  | _ => let s := pretty u in zeros (width - String.length s) +:+ s
  end.

(** [appendNano] with trimming: the [n] decimal digits of a fraction [v], most
    significant first, without the zeros at the end. *)
Fixpoint frac_text (n : nat) (v : Z) : string :=
  match n with
  | O => ""
  | S n => if v =? 0 then ""
           else String (utod (v / 10 ^ Z.of_nat n)) (frac_text n (v mod 10 ^ Z.of_nat n))
  end.
Definition appendNano (nsec : Z) : string :=
  if nsec =? 0 then "" else "." +:+ frac_text 9 nsec.

(** ** [Format(RFC3339Nano)] *)

Definition format_zone (offset : Z) : string :=
  if offset =? 0 then "Z"
  else
    let zone := Z.quot offset 60 in
    (if zone <? 0 then "-" else "+") +:+
    appendInt (Z.abs zone / 60) 2 +:+ ":" +:+ appendInt (Z.abs zone mod 60) 2.

Definition wall_secs (t : gotime) : Z := tm_nano t / Second + tm_offset t.

Definition Time_Year (t : gotime) : Z :=
  let '(year, _, _) := civil (wall_secs t / 86400) in year.

Definition Format_RFC3339Nano (t : gotime) : string :=
  let '(year, month, day) := civil (wall_secs t / 86400) in
  let s := wall_secs t mod 86400 in
  appendInt year 4 +:+ "-" +:+ appendInt month 2 +:+ "-" +:+ appendInt day 2 +:+ "T" +:+
  appendInt (s / 3600) 2 +:+ ":" +:+ appendInt (s mod 3600 / 60) 2 +:+ ":" +:+
  appendInt (s mod 60) 2 +:+
  appendNano (tm_nano t mod Second) +:+ format_zone (tm_offset t).

Example Format_example :
  Format_RFC3339Nano (mkTime 1785067200250000000 0) = "2026-07-26T12:00:00.25Z".
Proof. vm_compute. reflexivity. Qed.
Example Format_example_zone :
  Format_RFC3339Nano (mkTime 1785067200000000000 (-12600)) = "2026-07-26T08:30:00-03:30".
Proof. vm_compute. reflexivity. Qed.
Example Format_example_early :
  Format_RFC3339Nano (mkTime (-62167219200000000001) 0) = "-0001-12-31T23:59:59.999999999Z".
Proof. vm_compute. reflexivity. Qed.

(** ** [Parse(RFC3339Nano)] *)

Definition slice (s : string) (i j : nat) : string := String.substring i (j - i) s.
Definition from (s : string) (i : nat) : string := String.substring i (String.length s - i) s.
Definition is_at (c : ascii) (s : string) (i : nat) : bool :=
  match String.get i s with Some c' => Ascii.eqb c' c | None => false end.

Fixpoint decimal (acc : Z) (s : string) : option Z :=
  match s with
  | EmptyString => Some acc
  | String c s => d ← undigit c; decimal (acc * 10 + d) s
  end.

(** The helper of the same name in [parseRFC3339]: digits only, within bounds. *)
Definition parseUint (s : string) (min max : Z) : option Z :=
  x ← decimal 0 s; if (x <? min) || (max <? x) then None else Some x.

(** The run of digits a string starts with, and what follows. *)
Fixpoint span_digits (s : string) : list Z * string :=
  match s with
  | String c s' =>
      match undigit c with
      | Some d => let '(ds, r) := span_digits s' in (d :: ds, r)
      | None => ([], s)
      end
  | EmptyString => ([], s)
  end.

(** [parseNanoseconds]: the first nine digits of a fraction, in nanoseconds. *)
Fixpoint frac_value (n : nat) (ds : list Z) : Z :=
  match n, ds with
  | S n, d :: ds => d * 10 ^ Z.of_nat n + frac_value n ds
  | _, _ => 0
  end.
Definition parseFraction (s : string) : Z * string :=
  match s with
  | String "." s' =>
      match span_digits s' with
      | ([], _) => (0, s)
      | (ds, r) => (frac_value 9 ds, r)
      end
  | _ => (0, s)
  end.

(** The zone: the offset in seconds. *)
Definition parse_zone (s : string) : option Z :=
  if String.eqb s "Z" then Some 0
  else if negb (String.length s =? 6)%nat then None
  else
    hr ← parseUint (slice s 1 3) 0 23;
    mm ← parseUint (slice s 4 6) 0 59;
    if (is_at "-" s 0 || is_at "+" s 0) && is_at ":" s 3
    then let zoneOffset := (hr * 60 + mm) * 60 in
         Some (if is_at "-" s 0 then - zoneOffset else zoneOffset)
    else None.

(** The fast path, [parseRFC3339]. *)
Definition parseRFC3339 (s : string) : option gotime :=
  if (String.length s <? 19)%nat then None
  else
    year ← parseUint (slice s 0 4) 0 9999;
    month ← parseUint (slice s 5 7) 1 12;
    day ← parseUint (slice s 8 10) 1 (daysIn month year);
    hour ← parseUint (slice s 11 13) 0 23;
    min ← parseUint (slice s 14 16) 0 59;
    sec ← parseUint (slice s 17 19) 0 59;
    if negb (is_at "-" s 4 && is_at "-" s 7 && is_at "T" s 10 && is_at ":" s 13 && is_at ":" s 16)
    then None
    else
      let '(nsec, s) := parseFraction (from s 19) in
      off ← parse_zone s;
      Some (mkTime (Date year month day hour min sec nsec - off * Second) off).

(** *** The path for any layout, at this layout

    [getnum]: one or two digits; one only where [fixed] is false. *)
Definition getnum (s : string) (fixed : bool) : option (Z * string) :=
  match s with
  | String c s1 =>
      d ← undigit c;
      match s1 with
      | String c' s2 =>
          match undigit c' with
          | Some d' => Some (d * 10 + d', s2)
          | None => if fixed then None else Some (d, s1)
          end
      | EmptyString => if fixed then None else Some (d, s1)
      end
  | EmptyString => None
  end.

Definition skip (c : ascii) (s : string) : option string :=
  match s with
  | String c' s => if Ascii.eqb c' c then Some s else None
  | EmptyString => None
  end.

(** A fraction may also start with a comma here. *)
Definition layout_fraction (s : string) : Z * string :=
  match s with
  | String "," s' => let '(n, r) := parseFraction (String "." s') in
                     if String.eqb r (String "." s') then (0, s) else (n, r)
  | _ => parseFraction s
  end.

(** The zone of a layout is sliced, and two digits each may say up to 24 hours and
    60 minutes. *)
Definition layout_zone (s : string) : option (Z * string) :=
  match s with
  | String "Z" s => Some (0, s)
  | _ =>
      if (String.length s <? 6)%nat || negb (is_at ":" s 3) then None
      else
        '(hr, _) ← getnum (slice s 1 3) true;
        '(mm, _) ← getnum (slice s 4 6) true;
        if (24 <? hr) || (60 <? mm) then None
        else if is_at "+" s 0 then Some ((hr * 60 + mm) * 60, from s 6)
        else if is_at "-" s 0 then Some (- ((hr * 60 + mm) * 60), from s 6)
        else None
  end.

Definition within (lo hi : Z) (p : Z * string) : option (Z * string) :=
  if (p.1 <? lo) || (hi <? p.1) then None else Some p.

Definition parse_layout (s : string) : option gotime :=
  if (String.length s <? 4)%nat then None
  else
    year ← parseUint (slice s 0 4) 0 9999;
    s ← skip "-" (from s 4);
    '(month, s) ← getnum s true ≫= within 1 12;
    s ← skip "-" s;
    '(day, s) ← getnum s true;
    s ← skip "T" s;
    '(hour, s) ← getnum s false ≫= within 0 23;
    s ← skip ":" s;
    '(min, s) ← getnum s true ≫= within 0 59;
    s ← skip ":" s;
    '(sec, s) ← getnum s true ≫= within 0 59;
    let '(nsec, s) := layout_fraction s in
    '(off, s) ← layout_zone s;
    if negb (String.eqb s "") then None
    else if (day <? 1) || (daysIn month year <? day) then None
    else Some (mkTime (Date year month day hour min sec nsec - off * Second) off).

(** [time.Parse(time.RFC3339Nano, s)]; all its errors are a [*ParseError]. *)
Definition Parse_RFC3339Nano (s : string) : option gotime :=
  match parseRFC3339 s with
  | Some t => Some t
  | None => parse_layout s
  end.

Example Parse_example :
  Parse_RFC3339Nano "2026-07-26T08:30:00.25-03:30" = Some (mkTime 1785067200250000000 (-12600)).
Proof. vm_compute. reflexivity. Qed.
Example Parse_example_slow :
  Parse_RFC3339Nano "2026-07-26T8:30:00,25Z" = Some (mkTime 1785054600250000000 0).
Proof. vm_compute. reflexivity. Qed.
Example Parse_example_day : Parse_RFC3339Nano "2026-02-29T08:30:00Z" = None.
Proof. vm_compute. reflexivity. Qed.

(** ** [MarshalJSON], without its quotes: a year of four digits, a zone hour below 24 *)
Definition Time_MarshalJSON (t : gotime) : string + goerror :=
  if (Time_Year t <? 0) || (9999 <? Time_Year t)
  then inr (ErrorsNew "Time.MarshalJSON: year outside of range [0,9999]")
  else if 24 <=? Z.abs (tm_offset t ÷ 60) / 60
  then inr (ErrorsNew "Time.MarshalJSON: timezone hour outside of range [0,23]")
  else inl (Format_RFC3339Nano t).

(** ** The calendar, forward and back *)

Lemma march_year_bounds z : marches (march_year z) <= z < marches (march_year z + 1).
Proof.
  unfold march_year, marches.
  set (y := 400 * z / 146097).
  assert (Hy : 146097 * y <= 400 * z < 146097 * y + 146097).
  { pose proof (Z.div_mod (400 * z) 146097 ltac:(lia)).
    pose proof (Z.mod_pos_bound (400 * z) 146097 ltac:(lia)). lia. }
  clearbody y.
  case_match eqn:H1; [| case_match eqn:H2];
    rewrite ?Z.ltb_lt, ?Z.ltb_ge, ?Z.leb_le, ?Z.leb_gt in *;
    Z.to_euclidean_division_equations; lia.
Qed.

Lemma marches_step y :
  marches (y + 1) = marches y + (if is_leap (y + 1) then 366 else 365).
Proof.
  unfold marches, is_leap.
  destruct (Z.eqb_spec ((y + 1) mod 4) 0), (Z.eqb_spec ((y + 1) mod 100) 0),
    (Z.eqb_spec ((y + 1) mod 400) 0); simpl;
    Z.to_euclidean_division_equations; lia.
Qed.

(** Comparisons of known months decide themselves. *)
Ltac eval_tests :=
  repeat match goal with
  | |- context [Z.leb ?a ?b] =>
      let v := eval vm_compute in (Z.leb a b) in change (Z.leb a b) with v; cbv iota
  | |- context [Z.ltb ?a ?b] =>
      let v := eval vm_compute in (Z.ltb a b) in change (Z.ltb a b) with v; cbv iota
  | |- context [Z.eqb ?a ?b] =>
      let v := eval vm_compute in (Z.eqb a b) in change (Z.eqb a b) with v; cbv iota
  end; cbn [orb]; cbv iota.

(** A day of a year is in one month, and within it. *)
Lemma month_at_bounds doy :
  0 <= doy < 366 -> 0 <= month_at doy <= 11 /\
  month_start (month_at doy) <= doy < month_start (month_at doy + 1).
Proof. unfold month_at, month_start. Z.to_euclidean_division_equations; lia. Qed.

Lemma civil_spec day y m d :
  civil day = (y, m, d) ->
  1 <= m <= 12 /\ 1 <= d <= daysIn m y /\ days_of_civil y m d = day.
Proof.
  unfold civil. intros [= <- <- <-].
  set (z := day + 719468). pose proof (march_year_bounds z) as Hy.
  pose proof (marches_step (march_year z)) as Hs.
  set (my := march_year z) in *. set (doy := z - marches my).
  assert (Hdoy : 0 <= doy < if is_leap (my + 1) then 366 else 365) by (subst doy; lia).
  assert (0 <= doy < 366) as [Hm Hd]%month_at_bounds by (case_match; lia).
  set (mp := month_at doy) in *. clearbody mp.
  assert (mp = 0 \/ mp = 1 \/ mp = 2 \/ mp = 3 \/ mp = 4 \/ mp = 5 \/ mp = 6 \/ mp = 7 \/
          mp = 8 \/ mp = 9 \/ mp = 10 \/ mp = 11) as Hcases by lia.
  assert (Hmy : my + 1 - 1 = my) by lia.
  unfold days_of_civil, daysIn, month_start in *.
  destruct_or! Hcases; subst mp; eval_tests; rewrite ?Hmy;
    (split; [lia|]); (split; [|Z.to_euclidean_division_equations; lia]);
    destruct (is_leap (my + 1)); Z.to_euclidean_division_equations; lia.
Qed.

(** ** Text, written and read *)

#[local] Arguments String.append !_ _ /.

Lemma undigit_utod d : 0 <= d < 10 -> undigit (utod d) = Some d.
Proof.
  intros H.
  assert (d = 0 \/ d = 1 \/ d = 2 \/ d = 3 \/ d = 4 \/ d = 5 \/ d = 6 \/ d = 7 \/ d = 8 \/ d = 9)
    as Hd by lia.
  by destruct_or! Hd; subst d.
Qed.

Lemma appendInt_2 x lo hi :
  0 <= x < 100 -> lo <= x <= hi ->
  exists c1 c2, appendInt x 2 = String c1 (String c2 "") /\
    parseUint (String c1 (String c2 "")) lo hi = Some x.
Proof.
  intros H Hb. unfold appendInt. rewrite Z.abs_eq by lia.
  rewrite (proj2 (Z.ltb_ge x 0)), (proj2 (Z.ltb_lt x 100)) by lia.
  eexists _, _. split; [done|]. unfold parseUint, decimal.
  rewrite !undigit_utod by (Z.to_euclidean_division_equations; lia). simpl.
  match goal with |- context [?e <? lo] => replace e with x end;
    [|Z.to_euclidean_division_equations; lia].
  by rewrite (proj2 (Z.ltb_ge x lo)), (proj2 (Z.ltb_ge hi x)) by lia.
Qed.

Lemma appendInt_4 x :
  0 <= x < 10000 ->
  exists c1 c2 c3 c4,
    appendInt x 4 = String c1 (String c2 (String c3 (String c4 ""))) /\
    parseUint (String c1 (String c2 (String c3 (String c4 "")))) 0 9999 = Some x.
Proof.
  intros H. unfold appendInt. rewrite Z.abs_eq by lia.
  rewrite (proj2 (Z.ltb_ge x 0)), (proj2 (Z.ltb_lt x 10000)) by lia.
  eexists _, _, _, _. split; [done|]. unfold parseUint, decimal.
  rewrite !undigit_utod by (Z.to_euclidean_division_equations; lia). simpl.
  match goal with |- context [?e <? 0] => replace e with x end;
    [|Z.to_euclidean_division_equations; lia].
  by rewrite (proj2 (Z.ltb_ge x 0)), (proj2 (Z.ltb_ge 9999 x)) by lia.
Qed.

Lemma span_frac_text n v rest :
  0 <= v < 10 ^ Z.of_nat n -> (span_digits rest).1 = [] ->
  exists ds, span_digits (frac_text n v +:+ rest) = (ds, rest) /\ frac_value n ds = v /\
    (v <> 0 -> ds <> []).
Proof.
  intros H Hrest.
  assert (Hr : span_digits rest = ([], rest)).
  { destruct rest as [|c r]; [done|]. simpl in *.
    destruct (undigit c); [|done]. by destruct (span_digits r). }
  revert v H. induction n as [|n IH]; intros v H.
  - exists []. simpl in *. repeat split; [done | lia | lia].
  - simpl. destruct (Z.eqb_spec v 0) as [->|Hv]; [by exists []|].
    assert (Hp : 0 < 10 ^ Z.of_nat n) by lia.
    rewrite Nat2Z.inj_succ, Z.pow_succ_r in H by lia.
    destruct (IH (v mod 10 ^ Z.of_nat n)) as (ds & Hds & Hval & _).
    { by apply Z.mod_pos_bound. }
    exists (v / 10 ^ Z.of_nat n :: ds). simpl.
    rewrite undigit_utod, Hds, Hval.
    + split; [done|]. split; [|done]. rewrite Z.mul_comm. symmetry. by apply Z.div_mod, Z.neq_sym, Z.lt_neq.
    + split; [apply Z.div_pos; lia | apply Z.div_lt_upper_bound; lia].
Qed.

Lemma parseFraction_appendNano nsec rest :
  0 <= nsec < Second -> (span_digits rest).1 = [] ->
  (forall s, rest <> String "." s) ->
  parseFraction (appendNano nsec +:+ rest) = (nsec, rest).
Proof.
  intros H Hrest Hdot. unfold appendNano. destruct (Z.eqb_spec nsec 0) as [->|Hn].
  - change ("" +:+ rest) with rest. unfold parseFraction.
    repeat (case_match; simplify_eq; try done); exfalso; by eapply Hdot.
  - destruct (span_frac_text 9 nsec rest) as (ds & Hds & Hv & Hne); [done.. |].
    unfold parseFraction.
    change (("." +:+ frac_text 9 nsec) +:+ rest) with (String "." (frac_text 9 nsec +:+ rest)).
    cbv iota beta. rewrite Hds. destruct ds; [by destruct (Hne Hn)|]. by rewrite Hv.
Qed.

(** The minutes of an offset are what its text keeps. *)
Lemma parse_format_zone off :
  Z.abs off < 86400 ->
  parse_zone (format_zone off) = Some (60 * (off ÷ 60)) /\
  (span_digits (format_zone off)).1 = [] /\ (forall s, format_zone off <> String "." s).
Proof.
  intros H. unfold format_zone. destruct (Z.eqb_spec off 0) as [->|Hoff]; [done|].
  set (zone := off ÷ 60).
  assert (Hz : Z.abs zone < 1440) by (subst zone; Z.to_euclidean_division_equations; lia).
  destruct (appendInt_2 (Z.abs zone / 60) 0 23) as (a & b & -> & Hab);
    [Z.to_euclidean_division_equations; lia..|].
  destruct (appendInt_2 (Z.abs zone mod 60) 0 59) as (c & d & -> & Hcd);
    [Z.to_euclidean_division_equations; lia..|].
  assert (Hv : (Z.abs zone / 60 * 60 + Z.abs zone mod 60) * 60 = 60 * Z.abs zone)
    by (Z.to_euclidean_division_equations; lia).
  destruct (Z.ltb_spec zone 0); (split; [|done]); unfold parse_zone, slice; cbn -[parseUint Z.mul];
    rewrite Hab; cbn -[parseUint Z.mul]; rewrite Hcd; cbn -[Z.mul]; rewrite Hv; f_equal; lia.
Qed.

Lemma substring_all s : String.substring 0 (String.length s) s = s.
Proof. induction s; simpl; congruence. Qed.

(** The wall clock of an instant, taken apart and put together. *)
Lemma Date_wall t y m d :
  civil (wall_secs t / 86400) = (y, m, d) ->
  let s := wall_secs t mod 86400 in
  Date y m d (s / 3600) (s mod 3600 / 60) (s mod 60) (tm_nano t mod Second)
  = tm_nano t + tm_offset t * Second.
Proof.
  intros Hc s. apply civil_spec in Hc as (_ & _ & Hc). unfold Date. rewrite Hc.
  assert (s / 3600 * 3600 + s mod 3600 / 60 * 60 + s mod 60 = s) as Hs
    by (Z.to_euclidean_division_equations; lia).
  pose proof (Z.div_mod (wall_secs t) 86400 ltac:(lia)) as Hw.
  pose proof (Z.div_mod (tm_nano t) Second ltac:(done)) as Hn.
  unfold wall_secs in Hw at 1. subst s. unfold Second in *. lia.
Qed.

Lemma parse_format t :
  0 <= Time_Year t <= 9999 -> Z.abs (tm_offset t) < 86400 ->
  parseRFC3339 (Format_RFC3339Nano t) =
    Some (mkTime (tm_nano t + Z.rem (tm_offset t) 60 * Second) (60 * (tm_offset t ÷ 60))).
Proof.
  unfold Time_Year, Format_RFC3339Nano. intros Hy Hoff.
  destruct (civil (wall_secs t / 86400)) as [[y m] d] eqn:Hc.
  pose proof (Date_wall t y m d Hc) as Hdate. cbn zeta in Hdate.
  pose proof (civil_spec _ _ _ _ Hc) as (Hm & Hd & _).
  pose proof (Z.mod_pos_bound (wall_secs t) 86400 ltac:(lia)) as Hs.
  set (s := wall_secs t mod 86400) in *.
  assert (daysIn m y <= 31) by (unfold daysIn; repeat case_match; lia).
  destruct (appendInt_4 y) as (y1 & y2 & y3 & y4 & -> & Hyear); [lia|].
  destruct (appendInt_2 m 1 12) as (m1 & m2 & -> & Hmonth); [lia..|].
  destruct (appendInt_2 d 1 (daysIn m y)) as (d1 & d2 & -> & Hday); [lia..|].
  destruct (appendInt_2 (s / 3600) 0 23) as (h1 & h2 & -> & Hh);
    [Z.to_euclidean_division_equations; lia..|].
  destruct (appendInt_2 (s mod 3600 / 60) 0 59) as (i1 & i2 & -> & Hi);
    [Z.to_euclidean_division_equations; lia..|].
  destruct (appendInt_2 (s mod 60) 0 59) as (s1 & s2 & -> & Hsec);
    [Z.to_euclidean_division_equations; lia..|].
  destruct (parse_format_zone (tm_offset t) Hoff) as (Hz & Hz1 & Hz2).
  pose proof (parseFraction_appendNano (tm_nano t mod Second) _
                (Z.mod_pos_bound _ Second ltac:(done)) Hz1 Hz2) as Hf.
  set (rest := appendNano _ +:+ format_zone _) in *.
  unfold parseRFC3339, slice, from.
  cbn -[parseUint parseFraction daysIn Date]. rewrite Nat.sub_0_r, substring_all, substring_none.
  do 6 (rewrite ?Hyear, ?Hmonth, ?Hday, ?Hh, ?Hi, ?Hsec;
        cbn -[parseUint parseFraction daysIn Date]).
  rewrite Hf, Hz. cbn -[Z.mul Z.quot Z.rem Date]. rewrite Hdate. do 2 f_equal.
  pose proof (Z.quot_rem (tm_offset t) 60 ltac:(lia)). unfold Second. lia.
Qed.

(** What the text of an instant reads back as: seconds of the offset are lost, and
    with them as much of the instant. *)
Definition as_written (t : gotime) : gotime :=
  mkTime (tm_nano t + Z.rem (tm_offset t) 60 * Second) (60 * (tm_offset t ÷ 60)).

Lemma as_written_minutes t : (60 | tm_offset t) -> as_written t = t.
Proof.
  destruct t as [n off]. intros [k Hk]. simpl in Hk. subst off. unfold as_written.
  cbn [tm_nano tm_offset]. rewrite Z.rem_mul, Z.quot_mul by lia. f_equal; lia.
Qed.

Lemma Time_MarshalJSON_parse t text :
  Time_MarshalJSON t = inl text -> Parse_RFC3339Nano text = Some (as_written t).
Proof.
  unfold Time_MarshalJSON. intros H. repeat (case_match; simplify_eq).
  rewrite !orb_false_iff, !Z.ltb_ge, !Z.leb_gt in *.
  unfold Parse_RFC3339Nano. rewrite parse_format; [done | lia |].
  Z.to_euclidean_division_equations; lia.
Qed.

Lemma Time_MarshalJSON_error t err :
  Time_MarshalJSON t = inr err ->
  ~ (0 <= Time_Year t <= 9999) \/ 86400 <= Z.abs (tm_offset t).
Proof.
  unfold Time_MarshalJSON. intros H. repeat (case_match; simplify_eq).
  - left. rewrite orb_true_iff, !Z.ltb_lt in *. lia.
  - right. rewrite Z.leb_le in *. Z.to_euclidean_division_equations; lia.
Qed.

Lemma Format_UTC_parse t :
  0 <= Time_Year (Time_UTC t) <= 9999 ->
  Parse_RFC3339Nano (Format_RFC3339Nano (Time_UTC t)) = Some (Time_UTC t).
Proof.
  intros H. unfold Parse_RFC3339Nano. rewrite parse_format by done.
  f_equal. apply (as_written_minutes (Time_UTC t)). by exists 0.
Qed.

Lemma Time_Sub_exact t u :
  is_int64 (tm_nano t - tm_nano u) -> Time_Sub t u = tm_nano t - tm_nano u.
Proof. unfold is_int64, Time_Sub. lia. Qed.

#[export] Hint Resolve Time_MarshalJSON_parse Time_Sub_exact : imps.
