(* ===== verification/Envelope.v ===== *)
(** * Envelope: the persisted unit (persist/store.go, persist/codec.go)

    One JSON document per entity: the codec's bytes in base64 and the last-active
    stamp. Encoding is [encoding/json] on this struct, written out; decoding is
    written out for the documents encoding makes, and for every other document it
    is an argument, so that nothing depends on it. *)

From S2P Require Import Prelude Values Instants.
From Stdlib Require Import Ascii.

(** A [[]byte] that may be nil. *)
Abbreviation slice_of_bytes := (option bytes).

Record envelope := mkEnvelope {
  State : slice_of_bytes;
  LastActive : gotime }.

(** [Codec[T]]. Both methods are the user's, or [encoding/json] on the user's type. *)
Record Codec (T : Type) := mkCodec {
  Marshal : T -> result (slice_of_bytes + goerror);
  Unmarshal : slice_of_bytes -> result (T * error) }.
Arguments mkCodec {T} _ _.
Arguments Marshal {T} _ _.
Arguments Unmarshal {T} _ _.

(** [encoding/json] on a type [T]: its text, and its value from a text. *)
Class JSON (T : Type) := {
  json_Marshal : T -> result (bytes + goerror);
  json_Unmarshal : bytes -> result (T * error) }.

Definition JSONCodec {T} `{JSON T} : Codec T :=
  mkCodec
    (fun v =>
       match json_Marshal v with
       | Done (inl b) => Done (inl (Some b))
       | Done (inr e) => Done (inr e)
       | Panicked p => Panicked p
       | Blocked => Blocked
       end)
    (fun data => json_Unmarshal (default "" data)).

(** ** Base64 (the standard alphabet, padded) *)

Definition alphabet : string :=
  "ABCDEFGHIJKLMNOPQRSTUVWXYZabcdefghijklmnopqrstuvwxyz0123456789+/".
Definition sextet_char (i : Z) : ascii := default "A"%char (String.get (Z.to_nat i) alphabet).

Fixpoint index_from (i : Z) (c : ascii) (s : string) : option Z :=
  match s with
  | EmptyString => None
  | String c' s => if Ascii.eqb c c' then Some i else index_from (i + 1) c s
  end.
Definition sextet (c : ascii) : option Z := index_from 0 c alphabet.

Section Groups.
Local Open Scope Z_scope.

Fixpoint EncodeToString (s : string) : string :=
  match s with
  | EmptyString => ""
  | String a EmptyString =>
      let a := byte_val a in
      String (sextet_char (a / 4)) (String (sextet_char (a mod 4 * 16)) "==")
  | String a (String b EmptyString) =>
      let a := byte_val a in let b := byte_val b in
      String (sextet_char (a / 4)) (String (sextet_char (a mod 4 * 16 + b / 16))
        (String (sextet_char (b mod 16 * 4)) "="))
  | String a (String b (String c s)) =>
      let a := byte_val a in let b := byte_val b in let c := byte_val c in
      String (sextet_char (a / 4)) (String (sextet_char (a mod 4 * 16 + b / 16))
        (String (sextet_char (b mod 16 * 4 + c / 64)) (String (sextet_char (c mod 64))
          (EncodeToString s))))
  end.

Fixpoint DecodeString (s : string) : option string :=
  match s with
  | EmptyString => Some ""
  | String c1 (String c2 (String c3 (String c4 s))) =>
      i1 ← sextet c1;
      i2 ← sextet c2;
      let a := byte_of (i1 * 4 + i2 / 16) in
      if String.eqb (String c3 (String c4 s)) "==" then Some (String a "")
      else
        i3 ← sextet c3;
        let b := byte_of (i2 mod 16 * 16 + i3 / 4) in
        if String.eqb (String c4 s) "=" then Some (String a (String b ""))
        else
          i4 ← sextet c4;
          r ← DecodeString s;
          Some (String a (String b (String (byte_of (i3 mod 4 * 64 + i4)) r)))
  | _ => None
  end.
End Groups.

Example EncodeToString_example : EncodeToString "PFX:42" = "UEZYOjQy". Proof. reflexivity. Qed.
Example EncodeToString_padded : EncodeToString "{}" = "e30=". Proof. reflexivity. Qed.
Example DecodeString_padded : DecodeString "Nw==" = Some "7". Proof. reflexivity. Qed.

(** ** The document *)

Definition quoted (s : string) : string := String dquote (s +:+ String dquote "").

Definition doc_head : string := "{" +:+ quoted "state" +:+ ":".
Definition doc_middle : string := "," +:+ quoted "last_active" +:+ ":".

(** [json.Marshal(envelope{...})]. *)
Definition json_Marshal_envelope (e : envelope) : bytes + goerror :=
  match Time_MarshalJSON (LastActive e) with
  | inr err => inr (Errorf "json: error calling MarshalJSON for type time.Time: " err)
  | inl stamp =>
      inl (doc_head +:+
           match State e with
           | Some b => quoted (EncodeToString b)
           | None => "null"
           end +:+ doc_middle +:+ quoted stamp +:+ "}")
  end.

Fixpoint strip_prefix (p s : string) : option string :=
  match p, s with
  | EmptyString, _ => Some s
  | String c p, String c' s => if Ascii.eqb c c' then strip_prefix p s else None
  | String _ _, EmptyString => None
  end.

(** The text before the next quote, and after it. *)
Fixpoint until_quote (s : string) : option (string * string) :=
  match s with
  | EmptyString => None
  | String c s =>
      if Ascii.eqb c dquote then Some ("", s)
      else '(a, r) ← until_quote s; Some (String c a, r)
  end.

Definition decode_state (s : string) : option (slice_of_bytes * string) :=
  match strip_prefix "null" s with
  | Some r => Some (None, r)
  | None =>
      s ← strip_prefix (String dquote "") s;
      '(txt, r) ← until_quote s;
      b ← DecodeString txt;
      Some (Some b, r)
  end.

Definition decode_canonical (raw : bytes) : option envelope :=
  s ← strip_prefix doc_head raw;
  '(st, s) ← decode_state s;
  s ← strip_prefix doc_middle s;
  s ← strip_prefix (String dquote "") s;
  '(stamp, s) ← until_quote s;
  if negb (String.eqb s "}") then None
  else
    t ← Parse_RFC3339Nano stamp;
    Some (mkEnvelope st t).

(** [json.Unmarshal(raw, &env)]. *)
Definition json_Unmarshal_envelope (other : bytes -> envelope + goerror) (raw : bytes)
  : envelope + goerror :=
  match decode_canonical raw with
  | Some e => inl e
  | None => other raw
  end.

(** ** Base64, back and forth *)

Lemma sextet_sextet_char i : (0 <= i < 64)%Z -> sextet (sextet_char i) = Some i.
Proof.
  intros H. rewrite <- (Z2Nat.id i) by lia.
  assert (Z.to_nat i < 64) as Hn by lia. revert Hn. generalize (Z.to_nat i). clear.
  intros n Hn. do 64 (destruct n as [|n]; [reflexivity|]). lia.
Qed.

Lemma sextet_char_not_pad i : (0 <= i < 64)%Z -> sextet_char i <> "="%char.
Proof. intros H E. pose proof (sextet_sextet_char i H) as Hi. by rewrite E in Hi. Qed.

Lemma not_one_pad i s : (0 <= i < 64)%Z -> String.eqb (String (sextet_char i) s) "=" = false.
Proof. intros H. apply String.eqb_neq. intros [= ? _]. by apply (sextet_char_not_pad i). Qed.

Lemma not_two_pads i s : (0 <= i < 64)%Z -> String.eqb (String (sextet_char i) s) "==" = false.
Proof. intros H. apply String.eqb_neq. intros [= ? _]. by apply (sextet_char_not_pad i). Qed.

(** Induction over groups of three. *)
Lemma string_ind3 (P : string -> Prop) :
  P "" -> (forall a, P (String a "")) -> (forall a b, P (String a (String b ""))) ->
  (forall a b c s, P s -> P (String a (String b (String c s)))) -> forall s, P s.
Proof.
  intros H0 H1 H2 H3. fix IH 1. intros [|a [|b [|c s]]];
    [exact H0 | apply H1 | apply H2 | apply H3, IH].
Qed.

(** The sums of sextets are the bytes again. *)
Ltac sextets := Z.to_euclidean_division_equations; lia.

Lemma DecodeString_EncodeToString s : DecodeString (EncodeToString s) = Some s.
Proof.
  induction s as [|a|a b|a b c s IH] using string_ind3; [done| | |];
    pose proof (byte_val_range a); try pose proof (byte_val_range b);
    try pose proof (byte_val_range c); cbn -[sextet sextet_char String.eqb Z.mul];
    rewrite !sextet_sextet_char by sextets; cbn -[sextet sextet_char String.eqb Z.mul];
    rewrite ?sextet_sextet_char, ?not_two_pads, ?not_one_pad by sextets;
    rewrite ?String.eqb_refl, ?IH; cbn -[Z.mul];
    rewrite (byte_of_eq _ a) by sextets; [done | |];
    rewrite (byte_of_eq _ b) by sextets; [done |].
  by rewrite (byte_of_eq _ c) by sextets.
Qed.

(** ** Texts without a quote *)

Fixpoint plain (s : string) : bool :=
  match s with
  | EmptyString => true
  | String c s => negb (Ascii.eqb c dquote) && plain s
  end.

Lemma plain_app s t : plain (s +:+ t) = plain s && plain t.
Proof. induction s as [|c s IH]; [done|]. simpl. rewrite <- andb_assoc. by f_equal. Qed.

Lemma until_quote_plain s r :
  plain s = true -> until_quote (s +:+ String dquote r) = Some (s, r).
Proof.
  induction s as [|c s IH]; [done|]. simpl.
  intros [Hc Hs]%andb_true_iff. apply negb_true_iff in Hc.
  change (until_quote (String c (s +:+ String dquote r)) = Some (String c s, r)).
  simpl. by rewrite Hc, IH.
Qed.

Lemma strip_prefix_app p s : strip_prefix p (p +:+ s) = Some s.
Proof.
  induction p as [|c p IH]; [done|].
  change (strip_prefix (String c p) (String c (p +:+ s)) = Some s). simpl.
  by rewrite Ascii.eqb_refl.
Qed.

Lemma plain_sextet i : (0 <= i < 64)%Z -> negb (Ascii.eqb (sextet_char i) dquote) = true.
Proof.
  intros H. apply negb_true_iff, Ascii.eqb_neq. intros E.
  pose proof (sextet_sextet_char i H) as Hi. by rewrite E in Hi.
Qed.

Lemma plain_EncodeToString s : plain (EncodeToString s) = true.
Proof.
  induction s as [|a|a b|a b c s IH] using string_ind3; [done| | |];
    pose proof (byte_val_range a); try pose proof (byte_val_range b);
    try pose proof (byte_val_range c); cbn -[sextet_char Ascii.eqb dquote Z.mul];
    rewrite ?plain_sextet, ?IH by sextets; done.
Qed.

Lemma plain_digit c d : undigit c = Some d -> negb (Ascii.eqb c dquote) = true.
Proof. intros H. apply negb_true_iff, Ascii.eqb_neq. intros ->. vm_compute in H. done. Qed.

Lemma plain_decimal s : forall acc x, decimal acc s = Some x -> plain s = true.
Proof.
  induction s as [|c s IH]; [done|]. simpl. intros acc x H.
  destruct (undigit c) as [d|] eqn:Hc; [|done]. by rewrite (plain_digit c d Hc), (IH _ _ H).
Qed.

Lemma plain_parseUint s lo hi x : parseUint s lo hi = Some x -> plain s = true.
Proof.
  unfold parseUint. destruct (decimal 0 s) eqn:H; [|done]. by intros _; apply plain_decimal in H.
Qed.

Lemma plain_appendInt_2 x : (0 <= x < 100)%Z -> plain (appendInt x 2) = true.
Proof.
  intros H. destruct (appendInt_2 x 0 99) as (? & ? & -> & Hx); [lia..|].
  by eapply plain_parseUint.
Qed.

Lemma plain_appendInt_4 x : (0 <= x < 10000)%Z -> plain (appendInt x 4) = true.
Proof.
  intros H. destruct (appendInt_4 x) as (? & ? & ? & ? & -> & Hx); [lia..|].
  by eapply plain_parseUint.
Qed.

Lemma plain_frac_text n v : (0 <= v < 10 ^ Z.of_nat n)%Z -> plain (frac_text n v) = true.
Proof.
  revert v. induction n as [|n IH]; intros v H; [done|]. simpl.
  case_match; [done|]. rewrite Nat2Z.inj_succ, Z.pow_succ_r in H by lia. simpl.
  rewrite (plain_digit _ (v / 10 ^ Z.of_nat n)), IH; [done | |].
  - apply Z.mod_pos_bound. lia.
  - apply undigit_utod. split; [apply Z.div_pos; lia | apply Z.div_lt_upper_bound; lia].
Qed.

Lemma plain_format_zone off : (Z.abs off < 86400)%Z -> plain (format_zone off) = true.
Proof.
  intros H. unfold format_zone. case_match; [done|].
  rewrite !plain_app, !plain_appendInt_2 by (Z.to_euclidean_division_equations; lia).
  by case_match.
Qed.

Lemma plain_Format t :
  (0 <= Time_Year t <= 9999)%Z -> (Z.abs (tm_offset t) < 86400)%Z ->
  plain (Format_RFC3339Nano t) = true.
Proof.
  unfold Time_Year, Format_RFC3339Nano. intros Hy Hoff.
  destruct (civil _) as [[y m] d] eqn:Hc. apply civil_spec in Hc as (Hm & Hd & _).
  assert (daysIn m y <= 31)%Z by (unfold daysIn; repeat case_match; lia).
  pose proof (Z.mod_pos_bound (wall_secs t) 86400 ltac:(lia)) as Hs.
  rewrite !plain_app, plain_appendInt_4, !plain_appendInt_2, plain_format_zone
    by (Z.to_euclidean_division_equations; lia).
  unfold appendNano. case_match; [done|].
  rewrite plain_app, plain_frac_text; [done|]. by apply Z.mod_pos_bound.
Qed.

Lemma plain_Time_MarshalJSON t text : Time_MarshalJSON t = inl text -> plain text = true.
Proof.
  unfold Time_MarshalJSON. intros H. repeat (case_match; simplify_eq).
  rewrite !orb_false_iff, !Z.ltb_ge, !Z.leb_gt in *.
  apply plain_Format; [lia|]. Z.to_euclidean_division_equations; lia.
Qed.

(** ** The document, back and forth *)

Lemma decode_state_encoded st r :
  decode_state (match st with
                | Some b => quoted (EncodeToString b)
                | None => "null"
                end +:+ r) = Some (st, r).
Proof.
  destruct st as [b|]; [|done]. unfold decode_state, quoted.
  change (String dquote (EncodeToString b +:+ String dquote "") +:+ r)
    with (String dquote ((EncodeToString b +:+ String dquote "") +:+ r)).
  simpl strip_prefix. cbn [mbind option_bind].
  rewrite app_assoc_string. simpl String.append.
  change (String dquote "" +:+ r) with (String dquote r).
  rewrite until_quote_plain by apply plain_EncodeToString. simpl.
  by rewrite DecodeString_EncodeToString.
Qed.

Lemma decode_canonical_Marshal e raw :
  json_Marshal_envelope e = inl raw ->
  decode_canonical raw = Some (mkEnvelope (State e) (as_written (LastActive e))).
Proof.
  unfold json_Marshal_envelope. destruct (Time_MarshalJSON _) as [stamp|] eqn:Ht; [|done].
  intros [= <-]. unfold decode_canonical. rewrite strip_prefix_app. cbn [mbind option_bind].
  rewrite decode_state_encoded. cbn [mbind option_bind].
  rewrite strip_prefix_app. cbn [mbind option_bind]. unfold quoted.
  change (String dquote (stamp +:+ String dquote "") +:+ "}")
    with (String dquote ((stamp +:+ String dquote "") +:+ "}")).
  simpl strip_prefix. cbn [mbind option_bind]. rewrite app_assoc_string.
  change (String dquote "" +:+ "}") with (String dquote "}").
  rewrite until_quote_plain by eauto using plain_Time_MarshalJSON. simpl.
  by rewrite (Time_MarshalJSON_parse _ _ Ht).
Qed.

Lemma Unmarshal_Marshal_envelope other e raw :
  json_Marshal_envelope e = inl raw ->
  json_Unmarshal_envelope other raw = inl (mkEnvelope (State e) (as_written (LastActive e))).
Proof.
  intros H. unfold json_Unmarshal_envelope. by rewrite (decode_canonical_Marshal e raw H).
Qed.

#[export] Hint Resolve Unmarshal_Marshal_envelope : imps.

(** C38: a state and its stamp never tear apart. The document of an envelope decodes
    to the same bytes, nil or not, and to the same instant but for the seconds of its
    zone's offset, which the text does not hold; encoding fails only on a year of
    more than four digits or a zone a day away from UTC. *)
Theorem envelope_roundtrip other e :
  match json_Marshal_envelope e with
  | inl raw =>
      json_Unmarshal_envelope other raw = inl (mkEnvelope (State e) (as_written (LastActive e))) /\
      ((60 | tm_offset (LastActive e))%Z -> as_written (LastActive e) = LastActive e)
  | inr _ =>
      ~ (0 <= Time_Year (LastActive e) <= 9999)%Z \/
      (86400 <= Z.abs (tm_offset (LastActive e)))%Z
  end.
Proof.
  destruct (json_Marshal_envelope e) as [raw|err] eqn:Hm.
  - split; [by apply Unmarshal_Marshal_envelope | apply as_written_minutes].
  - unfold json_Marshal_envelope in Hm.
    destruct (Time_MarshalJSON (LastActive e)) as [|err'] eqn:Ht; [done|].
    by eapply Time_MarshalJSON_error.
Qed.
