(* ===== verification/Backend.v ===== *)
(** * Backend: the persistence boundary (persist/backend.go)

    [Backend] is the interface, its calls threading the state of the store behind
    it; [BackendLaws] is what its comment asks of an implementation, over the
    contents the state stands for. [KeyValue] is the part of a JetStream bucket
    that [kvBackend] calls; the adapter discharges the laws from those of the
    bucket. [memory] is the in-memory backend of the tests. *)

From S2P Require Import Prelude Values.

(** [ErrNotFound]. *)
Definition ErrNotFound : goerror := Sentinel PersistErrNotFound.

(** ** The interface *)

Class Backend (B : Type) := {
  Backend_Get : string -> B -> (bytes + goerror) * B;
  Backend_Put : string -> bytes -> B -> error * B;
  Backend_Delete : string -> B -> error * B }.

(** A call that failed may have been applied: its answer can get lost. *)
Class BackendLaws (B : Type) `{Backend B} (contents : B -> gmap string bytes) := {
  Get_contents k b : contents (Backend_Get k b).2 = contents b;
  Get_found k b v b' : Backend_Get k b = (inl v, b') -> contents b !! k = Some v;
  Get_missing k b e b' :
    Backend_Get k b = (inr e, b') -> errors_Is e PersistErrNotFound = true ->
    contents b !! k = None;
  Put_done k v b b' :
    Backend_Put k v b = (None, b') -> contents b' = <[k := v]> (contents b);
  Put_failed k v b e b' :
    Backend_Put k v b = (Some e, b') ->
    contents b' = contents b \/ contents b' = <[k := v]> (contents b);
  Delete_done k b b' :
    Backend_Delete k b = (None, b') -> contents b' = delete k (contents b);
  Delete_failed k b e b' :
    Backend_Delete k b = (Some e, b') ->
    contents b' = contents b \/ contents b' = delete k (contents b) }.

(** ** The adapter of a JetStream key-value bucket *)

(** [jetstream.KeyValue]: [Get] gives the value of the entry. *)
Class KeyValue (K : Type) := {
  kv_Get : string -> K -> (bytes + goerror) * K;
  kv_Put : string -> bytes -> K -> error * K;
  kv_Delete : string -> K -> error * K }.

(** Its documentation: [ErrKeyNotFound] says that the key is absent. The bucket
    knows nothing of this package's error. *)
Class KeyValueLaws (K : Type) `{KeyValue K} (held : K -> gmap string bytes) := {
  kv_Get_held k s : held (kv_Get k s).2 = held s;
  kv_Get_found k s v s' : kv_Get k s = (inl v, s') -> held s !! k = Some v;
  kv_Get_missing k s e s' :
    kv_Get k s = (inr e, s') -> errors_Is e JsErrKeyNotFound = true -> held s !! k = None;
  kv_Get_foreign k s e s' :
    kv_Get k s = (inr e, s') -> errors_Is e PersistErrNotFound = false;
  kv_Put_done k v s s' : kv_Put k v s = (None, s') -> held s' = <[k := v]> (held s);
  kv_Put_failed k v s e s' :
    kv_Put k v s = (Some e, s') -> held s' = held s \/ held s' = <[k := v]> (held s);
  kv_Delete_done k s s' : kv_Delete k s = (None, s') -> held s' = delete k (held s);
  kv_Delete_missing k s e s' :
    kv_Delete k s = (Some e, s') -> errors_Is e JsErrKeyNotFound = true ->
    held s !! k = None /\ held s' = held s;
  kv_Delete_failed k s e s' :
    kv_Delete k s = (Some e, s') ->
    held s' = held s \/ held s' = delete k (held s) }.

Section kvBackend.
Context {K : Type} `{KeyValue K}.

Definition kvBackend_Get (key : string) (b : K) : (bytes + goerror) * K :=
  match kv_Get key b with
  | (inr err, b) =>
      if errors_Is err JsErrKeyNotFound then (inr ErrNotFound, b)
      else (inr (Errorf ("persist: kv get " +:+ key +:+ ": ") err), b)
  | (inl e, b) => (inl e, b)
  end.

Definition kvBackend_Put (key : string) (value : bytes) (b : K) : error * K :=
  match kv_Put key value b with
  | (Some err, b) => (Some (Errorf ("persist: kv put " +:+ key +:+ ": ") err), b)
  | (None, b) => (None, b)
  end.

Definition kvBackend_Delete (key : string) (b : K) : error * K :=
  match kv_Delete key b with
  | (Some err, b) =>
      if negb (errors_Is err JsErrKeyNotFound)
      then (Some (Errorf ("persist: kv delete " +:+ key +:+ ": ") err), b)
      else (None, b)
  | (None, b) => (None, b)
  end.

(** [KVBackend(kv)]. *)
#[export] Instance KVBackend : Backend K := {|
  Backend_Get := kvBackend_Get;
  Backend_Put := kvBackend_Put;
  Backend_Delete := kvBackend_Delete |}.

Context (held : K -> gmap string bytes) `{!KeyValueLaws K held}.

#[export] Instance kvBackend_laws : BackendLaws K held.
Proof.
  split; simpl; unfold kvBackend_Get, kvBackend_Put, kvBackend_Delete.
  - intros k b. pose proof (kv_Get_held k b) as Hk.
    destruct (kv_Get k b) as [[v|e] b']; [done|]. by case_match.
  - intros k b v b' Hg. destruct (kv_Get k b) as [[v'|e] b1] eqn:Hk.
    + simplify_eq. by eapply kv_Get_found.
    + by case_match.
  - intros k b e b' Hg Hnf. destruct (kv_Get k b) as [[v'|err] b1] eqn:Hk; [done|].
    case_match; simplify_eq; [by eapply kv_Get_missing|].
    simpl in Hnf. by rewrite (kv_Get_foreign k b err b' Hk) in Hnf.
  - intros k v b b' Hp. destruct (kv_Put k v b) as [[e|] b1] eqn:Hk; simplify_eq.
    by eapply kv_Put_done.
  - intros k v b e b' Hp. destruct (kv_Put k v b) as [[e'|] b1] eqn:Hk; simplify_eq.
    by eapply kv_Put_failed.
  - intros k b b' Hd. destruct (kv_Delete k b) as [[e|] b1] eqn:Hk.
    + case_match eqn:Hnf; simplify_eq. apply negb_false_iff in Hnf.
      destruct (kv_Delete_missing k b e b' Hk Hnf) as [Hno ->]. by rewrite delete_id.
    + simplify_eq. by eapply kv_Delete_done.
  - intros k b e b' Hd. destruct (kv_Delete k b) as [[e'|] b1] eqn:Hk; [|done].
    case_match; simplify_eq. by eapply kv_Delete_failed.
Qed.
End kvBackend.

(** ** The in-memory backend *)

Definition memory : Type := gmap string bytes.

Definition memory_Get (k : string) (b : memory) : (bytes + goerror) * memory :=
  (match b !! k with Some v => inl v | None => inr ErrNotFound end, b).
Definition memory_Put (k : string) (v : bytes) (b : memory) : error * memory :=
  (None, <[k := v]> b).
Definition memory_Delete (k : string) (b : memory) : error * memory := (None, delete k b).

Instance memory_Backend : Backend memory := {|
  Backend_Get := memory_Get;
  Backend_Put := memory_Put;
  Backend_Delete := memory_Delete |}.

Instance memory_laws : BackendLaws memory id.
Proof.
  split; simpl; unfold memory_Get, memory_Put, memory_Delete; intros; simplify_eq/=; auto.
  - by case_match; simplify_eq.
  - by case_match; simplify_eq.
Qed.

(** A bucket over such a map, with the errors of [jetstream]. *)
Record bucket := mkBucket { bucket_entries : gmap string bytes }.

Instance bucket_KeyValue : KeyValue bucket := {|
  kv_Get k b :=
    (match bucket_entries b !! k with
     | Some v => inl v
     | None => inr (Sentinel JsErrKeyNotFound)
     end, b);
  kv_Put k v b := (None, mkBucket (<[k := v]> (bucket_entries b)));
  kv_Delete k b := (None, mkBucket (delete k (bucket_entries b))) |}.

Instance bucket_laws : KeyValueLaws bucket bucket_entries.
Proof. split; simpl; intros; repeat case_match; simplify_eq/=; auto. Qed.
