(* ===== verification/Store.v ===== *)
(** * Store: the durable tier (persist/store.go)

    The store as it is: a map from entities to elements of a [container/list], the
    elements in a heap, so that [Update] changes an entry in place. The backend, the
    clock and a ghost trace of what the store did to the outside are the world.
    [spec_get], [spec_update] and [spec_delete] are the same operations on a list of
    entries, hottest first: the abstract cache that the code refines. *)

From S2P Require Import Prelude Values StateMonad Instants Envelope Backend.

(** What a store did to the world. *)
Inductive store_event :=
| EvGet (key : string)
| EvPut (key : string) (value : bytes)
| EvDelete (key : string)
| EvWake (e : Entity) (elapsed : Duration).

(** Everything outside the process: the backend, and how often the clock was read. *)
Record world (B : Type) := mkWorld {
  w_backend : B;
  w_clock : nat;
  w_trace : list store_event }.
Arguments mkWorld {B} _ _ _.
Arguments w_backend {B} _.
Arguments w_clock {B} _.
Arguments w_trace {B} _.

(** [entry[T]]. *)
Record entry (T : Type) := mkEntry {
  en_entity : Entity;
  en_state : T }.
Arguments mkEntry {T} _ _.
Arguments en_entity {T} _.
Arguments en_state {T} _.

(** The abstract cache: the entries, hottest first. *)
Abbreviation cache T := (list (entry T)).

(** The fields of [Store[T]] that change; [r_next] is the next fresh element. *)
Record residency (T : Type) := mkResidency {
  r_mu : bool;
  r_resident : gmap Entity nat;
  r_lru : list nat;                 (* front = hottest, back = coldest *)
  r_heap : gmap nat (entry T);
  r_next : nat }.
Arguments mkResidency {T} _ _ _ _ _.
Arguments r_mu {T} _.
Arguments r_resident {T} _.
Arguments r_lru {T} _.
Arguments r_heap {T} _.
Arguments r_next {T} _.

Section Store.
Context {B : Type} `{Backend B} {T : Type} (zero : T).
Context (other : bytes -> envelope + goerror) (clock : nat -> gotime).

Definition WakeFn : Type := Entity -> Duration -> T -> result T.

Definition DefaultBound : Z := 256.

Record config := mkConfig {
  cf_bound : Z;
  cf_wake : option WakeFn;
  cf_codec : Codec T }.

Definition Option : Type := config -> config.

Definition WithBound (n : Z) : result Option :=
  if (n <=? 0)%Z then Panicked (AString "persist: WithBound requires n > 0")
  else Done (fun c => mkConfig n (cf_wake c) (cf_codec c)).
Definition WithWake (fn : WakeFn) : Option := fun c => mkConfig (cf_bound c) (Some fn) (cf_codec c).
Definition WithCodec (codec : Codec T) : Option := fun c => mkConfig (cf_bound c) (cf_wake c) codec.

(** The fields of [Store[T]] that do not change. *)
Record Store := mkStore {
  st_name : string;
  st_bound : Z;
  st_wake : option WakeFn;
  st_codec : Codec T }.

Definition empty_residency : residency T := mkResidency false ∅ [] ∅ 0.

Definition NewStore `{JSON T} (name : string) (opts : list Option)
  : result (Store * residency T) :=
  if String.eqb name "" then Panicked (AString "persist: store name required")
  else
    let cfg := foldl (fun cfg opt => opt cfg) (mkConfig DefaultBound None JSONCodec) opts in
    Done (mkStore name (cf_bound cfg) (cf_wake cfg) (cf_codec cfg), empty_residency).

(** The state of one store and its world. *)
Record st := mkSt {
  s_res : residency T;
  s_world : world B }.

Definition on_world {A} (m : SM (world B) A) : SM st A := fun s =>
  let '(r, w) := m (s_world s) in (r, mkSt (s_res s) w).
Definition on_res {A} (m : SM (residency T) A) : SM st A := fun s =>
  let '(r, x) := m (s_res s) in (r, mkSt x (s_world s)).

(** *** The world *)

Definition log_event (ev : store_event) : SM (world B) unit :=
  modify (fun w => mkWorld (w_backend w) (w_clock w) (w_trace w ++ [ev])).

Definition call_backend {A} (f : B -> A * B) : SM (world B) A := fun w =>
  let '(a, b) := f (w_backend w) in (Done a, mkWorld b (w_clock w) (w_trace w)).

Definition now : SM (world B) gotime := fun w =>
  (Done (clock (w_clock w)), mkWorld (w_backend w) (S (w_clock w)) (w_trace w)).

Definition b_Get (k : string) : SM (world B) (bytes + goerror) :=
  log_event (EvGet k) ≫= fun _ => call_backend (Backend_Get k).
Definition b_Put (k : string) (v : bytes) : SM (world B) error :=
  log_event (EvPut k v) ≫= fun _ => call_backend (Backend_Put k v).
Definition b_Delete (k : string) : SM (world B) error :=
  log_event (EvDelete k) ≫= fun _ => call_backend (Backend_Delete k).

(** *** [container/list] and the heap of its elements *)

Definition set_lru (l : list nat) (x : residency T) : residency T :=
  mkResidency (r_mu x) (r_resident x) l (r_heap x) (r_next x).
Definition set_resident (m : gmap Entity nat) (x : residency T) : residency T :=
  mkResidency (r_mu x) m (r_lru x) (r_heap x) (r_next x).
Definition set_mu (b : bool) (x : residency T) : residency T :=
  mkResidency b (r_resident x) (r_lru x) (r_heap x) (r_next x).

Definition without (el : nat) (l : list nat) : list nat := filter (.≠ el) l.

Definition MoveToFront (el : nat) : SM (residency T) unit :=
  modify (fun x => if decide (el ∈ r_lru x) then set_lru (el :: without el (r_lru x)) x else x).
Definition list_Remove (el : nat) : SM (residency T) unit :=
  modify (fun x => set_lru (without el (r_lru x)) x).
Definition PushFront (en : entry T) : SM (residency T) nat := fun x =>
  (Done (r_next x),
   mkResidency (r_mu x) (r_resident x) (r_next x :: r_lru x)
     (<[r_next x := en]> (r_heap x)) (S (r_next x))).

Definition nil_dereference : any :=
  AString "runtime error: invalid memory address or nil pointer dereference".

(** [el.Value.( *entry[T])], read and written. *)
Definition Value (el : nat) : SM (residency T) (entry T) := fun x =>
  match r_heap x !! el with
  | Some en => (Done en, x)
  | None => (Panicked nil_dereference, x)
  end.
Definition set_state (el : nat) (state : T) : SM (residency T) unit :=
  Value el ≫= fun en =>
  modify (fun x => mkResidency (r_mu x) (r_resident x) (r_lru x)
                     (<[el := mkEntry (en_entity en) state]> (r_heap x)) (r_next x)).
Definition Back : SM (residency T) nat := fun x =>
  match last (r_lru x) with
  | Some el => (Done el, x)
  | None => (Panicked nil_dereference, x)
  end.

Context (s : Store).

(** *** [insert]

    The loop runs at most once per element, and once more to find the list empty. *)

Fixpoint evict (fuel : nat) : SM (residency T) unit := fun x =>
  match fuel with
  | O => (Blocked, x)
  | S fuel =>
      if (st_bound s <=? Z.of_nat (length (r_lru x)))%Z
      then (coldest ← Back;
            list_Remove coldest;;
            en ← Value coldest;
            modify (fun x => set_resident (delete (en_entity en) (r_resident x)) x);;
            evict fuel) x
      else (Done (), x)
  end.

Definition insert (entity : Entity) (state : T) : SM (residency T) unit := fun x =>
  (evict (S (length (r_lru x)));;
   el ← PushFront (mkEntry entity state);
   modify (fun x => set_resident (<[entity := el]> (r_resident x)) x)) x.

(** *** The operations *)

Definition key (entity : Entity) : string := st_name s +:+ "." +:+ entity.

(** [getLocked] past a residency miss: the state to insert, or an error. *)
Definition fetch (entity : Entity) : SM (world B) (T * error) :=
  got ← b_Get (key entity);
  match got with
  | inr err =>
      if errors_Is err PersistErrNotFound then mret (zero, None) else mret (zero, Some err)
  | inl raw =>
      match json_Unmarshal_envelope other raw with
      | inr err => mret (zero, Some (Errorf ("persist: decode envelope " +:+ entity +:+ ": ") err))
      | inl env =>
          '(state, err) ← lift (Unmarshal (st_codec s) (State env));
          match err with
          | Some err => mret (state, Some (Errorf ("persist: decode state " +:+ entity +:+ ": ") err))
          | None =>
              match st_wake s with
              | Some wake =>
                  t ← now;
                  let elapsed := Time_Sub t (LastActive env) in
                  log_event (EvWake entity elapsed);;
                  state ← lift (wake entity elapsed state);
                  mret (state, None)
              | None => mret (state, None)
              end
          end
      end
  end.

Definition getLocked (entity : Entity) : SM st (T * error) :=
  resident ← on_res (gets r_resident);
  match resident !! entity with
  | Some el =>
      on_res (MoveToFront el);;
      en ← on_res (Value el);
      mret (en_state en, None)
  | None =>
      '(state, err) ← on_world (fetch entity);
      match err with
      | Some _ => mret (state, err)
      | None =>
          on_res (insert entity state);;
          mret (state, None)
      end
  end.

(** [Update] up to the durable write: encode, stamp and put. *)
Definition save (entity : Entity) (next : T) : SM (world B) error :=
  enc ← lift (Marshal (st_codec s) next);
  match enc with
  | inr err => mret (Some (Errorf ("persist: encode state " +:+ entity +:+ ": ") err))
  | inl stateRaw =>
      t ← now;
      match json_Marshal_envelope (mkEnvelope stateRaw t) with
      | inr err => mret (Some (Errorf ("persist: encode envelope " +:+ entity +:+ ": ") err))
      | inl envRaw => b_Put (key entity) envRaw
      end
  end.

Definition updateLocked (entity : Entity) (fn : T -> result T) : SM st (T * error) :=
  '(cur, err) ← getLocked entity;
  match err with
  | Some _ => mret (cur, err)
  | None =>
      next ← lift (fn cur);
      err ← on_world (save entity next);
      match err with
      | Some _ => mret (next, err)
      | None =>
          resident ← on_res (gets r_resident);
          match resident !! entity with
          | Some el => on_res (set_state el next);; on_res (MoveToFront el)
          | None => on_res (insert entity next)
          end;;
          mret (next, None)
      end
  end.

Definition deleteLocked (entity : Entity) : SM st error :=
  err ← on_world (b_Delete (key entity));
  match err with
  | Some _ => mret err
  | None =>
      resident ← on_res (gets r_resident);
      match resident !! entity with
      | Some el =>
          on_res (list_Remove el);;
          on_res (modify (fun x => set_resident (delete entity (r_resident x)) x));;
          mret None
      | None => mret None
      end
  end.

(** [s.mu.Lock(); defer s.mu.Unlock()]: a second lock by the same goroutine never
    returns; a panic releases it. *)
Definition locked {A} (m : SM st A) : SM st A := fun x =>
  if r_mu (s_res x) then (Blocked, x)
  else
    match m (mkSt (set_mu true (s_res x)) (s_world x)) with
    | (Blocked, x') => (Blocked, x')
    | (r, x') => (r, mkSt (set_mu false (s_res x')) (s_world x'))
    end.

Definition Get (entity : Entity) : SM st (T * error) := locked (getLocked entity).
Definition Update (entity : Entity) (fn : T -> result T) : SM st (T * error) :=
  locked (updateLocked entity fn).
Definition Delete (entity : Entity) : SM st error := locked (deleteLocked entity).
Definition Resident : SM st Z :=
  locked (on_res (gets (fun x => Z.of_nat (length (r_lru x))))).

(** *** Calls *)

(** A call of one of the methods, and its reply. *)
Inductive call :=
| CGet (e : Entity)
| CUpdate (e : Entity) (fn : T -> result T)
| CDelete (e : Entity)
| CResident.

Inductive reply :=
| RState (state : T) (err : error)
| RErr (err : error)
| RCount (n : Z).

Definition exec (c : call) : SM st reply :=
  match c with
  | CGet e => r ← Get e; mret (RState r.1 r.2)
  | CUpdate e fn => r ← Update e fn; mret (RState r.1 r.2)
  | CDelete e => err ← Delete e; mret (RErr err)
  | CResident => n ← Resident; mret (RCount n)
  end.

(** ** The abstract cache *)

Fixpoint cache_find (e : Entity) (c : cache T) : option T :=
  match c with
  | [] => None
  | en :: c => if decide (en_entity en = e) then Some (en_state en) else cache_find e c
  end.
Definition cache_remove (e : Entity) (c : cache T) : cache T := filter (fun en => en_entity en <> e) c.
Definition touch (e : Entity) (state : T) (c : cache T) : cache T := mkEntry e state :: cache_remove e c.
Definition room : nat := Z.to_nat (st_bound s) - 1.
Definition cache_insert (e : Entity) (state : T) (c : cache T) : cache T :=
  mkEntry e state :: take room c.

Definition spec_get (e : Entity) : SM (cache T * world B) (T * error) := fun '(c, w) =>
  match cache_find e c with
  | Some state => (Done (state, None), (touch e state c, w))
  | None =>
      match fetch e w with
      | (Done (state, None), w') => (Done (state, None), (cache_insert e state c, w'))
      | (r, w') => (r, (c, w'))
      end
  end.

Definition spec_save (e : Entity) (fn : T -> result T) (cur : T)
  : SM (cache T * world B) (T * error) := fun '(c, w) =>
  match fn cur with
  | Panicked v => (Panicked v, (c, w))
  | Blocked => (Blocked, (c, w))
  | Done next =>
      match save e next w with
      | (Done None, w') => (Done (next, None), (touch e next c, w'))
      | (Done (Some err), w') => (Done (next, Some err), (c, w'))
      | (Panicked v, w') => (Panicked v, (c, w'))
      | (Blocked, w') => (Blocked, (c, w'))
      end
  end.

Definition spec_update (e : Entity) (fn : T -> result T) : SM (cache T * world B) (T * error) :=
  fun cw =>
  match spec_get e cw with
  | (Done (cur, None), cw) => spec_save e fn cur cw
  | r => r
  end.

Definition spec_delete (e : Entity) : SM (cache T * world B) error := fun '(c, w) =>
  match b_Delete (key e) w with
  | (Done None, w') => (Done None, (cache_remove e c, w'))
  | (r, w') => (r, (c, w'))
  end.

Definition spec_exec (c : call) : SM (cache T * world B) reply :=
  match c with
  | CGet e => r ← spec_get e; mret (RState r.1 r.2)
  | CUpdate e fn => r ← spec_update e fn; mret (RState r.1 r.2)
  | CDelete e => err ← spec_delete e; mret (RErr err)
  | CResident => n ← gets (fun cw => Z.of_nat (length cw.1)); mret (RCount n)
  end.
End Store.

Arguments st_bound {T} _.
Arguments st_name {T} _.
Arguments st_wake {T} _.
Arguments st_codec {T} _.
Arguments s_res {B T} _.
Arguments s_world {B T} _.
Arguments mkSt {B T} _ _.
Arguments mkStore {T} _ _ _ _.
(** ** The cache a residency stands for *)

Section Residency.
Context {T : Type} (s : Store (T:=T)).
Implicit Types x : residency T.

(** The entries of the elements, hottest first. *)
Definition entries x (l : list nat) : cache T := omap (fun el => r_heap x !! el) l.
Definition view x : cache T := entries x (r_lru x).

Lemma entries_cons x a l :
  entries x (a :: l) = match r_heap x !! a with
                       | Some en => en :: entries x l
                       | None => entries x l
                       end.
Proof. reflexivity. Qed.

(** The list and the map agree, every element has its entry, and the bound holds. *)
Record consistent x : Prop := {
  lru_nodup : NoDup (r_lru x);
  lru_heap el : el ∈ r_lru x -> is_Some (r_heap x !! el);
  resident_lru e el :
    r_resident x !! e = Some el <-> el ∈ r_lru x /\ en_entity <$> r_heap x !! el = Some e;
  heap_fresh el en : r_heap x !! el = Some en -> el < r_next x;
  lru_bound : (Z.of_nat (length (r_lru x)) <= st_bound s)%Z }.

Lemma consistent_empty : (0 < st_bound s)%Z -> consistent empty_residency.
Proof.
  split; simpl; try done.
  - constructor.
  - intros el Hel. by apply elem_of_nil in Hel.
  - intros e el. rewrite lookup_empty. split; [done|]. intros [Hel _]. by apply elem_of_nil in Hel.
  - lia.
Qed.

Lemma omap_length {A C} (f : A -> option C) l :
  (forall a, a ∈ l -> is_Some (f a)) -> length (omap f l) = length l.
Proof.
  induction l as [|a l IH]; [done|]. intros Hl. simpl.
  destruct (Hl a) as [c ->]; [by left|]. simpl. f_equal. apply IH.
  intros a' Ha. apply Hl. by right.
Qed.

Lemma view_length x : consistent x -> length (view x) = length (r_lru x).
Proof. intros Hx. apply omap_length, (lru_heap _ Hx). Qed.

(** Two elements of one entity are the same element. *)
Lemma element_unique x el el' e :
  consistent x -> el ∈ r_lru x -> el' ∈ r_lru x ->
  en_entity <$> r_heap x !! el = Some e -> en_entity <$> r_heap x !! el' = Some e -> el = el'.
Proof.
  intros Hx H1 H2 E1 E2.
  assert (r_resident x !! e = Some el) by by apply (resident_lru _ Hx).
  assert (r_resident x !! e = Some el') by by apply (resident_lru _ Hx).
  congruence.
Qed.

Lemma find_omap x l e el en :
  (forall el', el' ∈ l -> en_entity <$> r_heap x !! el' = Some e -> el' = el) ->
  el ∈ l -> r_heap x !! el = Some en -> en_entity en = e ->
  cache_find e (entries x l) = Some (en_state en).
Proof.
  intros Hu Hel Hen He. induction l as [|a l IH]; [by apply elem_of_nil in Hel|].
  rewrite entries_cons. assert (a <> el -> cache_find e (entries x l) = Some (en_state en)) as Ha.
  { intros Hne. apply IH; [|by apply elem_of_cons in Hel as [?|?]].
    intros el' Hel'. apply Hu. by right. }
  destruct (r_heap x !! a) as [en'|] eqn:Hx; simpl.
  - case_decide as Hd.
    + rewrite (Hu a) in Hx; [congruence | by left | by rewrite Hx; simpl; f_equal].
    + apply Ha. congruence.
  - apply Ha. congruence.
Qed.

Lemma find_omap_None x l e :
  (forall el, el ∈ l -> en_entity <$> r_heap x !! el <> Some e) ->
  cache_find e (entries x l) = None.
Proof.
  induction l as [|a l IH]; [done|]. intros Hl.
  rewrite entries_cons. assert (Ha := Hl a (list_elem_of_here _ _)).
  assert (IH' := IH (fun el Hel => Hl el (list_elem_of_further _ _ _ Hel))).
  destruct (r_heap x !! a); [|exact IH']. simpl. case_decide; [|exact IH'].
  subst. by simpl in Ha.
Qed.

(** A lookup in the map finds what the list has. *)
Lemma view_find x e :
  consistent x ->
  cache_find e (view x) = (r_resident x !! e ≫= fun el => en_state <$> r_heap x !! el).
Proof.
  intros Hx. destruct (r_resident x !! e) as [el|] eqn:Hr; simpl.
  - apply (resident_lru _ Hx) in Hr as [Hel He].
    destruct (r_heap x !! el) as [en|] eqn:Hen; [|done]. simplify_eq/=.
    apply (find_omap x _ _ el); [|done..].
    intros el' Hel' He'. eapply element_unique; eauto. by rewrite Hen.
  - apply find_omap_None. intros el Hel He.
    assert (r_resident x !! e = Some el) by by apply (resident_lru _ Hx). congruence.
Qed.

(** No entity is there twice. *)
Lemma entries_nodup x l :
  NoDup l -> (forall el, el ∈ l -> is_Some (r_heap x !! el)) ->
  (forall el el' e, el ∈ l -> el' ∈ l -> en_entity <$> r_heap x !! el = Some e ->
     en_entity <$> r_heap x !! el' = Some e -> el = el') ->
  NoDup (en_entity <$> entries x l).
Proof.
  induction l as [|a l IH]; intros Hnd Hheap Hu; [constructor|].
  apply NoDup_cons in Hnd as [Hal Hnd]. rewrite entries_cons.
  destruct (Hheap a) as [en Ha]; [by left|]. rewrite Ha, fmap_cons. constructor.
  - intros Hin. apply Hal. apply list_elem_of_fmap in Hin as (en' & He & Hen').
    unfold entries in Hen'. apply list_elem_of_omap in Hen' as (el & Hel & Hx).
    rewrite (Hu a el (en_entity en)); [done | by left | by right | by rewrite Ha |].
    rewrite Hx, He. done.
  - apply IH; [done | |].
    + intros el Hel. apply Hheap. by right.
    + intros el el' e Hel Hel'. apply Hu; by right.
Qed.

Lemma view_nodup x : consistent x -> NoDup (en_entity <$> view x).
Proof.
  intros Hx. apply entries_nodup; [apply (lru_nodup _ Hx) | apply (lru_heap _ Hx) |].
  intros el el' e. by apply element_unique.
Qed.

(** Taking an element out of the list takes its entity out of the cache. *)
Lemma omap_without x (l : list nat) (e : Entity) (el : nat) :
  (forall el', el' ∈ l -> is_Some (r_heap x !! el') /\
     ((en_entity <$> r_heap x !! el') = Some e <-> el' = el)) ->
  entries x (without el l)
  = cache_remove e (entries x l).
Proof.
  unfold without, cache_remove. induction l as [|a l IH]; [done|]. intros Hl.
  destruct (Hl a) as [[en Ha] Hae]; [by left|].
  assert (IH' := IH (fun el' Hel => Hl el' (list_elem_of_further _ _ _ Hel))).
  rewrite entries_cons, Ha in *. simpl in Hae. rewrite !filter_cons.
  destruct (decide (a = el)) as [->|Hne].
  - rewrite decide_False by tauto. rewrite decide_False; [done|].
    intros Hc. apply Hc. by apply (inj Some), Hae.
  - rewrite decide_True by done. rewrite entries_cons, Ha, IH'.
    rewrite decide_True; [done|]. intros Hc. apply Hne, Hae. by rewrite Hc.
Qed.

Lemma view_without x e el :
  consistent x -> r_resident x !! e = Some el ->
  view (set_lru (without el (r_lru x)) x) = cache_remove e (view x).
Proof.
  intros Hx Hr. apply (resident_lru _ Hx) in Hr as [Hel He]. apply omap_without.
  intros el' Hel'. split; [by apply (lru_heap _ Hx)|]. split; [|by intros ->].
  intros He'. by eapply element_unique.
Qed.

Lemma elem_without a el l : a ∈ without el l <-> a <> el /\ a ∈ l.
Proof. unfold without. by rewrite list_elem_of_filter. Qed.

Lemma without_perm el l : NoDup l -> el ∈ l -> el :: without el l ≡ₚ l.
Proof.
  intros Hnd Hel. apply NoDup_Permutation; [|done|].
  - constructor; [|by apply NoDup_filter]. intros [Hc _]%list_elem_of_filter. done.
  - intros a. rewrite elem_of_cons, elem_without.
    destruct (decide (a = el)) as [->|Hne]; [tauto|]. split; [|tauto]. by intros [?|[_ ?]].
Qed.

Lemma without_none el l : el ∉ l -> without el l = l.
Proof.
  unfold without. induction l as [|a l IH]; [done|]. intros Hel.
  rewrite not_elem_of_cons in Hel. rewrite filter_cons_True, IH by naive_solver. done.
Qed.

Lemma entries_ext x y l :
  (forall el, el ∈ l -> r_heap x !! el = r_heap y !! el) -> entries x l = entries y l.
Proof.
  induction l as [|a l IH]; [done|]. intros Hl.
  rewrite !entries_cons, (Hl a), IH; [done | | by left].
  intros el Hel. apply Hl. by right.
Qed.

(** The element of a resident entity. *)
Lemma resident_entry x e el :
  consistent x -> r_resident x !! e = Some el ->
  el ∈ r_lru x /\ exists state, r_heap x !! el = Some (mkEntry e state).
Proof.
  intros Hx [Hel He]%(resident_lru _ Hx). split; [done|].
  destruct (r_heap x !! el) as [[e' state]|]; [|done]. simplify_eq/=. by exists state.
Qed.

(** Moving an element to the front, with the state it has now. *)
Lemma consistent_front x e el state :
  consistent x -> r_resident x !! e = Some el ->
  consistent (mkResidency (r_mu x) (r_resident x) (el :: without el (r_lru x))
                (<[el := mkEntry e state]> (r_heap x)) (r_next x)).
Proof.
  intros Hx Hr. destruct (resident_entry x e el Hx Hr) as (Hel & old & Hold).
  pose proof (without_perm el _ (lru_nodup _ Hx) Hel) as Hp.
  split; simpl.
  - rewrite Hp. apply (lru_nodup _ Hx).
  - intros el' Hel'. rewrite Hp in Hel'. destruct (decide (el' = el)) as [->|].
    + by rewrite lookup_insert_eq.
    + rewrite lookup_insert_ne by done. by apply (lru_heap _ Hx).
  - intros e' el'. rewrite Hp, (resident_lru _ Hx).
    destruct (decide (el' = el)) as [->|]; [|by rewrite lookup_insert_ne by done].
    by rewrite lookup_insert_eq, Hold.
  - intros el' en. destruct (decide (el' = el)) as [->|].
    + intros _. by eapply (heap_fresh _ Hx).
    + rewrite lookup_insert_ne by done. apply (heap_fresh _ Hx).
  - change (S (length (without el (r_lru x)))) with (length (el :: without el (r_lru x))).
    rewrite Hp. apply (lru_bound _ Hx).
Qed.

Lemma view_front x e el state :
  consistent x -> r_resident x !! e = Some el ->
  view (mkResidency (r_mu x) (r_resident x) (el :: without el (r_lru x))
          (<[el := mkEntry e state]> (r_heap x)) (r_next x)) = touch e state (view x).
Proof.
  intros Hx Hr. unfold view at 1. cbn [r_lru]. rewrite entries_cons. cbn [r_heap].
  rewrite lookup_insert_eq. unfold touch. f_equal. rewrite <- (view_without x e el Hx Hr).
  apply entries_ext. intros el' [Hne _]%elem_without. simpl. by rewrite lookup_insert_ne.
Qed.

(** Taking an element out. *)
Lemma consistent_removed x e el :
  consistent x -> r_resident x !! e = Some el ->
  consistent (set_resident (delete e (r_resident x)) (set_lru (without el (r_lru x)) x)).
Proof.
  intros Hx Hr. destruct (resident_entry x e el Hx Hr) as (Hel & old & Hold).
  split; simpl.
  - apply NoDup_filter, (lru_nodup _ Hx).
  - intros el' [_ Hel']%elem_without. by apply (lru_heap _ Hx).
  - intros e' el'. rewrite lookup_delete_Some, (resident_lru _ Hx), elem_without.
    split; [|intros [[Hne Hel'] He]]; [intros (Hne & Hel' & He)|].
    + split; [|done]. split; [|done]. intros ->. rewrite Hold in He. by simplify_eq/=.
    + split; [|done]. intros ->. apply Hne.
      eapply element_unique; eauto. by rewrite Hold.
  - apply (heap_fresh _ Hx).
  - pose proof (length_filter (.≠ el) (r_lru x)). pose proof (lru_bound _ Hx).
    unfold without. lia.
Qed.

(** A new element at the front, where there is room. *)
Lemma consistent_pushed x e state :
  consistent x -> r_resident x !! e = None ->
  (Z.of_nat (length (r_lru x)) < st_bound s)%Z ->
  consistent (mkResidency (r_mu x) (<[e := r_next x]> (r_resident x)) (r_next x :: r_lru x)
                (<[r_next x := mkEntry e state]> (r_heap x)) (S (r_next x))).
Proof.
  intros Hx Hr Hroom.
  assert (Hfresh : forall el, el ∈ r_lru x -> el <> r_next x).
  { intros el Hel ->. destruct (lru_heap _ Hx _ Hel) as [en Hen].
    apply (heap_fresh _ Hx) in Hen. lia. }
  split; simpl.
  - constructor; [|apply (lru_nodup _ Hx)]. intros Hc. by apply (Hfresh _ Hc).
  - intros el Hel. destruct (decide (el = r_next x)) as [->|Hne].
    + by rewrite lookup_insert_eq.
    + rewrite lookup_insert_ne by done. apply (lru_heap _ Hx).
      by apply elem_of_cons in Hel as [?|?].
  - intros e' el. rewrite elem_of_cons. destruct (decide (el = r_next x)) as [->|Hne].
    + rewrite lookup_insert_eq. simpl. destruct (decide (e' = e)) as [->|He].
      * rewrite lookup_insert_eq. naive_solver.
      * rewrite lookup_insert_ne by done. split; [|naive_solver].
        intros [Hc _]%(resident_lru _ Hx). by apply Hfresh in Hc.
    + rewrite (lookup_insert_ne (r_heap x)) by done. destruct (decide (e' = e)) as [->|He].
      * rewrite lookup_insert_eq. split; [naive_solver|]. intros [[?|Hel] He]; [done|].
        assert (r_resident x !! e = Some el) by by apply (resident_lru _ Hx). congruence.
      * rewrite lookup_insert_ne, (resident_lru _ Hx) by done. naive_solver.
  - intros el en. destruct (decide (el = r_next x)) as [->|Hne]; [lia|].
    rewrite lookup_insert_ne by done. intros Hen%(heap_fresh _ Hx). lia.
  - lia.
Qed.

Lemma view_pushed x e state :
  consistent x ->
  view (mkResidency (r_mu x) (<[e := r_next x]> (r_resident x)) (r_next x :: r_lru x)
          (<[r_next x := mkEntry e state]> (r_heap x)) (S (r_next x)))
  = mkEntry e state :: view x.
Proof.
  intros Hx. unfold view at 1. cbn [r_lru]. rewrite entries_cons. cbn [r_heap].
  rewrite lookup_insert_eq.
  f_equal. apply entries_ext. intros el Hel. simpl. apply lookup_insert_ne. intros <-.
  destruct (lru_heap _ Hx _ Hel) as [en Hen]. apply (heap_fresh _ Hx) in Hen. lia.
Qed.

(** With no room, the last element goes; the next turn finds room. *)
Lemma evict_spec x fuel :
  (0 < st_bound s)%Z -> consistent x -> length (r_lru x) < fuel ->
  exists x', evict s fuel x = (Done (), x') /\ consistent x' /\
    view x' = take (room s) (view x) /\ (Z.of_nat (length (r_lru x')) < st_bound s)%Z /\
    (forall e, r_resident x !! e = None -> r_resident x' !! e = None).
Proof.
  intros Hb Hx Hfuel. pose proof (lru_bound _ Hx) as Hlen.
  destruct fuel as [|fuel]; [lia|]. simpl. destruct (Z.leb_spec (st_bound s) (Z.of_nat (length (r_lru x)))).
  - destruct (r_lru x) as [|el l _] eqn:Hl using rev_ind; [simpl in *; lia|].
    assert (Hel : el ∈ r_lru x) by (rewrite Hl; set_solver).
    destruct (lru_heap _ Hx el Hel) as [en Hen].
    assert (Hr : r_resident x !! en_entity en = Some el).
    { apply (resident_lru _ Hx). by rewrite Hen. }
    pose proof (consistent_removed x _ _ Hx Hr) as Hx'.
    assert (Hw : without el (r_lru x) = l).
    { pose proof (lru_nodup _ Hx) as Hnd. rewrite Hl in Hnd |- *.
      apply NoDup_app in Hnd as (_ & Hnd & _). unfold without.
      rewrite filter_app, filter_cons_False, filter_nil, app_nil_r by tauto.
      apply without_none. intros Ha. apply (Hnd el Ha). by left. }
    unfold mbind, SM_bind at 1. unfold Back. rewrite Hl, last_snoc. simpl.
    unfold SM_bind, list_Remove, modify, Value. simpl. rewrite Hen. simpl.
    unfold modify. rewrite Hw in *.
    rewrite length_app in *. simpl in *. destruct fuel as [|fuel]; [lia|].
    eexists. split.
    { simpl. rewrite (proj2 (Z.leb_gt _ _)) by (simpl; lia). reflexivity. }
    split; [done|]. split; [|split; [simpl; lia|]].
    + transitivity (entries x l); [reflexivity|]. unfold view. rewrite Hl. unfold entries.
      rewrite omap_app. symmetry. apply take_app_length'. rewrite omap_length.
      { unfold room. lia. }
      intros a Ha. apply (lru_heap _ Hx). rewrite Hl. set_solver.
    + intros e He. simpl. rewrite lookup_delete_None. by right.
  - exists x. split; [done|]. split; [done|]. split; [|split; [lia|done]]. rewrite take_ge; [done|].
    rewrite view_length by done. unfold room. lia.
Qed.

Lemma insert_spec x e state :
  (0 < st_bound s)%Z -> consistent x -> r_resident x !! e = None ->
  exists x', insert s e state x = (Done (), x') /\ consistent x' /\
    view x' = cache_insert s e state (view x).
Proof.
  intros Hb Hx He. unfold insert.
  destruct (evict_spec x (S (length (r_lru x))) Hb Hx ltac:(lia)) as (x1 & Hev & Hx1 & Hv & Hroom & Hnone).
  unfold mbind, SM_bind. rewrite Hev. unfold PushFront, modify, set_resident. simpl.
  eexists. split; [reflexivity|]. split.
  - apply consistent_pushed; auto.
  - rewrite view_pushed by done. unfold cache_insert. by rewrite Hv.
Qed.
End Residency.

(** ** Running a sequence of calls *)

Section Running.
Context {B T : Type}.

Lemma on_res_run {A} (m : SM (residency T) A) x (w : world B) r x' :
  m x = (r, x') -> on_res m (mkSt x w) = (r, mkSt x' w).
Proof. intros Hm. unfold on_res. simpl. by rewrite Hm. Qed.

Lemma on_world_run {A} (m : SM (world B) A) (x : residency T) w r w' :
  m w = (r, w') -> on_world m (mkSt x w) = (r, mkSt x w').
Proof. intros Hm. unfold on_world. simpl. by rewrite Hm. Qed.
End Running.

(** One call of a sequence, its run given by [H]. *)
Ltac run_res H := rewrite (bind_done _ _ _ _ _ (on_res_run _ _ _ _ _ H)); cbv beta iota.
Ltac run_world H := rewrite (bind_done _ _ _ _ _ (on_world_run _ _ _ _ _ H)); cbv beta iota.

(** ** The code refines the cache *)

Section Refinement.
Context {B : Type} `{Backend B} {T : Type} (zero : T).
Context (other : bytes -> envelope + goerror) (clock : nat -> gotime).
Context (s : Store (T:=T)) (Hbound : (0 < st_bound s)%Z).
Implicit Types (x : residency T) (w : world B).

(** From a consistent residency, the code and the cache give the same result, the
    same world and the same cache. *)
Definition refines {A} (m : SM st A) (spec : SM (cache T * world B) A) : Prop :=
  forall x w, consistent s x -> exists r x' w',
    m (mkSt x w) = (r, mkSt x' w') /\ consistent s x' /\ spec (view x, w) = (r, (view x', w')).

Lemma MoveToFront_spec x e el :
  consistent s x -> r_resident x !! e = Some el ->
  exists state x', MoveToFront el x = (Done (), x') /\ Value el x' = (Done (mkEntry e state), x') /\
    cache_find e (view x) = Some state /\ consistent s x' /\ view x' = touch e state (view x).
Proof.
  intros Hx Hr. destruct (resident_entry s x e el Hx Hr) as (Hel & state & Hen).
  pose proof (consistent_front s x e el state Hx Hr) as Hc.
  pose proof (view_front s x e el state Hx Hr) as Hv.
  rewrite insert_id in Hc, Hv by done. eexists state, _.
  unfold MoveToFront, modify. rewrite decide_True by done. split; [reflexivity|].
  split_and!; try done.
  - unfold Value. simpl. by rewrite Hen.
  - rewrite (view_find s) by done. by rewrite Hr; simpl; rewrite Hen.
Qed.

(** A resident entity with a new state. *)
Lemma replace_spec x e el next :
  consistent s x -> r_resident x !! e = Some el ->
  exists x1 x', set_state el next x = (Done (), x1) /\ MoveToFront el x1 = (Done (), x') /\
    consistent s x' /\ view x' = touch e next (view x).
Proof.
  intros Hx Hr. destruct (resident_entry s x e el Hx Hr) as (Hel & state & Hen).
  eexists _, _. split.
  { unfold set_state, Value, mbind, SM_bind. rewrite Hen. reflexivity. }
  split.
  { unfold MoveToFront, modify. simpl. rewrite decide_True by done. reflexivity. }
  unfold set_lru. simpl.
  split; [by apply (consistent_front s x e el next) | by apply (view_front s)].
Qed.

Lemma getLocked_refines e : refines (getLocked zero other clock s e) (spec_get zero other clock s e).
Proof.
  intros x w Hx. unfold getLocked, spec_get. rewrite (view_find s) by done.
  run_res (eq_refl : gets r_resident x = (Done (r_resident x), x)).
  destruct (r_resident x !! e) as [el|] eqn:Hr.
  - destruct (MoveToFront_spec x e el Hx Hr) as (state & x' & Hm & Hen & Hf & Hx' & Hv).
    rewrite (view_find s), Hr in Hf by done. rewrite Hf.
    run_res Hm. run_res Hen. exists (Done (state, None)), x', w. by rewrite Hv.
  - simpl. destruct (fetch zero other clock s e w) as [[[state [err|]]|v|] w'] eqn:Hfetch.
    + run_world Hfetch. by eexists _, x, w'.
    + run_world Hfetch. destruct (insert_spec s x e state Hbound Hx Hr) as (x' & Hi & Hx' & Hv).
      run_res Hi. exists (Done (state, None)), x', w'. by rewrite Hv.
    + rewrite (bind_panicked _ _ _ _ _ (on_world_run _ _ _ _ _ Hfetch)). by eexists _, x, w'.
    + rewrite (bind_blocked _ _ _ _ (on_world_run _ _ _ _ _ Hfetch)). by eexists _, x, w'.
Qed.

(** What [spec_get] returns is in the cache. *)
Lemma spec_get_found e c w state c' w' :
  spec_get zero other clock s e (c, w) = (Done (state, None), (c', w')) ->
  cache_find e c' = Some state.
Proof.
  unfold spec_get. destruct (cache_find e c) as [st|].
  - intros [= <- <- _]. simpl. by rewrite decide_True.
  - destruct (fetch zero other clock s e w) as [[[st [err|]]|v|] w1]; intros [=]; simplify_eq.
    simpl. by rewrite decide_True.
Qed.

Lemma updateLocked_refines e fn :
  refines (updateLocked zero other clock s e fn) (spec_update zero other clock s e fn).
Proof.
  intros x w Hx. destruct (getLocked_refines e x w Hx) as (r & x1 & w1 & Hget & Hx1 & Hspec).
  unfold updateLocked, spec_update. rewrite Hspec. destruct r as [[cur [err|]]|v|].
  - rewrite (bind_done _ _ _ _ _ Hget). by eexists _, x1, w1.
  - rewrite (bind_done _ _ _ _ _ Hget). cbv beta iota. unfold spec_save.
    apply spec_get_found in Hspec. rewrite (view_find s) in Hspec by done.
    destruct (fn cur) as [next|v|] eqn:Hfn; [|by eexists _, x1, w1..].
    rewrite (bind_done (lift (Done next)) _ _ _ _ eq_refl). cbv beta.
    destruct (save clock s e next w1) as [[[err|]|v|] w2] eqn:Hsave.
    + run_world Hsave. by eexists _, x1, w2.
    + run_world Hsave. run_res (eq_refl : gets r_resident x1 = (Done (r_resident x1), x1)).
      destruct (r_resident x1 !! e) as [el|] eqn:Hr; [|done].
      destruct (replace_spec x1 e el next Hx1 Hr) as (x2 & x3 & Hset & Hm & Hx3 & Hv).
      eexists (Done (next, None)), x3, w2. split; [|by rewrite Hv].
      erewrite bind_done; [reflexivity|].
      run_res Hset. by rewrite (on_res_run _ _ _ _ _ Hm).
    + rewrite (bind_panicked _ _ _ _ _ (on_world_run _ _ _ _ _ Hsave)). by eexists _, x1, w2.
    + rewrite (bind_blocked _ _ _ _ (on_world_run _ _ _ _ _ Hsave)). by eexists _, x1, w2.
  - rewrite (bind_panicked _ _ _ _ _ Hget). by eexists _, x1, w1.
  - rewrite (bind_blocked _ _ _ _ Hget). by eexists _, x1, w1.
Qed.

Lemma remove_absent e (c : cache T) : cache_find e c = None -> cache_remove e c = c.
Proof.
  unfold cache_remove. induction c as [|en c IH]; [done|]. simpl.
  case_decide as Hd; [done|]. intros Hc. by rewrite filter_cons_True, IH.
Qed.

Lemma deleteLocked_refines e : refines (deleteLocked s e) (spec_delete s e).
Proof.
  intros x w Hx. unfold deleteLocked, spec_delete.
  destruct (b_Delete (key s e) w) as [[[err|]|v|] w1] eqn:Hdel.
  - run_world Hdel. by eexists _, x, w1.
  - run_world Hdel. run_res (eq_refl : gets r_resident x = (Done (r_resident x), x)).
    destruct (r_resident x !! e) as [el|] eqn:Hr.
    + pose proof (consistent_removed s x e el Hx Hr) as Hx'.
      eexists (Done None), _, w1. split; [reflexivity|]. split; [done|].
      do 2 f_equal. by rewrite <- (view_without s x e el Hx Hr).
    + exists (Done None), x, w1. split; [done|]. split; [done|].
      rewrite remove_absent; [done|]. rewrite (view_find s) by done. by rewrite Hr.
  - rewrite (bind_panicked _ _ _ _ _ (on_world_run _ _ _ _ _ Hdel)). by eexists _, x, w1.
  - rewrite (bind_blocked _ _ _ _ (on_world_run _ _ _ _ _ Hdel)). by eexists _, x, w1.
Qed.

Lemma Resident_refines :
  refines (on_res (gets (fun x => Z.of_nat (length (r_lru x)))))
    (gets (fun cw => Z.of_nat (length cw.1))).
Proof.
  intros x w Hx. exists (Done (Z.of_nat (length (r_lru x)))), x, w.
  split; [done|]. split; [done|]. unfold gets. simpl. by rewrite (view_length s).
Qed.

(** ** The lock *)

Definition abstract (f : st) : cache T * world B := (view (s_res f), s_world f).

(** A lock that is held is not taken; one that is free is free again afterwards,
    unless the body never returns. *)
Lemma locked_refines {A} (m : SM st A) spec (g : A -> reply (T:=T)) f :
  refines m spec -> consistent s (s_res f) ->
  exists r f', (locked m ≫= fun a => mret (g a)) f = (r, f') /\ consistent s (s_res f') /\
    (r_mu (s_res f) = true -> r = Blocked /\ f' = f) /\
    (r_mu (s_res f) = false ->
       (spec ≫= fun a => mret (g a)) (abstract f) = (r, abstract f') /\
       (r <> Blocked -> r_mu (s_res f') = false)).
Proof.
  intros Hm Hf. destruct f as [x w]. unfold mbind, SM_bind, locked, abstract. simpl. destruct (r_mu x).
  { by exists Blocked, (mkSt x w). }
  assert (Hx : consistent s (set_mu true x)) by (destruct Hf; by split).
  destruct (Hm _ w Hx) as (r & x' & w' & Hrun & Hx' & Hspec).
  change (view (set_mu true x)) with (view x) in Hspec. rewrite Hrun, Hspec.
  assert (consistent s (set_mu false x')) by (destruct Hx'; by split).
  destruct r as [a|v|]; eexists _, _; by split_and!.
Qed.

Lemma exec_refines c f :
  consistent s (s_res f) ->
  exists r f', exec zero other clock s c f = (r, f') /\ consistent s (s_res f') /\
    (r_mu (s_res f) = true -> r = Blocked /\ f' = f) /\
    (r_mu (s_res f) = false -> spec_exec zero other clock s c (abstract f) = (r, abstract f') /\
       (r <> Blocked -> r_mu (s_res f') = false)).
Proof.
  destruct c as [e|e fn|e|]; apply locked_refines.
  - apply getLocked_refines.
  - apply updateLocked_refines.
  - apply deleteLocked_refines.
  - apply Resident_refines.
Qed.
End Refinement.
