(* ===== verification/Durable.v ===== *)
(** * Durable: what the store promises (persist/store.go, persist/doc.go)

    The contract of the durable tier, over any backend that keeps [BackendLaws] and
    any codec that reads what it wrote: the code is the cache it abstracts to; [Get]
    never writes and wakes once per rehydration; [Update] is durable before it is
    visible; what it stored survives evictions and restarts. *)

From S2P Require Import Prelude Values StateMonad Instants Envelope Backend Store.
From Stdlib Require Import Ascii.

(** A codec that reads what it wrote. *)
Class CodecLaws {T} (c : Codec T) :=
  Unmarshal_Marshal v b : Marshal c v = Done (inl b) -> Unmarshal c b = Done (v, None).

(** The default codec does where [encoding/json] does on the type. *)
Class JSONLaws (T : Type) `{JSON T} :=
  json_Unmarshal_Marshal (v : T) b :
    json_Marshal v = Done (inl b) -> json_Unmarshal b = Done (v, None).

Instance JSONCodec_laws {T} `{JSONLaws T} : CodecLaws (JSONCodec (T:=T)).
Proof.
  intros v b. simpl. destruct (json_Marshal v) as [[b'|e]|p|] eqn:Hm; intros; simplify_eq.
  by apply json_Unmarshal_Marshal.
Qed.

(** ** Construction *)

(** An option that comes from one of the constructors. *)
Definition made {T} (opt : Option (T:=T)) : Prop :=
  (exists n, WithBound n = Done opt) \/ (exists fn, opt = WithWake fn) \/
  (exists c, opt = WithCodec c).

Lemma made_bound {T} (opts : list (Option (T:=T))) cfg :
  Forall made opts -> (0 < cf_bound cfg)%Z ->
  (0 < cf_bound (foldl (fun cfg opt => opt cfg) cfg opts))%Z.
Proof.
  revert cfg. induction opts as [|opt opts IH]; [done|].
  intros cfg [Ho Hos]%Forall_cons Hc. simpl. apply IH; [done|].
  destruct Ho as [[n Hn]|[[fn ->]|[c ->]]]; [|done..].
  unfold WithBound in Hn. case_match eqn:Hle; simplify_eq. simpl. by apply Z.leb_gt in Hle.
Qed.

Lemma NewStore_consistent {T} `{JSON T} name (opts : list (Option (T:=T))) s x :
  Forall made opts -> NewStore name opts = Done (s, x) ->
  (0 < st_bound s)%Z /\ consistent s x /\ r_mu x = false /\ st_name s = name.
Proof.
  unfold NewStore. case_match; [done|]. intros Hopts [= <- <-].
  assert (Hb : (0 < cf_bound (foldl (fun cfg opt => opt cfg)
                                (mkConfig DefaultBound None JSONCodec) opts))%Z)
    by by apply made_bound.
  split_and!; try done. by apply consistent_empty.
Qed.

Section Durable.
Context {B : Type} `{Backend B} (contents : B -> gmap string bytes) `{!BackendLaws B contents}.
Context {T : Type} (zero : T).
Context (other : bytes -> envelope + goerror) (clock : nat -> gotime).
Context (s : Store (T:=T)) (Hbound : (0 < st_bound s)%Z) `{!CodecLaws (st_codec s)}.
Implicit Types (w : world B) (c : cache T).

Local Abbreviation exec := (exec zero other clock s).
Local Abbreviation key := (key s).

(** ** What a read does *)

(** What a record decodes to: the state and its stamp. *)
Definition decode (raw : bytes) : option (T * gotime) :=
  match json_Unmarshal_envelope other raw with
  | inl env =>
      match Unmarshal (st_codec s) (State env) with
      | Done (state, None) => Some (state, LastActive env)
      | _ => None
      end
  | inr _ => None
  end.

(** What a miss does with the answer of the backend: the wakes it fires, and its
    result. Only a record that decodes wakes, once, by the time since its stamp. *)
Definition fetched (e : Entity) (n : nat) (ans : bytes + goerror)
    (evs : list store_event) (r : result (T * error)) : Prop :=
  match ans with
  | inr err =>
      evs = [] /\ r = Done (zero, if errors_Is err PersistErrNotFound then None else Some err)
  | inl raw =>
      match decode raw, st_wake s with
      | None, _ => evs = [] /\ forall v, r <> Done (v, None)
      | Some (v, _), None => evs = [] /\ r = Done (v, None)
      | Some (v, stamp), Some wake =>
          let elapsed := Time_Sub (clock n) stamp in
          evs = [EvWake e elapsed] /\
          r = match wake e elapsed v with
              | Done v => Done (v, None)
              | Panicked p => Panicked p
              | Blocked => Blocked
              end
      end
  end.

Lemma fetch_spec e w r w' :
  fetch zero other clock s e w = (r, w') ->
  exists ans b evs, Backend_Get (key e) (w_backend w) = (ans, b) /\
    w' = mkWorld b (w_clock w + length evs) (w_trace w ++ EvGet (key e) :: evs) /\
    fetched e (w_clock w) ans evs r.
Proof.
  unfold fetch, b_Get, call_backend, log_event, modify, mbind, SM_bind, mret, SM_ret. simpl.
  destruct (Backend_Get _ _) as [[raw|err] b] eqn:Hget; intros Hrun.
  - exists (inl raw), b. unfold fetched, decode.
    destruct (json_Unmarshal_envelope other raw) as [env|err].
    2: { exists []. rewrite Nat.add_0_r. by simplify_eq/=. }
    unfold lift in Hrun. destruct (Unmarshal _ _) as [[state [err|]]|v|];
      try (exists []; rewrite Nat.add_0_r; by simplify_eq/=).
    destruct (st_wake s) as [wake|]; [|exists []; rewrite Nat.add_0_r; by simplify_eq/=].
    eexists [_]. rewrite Nat.add_1_r. unfold now in Hrun. simpl in Hrun.
    destruct (wake e _ state); simplify_eq/=; by rewrite <- app_assoc.
  - exists (inr err), b, []. rewrite Nat.add_0_r. simpl in *.
    by destruct (errors_Is err PersistErrNotFound); simplify_eq/=.
Qed.

(** A read leaves the backend's contents alone. *)
Lemma fetch_contents e w r w' :
  fetch zero other clock s e w = (r, w') ->
  contents (w_backend w') = contents (w_backend w).
Proof.
  intros (ans & b & evs & Hget & -> & _)%fetch_spec.
  pose proof (Get_contents (key e) (w_backend w)) as Hc. by rewrite Hget in Hc.
Qed.

(** ** What is remembered of an entity

    Either nothing, or the state of its last successful [Update] with the stamp of
    that moment. [recorded] says that the backend has it, [faithful] that a state is
    it: unchanged, or advanced once by the wake hook since the stamp. *)

Definition record : Type := option (T * gotime).

Definition recorded (e : Entity) (rc : record) w : Prop :=
  match rc with
  | None => contents (w_backend w) !! key e = None
  | Some (state, stamp) => exists sr raw,
      Marshal (st_codec s) state = Done (inl sr) /\
      json_Marshal_envelope (mkEnvelope sr stamp) = inl raw /\
      contents (w_backend w) !! key e = Some raw
  end.

Definition woken (e : Entity) (state : T) (stamp : gotime) (v : T) : Prop :=
  exists wake n, st_wake s = Some wake /\
    wake e (Time_Sub (clock n) (as_written stamp)) state = Done v.

Definition faithful (e : Entity) (rc : record) (v : T) : Prop :=
  match rc with
  | None => v = zero
  | Some (state, stamp) => v = state \/ woken e state stamp v
  end.

Definition tracked (e : Entity) (rc : record) c w : Prop :=
  recorded e rc w /\ forall v, cache_find e c = Some v -> faithful e rc v.

(** What [Update] wrote decodes to the state and the stamp as written. *)
Lemma decode_recorded state stamp sr raw :
  Marshal (st_codec s) state = Done (inl sr) ->
  json_Marshal_envelope (mkEnvelope sr stamp) = inl raw ->
  decode raw = Some (state, as_written stamp).
Proof.
  intros Hm Hr. unfold decode. rewrite (Unmarshal_Marshal_envelope other _ _ Hr). simpl.
  by rewrite (Unmarshal_Marshal _ _ Hm).
Qed.

(** A read that succeeds gives what is recorded. *)
Lemma fetch_faithful e rc w state w' :
  recorded e rc w -> fetch zero other clock s e w = (Done (state, None), w') ->
  faithful e rc state.
Proof.
  intros Hrec (ans & b & evs & Hget & _ & Hans)%fetch_spec. destruct ans as [raw|err]; simpl in Hans.
  - apply Get_found in Hget. destruct rc as [[st stamp]|]; simpl in *; [|congruence].
    destruct Hrec as (sr & raw' & Hm & Hr & Hraw). assert (raw' = raw) as -> by congruence.
    rewrite (decode_recorded _ _ _ _ Hm Hr) in Hans.
    destruct (st_wake s) as [wake|] eqn:Hw; [|left; by destruct Hans; simplify_eq].
    right. exists wake, (w_clock w). split; [done|].
    destruct Hans as [_ Heq]. by destruct (wake e _ st); simplify_eq.
  - destruct Hans as [_ Heq]. destruct (errors_Is err PersistErrNotFound) eqn:Hnf; [|done].
    pose proof (Get_missing _ _ _ _ Hget Hnf) as Hno. simplify_eq.
    destruct rc as [[st stamp]|]; simpl in *; [|done].
    destruct Hrec as (sr & raw & _ & _ & Hraw). congruence.
Qed.

(** *** Looking up other entities *)

Lemma cache_find_remove e e' c : e' <> e -> cache_find e (cache_remove e' c) = cache_find e c.
Proof.
  intros Hne. unfold cache_remove. induction c as [|en c IH]; [done|]. rewrite filter_cons.
  simpl. case_decide as Hd; simpl; rewrite IH; [done|].
  rewrite decide_False; [done|congruence].
Qed.

Lemma cache_find_remove_eq e c : cache_find e (cache_remove e c) = None.
Proof.
  unfold cache_remove. induction c as [|en c IH]; [done|]. rewrite filter_cons.
  case_decide; [|done]. simpl. by rewrite decide_False.
Qed.

Lemma cache_find_take e n c v : cache_find e (take n c) = Some v -> cache_find e c = Some v.
Proof.
  revert n. induction c as [|en c IH]; intros [|n]; [done..|]. simpl.
  case_decide; [done|]. apply IH.
Qed.

Lemma touch_tracked e rc e' v c w :
  tracked e rc c w -> (e' = e -> faithful e rc v) -> tracked e rc (touch e' v c) w.
Proof.
  intros [Hrec Hc] Hv. split; [done|]. intros v'. unfold touch. simpl.
  case_decide as He; [intros [= <-]; auto|]. rewrite cache_find_remove by done. apply Hc.
Qed.

Lemma insert_tracked e rc e' v c w :
  tracked e rc c w -> (e' = e -> faithful e rc v) -> tracked e rc (cache_insert s e' v c) w.
Proof.
  intros [Hrec Hc] Hv. split; [done|]. intros v'. unfold cache_insert. simpl.
  case_decide as He; [intros [= <-]; auto|]. intros Hf%cache_find_take. auto.
Qed.

(** *** Every operation on other entities, and every read, keeps the memory *)

Lemma get_tracked e rc e' c w r c' w' :
  tracked e rc c w -> spec_get zero other clock s e' (c, w) = (r, (c', w')) ->
  tracked e rc c' w' /\ forall v, r = Done (v, None) -> e' = e -> faithful e rc v.
Proof.
  intros Htr Hget. pose proof Htr as [Hrec Hc]. unfold spec_get in Hget.
  destruct (cache_find e' c) as [v|] eqn:Hf.
  { simplify_eq. split; [|intros; simplify_eq; auto].
    apply touch_tracked; [done|]. intros ->. auto. }
  destruct (fetch zero other clock s e' w) as [rf w1] eqn:Hfetch.
  assert (Hw1 : recorded e rc w1).
  { unfold recorded. by rewrite (fetch_contents _ _ _ _ Hfetch). }
  assert (tracked e rc c w1) as Htr1 by done.
  destruct rf as [[v [err|]]|p|]; simplify_eq; try by split.
  assert (e' = e -> faithful e rc v) as Hv.
  { intros ->. exact (fetch_faithful _ _ _ _ _ Hrec Hfetch). }
  split; [by apply insert_tracked|]. intros v' [= <-]. done.
Qed.

Lemma key_inj e e' : key e = key e' -> e = e'.
Proof. unfold Store.key. by intros ?%(inj _)%(inj _). Qed.

(** Writes under other keys leave an entry alone. *)
Lemma save_elsewhere e next w r w' k :
  k <> key e -> save clock s e next w = (r, w') ->
  contents (w_backend w') !! k = contents (w_backend w) !! k.
Proof.
  unfold save, lift, now, b_Put, log_event, modify, call_backend, mbind, SM_bind, mret, SM_ret.
  simpl. intros Hk Hsave. destruct (Marshal _ _) as [[sr|err]|v|]; simplify_eq/=; try done.
  destruct (json_Marshal_envelope _) as [raw|err]; simplify_eq/=; [|done].
  destruct (Backend_Put _ _ _) as [[err|] b] eqn:Hput; simplify_eq/=.
  - destruct (Put_failed _ _ _ _ _ Hput) as [-> | ->]; [done|]. by apply lookup_insert_ne.
  - rewrite (Put_done _ _ _ _ Hput). by apply lookup_insert_ne.
Qed.

Lemma b_Delete_elsewhere e w r w' k :
  k <> key e -> b_Delete (key e) w = (r, w') ->
  contents (w_backend w') !! k = contents (w_backend w) !! k.
Proof.
  unfold b_Delete, log_event, modify, call_backend, mbind, SM_bind. simpl. intros Hk Hdel.
  destruct (Backend_Delete _ _) as [[err|] b] eqn:Hb; simplify_eq/=.
  - destruct (Delete_failed _ _ _ _ Hb) as [-> | ->]; [done|]. by apply lookup_delete_ne.
  - rewrite (Delete_done _ _ _ Hb). by apply lookup_delete_ne.
Qed.

Lemma recorded_same e rc w w' :
  contents (w_backend w') !! key e = contents (w_backend w) !! key e ->
  recorded e rc w -> recorded e rc w'.
Proof. unfold recorded. intros Hk. destruct rc as [[]|]; by rewrite Hk. Qed.

Lemma update_tracked e rc e' fn c w r c' w' :
  e' <> e -> tracked e rc c w ->
  spec_update zero other clock s e' fn (c, w) = (r, (c', w')) -> tracked e rc c' w'.
Proof.
  intros Hne Htr Hup. unfold spec_update in Hup.
  destruct (spec_get zero other clock s e' (c, w)) as [rg [c1 w1]] eqn:Hget.
  destruct (get_tracked _ _ _ _ _ _ _ _ Htr Hget) as [Htr1 _].
  destruct rg as [[cur [err|]]|v|]; simplify_eq; try done.
  unfold spec_save in Hup. destruct (fn cur) as [next|v|]; simplify_eq; try done.
  destruct (save clock s e' next w1) as [rs w2] eqn:Hsave.
  assert (tracked e rc c1 w2) as Htr2.
  { split; [|apply Htr1]. eapply recorded_same; [|apply Htr1].
    eapply save_elsewhere; [|done]. by intros ?%key_inj. }
  destruct rs as [[err|]|v|]; simplify_eq; try done.
  by apply touch_tracked.
Qed.

Lemma delete_tracked e rc e' c w r c' w' :
  e' <> e -> tracked e rc c w -> spec_delete s e' (c, w) = (r, (c', w')) -> tracked e rc c' w'.
Proof.
  intros Hne [Hrec Hc] Hdel. unfold spec_delete in Hdel.
  destruct (b_Delete (key e') w) as [rd w1] eqn:Hb.
  assert (recorded e rc w1).
  { eapply recorded_same; [|done]. eapply b_Delete_elsewhere; [|done]. by intros ?%key_inj. }
  destruct rd as [[err|]|v|]; simplify_eq; try done.
  split; [done|]. by rewrite cache_find_remove.
Qed.

(** A save that succeeds is on the backend, with the clock's last reading. *)
Lemma save_recorded e next w w' :
  save clock s e next w = (Done None, w') ->
  recorded e (Some (next, clock (pred (w_clock w')))) w'.
Proof.
  unfold save, lift, now, b_Put, log_event, modify, call_backend, mbind, SM_bind, mret, SM_ret.
  simpl. destruct (Marshal _ _) as [[sr|err]|v|] eqn:Hm; intros; simplify_eq/=.
  destruct (json_Marshal_envelope _) as [raw|err] eqn:Hr; simplify_eq/=.
  destruct (Backend_Put _ _ _) as [err b] eqn:Hput. simplify_eq/=.
  exists sr, raw. split_and!; [done..|]. simpl. rewrite (Put_done _ _ _ _ Hput).
  apply lookup_insert_eq.
Qed.

Lemma update_recorded e fn c w next c' w' :
  spec_update zero other clock s e fn (c, w) = (Done (next, None), (c', w')) ->
  tracked e (Some (next, clock (pred (w_clock w')))) c' w'.
Proof.
  unfold spec_update, spec_save. intros Hup.
  destruct (spec_get zero other clock s e (c, w)) as [rg [c1 w1]].
  destruct rg as [[cur [err|]]|v|]; simplify_eq.
  destruct (fn cur) as [next'|v|]; simplify_eq.
  destruct (save clock s e next' w1) as [rs w2] eqn:Hsave.
  destruct rs as [[err|]|v|]; simplify_eq.
  split; [by eapply save_recorded|]. intros v. unfold touch. simpl. rewrite decide_True by done.
  intros [= <-]. by left.
Qed.

Lemma delete_recorded e c w c' w' :
  spec_delete s e (c, w) = (Done None, (c', w')) -> tracked e None c' w'.
Proof.
  unfold spec_delete, b_Delete, log_event, modify, call_backend, mbind, SM_bind. simpl.
  destruct (Backend_Delete _ _) as [[err|] b] eqn:Hb; intros; simplify_eq/=.
  split.
  - simpl. rewrite (Delete_done _ _ _ Hb). apply lookup_delete_eq.
  - intros v. by rewrite cache_find_remove_eq.
Qed.

(** ** Histories

    A store is called, or its process ends and a new one builds the same store. *)

Inductive step :=
| Do (c : call (T:=T))
| Restart.

Definition run_step (x : step) (f : st) : option (result reply) * st :=
  match x with
  | Do c => let '(r, f') := exec c f in (Some r, f')
  | Restart => (None, mkSt empty_residency (s_world f))
  end.

Fixpoint run (xs : list step) (f : st) : list (step * option (result reply)) * st :=
  match xs with
  | [] => ([], f)
  | x :: xs =>
      let '(r, f') := run_step x f in
      let '(rs, f'') := run xs f' in
      ((x, r) :: rs, f'')
  end.

(** A step that does not write the entity. *)
Definition spares (e : Entity) (x : step) : Prop :=
  match x with
  | Do (CUpdate e' _) | Do (CDelete e') => e' <> e
  | _ => True
  end.

(** Every read of the entity that succeeds answers what is recorded. *)
Definition answers (e : Entity) (rc : record) (l : list (step * option (result reply))) : Prop :=
  Forall (fun p => p.1 = Do (CGet e) -> forall v, p.2 = Some (Done (RState v None)) ->
            faithful e rc v) l.

Lemma spec_exec_tracked e rc k c w r c' w' :
  spares e (Do k) -> tracked e rc c w ->
  spec_exec zero other clock s k (c, w) = (r, (c', w')) ->
  tracked e rc c' w' /\
  forall v, k = CGet e -> r = Done (RState v None) -> faithful e rc v.
Proof.
  intros Hsp Htr Hex. destruct k as [e'|e' fn|e'|]; simpl in *; unfold mbind, SM_bind, mret, SM_ret in Hex.
  - destruct (spec_get zero other clock s e' (c, w)) as [rg [c1 w1]] eqn:Hget.
    destruct (get_tracked _ _ _ _ _ _ _ _ Htr Hget) as [Htr1 Hv].
    destruct rg as [[v err]|v|]; simplify_eq/=; (split; [done|]); intros v' [= ->] [=].
    subst. by apply Hv.
  - destruct (spec_update zero other clock s e' fn (c, w)) as [rg [c1 w1]] eqn:Hup.
    pose proof (update_tracked _ _ _ _ _ _ _ _ _ Hsp Htr Hup).
    by destruct rg as [[v err]|v|]; simplify_eq/=.
  - destruct (spec_delete s e' (c, w)) as [rg [c1 w1]] eqn:Hdel.
    pose proof (delete_tracked _ _ _ _ _ _ _ _ Hsp Htr Hdel).
    by destruct rg as [err|v|]; simplify_eq/=.
  - by simplify_eq/=.
Qed.

Lemma run_answers e rc xs f :
  consistent s (s_res f) -> tracked e rc (view (s_res f)) (s_world f) ->
  Forall (spares e) xs -> answers e rc (run xs f).1.
Proof.
  intros Hf Htr Hsp. revert f Hf Htr.
  induction Hsp as [|x xs Hx _ IH]; intros f Hf Htr; [constructor|]. simpl.
  assert (exists r f', run_step x f = (r, f') /\ consistent s (s_res f') /\
            tracked e rc (view (s_res f')) (s_world f') /\
            (x = Do (CGet e) -> forall v, r = Some (Done (RState v None)) -> faithful e rc v))
    as (r & f' & Hstep & Hf' & Htr' & Hans).
  { destruct x as [c|].
    - simpl. destruct (exec_refines zero other clock s Hbound c f Hf)
        as (r & f' & Hex & Hf' & Hheld & Hfree). rewrite Hex.
      exists (Some r), f'. split; [done|]. split; [done|]. destruct (r_mu (s_res f)).
      + destruct Hheld as [-> ->]; [done|]. by split.
      + destruct Hfree as [Hspec _]; [done|].
        destruct (spec_exec_tracked e rc c _ _ _ _ _ Hx Htr Hspec) as [Ht Hv].
        split; [done|]. intros [= ->] v [= ->]. by apply (Hv v).
    - exists None, (mkSt empty_residency (s_world f)). split; [done|].
      split; [by apply consistent_empty|]. split; [|done]. by split; [apply Htr|]. }
  rewrite Hstep. specialize (IH f' Hf' Htr').
  destruct (run xs f') as [rs f'']. by constructor.
Qed.

(** ** The contract *)

(** The reply of a call that gives a state. *)
Definition state_reply (r : result (T * error)) : result reply :=
  match r with
  | Done (v, err) => Done (RState v err)
  | Panicked p => Panicked p
  | Blocked => Blocked
  end.

(** The cache after a miss: only a success is inserted. *)
Definition after_miss (e : Entity) (r : result (T * error)) c : cache T :=
  match r with Done (v, None) => cache_insert s e v c | _ => c end.

Lemma spec_get_miss e c w r c' w' :
  cache_find e c = None -> spec_get zero other clock s e (c, w) = (r, (c', w')) ->
  fetch zero other clock s e w = (r, w') /\ c' = after_miss e r c.
Proof.
  intros Hf. unfold spec_get. rewrite Hf.
  destruct (fetch zero other clock s e w) as [[[v [err|]]|p|] w1]; intros; by simplify_eq.
Qed.

(** A call on an unlocked, consistent store, as one on its cache. *)
Lemma exec_spec (k : call (T:=T)) f r f' :
  consistent s (s_res f) -> r_mu (s_res f) = false -> exec k f = (r, f') ->
  spec_exec zero other clock s k (abstract f) = (r, abstract f') /\
  consistent s (s_res f') /\ (r <> Blocked -> r_mu (s_res f') = false).
Proof.
  intros Hf Hmu Hex. destruct (exec_refines zero other clock s Hbound k f Hf)
    as (r1 & f1 & Hex1 & Hf1 & _ & Hfree).
  rewrite Hex in Hex1. simplify_eq. destruct (Hfree Hmu). by split_and!.
Qed.

Lemma get_spec e f r f' :
  consistent s (s_res f) -> r_mu (s_res f) = false -> exec (CGet e) f = (r, f') ->
  exists rg, r = state_reply rg /\
    spec_get zero other clock s e (abstract f) = (rg, abstract f').
Proof.
  intros Hf Hmu Hex. destruct (exec_spec _ _ _ _ Hf Hmu Hex) as [Hspec _].
  simpl in Hspec. unfold mbind, SM_bind in Hspec.
  destruct (spec_get zero other clock s e (abstract f)) as [rg cw]. exists rg.
  by destruct rg as [[v err]|p|]; unfold mret, SM_ret in Hspec; simplify_eq/=.
Qed.

Lemma update_spec e fn f r f' :
  consistent s (s_res f) -> r_mu (s_res f) = false -> exec (CUpdate e fn) f = (r, f') ->
  exists rg, r = state_reply rg /\
    spec_update zero other clock s e fn (abstract f) = (rg, abstract f').
Proof.
  intros Hf Hmu Hex. destruct (exec_spec _ _ _ _ Hf Hmu Hex) as [Hspec _].
  simpl in Hspec. unfold mbind, SM_bind in Hspec.
  destruct (spec_update zero other clock s e fn (abstract f)) as [rg cw]. exists rg.
  by destruct rg as [[v err]|p|]; unfold mret, SM_ret in Hspec; simplify_eq/=.
Qed.

(** A lock that was free when a call returned. *)
Lemma exec_unlocked (k : call (T:=T)) f a f' :
  consistent s (s_res f) -> exec k f = (Done a, f') -> r_mu (s_res f) = false.
Proof.
  intros Hf Hex. destruct (exec_refines zero other clock s Hbound k f Hf)
    as (r1 & f1 & Hex1 & _ & Hheld & _).
  rewrite Hex in Hex1. simplify_eq. destruct (r_mu (s_res f)); [|done].
  by destruct Hheld.
Qed.

(** C15: the store is a cache of entries, hottest first. Every call on an unlocked
    store in a consistent state gives the result, the world and the cache that the
    abstract operation gives: a hit moves to the front, a miss that succeeds is put in
    front of what the bound leaves, an update is in front with its new state, a
    deletion takes the entry out. The state stays consistent, and the lock is free
    again unless a user function never returned. *)
Theorem Store_refines_cache (k : call (T:=T)) f r f' :
  consistent s (s_res f) -> r_mu (s_res f) = false -> exec k f = (r, f') ->
  spec_exec zero other clock s k (view (s_res f), s_world f) =
    (r, (view (s_res f'), s_world f')) /\
  consistent s (s_res f') /\ (r <> Blocked -> r_mu (s_res f') = false).
Proof. apply exec_spec. Qed.

(** C17: [Get] never writes, and wakes exactly once per rehydration. A resident entity
    is answered from memory with the world untouched; a miss is one read of the
    backend, and exactly a record that decodes fires the hook, once, by the time since
    its stamp, before the state is inserted and returned. A key that is absent gives
    the zero state without a wake; every other failure is an error and inserts
    nothing. *)
Theorem Get_wakes_once_and_never_writes e f r f' :
  consistent s (s_res f) -> r_mu (s_res f) = false -> exec (CGet e) f = (r, f') ->
  let c := view (s_res f) in
  let w := s_world f in
  contents (w_backend (s_world f')) = contents (w_backend w) /\
  match cache_find e c with
  | Some v =>
      r = Done (RState v None) /\ s_world f' = w /\ view (s_res f') = touch e v c
  | None =>
      exists ans b evs rg,
        Backend_Get (key e) (w_backend w) = (ans, b) /\
        s_world f' = mkWorld b (w_clock w + length evs) (w_trace w ++ EvGet (key e) :: evs) /\
        fetched e (w_clock w) ans evs rg /\
        r = state_reply rg /\ view (s_res f') = after_miss e rg c
  end.
Proof.
  intros Hf Hmu Hex c w. destruct (get_spec e f r f' Hf Hmu Hex) as (rg & -> & Hspec).
  unfold abstract in Hspec. fold c w in Hspec. destruct (cache_find e c) as [v|] eqn:Hc.
  - unfold spec_get in Hspec. rewrite Hc in Hspec. injection Hspec as <- <- <-. done.
  - destruct (spec_get_miss e c w _ _ _ Hc Hspec) as [Hfetch Hv].
    split; [by apply (fetch_contents e w rg)|].
    destruct (fetch_spec e w rg _ Hfetch) as (ans & b & evs & Hget & Hw & Hans).
    by exists ans, b, evs, rg.
Qed.

(** C18: [Update] is [Get], then the user's function on what [Get] returned, then a
    write. When it succeeds the backend has the new state with the stamp of that
    moment, and the resident state is the new one; when the function panics nothing
    has happened since [Get]; and when encoding or the backend fails, the resident
    state is still the one before the function ran. *)
Theorem Update_writes_through e fn f r f1 r' f' :
  consistent s (s_res f) -> r_mu (s_res f) = false ->
  exec (CGet e) f = (r, f1) -> exec (CUpdate e fn) f = (r', f') ->
  match r with
  | Done (RState cur None) =>
      match fn cur with
      | Done next =>
          (r' = Done (RState next None) /\ view (s_res f') = touch e next (view (s_res f1)) /\
           recorded e (Some (next, clock (pred (w_clock (s_world f'))))) (s_world f')) \/
          (r' <> Done (RState next None) /\ view (s_res f') = view (s_res f1) /\
           cache_find e (view (s_res f')) = Some cur)
      | Panicked p => r' = Panicked p /\ abstract f' = abstract f1
      | Blocked => r' = Blocked /\ abstract f' = abstract f1
      end
  | _ => r' = r /\ abstract f' = abstract f1
  end.
Proof.
  intros Hf Hmu Hget Hup.
  destruct (get_spec e f r f1 Hf Hmu Hget) as (rg & -> & Hg).
  destruct (update_spec e fn f r' f' Hf Hmu Hup) as (ru & -> & Hu).
  unfold spec_update in Hu. rewrite Hg in Hu.
  destruct rg as [[cur [err|]]|p|]; cbn [state_reply];
    [by apply pair_eq in Hu as [<- ->] | |by apply pair_eq in Hu as [<- ->]..].
  unfold spec_save, abstract at 1 in Hu.
  destruct (fn cur) as [next|p|]; [|by injection Hu as <- Hv Hw; unfold abstract; rewrite Hv, Hw..].
  destruct (save clock s e next (s_world f1)) as [rs w2] eqn:Hsave.
  assert (cache_find e (view (s_res f1)) = Some cur) as Hcur.
  { exact (spec_get_found zero other clock s e _ _ _ _ _ Hg). }
  destruct rs as [[err|]|p|]; injection Hu as <- Hv Hw; cbn [state_reply]; rewrite <- ?Hv.
  - right. split_and!; [by intros [=] | done..].
  - left. split_and!; [done..|]. rewrite <- Hw. by eapply save_recorded.
  - by right.
  - by right.
Qed.

(** A call that wrote the entity, and what is recorded of it since. *)
Definition wrote (e : Entity) (k : call (T:=T)) (r : result reply) w (rc : record) : Prop :=
  match k, r with
  | CUpdate e' _, Done (RState next None) =>
      e' = e /\ rc = Some (next, clock (pred (w_clock w)))
  | CDelete e', Done (RErr None) => e' = e /\ rc = None
  | _, _ => False
  end.

Lemma wrote_tracked e k f r f' rc :
  consistent s (s_res f) -> r_mu (s_res f) = false -> exec k f = (r, f') ->
  wrote e k r (s_world f') rc -> tracked e rc (view (s_res f')) (s_world f').
Proof.
  intros Hf Hmu Hex Hwr. destruct k as [e'|e' fn|e'|]; try done.
  - destruct (update_spec e' fn f r f' Hf Hmu Hex) as (rg & -> & Hu).
    destruct rg as [[v [err|]]|p|]; try done. destruct Hwr as [-> ->].
    by eapply update_recorded.
  - destruct (exec_spec _ _ _ _ Hf Hmu Hex) as (Hspec & _).
    simpl in Hspec. unfold mbind, SM_bind, mret, SM_ret in Hspec.
    destruct (spec_delete s e' (abstract f)) as [[[err|]|p|] cw] eqn:Hdel;
      simplify_eq/=; try done.
    destruct Hwr as [-> ->]. by eapply delete_recorded.
Qed.

(** C14: nothing is lost. After a successful [Update], over every history of calls that
    write other entities and of restarts of the process — evictions and failures of
    the backend included — each read of the entity that succeeds answers the state
    written, unchanged or advanced by the wake hook from the stamp of that write.
    After a successful [Delete] it answers the zero state. *)
Theorem last_write_survives e k f r f' rc xs :
  consistent s (s_res f) -> exec k f = (r, f') -> wrote e k r (s_world f') rc ->
  Forall (spares e) xs -> answers e rc (run xs f').1.
Proof.
  intros Hf Hex Hwr Hxs.
  assert (r_mu (s_res f) = false) as Hmu.
  { unfold wrote in Hwr. destruct r as [a|p|]; [exact (exec_unlocked _ _ _ _ Hf Hex) | by destruct k..]. }
  destruct (exec_spec _ _ _ _ Hf Hmu Hex) as (_ & Hf' & _).
  apply run_answers; [done | exact (wrote_tracked _ _ _ _ _ _ Hf Hmu Hex Hwr) | done].
Qed.

Lemma run_consistent xs f : consistent s (s_res f) -> consistent s (s_res (run xs f).2).
Proof.
  revert f. induction xs as [|x xs IH]; [done|]. intros f Hf. simpl.
  assert (consistent s (s_res (run_step x f).2)) as Hstep.
  { destruct x as [c|]; [|by apply consistent_empty]. simpl.
    destruct (exec_refines zero other clock s Hbound c f Hf) as (r & f' & -> & Hf' & _). done. }
  destruct (run_step x f) as [r f']. specialize (IH f' Hstep).
  by destruct (run xs f').
Qed.

(** A history leaves every entry alone that is under no key of the store. *)
Lemma spec_get_elsewhere e c w r c' w' k :
  spec_get zero other clock s e (c, w) = (r, (c', w')) ->
  contents (w_backend w') !! k = contents (w_backend w) !! k.
Proof.
  unfold spec_get. destruct (cache_find e c); [by intros; simplify_eq|].
  destruct (fetch zero other clock s e w) as [rf w1] eqn:Hfetch.
  apply fetch_contents in Hfetch. rewrite <- Hfetch.
  destruct rf as [[v [err|]]|p|]; intros; by simplify_eq.
Qed.

Lemma spec_exec_elsewhere (x : call (T:=T)) c w r c' w' k :
  (forall e, k <> key e) -> spec_exec zero other clock s x (c, w) = (r, (c', w')) ->
  contents (w_backend w') !! k = contents (w_backend w) !! k.
Proof.
  intros Hk. destruct x as [e|e fn|e|]; simpl; unfold mbind, SM_bind, mret, SM_ret.
  - destruct (spec_get zero other clock s e (c, w)) as [rg [c1 w1]] eqn:Hget.
    apply spec_get_elsewhere with (k := k) in Hget.
    destruct rg as [[]|p|]; intros; by simplify_eq.
  - unfold spec_update, spec_save.
    destruct (spec_get zero other clock s e (c, w)) as [rg [c1 w1]] eqn:Hget.
    apply spec_get_elsewhere with (k := k) in Hget. rewrite <- Hget.
    destruct rg as [[cur [err|]]|p|]; [by intros; simplify_eq| |by intros; simplify_eq..].
    destruct (fn cur) as [next|p|]; [|by intros; simplify_eq..].
    destruct (save clock s e next w1) as [rs w2] eqn:Hsave.
    apply save_elsewhere with (k := k) in Hsave; [|done]. rewrite <- Hsave.
    destruct rs as [[err|]|p|]; intros; by simplify_eq.
  - unfold spec_delete. destruct (b_Delete (key e) w) as [rd w1] eqn:Hb.
    apply b_Delete_elsewhere with (k := k) in Hb; [|done]. rewrite <- Hb.
    destruct rd as [[err|]|p|]; intros; by simplify_eq.
  - intros; by simplify_eq/=.
Qed.

Lemma run_elsewhere xs f k :
  consistent s (s_res f) -> (forall e, k <> key e) ->
  contents (w_backend (s_world (run xs f).2)) !! k = contents (w_backend (s_world f)) !! k.
Proof.
  intros Hf Hk. revert f Hf. induction xs as [|x xs IH]; [done|]. intros f Hf. simpl.
  assert (consistent s (s_res (run_step x f).2) /\
    contents (w_backend (s_world (run_step x f).2)) !! k = contents (w_backend (s_world f)) !! k)
    as [Hf' <-].
  { destruct x as [c|]; [|split; [by apply consistent_empty | done]]. simpl.
    destruct (exec_refines zero other clock s Hbound c f Hf)
      as (r & f' & -> & Hf' & Hheld & Hfree). split; [done|].
    destruct (r_mu (s_res f)); [by destruct Hheld as [_ ->]|].
    destruct Hfree as [Hspec _]; [done|]. by eapply spec_exec_elsewhere in Hspec. }
  destruct (run_step x f) as [r f']. simpl in *. specialize (IH f' Hf').
  by destruct (run xs f').
Qed.

Lemma exec_Resident f r f' n :
  consistent s (s_res f) -> exec CResident f = (r, f') -> r = Done (RCount n) ->
  (0 <= n <= st_bound s)%Z /\ n = Z.of_nat (length (view (s_res f))).
Proof.
  intros Hf Hex ->. pose proof (exec_unlocked _ _ _ _ Hf Hex) as Hmu.
  destruct (exec_spec _ _ _ _ Hf Hmu Hex) as (Hspec & _).
  simpl in Hspec. unfold mbind, SM_bind, mret, SM_ret, gets in Hspec. simplify_eq/=.
  rewrite (view_length s) by done. pose proof (lru_bound _ _ Hf). lia.
Qed.
End Durable.

(** ** Construction and key space *)

(** C20: a store built by [NewStore] from options of its constructors holds at most its
    bound, after every history, and never an entity twice; [Resident] reports how many
    it holds. *)
Theorem residency_bounded {B T} `{Backend B} `{JSON T} (zero : T) other clock name opts s x
    (w : world B) xs r f' n :
  Forall made opts -> NewStore name opts = Done (s, x) ->
  let f := (run zero other clock s xs (mkSt x w)).2 in
  exec zero other clock s CResident f = (r, f') -> r = Done (RCount n) ->
  (0 <= n <= st_bound s)%Z /\ n = Z.of_nat (length (view (s_res f))) /\
  NoDup (en_entity <$> view (s_res f)).
Proof.
  intros Hopts Hnew f Hex Hr.
  destruct (NewStore_consistent _ _ _ _ Hopts Hnew) as (Hb & Hx & _ & _).
  assert (consistent s (s_res f)) as Hf by by apply run_consistent.
  destruct (exec_Resident zero other clock s Hb f r f' n Hf Hex Hr) as [Hn Hlen].
  split; [done|]. split; [done|]. by eapply view_nodup.
Qed.

Fixpoint has_dot (s : string) : bool :=
  match s with
  | EmptyString => false
  | String c s => Ascii.eqb c "."%char || has_dot s
  end.

Lemma has_dot_key s t : has_dot (s +:+ "." +:+ t) = true.
Proof.
  induction s as [|c s IH]; [done|].
  change (Ascii.eqb c "."%char || has_dot (s +:+ "." +:+ t) = true). rewrite IH. apply orb_true_r.
Qed.

(** A text up to its first dot. *)
Lemma app_dot_inj s t u v :
  has_dot s = false -> has_dot t = false ->
  s +:+ "." +:+ u = t +:+ "." +:+ v -> s = t /\ u = v.
Proof.
  revert t. induction s as [|c s IH]; intros [|d t] Hs Ht Heq; simpl in *.
  - by injection Heq.
  - injection Heq as <- _. done.
  - injection Heq as -> _. done.
  - apply orb_false_iff in Hs as [_ Hs], Ht as [_ Ht]. injection Heq as -> Heq.
    by destruct (IH t Hs Ht Heq) as [-> ->].
Qed.

(** The key space. Stores whose names have no dot never share a key, and one store
    never gives two entities the same key; but names that differ are not enough: store
    "a" keeps entity "b.c" where store "a.b" keeps entity "c". *)
Lemma keys_apart {T} :
  (forall (s s' : Store (T:=T)) e e',
     has_dot (st_name s) = false -> has_dot (st_name s') = false ->
     key s e = key s' e' <-> st_name s = st_name s' /\ e = e') /\
  (forall (s : Store (T:=T)) e e', key s e = key s e' -> e = e') /\
  (forall n n' wake wake' (c c' : Codec T),
     key (mkStore "a" n wake c) "b.c" = key (mkStore "a.b" n' wake' c') "c").
Proof.
  split_and!; [|apply key_inj | reflexivity].
  intros s s' e e' Hs Hs'. unfold key. split; [by apply app_dot_inj|]. by intros [-> ->].
Qed.

(** ** Concrete stores

    A store of booleans with room for one entity, on a JetStream bucket, whose wake
    hook clears a flag that is ten minutes old; the clock moves on by five minutes
    at each reading. *)

Module DemoStore.

(** The texts [encoding/json] writes for booleans. *)
#[global] Instance JSON_bool : JSON bool := {|
  json_Marshal (b : bool) := Done (inl (if b then "true" else "false"));
  json_Unmarshal (s : bytes) :=
    Done (if String.eqb s "true" then (true, None)
          else if String.eqb s "false" then (false, None)
          else (false, Some (ErrorsNew "json: cannot unmarshal into Go value of type bool"))) |}.
#[global] Instance JSON_bool_laws : JSONLaws bool.
Proof. intros [] b; simpl; intros; by simplify_eq. Qed.

Definition clock (n : nat) : gotime := mkTime ((1785067200 + 300 * Z.of_nat n) * Second) 0.
Definition other (_ : bytes) : envelope + goerror :=
  inr (ErrorsNew "invalid character looking for beginning of value").
Definition idle : WakeFn (T:=bool) := fun _ elapsed v => Done (v && (elapsed <? 600 * Second)%Z).
Definition opts : list (Option (T:=bool)) := [WithWake idle; fun c => mkConfig 1 (cf_wake c) (cf_codec c)].
Definition store : Store (T:=bool) := mkStore "cust" 1 (Some idle) JSONCodec.
#[global] Instance store_codec_laws : CodecLaws (st_codec store) := JSONCodec_laws.
Definition world0 : world bucket := mkWorld (mkBucket ∅) 0 [].
Definition origin : st (B:=bucket) (T:=bool) := mkSt empty_residency world0.
Definition raise (_ : bool) : result bool := Done true.

Definition execute := exec (B:=bucket) false other clock store.
Definition after (k : call (T:=bool)) : st := (execute k origin).2.

(** The process has ended after an update, and a new one has started. *)
Definition restarted : st (B:=bucket) (T:=bool) := mkSt empty_residency (s_world (after (CUpdate "c1" raise))).
Definition used : st (B:=bucket) (T:=bool) :=
  (run false other clock store [Do (CGet "c1"); Do (CUpdate "c2" raise)] origin).2.

Lemma made_opts : Forall made opts.
Proof.
  constructor; [right; left; by exists idle|]. constructor; [|constructor].
  left. by exists 1%Z.
Qed.

Lemma NewStore_store : NewStore "cust" opts = Done (store, empty_residency).
Proof. reflexivity. Qed.

Lemma origin_consistent : consistent store (s_res origin).
Proof. by apply consistent_empty. Qed.

End DemoStore.

Lemma Store_refines_cache_witness :
  let f := DemoStore.origin in
  let r := DemoStore.execute (CUpdate "c1" DemoStore.raise) f in
  r.1 = Done (RState true None) /\ view (s_res r.2) = [mkEntry "c1" true] /\
  spec_exec false DemoStore.other DemoStore.clock DemoStore.store
    (CUpdate "c1" DemoStore.raise) (view (s_res f), s_world f)
  = (r.1, (view (s_res r.2), s_world r.2)).
Proof.
  split; [vm_compute; reflexivity|]. split; [vm_compute; reflexivity|].
  apply (Store_refines_cache false DemoStore.other DemoStore.clock DemoStore.store eq_refl
           (CUpdate "c1" DemoStore.raise) DemoStore.origin); [| reflexivity |].
  - apply DemoStore.origin_consistent.
  - apply surjective_pairing.
Defined.

Lemma Get_wakes_once_and_never_writes_witness :
  let f := DemoStore.restarted in
  let r := DemoStore.execute (CGet "c1") f in
  r.1 = Done (RState true None) /\
  w_trace (s_world r.2) =
    w_trace (s_world f) ++ [EvGet "cust.c1"; EvWake "c1" (300 * Second)] /\
  bucket_entries (w_backend (s_world r.2)) = bucket_entries (w_backend (s_world f)).
Proof.
  split; [vm_compute; reflexivity|]. split; [vm_compute; reflexivity|].
  apply (Get_wakes_once_and_never_writes bucket_entries false DemoStore.other DemoStore.clock
           DemoStore.store eq_refl "c1" DemoStore.restarted
           (DemoStore.execute (CGet "c1") DemoStore.restarted).1
           (DemoStore.execute (CGet "c1") DemoStore.restarted).2);
    [| reflexivity | apply surjective_pairing].
  by apply consistent_empty.
Defined.

Lemma Update_writes_through_witness :
  let r := DemoStore.execute (CUpdate "c1" DemoStore.raise) DemoStore.origin in
  r.1 = Done (RState true None) /\
  (r.1 = Done (RState true None) /\ view (s_res r.2) =
     touch "c1" true (view (s_res (DemoStore.after (CGet "c1")))) /\
   recorded bucket_entries DemoStore.store "c1"
     (Some (true, DemoStore.clock (pred (w_clock (s_world r.2))))) (s_world r.2) \/
   r.1 <> Done (RState true None) /\
   view (s_res r.2) = view (s_res (DemoStore.after (CGet "c1"))) /\
   cache_find "c1" (view (s_res r.2)) = Some false).
Proof.
  split; [vm_compute; reflexivity|].
  apply (Update_writes_through bucket_entries false DemoStore.other DemoStore.clock
           DemoStore.store eq_refl "c1" DemoStore.raise DemoStore.origin
           (Done (RState false None)) (DemoStore.after (CGet "c1")));
    [apply DemoStore.origin_consistent | reflexivity | | apply surjective_pairing].
  apply fst_eq_pair. vm_compute. reflexivity.
Defined.

Lemma last_write_survives_witness :
  let xs := [Do (CGet "c1"); Do (CGet "other"); Do (CGet "c1"); Restart; Do (CGet "c1")] in
  let f := DemoStore.after (CUpdate "c1" DemoStore.raise) in
  let l := (run false DemoStore.other DemoStore.clock DemoStore.store xs f).1 in
  l.*2 = [Some (Done (RState true None)); Some (Done (RState false None));
          Some (Done (RState true None)); None; Some (Done (RState false None))] /\
  answers false DemoStore.clock DemoStore.store "c1" (Some (true, DemoStore.clock 0)) l.
Proof.
  split; [vm_compute; reflexivity|].
  apply (last_write_survives bucket_entries false DemoStore.other DemoStore.clock DemoStore.store
           eq_refl "c1" (CUpdate "c1" DemoStore.raise) DemoStore.origin (Done (RState true None))).
  - apply DemoStore.origin_consistent.
  - apply fst_eq_pair. vm_compute. reflexivity.
  - split; [reflexivity|]. vm_compute. reflexivity.
  - repeat constructor.
Defined.

Lemma residency_bounded_witness :
  let f := DemoStore.used in
  (DemoStore.execute CResident f).1 = Done (RCount 1) /\
  NoDup (en_entity <$> view (s_res f)).
Proof.
  split; [vm_compute; reflexivity|].
  apply (residency_bounded (B:=bucket) false DemoStore.other DemoStore.clock "cust" DemoStore.opts
           DemoStore.store empty_residency DemoStore.world0
           [Do (CGet "c1"); Do (CUpdate "c2" DemoStore.raise)] _ _ 1
           DemoStore.made_opts DemoStore.NewStore_store (surjective_pairing _)).
  vm_compute. reflexivity.
Defined.
