(* ===== verification/Beacon.v ===== *)
(** * Beacon: the restart clock (persist/beacon.go)

    A time stamp under a key of its own, written while the imp lives and read when
    it starts again. The world is that of [Store]: several stores may be on the same
    backend. *)

From S2P Require Import Prelude Values StateMonad Instants Envelope Backend Store Durable.

(** [Beacon]: the backend and the clock are the world's. *)
Record Beacon := mkBeacon { bc_name : string }.

Definition NewBeacon (name : string) : result Beacon :=
  if String.eqb name "" then Panicked (AString "persist: beacon name required")
  else Done (mkBeacon name).

Section Beacon.
Context {B : Type} `{Backend B} (clock : nat -> gotime) (bc : Beacon).

Definition Stamp : SM (world B) error :=
  t ← now clock;
  b_Put (bc_name bc) (Format_RFC3339Nano (Time_UTC t)).

(** The error of [time.Parse], a [*ParseError]. *)
Definition ParseError : goerror := ErrorsNew "parsing time".

Definition SleptFor : SM (world B) (Duration * bool * error) :=
  got ← b_Get (bc_name bc);
  match got with
  | inr err =>
      if errors_Is err PersistErrNotFound then mret (0%Z, false, None)
      else mret (0%Z, false, Some err)
  | inl raw =>
      match Parse_RFC3339Nano raw with
      | None => mret (0%Z, false, Some (Errorf "persist: decode beacon stamp: " ParseError))
      | Some stamp =>
          t ← now clock;
          mret (Time_Sub t stamp, true, None)
      end
  end.

Context (contents : B -> gmap string bytes) `{!BackendLaws B contents}.
Implicit Types w : world B.

(** The entry of the beacon: nothing, or an instant. *)
Definition stamped (stamp : option gotime) w : Prop :=
  contents (w_backend w) !! bc_name bc = Format_RFC3339Nano ∘ Time_UTC <$> stamp.

Lemma Stamp_stamped w w' :
  Stamp w = (Done None, w') -> stamped (Some (clock (w_clock w))) w'.
Proof.
  unfold Stamp, b_Put, log_event, modify, call_backend, now, mbind, SM_bind. simpl.
  destruct (Backend_Put _ _ _) as [err b] eqn:Hput. intros [= -> <-].
  unfold stamped. simpl. rewrite (Put_done _ _ _ _ Hput). apply lookup_insert_eq.
Qed.

(** An instant that its text can say. *)
Definition printable (t : gotime) : Prop := (0 <= Time_Year (Time_UTC t) <= 9999)%Z.

(** What a reading says of the entry; a failure never says there was no stamp. *)
Definition measured (stamp : option gotime) (t : gotime) (r : Duration * bool * error) : Prop :=
  match stamp, r with
  | _, (d, ok, Some _) => d = 0%Z /\ ok = false
  | None, r => r = (0%Z, false, None)
  | Some t0, r => r = (Time_Sub t t0, true, None)
  end.

Lemma SleptFor_measured stamp w r w' :
  stamped stamp w -> (forall t, stamp = Some t -> printable t) -> SleptFor w = (r, w') ->
  contents (w_backend w') = contents (w_backend w) /\
  exists a, r = Done a /\ measured stamp (clock (w_clock w)) a.
Proof.
  intros Hst Hpr. pose proof (Get_contents (bc_name bc) (w_backend w)) as Hc.
  unfold SleptFor, b_Get, log_event, modify, call_backend, now, mbind, SM_bind, mret, SM_ret. simpl.
  destruct (Backend_Get _ _) as [[raw|err] b] eqn:Hget; simpl in Hc.
  - pose proof (Get_found _ _ _ _ Hget) as Hraw. unfold stamped in Hst. rewrite Hraw in Hst.
    destruct stamp as [t0|]; [|done]. injection Hst as ->. simpl.
    rewrite Format_UTC_parse by by apply Hpr. intros [= <- <-]. split; [done|]. by eexists.
  - destruct (errors_Is err PersistErrNotFound) eqn:Hnf; intros [= <- <-]; (split; [done|]);
      (eexists; split; [reflexivity|]).
    + pose proof (Get_missing _ _ _ _ Hget Hnf) as Hno. unfold stamped in Hst.
      rewrite Hno in Hst. by destruct stamp.
    + by destruct stamp.
Qed.
End Beacon.


(** ** A concrete beacon, beside the store of [DemoStore] *)

Module DemoBeacon.
Definition beacon : Beacon := mkBeacon "imp".
Definition stamped_world : world bucket := (Stamp DemoStore.clock beacon DemoStore.world0).2.
Definition history : list (step (T:=bool)) :=
  [Do (CUpdate "c1" DemoStore.raise); Do (CGet "c2"); Do (CDelete "c1"); Restart].
Definition later_world : world bucket :=
  s_world (run false DemoStore.other DemoStore.clock DemoStore.store history
             (mkSt empty_residency stamped_world)).2.
Definition slept := SleptFor DemoStore.clock beacon later_world.
End DemoBeacon.

