(* ===== verification/StoreConc.v ===== *)
(** * The store under concurrent calls (persist/store.go)

    Goroutines that call one store, interleaved at every access to its memory, to
    the backend and to the clock, and at every call into user code. The operations
    are written once more as the sequence of these accesses; run without
    interruption a sequence is the operation of [Store]. The mutex makes every
    schedule one of uninterrupted operations. *)

From S2P Require Import Prelude Values StateMonad Mutex Instants Envelope Backend Store Durable.

Section Concurrent.
Context {B : Type} `{Backend B} {T : Type} (zero : T).
Context (other : bytes -> envelope + goerror) (clock : nat -> gotime).
Context (s : Store (T:=T)).

Local Abbreviation state := (st (B:=B) (T:=T)).

(** ** The operations, one access at a time *)

Definition access {A} (m : SM (residency T) A) : steps state A := act (on_res m).
Definition reach {A} (m : SM (world B) A) : steps state A := act (on_world m).
Definition user {A} (r : result A) : steps state A := act (lift r).

Definition fetch_steps (entity : Entity) : steps state (T * error) :=
  got ← reach (b_Get (key s entity));
  match got with
  | inr err =>
      if errors_Is err PersistErrNotFound then mret (zero, None) else mret (zero, Some err)
  | inl raw =>
      match json_Unmarshal_envelope other raw with
      | inr err => mret (zero, Some (Errorf ("persist: decode envelope " +:+ entity +:+ ": ") err))
      | inl env =>
          '(v, err) ← user (Unmarshal (st_codec s) (State env));
          match err with
          | Some err => mret (v, Some (Errorf ("persist: decode state " +:+ entity +:+ ": ") err))
          | None =>
              match st_wake s with
              | Some wake =>
                  t ← reach (now clock);
                  let elapsed := Time_Sub t (LastActive env) in
                  reach (log_event (EvWake entity elapsed));;
                  v ← user (wake entity elapsed v);
                  mret (v, None)
              | None => mret (v, None)
              end
          end
      end
  end.

Definition get_steps (entity : Entity) : steps state (T * error) :=
  resident ← access (gets r_resident);
  match resident !! entity with
  | Some el =>
      access (MoveToFront el);;
      en ← access (Value el);
      mret (en_state en, None)
  | None =>
      '(v, err) ← fetch_steps entity;
      match err with
      | Some _ => mret (v, err)
      | None =>
          access (insert s entity v);;
          mret (v, None)
      end
  end.

Definition save_steps (entity : Entity) (next : T) : steps state error :=
  enc ← user (Marshal (st_codec s) next);
  match enc with
  | inr err => mret (Some (Errorf ("persist: encode state " +:+ entity +:+ ": ") err))
  | inl stateRaw =>
      t ← reach (now clock);
      match json_Marshal_envelope (mkEnvelope stateRaw t) with
      | inr err => mret (Some (Errorf ("persist: encode envelope " +:+ entity +:+ ": ") err))
      | inl envRaw => reach (b_Put (key s entity) envRaw)
      end
  end.

Definition update_steps (entity : Entity) (fn : T -> result T) : steps state (T * error) :=
  '(cur, err) ← get_steps entity;
  match err with
  | Some _ => mret (cur, err)
  | None =>
      next ← user (fn cur);
      err ← save_steps entity next;
      match err with
      | Some _ => mret (next, err)
      | None =>
          resident ← access (gets r_resident);
          match resident !! entity with
          | Some el => access (set_state el next);; access (MoveToFront el)
          | None => access (insert s entity next)
          end;;
          mret (next, None)
      end
  end.

Definition delete_steps (entity : Entity) : steps state error :=
  err ← reach (b_Delete (key s entity));
  match err with
  | Some _ => mret err
  | None =>
      resident ← access (gets r_resident);
      match resident !! entity with
      | Some el =>
          access (list_Remove el);;
          access (modify (fun x => set_resident (delete entity (r_resident x)) x));;
          mret None
      | None => mret None
      end
  end.

(** The critical section of a call. *)
Definition body (c : call (T:=T)) : steps state (reply (T:=T)) :=
  match c with
  | CGet e => r ← get_steps e; mret (RState r.1 r.2)
  | CUpdate e fn => r ← update_steps e fn; mret (RState r.1 r.2)
  | CDelete e => err ← delete_steps e; mret (RErr err)
  | CResident => n ← access (gets (fun x => Z.of_nat (length (r_lru x)))); mret (RCount n)
  end.

(** ** Uninterrupted, the steps are the operations *)

Definition same {A} (t : steps state A) (m : SM state A) : Prop :=
  forall f, run_steps t f = m f.

Lemma same_ret {A} (a : A) : same (mret a) (mret a).
Proof. done. Qed.

Lemma same_act {A} (m : SM state A) : same (act m) m.
Proof. intros f. unfold act. simpl. rewrite bind_match. by destruct (m f) as [[]]. Qed.

Lemma same_bind {A C} t (m : SM state A) k (j : A -> SM state C) :
  same t m -> (forall a, same (k a) (j a)) -> same (t ≫= k) (m ≫= j).
Proof.
  intros Ht Hk f. rewrite run_steps_bind, !bind_match, Ht.
  destruct (m f) as [[a|v|] f']; [apply Hk|done..].
Qed.

(** The same of the parts that only touch the world. *)
Definition same_world {A} (t : steps state A) (m : SM (world B) A) : Prop := same t (on_world m).

Lemma same_world_ret {A} (a : A) : same_world (mret a) (mret a).
Proof. by intros [x w]. Qed.

Lemma same_world_reach {A} (m : SM (world B) A) : same_world (reach m) m.
Proof. apply same_act. Qed.

Lemma same_world_user {A} (r : result A) : same_world (user r) (lift r).
Proof. intros [x w]. unfold user. by rewrite same_act. Qed.

Lemma same_world_bind {A C} t (m : SM (world B) A) k (j : A -> SM (world B) C) :
  same_world t m -> (forall a, same_world (k a) (j a)) -> same_world (t ≫= k) (m ≫= j).
Proof.
  intros Ht Hk f. rewrite run_steps_bind, bind_match, Ht. unfold on_world at 1 2.
  rewrite bind_match. destruct (m (s_world f)) as [[a|v|] w]; [|done..].
  rewrite (Hk a). done.
Qed.

Create HintDb same.
#[local] Hint Resolve same_ret same_act same_world_ret same_world_reach same_world_user : same.

(** Follows the two texts side by side. *)
Ltac same :=
  repeat (lazymatch goal with
    | |- forall _, _ => intros ?
    | |- same (match ?x with _ => _ end) _ => destruct x
    | |- same_world (match ?x with _ => _ end) _ => destruct x
    | |- same (_ ≫= _) _ => apply same_bind
    | |- same_world (_ ≫= _) _ => apply same_world_bind
    | |- _ => solve [auto with same]
    end).

Lemma fetch_steps_same e : same_world (fetch_steps e) (fetch zero other clock s e).
Proof. unfold fetch_steps, fetch. same. Qed.

Lemma save_steps_same e v : same_world (save_steps e v) (save clock s e v).
Proof. unfold save_steps, save. same. Qed.

Lemma same_access {A} (m : SM (residency T) A) : same (access m) (on_res m).
Proof. apply same_act. Qed.

Lemma same_reach {A} (m : SM (world B) A) : same (reach m) (on_world m).
Proof. apply same_act. Qed.

Lemma same_user {A} (r : result A) : same (user r) (lift r).
Proof. apply same_act. Qed.

Lemma fetch_steps_run e : same (fetch_steps e) (on_world (fetch zero other clock s e)).
Proof. apply fetch_steps_same. Qed.

Lemma save_steps_run e v : same (save_steps e v) (on_world (save clock s e v)).
Proof. apply save_steps_same. Qed.

#[local] Hint Resolve same_access same_reach same_user fetch_steps_run save_steps_run : same.

Lemma get_steps_same e : same (get_steps e) (getLocked zero other clock s e).
Proof. unfold get_steps, getLocked. same. Qed.
#[local] Hint Resolve get_steps_same : same.

Lemma update_steps_same e fn : same (update_steps e fn) (updateLocked zero other clock s e fn).
Proof. unfold update_steps, updateLocked. same. Qed.

Lemma delete_steps_same e : same (delete_steps e) (deleteLocked s e).
Proof. unfold delete_steps, deleteLocked. same. Qed.
#[local] Hint Resolve update_steps_same delete_steps_same : same.

(** ** The critical sections do not touch the mutex *)

Definition mutex (f : state) : bool := r_mu (s_res f).

Lemma keeps_reach {A} (m : SM (world B) A) : keeps_held mutex (reach m).
Proof. split; [|done]. intros [x w]. unfold on_world. simpl. by destruct (m w). Qed.

Lemma keeps_user {A} (r : result A) : keeps_held mutex (user r).
Proof. by split. Qed.

Lemma keeps_access {A} (m : SM (residency T) A) :
  (forall x, r_mu (m x).2 = r_mu x) -> keeps_held mutex (access m).
Proof.
  intros Hm. split; [|done]. intros [x w]. unfold on_res. simpl. specialize (Hm x).
  by destruct (m x).
Qed.

Lemma keeps_Value el (x : residency T) : r_mu (Value el x).2 = r_mu x.
Proof. unfold Value. by destruct (r_heap x !! el). Qed.

Lemma keeps_MoveToFront el (x : residency T) : r_mu (MoveToFront el x).2 = r_mu x.
Proof. unfold MoveToFront, modify. simpl. by case_decide. Qed.

Lemma keeps_set_state el v (x : residency T) : r_mu (set_state el v x).2 = r_mu x.
Proof. unfold set_state, Value. rewrite bind_match. by destruct (r_heap x !! el). Qed.

Lemma keeps_evict fuel (x : residency T) : r_mu (evict s fuel x).2 = r_mu x.
Proof.
  revert x. induction fuel as [|fuel IH]; intros x; [done|]. simpl.
  destruct (st_bound s <=? _)%Z; [|done]. unfold Back. rewrite bind_match.
  destruct (last (r_lru x)) as [el|]; [|done]. rewrite bind_match. unfold list_Remove, modify at 1.
  unfold Value. rewrite bind_match. simpl.
  destruct (r_heap x !! el) as [en|]; [|done]. rewrite bind_match. simpl. by rewrite IH.
Qed.

Lemma keeps_insert e v (x : residency T) : r_mu (insert s e v x).2 = r_mu x.
Proof.
  unfold insert. rewrite bind_match. pose proof (keeps_evict (S (length (r_lru x))) x) as He.
  by destruct (evict s _ x) as [[[]|p|] x'].
Qed.

#[local] Hint Resolve keeps_reach keeps_user keeps_access keeps_Value keeps_MoveToFront
  keeps_set_state keeps_insert : same.

Lemma body_keeps c : keeps_held mutex (body c).
Proof.
  destruct c as [e|e fn|e|]; unfold body, update_steps, delete_steps, get_steps, fetch_steps,
    save_steps; cbv zeta;
  repeat (lazymatch goal with
    | |- forall _, _ => intros ?
    | |- keeps_held mutex (match ?x with _ => _ end) => destruct x
    | |- keeps_held mutex (_ ≫= _) => apply keeps_held_bind
    | |- keeps_held mutex (mret _) => exact I
    | |- _ => solve [auto with same]
    end).
Qed.

(** ** The store as a guarded object *)

Definition with_mu (b : bool) (f : state) : state := mkSt (set_mu b (s_res f)) (s_world f).

#[local] Instance store_guarded : Guarded state (call (T:=T)) (reply (T:=T)) := {|
  held := mutex;
  set_held := with_mu;
  critical := body;
  held_set b f := eq_refl;
  critical_keeps := body_keeps |}.

(** A call that nobody interrupts is the operation. *)
Lemma exec_run_call c f : exec zero other clock s c f = run_call c f.
Proof.
  assert (forall A (t : steps state A) m (g : A -> reply (T:=T)), same t m ->
    body c = (r ← t; mret (g r)) -> (r ← locked m; mret (g r)) f = run_call c f) as Hlock.
  { intros A t m g Ht Hc. unfold run_call. simpl. unfold mutex. rewrite bind_match. unfold locked.
    destruct (r_mu (s_res f)); [done|].
    rewrite Hc, run_steps_bind, bind_match, Ht.
    change (mkSt (set_mu true (s_res f)) (s_world f)) with (with_mu true f).
    by destruct (m (with_mu true f)) as [[a|v|] f']. }
  destruct c; eapply Hlock; try reflexivity; auto with same.
Qed.

(** Calls one after the other. *)
Definition in_turn (cs : list (call (T:=T))) (f : state) : list (result (reply (T:=T))) * state :=
  foldl (fun '(rs, f) c => let '(r, f') := exec zero other clock s c f in (rs ++ [r], f'))
    ([], f) cs.

Lemma sequential_in_turn cs f : sequential cs f = in_turn cs f.
Proof.
  unfold sequential, in_turn.
  assert (forall rs f, foldl (fun '(rs, f) c => let '(r, f') := run_call c f in (rs ++ [r], f'))
      (rs, f) cs =
    foldl (fun '(rs, f) c => let '(r, f') := exec zero other clock s c f in (rs ++ [r], f'))
      (rs, f) cs) as Hext; [|apply Hext].
  induction cs as [|c cs IH]; intros rs f'; [done|]. simpl. rewrite exec_run_call.
  destruct (run_call c f') as [r f'']. apply IH.
Qed.

(** ** Properties *)

(** C16: the store serialises its callers. Start from an unlocked store and let any
    number of goroutines call it, interleaved at every access to its memory, to the
    backend and the clock and at every call into user code. The calls that have
    returned, in the order in which they took the mutex, are a sequence of
    uninterrupted calls: made one after the other from the start they give exactly the
    replies returned, and, when nobody is inside, exactly the present store and world.
    That order respects time: what is in it stays where it is, and a call that has
    returned is in it before any later one enters. And nobody is stuck: while a caller
    has not returned some caller can go on, or the one inside is waiting for user code
    or the backend. *)
Theorem Store_serializes (f0 : state) ms cf :
  r_mu (s_res f0) = false -> conf_run ms (alone f0) = Some cf ->
  exists done holder rs f,
    c_order cf = done ++ option_list holder /\ NoDup (c_order cf).*1 /\
    (forall n c, (n, c) ∈ c_order cf -> (ms ≫= invoked) !! n = Some c) /\
    in_turn done.*2 f0 = (rs, f) /\
    (forall n r, c_callers cf !! n = Some (Returned r) <->
       exists i c, done !! i = Some (n, c) /\ rs !! i = Some r) /\
    (r_mu (s_res (c_st cf)) = false -> c_st cf = f /\ c_order cf = done) /\
    (forall ms1 ms2 cf1, ms = ms1 ++ ms2 -> conf_run ms1 (alone f0) = Some cf1 ->
       exists later, c_order cf = c_order cf1 ++ later /\
         forall n r, c_callers cf1 !! n = Some (Returned r) -> n ∈ (c_order cf1).*1) /\
    (forall n a, c_callers cf !! n = Some a ->
       (exists r, a = Returned r) \/ (exists n' cf', conf_step (Step n') cf = Some cf') \/
       (exists n' X (m : SM state X) k,
          c_callers cf !! n' = Some (Inside (Act m k)) /\ (m (c_st cf)).1 = Blocked)).
Proof.
  intros Hf Hrun.
  destruct (@serializes _ _ _ store_guarded f0 ms cf Hf Hrun)
    as (done & holder & rs & f & Ho & Hnd & Hc & Hseq & _ & Hrest).
  exists done, holder, rs, f. rewrite sequential_in_turn in Hseq.
  exact (conj Ho (conj Hnd (conj Hc (conj Hseq Hrest)))).
Qed.

End Concurrent.

(** ** Witness

    A caller updates, another one asks in the middle of it and gets its answer after
    it. *)

Module DemoCallers.
Import DemoStore.

#[global] Instance demo_guarded : Guarded (st (B:=bucket) (T:=bool)) call reply :=
  store_guarded false other clock store.

Definition calls : list (move (C:=call (T:=bool))) :=
  [Invoke (CUpdate "c1" raise); Step 0; Step 0; Invoke (CGet "c1"); Step 0] ++
  replicate 10 (Step 0) ++ replicate 6 (Step 1).
Definition reached : conf (S:=st (B:=bucket) (T:=bool)) (C:=call (T:=bool)) :=
  default (alone origin) (conf_run calls (alone origin)).

End DemoCallers.

Lemma Store_serializes_witness :
  let cf := DemoCallers.reached in
  (c_order cf).*1 = [0; 1] /\
  exists c0 c1, in_turn false DemoStore.other DemoStore.clock DemoStore.store [c0; c1]
      DemoStore.origin =
    ([Done (RState true None); Done (RState true None)], c_st cf).
Proof.
  intros cf. split; [reflexivity|].
  destruct (Store_serializes false DemoStore.other DemoStore.clock DemoStore.store
    DemoStore.origin DemoCallers.calls cf) as
    (done & holder & rs & f & _ & _ & _ & Hrun & Hret & Hfree & _).
  - reflexivity.
  - apply Some_default. vm_compute. reflexivity.
  - destruct Hfree as [<- Ho]; [reflexivity|].
    assert (done = c_order cf) as -> by done.
    exists (CUpdate "c1" DemoStore.raise), (CGet "c1").
    change ((c_order cf).*2) with [CUpdate "c1" DemoStore.raise; CGet (T:=bool) "c1"] in Hrun.
    rewrite Hrun. f_equal. vm_compute in Hrun. by injection Hrun as <-.
Defined.
