(* ===== verification/Natstest.v ===== *)
(** * The embedded test server (testutil/natstest/server.go)

    Helpers that start a server, or JetStream on one, for a test and register the
    teardown with [t.Cleanup]. The server, the file system and the client library
    are parameters; the model keeps the calls made on them with their answers, and
    the cleanup stack of every test, so that a test ends the way the testing
    package ends it: the last registered cleanup first. *)

From stdpp Require Import gmultiset.
From S2P Require Import Prelude Values.

Module Natstest.

(** A [*natsserver.Server]: nil, or one of the servers. *)
Definition srvPtr : Type := option nat.

(** The calls on the libraries, with their answers. *)
Inductive tcall :=
| TNewServer (answer : nat + goerror)
| TStart (srv : srvPtr)
| TReadyForConnections (srv : srvPtr) (answer : bool)
| TClientURL (srv : srvPtr) (answer : string)
| TShutdown (srv : srvPtr)
| TWaitForShutdown (srv : srvPtr)
| TJetStreamEnabled (srv : srvPtr) (answer : bool)
| TMkdirTemp (answer : string + goerror)
| TEnableJetStream (srv : srvPtr) (storeDir : string) (answer : error)
| TConnect (url : string) (answer : nat + goerror)
| TJetStreamNew (nc : nat) (answer : error)
| TClose (nc : nat)
| TRemoveAll (dir : string)
| TFatalf (t : nat) (msg : string).

Class ServerEnv := {
  srv_NewServer : list tcall -> nat + goerror;
  srv_ReadyForConnections : list tcall -> srvPtr -> bool;
  srv_ClientURL : list tcall -> srvPtr -> string;
  srv_JetStreamEnabled : list tcall -> srvPtr -> bool;
  srv_EnableJetStream : list tcall -> srvPtr -> string -> error;
  os_MkdirTemp : list tcall -> string + goerror;
  nats_Connect : list tcall -> string -> nat + goerror;
  jetstream_New : list tcall -> nat -> error }.

Section Natstest.
Context `{ServerEnv}.

(** ** The code *)

Record Server := mkServer { s_t : nat; s_srv : srvPtr; s_url : string }.

(** The functions handed to [t.Cleanup]. *)
Inductive cleanup :=
| CleanServer (s : Server)
| CleanDir (dir : string)
| CleanConn (nc : nat).

(** The calls so far, and the cleanups of each test, newest first. *)
Record world := mkWorld { w_calls : list tcall; w_cleanups : gmap nat (list cleanup) }.

(** A computation of a test goroutine; [None] is [t.Fatalf], which ends it. *)
Definition T (A : Type) : Type := world -> option A * world.
#[local] Instance T_ret : MRet T := fun _ a w => (Some a, w).
#[local] Instance T_bind : MBind T := fun _ _ k m w =>
  match m w with
  | (Some a, w') => k a w'
  | (None, w') => (None, w')
  end.

(** A library call: its answer depends on the calls before it. *)
Definition ask {A} (answer : list tcall -> A) (record : A -> tcall) : T A := fun w =>
  let a := answer (w_calls w) in
  (Some a, mkWorld (w_calls w ++ [record a]) (w_cleanups w)).
Definition call (c : tcall) : T unit := ask (fun _ => tt) (fun _ => c).

Definition Fatalf {A} (t : nat) (msg : string) : T A := fun w =>
  (None, mkWorld (w_calls w ++ [TFatalf t msg]) (w_cleanups w)).
Definition stack (t : nat) (w : world) : list cleanup := default [] (w_cleanups w !! t).
Definition Cleanup (t : nat) (c : cleanup) : T unit := fun w =>
  (Some tt, mkWorld (w_calls w) (<[t := c :: stack t w]> (w_cleanups w))).

Definition ready (srv : srvPtr) : T bool :=
  ask (fun h => srv_ReadyForConnections h srv) (TReadyForConnections srv).

Definition New (t : nat) : T Server :=
  new ← ask srv_NewServer TNewServer;
  match new with
  | inr _ => Fatalf t "natstest: NewServer"
  | inl n =>
      let srv := Some n in
      call (TStart srv);;
      up ← ready srv;
      if (up : bool) then
        url ← ask (fun h => srv_ClientURL h srv) (TClientURL srv);
        let s := mkServer t srv url in
        Cleanup t (CleanServer s);;
        mret s
      else Fatalf t "natstest: server not ready in 5s"
  end.

Definition URL (s : Server) : string := s_url s.

Definition Shutdown (s : Server) : T unit :=
  match s_srv s with
  | Some _ => call (TShutdown (s_srv s));; call (TWaitForShutdown (s_srv s))
  | None => mret tt
  end.

(** [filepath.Join(dir, "store")] for a directory without a trailing slash. *)
Definition store_of (dir : string) : string := dir +:+ "/store".

(** The first half of [JetStream], which enables it. *)
Definition enable (s : Server) (t : nat) : T unit :=
  enabled ← ask (fun h => srv_JetStreamEnabled h (s_srv s)) (TJetStreamEnabled (s_srv s));
  if (enabled : bool) then mret tt
  else
    made ← ask os_MkdirTemp TMkdirTemp;
    match made with
    | inr _ => Fatalf t "natstest: MkdirTemp"
    | inl dir =>
        Cleanup t (CleanDir dir);;
        err ← ask (fun h => srv_EnableJetStream h (s_srv s) (store_of dir))
                (TEnableJetStream (s_srv s) (store_of dir));
        match err with
        | Some _ => Fatalf t "natstest: EnableJetStream"
        | None =>
            up ← ready (s_srv s);
            if (up : bool) then mret tt
            else Fatalf t "natstest: server not ready after EnableJetStream"
        end
    end.

(** The context it returns is named by its connection. *)
Definition JetStream (s : Server) (t : nat) : T nat :=
  enable s t;;
  conn ← ask (fun h => nats_Connect h (s_url s)) (TConnect (s_url s));
  match conn with
  | inr _ => Fatalf t "natstest: nats.Connect"
  | inl nc =>
      Cleanup t (CleanConn nc);;
      err ← ask (fun h => jetstream_New h nc) (TJetStreamNew nc);
      match err with
      | Some _ => Fatalf t "natstest: jetstream.New"
      | None => mret nc
      end
  end.

(** ** Tests

    What a test, one of several that may share a server, does with the package; a
    test that fails, or ends, runs its cleanups. *)

Definition run_cleanup (c : cleanup) : T unit :=
  match c with
  | CleanServer s => Shutdown s
  | CleanDir dir => call (TRemoveAll dir)
  | CleanConn nc => call (TClose nc)
  end.

Fixpoint run_cleanups (cs : list cleanup) : T unit :=
  match cs with
  | [] => mret tt
  | c :: rest => run_cleanup c;; run_cleanups rest
  end.

Definition finish (t : nat) (w : world) : world :=
  snd (run_cleanups (stack t w) (mkWorld (w_calls w) (delete t (w_cleanups w)))).

Inductive use :=
| UNew (t : nat)
| UJetStream (t : nat) (s : Server)
| UShutdown (s : Server)
| UEnd (t : nat).

Definition perform (u : use) (w : world) : world :=
  let ending {A} (t : nat) (r : option A * world) : world :=
    match r with (Some _, w') => w' | (None, w') => finish t w' end in
  match u with
  | UNew t => ending t (New t w)
  | UJetStream t s => ending t (JetStream s t w)
  | UShutdown s => snd (Shutdown s w)
  | UEnd t => finish t w
  end.

Definition performs (us : list use) : world := foldl (fun w u => perform u w) (mkWorld [] ∅) us.

(** ** What is held *)

Inductive held := HServer (srv : srvPtr) | HDir (dir : string) | HConn (nc : nat).
#[export] Instance held_eq_dec : EqDecision held.
Proof. solve_decision. Defined.
#[export] Instance held_countable : Countable held.
Proof.
  apply (inj_countable'
    (fun x => match x with HServer s => inl s | HDir d => inr (inl d) | HConn c => inr (inr c) end)
    (fun y => match y with
      | inl s => HServer s | inr (inl d) => HDir d | inr (inr c) => HConn c end)).
  by intros [].
Defined.

Definition after_call (m : gmultiset held) (c : tcall) : gmultiset held :=
  match c with
  | TStart srv => m ⊎ {[+ HServer srv +]}
  | TMkdirTemp (inl dir) => m ⊎ {[+ HDir dir +]}
  | TConnect _ (inl nc) => m ⊎ {[+ HConn nc +]}
  | TShutdown srv => m ∖ {[+ HServer srv +]}
  | TRemoveAll dir => m ∖ {[+ HDir dir +]}
  | TClose nc => m ∖ {[+ HConn nc +]}
  | _ => m
  end.
Definition open (calls : list tcall) : gmultiset held := foldl after_call ∅ calls.

(** What the registered cleanups will release. *)
Definition releases (c : cleanup) : gmultiset held :=
  match c with
  | CleanServer s => match s_srv s with Some _ => {[+ HServer (s_srv s) +]} | None => ∅ end
  | CleanDir dir => {[+ HDir dir +]}
  | CleanConn nc => {[+ HConn nc +]}
  end.
Definition owed_by (cs : list cleanup) : gmultiset held :=
  foldr (fun c m => releases c ⊎ m) ∅ cs.
Definition owed (w : world) : gmultiset held :=
  map_fold (fun _ cs m => owed_by cs ⊎ m) ∅ (w_cleanups w).

(** The servers [New] gave up on. *)
Definition unready_call (c : tcall) : gmultiset held :=
  match c with TReadyForConnections srv false => {[+ HServer srv +]} | _ => ∅ end.
Definition unready (calls : list tcall) : gmultiset held :=
  foldr (fun c m => unready_call c ⊎ m) ∅ calls.

(** ** Lemmas *)

Lemma open_snoc cs c : open (cs ++ [c]) = after_call (open cs) c.
Proof. unfold open. by rewrite foldl_app. Qed.

Lemma unready_snoc cs c : unready (cs ++ [c]) = unready cs ⊎ unready_call c.
Proof.
  unfold unready. induction cs as [|c' cs IH]; simpl; [multiset_solver|]. rewrite IH.
  multiset_solver.
Qed.

Lemma owed_delete t w :
  owed w = owed_by (stack t w) ⊎ owed (mkWorld (w_calls w) (delete t (w_cleanups w))).
Proof.
  unfold owed, stack; simpl. destruct (w_cleanups w !! t) as [cs|] eqn:Ht; simpl.
  - rewrite (map_fold_delete_L _ _ t cs) by (done || multiset_solver). done.
  - rewrite delete_id by done. multiset_solver.
Qed.

Lemma owed_insert cs t c w :
  owed (mkWorld cs (<[t := c :: stack t w]> (w_cleanups w))) = releases c ⊎ owed w.
Proof.
  rewrite (owed_delete t w). rewrite (owed_delete t (mkWorld cs _)). unfold stack at 1; simpl.
  rewrite lookup_insert_eq, delete_insert_eq. simpl. unfold owed; simpl. multiset_solver.
Qed.

(** Everything open will be released by a cleanup, or is in the hands of the code
    that is running, or is a server that did not get ready. *)
Definition covered (extra : gmultiset held) (w : world) : Prop :=
  open (w_calls w) ⊆ owed w ⊎ extra ⊎ unready (w_calls w).

Definition opened_by (c : tcall) : gmultiset held :=
  match c with
  | TStart srv => {[+ HServer srv +]}
  | TMkdirTemp (inl dir) => {[+ HDir dir +]}
  | TConnect _ (inl nc) => {[+ HConn nc +]}
  | _ => ∅
  end.

Definition log_call (c : tcall) (w : world) : world :=
  mkWorld (w_calls w ++ [c]) (w_cleanups w).

Lemma covered_call extra c w : covered extra w -> covered (opened_by c ⊎ extra) (log_call c w).
Proof.
  unfold covered, log_call; simpl. rewrite open_snoc, unready_snoc. intros Hc.
  change (owed (mkWorld (w_calls w ++ [c]) (w_cleanups w))) with (owed w).
  destruct c as [[|]| | | | | | |[|]| |? [|]| | | |]; simpl; multiset_solver.
Qed.

Lemma covered_close x c extra w :
  (forall m, after_call m c = m ∖ {[+ x +]}) ->
  covered ({[+ x +]} ⊎ extra) w -> covered extra (log_call c w).
Proof.
  intros Hc. unfold covered, log_call; simpl. rewrite open_snoc, unready_snoc, Hc.
  change (owed (mkWorld (w_calls w ++ [c]) (w_cleanups w))) with (owed w). multiset_solver.
Qed.

Lemma covered_unready srv extra w :
  covered ({[+ HServer srv +]} ⊎ extra) w ->
  covered extra (log_call (TReadyForConnections srv false) w).
Proof.
  unfold covered, log_call; simpl. rewrite open_snoc, unready_snoc; simpl.
  change (owed (mkWorld (w_calls w ++ [TReadyForConnections srv false]) (w_cleanups w)))
    with (owed w). multiset_solver.
Qed.

Lemma covered_Cleanup t c extra w :
  covered (releases c ⊎ extra) w -> covered extra (snd (Cleanup t c w)).
Proof.
  unfold covered, Cleanup; simpl. rewrite owed_insert. multiset_solver.
Qed.

Lemma covered_weaken extra extra' w : extra ⊆ extra' -> covered extra w -> covered extra' w.
Proof. unfold covered. multiset_solver. Qed.

(** A computation that is entered holding [P] leaves holding [Q], or fails holding
    nothing. *)
Definition triple {A} (P : gmultiset held) (m : T A) (Q : A -> gmultiset held) : Prop :=
  forall w, covered P w ->
  match m w with
  | (Some a, w') => covered (Q a) w'
  | (None, w') => covered ∅ w'
  end.

Lemma triple_ret {A} P (a : A) : triple P (mret a) (fun _ => P).
Proof. by intros w Hw. Qed.

Lemma triple_bind {A B} P (m : T A) (k : A -> T B) Q R :
  triple P m Q -> (forall a, triple (Q a) (k a) R) -> triple P (m ≫= k) R.
Proof.
  intros Hm Hk w Hw. specialize (Hm w Hw). unfold mbind, T_bind.
  destruct (m w) as [[a|] w']; [by apply Hk|done].
Qed.

Lemma triple_ask {A} P (answer : list tcall -> A) record :
  triple P (ask answer record) (fun a => opened_by (record a) ⊎ P).
Proof. intros w Hw. by apply covered_call. Qed.

Lemma triple_plain {A} P (answer : list tcall -> A) record :
  (forall a, opened_by (record a) = ∅) -> triple P (ask answer record) (fun _ => P).
Proof.
  intros Ho w Hw. eapply covered_weaken, covered_call, Hw. rewrite Ho. multiset_solver.
Qed.

Lemma triple_Fatalf {A} t msg (Q : A -> gmultiset held) : triple ∅ (Fatalf t msg) Q.
Proof.
  intros w Hw. eapply covered_weaken, (covered_call _ (TFatalf t msg)), Hw. multiset_solver.
Qed.

Lemma triple_Cleanup t c : triple (releases c) (Cleanup t c) (fun _ => ∅).
Proof.
  intros w Hw. apply (covered_Cleanup t c ∅). by rewrite gmultiset_disj_union_right_id.
Qed.

Lemma triple_ready srv :
  triple {[+ HServer srv +]} (ready srv) (fun b : bool => if b then {[+ HServer srv +]} else ∅).
Proof.
  intros w Hw. unfold ready, ask. cbn zeta. destruct (srv_ReadyForConnections _ _).
  - eapply covered_weaken, (covered_call _ (TReadyForConnections srv true)), Hw. multiset_solver.
  - apply covered_unready. eapply covered_weaken, Hw. multiset_solver.
Qed.

Lemma triple_Shutdown P s : triple P (Shutdown s) (fun _ => P).
Proof.
  unfold Shutdown. destruct (s_srv s) as [n|]; [|apply triple_ret].
  eapply triple_bind; [|intros; by apply triple_plain].
  intros w Hw. apply (covered_close (HServer (Some n))); [done|].
  eapply covered_weaken, Hw. multiset_solver.
Qed.

Lemma triple_New t : triple ∅ (New t) (fun _ => ∅).
Proof.
  unfold New. eapply triple_bind; [by apply triple_plain|]. intros [n|err]; [|apply triple_Fatalf].
  eapply triple_bind; [apply triple_ask|]. intros ?. simpl opened_by.
  rewrite gmultiset_disj_union_right_id. eapply triple_bind; [apply triple_ready|].
  intros []; [|apply triple_Fatalf]. eapply triple_bind; [by apply triple_plain|].
  intros url. eapply triple_bind; [|intros; apply triple_ret].
  exact (triple_Cleanup t (CleanServer (mkServer t (Some n) url))).
Qed.

Lemma triple_enable s t : triple ∅ (enable s t) (fun _ => ∅).
Proof.
  unfold enable. eapply triple_bind; [by apply triple_plain|]. intros []; [apply triple_ret|].
  eapply triple_bind; [apply triple_ask|]. intros [dir|err]; simpl;
    rewrite gmultiset_disj_union_right_id; [|apply triple_Fatalf].
  eapply triple_bind; [exact (triple_Cleanup t (CleanDir dir))|].
  intros ?. eapply triple_bind; [by apply triple_plain|]. intros [err|]; [apply triple_Fatalf|].
  eapply triple_bind; [by apply triple_plain|]. intros []; [apply triple_ret|apply triple_Fatalf].
Qed.

Lemma triple_JetStream s t : triple ∅ (JetStream s t) (fun _ => ∅).
Proof.
  unfold JetStream. eapply triple_bind; [apply triple_enable|]. intros ?.
  eapply triple_bind; [apply triple_ask|]. intros [nc|err]; simpl;
    rewrite gmultiset_disj_union_right_id; [|apply triple_Fatalf].
  eapply triple_bind; [exact (triple_Cleanup t (CleanConn nc))|].
  intros ?. eapply triple_bind; [by apply triple_plain|].
  intros [err|]; [apply triple_Fatalf|apply triple_ret].
Qed.

Lemma triple_cleanups cs : triple (owed_by cs) (run_cleanups cs) (fun _ => ∅).
Proof.
  induction cs as [|c cs IH]; [apply triple_ret|]. simpl. eapply triple_bind; [|intros; exact IH].
  destruct c as [s|dir|nc]; simpl.
  - unfold Shutdown. destruct (s_srv s) as [n|].
    + eapply triple_bind; [|intros; by apply triple_plain]. intros w Hw.
      by apply (covered_close (HServer (Some n))).
    + rewrite gmultiset_disj_union_left_id. apply triple_ret.
  - intros w Hw. by apply (covered_close (HDir dir)).
  - intros w Hw. by apply (covered_close (HConn nc)).
Qed.

Lemma finish_covered t w : covered ∅ w -> covered ∅ (finish t w).
Proof.
  intros Hw. unfold finish.
  pose proof (triple_cleanups (stack t w) (mkWorld (w_calls w) (delete t (w_cleanups w)))) as Ht.
  assert (covered (owed_by (stack t w)) (mkWorld (w_calls w) (delete t (w_cleanups w)))) as Hc.
  { unfold covered in *. rewrite (owed_delete t w) in Hw. simpl in *. multiset_solver. }
  specialize (Ht Hc). by destruct (run_cleanups _ _) as [[]].
Qed.

Lemma perform_covered u w : covered ∅ w -> covered ∅ (perform u w).
Proof.
  intros Hw. destruct u as [t|t s|s|t]; simpl.
  - pose proof (triple_New t w Hw) as Ht. destruct (New t w) as [[]]; [done|].
    by apply finish_covered.
  - pose proof (triple_JetStream s t w Hw) as Ht. destruct (JetStream s t w) as [[]]; [done|].
    by apply finish_covered.
  - pose proof (triple_Shutdown ∅ s w Hw) as Ht. by destruct (Shutdown s w) as [[]].
  - by apply finish_covered.
Qed.

(** ** Properties *)


End Natstest.

(** ** A server that works, and what sharing one between tests can do *)

Module Demo.

Definition enables (srv : srvPtr) (c : tcall) : bool :=
  match c with TEnableJetStream srv' _ None => bool_decide (srv = srv') | _ => false end.

#[export] Instance demo_server : ServerEnv := {|
  srv_NewServer h := inl (length h);
  srv_ReadyForConnections _ _ := true;
  srv_ClientURL _ _ := "nats://127.0.0.1:4222";
  srv_JetStreamEnabled h srv := existsb (enables srv) h;
  srv_EnableJetStream _ _ _ := None;
  os_MkdirTemp h := inl (if h is [] then "/tmp/js-0" else "/tmp/js-1");
  nats_Connect h _ := inl (length h);
  jetstream_New _ _ := None |}.

Definition shared : Server := mkServer 0 (Some 0) "nats://127.0.0.1:4222".

(** The store directory belongs to the test that enabled JetStream, JetStream to the
    server: when a subtest that was the first to call [JetStream] is over, its
    directory is removed, and the next call hands out a context all the same. *)
Example stale_store :
  let before := performs [UNew 0; UJetStream 1 shared; UEnd 1] in
  open (w_calls before) = {[+ HServer (Some 0) +]} /\
  fst (JetStream shared 0 before) = Some 13 /\
  open (w_calls (snd (JetStream shared 0 before))) =
    {[+ HServer (Some 0); HConn 13 +]}.
Proof. split_and!; vm_compute; reflexivity. Qed.

(** A test that ends has its connection closed, its directory removed, its server
    stopped, in this order. *)
Example teardown_order :
  drop 9 (w_calls (performs [UNew 0; UJetStream 0 shared; UEnd 0])) =
  [TJetStreamNew 8 None; TClose 8; TRemoveAll "/tmp/js-1"; TShutdown (Some 0);
   TWaitForShutdown (Some 0)].
Proof. vm_compute. reflexivity. Qed.

End Demo.
End Natstest.
